(* ===== verification/_CoqProject ===== *)
-Q . S2P
Prelude.v
Errors.v
BytesCrate.v
StdText.v
F64.v
Types.v
Frame.v
Request.v
Response.v
Tokio.v
FileSystem.v
BinarySearch.v
Index.v
Record.v
Segment.v
SegmentInv.v
SegmentRead.v
ZeroCopy.v
SegmentWrite.v
SegmentLoad.v
SegmentTheorems.v
SegmentFaults.v
Partition.v
Listing.v
PartitionInv.v
Isolation.v
PartitionWrite.v
PartitionRead.v
PartitionBatch.v
PartitionOpen.v
PartitionSpec.v
Registry.v
Handler.v
Connection.v
Clients.v
BenchReport.v
BrokerSpec.v
BrokerHistory.v
Layout.v
BrokerStore.v
DataDir.v
BrokerTasks.v
HandlerTheorems.v
BrokerSim.v
BrokerSteps.v
BrokerStart.v
BrokerRun.v
BrokerDelivery.v
BrokerTheorems.v
BrokerRestart.v
ClientRules.v
ClientTheorems.v
BenchTheorems.v
ReportTheorems.v
BrokerExamples.v
ClientExamples.v
ReportExamples.v
Termination.v
Examples.v
Findings.v
BrokerFindings.v
UnitTests.v
IntegrationTests.v
