(* ===== verification/Prelude.v ===== *)
(** * Ruka: a verified model of the message broker (root of the library)

    Ruka (src/src) is a message broker in the style of Kafka. Clients send
    binary frames over TCP; the broker appends messages to partitions of topics
    and serves them back by offset. A partition is a sequence of segment files,
    each with an index. This library models the program from its wire protocol
    down to its files and proves it correct where it is, and exhibits runs where
    it is not.

    ** Parts of the program and the files that model them

    - error.rs, config.rs: [Errors]. The error enum, the I/O errors it wraps and
      the configuration.
    - protocol/types.rs: [Types]. Constants, API keys, error codes.
    - protocol/frame.rs, protocol/codec.rs: [Frame]. `Frame::encode`,
      `Frame::decode` (split at the point where the body is complete:
      [Frame_decode], [decode_body]) and the codec fed with chunks.
    - protocol/request.rs: [Request]; protocol/response.rs: [Response].
    - storage/index.rs: [Index]. storage/segment.rs: [Record] (the type
      `Record`) and [Segment] (the type `Segment`).
    - storage/partition.rs: [Partition].
    - storage/topic.rs, broker/writer.rs: [Registry]. The registry's map, loading
      it from the data directory, creating a partition under the write lock, and
      one turn of the command loop of a partition task ([actor_turn]).
    - broker/handler.rs: [Handler], with the registry's async methods.
    - network/connection.rs, network/server.rs, main.rs: [Connection]. The frame
      loop of a connection, and the running broker: a [System] in which each
      [move] lets the accept loop, a connection task or a partition task run to
      its next `.await`; accepts that fail, a listener that cannot be bound
      ([start]) and the end by Ctrl-C ([shutdown]).
    - network/zero_copy.rs: [ZeroCopy], over the memmap2 crate as a parameter.
    - examples/client.rs, benchmark.rs, throughput_bench.rs, interview_bench.rs:
      [Clients]. A program is a [Session] that sends, receives and prints on a
      connection; [drive] runs it. [BenchReport]: what the benchmarks do around
      their sessions, which is clearing the data directory and starting a broker,
      averages, percentiles and rates in floating point, tables and result files.
    - the `#[cfg(test)]` modules of src/src: [UnitTests]; src/tests: [IntegrationTests].

    Below them are models of what the code uses from outside:

    - the `bytes` crate is a parameter: the class [BytesOps] of [BytesCrate] has
      the operations, [BytesLaws] their documented behaviour, and [ListBytes] is
      an instance that runs;
    - tokio's channels and tokio-util's `Framed` are parameters in the same way
      ([Tokio]: [MpscOps], [OneshotOps], [FramedOps], their laws, [ListTokio]), and
      so are the texts of errors ([ErrorTexts] of [Handler]) and memory maps
      ([MmapOps] of [ZeroCopy]);
    - the standard library is modelled: [FileSystem] (std::fs, std::io,
      std::path, the clock), [BinarySearch] (`binary_search_by_key`), [StdText]
      (UTF-8 validation, decimal formatting and parsing), [F64] (the operations on
      `f64` the benchmarks use, over the binary64 numbers of the Standard Library);
    - the readings of the benchmarks' clock, the processes that cargo starts and
      the JSON serialiser are arguments of the definitions in [BenchReport].

    ** How the code is translated

    A function keeps its Rust name with its type as prefix ([Segment_append] is
    `Segment::append`). A method on `&mut self` is a computation of the monad
    [M] below on the object (and, in the storage layer, on the [World] of files),
    so what was changed before an error stays changed. Results are [Ok], [Err]
    or [Panic]; `?` is the monad's bind. Integers are [Z] with the wrap-around of
    their width where the source computes ([add_u64], [as_u32], ...). Blocks of a
    long method that a proof treats on their own are separate definitions
    ([load_body], [batch_build], [rotate], ...).

    The world has a schedule of the operating system's answers: each call takes
    one, which is success, a short read or an error (for a write, after part of
    it). Theorems that assume a [healthy] world hold for every pattern of short
    reads; [prompt] worlds have none. The clock readings and the order in which a
    directory is listed are part of the world too.

    Loops that are not structural have fuel: the length of the buffer for the
    record loops (a decoded record takes at least 28 bytes), the number of
    segments for `Partition::read_batch`, twice the number of payloads for
    `Partition::append_batch` (a turn stores a payload or starts a segment in
    which the next turn does). [Termination] proves these bounds enough on every
    input and for every schedule.

    An async function is a [Future]: a value or a computation that can be polled
    on what the tasks share. A poll runs to the next `.await` that can suspend
    it: waiting for a lock, a channel or a reply. Critical sections of the
    registry's lock contain no `.await`, so each is one poll, and a command is
    served by its partition task in one turn. Every interleaving of polls and
    turns is a list of moves; no fairness is assumed. Tasks, channels and
    replies are named by numbers in the order of their creation.

    ** What is proved

    - Protocol ([Frame], [Request], [Response]): encoding and decoding are
      inverse, decoding never panics on any input and does not depend on how the
      stream is cut into chunks, requests and responses survive the wire.
    - Files of a segment ([Index], [Record], [SegmentInv], [SegmentRead],
      [SegmentWrite], [SegmentLoad], [SegmentTheorems]): the invariant [seg_inv]
      ties the log file, the index file and the counters to a list of records;
      appends (where the log is [writable]), reads and loading keep it and mean
      what they should; a log cut at any byte whose index is missing, empty or
      misaligned is recovered. [SegmentFaults]: what an append does to a loaded
      segment that was read, and what an index with too few entries hides.
    - Partitions ([Listing], [PartitionInv], [PartitionWrite], [PartitionRead],
      [PartitionOpen], [PartitionSpec]): the invariant [part_inv] says the
      segments form a chain that stores a list of records with consecutive
      offsets; [spec_step] is the abstract append-only log, and every run of a
      new partition refines it; what was stored in a [sound_run] (any run of a
      new partition, appends and then reads of a reopened one) survives a
      restart. [PartitionBatch]: the exact result of a batch read, and when it
      skips records, for which [spec_step] allows any sublist after the first
      record. [serving] is a
      partition in use with its log, also one that was reopened, as far as its
      [access] mode goes. [Isolation]: an operation changes only files below its
      partition's directory.
    - The broker: [BrokerSpec] is the atomic broker, a map of logs in which a
      request takes effect at once; [BrokerHistory] explains every response by the
      logs. [BrokerStore] has the invariant of registry and tasks, [DataDir] loads
      a data directory that holds logs, [BrokerTasks] the program points of a
      connection, [HandlerTheorems] the answers of a handler in any environment
      (a success exactly when its command was replied one, an error on every
      failure), [BrokerSim] the simulation relation, [BrokerSteps] the simulation of every move,
      [BrokerStart] the start-up ([launch] is the setting of all theorems about
      brokers), [BrokerRun] whole runs and progress, [BrokerDelivery] the sizes of
      responses, [Layout] the paths of partitions. [BrokerTheorems] concludes: the
      broker is linearizable, has one writer per partition, bounded mailboxes, and
      answers every request in a bounded number of moves; clients can decode the
      answers and read their own writes.
      [BrokerRestart]: a broker stopped after any move and started again serves
      the same logs and, for clients that satisfy [clients_ok] again, is launched
      in the sense of these theorems, which so hold along any sequence of
      restarts; no message acknowledged in this setting is lost, and the clients
      of the next broker fetch it.
    - The example clients against the broker, under every interleaving:
      [ClientRules] has the rules for sessions and what the broker wrote on a
      closed connection, given what it read; a client and its connection are
      [connected] when each reads what the other wrote. [ClientTheorems]: `client.rs`
      reads its message back. [BenchTheorems]: the benchmarks keep their window,
      never wait for a reply that cannot come, and end with every request
      answered; the pipelined loop has the number of batches as fuel, which is
      proved to be enough. [ReportTheorems]: the latency test reports the
      percentiles of what it measured, the broker that interview_bench.rs starts
      is launched on an empty directory, and the result files hold the report.
    - [Termination]: every storage operation ends.
    - [Examples], [BrokerExamples], [ClientExamples], [ReportExamples]: the
      concrete states and runs at which the theorems are applied.
    - [UnitTests], [IntegrationTests]: the 29 unit tests of the sources and the 37
      integration tests of the repository pass in the model, a check of the
      definitions against the authors' expectations.
    - [Findings], [BrokerFindings]: single runs in which the storage layer loses, hides or
      overwrites records or panics, and in which topics share a log or get lost.

    A partition that was reopened after a restart satisfies the invariant as
    well, but its log is not in append mode, and a read moves the place of the
    next write, which [misplaced_append_overwrites] shows to be harmful. So a
    reopened partition is usable in one of two ways, by appends only or by reads
    only ([access], [usable_for]), and the theorems about the broker ask of
    its clients that they use each partition found on the disk in one way
    ([one_way]); partitions created by this process have no such condition. The
    data directory is empty or holds the logs [logs] ([data_dir]), as a broker or
    a crash leaves them ([dir_state]: complete records, then a tail on which
    decoding stops, with indexes missing, empty, misaligned or complete; a tail
    that makes the decoder panic, [damaged_log_panics], and an index with some of
    its entries, [stale_index_hides], are excluded). The theorems also assume that
    the channel capacity is positive ([capacity_zero_panics]), that
    topics are single names ([plain_topic]: [topic_aliases_share_log] shows why),
    that the operating system reports no errors, and that clients send finitely
    many requests and read their answers. The number of moves is bounded by ten
    per request, six per connection and one per failed accept: a request takes at most four polls of its
    connection to reach the partition task, one turn of the task and two polls to
    get back to the next frame.

    ** What is not modelled

    Of the server: the command line (parsed by clap), socket options, addresses
    and tracing. A sender that is dropped does not end the idle task at the other
    end. Paths are not resolved (`..`, links, names with a zero byte). Of the
    example programs: their command lines, connecting, progress messages, the
    three seconds interview_bench.rs waits for its broker and the end of that
    process; a line of the CSV file is one write, where `writeln!` makes several.
    Durability is that of the file
    contents: what a power failure keeps of unsynced writes is represented by
    the states [on_disk] and [dir_state] allow, not derived from a cache model. *)
From Stdlib Require Export ZArith Lia.
From Stdlib.Init Require Export Byte.
From Stdlib.Strings Require Import Byte.
From Stdlib.Strings Require String.
Export String.StringSyntax.
From stdpp Require Export prelude gmap.

#[local] Open Scope Z_scope.

(** ** Results, panics and the state monad of `&mut` methods

    A Rust function that returns [Result<T>] ends in [Ok] or [Err]; it may also
    panic (an out-of-range slice, a read past the end of a buffer). [OutOfFuel]
    is the value of a bounded loop whose bound was too small; every loop of the
    development is proved not to reach it. *)
Inductive outcome (E A : Type) : Type :=
| Ok (a : A)
| Err (e : E)
| Panic
| OutOfFuel.
Arguments Ok {E A} a.
Arguments Err {E A} e.
Arguments Panic {E A}.
Arguments OutOfFuel {E A}.

(** A computation that owns a state [S] mutably: what was written before an
    error or a panic stays written, as in Rust. *)
Definition M (E S A : Type) : Type := S → outcome E A * S.

#[export] Instance M_ret {E S} : MRet (M E S) := λ A a s, (Ok a, s).
#[export] Instance M_bind {E S} : MBind (M E S) := λ A B f m s,
  match m s with
  | (Ok a, s') => f a s'
  | (Err e, s') => (Err e, s')
  | (Panic, s') => (Panic, s')
  | (OutOfFuel, s') => (OutOfFuel, s')
  end.
#[export] Instance M_fmap {E S} : FMap (M E S) := λ A B f m s,
  match m s with
  | (Ok a, s') => (Ok (f a), s')
  | (Err e, s') => (Err e, s')
  | (Panic, s') => (Panic, s')
  | (OutOfFuel, s') => (OutOfFuel, s')
  end.

Section monad.
Context {E S : Type}.
Implicit Types s : S.

(** `return Err(e)` and an explicit panic. *)
Definition throw {A} (e : E) : M E S A := λ s, (Err e, s).
Definition panic {A} : M E S A := λ s, (Panic, s).
Definition out_of_fuel {A} : M E S A := λ s, (OutOfFuel, s).

(** Reading and writing the owned state. *)
Definition gets {A} (f : S → A) : M E S A := λ s, (Ok (f s), s).
Definition modify (f : S → S) : M E S unit := λ s, (Ok tt, f s).

(** A call whose error is inspected instead of propagated with `?`. *)
Definition attempt {A} (m : M E S A) : M E S (A + E) := λ s,
  match m s with
  | (Ok a, s') => (Ok (inl a), s')
  | (Err e, s') => (Ok (inr e), s')
  | (Panic, s') => (Panic, s')
  | (OutOfFuel, s') => (OutOfFuel, s')
  end.

(** The result of a function that does not touch the state. *)
Definition lift {A} (o : outcome E A) : M E S A := λ s, (o, s).

(** An `Option` that must be `Some` (`unwrap`, an index in range). *)
Definition unwrap {A} (o : option A) : M E S A :=
  match o with Some a => mret a | None => panic end.

Lemma run_ret {A} (a : A) s : (mret a : M E S A) s = (Ok a, s).
Proof. reflexivity. Qed.

Lemma bind_Ok {A B} (m : M E S A) (f : A → M E S B) s a s' :
  m s = (Ok a, s') → (m ≫= f) s = f a s'.
Proof. intros H. unfold mbind, M_bind. by rewrite H. Qed.

Lemma bind_Err {A B} (m : M E S A) (f : A → M E S B) s e s' :
  m s = (Err e, s') → (m ≫= f) s = (Err e, s').
Proof. intros H. unfold mbind, M_bind. by rewrite H. Qed.

Lemma bind_Panic {A B} (m : M E S A) (f : A → M E S B) s :
  fst (m s) = Panic → fst ((m ≫= f) s) = Panic.
Proof. intros H. unfold mbind, M_bind. destruct (m s) as [[] ?]; naive_solver. Qed.

Lemma bind_assoc {A B C} (m : M E S A) (f : A → M E S B) (g : B → M E S C) s :
  (m ≫= λ a, f a ≫= g) s = ((m ≫= f) ≫= g) s.
Proof. unfold mbind, M_bind. by destruct (m s) as [[] ?]. Qed.

(** Case analysis on a successful composition. *)
Lemma bind_Ok_inv {A B} (m : M E S A) (f : A → M E S B) s b s'' :
  (m ≫= f) s = (Ok b, s'') → ∃ a s', m s = (Ok a, s') ∧ f a s' = (Ok b, s'').
Proof. unfold mbind, M_bind. destruct (m s) as [[] ?]; naive_solver. Qed.

Lemma attempt_Ok {A} (m : M E S A) s a s' :
  m s = (Ok a, s') → attempt m s = (Ok (inl a), s').
Proof. intros H. unfold attempt. by rewrite H. Qed.

Lemma attempt_Err {A} (m : M E S A) s e s' :
  m s = (Err e, s') → attempt m s = (Ok (inr e), s').
Proof. intros H. unfold attempt. by rewrite H. Qed.
End monad.

(** A method of a field `self.f.m()` runs on the part [T] of the state [S]. *)
Definition zoom {E S T A} (get : S → T) (put : T → S → S) (m : M E T A) : M E S A := λ s,
  let '(o, t) := m (get s) in (o, put t s).

(** A block that works on a local mutable variable and drops it at the end. *)
Definition scoped {E S T A} (t : T) (m : M E T A) : M E S A := λ s, (fst (m t), s).

Lemma zoom_Ok {E S T A} (get : S → T) (put : T → S → S) (m : M E T A) s a t :
  m (get s) = (Ok a, t) → zoom get put m s = (Ok a, put t s).
Proof. intros H. unfold zoom. by rewrite H. Qed.

Lemma zoom_Err {E S T A} (get : S → T) (put : T → S → S) (m : M E T A) s e t :
  m (get s) = (Err e, t) → zoom get put m s = (Err e, put t s).
Proof. intros H. unfold zoom. by rewrite H. Qed.

Lemma scoped_eq {E S T A} (t : T) (m : M E T A) (s : S) o t' :
  m t = (o, t') → scoped t m s = (o, s).
Proof. intros H. unfold scoped. by rewrite H. Qed.

(** Symbolic execution: one step of a composition, given the equation (or a
    lemma) for its first call. *)
Tactic Notation "mstep" uconstr(H) :=
  first [ erewrite bind_Ok; [|eapply H] | erewrite bind_Err; [|eapply H] ].
Ltac mret_step := erewrite bind_Ok by reflexivity.
(** The branch taken by a match on a known result. *)
Ltac reduce := cbv beta iota zeta.

(** ** Machine integers

    A `uN` is a [Z] in range; `as uN` truncates, and `+` in a release build
    wraps around. *)
Definition is_uint (w v : Z) : Prop := 0 ≤ v < 2 ^ w.
Abbreviation is_u8 := (is_uint 8).
Abbreviation is_u16 := (is_uint 16).
Abbreviation is_u32 := (is_uint 32).
Abbreviation is_u64 := (is_uint 64).

Definition wrap (w z : Z) : Z := z mod 2 ^ w.
Abbreviation as_u16 := (wrap 16).
Abbreviation as_u32 := (wrap 32).
Abbreviation as_u64 := (wrap 64).
Definition U32_MAX : Z := 4294967295.

Definition add_u32 (a b : Z) : Z := wrap 32 (a + b).
Definition add_u64 (a b : Z) : Z := wrap 64 (a + b).

#[export] Instance is_uint_dec w v : Decision (is_uint w v).
Proof. unfold is_uint. apply _. Defined.

Lemma wrap_id w z : is_uint w z → wrap w z = z.
Proof. unfold is_uint, wrap. apply Z.mod_small. Qed.

Lemma wrap_uint w z : 0 ≤ w → is_uint w (wrap w z).
Proof. intros. unfold is_uint, wrap. apply Z.mod_pos_bound. by apply Z.pow_pos_nonneg. Qed.

Lemma add_u64_id a b : 0 ≤ a + b < 2 ^ 64 → add_u64 a b = a + b.
Proof. intros. by apply wrap_id. Qed.

Lemma add_u32_id a b : 0 ≤ a + b < 2 ^ 32 → add_u32 a b = a + b.
Proof. intros. by apply wrap_id. Qed.

(** ** Byte sequences and big-endian integers *)
Abbreviation bytes := (list byte).

(** A Rust string literal is its UTF-8 bytes. *)
Definition str (s : String.string) : bytes := String.list_byte_of_string s.
Arguments str s%_string_scope.

(** `len()` of a slice, a `Vec<u8>` or a buffer, a `usize`. *)
Definition blen {A} (l : list A) : Z := Z.of_nat (length l).

Definition byte_to_Z (b : byte) : Z := Z.of_N (Byte.to_N b).
Definition byte_of_Z (z : Z) : byte :=
  match Byte.of_N (Z.to_N (z mod 256)) with Some b => b | None => x00 end.

#[export] Instance byte_eq_dec : EqDecision byte := Byte.byte_eq_dec.
#[export] Instance byte_countable : Countable byte.
Proof.
  apply (inj_countable Byte.to_N Byte.of_N). intros b. apply Byte.of_to_N.
Defined.

(** `to_be_bytes` of an [n]-byte integer and its inverse. *)
Fixpoint be_bytes (n : nat) (v : Z) : bytes :=
  match n with
  | O => []
  | S n' => byte_of_Z (Z.shiftr v (8 * Z.of_nat n')) :: be_bytes n' v
  end.
Definition be_step (acc : Z) (b : byte) : Z := acc * 256 + byte_to_Z b.
Definition be_val (bs : bytes) : Z := foldl be_step 0 bs.

Lemma byte_range b : 0 ≤ byte_to_Z b < 256.
Proof. unfold byte_to_Z. pose proof (Byte.to_N_bounded b). lia. Qed.

Lemma byte_to_of_Z z : byte_to_Z (byte_of_Z z) = z mod 256.
Proof.
  unfold byte_to_Z, byte_of_Z. pose proof (Z.mod_pos_bound z 256 ltac:(lia)).
  destruct (Byte.of_N _) as [b|] eqn:Hb.
  - apply Byte.to_of_N in Hb. lia.
  - apply Byte.of_N_None_iff in Hb. lia.
Qed.

Lemma byte_to_Z_inj b1 b2 : byte_to_Z b1 = byte_to_Z b2 → b1 = b2.
Proof.
  unfold byte_to_Z. intros H%N2Z.inj.
  assert (Some b1 = Some b2) by (rewrite <- !Byte.of_to_N; congruence). congruence.
Qed.

Lemma byte_of_to_Z b : byte_of_Z (byte_to_Z b) = b.
Proof.
  apply byte_to_Z_inj. rewrite byte_to_of_Z. apply Z.mod_small, byte_range.
Qed.

Lemma length_be_bytes n v : length (be_bytes n v) = n.
Proof. induction n; simpl; congruence. Qed.

Lemma be_val_acc bs acc : foldl be_step acc bs = acc * 256 ^ blen bs + be_val bs.
Proof.
  unfold be_val, blen. revert acc. induction bs as [|b bs IH]; intros acc; simpl; [lia|].
  rewrite IH, (IH (be_step 0 b)). unfold be_step.
  replace (Z.of_nat (S (length bs))) with (1 + Z.of_nat (length bs)) by lia.
  rewrite Z.pow_add_r by lia. lia.
Qed.

Lemma be_val_cons b bs : be_val (b :: bs) = byte_to_Z b * 256 ^ blen bs + be_val bs.
Proof. unfold be_val at 1. simpl. rewrite be_val_acc. unfold be_step. lia. Qed.

Lemma be_val_bound bs : 0 ≤ be_val bs < 256 ^ blen bs.
Proof.
  induction bs as [|b bs IH]; [unfold be_val, blen; simpl; lia|].
  rewrite be_val_cons. pose proof (byte_range b).
  replace (blen (b :: bs)) with (1 + blen bs) by (unfold blen; simpl; lia).
  rewrite Z.pow_add_r by (unfold blen; lia). nia.
Qed.

Lemma be_val_be_bytes n v : be_val (be_bytes n v) = v mod 256 ^ Z.of_nat n.
Proof.
  induction n as [|n IH]; [simpl; by rewrite Z.mod_1_r|].
  cbn [be_bytes]. rewrite be_val_cons, IH, byte_to_of_Z. unfold blen. rewrite length_be_bytes.
  rewrite Z.shiftr_div_pow2 by lia.
  replace (2 ^ (8 * Z.of_nat n)) with (256 ^ Z.of_nat n)
    by (rewrite Z.pow_mul_r by lia; reflexivity).
  replace (256 ^ Z.of_nat (S n)) with (256 ^ Z.of_nat n * 256)
    by (rewrite Nat2Z.inj_succ, Z.pow_succ_r by lia; lia).
  rewrite Z.rem_mul_r by (try apply Z.pow_nonzero; lia). lia.
Qed.

Lemma pow_256 n : 2 ^ (8 * Z.of_nat n) = 256 ^ Z.of_nat n.
Proof. by rewrite Z.pow_mul_r by lia. Qed.

(** The bytes above the [n]th do not matter. *)
Lemma be_bytes_high n m c v :
  (n ≤ m)%nat → be_bytes n (c * 256 ^ Z.of_nat m + v) = be_bytes n v.
Proof.
  induction n as [|n IH]; intros Hle; [done|]. cbn [be_bytes].
  rewrite IH by lia. f_equal. apply byte_to_Z_inj.
  rewrite !byte_to_of_Z, !Z.shiftr_div_pow2, pow_256 by lia.
  replace (c * 256 ^ Z.of_nat m)
    with ((c * 256 ^ (Z.of_nat m - Z.of_nat n - 1) * 256) * 256 ^ Z.of_nat n).
  - rewrite Z.div_add_l by (apply Z.pow_nonzero; lia).
    rewrite Z.add_comm, Z.mod_add by lia. reflexivity.
  - replace (Z.of_nat m) with ((Z.of_nat m - Z.of_nat n - 1) + 1 + Z.of_nat n) at 2 by lia.
    rewrite !Z.pow_add_r by lia. lia.
Qed.

Lemma be_bytes_be_val bs : be_bytes (length bs) (be_val bs) = bs.
Proof.
  induction bs as [|b bs IH]; [done|]. cbn [length be_bytes].
  pose proof (be_val_bound bs) as Hb. unfold blen in Hb.
  rewrite be_val_cons. unfold blen. rewrite be_bytes_high, IH by lia. f_equal.
  rewrite Z.shiftr_div_pow2, pow_256 by lia.
  rewrite Z.div_add_l, (Z.div_small (be_val bs)), Z.add_0_r by lia. apply byte_of_to_Z.
Qed.

(** ** Lengths: a rewrite database and its closing tactic *)
Create Rewrite HintDb len.

Lemma blen_nil {A} : blen (@nil A) = 0.
Proof. reflexivity. Qed.
Lemma blen_cons {A} (x : A) l : blen (x :: l) = 1 + blen l.
Proof. unfold blen. simpl. lia. Qed.
Lemma blen_app {A} (l1 l2 : list A) : blen (l1 ++ l2) = blen l1 + blen l2.
Proof. unfold blen. rewrite length_app. lia. Qed.
Lemma blen_be_bytes n v : blen (be_bytes n v) = Z.of_nat n.
Proof. unfold blen. by rewrite length_be_bytes. Qed.
Lemma blen_nonneg {A} (l : list A) : 0 ≤ blen l.
Proof. unfold blen. lia. Qed.
Lemma blen_take {A} (l : list A) n : blen (take (Z.to_nat n) l) = Z.max 0 (Z.min n (blen l)).
Proof. unfold blen. rewrite length_take. lia. Qed.
Lemma blen_drop {A} (l : list A) n : blen (drop (Z.to_nat n) l) = Z.max 0 (blen l - Z.max 0 n).
Proof. unfold blen. rewrite length_drop. lia. Qed.
Lemma blen_map {A B} (f : A → B) l : blen (map f l) = blen l.
Proof. unfold blen. by rewrite length_map. Qed.
Lemma blen_0 {A} (l : list A) : blen l = 0 → l = [].
Proof. unfold blen. destruct l; [done|simpl; lia]. Qed.

#[export] Hint Rewrite @blen_nil @blen_cons @blen_app @blen_be_bytes @blen_take @blen_drop
  @blen_map : len.

(** Adds [0 ≤ blen l] for every length that occurs, then decides. *)
Ltac note_blen :=
  repeat match goal with
  | |- context [blen ?l] =>
      lazymatch goal with H : 0 ≤ blen l |- _ => fail | _ => pose proof (blen_nonneg l) end
  | _ : context [blen ?l] |- _ =>
      lazymatch goal with H : 0 ≤ blen l |- _ => fail | _ => pose proof (blen_nonneg l) end
  end.
Ltac len := autorewrite with len in *; note_blen; try lia.

(** Cutting a concatenation at the length of its first part. *)
Lemma take_blen_app {A} (l1 l2 : list A) n : n = blen l1 → take (Z.to_nat n) (l1 ++ l2) = l1.
Proof. intros ->. unfold blen. rewrite Nat2Z.id. apply take_app_length. Qed.
Lemma drop_blen_app {A} (l1 l2 : list A) n : n = blen l1 → drop (Z.to_nat n) (l1 ++ l2) = l2.
Proof. intros ->. unfold blen. rewrite Nat2Z.id. apply drop_app_length. Qed.

(** Filters that keep everything or nothing. *)
Lemma filter_all {A} (P : A → Prop) `{∀ x, Decision (P x)} (l : list A) :
  Forall P l → filter P l = l.
Proof. induction 1; [done|]. rewrite filter_cons_True by done. by f_equal. Qed.
Lemma filter_none {A} (P : A → Prop) `{∀ x, Decision (P x)} (l : list A) :
  Forall (λ x, ¬ P x) l → filter P l = [].
Proof. induction 1; [done|]. by rewrite filter_cons_False by done. Qed.

(** Comparisons of the code as propositions. *)
Ltac case_Zbool :=
  match goal with
  | |- context [(?a <? ?b)%Z] => destruct (Z.ltb_spec a b)
  | |- context [(?a <=? ?b)%Z] => destruct (Z.leb_spec a b)
  | |- context [(?a =? ?b)%Z] => destruct (Z.eqb_spec a b)
  end.
