(* ===== verification/Errors.v ===== *)
(** * Errors (src/src/error.rs, src/src/config.rs)

    The broker's error type, the I/O errors it wraps, and the configuration
    values the storage layer reads. *)
From S2P Require Import Prelude.

(** The part of [std::io::Error] the code can observe: the kinds the standard
    library raises by itself and the operating system's error codes. *)
Inductive io_error : Type :=
| NotFound
| AlreadyExists
| InvalidInput
| UnexpectedEof
| OsError (code : Z)
| Other (msg : bytes).                 (** `io::Error::other` *)

Inductive RukaError : Type :=
| InvalidMagicByte (b : Z)
| InvalidFrame (msg : bytes)
| UnknownApiKey (k : Z)
| FrameTooShort (needed have : Z)
| InvalidTopicName
| MessageTooLarge
| FrameTooLarge (max got : Z)
| SegmentFull (current max : Z)
| OffsetNotFound (o : Z)
| CorruptedIndex (pos : Z)
| PartitionNotFound (topic : bytes) (partition : Z)
| Io (e : io_error)
| ConnectionReset
| WriteFailed (msg : bytes).

#[export] Instance io_error_eq_dec : EqDecision io_error.
Proof. solve_decision. Defined.
#[export] Instance RukaError_eq_dec : EqDecision RukaError.
Proof. solve_decision. Defined.

(** `Result<T>` of the crate, for a method on the state [S]. *)
Abbreviation Res := (M RukaError).

(** ** Configuration (config.rs) *)
Module Config.
Inductive SyncLevel : Type := None_ | Log | LogAndIndex.

#[export] Instance SyncLevel_eq_dec : EqDecision SyncLevel.
Proof. solve_decision. Defined.

Record BrokerConfig : Type := {
  port : Z;
  host : bytes;
  data_dir : bytes;
  segment_max_bytes : Z;
  default_partitions : Z;
  sync_level : SyncLevel;
  channel_capacity : Z
}.

Definition BrokerConfig_default : BrokerConfig :=
  {| port := 9092; host := str "127.0.0.1"; data_dir := str "./data"; segment_max_bytes := 10 * 1024 * 1024;
     default_partitions := 1; sync_level := LogAndIndex; channel_capacity := 1024 |}.
End Config.
