(* ===== verification/BytesCrate.v ===== *)
(** * The interface of the `bytes` crate

    `Bytes` and `BytesMut` come from a third-party crate, so they are a
    parameter of the model. A buffer is its readable contents; the class
    [BytesOps] has the cursor operations the broker calls, each a method on the
    buffer it mutates, and [BytesLaws] states what the crate documents of them:
    `put_*` appends big-endian bytes, `get_*` reads them from the front and
    panics when too few remain, `split_to`/`copy_to_bytes` cut a prefix off and
    panic past the end. [ListBytes] is an instance, used to run the model. *)
From S2P Require Import Prelude Errors.
#[local] Open Scope Z_scope.

Class BytesOps : Type := {
  put_u8 : Z → Res bytes unit;
  put_u16 : Z → Res bytes unit;
  put_u32 : Z → Res bytes unit;
  put_u64 : Z → Res bytes unit;
  put_slice : bytes → Res bytes unit;
  get_u8 : Res bytes Z;
  get_u16 : Res bytes Z;
  get_u32 : Res bytes Z;
  get_u64 : Res bytes Z;
  advance : Z → Res bytes unit;
  split_to : Z → Res bytes bytes;
  copy_to_bytes : Z → Res bytes bytes
}.

(** [put] appends the [n]-byte big-endian encoding. *)
Definition put_law (n : nat) (put : Z → Res bytes unit) : Prop :=
  ∀ v b, put v b = (Ok tt, b ++ be_bytes n v).
(** [get] takes [n] bytes off the front, or panics. *)
Definition get_law (n : nat) (get : Res bytes Z) : Prop :=
  (∀ b, Z.of_nat n ≤ blen b → get b = (Ok (be_val (take n b)), drop n b)) ∧
  (∀ b, blen b < Z.of_nat n → fst (get b) = Panic).
(** [cut] splits the buffer at an index, or panics. *)
Definition cut_law (cut : Z → Res bytes bytes) : Prop :=
  (∀ at_ b, 0 ≤ at_ ≤ blen b → cut at_ b = (Ok (take (Z.to_nat at_) b), drop (Z.to_nat at_) b)) ∧
  (∀ at_ b, blen b < at_ → fst (cut at_ b) = Panic).

Class BytesLaws `{!BytesOps} : Prop := {
  put_u8_law : put_law 1 put_u8;
  put_u16_law : put_law 2 put_u16;
  put_u32_law : put_law 4 put_u32;
  put_u64_law : put_law 8 put_u64;
  put_slice_law : ∀ d b, put_slice d b = (Ok tt, b ++ d);
  get_u8_law : get_law 1 get_u8;
  get_u16_law : get_law 2 get_u16;
  get_u32_law : get_law 4 get_u32;
  get_u64_law : get_law 8 get_u64;
  advance_law : (∀ n b, 0 ≤ n ≤ blen b → advance n b = (Ok tt, drop (Z.to_nat n) b)) ∧
                (∀ n b, blen b < n → fst (advance n b) = Panic);
  split_to_law : cut_law split_to;
  copy_to_bytes_law : cut_law copy_to_bytes
}.

(** `let mut buf = BytesMut::new(); ...; buf.freeze()`: the contents of a fresh
    buffer after the writes of [m]. *)
Definition built {A} (m : Res bytes A) : bytes := snd (m []).

(** ** Derived rules: reading what was written *)
Section rules.
Context `{BytesLaws}.
Implicit Types b t : bytes.

Lemma put_u8_eq v b : put_u8 v b = (Ok tt, b ++ be_bytes 1 v).
Proof. apply put_u8_law. Qed.
Lemma put_u16_eq v b : put_u16 v b = (Ok tt, b ++ be_bytes 2 v).
Proof. apply put_u16_law. Qed.
Lemma put_u32_eq v b : put_u32 v b = (Ok tt, b ++ be_bytes 4 v).
Proof. apply put_u32_law. Qed.
Lemma put_u64_eq v b : put_u64 v b = (Ok tt, b ++ be_bytes 8 v).
Proof. apply put_u64_law. Qed.

Lemma get_app n get v t :
  get_law n get → get (be_bytes n v ++ t) = (Ok (v mod 256 ^ Z.of_nat n), t).
Proof.
  intros [Hget _]. rewrite Hget by (len).
  rewrite take_app_length', drop_app_length' by (by rewrite length_be_bytes).
  by rewrite be_val_be_bytes.
Qed.

Lemma get_u8_app v t : is_u8 v → get_u8 (be_bytes 1 v ++ t) = (Ok v, t).
Proof. intros Hv. rewrite (get_app 1 _ _ _ get_u8_law). by rewrite Z.mod_small. Qed.
Lemma get_u16_app v t : is_u16 v → get_u16 (be_bytes 2 v ++ t) = (Ok v, t).
Proof. intros Hv. rewrite (get_app 2 _ _ _ get_u16_law). by rewrite Z.mod_small. Qed.
Lemma get_u32_app v t : is_u32 v → get_u32 (be_bytes 4 v ++ t) = (Ok v, t).
Proof. intros Hv. rewrite (get_app 4 _ _ _ get_u32_law). by rewrite Z.mod_small. Qed.
Lemma get_u64_app v t : is_u64 v → get_u64 (be_bytes 8 v ++ t) = (Ok v, t).
Proof. intros Hv. rewrite (get_app 8 _ _ _ get_u64_law). by rewrite Z.mod_small. Qed.

Lemma cut_app cut d t n : cut_law cut → n = blen d → cut n (d ++ t) = (Ok d, t).
Proof.
  intros [Hcut _] ->. rewrite Hcut by (len).
  by rewrite take_blen_app, drop_blen_app.
Qed.

Lemma split_to_app d t n : n = blen d → split_to n (d ++ t) = (Ok d, t).
Proof. apply cut_app, split_to_law. Qed.
Lemma copy_to_bytes_app d t n : n = blen d → copy_to_bytes n (d ++ t) = (Ok d, t).
Proof. apply cut_app, copy_to_bytes_law. Qed.
Lemma advance_app d t n : n = blen d → advance n (d ++ t) = (Ok tt, t).
Proof. intros ->. rewrite (proj1 advance_law) by (len). by rewrite drop_blen_app. Qed.

(** A successful read, as a decomposition of the buffer. *)
Lemma get_split n get b :
  get_law n get → Z.of_nat n ≤ blen b →
  ∃ v t, get b = (Ok v, t) ∧ b = be_bytes n v ++ t ∧ 0 ≤ v < 256 ^ Z.of_nat n.
Proof.
  intros [Hget _] Hle. exists (be_val (take n b)), (drop n b).
  assert (Hn : length (take n b) = n) by (rewrite length_take; unfold blen in Hle; lia).
  split; [by apply Hget|]. split.
  - rewrite <- Hn at 1. by rewrite be_bytes_be_val, take_drop.
  - pose proof (be_val_bound (take n b)) as Hb. unfold blen in Hb. by rewrite Hn in Hb.
Qed.

Lemma cut_split cut b n :
  cut_law cut → 0 ≤ n ≤ blen b →
  ∃ d t, cut n b = (Ok d, t) ∧ b = d ++ t ∧ blen d = n.
Proof.
  intros [Hcut _] Hn. eexists _, _. split; [by apply Hcut|]. split; [by rewrite take_drop|].
  len.
Qed.
End rules.

(** ** An instance that runs: buffers as byte lists *)
Module ListBytes.
Definition put (n : nat) (v : Z) : Res bytes unit := λ b, (Ok tt, b ++ be_bytes n v).
Definition get (n : nat) : Res bytes Z := λ b,
  if blen b <? Z.of_nat n then (Panic, b) else (Ok (be_val (take n b)), drop n b).
Definition cut (n : Z) : Res bytes bytes := λ b,
  if blen b <? n then (Panic, b) else (Ok (take (Z.to_nat n) b), drop (Z.to_nat n) b).

#[export] Instance ops : BytesOps := {
  put_u8 := put 1; put_u16 := put 2; put_u32 := put 4; put_u64 := put 8;
  put_slice d := λ b, (Ok tt, b ++ d);
  get_u8 := get 1; get_u16 := get 2; get_u32 := get 4; get_u64 := get 8;
  advance n := λ b, if blen b <? n then (Panic, b) else (Ok tt, drop (Z.to_nat n) b);
  split_to := cut;
  copy_to_bytes := cut
}.

Lemma get_ok n : get_law n (get n).
Proof. split; intros b Hb; unfold get; case_Zbool; done || lia. Qed.
Lemma cut_ok : cut_law cut.
Proof. split; intros n b Hb; unfold cut; case_Zbool; done || lia. Qed.

#[export] Instance laws : BytesLaws.
Proof.
  split; try done; try apply get_ok; try apply cut_ok.
  split; intros n b Hb; simpl; case_Zbool; done || lia.
Qed.
End ListBytes.
