(* ===== verification/StdText.v ===== *)
(** * Text of the standard library: UTF-8 validation and decimal numbers

    What the broker uses of [core::str] and [core::num]: `from_utf8` (the
    well-formedness table of Unicode, as the standard library implements it),
    `format!("{:020}", n)`, `n.to_string()` and `parse::<uN>()`. *)
From S2P Require Import Prelude.
#[local] Open Scope Z_scope.

(** ** `std::str::from_utf8` *)
Definition in_range (lo hi : Z) (b : byte) : bool :=
  (lo <=? byte_to_Z b) && (byte_to_Z b <=? hi).
Definition cont (b : byte) : bool := in_range 128 191 b.

Fixpoint utf8_valid (s : bytes) : bool :=
  match s with
  | [] => true
  | b :: r =>
      if in_range 0 127 b then utf8_valid r
      else if in_range 194 223 b then
        match r with c1 :: r' => cont c1 && utf8_valid r' | _ => false end
      else if in_range 224 239 b then
        match r with
        | c1 :: c2 :: r' =>
            (if in_range 224 224 b then in_range 160 191 c1
             else if in_range 237 237 b then in_range 128 159 c1 else cont c1)
            && cont c2 && utf8_valid r'
        | _ => false
        end
      else if in_range 240 244 b then
        match r with
        | c1 :: c2 :: c3 :: r' =>
            (if in_range 240 240 b then in_range 144 191 c1
             else if in_range 244 244 b then in_range 128 143 c1 else cont c1)
            && cont c2 && cont c3 && utf8_valid r'
        | _ => false
        end
      else false
  end.

Definition from_utf8 (s : bytes) : option bytes := if utf8_valid s then Some s else None.

Lemma from_utf8_valid s : utf8_valid s = true → from_utf8 s = Some s.
Proof. unfold from_utf8. by intros ->. Qed.

Lemma from_utf8_Some s t : from_utf8 s = Some t → t = s ∧ utf8_valid s = true.
Proof. unfold from_utf8. destruct (utf8_valid s); naive_solver. Qed.

(** `String::from_utf8_lossy`: an invalid sequence, as long as it could still
    have become a character, is replaced by U+FFFD. *)
Definition utf8_tail (b : byte) : option (list (byte → bool)) :=
  if in_range 0 127 b then Some []
  else if in_range 194 223 b then Some [cont]
  else if in_range 224 239 b then
    Some [if in_range 224 224 b then in_range 160 191
          else if in_range 237 237 b then in_range 128 159 else cont; cont]
  else if in_range 240 244 b then
    Some [if in_range 240 240 b then in_range 144 191
          else if in_range 244 244 b then in_range 128 143 else cont; cont; cont]
  else None.
Fixpoint matching (ps : list (byte → bool)) (s : bytes) : nat :=
  match ps, s with
  | p :: ps', c :: s' => if p c then S (matching ps' s') else O
  | _, _ => O
  end.
Definition REPLACEMENT : bytes := [xef; xbf; xbd].
Fixpoint lossy (fuel : nat) (s : bytes) : bytes :=
  match fuel, s with
  | S fuel', b :: r =>
      match utf8_tail b with
      | None => REPLACEMENT ++ lossy fuel' r
      | Some ps =>
          let k := matching ps r in
          (if (k =? length ps)%nat then b :: take k r else REPLACEMENT) ++ lossy fuel' (drop k r)
      end
  | _, _ => []
  end.
Definition to_string_lossy (s : bytes) : bytes := lossy (length s) s.

(** Valid text is kept. *)
Lemma lossy_valid fuel s : (length s ≤ fuel)%nat → utf8_valid s = true → lossy fuel s = s.
Proof.
  revert s. induction fuel as [|fuel IH]; intros [|b r] Hf Hv; [done|cbn in Hf; lia|done|].
  cbn in Hf. apply le_S_n in Hf. cbn [lossy]. unfold utf8_tail. cbn [utf8_valid] in Hv.
  assert (Hshort : ∀ n, (length (drop n r) ≤ fuel)%nat) by (intros n; rewrite length_drop; lia).
  destruct (in_range 0 127 b). { cbn. by rewrite drop_0, IH. }
  destruct (in_range 194 223 b).
  { destruct r as [|c1 r']; [done|]. apply andb_true_iff in Hv as [H1 Hv]. cbn. rewrite H1. cbn.
    rewrite drop_0. rewrite IH; [done|exact (Hshort 1%nat)|done]. }
  destruct (in_range 224 239 b).
  { destruct r as [|c1 [|c2 r']]; [done..|]. rewrite !andb_true_iff in Hv. destruct Hv as [[H1 H2] Hv].
    cbn [matching]. rewrite H2.
    assert ((if in_range 224 224 b then in_range 160 191 else if in_range 237 237 b then in_range 128 159 else cont) c1 = true)
      as -> by (destruct (in_range 224 224 b); [done|]; by destruct (in_range 237 237 b)).
    cbn. rewrite drop_0, IH; [done|exact (Hshort 2%nat)|done]. }
  destruct (in_range 240 244 b); [|done].
  destruct r as [|c1 [|c2 [|c3 r']]]; [done..|]. rewrite !andb_true_iff in Hv. destruct Hv as [[[H1 H2] H3] Hv].
  cbn [matching]. rewrite H2, H3.
  assert ((if in_range 240 240 b then in_range 144 191 else if in_range 244 244 b then in_range 128 143 else cont) c1 = true)
    as -> by (destruct (in_range 240 240 b); [done|]; by destruct (in_range 244 244 b)).
  cbn. rewrite drop_0, IH; [done|exact (Hshort 3%nat)|done].
Qed.

Lemma to_string_lossy_valid s : utf8_valid s = true → to_string_lossy s = s.
Proof. by apply lossy_valid. Qed.

Lemma utf8_valid_ascii s : Forall (λ b, byte_to_Z b < 128) s → utf8_valid s = true.
Proof.
  induction 1 as [|b s Hb Hs IH]; [done|]. simpl. unfold in_range at 1.
  pose proof (byte_range b). destruct (Z.leb_spec 0 (byte_to_Z b)), (Z.leb_spec (byte_to_Z b) 127);
    done || lia.
Qed.

(** ** Decimal numbers *)
Definition digit (d : Z) : byte := byte_of_Z (48 + d mod 10).

(** The [k] lowest decimal digits of [n], most significant first. *)
Fixpoint digits (k : nat) (n : Z) : bytes :=
  match k with
  | O => []
  | S k' => digit (n / 10 ^ Z.of_nat k') :: digits k' n
  end.

(** `format!("{:020}", n)` of a u64: 20 digits always suffice (2^64 < 10^20). *)
Definition format_020 (n : Z) : bytes := digits 20 n.

Fixpoint strip_zeros (s : bytes) : bytes :=
  match s with
  | c :: r =>
      match r with
      | [] => s
      | _ :: _ => if byte_to_Z c =? 48 then strip_zeros r else s
      end
  | [] => s
  end.
(** `n.to_string()` of a u32 or u64. *)
Definition to_dec (n : Z) : bytes := strip_zeros (digits 20 n).

Definition is_digit (c : byte) : bool := in_range 48 57 c.
Definition dec_step (acc : Z) (c : byte) : Z := acc * 10 + (byte_to_Z c - 48).
Definition dec_val (s : bytes) : Z := foldl dec_step 0 s.

(** `s.parse::<uN>()`: an optional `+`, at least one digit, no overflow. *)
Definition parse_uint (w : Z) (s : bytes) : option Z :=
  let ds := match s with c :: r => if byte_to_Z c =? 43 then r else s | [] => s end in
  if negb (bool_decide (ds = [])) && forallb is_digit ds && (dec_val ds <? 2 ^ w)
  then Some (dec_val ds) else None.

Lemma digit_val d : byte_to_Z (digit d) = 48 + d mod 10.
Proof.
  unfold digit. rewrite byte_to_of_Z. pose proof (Z.mod_pos_bound d 10 ltac:(lia)).
  apply Z.mod_small. lia.
Qed.

Lemma length_digits k n : length (digits k n) = k.
Proof. induction k; simpl; congruence. Qed.

Lemma digits_digit k n : forallb is_digit (digits k n) = true.
Proof.
  induction k as [|k IH]; [done|]. cbn [digits forallb]. rewrite IH, andb_true_r.
  unfold is_digit, in_range. rewrite digit_val.
  pose proof (Z.mod_pos_bound (n / 10 ^ Z.of_nat k) 10 ltac:(lia)). lia.
Qed.

Lemma dec_val_acc s acc : foldl dec_step acc s = acc * 10 ^ blen s + dec_val s.
Proof.
  unfold dec_val, blen. revert acc. induction s as [|c s IH]; intros acc; simpl; [lia|].
  rewrite IH, (IH (dec_step 0 c)). unfold dec_step.
  rewrite Nat2Z.inj_succ, Z.pow_succ_r by lia. lia.
Qed.

Lemma dec_val_cons c s : dec_val (c :: s) = (byte_to_Z c - 48) * 10 ^ blen s + dec_val s.
Proof. unfold dec_val at 1. simpl. rewrite dec_val_acc. unfold dec_step. lia. Qed.

Lemma dec_val_digits k n : dec_val (digits k n) = n mod 10 ^ Z.of_nat k.
Proof.
  induction k as [|k IH]; [by rewrite Z.mod_1_r|].
  cbn [digits]. rewrite dec_val_cons, IH, digit_val. unfold blen. rewrite length_digits.
  replace (10 ^ Z.of_nat (S k)) with (10 ^ Z.of_nat k * 10)
    by (rewrite Nat2Z.inj_succ, Z.pow_succ_r by lia; lia).
  rewrite Z.rem_mul_r by (try apply Z.pow_nonzero; lia). lia.
Qed.

(** Numbers of at most 20 digits print and parse back. *)
Lemma parse_digits w k n :
  (0 < k)%nat → 0 ≤ n < 10 ^ Z.of_nat k → n < 2 ^ w → parse_uint w (digits k n) = Some n.
Proof.
  intros Hk Hn Hw. unfold parse_uint.
  destruct k as [|k]; [lia|]. set (d := digits (S k) n).
  assert (Hd : (byte_to_Z (digit (n / 10 ^ Z.of_nat k)) =? 43) = false).
  { rewrite digit_val. pose proof (Z.mod_pos_bound (n / 10 ^ Z.of_nat k) 10 ltac:(lia)). lia. }
  assert (Hs : match d with c :: r => if byte_to_Z c =? 43 then r else d | [] => d end = d).
  { unfold d. cbn [digits]. by rewrite Hd. }
  rewrite Hs. unfold d. rewrite digits_digit, dec_val_digits, Z.mod_small by lia.
  rewrite bool_decide_eq_false_2 by done. cbn [negb andb].
  by rewrite (proj2 (Z.ltb_lt _ _)) by lia.
Qed.

Lemma parse_format_020 n : is_u64 n → parse_uint 64 (format_020 n) = Some n.
Proof. unfold is_uint. intros Hn. apply parse_digits; lia. Qed.

Lemma format_020_inj n m : is_u64 n → is_u64 m → format_020 n = format_020 m → n = m.
Proof.
  intros Hn Hm H. apply (f_equal (parse_uint 64)) in H.
  rewrite !parse_format_020 in H by done. by injection H.
Qed.

(** Dropping leading zeros keeps the value and the digits. *)
Lemma strip_zeros_spec s :
  dec_val (strip_zeros s) = dec_val s ∧
  (s ≠ [] → strip_zeros s ≠ []) ∧
  (forallb is_digit s = true → forallb is_digit (strip_zeros s) = true).
Proof.
  induction s as [|c [|c' r] IH]; [done..|].
  assert (strip_zeros (c :: c' :: r) =
          if byte_to_Z c =? 48 then strip_zeros (c' :: r) else c :: c' :: r) as -> by done.
  destruct (Z.eqb_spec (byte_to_Z c) 48) as [Hc|]; [|done].
  destruct IH as (IH1 & IH2 & IH3). split; [|split].
  - rewrite IH1, (dec_val_cons c). rewrite Hc. lia.
  - intros _. by apply IH2.
  - intros [_ Hr]%andb_true_iff. by apply IH3.
Qed.

(** `to_string` then `parse` is the identity on u32 (partition directories). *)
Lemma parse_to_dec w n : 0 ≤ n < 10 ^ 20 → n < 2 ^ w → parse_uint w (to_dec n) = Some n.
Proof.
  intros Hn Hw. unfold to_dec. set (d := digits 20 n).
  destruct (strip_zeros_spec d) as (Hv & Hne & Hd).
  specialize (Hne ltac:(done)). specialize (Hd (digits_digit _ _)).
  assert (Hval : dec_val (strip_zeros d) = n).
  { rewrite Hv. unfold d. rewrite dec_val_digits. apply Z.mod_small. lia. }
  unfold parse_uint. destruct (strip_zeros d) as [|c r] eqn:Hs; [done|].
  assert ((byte_to_Z c =? 43) = false) as ->.
  { cbn [forallb] in Hd. apply andb_true_iff in Hd as [Hc _]. unfold is_digit, in_range in Hc. lia. }
  rewrite Hd, Hval, bool_decide_eq_false_2 by done. cbn [negb andb].
  by rewrite (proj2 (Z.ltb_lt _ _)) by lia.
Qed.
