(* ===== verification/F64.v ===== *)
(** * Floating point

    The operations on `f64` that the benchmark clients use, on the Standard
    Library's specification of IEEE 754 (binary64: 53 bits of precision, largest
    exponent 1024, rounding to nearest even): conversions from and to integers,
    arithmetic, `partial_cmp`, a sort by it, sums, and `{:.N}` formatting.
    Integers below 2^53 are exact, so comparing them as floats compares them. *)
From Stdlib Require Import SpecFloat Sorted.
From S2P Require Import Prelude StdText.
#[local] Open Scope Z_scope.

Abbreviation f64 := spec_float.

(** ** Operations *)

(** `n as f64`. *)
Definition of_int (n : Z) : f64 := binary_normalize 53 1024 n 0 false.
Definition f64_add : f64 → f64 → f64 := SFadd 53 1024.
Definition f64_mul : f64 → f64 → f64 := SFmul 53 1024.
Definition f64_div : f64 → f64 → f64 := SFdiv 53 1024.
(** The literal [n / d]: the float nearest to it. *)
Definition lit (n d : Z) : f64 := f64_div (of_int n) (of_int d).

(** `x as usize`, `x as u64`: towards zero, saturating, and NaN is 0. *)
Definition to_u64 (x : f64) : Z :=
  match x with
  | S754_finite false m e => Z.min (2 ^ 64 - 1) (Z.shiftl (Zpos m) e)
  | S754_infinity false => 2 ^ 64 - 1
  | _ => 0
  end.

(** `iter().sum::<f64>()`. *)
Definition f64_sum (l : list f64) : f64 := foldl f64_add (S754_zero false) l.

(** `sort_by(|a, b| a.partial_cmp(b).unwrap())`: a stable sort; [None] when the
    `unwrap` panics. *)
Fixpoint f64_insert (x : f64) (l : list f64) : option (list f64) :=
  match l with
  | [] => Some [x]
  | y :: l' =>
      c ← SFcompare x y;
      match c with Gt => (cons y) <$> f64_insert x l' | _ => Some (x :: y :: l') end
  end.
Fixpoint f64_sort (l : list f64) : option (list f64) :=
  match l with [] => Some [] | x :: l' => l' ← f64_sort l'; f64_insert x l' end.

(** [n / d] rounded to the nearest integer, to an even one when there are two. *)
Definition round_div (n d : Z) : Z :=
  let q := n / d in
  match Z.compare (2 * (n mod d)) d with Lt => q | Gt => q + 1 | Eq => if Z.even q then q else q + 1 end.

(** `{:.prec}`: the exact value rounded to [prec] decimals. No finite float has
    more than 309 digits before the point. *)
Definition format_fixed (prec : nat) (x : f64) : bytes :=
  match x with
  | S754_nan => str "NaN"
  | S754_infinity s => (if s then str "-" else []) ++ str "inf"
  | S754_zero s => (if s then str "-" else []) ++ str "0" ++ (if bool_decide (prec = 0%nat) then [] else str "." ++ digits prec 0)
  | S754_finite s m e =>
      let scaled := Zpos m * 10 ^ Z.of_nat prec in
      let n := if 0 <=? e then scaled * 2 ^ e else round_div scaled (2 ^ (- e)) in
      (if s then str "-" else []) ++ strip_zeros (digits 310 (n / 10 ^ Z.of_nat prec)) ++
      (if bool_decide (prec = 0%nat) then [] else str "." ++ digits prec n)
  end.

(** ** Integers as floats *)
Lemma digits2_size p : digits2_pos p = Pos.size p.
Proof. induction p as [p IH|p IH|]; cbn; by rewrite ?IH. Qed.

Lemma size_bounds p : 2 ^ (Zpos (Pos.size p) - 1) ≤ Zpos p < 2 ^ Zpos (Pos.size p).
Proof.
  pose proof (Pos.size_gt p) as Hgt. pose proof (Pos.size_le p) as Hle. split.
  - assert (2 ^ Zpos (Pos.size p) ≤ 2 * Zpos p) as H1 by (rewrite <- Pos2Z.inj_pow; lia).
    rewrite Z.sub_1_r. assert (2 ^ Zpos (Pos.size p) = 2 * 2 ^ Z.pred (Zpos (Pos.size p))) as H2; [|lia].
    rewrite <- Z.pow_succ_r by lia. f_equal. lia.
  - rewrite <- Pos2Z.inj_pow. lia.
Qed.

Lemma size_unique p k : 2 ^ k ≤ Zpos p < 2 ^ (k + 1) → 0 ≤ k → Zpos (Pos.size p) = k + 1.
Proof.
  intros [Hlo Hhi] Hk. pose proof (size_bounds p) as [Hlo' Hhi'].
  assert (k < Zpos (Pos.size p)) by (apply (Z.pow_lt_mono_r_iff 2); lia).
  assert (Zpos (Pos.size p) - 1 < k + 1) by (apply (Z.pow_lt_mono_r_iff 2); lia). lia.
Qed.

Lemma iter_xO p k : Zpos (Pos.iter xO p k) = Zpos p * 2 ^ Zpos k.
Proof.
  revert k. apply Pos.peano_ind.
  - cbn. lia.
  - intros k IH. rewrite Pos.iter_succ. rewrite Pos2Z.inj_xO, IH, Pos2Z.inj_succ, Z.pow_succ_r by lia. lia.
Qed.

(** A mantissa that fits is not rounded. *)
Lemma round_aux_exact s m e :
  2 ^ 52 ≤ Zpos m < 2 ^ 53 → -1074 ≤ e ≤ 971 → binary_round_aux 53 1024 s (Zpos m) e loc_Exact = S754_finite s m e.
Proof.
  intros Hm He. assert (Hd : Zdigits2 (Zpos m) = 53).
  { cbn [Zdigits2]. rewrite digits2_size. by apply (size_unique m 52). }
  assert (Hshr : ∀ l, shr_fexp 53 1024 (Zpos m) e l = (shr_record_of_loc (Zpos m) l, e)).
  { intros l. unfold shr_fexp. rewrite Hd. unfold fexp, emin. replace (Z.max (53 + e - 53) (3 - 1024 - 53) - e) with 0 by lia. done. }
  unfold binary_round_aux. rewrite Hshr. cbn [shr_record_of_loc loc_of_shr_record shr_m round_nearest_even]. rewrite Hshr. cbn [shr_record_of_loc shr_m].
  destruct (Z.leb_spec e (1024 - 53)); [done|lia].
Qed.

(** The float of an integer below 2^53, with a full mantissa. *)
Lemma of_int_exact n :
  0 < n < 2 ^ 53 → ∃ m e, of_int n = S754_finite false m e ∧ -52 ≤ e ≤ 0 ∧ Zpos m = n * 2 ^ (- e) ∧ 2 ^ 52 ≤ Zpos m < 2 ^ 53.
Proof.
  intros Hn. destruct n as [|p|p]; [lia| |lia]. pose proof (size_bounds p) as [Hlo Hhi]. set (d := Zpos (Pos.size p)) in *.
  assert (Hd : 1 ≤ d ≤ 53).
  { split; [lia|]. assert (d - 1 < 53); [|lia]. apply (Z.pow_lt_mono_r_iff 2); lia. }
  cbn [of_int binary_normalize]. unfold of_int, binary_normalize, binary_round. rewrite digits2_size. fold d.
  unfold fexp, emin. replace (Z.max (d + 0 - 53) (3 - 1024 - 53)) with (d - 53) by lia. unfold shl_align. rewrite Z.sub_0_r.
  assert (Hm : 2 ^ 52 ≤ Zpos p * 2 ^ (53 - d) < 2 ^ 53).
  { assert (2 ^ 52 = 2 ^ (d - 1) * 2 ^ (53 - d)) as -> by (rewrite <- Z.pow_add_r by lia; f_equal; lia).
    assert (2 ^ 53 = 2 ^ d * 2 ^ (53 - d)) as -> by (rewrite <- Z.pow_add_r by lia; f_equal; lia).
    assert (0 < 2 ^ (53 - d)) by (apply Z.pow_pos_nonneg; lia). nia. }
  destruct (d - 53) as [|q|q] eqn:Hq; [|lia|].
  - assert (53 - d = 0) as H0 by lia. rewrite H0, Z.pow_0_r, Z.mul_1_r in Hm. rewrite round_aux_exact by (try exact Hm; lia).
    exists p, 0. rewrite Z.pow_0_r. split; [done|]. split; [lia|]. split; [lia|exact Hm].
  - assert (53 - d = Zpos q) as H0 by lia. rewrite H0, <- iter_xO in Hm. rewrite round_aux_exact by (try exact Hm; lia).
    exists (Pos.iter xO p q), (Zneg q). split; [done|]. split; [lia|]. split; [apply iter_xO|exact Hm].
Qed.

(** Comparing integers as floats. *)
Lemma compare_of_int a b :
  0 ≤ a < 2 ^ 53 → 0 ≤ b < 2 ^ 53 → SFcompare (of_int a) (of_int b) = Some (a ?= b).
Proof.
  intros Ha Hb. destruct (decide (a = 0)) as [->|Hna], (decide (b = 0)) as [->|Hnb].
  - done.
  - destruct (of_int_exact b) as (m & e & -> & _); [lia|]. cbn [SFcompare of_int binary_normalize]. change (of_int 0) with (S754_zero false). cbn [SFcompare]. f_equal. symmetry. apply Z.compare_lt_iff. lia.
  - destruct (of_int_exact a) as (m & e & -> & _); [lia|]. cbn [SFcompare of_int binary_normalize]. change (of_int 0) with (S754_zero false). cbn [SFcompare]. f_equal. symmetry. apply Z.compare_gt_iff. lia.
  - destruct (of_int_exact a) as (m & e & -> & He & Hm & Hml & Hmh); [lia|].
    destruct (of_int_exact b) as (m' & e' & -> & He' & Hm' & Hml' & Hmh'); [lia|]. cbn [SFcompare]. f_equal.
    assert (Hpos : ∀ k, 0 ≤ k → 0 < 2 ^ k) by (intros; by apply Z.pow_pos_nonneg).
    assert (Hstep : ∀ i j, -52 ≤ i < j → j ≤ 0 → 2 * 2 ^ (- j) ≤ 2 ^ (- i)).
    { intros i j Hi Hj. rewrite <- Z.pow_succ_r by lia. apply Z.pow_le_mono_r; lia. }
    destruct (Z.compare_spec e e') as [<-|Hlt|Hlt].
    + change (Pos.compare_cont Eq m m') with (Pos.compare m m'). rewrite Pos2Z.inj_compare, Hm, Hm'.
      symmetry. apply Zmult_compare_compat_r. specialize (Hpos (- e)). lia.
    + symmetry. apply Z.compare_lt_iff. specialize (Hstep e e' ltac:(lia) ltac:(lia)). specialize (Hpos (- e') ltac:(lia)). nia.
    + symmetry. apply Z.compare_gt_iff. specialize (Hstep e' e ltac:(lia) ltac:(lia)). specialize (Hpos (- e) ltac:(lia)). nia.
Qed.

(** ** Sorting integers as floats *)
Definition exact (n : Z) : Prop := 0 ≤ n < 2 ^ 53.

Lemma insert_of_int x l :
  exact x → Forall exact l → Sorted Z.le l →
  ∃ l', f64_insert (of_int x) (of_int <$> l) = Some (of_int <$> l') ∧ l' ≡ₚ x :: l ∧ Sorted Z.le l' ∧
    (∀ y, HdRel Z.le y l → y ≤ x → HdRel Z.le y l').
Proof.
  intros Hx Hl Hs. induction Hs as [|y l Hs IH Hy].
  { exists [x]. split; [done|]. split; [done|]. split; [by repeat constructor|]. intros z _ Hz. by constructor. }
  apply Forall_cons in Hl as [Hyx Hl]. cbn [fmap list_fmap f64_insert]. rewrite compare_of_int by assumption. cbn [mbind option_bind].
  destruct (IH Hl) as (l' & Hins & Hp & Hs' & Hhd).
  destruct (Z.compare_spec x y) as [->|Hlt|Hgt].
  - exists (y :: y :: l). split; [done|]. split; [done|]. split; [by repeat constructor|]. intros z _ Hz. by constructor.
  - exists (x :: y :: l). split; [done|]. split; [done|]. split; [constructor; [by constructor|constructor; lia]|]. intros z _ Hz. by constructor.
  - exists (y :: l'). change ((fix go (l0 : list Z) : list f64 := match l0 with [] => [] | x0 :: l1 => of_int x0 :: go l1 end) l) with (of_int <$> l).
    rewrite Hins. split; [done|]. split; [by rewrite Hp, Permutation_swap|]. split; [constructor; [exact Hs'|apply Hhd; [exact Hy|lia]]|].
    intros z Hz _. inversion Hz; subst. by constructor.
Qed.

Lemma sort_of_int l :
  Forall exact l → ∃ l', f64_sort (of_int <$> l) = Some (of_int <$> l') ∧ l' ≡ₚ l ∧ Sorted Z.le l'.
Proof.
  induction 1 as [|x l Hx Hl IH]; [by exists []|]. destruct IH as (l1 & Hsort & Hp & Hs).
  destruct (insert_of_int x l1) as (l' & Hins & Hp' & Hs' & _); [exact Hx|by rewrite Hp|exact Hs|].
  exists l'. cbn [fmap list_fmap f64_sort]. change (list_fmap Z f64 of_int l) with (of_int <$> l). rewrite Hsort. cbn [mbind option_bind].
  split; [exact Hins|]. split; [by rewrite Hp', Hp|exact Hs'].
Qed.

(** ** Products *)
Lemma shr_1_div mrs : 0 ≤ shr_m mrs → shr_m (shr_1 mrs) = shr_m mrs / 2.
Proof.
  destruct mrs as [[|[p|p|]|p] r s]; cbn [shr_m shr_1]; intros Hm; [done| | |done|lia].
  - apply (Z.div_unique _ _ _ 1); lia.
  - apply (Z.div_unique _ _ _ 0); lia.
Qed.

Lemma iter_shr_div p mrs : 0 ≤ shr_m mrs → shr_m (SpecFloat.iter_pos shr_1 p mrs) = shr_m mrs / 2 ^ Zpos p.
Proof.
  revert mrs. induction p as [p IH|p IH|]; intros mrs Hm; cbn [SpecFloat.iter_pos].
  - assert (0 ≤ shr_m mrs / 2) by (apply Z.div_pos; lia).
    rewrite IH, IH, shr_1_div by (rewrite ?IH, ?shr_1_div by (rewrite ?shr_1_div; lia); try apply Z.div_pos; try apply Z.pow_pos_nonneg; lia).
    rewrite !Z.div_div by (try apply Z.pow_nonzero; try apply Z.pow_pos_nonneg; lia). f_equal.
    rewrite <- Z.pow_add_r, Pos2Z.inj_xI, <- Z.pow_succ_r by lia. f_equal. lia.
  - rewrite IH, IH by (rewrite ?IH by done; try apply Z.div_pos; try apply Z.pow_pos_nonneg; lia).
    rewrite Z.div_div by (try apply Z.pow_nonzero; try apply Z.pow_pos_nonneg; lia). f_equal.
    rewrite <- Z.pow_add_r, Pos2Z.inj_xO by lia. f_equal. lia.
  - by apply shr_1_div.
Qed.

(** Rounding a mantissa with [n] bits too many gives at most one more than
    cutting them off. *)
Lemma round_aux_bound m e n :
  2 ^ (52 + n) ≤ Zpos m < 2 ^ (53 + n) → 0 < n → -1074 ≤ e → e + n ≤ 900 →
  ∃ r e', binary_round_aux 53 1024 false (Zpos m) e loc_Exact = S754_finite false r e' ∧ e + n ≤ e' ∧
    Zpos r * 2 ^ (e' - (e + n)) ≤ Zpos m / 2 ^ n + 1.
Proof.
  intros Hm Hn He Hen. destruct n as [|k|k]; [lia| |lia]. set (n := Zpos k) in *.
  assert (Hd : Zdigits2 (Zpos m) = 53 + n).
  { cbn [Zdigits2]. rewrite digits2_size. rewrite (size_unique m (52 + n)); [lia| |lia].
    replace (52 + n + 1) with (53 + n) by lia. exact Hm. }
  unfold binary_round_aux, shr_fexp at 1. rewrite Hd. unfold fexp at 1, emin at 1.
  replace (Z.max (53 + n + e - 53) (3 - 1024 - 53) - e) with n by lia. cbn [shr n shr_record_of_loc].
  set (mrs := SpecFloat.iter_pos shr_1 k {| shr_m := Zpos m; shr_r := false; shr_s := false |}).
  assert (Hq : shr_m mrs = Zpos m / 2 ^ n) by (unfold mrs; by rewrite iter_shr_div).
  assert (Hp : 0 < 2 ^ n) by (apply Z.pow_pos_nonneg; lia).
  assert (Hqb : 2 ^ 52 ≤ Zpos m / 2 ^ n < 2 ^ 53).
  { rewrite !Z.pow_add_r in Hm by lia. split; [apply Z.div_le_lower_bound; lia|apply Z.div_lt_upper_bound; lia]. }
  assert (Hr : shr_m mrs ≤ round_nearest_even (shr_m mrs) (loc_of_shr_record mrs) ≤ shr_m mrs + 1).
  { unfold round_nearest_even. destruct (loc_of_shr_record mrs) as [|[| |]]; try destruct (Z.even _); lia. }
  set (r := round_nearest_even _ _) in *. rewrite Hq in Hr. clearbody r mrs. destruct r as [|r|r]; [lia| |lia].
  destruct (decide (Zpos r = 2 ^ 53)) as [H53|H53].
  - injection H53 as ->. unfold shr_fexp, fexp, emin. cbn [Zdigits2]. change (Zpos (digits2_pos _)) with 54.
    replace (Z.max (54 + (e + n) - 53) (3 - 1024 - 53) - (e + n)) with 1 by lia. cbn [shr SpecFloat.iter_pos shr_record_of_loc shr_1 shr_m].
    destruct (Z.leb_spec (e + n + 1) (1024 - 53)); [|lia]. eexists _, _. split; [reflexivity|]. split; [lia|].
    replace (e + n + 1 - (e + n)) with 1 by lia. lia.
  - pose proof (round_aux_exact false r (e + n)) as Hex. unfold binary_round_aux in Hex.
    assert (Hshr : ∀ l, shr_fexp 53 1024 (Zpos r) (e + n) l = (shr_record_of_loc (Zpos r) l, e + n)).
    { intros l. unfold shr_fexp, fexp, emin. cbn [Zdigits2]. rewrite digits2_size, (size_unique r 52) by lia.
      replace (Z.max (52 + 1 + (e + n) - 53) (3 - 1024 - 53) - (e + n)) with 0 by lia. done. }
    rewrite Hshr. cbn [shr_record_of_loc shr_m]. destruct (Z.leb_spec (e + n) (1024 - 53)); [|lia].
    exists r, (e + n). split; [reflexivity|]. split; [lia|]. rewrite Z.sub_diag, Z.pow_0_r. lia.
Qed.

(** A fraction of an integer, rounded down, is smaller: [mp / 2^53] is at most
    0.992. *)
Lemma fraction_lt count mp :
  0 < count < 2 ^ 53 → 2 ^ 52 ≤ Zpos mp ≤ 2 ^ 53 - 2 ^ 46 →
  0 ≤ to_u64 (f64_mul (of_int count) (S754_finite false mp (-53))) < count.
Proof.
  intros Hc Hmp. destruct (of_int_exact count Hc) as (m & e & -> & He & Hm & Hml & Hmh). unfold f64_mul. cbn [SFmul xorb].
  set (prod := (m * mp)%positive). assert (Hprod : Zpos prod = Zpos m * Zpos mp) by apply Pos2Z.inj_mul.
  assert (Hn : ∃ n, 52 ≤ n ≤ 53 ∧ 2 ^ (52 + n) ≤ Zpos prod < 2 ^ (53 + n)).
  { destruct (decide (Zpos prod < 2 ^ 105)) as [Hlt|Hge]; [exists 52|exists 53]; (split; [lia|]); rewrite Hprod in *; nia. }
  destruct Hn as (n & Hn & Hb).
  destruct (round_aux_bound prod (e + -53) n) as (r & e' & -> & He' & Hr); [exact Hb|lia..|].
  assert (Hdiv : Zpos prod / 2 ^ n * 2 ^ n ≤ Zpos prod) by (rewrite Z.mul_comm; apply Z.mul_div_le, Z.pow_pos_nonneg; lia).
  assert (Hp2 : 2 ^ n ≤ 2 ^ 53) by (apply Z.pow_le_mono_r; lia).
  (* r * 2^e' < count, in units of 2^(e - 53) *)
  assert (Hval : Zpos r * 2 ^ (e' - (e + -53)) < count * 2 ^ (53 - e)).
  { replace (e' - (e + -53)) with ((e' - (e + -53 + n)) + n) by lia. rewrite Z.pow_add_r, Z.mul_assoc by lia.
    assert (count * 2 ^ (53 - e) = Zpos m * 2 ^ 53) as ->.
    { rewrite Hm. replace (53 - e) with (- e + 53) by lia. rewrite Z.pow_add_r by lia. lia. }
    assert (0 < 2 ^ n) by (apply Z.pow_pos_nonneg; lia). nia. }
  assert (Hlt : Z.shiftl (Zpos r) e' < count).
  { destruct (Z.leb_spec 0 e') as [H0|H0].
    - rewrite Z.shiftl_mul_pow2 by lia. replace (e' - (e + -53)) with (e' + (53 - e)) in Hval by lia.
      rewrite Z.pow_add_r in Hval by lia. assert (0 < 2 ^ (53 - e)) by (apply Z.pow_pos_nonneg; lia). nia.
    - rewrite Z.shiftl_div_pow2 by lia. apply Z.div_lt_upper_bound; [apply Z.pow_pos_nonneg; lia|].
      assert (2 ^ (53 - e) = 2 ^ (- e') * 2 ^ (e' - (e + -53))) as Heq by (rewrite <- Z.pow_add_r by lia; f_equal; lia).
      rewrite Heq in Hval. assert (0 < 2 ^ (e' - (e + -53))) by (apply Z.pow_pos_nonneg; lia). nia. }
  cbn [to_u64]. assert (0 ≤ Z.shiftl (Zpos r) e') by (apply Z.shiftl_nonneg; lia). lia.
Qed.
