(* ===== verification/Types.v ===== *)
(** * Protocol types (src/src/protocol/types.rs)

    Constants, API keys and error codes, with the conversions between them, raw
    integers and [RukaError]. *)
From S2P Require Import Prelude Errors.
#[local] Open Scope Z_scope.

Definition MAGIC_BYTE : Z := 202. (* 0xCA *)
Definition MAX_FRAME_SIZE : Z := 16 * 1024 * 1024.
Definition MIN_HEADER_SIZE : Z := 17.

Inductive ApiKey : Type := AProduce | AFetch | AProduceBatch | AError.

#[export] Instance ApiKey_eq_dec : EqDecision ApiKey.
Proof. solve_decision. Defined.

(** `impl TryFrom<u16> for ApiKey`. *)
Definition ApiKey_try_from (value : Z) : outcome RukaError ApiKey :=
  if value =? 1 then Ok AProduce
  else if value =? 2 then Ok AFetch
  else if value =? 3 then Ok AProduceBatch
  else if value =? 4 then Ok AError
  else Err (UnknownApiKey value).

(** The discriminants of `#[repr(u16)]`, `as_u16`. *)
Definition ApiKey_as_u16 (k : ApiKey) : Z :=
  match k with AProduce => 1 | AFetch => 2 | AProduceBatch => 3 | AError => 4 end.

(** `impl Display for ApiKey`. *)
Definition ApiKey_fmt (k : ApiKey) : bytes :=
  match k with
  | AProduce => str "PRODUCE" | AFetch => str "FETCH" | AProduceBatch => str "PRODUCE_BATCH" | AError => str "ERROR"
  end.

Inductive ErrorCode : Type :=
| ECNone | ECUnknownApiKey | ECInvalidFrame | ECOffsetNotFound | ECPartitionNotFound
| ECStorageError | ECMessageTooLarge | ECServerError.

#[export] Instance ErrorCode_eq_dec : EqDecision ErrorCode.
Proof. solve_decision. Defined.

Definition ErrorCode_as_u16 (c : ErrorCode) : Z :=
  match c with
  | ECNone => 0 | ECUnknownApiKey => 1 | ECInvalidFrame => 2 | ECOffsetNotFound => 3
  | ECPartitionNotFound => 4 | ECStorageError => 5 | ECMessageTooLarge => 6 | ECServerError => 7
  end.

(** `impl From<u16> for ErrorCode`: unknown codes become [ServerError]. *)
Definition ErrorCode_from_u16 (value : Z) : ErrorCode :=
  if value =? 0 then ECNone
  else if value =? 1 then ECUnknownApiKey
  else if value =? 2 then ECInvalidFrame
  else if value =? 3 then ECOffsetNotFound
  else if value =? 4 then ECPartitionNotFound
  else if value =? 5 then ECStorageError
  else if value =? 6 then ECMessageTooLarge
  else ECServerError.

(** `impl From<&RukaError> for ErrorCode`. *)
Definition ErrorCode_from_error (e : RukaError) : ErrorCode :=
  match e with
  | UnknownApiKey _ => ECUnknownApiKey
  | InvalidFrame _ => ECInvalidFrame
  | InvalidMagicByte _ => ECInvalidFrame
  | FrameTooShort _ _ => ECInvalidFrame
  | FrameTooLarge _ _ => ECMessageTooLarge
  | MessageTooLarge => ECMessageTooLarge
  | InvalidTopicName => ECInvalidFrame
  | OffsetNotFound _ => ECOffsetNotFound
  | PartitionNotFound _ _ => ECPartitionNotFound
  | SegmentFull _ _ => ECStorageError
  | CorruptedIndex _ => ECStorageError
  | Io _ => ECStorageError
  | _ => ECServerError
  end.

Lemma ApiKey_try_from_as_u16 k : ApiKey_try_from (ApiKey_as_u16 k) = Ok k.
Proof. by destruct k. Qed.

Lemma ApiKey_try_from_Ok v k : ApiKey_try_from v = Ok k → v = ApiKey_as_u16 k.
Proof.
  unfold ApiKey_try_from. repeat (case_Zbool; [by intros [= <-]|]). done.
Qed.

Lemma ApiKey_try_from_total v : ∃ r, ApiKey_try_from v = r ∧ (r = Err (UnknownApiKey v) ∨ ∃ k, r = Ok k).
Proof.
  unfold ApiKey_try_from. eexists. split; [done|]. repeat (case_Zbool; [by right; eexists|]). by left.
Qed.

Lemma ApiKey_as_u16_range k : is_u16 (ApiKey_as_u16 k).
Proof. destruct k; unfold is_uint; simpl; lia. Qed.

(** A broker error never looks like success on the wire, and every error code
    survives the trip through its u16. *)
Lemma ErrorCode_from_as_u16 c : ErrorCode_from_u16 (ErrorCode_as_u16 c) = c.
Proof. by destruct c. Qed.

Lemma ErrorCode_from_error_not_None e : ErrorCode_from_error e ≠ ECNone.
Proof. by destruct e. Qed.
