(* ===== verification/Frame.v ===== *)
(** * Wire frames (src/src/protocol/frame.rs, src/src/protocol/codec.rs)

    [Frame_encode] and [Frame_decode] are the two methods of `Frame`, as
    methods on the buffer they mutate. The theorems: what is encoded decodes
    back, whatever follows in the buffer; a partial frame is left alone until
    the rest arrives; decoding never panics, on any input; an accepted frame is
    well formed and its bytes are accounted for. *)
From S2P Require Import Prelude Errors BytesCrate StdText Types.
#[local] Open Scope Z_scope.

Record Frame : Type := {
  f_magic : Z;
  f_api_key : ApiKey;
  f_correlation_id : Z;
  f_topic : bytes;
  f_partition : Z;
  f_payload : bytes
}.

#[export] Instance Frame_eq_dec : EqDecision Frame.
Proof. solve_decision. Defined.

(** `u32::from_be_bytes([src[0], src[1], src[2], src[3]])`: it leaves the buffer
    alone and panics when an index is out of range. *)
Definition index_u32 : Res bytes Z := λ src,
  match src with
  | b0 :: b1 :: b2 :: b3 :: _ => (Ok (be_val [b0; b1; b2; b3]), src)
  | _ => (Panic, src)
  end.
Lemma index_u32_ok src : 4 ≤ blen src → index_u32 src = (Ok (be_val (take 4 src)), src).
Proof. intros Hs. destruct src as [|b0 [|b1 [|b2 [|b3 src]]]]; try done; unfold blen in Hs; cbn in Hs; lia. Qed.

(** A value of the Rust type: integers in range, the topic a `String`. *)
Definition Frame_typed (f : Frame) : Prop :=
  is_u8 (f_magic f) ∧ is_u32 (f_correlation_id f) ∧ is_u32 (f_partition f) ∧
  utf8_valid (f_topic f) = true.

Definition body_len (f : Frame) : Z :=
  1 + 2 + 4 + 2 + blen (f_topic f) + 4 + 4 + blen (f_payload f).

Section frame.
Context `{!BytesOps}.

Definition Frame_encode (f : Frame) : Res bytes unit :=
  _ ← put_u32 (as_u32 (body_len f));
  _ ← put_u8 (f_magic f);
  _ ← put_u16 (ApiKey_as_u16 (f_api_key f));
  _ ← put_u32 (f_correlation_id f);
  _ ← put_u16 (as_u16 (blen (f_topic f)));
  _ ← put_slice (f_topic f);
  _ ← put_u32 (f_partition f);
  _ ← put_u32 (as_u32 (blen (f_payload f)));
  put_slice (f_payload f).

(** The part of `decode` that works on the split-off frame. *)
Definition decode_body : Res bytes (option Frame) :=
  magic ← get_u8;
  if negb (magic =? MAGIC_BYTE) then throw (InvalidMagicByte magic) else
  api_key_raw ← get_u16;
  api_key ← lift (ApiKey_try_from api_key_raw);
  correlation_id ← get_u32;
  topic_len ← get_u16;
  if (topic_len =? 0) && negb (bool_decide (api_key = AError)) then throw InvalidTopicName else
  if 255 <? topic_len then throw InvalidTopicName else
  remaining ← gets blen;
  if remaining <? topic_len + 4 + 4
  then throw (FrameTooShort (topic_len + 4 + 4) remaining) else
  topic_bytes ← split_to topic_len;
  topic ← (match from_utf8 topic_bytes with Some t => mret t | None => throw InvalidTopicName end);
  partition ← get_u32;
  payload_len ← get_u32;
  remaining ← gets blen;
  if remaining <? payload_len then throw (FrameTooShort payload_len remaining) else
  payload ← split_to payload_len;
  mret (Some {| f_magic := magic; f_api_key := api_key; f_correlation_id := correlation_id;
                f_topic := topic; f_partition := partition; f_payload := payload |}).

Definition Frame_decode : Res bytes (option Frame) :=
  src_len ← gets blen;
  if src_len <? 4 then mret None else
  total_len ← index_u32;
  if MAX_FRAME_SIZE <? total_len then throw (FrameTooLarge MAX_FRAME_SIZE total_len) else
  if total_len <? MIN_HEADER_SIZE then throw (FrameTooShort MIN_HEADER_SIZE total_len) else
  if src_len <? 4 + total_len then mret None else
  _ ← advance 4;
  frame_buf ← split_to total_len;
  scoped frame_buf decode_body.

(** `RukaCodec`'s `Decoder::decode` and `Encoder::encode`. *)
Definition Codec_decode : Res bytes (option Frame) := Frame_decode.
Definition Codec_encode (item : Frame) : Res bytes unit := Frame_encode item.
End frame.

(** ** The wire format *)
Definition wire_body (f : Frame) : bytes :=
  be_bytes 1 (f_magic f) ++ be_bytes 2 (ApiKey_as_u16 (f_api_key f)) ++
  be_bytes 4 (f_correlation_id f) ++ be_bytes 2 (as_u16 (blen (f_topic f))) ++ f_topic f ++
  be_bytes 4 (f_partition f) ++ be_bytes 4 (as_u32 (blen (f_payload f))) ++ f_payload f.
Definition wire (f : Frame) : bytes := be_bytes 4 (as_u32 (body_len f)) ++ wire_body f.

(** The frames the protocol can carry: `decode` accepts no other. *)
Definition sendable (f : Frame) : Prop :=
  Frame_typed f ∧ f_magic f = MAGIC_BYTE ∧ (f_topic f = [] → f_api_key f = AError) ∧
  blen (f_topic f) ≤ 255 ∧ body_len f ≤ MAX_FRAME_SIZE.

#[export] Instance sendable_dec f : Decision (sendable f).
Proof. unfold sendable, Frame_typed. apply _. Defined.

Lemma blen_wire_body f : blen (wire_body f) = body_len f.
Proof. unfold wire_body, body_len. len. Qed.
Lemma blen_wire f : blen (wire f) = 4 + body_len f.
Proof. unfold wire. rewrite blen_app, blen_wire_body. len. Qed.
#[export] Hint Rewrite blen_wire_body blen_wire : len.

Lemma body_len_min f : 17 ≤ body_len f.
Proof. unfold body_len. len. Qed.

Section frame_proofs.
Context `{BytesLaws}.
Implicit Types (b c : bytes) (f : Frame).

Lemma Frame_encode_eq f b : Frame_encode f b = (Ok tt, b ++ wire f).
Proof.
  unfold Frame_encode.
  mstep put_u32_eq. mstep put_u8_eq. mstep put_u16_eq. mstep put_u32_eq.
  mstep put_u16_eq. mstep put_slice_law. mstep put_u32_eq. mstep put_u32_eq.
  rewrite put_slice_law. unfold wire, wire_body. by rewrite <- !(assoc_L (++)).
Qed.

Lemma decode_body_ok f pad :
  sendable f → decode_body (wire_body f ++ pad) = (Ok (Some f), pad).
Proof.
  intros ((Hm & Hc & Hp & Hu) & Hmagic & Htopic & Htl & Hbl).
  assert (Hpl : blen (f_payload f) ≤ MAX_FRAME_SIZE) by (unfold body_len in Hbl; len).
  unfold MAX_FRAME_SIZE in *.
  assert (is_u16 (blen (f_topic f))) by (unfold is_uint; len).
  assert (is_u32 (blen (f_payload f))) by (unfold is_uint; len).
  unfold wire_body, decode_body. rewrite <- !(assoc_L (++)). rewrite !wrap_id by done.
  mstep get_u8_app; [|done]. rewrite Hmagic, Z.eqb_refl. cbn [negb].
  mstep get_u16_app; [|apply ApiKey_as_u16_range].
  rewrite ApiKey_try_from_as_u16. mret_step.
  mstep get_u32_app; [|done]. mstep get_u16_app; [|done].
  destruct (_ && _) eqn:Hempty.
  { apply andb_true_iff in Hempty as [Hz Hk]. apply Z.eqb_eq, blen_0 in Hz.
    rewrite bool_decide_eq_true_2 in Hk by auto. done. }
  case_Zbool; [lia|]. mret_step. case_Zbool; [len|].
  mstep split_to_app; [|done]. rewrite from_utf8_valid by done. mret_step.
  mstep get_u32_app; [|done]. mstep get_u32_app; [|done]. mret_step.
  case_Zbool; [len|]. mstep split_to_app; [|done].
  rewrite run_ret. by rewrite <- Hmagic; destruct f.
Qed.

(** Every outcome of the body decoder on a long enough body: an error, or a
    sendable frame whose encoding starts the body. *)
Lemma decode_body_cases b :
  MIN_HEADER_SIZE ≤ blen b ≤ MAX_FRAME_SIZE →
  (∃ e b', decode_body b = (Err e, b')) ∨
  (∃ f pad, decode_body b = (Ok (Some f), pad) ∧ sendable f ∧ b = wire_body f ++ pad).
Proof.
  unfold MIN_HEADER_SIZE, MAX_FRAME_SIZE. intros [Hmin Hmax]. unfold decode_body.
  destruct (get_split 1 get_u8 b get_u8_law) as (magic & b1 & Hg1 & -> & Hr1); [lia|].
  mstep Hg1. case_Zbool; [|by left; eexists _, _]. cbn [negb].
  destruct (get_split 2 get_u16 b1 get_u16_law) as (key & b2 & Hg2 & -> & Hr2); [len|].
  mstep Hg2. destruct (ApiKey_try_from_total key) as (r & Hr & [->|[k ->]]).
  { left. eexists _, _. by erewrite bind_Err by (by rewrite Hr). }
  erewrite bind_Ok by (by rewrite Hr). apply ApiKey_try_from_Ok in Hr as ->.
  destruct (get_split 4 get_u32 b2 get_u32_law) as (cid & b3 & Hg3 & -> & Hr3); [len|].
  mstep Hg3.
  destruct (get_split 2 get_u16 b3 get_u16_law) as (tl & b4 & Hg4 & -> & Hr4); [len|].
  mstep Hg4. destruct (_ && _) eqn:Hempty; [by left; eexists _, _|].
  case_Zbool; [by left; eexists _, _|]. mret_step. case_Zbool; [by left; eexists _, _|].
  destruct (cut_split split_to b4 tl split_to_law) as (topic & b5 & Hg5 & -> & Htl); [lia|].
  mstep Hg5. destruct (from_utf8 topic) as [t|] eqn:Hutf; [|by left; eexists _, _].
  apply from_utf8_Some in Hutf as [-> Hutf]. mret_step.
  destruct (get_split 4 get_u32 b5 get_u32_law) as (part & b6 & Hg6 & -> & Hr6); [len|].
  mstep Hg6.
  destruct (get_split 4 get_u32 b6 get_u32_law) as (pl & b7 & Hg7 & -> & Hr7); [len|].
  mstep Hg7. mret_step. case_Zbool; [by left; eexists _, _|].
  destruct (cut_split split_to b7 pl split_to_law) as (payload & b8 & Hg8 & -> & Hpl); [lia|].
  mstep Hg8. rewrite run_ret. right. eexists _, _. split; [done|].
  assert (blen topic ≤ 255 ∧ blen payload ≤ 16777216) as [? ?] by (len).
  split; [split; [|split; [done|split]]|].
  - unfold Frame_typed, is_uint. simpl. repeat split; done || lia.
  - simpl. intros ->. change (blen (@nil byte)) with 0 in *. subst tl.
    apply andb_false_iff in Hempty as [?|Hk%negb_false_iff]; [done|].
    by apply bool_decide_eq_true in Hk.
  - split; [done|]. unfold body_len, MAX_FRAME_SIZE. simpl. len.
  - unfold wire_body. simpl. rewrite <- !(assoc_L (++)), Htl, Hpl, !wrap_id; [done|..];
      unfold is_uint; lia.
Qed.

(** A complete frame is split off and decoded on its own. *)
Lemma Frame_decode_full b (t := be_val (take 4 b)) :
  MIN_HEADER_SIZE ≤ t ≤ MAX_FRAME_SIZE → 4 + t ≤ blen b →
  Frame_decode b =
    (fst (decode_body (take (Z.to_nat t) (drop 4 b))), drop (Z.to_nat (4 + t)) b).
Proof.
  unfold MIN_HEADER_SIZE, MAX_FRAME_SIZE. intros Ht Hlen. unfold Frame_decode.
  mret_step. case_Zbool; [lia|]. mstep index_u32_ok; [|lia]. unfold MAX_FRAME_SIZE, MIN_HEADER_SIZE. fold t.
  do 3 (case_Zbool; [lia|]).
  erewrite bind_Ok by (apply (proj1 advance_law); lia).
  erewrite bind_Ok by (apply (proj1 split_to_law); change (Z.to_nat 4) with 4%nat;
    unfold blen in *; rewrite length_drop; lia).
  unfold scoped. rewrite drop_drop. do 2 f_equal. lia.
Qed.

(** What `decode` returns when no complete frame is there. *)
Lemma Frame_decode_short b :
  blen b < 4 ∨ (MIN_HEADER_SIZE ≤ be_val (take 4 b) ≤ MAX_FRAME_SIZE ∧
                blen b < 4 + be_val (take 4 b)) →
  Frame_decode b = (Ok None, b).
Proof.
  intros Hb. unfold Frame_decode. mret_step. case_Zbool; [done|]. mstep index_u32_ok; [|lia].
  destruct Hb as [|[]]; [lia|]. do 3 (case_Zbool; try lia). done.
Qed.

Lemma Frame_decode_bad_len b :
  4 ≤ blen b → ¬ MIN_HEADER_SIZE ≤ be_val (take 4 b) ≤ MAX_FRAME_SIZE →
  ∃ e, Frame_decode b = (Err e, b).
Proof.
  intros H4 Hb. unfold Frame_decode. mret_step. case_Zbool; [lia|]. mstep index_u32_ok; [|lia].
  case_Zbool; [by eexists|]. case_Zbool; [by eexists|]. lia.
Qed.

(** The prefix of the wire form determines the length field. *)
Lemma wire_len_field f t :
  body_len f ≤ MAX_FRAME_SIZE → be_val (take 4 (wire f ++ t)) = body_len f.
Proof.
  intros Hle. unfold wire. rewrite <- (assoc_L (++)).
  rewrite take_app_length' by (by rewrite length_be_bytes).
  rewrite be_val_be_bytes. pose proof (body_len_min f). unfold MAX_FRAME_SIZE in *.
  rewrite wrap_id by (unfold is_uint; lia). apply Z.mod_small. lia.
Qed.

Lemma Frame_decode_wire f t : sendable f → Frame_decode (wire f ++ t) = (Ok (Some f), t).
Proof.
  intros Hs. pose proof Hs as (_ & _ & _ & _ & Hmax). pose proof (body_len_min f).
  rewrite Frame_decode_full; rewrite !wire_len_field by done; [|by unfold MIN_HEADER_SIZE|len].
  rewrite drop_blen_app by (len). f_equal.
  unfold wire. rewrite <- (assoc_L (++)), drop_app_length' by (by rewrite length_be_bytes).
  rewrite take_blen_app by (len). rewrite <- (app_nil_r (wire_body f)).
  by rewrite decode_body_ok.
Qed.
End frame_proofs.

(** ** Decoding a byte stream

    The reader calls `decode` until it asks for more bytes ([drain]), then
    appends what the socket delivers and starts over ([feed]). *)
Section stream.
Context `{!BytesOps}.

Inductive drain : bytes → list Frame → bytes → Prop :=
| drain_more b : Codec_decode b = (Ok None, b) → drain b [] b
| drain_frame b f b' fs r :
    Codec_decode b = (Ok (Some f), b') → drain b' fs r → drain b (f :: fs) r.

Inductive feed : bytes → list bytes → list Frame → bytes → Prop :=
| feed_end b : feed b [] [] b
| feed_chunk b c cs fs1 r fs2 r' :
    drain (b ++ c) fs1 r → feed r cs fs2 r' → feed b (c :: cs) (fs1 ++ fs2) r'.
End stream.

(** The bytes that put [fs] on the wire. *)
Definition wires (fs : list Frame) : bytes := concat (wire <$> fs).

(** A cut of the stream falls between two frames or inside one. *)
Lemma wires_prefix fs x y :
  wires fs = x ++ y →
  ∃ fs1 fs2 p, fs = fs1 ++ fs2 ∧ x = wires fs1 ++ p ∧ p ++ y = wires fs2 ∧
    (∀ f fs', fs2 = f :: fs' → blen p < blen (wire f)) ∧ (fs2 = [] → p = []).
Proof.
  revert x. induction fs as [|f fs IH]; intros x Hx.
  { exists [], [], []. symmetry in Hx. apply app_eq_nil in Hx as [-> ->]. done. }
  destruct (Z.lt_ge_cases (blen x) (blen (wire f))) as [Hlt|Hge].
  { exists [], (f :: fs), x. naive_solver. }
  change (wires (f :: fs)) with (wire f ++ wires fs) in Hx.
  assert (∃ x', x = wire f ++ x') as [x' ->].
  { exists (drop (length (wire f)) x).
    assert (take (length (wire f)) (wire f ++ wires fs) = take (length (wire f)) (x ++ y)) as Ht
      by congruence.
    rewrite take_app_length, take_app_le in Ht by (unfold blen in Hge; lia).
    rewrite Ht at 1. by rewrite take_drop. }
  rewrite <- (assoc_L (++)) in Hx. apply (inj (app (wire f))) in Hx.
  destruct (IH _ Hx) as (fs1 & fs2 & p & -> & -> & Hy & Hp & Hnil).
  exists (f :: fs1), fs2, p. split; [done|]. split; [|done].
  change (wires (f :: fs1)) with (wire f ++ wires fs1). by rewrite <- (assoc_L (++)).
Qed.

Section frame_theorems.
Context `{BytesLaws}.
Implicit Types (b c : bytes) (f : Frame) (fs : list Frame).

Lemma Frame_decode_prefix f p q :
  sendable f → wire f = p ++ q → blen p < blen (wire f) → Frame_decode p = (Ok None, p).
Proof.
  intros Hs Hw Hp. apply Frame_decode_short.
  pose proof Hs as (_ & _ & _ & _ & Hmax). pose proof (body_len_min f).
  destruct (Z.lt_ge_cases (blen p) 4) as [|H4]; [by left|right].
  assert (take 4 p = take 4 (wire f ++ [])) as ->.
  { rewrite app_nil_r, Hw, take_app_le; [done|unfold blen in H4; lia]. }
  rewrite wire_len_field by done. split; [by unfold MIN_HEADER_SIZE|]. len.
Qed.

Lemma drain_wires fs p :
  Forall sendable fs → Codec_decode p = (Ok None, p) → drain (wires fs ++ p) fs p.
Proof.
  intros Hfs Hp. induction Hfs as [|f fs Hf Hfs IH]; [by apply drain_more|].
  change (wires (f :: fs)) with (wire f ++ wires fs). rewrite <- (assoc_L (++)).
  eapply drain_frame; [by apply Frame_decode_wire|done].
Qed.

(** The bytes left over after a cut are not a complete frame. *)
Lemma wires_rest_incomplete fs p y :
  Forall sendable fs → p ++ y = wires fs →
  (∀ f fs', fs = f :: fs' → blen p < blen (wire f)) → (fs = [] → p = []) →
  Codec_decode p = (Ok None, p).
Proof.
  intros Hfs Hp Hlt Hnil. destruct fs as [|f fs'].
  { rewrite (Hnil eq_refl). apply Frame_decode_short. left. unfold blen. simpl. lia. }
  specialize (Hlt f fs' eq_refl). pose proof (Forall_inv Hfs) as Hf.
  eapply (Frame_decode_prefix f p (drop (length p) (wire f))); [done| |done].
  change (wires (f :: fs')) with (wire f ++ wires fs') in Hp.
  assert (take (length p) (p ++ y) = take (length p) (wire f ++ wires fs')) as Ht by congruence.
  rewrite take_app_length, take_app_le in Ht by (unfold blen in Hlt; lia).
  rewrite Ht at 1. by rewrite take_drop.
Qed.

Lemma feed_wires cs fs r :
  Forall sendable fs → r ++ concat cs = wires fs →
  (∀ f fs', fs = f :: fs' → blen r < blen (wire f)) → feed r cs fs [].
Proof.
  revert fs r. induction cs as [|c cs IH]; intros fs r Hfs Hr Hlt.
  { rewrite app_nil_r in Hr. destruct fs as [|f fs]; [subst r; apply feed_end|].
    specialize (Hlt f fs eq_refl). apply (f_equal blen) in Hr.
    change (wires (f :: fs)) with (wire f ++ wires fs) in Hr. len. }
  rewrite concat_cons, (assoc_L (++)) in Hr. symmetry in Hr.
  destruct (wires_prefix _ _ _ Hr) as (fs1 & fs2 & p & -> & Hrc & Hy & Hp & Hnil).
  apply Forall_app in Hfs as [Hfs1 Hfs2].
  eapply (feed_chunk _ _ _ _ p); [|by apply IH].
  rewrite Hrc. apply drain_wires; [done|]. by eapply wires_rest_incomplete.
Qed.

(** Every outcome of the decoder: more bytes are needed, an error, or a sendable
    frame whose length field, encoding and padding were consumed. *)
Lemma Frame_decode_cases b :
  Frame_decode b = (Ok None, b) ∨
  (∃ e b', Frame_decode b = (Err e, b') ∧ b' `suffix_of` b) ∨
  (∃ f pad b', Frame_decode b = (Ok (Some f), b') ∧ sendable f ∧
     b = be_bytes 4 (body_len f + blen pad) ++ wire_body f ++ pad ++ b').
Proof.
  destruct (Z.lt_ge_cases (blen b) 4) as [H4|H4].
  { left. apply Frame_decode_short. by left. }
  destruct (decide (MIN_HEADER_SIZE ≤ be_val (take 4 b) ≤ MAX_FRAME_SIZE)) as [Ht|Ht].
  2:{ right. left. destruct (Frame_decode_bad_len b H4 Ht) as [e ->]. by exists e, b. }
  destruct (Z.lt_ge_cases (blen b) (4 + be_val (take 4 b))) as [Hlt|Hge].
  { left. apply Frame_decode_short. by right. }
  right. rewrite Frame_decode_full by (done || lia).
  set (t := be_val (take 4 b)) in *. set (x := take (Z.to_nat t) (drop 4 b)) in *.
  assert (blen x = t) as Hx.
  { unfold x, blen in *. rewrite length_take, length_drop. unfold MIN_HEADER_SIZE in Ht. lia. }
  destruct (decode_body_cases x) as [(e & y & ->)|(g & pad & -> & Hsend & Hxe)]; [lia|left|right].
  { eexists e, _. split; [done|]. exists (take (Z.to_nat (4 + t)) b). by rewrite take_drop. }
  exists g, pad, (drop (Z.to_nat (4 + t)) b). split; [done|]. split; [done|].
  rewrite (assoc_L (++) (wire_body g)), <- Hxe.
  replace (body_len g + blen pad) with t by (rewrite <- Hx, Hxe; len).
  rewrite <- (take_drop 4 b) at 1. f_equal.
  - symmetry. replace 4%nat with (length (take 4 b)) at 1; [apply be_bytes_be_val|].
    rewrite length_take. unfold blen in H4. lia.
  - rewrite Z2Nat.inj_add by (unfold MIN_HEADER_SIZE in Ht; lia).
    change (Z.to_nat 4) with 4%nat. rewrite <- drop_drop. unfold x. by rewrite take_drop.
Qed.

(** C27: encoding any sendable frame appends to the buffer a byte string that
    decodes to exactly that frame, whatever bytes follow, and the decoder
    consumes exactly those bytes. *)
Theorem Frame_roundtrip f dst rest :
  sendable f →
  ∃ w, Frame_encode f dst = (Ok tt, dst ++ w) ∧ Frame_decode (w ++ rest) = (Ok (Some f), rest).
Proof.
  intros Hs. exists (wire f). split; [apply Frame_encode_eq|by apply Frame_decode_wire].
Qed.

(** C26: however a sequence of encoded frames is cut into chunks by the
    transport, feeding the chunks one by one to the codec yields exactly that
    sequence, in order, and leaves nothing in the buffer. *)
Theorem Frame_stream_chunking fs cs :
  Forall sendable fs → concat cs = wires fs → feed [] cs fs [].
Proof.
  intros Hfs Hcs. apply feed_wires; [done..|]. intros f fs' ->.
  pose proof (body_len_min f). len.
Qed.

(** C28: decoding never panics, whatever bytes a peer sends, and only ever
    removes a prefix of the buffer. *)
Theorem Frame_decode_safe b :
  ∃ r b', Frame_decode b = (r, b') ∧ r ≠ Panic ∧ r ≠ OutOfFuel ∧ b' `suffix_of` b.
Proof.
  destruct (Frame_decode_cases b) as [->|[(e & b' & -> & Hs)|(f & pad & b' & -> & _ & ->)]]; eexists _, _; [done..|].
  do 3 (split; [done|]). rewrite !(assoc_L (++)). by eexists.
Qed.

(** C29: a frame the decoder accepts is sendable (right magic byte, known API
    key, non-empty UTF-8 topic of at most 255 bytes unless it is an error
    frame, size within the limit), and the consumed bytes are its length
    field, its encoding and ignored padding. *)
Theorem Frame_decode_sound b f b' :
  Frame_decode b = (Ok (Some f), b') →
  sendable f ∧ ∃ pad, b = be_bytes 4 (body_len f + blen pad) ++ wire_body f ++ pad ++ b'.
Proof.
  intros Hd. destruct (Frame_decode_cases b) as [He|[(e & b1 & He & _)|(g & pad & b1 & He & Hs & Hb)]];
    rewrite He in Hd; [done..|]. injection Hd as -> ->. split; [done|]. by exists pad.
Qed.
End frame_theorems.

(** ** Concrete runs *)
Module FrameWitness.
Import ListBytes.
Definition ex (k : ApiKey) (topic payload : bytes) : Frame :=
  {| f_magic := MAGIC_BYTE; f_api_key := k; f_correlation_id := 42; f_topic := topic;
     f_partition := 7; f_payload := payload |}.
Definition ex1 : Frame := ex AProduce (str "orders") (str "hello").
Definition ex2 : Frame := ex AError [] (str "oops").

Lemma ex_sendable : Forall sendable [ex1; ex2].
Proof. repeat constructor; vm_compute; naive_solver. Qed.

Lemma Frame_roundtrip_witness :
  sendable ex1 ∧ ∃ w, Frame_encode ex1 [] = (Ok tt, w) ∧ Frame_decode (w ++ [x01]) = (Ok (Some ex1), [x01]).
Proof.
  split; [by apply (Forall_inv ex_sendable)|].
  destruct (Frame_roundtrip ex1 [] [x01] (Forall_inv ex_sendable)) as (w & H1 & H2).
  exists w. split; [exact H1|exact H2].
Defined.

Lemma Frame_stream_chunking_witness :
  feed [] [take 3 (wires [ex1; ex2]); drop 3 (wires [ex1; ex2])] [ex1; ex2] [].
Proof. apply Frame_stream_chunking; [exact ex_sendable|vm_compute; reflexivity]. Defined.

Lemma Frame_decode_sound_witness :
  sendable ex2 ∧ ∃ pad, wire ex2 ++ [x07] = be_bytes 4 (body_len ex2 + blen pad) ++ wire_body ex2 ++ pad ++ [x07].
Proof. apply (Frame_decode_sound (wire ex2 ++ [x07]) ex2 [x07]). vm_compute. reflexivity. Defined.

Lemma Frame_decode_safe_witness :
  ∃ r b', Frame_decode [x00; x00; x00; x11; xff] = (r, b') ∧ r ≠ Panic ∧ r ≠ OutOfFuel ∧
          b' `suffix_of` [x00; x00; x00; x11; xff].
Proof. exact (Frame_decode_safe _). Defined.
End FrameWitness.
