(* ===== verification/Request.v ===== *)
(** * Typed requests (src/src/protocol/request.rs)

    [Request_from_frame] is `Request::from_frame`, the three [*_into_frame] are
    the client-side inverses. The theorems: the two directions are inverse to
    each other on everything the protocol can carry, and parsing a frame never
    panics and always terminates. *)
From S2P Require Import Prelude Errors BytesCrate StdText Types Frame.
#[local] Open Scope Z_scope.

Record ProduceRequest : Type := {
  pr_correlation_id : Z;
  pr_topic : bytes;
  pr_partition : Z;
  pr_payload : bytes
}.

Record ProduceBatchRequest : Type := {
  pb_correlation_id : Z;
  pb_topic : bytes;
  pb_partition : Z;
  pb_payloads : list bytes
}.

Record FetchRequest : Type := {
  fr_correlation_id : Z;
  fr_topic : bytes;
  fr_partition : Z;
  fr_offset : Z;
  fr_max_bytes : Z
}.

Inductive Request : Type :=
| RProduce (r : ProduceRequest)
| RProduceBatch (r : ProduceBatchRequest)
| RFetch (r : FetchRequest).

Section request.
Context `{!BytesOps}.

(** The `for _ in 0..batch_len` loop. Every turn takes at least four bytes
    off the payload, so its length bounds the number of turns. *)
Fixpoint batch_loop (fuel : nat) (n : Z) (payloads : list bytes) : Res bytes (list bytes) :=
  if n <=? 0 then mret payloads else
  match fuel with
  | O => out_of_fuel
  | S fuel' =>
      len ← gets blen;
      if len <? 4 then throw (FrameTooShort 4 len) else
      msg_len ← get_u32;
      len ← gets blen;
      if len <? msg_len then throw (FrameTooShort msg_len len) else
      msg ← copy_to_bytes msg_len;
      batch_loop fuel' (n - 1) (payloads ++ [msg])
  end.

Definition parse_batch : Res bytes (list bytes) :=
  len ← gets blen;
  if len <? 4 then throw (FrameTooShort 4 len) else
  batch_len ← get_u32;
  fuel ← gets (λ b, S (length b));
  payloads ← batch_loop fuel batch_len [];
  rest ← gets blen;
  if 0 <? rest then throw (InvalidFrame (str "trailing bytes in batch payload")) else
  mret payloads.

Definition parse_fetch : Res bytes (Z * Z) :=
  offset ← get_u64;
  max_bytes ← get_u32;
  mret (offset, max_bytes).

Definition Request_from_frame (frame : Frame) : outcome RukaError Request :=
  match f_api_key frame with
  | AError => Err (InvalidFrame (str "Client cannot send Error frames"))
  | AProduce => Ok (RProduce {|
      pr_correlation_id := f_correlation_id frame; pr_topic := f_topic frame;
      pr_partition := f_partition frame; pr_payload := f_payload frame |})
  | AProduceBatch =>
      fst ((payloads ← parse_batch;
            mret (RProduceBatch {|
              pb_correlation_id := f_correlation_id frame; pb_topic := f_topic frame;
              pb_partition := f_partition frame; pb_payloads := payloads |}))
           (f_payload frame))
  | AFetch =>
      if negb (blen (f_payload frame) =? 12)
      then Err (FrameTooShort 12 (blen (f_payload frame)))
      else fst ((om ← parse_fetch;
                 mret (RFetch {|
                   fr_correlation_id := f_correlation_id frame; fr_topic := f_topic frame;
                   fr_partition := f_partition frame; fr_offset := fst om;
                   fr_max_bytes := snd om |}))
                (f_payload frame))
  end.

Definition ProduceRequest_into_frame (r : ProduceRequest) : Frame :=
  {| f_magic := MAGIC_BYTE; f_api_key := AProduce; f_correlation_id := pr_correlation_id r;
     f_topic := pr_topic r; f_partition := pr_partition r; f_payload := pr_payload r |}.

Fixpoint put_payloads (ps : list bytes) : Res bytes unit :=
  match ps with
  | [] => mret tt
  | p :: ps' => _ ← put_u32 (as_u32 (blen p)); _ ← put_slice p; put_payloads ps'
  end.

Definition ProduceBatchRequest_into_frame (r : ProduceBatchRequest) : Frame :=
  {| f_magic := MAGIC_BYTE; f_api_key := AProduceBatch;
     f_correlation_id := pb_correlation_id r; f_topic := pb_topic r;
     f_partition := pb_partition r;
     f_payload := built (_ ← put_u32 (as_u32 (blen (pb_payloads r)));
                         put_payloads (pb_payloads r)) |}.

Definition FetchRequest_into_frame (r : FetchRequest) : Frame :=
  {| f_magic := MAGIC_BYTE; f_api_key := AFetch; f_correlation_id := fr_correlation_id r;
     f_topic := fr_topic r; f_partition := fr_partition r;
     f_payload := built (_ ← put_u64 (fr_offset r); put_u32 (fr_max_bytes r)) |}.

Definition Request_into_frame (r : Request) : Frame :=
  match r with
  | RProduce r => ProduceRequest_into_frame r
  | RProduceBatch r => ProduceBatchRequest_into_frame r
  | RFetch r => FetchRequest_into_frame r
  end.
End request.

(** Values of the Rust types (lengths and counters that fit their fields). *)
Definition Request_typed (r : Request) : Prop :=
  match r with
  | RProduce r => True
  | RProduceBatch r =>
      is_u32 (blen (pb_payloads r)) ∧ Forall (λ p, is_u32 (blen p)) (pb_payloads r)
  | RFetch r => is_u64 (fr_offset r) ∧ is_u32 (fr_max_bytes r)
  end.

(** The batch payload: a count, then length-prefixed messages. *)
Definition batch_item (p : bytes) : bytes := be_bytes 4 (blen p) ++ p.
Definition batch_items (ps : list bytes) : bytes := concat (batch_item <$> ps).
Lemma batch_items_cons p ps : batch_items (p :: ps) = be_bytes 4 (blen p) ++ p ++ batch_items ps.
Proof.
  change (batch_items (p :: ps)) with (batch_item p ++ batch_items ps).
  unfold batch_item. by rewrite <- (assoc_L (++)).
Qed.

Lemma length_batch_items ps : (length ps ≤ length (batch_items ps))%nat.
Proof.
  induction ps as [|p ps IH]; [done|]. rewrite batch_items_cons, !length_app, length_be_bytes.
  simpl. lia.
Qed.

Section request_proofs.
Context `{BytesLaws}.

Lemma put_payloads_eq ps b :
  Forall (λ p, is_u32 (blen p)) ps → put_payloads ps b = (Ok tt, b ++ batch_items ps).
Proof.
  intros Hps. revert b. induction Hps as [|p ps Hp Hps IH]; intros b; simpl.
  { by rewrite app_nil_r. }
  mstep put_u32_eq. mstep put_slice_law. rewrite IH, batch_items_cons, wrap_id by done.
  by rewrite <- !(assoc_L (++)).
Qed.

Lemma batch_loop_ok ps acc fuel rest :
  Forall (λ p, is_u32 (blen p)) ps → (length ps ≤ fuel)%nat →
  batch_loop fuel (blen ps) acc (batch_items ps ++ rest) = (Ok (acc ++ ps), rest).
Proof.
  intros Hps. revert acc fuel. induction Hps as [|p ps Hp Hps IH]; intros acc fuel Hf.
  { destruct fuel; simpl; by rewrite app_nil_r. }
  destruct fuel as [|fuel]; [simpl in Hf; lia|]. cbn [batch_loop].
  case_Zbool; [len|]. mret_step. rewrite batch_items_cons, <- !(assoc_L (++)).
  case_Zbool; [len|]. mstep get_u32_app; [|done]. mret_step. case_Zbool; [len|].
  mstep copy_to_bytes_app; [|done].
  replace (blen (p :: ps) - 1) with (blen ps) by (len).
  rewrite IH by (simpl in Hf; lia). by rewrite <- (assoc_L (++)).
Qed.

(** Every outcome of the loop: an error, or messages whose encoding is what
    was consumed. It never panics, and the fuel is enough. *)
Lemma batch_loop_cases b fuel n acc :
  0 ≤ n → (length b < fuel)%nat →
  (∃ e b', batch_loop fuel n acc b = (Err e, b')) ∨
  (∃ ps rest, batch_loop fuel n acc b = (Ok (acc ++ ps), rest) ∧ b = batch_items ps ++ rest ∧
              blen ps = n ∧ Forall (λ p, is_u32 (blen p)) ps).
Proof.
  revert b n acc. induction fuel as [|fuel IH]; intros b n acc Hn Hf; [lia|].
  cbn [batch_loop]. case_Zbool.
  { right. exists [], b. rewrite app_nil_r. repeat split; [by simpl; len|constructor]. }
  mret_step. case_Zbool; [by left; eexists _, _|].
  destruct (get_split 4 get_u32 b get_u32_law) as (v & b1 & Hg & -> & Hv); [lia|].
  mstep Hg. mret_step. case_Zbool; [by left; eexists _, _|].
  destruct (cut_split copy_to_bytes b1 v copy_to_bytes_law) as (d & b2 & Hc & -> & Hd); [lia|].
  mstep Hc. rewrite !length_app, length_be_bytes in Hf.
  destruct (IH b2 (n - 1) (acc ++ [d])) as [(e & b' & He)|(ps & rest & Hps & -> & Hlen & Hall)];
    [lia..|left; eauto|right].
  exists (d :: ps), rest. rewrite Hps, <- (assoc_L (++)), batch_items_cons, Hd.
  rewrite <- !(assoc_L (++)). split; [done|]. split; [done|]. split; [len|].
  constructor; [|done]. rewrite Hd. unfold is_uint. lia.
Qed.

Lemma parse_batch_cases b :
  (∃ e b', parse_batch b = (Err e, b')) ∨
  (∃ ps, parse_batch b = (Ok ps, []) ∧ b = be_bytes 4 (blen ps) ++ batch_items ps ∧
         is_u32 (blen ps) ∧ Forall (λ p, is_u32 (blen p)) ps).
Proof.
  unfold parse_batch. mret_step. case_Zbool; [by left; eexists _, _|].
  destruct (get_split 4 get_u32 b get_u32_law) as (v & b1 & Hg & -> & Hv); [lia|].
  mstep Hg. mret_step.
  destruct (batch_loop_cases b1 (S (length b1)) v []) as
    [(e & b' & He)|(ps & rest & Hps & -> & Hlen & Hall)]; [lia..| |].
  { left. exists e, b'. by erewrite bind_Err by (apply He). }
  mstep Hps. mret_step. case_Zbool; [by left; eexists _, _|]. right. exists ps.
  assert (rest = []) as -> by (apply blen_0; len). rewrite run_ret, app_nil_r, Hlen.
  repeat split; unfold is_uint; done || lia.
Qed.

Lemma parse_batch_ok ps :
  is_u32 (blen ps) → Forall (λ p, is_u32 (blen p)) ps →
  parse_batch (be_bytes 4 (blen ps) ++ batch_items ps) = (Ok ps, []).
Proof.
  intros Hn Hps. unfold parse_batch. mret_step. case_Zbool; [len|].
  mstep get_u32_app; [|done]. mret_step.
  rewrite <- (app_nil_r (batch_items ps)).
  erewrite bind_Ok by (apply batch_loop_ok; [done|]; rewrite app_nil_r;
    pose proof (length_batch_items ps); lia).
  mret_step. case_Zbool; [len|]. done.
Qed.

Lemma FetchRequest_payload r :
  f_payload (FetchRequest_into_frame r) = be_bytes 8 (fr_offset r) ++ be_bytes 4 (fr_max_bytes r).
Proof. unfold FetchRequest_into_frame, built. simpl. mstep put_u64_eq. by rewrite put_u32_eq. Qed.

Lemma ProduceBatchRequest_payload r :
  Request_typed (RProduceBatch r) →
  f_payload (ProduceBatchRequest_into_frame r) =
    be_bytes 4 (blen (pb_payloads r)) ++ batch_items (pb_payloads r).
Proof.
  intros [Hn Hps]. unfold ProduceBatchRequest_into_frame, built. simpl.
  mstep put_u32_eq. by rewrite put_payloads_eq, wrap_id.
Qed.

Lemma Request_from_into_frame r :
  Request_typed r → Request_from_frame (Request_into_frame r) = Ok r.
Proof.
  intros Hr. destruct r as [r|r|r]; unfold Request_from_frame, Request_into_frame.
  - by destruct r.
  - change (f_api_key (ProduceBatchRequest_into_frame r)) with AProduceBatch. cbv match.
    rewrite ProduceBatchRequest_payload by done.
    destruct Hr as [Hn Hps]. erewrite bind_Ok by (by apply parse_batch_ok). by destruct r.
  - change (f_api_key (FetchRequest_into_frame r)) with AFetch. cbv match.
    rewrite FetchRequest_payload. destruct Hr as [Ho Hm].
    case_Zbool; [|len]. cbn [negb]. unfold parse_fetch.
    erewrite bind_Ok; [|mstep get_u64_app; [|done];
      rewrite <- (app_nil_r (be_bytes 4 _)); mstep get_u32_app; [|done]; done].
    by destruct r.
Qed.

(** The parser's outcomes on any well-typed frame with the right magic byte. *)
Lemma Request_from_frame_cases f :
  f_magic f = MAGIC_BYTE →
  (∃ e, Request_from_frame f = Err e) ∨
  (∃ r, Request_from_frame f = Ok r ∧ Request_typed r ∧ Request_into_frame r = f).
Proof.
  intros Hm. destruct f as [m k c t p pl]. simpl in Hm. subst m.
  unfold Request_from_frame. cbn [f_api_key f_payload]. destruct k.
  - right. eexists. split; [done|]. done.
  - case_Zbool; [|left; by eexists]. cbn [negb]. unfold parse_fetch.
    destruct (get_split 8 get_u64 pl get_u64_law) as (o & b1 & Hg1 & -> & Ho); [lia|].
    destruct (get_split 4 get_u32 b1 get_u32_law) as (mb & b2 & Hg2 & -> & Hb); [len|].
    assert (b2 = []) as -> by (apply blen_0; len).
    right. eexists. split.
    { erewrite bind_Ok; [|mstep Hg1; mstep Hg2; reflexivity]. reflexivity. }
    split; [split; unfold is_uint; simpl; lia|]. unfold Request_into_frame, FetchRequest_into_frame.
    f_equal. unfold built. simpl. mstep put_u64_eq. rewrite put_u32_eq. by rewrite ?app_nil_r.
  - destruct (parse_batch_cases pl) as [(e & b' & He)|(ps & Hps & -> & Hn & Hall)].
    { left. exists e. by erewrite bind_Err by (apply He). }
    right. eexists. split; [erewrite bind_Ok by (apply Hps); reflexivity|].
    split; [by split|]. unfold Request_into_frame, ProduceBatchRequest_into_frame.
    f_equal. unfold built. simpl. mstep put_u32_eq. by rewrite put_payloads_eq, wrap_id.
  - left. by eexists.
Qed.
End request_proofs.

Section request_theorems.
Context `{BytesLaws}.

(** C30: for frames with the protocol's magic byte, parsing and printing of
    requests are exact inverses: `from_frame` accepts a frame as the request
    [r] if and only if the frame is the one `into_frame` builds for [r] (and
    [r]'s lengths and counters fit their wire fields); in particular nothing
    is lost, duplicated or left over in a batch. *)
Theorem Request_parse_exact f r :
  f_magic f = MAGIC_BYTE →
  Request_from_frame f = Ok r ↔ Request_typed r ∧ f = Request_into_frame r.
Proof.
  intros Hm. split.
  - intros Hf. destruct (Request_from_frame_cases f Hm) as [[e He]|(r' & Hr & Ht & <-)]; [congruence|].
    assert (r' = r) as -> by congruence. done.
  - intros [Ht ->]. by apply Request_from_into_frame.
Qed.

(** Parsing a request never panics and always terminates, whatever
    payload the frame carries. *)
Lemma Request_from_frame_safe f :
  Request_from_frame f ≠ Panic ∧ Request_from_frame f ≠ OutOfFuel.
Proof.
  set (g := {| f_magic := MAGIC_BYTE; f_api_key := f_api_key f;
               f_correlation_id := f_correlation_id f; f_topic := f_topic f;
               f_partition := f_partition f; f_payload := f_payload f |}).
  change (Request_from_frame f) with (Request_from_frame g).
  destruct (Request_from_frame_cases g eq_refl) as [[e ->]|(r & -> & _)]; done.
Qed.

(** C31: a request that fits in a frame survives the whole trip: printed to a
    frame, encoded to bytes, decoded by the broker and parsed, it is the same
    request, and the following bytes of the connection are untouched. *)
Theorem Request_wire_roundtrip r rest :
  Request_typed r → sendable (Request_into_frame r) →
  ∃ w f, Frame_encode (Request_into_frame r) [] = (Ok tt, w) ∧
         Frame_decode (w ++ rest) = (Ok (Some f), rest) ∧ Request_from_frame f = Ok r.
Proof.
  intros Ht Hs. exists (wire (Request_into_frame r)), (Request_into_frame r).
  split; [apply Frame_encode_eq|]. split; [by apply Frame_decode_wire|].
  by apply Request_from_into_frame.
Qed.
End request_theorems.

Module RequestWitness.
Import ListBytes.
Definition batch : Request := RProduceBatch
  {| pb_correlation_id := 9; pb_topic := str "t"; pb_partition := 0;
     pb_payloads := [str "a"; []; str "xyz"] |}.

Lemma Request_parse_exact_witness :
  Request_from_frame (Request_into_frame batch) = Ok batch ↔
  Request_typed batch ∧ Request_into_frame batch = Request_into_frame batch.
Proof. apply Request_parse_exact. reflexivity. Defined.

Lemma batch_typed : Request_typed batch.
Proof. split; [|repeat constructor]; vm_compute; naive_solver. Qed.

(** An absurd batch count is refused after one look at the payload. *)
Lemma Request_from_frame_safe_witness :
  let f := {| f_magic := MAGIC_BYTE; f_api_key := AProduceBatch; f_correlation_id := 1;
              f_topic := str "t"; f_partition := 0; f_payload := [xff; xff; xff; xff] |} in
  (Request_from_frame f ≠ Panic ∧ Request_from_frame f ≠ OutOfFuel) ∧
  Request_from_frame f = Err (FrameTooShort 4 0).
Proof. intros f. split; [exact (Request_from_frame_safe f)|vm_compute; reflexivity]. Defined.

Lemma Request_wire_roundtrip_witness :
  ∃ w f, Frame_encode (Request_into_frame batch) [] = (Ok tt, w) ∧
         Frame_decode (w ++ [x00]) = (Ok (Some f), [x00]) ∧ Request_from_frame f = Ok batch.
Proof.
  apply (Request_wire_roundtrip batch [x00]); [exact batch_typed|].
  apply (bool_decide_unpack _). vm_compute. exact I.
Defined.
End RequestWitness.
