(* ===== verification/Response.v ===== *)
(** * Responses (src/src/protocol/response.rs)

    The typed responses and their frames. A response built from an accepted
    request can be put on the wire, and what the client needs (the correlation
    id, the offset, the error code) can be read back. *)
From S2P Require Import Prelude Errors BytesCrate StdText Types Frame.
#[local] Open Scope Z_scope.

Record ProduceResponse : Type := {
  pres_correlation_id : Z;
  pres_topic : bytes;
  pres_partition : Z;
  pres_offset : Z
}.

Record ProduceBatchResponse : Type := {
  bres_correlation_id : Z;
  bres_topic : bytes;
  bres_partition : Z;
  bres_base_offset : Z
}.

Record FetchResponse : Type := {
  fres_correlation_id : Z;
  fres_topic : bytes;
  fres_partition : Z;
  fres_payload : bytes
}.

Record ErrorResponse : Type := {
  eres_correlation_id : Z;
  eres_error_code : ErrorCode;
  eres_error_message : bytes
}.

Inductive Response : Type :=
| ResProduce (r : ProduceResponse)
| ResProduceBatch (r : ProduceBatchResponse)
| ResFetch (r : FetchResponse)
| ResError (r : ErrorResponse).

Section response.
Context `{!BytesOps}.

Definition ProduceResponse_into_frame (r : ProduceResponse) : Frame :=
  {| f_magic := MAGIC_BYTE; f_api_key := AProduce; f_correlation_id := pres_correlation_id r;
     f_topic := pres_topic r; f_partition := pres_partition r;
     f_payload := built (put_u64 (pres_offset r)) |}.

Definition ProduceBatchResponse_into_frame (r : ProduceBatchResponse) : Frame :=
  {| f_magic := MAGIC_BYTE; f_api_key := AProduceBatch;
     f_correlation_id := bres_correlation_id r; f_topic := bres_topic r;
     f_partition := bres_partition r; f_payload := built (put_u64 (bres_base_offset r)) |}.

Definition FetchResponse_into_frame (r : FetchResponse) : Frame :=
  {| f_magic := MAGIC_BYTE; f_api_key := AFetch; f_correlation_id := fres_correlation_id r;
     f_topic := fres_topic r; f_partition := fres_partition r; f_payload := fres_payload r |}.

Definition ErrorResponse_into_frame (r : ErrorResponse) : Frame :=
  {| f_magic := MAGIC_BYTE; f_api_key := AError; f_correlation_id := eres_correlation_id r;
     f_topic := []; f_partition := 0;
     f_payload := built (_ ← put_u16 (ErrorCode_as_u16 (eres_error_code r));
                         put_slice (eres_error_message r)) |}.

Definition Response_into_frame (r : Response) : Frame :=
  match r with
  | ResProduce r => ProduceResponse_into_frame r
  | ResProduceBatch r => ProduceBatchResponse_into_frame r
  | ResFetch r => FetchResponse_into_frame r
  | ResError r => ErrorResponse_into_frame r
  end.
End response.

(** `ErrorResponse::from_error`; the message is the error's `to_string()`. *)
Definition from_error (correlation_id : Z) (code : ErrorCode) (message : bytes) : Response :=
  ResError {| eres_correlation_id := correlation_id; eres_error_code := code;
              eres_error_message := message |}.

Definition Response_correlation_id (r : Response) : Z :=
  match r with
  | ResProduce r => pres_correlation_id r
  | ResProduceBatch r => bres_correlation_id r
  | ResFetch r => fres_correlation_id r
  | ResError r => eres_correlation_id r
  end.

(** Addressed to a valid topic and partition, and small enough for a frame. *)
Definition addressed (cid : Z) (topic : bytes) (partition : Z) : Prop :=
  is_u32 cid ∧ is_u32 partition ∧ utf8_valid topic = true ∧ topic ≠ [] ∧ blen topic ≤ 255.
Definition Response_fits (r : Response) : Prop :=
  match r with
  | ResProduce r =>
      addressed (pres_correlation_id r) (pres_topic r) (pres_partition r) ∧ is_u64 (pres_offset r)
  | ResProduceBatch r =>
      addressed (bres_correlation_id r) (bres_topic r) (bres_partition r) ∧
      is_u64 (bres_base_offset r)
  | ResFetch r =>
      addressed (fres_correlation_id r) (fres_topic r) (fres_partition r) ∧
      17 + blen (fres_topic r) + blen (fres_payload r) ≤ MAX_FRAME_SIZE
  | ResError r =>
      is_u32 (eres_correlation_id r) ∧ 19 + blen (eres_error_message r) ≤ MAX_FRAME_SIZE
  end.

(** What a client reads back from a response frame (the offset as in
    `examples/client.rs`, the error code through `ErrorCode::from`). *)
Definition frame_offset (f : Frame) : Z := be_val (take 8 (f_payload f)).
Definition frame_error (f : Frame) : ErrorCode := ErrorCode_from_u16 (be_val (take 2 (f_payload f))).

Definition answers (r : Response) (f : Frame) : Prop :=
  f_correlation_id f = Response_correlation_id r ∧
  match r with
  | ResProduce r => f_api_key f = AProduce ∧ f_topic f = pres_topic r ∧
      f_partition f = pres_partition r ∧ frame_offset f = pres_offset r
  | ResProduceBatch r => f_api_key f = AProduceBatch ∧ f_topic f = bres_topic r ∧
      f_partition f = bres_partition r ∧ frame_offset f = bres_base_offset r
  | ResFetch r => f_api_key f = AFetch ∧ f_topic f = fres_topic r ∧
      f_partition f = fres_partition r ∧ f_payload f = fres_payload r
  | ResError r => f_api_key f = AError ∧ frame_error f = eres_error_code r ∧
      drop 2 (f_payload f) = eres_error_message r
  end.

Section response_proofs.
Context `{BytesLaws}.

Lemma built_put_u64 v : built (put_u64 v) = be_bytes 8 v.
Proof. unfold built. by rewrite put_u64_eq. Qed.

Lemma ErrorResponse_payload r :
  f_payload (ErrorResponse_into_frame r) =
    be_bytes 2 (ErrorCode_as_u16 (eres_error_code r)) ++ eres_error_message r.
Proof.
  unfold ErrorResponse_into_frame, built. simpl. mstep put_u16_eq. by rewrite put_slice_law.
Qed.

Lemma addressed_sendable cid topic part k pl :
  addressed cid topic part → 17 + blen topic + blen pl ≤ MAX_FRAME_SIZE →
  sendable {| f_magic := MAGIC_BYTE; f_api_key := k; f_correlation_id := cid; f_topic := topic;
              f_partition := part; f_payload := pl |}.
Proof.
  intros (Hc & Hp & Hu & Hne & Hl) Hsz. unfold sendable, Frame_typed, body_len. simpl.
  split_and!; try done; lia.
Qed.

Lemma Response_sendable r : Response_fits r → sendable (Response_into_frame r).
Proof.
  destruct r as [r|r|r|r]; intros Hr; unfold Response_into_frame.
  1,2: destruct Hr as [(?&?&?&?&?) ?]; apply addressed_sendable; [done|];
    rewrite built_put_u64; unfold MAX_FRAME_SIZE; len.
  - destruct Hr. by apply addressed_sendable.
  - destruct Hr as [Hc Hl]. pose proof (ErrorResponse_payload r) as Hpl.
    unfold sendable, Frame_typed, body_len. rewrite Hpl. simpl.
    split_and!; try done; len.
Qed.

Lemma Response_answers r : Response_fits r → answers r (Response_into_frame r).
Proof.
  assert (∀ v, is_u64 v → be_val (take 8 (be_bytes 8 v)) = v) as H8.
  { intros v Hv. rewrite take_ge by (by rewrite length_be_bytes).
    rewrite be_val_be_bytes. by apply Z.mod_small. }
  destruct r as [r|r|r|r]; intros Hr; unfold answers, Response_into_frame.
  1,2: destruct Hr as [_ Ho]; unfold frame_offset; simpl; rewrite built_put_u64;
    repeat split; by apply H8.
  - done.
  - split; [done|]. split; [done|]. unfold frame_error. rewrite ErrorResponse_payload.
    rewrite take_app_length', drop_app_length' by (by rewrite length_be_bytes).
    split; [|done]. rewrite be_val_be_bytes, Z.mod_small by (by destruct (eres_error_code r)).
    apply ErrorCode_from_as_u16.
Qed.

(** C32: every response that fits in a frame is delivered: its frame is
    accepted by the client's decoder, and the decoded frame carries the
    request's correlation id, the topic and partition, and the offset, the
    payload or the error code and message of the response. *)
Theorem Response_delivered r rest :
  Response_fits r →
  ∃ w f, Codec_encode (Response_into_frame r) [] = (Ok tt, w) ∧
         Codec_decode (w ++ rest) = (Ok (Some f), rest) ∧ answers r f.
Proof.
  intros Hr. exists (wire (Response_into_frame r)), (Response_into_frame r).
  split; [apply Frame_encode_eq|]. split; [by apply Frame_decode_wire, Response_sendable|].
  by apply Response_answers.
Qed.

(** A fetch response larger than a frame is encoded all the same, and the
    client's decoder refuses it: the broker's response size is not bounded by
    the protocol's limit. *)
Lemma oversized_fetch_response_rejected r rest :
  is_u32 (17 + blen (fres_topic r) + blen (fres_payload r)) →
  MAX_FRAME_SIZE < 17 + blen (fres_topic r) + blen (fres_payload r) →
  ∃ w, Codec_encode (FetchResponse_into_frame r) [] = (Ok tt, w) ∧
       ∃ b', Codec_decode (w ++ rest) =
         (Err (FrameTooLarge MAX_FRAME_SIZE (17 + blen (fres_topic r) + blen (fres_payload r))), b').
Proof.
  intros Hu Hbig. set (f := FetchResponse_into_frame r). exists (wire f).
  split; [apply Frame_encode_eq|]. exists (wire f ++ rest).
  assert (body_len f = 17 + blen (fres_topic r) + blen (fres_payload r)) as Hl
    by (unfold body_len; simpl; lia).
  unfold Codec_decode, Frame_decode. mret_step. case_Zbool; [len; lia|]. mstep index_u32_ok; [|lia].
  assert (be_val (take 4 (wire f ++ rest)) = 17 + blen (fres_topic r) + blen (fres_payload r)) as ->.
  { unfold wire. rewrite <- (assoc_L (++)), take_app_length' by (by rewrite length_be_bytes).
    rewrite be_val_be_bytes, Hl, wrap_id by done. by apply Z.mod_small. }
  case_Zbool; [done|lia].
Qed.
End response_proofs.

Module ResponseWitness.
Import ListBytes.
Definition err : Response := from_error 5 ECOffsetNotFound (str "offset 3 not found in any segment").

Lemma Response_delivered_witness :
  ∃ w f, Codec_encode (Response_into_frame err) [] = (Ok tt, w) ∧
         Codec_decode (w ++ [x01]) = (Ok (Some f), [x01]) ∧ answers err f.
Proof. apply (Response_delivered err [x01]). vm_compute. split; [split|]; congruence. Defined.

Definition big : FetchResponse :=
  {| fres_correlation_id := 1; fres_topic := str "t"; fres_partition := 0;
     fres_payload := replicate (Z.to_nat 17000000) x00 |}.

Lemma oversized_fetch_response_rejected_witness :
  ∃ w, Codec_encode (FetchResponse_into_frame big) [] = (Ok tt, w) ∧
       ∃ b', Codec_decode (w ++ []) = (Err (FrameTooLarge MAX_FRAME_SIZE 17000018), b').
Proof.
  assert (17 + blen (fres_topic big) + blen (fres_payload big) = 17000018) as Hb.
  { unfold blen. cbn [big fres_payload fres_topic]. rewrite length_replicate.
    change (length (str "t")) with 1%nat. lia. }
  rewrite <- Hb.
  apply (oversized_fetch_response_rejected big []); rewrite Hb; vm_compute; split; congruence.
Defined.
End ResponseWitness.
