(* ===== verification/Tokio.v ===== *)
(** * The interfaces of tokio and tokio-util

    The broker's tasks talk through tokio's channels and read frames through
    tokio-util's `Framed`; both are third-party, so they are parameters of the
    model. Each class has the operations the source calls and the view of the
    object its documentation speaks about; the laws state what is documented.
    [ListTokio] is an instance that runs. *)
From S2P Require Import Prelude Errors BytesCrate StdText Types Frame.
#[local] Open Scope Z_scope.

(** ** `tokio::sync::mpsc`: a bounded queue *)

(** `Semaphore::MAX_PERMITS`, the largest capacity of a channel. *)
Definition MAX_PERMITS : Z := 2 ^ 61 - 1.

Class MpscOps : Type := {
  mpsc : Type → Type;
  mpsc_buffer : ∀ {A}, mpsc A → list A;      (** the messages sent and not received *)
  mpsc_capacity : ∀ {A}, mpsc A → Z;
  mpsc_channel : ∀ {A}, Z → option (mpsc A); (** `channel(n)`; [None] when it panics *)
  mpsc_send : ∀ {A}, A → mpsc A → option (mpsc A);    (** [None] while `send` waits for room *)
  mpsc_recv : ∀ {A}, mpsc A → option (A * mpsc A)     (** [None] while `recv` waits *)
}.

Class MpscLaws `{!MpscOps} : Prop := {
  mpsc_channel_law {A} n : 0 < n ≤ MAX_PERMITS →
    ∃ c : mpsc A, mpsc_channel n = Some c ∧ mpsc_buffer c = [] ∧ mpsc_capacity c = n;
  mpsc_channel_zero {A} : mpsc_channel (A := A) 0 = None;
  mpsc_send_law {A} (a : A) c : blen (mpsc_buffer c) < mpsc_capacity c →
    ∃ c', mpsc_send a c = Some c' ∧ mpsc_buffer c' = mpsc_buffer c ++ [a] ∧ mpsc_capacity c' = mpsc_capacity c;
  mpsc_send_full {A} (a : A) c : mpsc_capacity c ≤ blen (mpsc_buffer c) → mpsc_send a c = None;
  mpsc_recv_law {A} (a : A) l c : mpsc_buffer c = a :: l →
    ∃ c', mpsc_recv c = Some (a, c') ∧ mpsc_buffer c' = l ∧ mpsc_capacity c' = mpsc_capacity c;
  mpsc_recv_empty {A} (c : mpsc A) : mpsc_buffer c = [] → mpsc_recv c = None
}.

(** ** `tokio::sync::oneshot`: one value, or the news that there will be none *)
Class OneshotOps : Type := {
  oneshot : Type → Type;
  oneshot_channel : ∀ {A}, oneshot A;
  oneshot_send : ∀ {A}, A → oneshot A → oneshot A;
  oneshot_drop : ∀ {A}, oneshot A → oneshot A;         (** the sender is dropped *)
  oneshot_recv : ∀ {A}, oneshot A → option (A + unit)  (** [None] while the receiver waits *)
}.

Class OneshotLaws `{!OneshotOps} : Prop := {
  oneshot_empty {A} : oneshot_recv (A := A) oneshot_channel = None;
  oneshot_sent {A} (a : A) : oneshot_recv (oneshot_send a oneshot_channel) = Some (inl a);
  oneshot_dropped {A} : oneshot_recv (A := A) (oneshot_drop oneshot_channel) = Some (inr tt)
}.

(** ** `tokio_util::codec::Framed` over `RukaCodec`

    The view is the bytes the peer sends until it closes its side, as far as the
    broker has not consumed them, the bytes sent to the peer, and whether the
    peer still reads. Bytes that arrive late only delay `next`. *)
Class FramedOps : Type := {
  framed : Type;
  framed_in : framed → bytes;
  framed_out : framed → bytes;
  framed_open : framed → Prop;
  framed_next : framed → option (Frame + RukaError) * framed;
  framed_send : Frame → framed → option RukaError * framed
}.

Class FramedLaws `{!BytesOps, !FramedOps} : Prop := {
  framed_next_frame s f rest : Codec_decode (framed_in s) = (Ok (Some f), rest) →
    ∃ s', framed_next s = (Some (inl f), s') ∧ framed_in s' = rest ∧ framed_out s' = framed_out s ∧
          (framed_open s → framed_open s');
  framed_next_error s e rest : Codec_decode (framed_in s) = (Err e, rest) →
    ∃ s', framed_next s = (Some (inr e), s') ∧ framed_out s' = framed_out s;
  (** At the end of the stream an incomplete frame is an error, nothing is the end. *)
  framed_next_end s : fst (Codec_decode (framed_in s)) = Ok None →
    ∃ r s', framed_next s = (r, s') ∧ framed_out s' = framed_out s ∧ ∀ f, r ≠ Some (inl f);
  framed_send_law s f d : framed_open s → Codec_encode f [] = (Ok tt, d) →
    ∃ s', framed_send f s = (None, s') ∧ framed_in s' = framed_in s ∧
          framed_out s' = framed_out s ++ d ∧ framed_open s';
  (** What was written stays written, and reading writes nothing. *)
  framed_next_written s : framed_out (snd (framed_next s)) = framed_out s;
  framed_send_written s f : framed_out s `prefix_of` framed_out (snd (framed_send f s))
}.

(** ** Instances that run *)
Module ListTokio.
#[export] Instance mpsc_ops : MpscOps := {
  mpsc A := (Z * list A)%type;
  mpsc_buffer A c := snd c;
  mpsc_capacity A c := fst c;
  mpsc_channel A n := if (n =? 0) || (MAX_PERMITS <? n) then None else Some (n, []);
  mpsc_send A a c := if fst c <=? blen (snd c) then None else Some (fst c, snd c ++ [a]);
  mpsc_recv A c := match snd c with [] => None | a :: l => Some (a, (fst c, l)) end
}.

#[export] Instance mpsc_laws : MpscLaws.
Proof.
  split; intros A; cbn.
  - intros n Hn. exists (n, []). destruct (Z.eqb_spec n 0), (Z.ltb_spec MAX_PERMITS n); done || lia.
  - done.
  - intros a [n l] Hl. exists (n, l ++ [a]). cbn in *. destruct (Z.leb_spec n (blen l)); [lia|done].
  - intros a [n l] Hl. cbn in *. destruct (Z.leb_spec n (blen l)); [done|lia].
  - intros a l [n k] Hk. cbn in *. subst k. by exists (n, l).
  - intros [n k] Hk. cbn in *. by subst k.
Qed.

(** A value is there, the sender is gone, or neither. *)
#[export] Instance oneshot_ops : OneshotOps := {
  oneshot A := option (A + unit);
  oneshot_channel A := None;
  oneshot_send A a _ := Some (inl a);
  oneshot_drop A s := match s with None => Some (inr tt) | Some _ => s end;
  oneshot_recv A s := s
}.
#[export] Instance oneshot_laws : OneshotLaws.
Proof. by split. Qed.

Section framed.
Context `{!BytesOps}.

(** The bytes to read and the bytes written; the peer always reads. *)
#[export] Instance framed_ops : FramedOps := {
  framed := (bytes * bytes)%type;
  framed_in := fst;
  framed_out := snd;
  framed_open _ := True;
  framed_next s :=
    match Codec_decode (fst s) with
    | (Ok (Some f), rest) => (Some (inl f), (rest, snd s))
    | (Ok None, rest) =>
        (if bool_decide (fst s = []) then None else Some (inr (Io (OsError 0))), (rest, snd s))
    | (Err e, rest) => (Some (inr e), (rest, snd s))
    | (_, rest) => (None, (rest, snd s))
    end;
  framed_send f s := (None, (fst s, snd s ++ snd (Codec_encode f [])))
}.
#[export] Instance framed_laws : FramedLaws.
Proof.
  split; cbn.
  - intros [i o] f rest Hd. cbn in *. rewrite Hd. by eexists.
  - intros [i o] e rest Hd. cbn in *. rewrite Hd. by eexists.
  - intros [i o] Hd. cbn in *. destruct (Codec_decode i) as [r rest]. cbn in Hd. subst r.
    eexists _, _. split; [reflexivity|]. split; [done|]. intros f. by case_bool_decide.
  - intros [i o] f d _ Hd. rewrite Hd. by eexists.
  - intros [i o]. cbn. by destruct (Codec_decode i) as [[[f|]|e| |] rest].
  - intros [i o] f. cbn. by apply prefix_app_r.
Qed.
End framed.
End ListTokio.
