(* ===== verification/FileSystem.v ===== *)
(** * The standard library's file interface

    What the storage layer uses of [std::fs], [std::io], [std::path] and
    [std::time], over a world that has the files' contents, the directories, a
    schedule of what the operating system answers to the next calls (success, a
    short read, an error after part of a write), the clock readings and the
    order in which a directory is listed. Every fallible call takes one event
    off the schedule; an exhausted schedule means success, so the theorems that
    assume no error still cover every pattern of short reads.

    A file handle has its own position, and writes through a handle opened with
    `append(true)` go to the end of the file, as on Unix. *)
From S2P Require Import Prelude Errors.
#[local] Open Scope Z_scope.

(** ** Paths: a sequence of components; an absolute path starts with `/` *)
Abbreviation path := (list bytes).

Definition slash : byte := x2f.
Definition dot : bytes := str ".".

(** The components of a string: separators are dropped, so are empty parts and
    `.`, as [Path::components] does. *)
Fixpoint split_slash (acc : bytes) (s : bytes) : list bytes :=
  match s with
  | [] => [acc]
  | c :: r => if bool_decide (c = slash) then acc :: split_slash [] r else split_slash (acc ++ [c]) r
  end.
Definition components (s : bytes) : path :=
  filter (λ c, c ≠ [] ∧ c ≠ dot) (split_slash [] s).

(** `base.join(s)`: an absolute [s] replaces the base. *)
Definition join (base : path) (s : bytes) : path :=
  match s with
  | c :: _ => if bool_decide (c = slash) then [slash] :: components s else base ++ components s
  | [] => base
  end.

(** ** The world *)
Inductive io_event : Type :=
| IoOk                                (** the call succeeds *)
| IoShort (n : nat)                   (** a read returns at most [n] (at least one) bytes *)
| IoErr (e : io_error) (n : nat).     (** the call fails, a write after [n] bytes *)

Record World : Type := {
  w_files : gmap path bytes;
  w_dirs : gset path;
  w_sched : list io_event;
  w_clock : list Z;
  w_dir_order : list bytes → list bytes
}.

Definition set_files (f : gmap path bytes) (w : World) : World :=
  {| w_files := f; w_dirs := w_dirs w; w_sched := w_sched w; w_clock := w_clock w;
     w_dir_order := w_dir_order w |}.
Definition set_dirs (d : gset path) (w : World) : World :=
  {| w_files := w_files w; w_dirs := d; w_sched := w_sched w; w_clock := w_clock w;
     w_dir_order := w_dir_order w |}.
Definition pop_sched (w : World) : World :=
  {| w_files := w_files w; w_dirs := w_dirs w; w_sched := tail (w_sched w); w_clock := w_clock w;
     w_dir_order := w_dir_order w |}.
Definition pop_clock (w : World) : World :=
  {| w_files := w_files w; w_dirs := w_dirs w; w_sched := w_sched w; w_clock := tail (w_clock w);
     w_dir_order := w_dir_order w |}.

Definition next_event (w : World) : io_event := default IoOk (head (w_sched w)).
Definition contents (w : World) (p : path) : bytes := default [] (w_files w !! p).

(** One system call: its event, with errors propagated as by `?`. *)
Definition syscall : Res World io_event := λ w,
  match next_event w with
  | IoErr e _ => (Err (Io e), pop_sched w)
  | ev => (Ok ev, pop_sched w)
  end.

(** `SystemTime::now().duration_since(UNIX_EPOCH).unwrap_or_default().as_millis() as u64`;
    a clock reading is in milliseconds since the epoch, negative before it. *)
Definition now_ms : Res World Z := λ w,
  (Ok (as_u64 (Z.max 0 (default 0 (head (w_clock w))))), pop_clock w).

(** ** Directories *)
Fixpoint prefixes (p : path) : list path :=
  match p with [] => [[]] | c :: r => [] :: (cons c <$> prefixes r) end.

Definition create_dir_all (p : path) : Res World unit :=
  _ ← syscall;
  files ← gets w_files;
  if existsb (λ q, bool_decide (is_Some (files !! q))) (prefixes p)
  then throw (Io AlreadyExists)
  else modify (λ w, set_dirs (list_to_set (prefixes p) ∪ w_dirs w) w).

Definition parent (p : path) : path := take (length p - 1) p.

(** The names directly under [p], files and directories. *)
Definition child_name (p q : path) : option bytes :=
  if bool_decide (q ≠ [] ∧ parent q = p) then last q else None.
Definition names (p : path) (w : World) : list bytes :=
  omap (child_name p) (elements (dom (w_files w) ∪ w_dirs w)).

Definition read_dir (p : path) : Res World (list bytes) :=
  _ ← syscall;
  dirs ← gets w_dirs;
  if bool_decide (p ∈ dirs) then gets (λ w, w_dir_order w (names p w))
  else
    file ← gets (λ w, bool_decide (is_Some (w_files w !! p)));
    throw (Io (if file : bool then OsError 20 (* ENOTDIR *) else NotFound)).

(** `Path::exists` and `Path::is_dir`: a lookup that fails counts as absent. *)
Definition probe (f : World → bool) : Res World bool := λ w,
  (Ok (negb (match next_event w with IoErr _ _ => true | _ => false end) && f w), pop_sched w).
Definition path_exists (p : path) : Res World bool :=
  probe (λ w, bool_decide (p ∈ w_dirs w) || bool_decide (is_Some (w_files w !! p))).
Definition is_dir (p : path) : Res World bool := probe (λ w, bool_decide (p ∈ w_dirs w)).

(** ** Files *)
Record OpenOptions : Type := {
  oo_create : bool;
  oo_truncate : bool;
  oo_append : bool
}.

Record File : Type := {
  fl_path : path;
  fl_pos : Z;
  fl_append : bool
}.

Definition set_pos (n : Z) (f : File) : File :=
  {| fl_path := fl_path f; fl_pos := n; fl_append := fl_append f |}.

Definition open (o : OpenOptions) (p : path) : Res World File :=
  _ ← syscall;
  w ← gets id;
  let handle := {| fl_path := p; fl_pos := 0; fl_append := oo_append o |} in
  match w_files w !! p with
  | Some _ =>
      _ ← (if oo_truncate o then modify (λ w, set_files (<[p := []]> (w_files w)) w) else mret tt);
      mret handle
  | None =>
      if bool_decide (p ∈ w_dirs w) then throw (Io (OsError 21)) else
      if oo_create o && bool_decide (parent p ∈ w_dirs w) then
        _ ← modify (λ w, set_files (<[p := []]> (w_files w)) w);
        mret handle
      else throw (Io NotFound)
  end.

(** Methods of an open file, on the handle and the world. *)
Abbreviation FileIO := (Res (File * World)).

Definition in_world {S A} (m : Res World A) : Res (S * World) A :=
  zoom snd (λ w s, (fst s, w)) m.

(** A block with a local mutable variable: its result and the variable's final value. *)
Definition with_local {S A} (x : S) (m : Res (S * World) A) : Res World (A * S) := λ w,
  match m (x, w) with
  | (Ok a, (x', w')) => (Ok (a, x'), w')
  | (Err e, (_, w')) => (Err e, w')
  | (Panic, (_, w')) => (Panic, w')
  | (OutOfFuel, (_, w')) => (OutOfFuel, w')
  end.

Definition file_contents (s : File * World) : bytes := contents (snd s) (fl_path (fst s)).
Definition put_contents (d : bytes) (s : File * World) : File * World :=
  (fst s, set_files (<[fl_path (fst s) := d]> (w_files (snd s))) (snd s)).
Definition put_pos (n : Z) (s : File * World) : File * World := (set_pos n (fst s), snd s).

Definition metadata_len : FileIO Z :=
  _ ← in_world syscall; gets (λ s, blen (file_contents s)).
Definition seek_start (n : Z) : FileIO unit := _ ← in_world syscall; modify (put_pos n).
Definition seek_end : FileIO unit :=
  _ ← in_world syscall; modify (λ s, put_pos (blen (file_contents s)) s).
(** `File` keeps no buffer of its own: `flush` does nothing. *)
Definition flush : FileIO unit := mret tt.
Definition sync_data : FileIO unit := _ ← in_world syscall; mret tt.

(** The bytes from the handle's position on. *)
Definition rest_of (s : File * World) : bytes := drop (Z.to_nat (fl_pos (fst s))) (file_contents s).

(** `read` into a buffer of [n] bytes: what was read. *)
Definition read (n : Z) : FileIO bytes :=
  ev ← in_world syscall;
  avail ← gets (λ s, take (Z.to_nat n) (rest_of s));
  let got := match ev with IoShort k => take (Nat.max 1 k) avail | _ => avail end in
  _ ← modify (λ s, put_pos (fl_pos (fst s) + blen got) s);
  mret got.

(** `read_exact`: all [n] bytes or an error; at the end of the file the
    position stays there. *)
Definition read_exact (n : Z) : FileIO bytes :=
  _ ← in_world syscall;
  avail ← gets rest_of;
  if blen avail <? n
  then _ ← modify (λ s, put_pos (fl_pos (fst s) + blen avail) s); throw (Io UnexpectedEof)
  else _ ← modify (λ s, put_pos (fl_pos (fst s) + n) s); mret (take (Z.to_nat n) avail).

Definition read_to_end : FileIO bytes :=
  _ ← in_world syscall;
  avail ← gets rest_of;
  _ ← modify (λ s, put_pos (fl_pos (fst s) + blen avail) s);
  mret avail.

(** Overwriting a range, with the zero fill of a position past the end. *)
Definition splice (old : bytes) (pos : Z) (d : bytes) : bytes :=
  take (Z.to_nat pos) (old ++ replicate (Z.to_nat (pos - blen old)) x00) ++ d ++
  drop (Z.to_nat (pos + blen d)) old.

Definition write_bytes (d : bytes) (s : File * World) : File * World :=
  let pos := if fl_append (fst s) then blen (file_contents s) else fl_pos (fst s) in
  put_pos (pos + blen d) (put_contents (splice (file_contents s) pos d) s).

(** `write_all`: on an error, a prefix may have reached the file. *)
Definition write_all (d : bytes) : FileIO unit := λ s,
  let '(f, w) := s in
  match next_event w with
  | IoErr e n => (Err (Io e), write_bytes (take n d) (f, pop_sched w))
  | _ => (Ok tt, write_bytes d (f, pop_sched w))
  end.

Definition set_len (n : Z) : FileIO unit :=
  _ ← in_world syscall;
  modify (λ s, put_contents
    (take (Z.to_nat n) (file_contents s ++ replicate (Z.to_nat (n - blen (file_contents s))) x00)) s).

(** ** Rules of the calls that succeed *)

(** No error lies ahead; reads may still be short. *)
Definition is_error (ev : io_event) : bool := match ev with IoErr _ _ => true | _ => false end.
Definition healthy (w : World) : Prop := Forall (λ ev, is_error ev = false) (w_sched w).

(** No error and no short read lies ahead. *)
Definition prompt (w : World) : Prop := Forall (λ ev, ev = IoOk) (w_sched w).
Lemma prompt_pop w : prompt w → prompt (pop_sched w).
Proof. unfold prompt. simpl. destruct (w_sched w); [done|]. by intros [_ ?]%Forall_cons. Qed.

Lemma healthy_pop w : healthy w → healthy (pop_sched w).
Proof. unfold healthy. simpl. destruct (w_sched w); [done|]. by intros [_ ?]%Forall_cons. Qed.
Lemma healthy_files w f : healthy w → healthy (set_files f w).
Proof. done. Qed.
Lemma healthy_dirs w d : healthy w → healthy (set_dirs d w).
Proof. done. Qed.
Lemma healthy_clock w : healthy w → healthy (pop_clock w).
Proof. done. Qed.
Create HintDb world.
#[export] Hint Resolve healthy_pop healthy_files healthy_dirs healthy_clock : world.
Ltac healthy :=
  repeat match goal with x := _ : World |- _ => subst x end; cbn [fst snd]; solve [auto 20 with world].

Lemma syscall_ok w : healthy w → ∃ ev, syscall w = (Ok ev, pop_sched w) ∧ is_error ev = false.
Proof.
  unfold healthy, syscall, next_event. intros Hw.
  destruct (w_sched w) as [|ev ?]; [by exists IoOk|]. apply Forall_cons in Hw as [Hev _].
  exists ev. by destruct ev.
Qed.

Lemma in_world_ok {S A} (m : Res World A) (s : S) w a w' :
  m w = (Ok a, w') → in_world m (s, w) = (Ok a, (s, w')).
Proof. intros Hm. unfold in_world. by erewrite zoom_Ok by (apply Hm). Qed.

Lemma with_local_ok {S A} (x : S) (m : Res (S * World) A) w a x' w' :
  m (x, w) = (Ok a, (x', w')) → with_local x m w = (Ok (a, x'), w').
Proof. intros Hm. unfold with_local. by rewrite Hm. Qed.

(** A call after which only the file system's answer was consumed. *)
Ltac call_ok Hw :=
  let ev := fresh "ev" in let He := fresh "He" in let Hev := fresh "Hev" in
  destruct (syscall_ok _ Hw) as (ev & He & Hev);
  erewrite bind_Ok by (apply in_world_ok, He); clear He.

Lemma probe_ok f w : healthy w → probe f w = (Ok (f w), pop_sched w).
Proof.
  intros Hw. destruct (syscall_ok w Hw) as (ev & Hev & Hok). unfold syscall in Hev. unfold probe.
  by destruct (next_event w).
Qed.

(** Two worlds that differ only in what the operating system will answer next. *)
Definition same_fs (w' w : World) : Prop :=
  w_files w' = w_files w ∧ w_dirs w' = w_dirs w ∧ w_dir_order w' = w_dir_order w.

#[export] Instance same_fs_equiv : Equivalence same_fs.
Proof.
  unfold same_fs. split.
  - done.
  - by intros ?? (-> & -> & ->).
  - by intros ??? (-> & -> & ->) (-> & -> & ->).
Qed.

Lemma same_fs_pop w : same_fs (pop_sched w) w.
Proof. done. Qed.
(** A world reached by calls that only consumed answers. *)
Definition popped (w' w : World) : Prop :=
  same_fs w' w ∧ (healthy w → healthy w') ∧ (prompt w → prompt w').
#[export] Instance popped_preorder : PreOrder popped.
Proof.
  split.
  - intros w. done.
  - intros w1 w2 w3 (Hs1 & Hh1 & Hp1) (Hs2 & Hh2 & Hp2). split; [by rewrite Hs1|]. auto.
Qed.
Lemma popped_refl w : popped w w.
Proof. reflexivity. Qed.
Lemma popped_pop w' w : popped w' w → popped (pop_sched w') w.
Proof.
  intros (Hs & Hh & Hp). split; [exact Hs|]. auto using healthy_pop, prompt_pop.
Qed.
Lemma popped_healthy w' w : popped w' w → healthy w → healthy w'.
Proof. intros (_ & Hh & _). exact Hh. Qed.
Lemma popped_same w' w : popped w' w → same_fs w' w.
Proof. intros (Hs & _). exact Hs. Qed.
#[export] Hint Resolve popped_refl popped_pop : world.

Lemma same_fs_contents w' w p : same_fs w' w → contents w' p = contents w p.
Proof. intros (H & _). unfold contents. by rewrite H. Qed.

Lemma set_pos_set_pos a b f : set_pos a (set_pos b f) = set_pos a f.
Proof. reflexivity. Qed.

Section file_rules.
Context (f : File) (w : World) (Hw : healthy w).
Let c := file_contents (f, w).

Lemma metadata_len_ok : metadata_len (f, w) = (Ok (blen c), (f, pop_sched w)).
Proof using Hw. unfold metadata_len. by call_ok Hw. Qed.

Lemma seek_start_ok n : seek_start n (f, w) = (Ok tt, (set_pos n f, pop_sched w)).
Proof using Hw. unfold seek_start. by call_ok Hw. Qed.

Lemma seek_end_ok : seek_end (f, w) = (Ok tt, (set_pos (blen c) f, pop_sched w)).
Proof using Hw. unfold seek_end. by call_ok Hw. Qed.

Lemma sync_data_ok : sync_data (f, w) = (Ok tt, (f, pop_sched w)).
Proof using Hw. unfold sync_data. by call_ok Hw. Qed.

(** A read returns a prefix of what is there, and something if there is. *)
Lemma read_ok n :
  0 < n →
  ∃ got tl, read n (f, w) = (Ok got, (set_pos (fl_pos f + blen got) f, pop_sched w)) ∧
    rest_of (f, w) = got ++ tl ∧ (got = [] → tl = []) ∧ blen got ≤ n.
Proof using Hw.
  intros Hn. unfold read. call_ok Hw. mret_step.
  set (av := take (Z.to_nat n) (rest_of (f, pop_sched w))).
  assert (∃ k, match ev with IoShort k => take (Nat.max 1 k) av | _ => av end
               = take k (rest_of (f, w)) ∧ (0 < k ≤ Z.to_nat n)%nat) as (k & -> & Hk).
  { unfold av. change (rest_of (f, pop_sched w)) with (rest_of (f, w)). destruct ev as [|k|e m].
    - exists (Z.to_nat n). split; [done|lia].
    - exists (Nat.max 1 k `min` Z.to_nat n)%nat. rewrite take_take. split; [done|lia].
    - exists (Z.to_nat n). split; [done|lia]. }
  mret_step. rewrite run_ret. eexists _, (drop k (rest_of (f, w))).
  split; [reflexivity|]. split; [by rewrite take_drop|]. split.
  - intros Hnil. destruct (rest_of (f, w)) as [|b r]; [by rewrite drop_nil|].
    destruct k; [lia|done].
  - unfold blen. rewrite length_take. lia.
Qed.

(** When no read is short, a read fills the buffer as far as the file goes. *)
Lemma read_prompt n :
  prompt w →
  fst (read n (f, w)) = Ok (take (Z.to_nat n) (rest_of (f, w))).
Proof using Type.
  intros Hp. unfold read. assert (syscall w = (Ok IoOk, pop_sched w)) as He.
  { unfold syscall, next_event. destruct Hp as [|ev l ->]; done. }
  by erewrite bind_Ok by (apply in_world_ok, He).
Qed.

Lemma read_exact_ok n :
  0 ≤ n ≤ blen (rest_of (f, w)) →
  read_exact n (f, w) =
    (Ok (take (Z.to_nat n) (rest_of (f, w))), (set_pos (fl_pos f + n) f, pop_sched w)).
Proof using Hw.
  intros Hn. unfold read_exact. call_ok Hw. mret_step.
  change (rest_of (f, pop_sched w)) with (rest_of (f, w)). case_Zbool; [lia|]. by mret_step.
Qed.

Lemma read_to_end_ok :
  read_to_end (f, w) =
    (Ok (rest_of (f, w)), (set_pos (fl_pos f + blen (rest_of (f, w))) f, pop_sched w)).
Proof using Hw. unfold read_to_end. call_ok Hw. mret_step. by mret_step. Qed.

(** A write at the end of the file appends. *)
Definition at_end : Prop := fl_append f = true ∨ fl_pos f = blen c.

Lemma splice_end d : splice c (blen c) d = c ++ d.
Proof using Type.
  unfold splice. rewrite Z.sub_diag. simpl. rewrite app_nil_r.
  unfold blen. rewrite Nat2Z.id, take_ge, drop_ge, app_nil_r; [done|lia..].
Qed.

Lemma write_all_run d : write_all d (f, w) = (Ok tt, write_bytes d (f, pop_sched w)).
Proof using Hw.
  destruct (syscall_ok w Hw) as (ev & Hev & Hok). unfold syscall in Hev. unfold write_all.
  assert (next_event w = ev) as -> by (destruct (next_event w); naive_solver). by destruct ev.
Qed.

Lemma write_all_ok d :
  at_end →
  write_all d (f, w) =
    (Ok tt, (set_pos (blen c + blen d) f,
             set_files (<[fl_path f := c ++ d]> (w_files w)) (pop_sched w))).
Proof using Hw.
  intros He. rewrite write_all_run. unfold write_bytes.
  change (file_contents (f, pop_sched w)) with c. cbn [fst].
  assert ((if fl_append f then blen c else fl_pos f) = blen c) as ->.
  { destruct He as [->| ->]; [done|by destruct (fl_append f)]. }
  by rewrite splice_end.
Qed.

(** A write through a handle without append mode overwrites what lies at its
    position. *)
Lemma write_all_inside d :
  fl_append f = false → fl_pos f ≤ blen c →
  write_all d (f, w) =
    (Ok tt, (set_pos (fl_pos f + blen d) f,
             set_files (<[fl_path f := take (Z.to_nat (fl_pos f)) c ++ d ++
                                       drop (Z.to_nat (fl_pos f + blen d)) c]> (w_files w))
                       (pop_sched w))).
Proof using Hw.
  intros Ha Hp. rewrite write_all_run. unfold write_bytes.
  change (file_contents (f, pop_sched w)) with c. cbn [fst]. rewrite Ha.
  unfold splice. rewrite take_app_le by (unfold blen in Hp; lia). done.
Qed.

(** At the end of the file there is nothing to read. *)
Lemma read_end n :
  rest_of (f, w) = [] → ∃ g, read n (f, w) = (Ok [], (g, pop_sched w)) ∧ fl_path g = fl_path f.
Proof using Hw.
  intros Hr. unfold read. call_ok Hw. mret_step.
  change (rest_of (f, pop_sched w)) with (rest_of (f, w)). rewrite Hr, take_nil.
  assert (match ev with IoShort k => take (Nat.max 1 k) [] | _ => [] end = @nil Byte.byte) as ->
    by (destruct ev; [done|apply take_nil|done]).
  eexists. split; [reflexivity|done].
Qed.

Lemma read_exact_end n :
  0 < n → rest_of (f, w) = [] → ∃ st, read_exact n (f, w) = (Err (Io UnexpectedEof), st).
Proof using Hw.
  intros Hn Hr. unfold read_exact. call_ok Hw. mret_step.
  change (rest_of (f, pop_sched w)) with (rest_of (f, w)). rewrite Hr. case_Zbool; [by eexists|].
  change (blen (@nil Byte.byte)) with 0 in *. lia.
Qed.

Lemma set_len_ok n :
  0 ≤ n ≤ blen c →
  set_len n (f, w) =
    (Ok tt, (f, set_files (<[fl_path f := take (Z.to_nat n) c]> (w_files w)) (pop_sched w))).
Proof using Hw.
  intros Hn. unfold set_len. call_ok Hw. unfold modify, put_contents. cbn [fst snd].
  change (file_contents (f, pop_sched w)) with c.
  rewrite take_app_le by (unfold blen in Hn; lia). done.
Qed.
End file_rules.

(** The same facts from the file table. *)
Lemma file_contents_lookup f w d : w_files w !! fl_path f = Some d → file_contents (f, w) = d.
Proof. intros H. unfold file_contents, contents. simpl. by rewrite H. Qed.

Lemma at_end_intro f w d :
  w_files w !! fl_path f = Some d → fl_append f = true ∨ fl_pos f = blen d → at_end f w.
Proof. intros H. unfold at_end. by rewrite (file_contents_lookup _ _ _ H). Qed.

Lemma at_end_elim f w d :
  w_files w !! fl_path f = Some d → at_end f w → fl_append f = true ∨ fl_pos f = blen d.
Proof. intros H. unfold at_end. by rewrite (file_contents_lookup _ _ _ H). Qed.

(** Contents after an update, by path. *)
Lemma contents_insert w p q d :
  contents (set_files (<[p := d]> (w_files w)) w) q = if decide (p = q) then d else contents w q.
Proof. unfold contents. simpl. rewrite lookup_insert. by case_decide. Qed.
