(* ===== verification/BinarySearch.v ===== *)
(** * `slice::binary_search_by_key`

    The standard library's binary search (the branch-free loop that halves the
    size and moves the base), which both the index lookup and the choice of a
    segment use, and its contract: on a slice sorted by key it finds an element
    with the key, or the place where it would be. *)
From S2P Require Import Prelude.
#[local] Open Scope Z_scope.

Section search.
Context {A : Type} (key : A → Z).
Implicit Types (l : list A) (t : Z).

(** `while size > 1`; the comparison keeps the base when the middle key is
    greater than the target. *)
Fixpoint search_loop (fuel : nat) (l : list A) (t : Z) (base size : nat) : nat :=
  match fuel with
  | O => base
  | S fuel' =>
      if (size <=? 1)%nat then base else
      let half := (size / 2)%nat in
      let mid := (base + half)%nat in
      let base' := match l !! mid with
                   | Some x => if t <? key x then base else mid
                   | None => base
                   end in
      search_loop fuel' l t base' (size - half)
  end.

(** `Ok(i)` is [inl i], `Err(i)` is [inr i]. *)
Definition binary_search_by_key (l : list A) (t : Z) : nat + nat :=
  match l with
  | [] => inr 0%nat
  | _ :: _ =>
      let base := search_loop (length l) l t 0 (length l) in
      match l !! base with
      | Some x => if key x =? t then inl base else inr (base + (if (key x <? t)%Z then 1 else 0))%nat
      | None => inr base
      end
  end.

(** Sorted by key, repetitions allowed. *)
Definition sorted_by (l : list A) : Prop :=
  ∀ i j x y, (i ≤ j)%nat → l !! i = Some x → l !! j = Some y → key x ≤ key y.
(** Strictly sorted by key. *)
Definition strictly_sorted_by (l : list A) : Prop :=
  ∀ i j x y, (i < j)%nat → l !! i = Some x → l !! j = Some y → key x < key y.

Lemma strictly_sorted_sorted l : strictly_sorted_by l → sorted_by l.
Proof.
  intros Hs i j x y Hij Hi Hj. destruct (decide (i = j)) as [->|].
  - assert (x = y) as -> by congruence. lia.
  - apply Z.lt_le_incl, (Hs i j); [lia|done..].
Qed.

(** The loop keeps: the base's key is at most the target (or the base is 0),
    and everything from [base + size] on is greater. *)
Lemma search_loop_spec fuel l t base size :
  sorted_by l → (0 < size ≤ fuel)%nat → (base + size ≤ length l)%nat →
  (base = 0%nat ∨ ∃ x, l !! base = Some x ∧ key x ≤ t) →
  (∀ j x, (base + size ≤ j)%nat → l !! j = Some x → t < key x) →
  let b := search_loop fuel l t base size in
  (b < length l)%nat ∧ (b = 0%nat ∨ ∃ x, l !! b = Some x ∧ key x ≤ t) ∧
  (∀ j x, (b < j)%nat → l !! j = Some x → t < key x).
Proof.
  intros Hs. revert base size. induction fuel as [|fuel IH]; intros base size Hsz Hle Hb Hgt; [lia|].
  cbn [search_loop]. destruct (Nat.leb_spec size 1).
  { split; [lia|]. split; [done|]. intros j x Hj. apply Hgt. lia. }
  assert (0 < size / 2)%nat by (apply Nat.div_str_pos; lia).
  assert (size / 2 < size)%nat by (apply Nat.div_lt; lia).
  destruct (lookup_lt_is_Some_2 l (base + size / 2)) as [x Hx]; [lia|]. rewrite Hx.
  destruct (Z.ltb_spec t (key x)).
  - apply IH; [lia..|done|]. intros j y Hj Hy. assert (key x ≤ key y); [|lia].
    eapply (Hs (base + size / 2) j)%nat; [|done..].
    pose proof (Nat.div_mod_eq size 2). lia.
  - apply IH; [lia..|right; by exists x|]. intros j y Hj. apply Hgt. lia.
Qed.

(** Binary search is correct on every sorted slice: `Ok(i)` is the position
    of an element with the target key; `Err(i)` means the key is absent, every
    element before [i] is smaller and every element from [i] on is greater. *)
Lemma binary_search_correct l t :
  sorted_by l →
  match binary_search_by_key l t with
  | inl i => ∃ x, l !! i = Some x ∧ key x = t
  | inr i => (i ≤ length l)%nat ∧
      (∀ j x, (j < i)%nat → l !! j = Some x → key x < t) ∧
      (∀ j x, (i ≤ j)%nat → l !! j = Some x → t < key x)
  end.
Proof.
  intros Hs. unfold binary_search_by_key.
  destruct l as [|a l']; [split_and!; [simpl; lia|done..]|]. set (l := a :: l') in *.
  destruct (search_loop_spec (length l) l t 0 (length l) Hs) as (Hlt & Hb & Hgt);
    [simpl; lia..|by left| |].
  { intros j x Hj Hx%lookup_lt_Some. lia. }
  set (b := search_loop _ _ _ _ _) in *.
  destruct (lookup_lt_is_Some_2 l b Hlt) as [x Hx]. rewrite Hx.
  destruct (Z.eqb_spec (key x) t) as [|Hne]; [by exists x|].
  destruct (Z.ltb_spec (key x) t) as [Hl|Hg]; (split; [lia|]); split.
  - intros j y Hj Hy. assert (key y ≤ key x); [|lia]. eapply (Hs j b); [lia|done..].
  - intros j y Hj Hy. apply (Hgt j); [lia|done].
  - intros j y Hj Hy. destruct Hb as [->|(x' & Hx' & Hle)]; [lia|].
    assert (x' = x) as -> by congruence. lia.
  - intros j y Hj Hy. assert (key x ≤ key y); [|lia]. eapply (Hs b j); [lia|done..].
Qed.

(** With distinct keys, the element is found exactly where it is. *)
Lemma binary_search_found l t i x :
  strictly_sorted_by l → l !! i = Some x → key x = t → binary_search_by_key l t = inl i.
Proof.
  intros Hs Hi Hk. pose proof (binary_search_correct l t (strictly_sorted_sorted _ Hs)) as Hc.
  destruct (binary_search_by_key l t) as [j|j].
  - destruct Hc as (y & Hj & Hy). f_equal.
    destruct (Nat.lt_trichotomy i j) as [Hl|[->|Hl]]; [|done|].
    + specialize (Hs i j x y Hl Hi Hj). lia.
    + specialize (Hs j i y x Hl Hj Hi). lia.
  - destruct Hc as (_ & H1 & H2). destruct (Nat.lt_ge_cases i j) as [Hl|Hl].
    + specialize (H1 i x Hl Hi). lia.
    + specialize (H2 i x Hl Hi). lia.
Qed.

Lemma binary_search_absent l t :
  sorted_by l → (∀ x, x ∈ l → key x ≠ t) → ∃ i, binary_search_by_key l t = inr i.
Proof.
  intros Hs Hno. pose proof (binary_search_correct l t Hs) as Hc.
  destruct (binary_search_by_key l t) as [j|j]; [|by exists j].
  destruct Hc as (y & Hj & Hy). destruct (Hno y); [by eapply list_elem_of_lookup_2|done].
Qed.
End search.
