(* ===== verification/Index.v ===== *)
(** * The index file of a segment (src/src/storage/index.rs)

    Sixteen-byte entries, kept on disk and mirrored in memory. The invariant
    [index_inv] says that the file holds exactly the encoded entries and that
    the next write goes to its end. Appending keeps it, loading restores the
    same entries, and the lookups agree with a scan of the entries. *)
From S2P Require Import Prelude Errors FileSystem BinarySearch.
#[local] Open Scope Z_scope.

Definition INDEX_ENTRY_SIZE : Z := 16.

Record IndexEntry : Type := {
  ie_offset : Z;
  ie_position : Z
}.

#[export] Instance IndexEntry_eq_dec : EqDecision IndexEntry.
Proof. solve_decision. Defined.

Definition IndexEntry_encode (e : IndexEntry) : bytes :=
  be_bytes 8 (ie_offset e) ++ be_bytes 8 (ie_position e).

Definition IndexEntry_decode (buf : bytes) : IndexEntry :=
  {| ie_offset := be_val (take 8 buf); ie_position := be_val (take 8 (drop 8 buf)) |}.

Record Index : Type := {
  ix_path : path;
  ix_file : File;
  ix_entries : list IndexEntry
}.

Definition set_ix_file (f : File) (ix : Index) : Index :=
  {| ix_path := ix_path ix; ix_file := f; ix_entries := ix_entries ix |}.
Definition set_ix_entries (es : list IndexEntry) (ix : Index) : Index :=
  {| ix_path := ix_path ix; ix_file := ix_file ix; ix_entries := es |}.

(** `self.file.m()`. *)
Definition on_ix_file {A} (m : FileIO A) : Res (Index * World) A :=
  zoom (λ s, (ix_file (fst s), snd s)) (λ t s, (set_ix_file (fst t) (fst s), snd t)) m.

Definition Index_create (p : path) : Res World Index :=
  file ← open {| oo_create := true; oo_truncate := true; oo_append := false |} p;
  mret {| ix_path := p; ix_file := file; ix_entries := [] |}.

(** `for _ in 0..entry_count`. *)
Fixpoint load_entries (n : nat) (acc : list IndexEntry) : FileIO (list IndexEntry) :=
  match n with
  | O => mret acc
  | S n' => buf ← read_exact INDEX_ENTRY_SIZE; load_entries n' (acc ++ [IndexEntry_decode buf])
  end.

Definition load_file : FileIO (list IndexEntry) :=
  file_len ← metadata_len;
  if negb (file_len mod INDEX_ENTRY_SIZE =? 0) then throw (CorruptedIndex file_len) else
  _ ← seek_start 0;
  entries ← load_entries (Z.to_nat (file_len / INDEX_ENTRY_SIZE)) [];
  _ ← seek_end;
  mret entries.

Definition Index_load (p : path) : Res World Index :=
  file ← open {| oo_create := false; oo_truncate := false; oo_append := false |} p;
  r ← with_local file load_file;
  mret {| ix_path := p; ix_file := snd r; ix_entries := fst r |}.

Definition Index_append (offset position : Z) : Res (Index * World) unit :=
  let entry := {| ie_offset := offset; ie_position := position |} in
  _ ← on_ix_file (write_all (IndexEntry_encode entry));
  modify (λ s, (set_ix_entries (ix_entries (fst s) ++ [entry]) (fst s), snd s)).

Definition Index_flush : Res (Index * World) unit := on_ix_file flush.
Definition Index_sync : Res (Index * World) unit := on_ix_file sync_data.
Definition entry_count (ix : Index) : Z := blen (ix_entries ix).

Definition Index_lookup (ix : Index) (target_offset : Z) : outcome RukaError (option Z) :=
  match binary_search_by_key ie_offset (ix_entries ix) target_offset with
  | inl idx => match ix_entries ix !! idx with
               | Some e => Ok (Some (ie_position e))
               | None => Panic
               end
  | inr _ => Ok None
  end.

Definition Index_lookup_floor (ix : Index) (target_offset : Z)
  : outcome RukaError (option IndexEntry) :=
  match binary_search_by_key ie_offset (ix_entries ix) target_offset with
  | inl idx => match ix_entries ix !! idx with Some e => Ok (Some e) | None => Panic end
  | inr O => Ok None
  | inr (S idx) => match ix_entries ix !! idx with Some e => Ok (Some e) | None => Panic end
  end.

(** ** Invariant *)
Definition entry_typed (e : IndexEntry) : Prop := is_u64 (ie_offset e) ∧ is_u64 (ie_position e).
Definition index_bytes (es : list IndexEntry) : bytes := concat (IndexEntry_encode <$> es).

Definition index_inv (ix : Index) (w : World) : Prop :=
  fl_path (ix_file ix) = ix_path ix ∧
  w_files w !! ix_path ix = Some (index_bytes (ix_entries ix)) ∧
  at_end (ix_file ix) w ∧
  Forall entry_typed (ix_entries ix).

Lemma blen_encode_entry e : blen (IndexEntry_encode e) = 16.
Proof. unfold IndexEntry_encode. len. Qed.
Lemma index_bytes_cons e es : index_bytes (e :: es) = IndexEntry_encode e ++ index_bytes es.
Proof. reflexivity. Qed.
Lemma index_bytes_app es1 es2 : index_bytes (es1 ++ es2) = index_bytes es1 ++ index_bytes es2.
Proof. unfold index_bytes. by rewrite fmap_app, concat_app. Qed.
Lemma blen_index_bytes es : blen (index_bytes es) = 16 * blen es.
Proof.
  induction es as [|e es IH]; [done|].
  rewrite index_bytes_cons, blen_app, IH, blen_encode_entry, blen_cons. lia.
Qed.

Lemma IndexEntry_decode_encode e : entry_typed e → IndexEntry_decode (IndexEntry_encode e) = e.
Proof.
  intros [Ho Hp]. unfold IndexEntry_decode, IndexEntry_encode.
  rewrite take_app_length', drop_app_length' by (by rewrite length_be_bytes).
  rewrite take_ge by (by rewrite length_be_bytes).
  rewrite !be_val_be_bytes. destruct e as [o p]. f_equal; by apply Z.mod_small.
Qed.

(** ** Operations *)
Lemma load_entries_ok f w es acc tl :
  healthy w → Forall entry_typed es → rest_of (f, w) = index_bytes es ++ tl → 0 ≤ fl_pos f →
  ∃ w', load_entries (length es) acc (f, w) =
    (Ok (acc ++ es), (set_pos (fl_pos f + 16 * blen es) f, w')) ∧ healthy w' ∧ same_fs w' w.
Proof.
  intros Hw Hes. revert f w acc Hw. induction Hes as [|e es He Hes IH];
    intros f w acc Hw Hrest Hpos.
  { exists w. simpl. rewrite app_nil_r. unfold blen. simpl. rewrite Z.add_0_r. by destruct f. }
  cbn [length load_entries]. rewrite index_bytes_cons, <- (assoc_L (++)) in Hrest.
  pose proof (blen_encode_entry e).
  erewrite bind_Ok by (apply read_exact_ok; [done|]; rewrite Hrest; unfold INDEX_ENTRY_SIZE; len).
  rewrite Hrest, take_blen_app, IndexEntry_decode_encode by (done || (by unfold INDEX_ENTRY_SIZE)).
  destruct (IH (set_pos (fl_pos f + INDEX_ENTRY_SIZE) f) (pop_sched w) (acc ++ [e]))
    as (w' & -> & Hh & Hf).
  - healthy.
  - unfold rest_of in *. cbn [fst fl_pos set_pos] in *. rewrite Z2Nat.inj_add by (done || lia).
    rewrite <- drop_drop. change (file_contents (set_pos _ f, pop_sched w)) with
      (file_contents (f, w)). rewrite Hrest. by apply drop_blen_app.
  - simpl. unfold INDEX_ENTRY_SIZE. lia.
  - exists w'. rewrite <- (assoc_L (++)), set_pos_set_pos.
    replace (fl_pos f + 16 * blen (e :: es))
      with (fl_pos (set_pos (fl_pos f + INDEX_ENTRY_SIZE) f) + 16 * blen es)
      by (rewrite blen_cons; simpl; unfold INDEX_ENTRY_SIZE; lia).
    done.
Qed.

(** Opening an existing file, and creating or truncating one. *)
Lemma open_existing o p w d :
  healthy w → w_files w !! p = Some d → oo_truncate o = false →
  open o p w = (Ok {| fl_path := p; fl_pos := 0; fl_append := oo_append o |}, pop_sched w).
Proof.
  intros Hw Hp Ht. unfold open. destruct (syscall_ok w Hw) as (ev & He & _). mstep He. mret_step.
  simpl. rewrite Hp, Ht. done.
Qed.

Lemma open_truncate o p w d :
  healthy w → w_files w !! p = Some d → oo_truncate o = true →
  open o p w = (Ok {| fl_path := p; fl_pos := 0; fl_append := oo_append o |},
                set_files (<[p := []]> (w_files w)) (pop_sched w)).
Proof.
  intros Hw Hp Ht. unfold open. destruct (syscall_ok w Hw) as (ev & He & _). mstep He. mret_step.
  simpl. rewrite Hp, Ht. done.
Qed.

Lemma open_create o p w :
  healthy w → w_files w !! p = None → p ∉ w_dirs w → oo_create o = true → parent p ∈ w_dirs w →
  open o p w = (Ok {| fl_path := p; fl_pos := 0; fl_append := oo_append o |},
                set_files (<[p := []]> (w_files w)) (pop_sched w)).
Proof.
  intros Hw Hp Hd Hc Hpar. unfold open. destruct (syscall_ok w Hw) as (ev & He & _). mstep He.
  mret_step. simpl. rewrite Hp, Hc, bool_decide_eq_false_2, bool_decide_eq_true_2 by done. done.
Qed.

(** `Index::create` yields an empty index whatever was at the path before. *)
Lemma Index_create_ok p w :
  healthy w → p ∉ w_dirs w → parent p ∈ w_dirs w →
  ∃ ix, Index_create p w = (Ok ix, set_files (<[p := []]> (w_files w)) (pop_sched w)) ∧
        ix_path ix = p ∧ ix_entries ix = [] ∧
        index_inv ix (set_files (<[p := []]> (w_files w)) (pop_sched w)).
Proof.
  intros Hw Hd Hpar. unfold Index_create.
  set (w' := set_files (<[p := []]> (w_files w)) (pop_sched w)).
  assert (open {| oo_create := true; oo_truncate := true; oo_append := false |} p w =
    (Ok {| fl_path := p; fl_pos := 0; fl_append := false |}, w')) as Ho.
  { destruct (w_files w !! p) eqn:Hp; [by eapply open_truncate|by apply open_create]. }
  mstep Ho. rewrite run_ret. eexists. split; [done|]. split; [done|]. split; [done|].
  assert (w_files w' !! p = Some []) as Hlk by (simpl; apply lookup_insert_eq).
  split_and!; [done|done| |constructor]. eapply at_end_intro; [apply Hlk|]. by right.
Qed.

(** `Index::load` reads back exactly the entries, whatever reads are short. *)
Lemma Index_load_ok ix w :
  healthy w → index_inv ix w →
  ∃ ix' w', Index_load (ix_path ix) w = (Ok ix', w') ∧ ix_path ix' = ix_path ix ∧
    ix_entries ix' = ix_entries ix ∧ index_inv ix' w' ∧ healthy w' ∧ same_fs w' w.
Proof.
  intros Hw (Hpath & Hfile & _ & Htyped). unfold Index_load.
  mstep open_existing; [|done..]. set (f := {| fl_path := ix_path ix; fl_pos := 0; fl_append := _ |}).
  set (es := ix_entries ix) in *. set (w1 := pop_sched w).
  assert (Hc : file_contents (f, w1) = index_bytes es)
    by (unfold file_contents, contents; simpl; by rewrite Hfile).
  assert (∃ w', load_file (f, w1) = (Ok es, (set_pos (16 * blen es) f, w')) ∧
                healthy w' ∧ same_fs w' w) as (w' & Hload & Hh & Hs).
  { unfold load_file. mstep metadata_len_ok; [|healthy]. rewrite Hc, blen_index_bytes.
    unfold INDEX_ENTRY_SIZE.
    assert ((16 * blen es) mod 16 = 0) as -> by (rewrite Z.mul_comm; by apply Z.mod_mul).
    assert (16 * blen es / 16 = blen es) as -> by (rewrite Z.mul_comm; by apply Z.div_mul).
    cbn [negb Z.eqb].
    mstep seek_start_ok; [|healthy].
    destruct (load_entries_ok (set_pos 0 f) (pop_sched (pop_sched w1)) es [] []) as (w' & Hl & Hh & Hs);
      [healthy|done| |done|].
    { rewrite (app_nil_r (index_bytes es)). unfold rest_of. simpl. apply Hc. }
    unfold blen at 1. rewrite Nat2Z.id. mstep Hl. mstep seek_end_ok; [|done].
    exists (pop_sched w'). rewrite run_ret. split; [|split; [healthy|by rewrite same_fs_pop]].
    unfold file_contents. simpl. rewrite (same_fs_contents w' w1) by done.
    change (contents w1 (ix_path ix)) with (file_contents (f, w1)). rewrite Hc, blen_index_bytes.
    by rewrite set_pos_set_pos. }
  erewrite bind_Ok by (by apply with_local_ok). rewrite run_ret. eexists _, w'.
  split; [reflexivity|]. split; [done|]. split; [done|]. split; [|done].
  assert (w_files w' !! ix_path ix = Some (index_bytes es)) as Hlk by (destruct Hs as (-> & _); done).
  split_and!; [done|done| |done]. eapply at_end_intro; [apply Hlk|]. right. simpl.
  by rewrite blen_index_bytes.
Qed.

(** Appending extends the file and its mirror by one entry. *)
Definition index_push (e : IndexEntry) (ix : Index) : Index :=
  {| ix_path := ix_path ix;
     ix_file := set_pos (16 * blen (ix_entries ix) + 16) (ix_file ix);
     ix_entries := ix_entries ix ++ [e] |}.

Lemma Index_append_ok ix w o p :
  healthy w → index_inv ix w → is_u64 o → is_u64 p →
  let e := {| ie_offset := o; ie_position := p |} in
  let w' := set_files (<[ix_path ix := index_bytes (ix_entries ix ++ [e])]> (w_files w)) (pop_sched w) in
  Index_append o p (ix, w) = (Ok tt, (index_push e ix, w')) ∧ index_inv (index_push e ix) w'.
Proof.
  intros Hw (Hpath & Hfile & Hend & Htyped) Ho Hp e w'.
  assert (Hc : file_contents (ix_file ix, w) = index_bytes (ix_entries ix))
    by (apply file_contents_lookup; by rewrite Hpath).
  split.
  - unfold Index_append. erewrite bind_Ok by (apply zoom_Ok, write_all_ok; done).
    cbn [fst snd]. rewrite Hc, blen_index_bytes, blen_encode_entry, Hpath.
    unfold modify, w'. rewrite index_bytes_app. done.
  - assert (w_files w' !! ix_path ix = Some (index_bytes (ix_entries ix ++ [e]))) as Hlk
      by (simpl; apply lookup_insert_eq).
    split_and!; [done|done| |].
    + rewrite <- Hpath in Hlk. eapply at_end_intro; [apply Hlk|]. right. simpl.
      rewrite blen_index_bytes. len.
    + apply Forall_app. split; [done|]. by apply Forall_singleton.
Qed.

(** ** Lookups *)
Definition index_sorted (ix : Index) : Prop := strictly_sorted_by ie_offset (ix_entries ix).

Lemma Index_lookup_found ix i e :
  index_sorted ix → ix_entries ix !! i = Some e →
  Index_lookup ix (ie_offset e) = Ok (Some (ie_position e)).
Proof.
  intros Hs Hi. unfold Index_lookup. erewrite binary_search_found by done. by rewrite Hi.
Qed.

Lemma Index_lookup_absent ix t :
  index_sorted ix → (∀ e, e ∈ ix_entries ix → ie_offset e ≠ t) → Index_lookup ix t = Ok None.
Proof.
  intros Hs Hno. unfold Index_lookup.
  destruct (binary_search_absent ie_offset (ix_entries ix) t) as [i ->]; [|done..].
  by apply strictly_sorted_sorted.
Qed.

(** The reference: scan the entries from the front. *)
Definition scan (es : list IndexEntry) (t : Z) : option Z :=
  ie_position <$> (snd <$> list_find (λ e, ie_offset e = t) es).
Definition scan_floor (es : list IndexEntry) (t : Z) : option IndexEntry :=
  last (filter (λ e, ie_offset e ≤ t) es).

(** C35: on strictly increasing offsets (what a segment writes) the binary
    search lookup never panics and equals a front-to-back scan of the entries,
    for every target offset. *)
Theorem Index_lookup_scan ix t :
  index_sorted ix → Index_lookup ix t = Ok (scan (ix_entries ix) t).
Proof.
  intros Hs. unfold scan. destruct (list_find _ _) as [[i e]|] eqn:Hf; simpl.
  - apply list_find_Some in Hf as (Hi & <- & _). by eapply Index_lookup_found.
  - apply list_find_None in Hf. apply Index_lookup_absent; [done|].
    intros e He. by eapply Forall_forall in Hf.
Qed.

(** [lookup_floor] never panics and returns the entry with the greatest
    offset not above the target, or none when every offset is above it. *)
Lemma Index_lookup_floor_scan ix t :
  index_sorted ix → Index_lookup_floor ix t = Ok (scan_floor (ix_entries ix) t).
Proof.
  intros Hs. unfold Index_lookup_floor. set (es := ix_entries ix).
  pose proof (binary_search_correct ie_offset es t (strictly_sorted_sorted _ _ Hs)) as Hb.
  assert (∀ i, (i ≤ length es)%nat →
    (∀ j x, (j < i)%nat → es !! j = Some x → ie_offset x ≤ t) →
    (∀ j x, (i ≤ j)%nat → es !! j = Some x → t < ie_offset x) →
    scan_floor es t = last (take i es)) as Hscan.
  { intros i Hi Hlo Hhi. unfold scan_floor. f_equal. rewrite <- (take_drop i es) at 1.
    rewrite filter_app.
    rewrite (filter_all _ (take i es)), (filter_none _ (drop i es)), app_nil_r; [done|..].
    - apply Forall_forall. intros x [j Hj]%list_elem_of_lookup. rewrite lookup_drop in Hj.
      specialize (Hhi (i + j)%nat x ltac:(lia) Hj). lia.
    - apply Forall_forall. intros x [j Hj]%list_elem_of_lookup.
      apply lookup_take_Some in Hj as [Hj Hlt]. eauto. }
  assert (∀ i x, es !! i = Some x → last (take (S i) es) = Some x) as Hlast.
  { intros i x Hx. by rewrite (take_S_r _ _ x), last_snoc. }
  destruct (binary_search_by_key ie_offset es t) as [i|[|i]].
  - destruct Hb as (x & Hx & Hk). rewrite Hx, (Hscan (S i)), (Hlast _ _ Hx); [done|..].
    + apply lookup_lt_Some in Hx. lia.
    + intros j y Hj Hy. destruct (decide (j = i)) as [->|]; [assert (x = y) by congruence; subst; lia|].
      specialize (Hs j i y x ltac:(lia) Hy Hx). lia.
    + intros j y Hj Hy. specialize (Hs i j x y ltac:(lia) Hx Hy). lia.
  - destruct Hb as (_ & _ & Hhi). rewrite (Hscan 0%nat); [done|lia|intros; lia|done].
  - destruct Hb as (Hi & Hlo & Hhi).
    destruct (lookup_lt_is_Some_2 es i) as [x Hx]; [lia|].
    rewrite Hx, (Hscan (S i)), (Hlast _ _ Hx); [done|lia| |done].
    intros j y Hj Hy. specialize (Hlo j y Hj Hy). lia.
Qed.

(** C36: an index survives a restart: after any successful append the file
    holds one more 16-byte entry, and loading the file gives back exactly the
    entries in memory, whatever short reads the operating system makes. *)
Theorem Index_persistence ix w o p :
  healthy w → index_inv ix w → is_u64 o → is_u64 p →
  ∃ ix1 w1 ix2 w2,
    Index_append o p (ix, w) = (Ok tt, (ix1, w1)) ∧
    ix_entries ix1 = ix_entries ix ++ [{| ie_offset := o; ie_position := p |}] ∧
    blen (contents w1 (ix_path ix)) = INDEX_ENTRY_SIZE * entry_count ix1 ∧
    Index_load (ix_path ix) w1 = (Ok ix2, w2) ∧ ix_entries ix2 = ix_entries ix1 ∧
    index_inv ix2 w2.
Proof.
  intros Hw Hinv Ho Hp. destruct (Index_append_ok ix w o p Hw Hinv Ho Hp) as (Happ & Hinv1).
  set (e := {| ie_offset := o; ie_position := p |}) in *.
  set (w1 := set_files _ _) in *.
  destruct (Index_load_ok (index_push e ix) w1) as (ix2 & w2 & Hl & Hp2 & He2 & Hinv2 & _ & _);
    [healthy|done|].
  exists (index_push e ix), w1, ix2, w2. split; [done|]. split; [done|]. split; [|done].
  destruct Hinv1 as (_ & Hlk & _). unfold contents. simpl in Hlk |- *. rewrite Hlk. simpl.
  rewrite blen_index_bytes. done.
Qed.

(** A file whose length is not a multiple of the entry size is reported as
    corrupted, with the length, and left as it is. *)
Lemma Index_load_corrupted p w d :
  healthy w → w_files w !! p = Some d → blen d mod INDEX_ENTRY_SIZE ≠ 0 →
  ∃ w', Index_load p w = (Err (CorruptedIndex (blen d)), w') ∧ same_fs w' w.
Proof.
  intros Hw Hp Hd. unfold Index_load. mstep open_existing; [|done..].
  set (f := {| fl_path := p; fl_pos := 0; fl_append := _ |}).
  exists (pop_sched (pop_sched w)). split; [|done].
  erewrite bind_Err; [done|]. unfold with_local, load_file.
  mstep metadata_len_ok; [|healthy].
  rewrite (file_contents_lookup f (pop_sched w) d) by done.
  case_Zbool; [done|]. reflexivity.
Qed.
