(* ===== verification/Record.v ===== *)
(** * Log records (src/src/storage/segment.rs, `Record`)

    The on-disk form of a message and its decoder. The decoder trusts the key
    and value lengths it reads: [Record_decode_panics] exhibits the stored bytes
    on which it panics. *)
From S2P Require Import Prelude Errors BytesCrate.
#[local] Open Scope Z_scope.

Record LogRecord : Type := {
  r_offset : Z;
  r_timestamp_ms : Z;
  r_key : option bytes;
  r_value : option bytes
}.

#[export] Instance LogRecord_eq_dec : EqDecision LogRecord.
Proof. solve_decision. Defined.

(** `x.as_ref().map_or(0, |k| k.len())`. *)
Definition opt_len (o : option bytes) : Z := match o with Some k => blen k | None => 0 end.

(** The serialized length, as `encode` and `append` compute it. *)
Definition record_len (key value : option bytes) : Z :=
  4 + 8 + 8 + 4 + opt_len key + 4 + opt_len value.

Section record.
Context `{!BytesOps}.

Definition put_opt (o : option bytes) : Res bytes unit :=
  match o with
  | Some k => _ ← put_u32 (as_u32 (blen k)); put_slice k
  | None => put_u32 U32_MAX
  end.

Definition Record_encode (r : LogRecord) : Res bytes unit :=
  _ ← put_u32 (as_u32 (record_len (r_key r) (r_value r)));
  _ ← put_u64 (r_offset r);
  _ ← put_u64 (r_timestamp_ms r);
  _ ← put_opt (r_key r);
  put_opt (r_value r).

(** A length-prefixed optional field; [split_to] panics past the end. *)
Definition get_opt : Res bytes (option bytes) :=
  len ← get_u32;
  if len =? U32_MAX then mret None else Some <$> split_to len.

Definition Record_decode : Res bytes (option LogRecord) :=
  src_len ← gets blen;
  if src_len <? 4 then mret None else
  src ← gets id;
  record_len ← scoped src get_u32;
  if record_len <? 28 then throw (InvalidFrame (str "Record length too small")) else
  if src_len <? record_len then mret None else
  _ ← advance 4;
  offset ← get_u64;
  timestamp_ms ← get_u64;
  key ← get_opt;
  value ← get_opt;
  mret (Some {| r_offset := offset; r_timestamp_ms := timestamp_ms; r_key := key;
                r_value := value |}).
End record.

(** ** The stored form *)
Definition opt_bytes (o : option bytes) : bytes :=
  match o with Some k => be_bytes 4 (blen k) ++ k | None => be_bytes 4 U32_MAX end.
Definition record_bytes (r : LogRecord) : bytes :=
  be_bytes 4 (record_len (r_key r) (r_value r)) ++ be_bytes 8 (r_offset r) ++
  be_bytes 8 (r_timestamp_ms r) ++ opt_bytes (r_key r) ++ opt_bytes (r_value r).

(** Records whose length field does not overflow; every record the broker
    stores comes from a frame of at most 16 MB. *)
Definition storable (key value : option bytes) : Prop := record_len key value < 2 ^ 32.
Definition record_typed (r : LogRecord) : Prop :=
  is_u64 (r_offset r) ∧ is_u64 (r_timestamp_ms r) ∧ storable (r_key r) (r_value r).

Definition rsize (r : LogRecord) : Z := record_len (r_key r) (r_value r).
Definition log_bytes (rs : list LogRecord) : bytes := concat (record_bytes <$> rs).

Lemma opt_len_nonneg o : 0 ≤ opt_len o.
Proof. destruct o; simpl; [apply blen_nonneg|lia]. Qed.
Lemma record_len_min k v : 28 ≤ record_len k v.
Proof. unfold record_len. pose proof (opt_len_nonneg k). pose proof (opt_len_nonneg v). lia. Qed.
Lemma blen_opt_bytes o : blen (opt_bytes o) = 4 + opt_len o.
Proof. destruct o; simpl; len. Qed.
Lemma blen_record_bytes r : blen (record_bytes r) = rsize r.
Proof. unfold record_bytes, rsize, record_len. rewrite !blen_app, !blen_opt_bytes. len. Qed.
#[export] Hint Rewrite blen_opt_bytes blen_record_bytes : len.
Lemma rsize_min r : 28 ≤ rsize r.
Proof. apply record_len_min. Qed.

Lemma blen_log_nil : blen (log_bytes []) = 0.
Proof. reflexivity. Qed.
#[export] Hint Rewrite blen_log_nil : len.
Lemma log_bytes_cons r rs : log_bytes (r :: rs) = record_bytes r ++ log_bytes rs.
Proof. reflexivity. Qed.
Lemma log_bytes_app rs1 rs2 : log_bytes (rs1 ++ rs2) = log_bytes rs1 ++ log_bytes rs2.
Proof. unfold log_bytes. by rewrite fmap_app, concat_app. Qed.
Lemma log_bytes_singleton r : log_bytes [r] = record_bytes r.
Proof. apply app_nil_r. Qed.

Section record_proofs.
Context `{BytesLaws}.

Lemma put_opt_eq o b : opt_len o < 2 ^ 32 → put_opt o b = (Ok tt, b ++ opt_bytes o).
Proof.
  intros Ho. destruct o as [k|]; simpl in *; [|apply put_u32_eq].
  mstep put_u32_eq. rewrite put_slice_law, wrap_id by (unfold is_uint; len).
  by rewrite <- (assoc_L (++)).
Qed.

Lemma Record_encode_eq r b :
  storable (r_key r) (r_value r) → Record_encode r b = (Ok tt, b ++ record_bytes r).
Proof.
  unfold storable. intros Hs. pose proof (record_len_min (r_key r) (r_value r)).
  pose proof (opt_len_nonneg (r_key r)). pose proof (opt_len_nonneg (r_value r)).
  assert (opt_len (r_key r) < 2 ^ 32 ∧ opt_len (r_value r) < 2 ^ 32) as [? ?]
    by (unfold record_len in Hs; lia).
  unfold Record_encode. rewrite wrap_id by (unfold is_uint; lia).
  mstep put_u32_eq. mstep put_u64_eq. mstep put_u64_eq. mstep put_opt_eq; [|done].
  rewrite put_opt_eq by done. unfold record_bytes. by rewrite <- !(assoc_L (++)).
Qed.

Lemma get_opt_app o t : opt_len o < U32_MAX → get_opt (opt_bytes o ++ t) = (Ok o, t).
Proof.
  unfold U32_MAX. intros Ho. destruct o as [k|]; unfold get_opt, opt_bytes; simpl in Ho.
  - rewrite <- (assoc_L (++)). mstep get_u32_app; [|unfold is_uint; len].
    unfold U32_MAX. case_Zbool; [lia|]. unfold fmap, M_fmap. by rewrite split_to_app.
  - by mstep get_u32_app.
Qed.

(** What a stored record decodes to, and what it leaves. *)
Lemma Record_decode_app r t :
  record_typed r → Record_decode (record_bytes r ++ t) = (Ok (Some r), t).
Proof.
  intros (Ho & Ht & Hs). unfold storable in Hs.
  pose proof (record_len_min (r_key r) (r_value r)).
  pose proof (opt_len_nonneg (r_key r)). pose proof (opt_len_nonneg (r_value r)).
  assert (opt_len (r_key r) < U32_MAX ∧ opt_len (r_value r) < U32_MAX) as [? ?]
    by (unfold record_len in Hs; unfold U32_MAX; lia).
  unfold record_bytes. rewrite <- !(assoc_L (++)). set (n := record_len _ _) in *.
  unfold Record_decode. mret_step. case_Zbool; [len|]. mret_step.
  erewrite bind_Ok by (eapply scoped_eq, get_u32_app; unfold is_uint; lia).
  case_Zbool; [lia|]. case_Zbool; [len; unfold n, record_len in *; lia|].
  mstep advance_app; [|len]. mstep get_u64_app; [|done]. mstep get_u64_app; [|done].
  mstep get_opt_app; [|done]. mstep get_opt_app; [|done]. by destruct r.
Qed.

(** A stored record cut short is left in the buffer. *)
Lemma Record_decode_prefix r p q :
  record_typed r → record_bytes r = p ++ q → q ≠ [] → Record_decode p = (Ok None, p).
Proof.
  intros (Ho & Ht & Hs) Hpq Hq. unfold storable in Hs.
  pose proof (record_len_min (r_key r) (r_value r)).
  assert (blen p < rsize r) as Hlt.
  { apply (f_equal blen) in Hpq. rewrite blen_app, blen_record_bytes in Hpq.
    assert (blen q ≠ 0) by (by intros ?%blen_0). len. }
  unfold Record_decode. mret_step. case_Zbool; [done|]. mret_step.
  assert (p = be_bytes 4 (rsize r) ++ drop 4 p) as Hp.
  { rewrite <- (take_drop 4 p) at 1. f_equal.
    assert (take 4 (record_bytes r) = take 4 (p ++ q)) as Ht4 by congruence.
    rewrite take_app_le in Ht4 by (unfold blen in *; lia). rewrite <- Ht4. unfold record_bytes.
    by rewrite take_app_length' by (by rewrite length_be_bytes). }
  assert (get_u32 p = (Ok (rsize r), drop 4 p)) as Hg.
  { rewrite Hp at 1. apply get_u32_app. unfold is_uint, rsize. lia. }
  erewrite bind_Ok by (eapply scoped_eq, Hg).
  case_Zbool; [unfold rsize in *; lia|]. case_Zbool; [done|lia].
Qed.

(** C34: a stored record decodes to itself, whatever follows it, and takes
    exactly the bytes its length field announces; a record of which only a
    proper prefix reached the disk is reported as incomplete and nothing is
    consumed. *)
Theorem Record_roundtrip r dst rest :
  record_typed r →
  ∃ w, Record_encode r dst = (Ok tt, dst ++ w) ∧ blen w = record_len (r_key r) (r_value r) ∧
       Record_decode (w ++ rest) = (Ok (Some r), rest) ∧
       ∀ p q, w = p ++ q → q ≠ [] → Record_decode p = (Ok None, p).
Proof.
  intros Hr. exists (record_bytes r). split; [apply Record_encode_eq; by apply Hr|].
  split; [apply blen_record_bytes|]. split; [by apply Record_decode_app|].
  intros p q. by apply Record_decode_prefix.
Qed.

(** The decoder panics on a complete record (its length field is honoured
    by the buffer) whose key length runs past the end of the buffer: the key
    length is not checked against the record length. *)
Lemma Record_decode_panics n o t k tail :
  is_u32 n → is_u64 o → is_u64 t → is_u32 k →
  28 ≤ n ≤ 24 + blen tail → k ≠ U32_MAX → blen tail < k →
  fst (Record_decode (be_bytes 4 n ++ be_bytes 8 o ++ be_bytes 8 t ++ be_bytes 4 k ++ tail)) = Panic.
Proof.
  intros Hn Ho Ht Hk Hlen Hmax Hlt. unfold Record_decode. mret_step. case_Zbool; [len|]. mret_step.
  erewrite bind_Ok by (eapply scoped_eq, get_u32_app; done).
  case_Zbool; [lia|]. case_Zbool; [len|]. mstep advance_app; [|len].
  mstep get_u64_app; [|done]. mstep get_u64_app; [|done].
  apply bind_Panic. unfold get_opt. mstep get_u32_app; [|done]. case_Zbool; [done|].
  unfold fmap, M_fmap. pose proof (proj2 split_to_law k tail Hlt) as Hp.
  destruct (split_to k tail) as [[] ?]; simpl in *; congruence || done.
Qed.
End record_proofs.

Module RecordWitness.
Import ListBytes.
Definition ex : LogRecord :=
  {| r_offset := 7; r_timestamp_ms := 1700000000000; r_key := None; r_value := Some (str "hi") |}.

Lemma Record_roundtrip_witness :
  ∃ w, Record_encode ex [] = (Ok tt, [] ++ w) ∧ blen w = record_len (r_key ex) (r_value ex) ∧
       Record_decode (w ++ [x01]) = (Ok (Some ex), [x01]) ∧
       ∀ p q, w = p ++ q → q ≠ [] → Record_decode p = (Ok None, p).
Proof. apply (Record_roundtrip ex [] [x01]). split_and!; vm_compute; try split; congruence. Defined.

Lemma Record_decode_panics_witness :
  fst (Record_decode (be_bytes 4 28 ++ be_bytes 8 0 ++ be_bytes 8 0 ++ be_bytes 4 5 ++ [x00; x00; x00; x00]))
  = Panic.
Proof.
  apply (Record_decode_panics 28 0 0 5 [x00; x00; x00; x00]); vm_compute; try split; congruence.
Defined.
End RecordWitness.
