(* ===== verification/Segment.v ===== *)
(** * Segments (src/src/storage/segment.rs, `Segment`)

    A segment is a log file of records and its index. The methods are
    translated line by line over the file interface of [FileSystem]; a method
    on `&mut self` is a computation on the segment and the world, so that what
    was written before an error stays written. *)
From S2P Require Import Prelude Errors BytesCrate StdText FileSystem Index Record.
#[local] Open Scope Z_scope.
Import Config.

Record Segment : Type := {
  sg_base_offset : Z;
  sg_log_file : File;
  sg_index : Index;
  sg_current_size : Z;
  sg_next_offset : Z;
  sg_max_bytes : Z;
  sg_sync_level : SyncLevel
}.

Abbreviation SegIO := (Res (Segment * World)).

Definition set_log_file (f : File) (s : Segment) : Segment :=
  {| sg_base_offset := sg_base_offset s; sg_log_file := f; sg_index := sg_index s;
     sg_current_size := sg_current_size s; sg_next_offset := sg_next_offset s;
     sg_max_bytes := sg_max_bytes s; sg_sync_level := sg_sync_level s |}.
Definition set_index (ix : Index) (s : Segment) : Segment :=
  {| sg_base_offset := sg_base_offset s; sg_log_file := sg_log_file s; sg_index := ix;
     sg_current_size := sg_current_size s; sg_next_offset := sg_next_offset s;
     sg_max_bytes := sg_max_bytes s; sg_sync_level := sg_sync_level s |}.
Definition set_end (size next : Z) (s : Segment) : Segment :=
  {| sg_base_offset := sg_base_offset s; sg_log_file := sg_log_file s; sg_index := sg_index s;
     sg_current_size := size; sg_next_offset := next;
     sg_max_bytes := sg_max_bytes s; sg_sync_level := sg_sync_level s |}.

(** `self.log_file.m()` and `self.index.m()`. *)
Definition on_log {A} (m : FileIO A) : SegIO A :=
  zoom (λ s, (sg_log_file (fst s), snd s)) (λ t s, (set_log_file (fst t) (fst s), snd t)) m.
Definition on_index {A} (m : Res (Index * World) A) : SegIO A :=
  zoom (λ s, (sg_index (fst s), snd s)) (λ t s, (set_index (fst t) (fst s), snd t)) m.

Definition when {S} (b : bool) (m : Res S unit) : Res S unit := if b then m else mret tt.

(** `matches!(self.sync_level, Log | LogAndIndex)` and `LogAndIndex` alone. *)
Definition syncs_log (l : SyncLevel) : bool :=
  match l with Log | LogAndIndex => true | None_ => false end.
Definition syncs_index (l : SyncLevel) : bool :=
  match l with LogAndIndex => true | _ => false end.

Definition log_path (dir : path) (base_offset : Z) : path :=
  join dir (format_020 base_offset ++ str ".log").
Definition index_path (dir : path) (base_offset : Z) : path :=
  join dir (format_020 base_offset ++ str ".index").

Section segment.
Context `{!BytesOps}.

Definition Segment_create (base_dir : path) (base_offset max_bytes : Z) (sync_level : SyncLevel)
  : Res World Segment :=
  _ ← create_dir_all base_dir;
  log_file ← open {| oo_create := true; oo_truncate := false; oo_append := true |}
               (log_path base_dir base_offset);
  index ← Index_create (index_path base_dir base_offset);
  mret {| sg_base_offset := base_offset; sg_log_file := log_file; sg_index := index;
          sg_current_size := 0; sg_next_offset := base_offset; sg_max_bytes := max_bytes;
          sg_sync_level := sync_level |}.

(** The recovery loop of `load`: the offset after the last valid record and the
    length of the valid prefix. A decode takes at least 28 bytes, so the length
    of the buffer bounds the number of turns. *)
Fixpoint load_loop (fuel : nat) (rebuild_index : bool) (src : bytes)
    (current_offset valid_bytes : Z) : Res (Index * World) (Z * Z) :=
  match Record_decode src with
  | (Ok (Some record), src') =>
      match fuel with
      | O => out_of_fuel
      | S fuel' =>
          let record_len := blen src - blen src' in
          _ ← when rebuild_index (Index_append (r_offset record) valid_bytes);
          load_loop fuel' rebuild_index src' (add_u64 (r_offset record) 1) (valid_bytes + record_len)
      end
  | (Ok None, _) | (Err _, _) => mret (current_offset, valid_bytes)
  | (Panic, _) => panic
  | (OutOfFuel, _) => out_of_fuel
  end.

(** The part of `load` that works on the opened log file and the index. *)
Definition load_body (base_offset : Z) : Res ((File * Index) * World) (Z * Z) :=
  let on_file {A} (m : FileIO A) : Res ((File * Index) * World) A :=
    zoom (λ s, (fst (fst s), snd s)) (λ t s, ((fst t, snd (fst s)), snd t)) m in
  let on_ix {A} (m : Res (Index * World) A) : Res ((File * Index) * World) A :=
    zoom (λ s, (snd (fst s), snd s)) (λ t s, ((fst (fst s), fst t), snd t)) m in
  file_len ← on_file metadata_len;
  _ ← on_file (seek_start 0);
  buf ← on_file read_to_end;
  rebuild_index ← gets (λ s, (entry_count (snd (fst s)) =? 0) && (0 <? file_len));
  r ← on_ix (load_loop (length buf) rebuild_index buf base_offset 0);
  let '(current_offset, valid_bytes) := r in
  _ ← when (valid_bytes <? file_len) (on_file (set_len valid_bytes));
  _ ← when rebuild_index (on_ix Index_flush);
  _ ← on_file seek_end;
  mret (current_offset, valid_bytes).

Definition Segment_load (base_dir : path) (base_offset max_bytes : Z) (sync_level : SyncLevel)
  : Res World Segment :=
  log_file ← open {| oo_create := false; oo_truncate := false; oo_append := false |}
               (log_path base_dir base_offset);
  loaded ← attempt (Index_load (index_path base_dir base_offset));
  index ← (match loaded with
           | inl idx => mret idx
           | inr _ => Index_create (index_path base_dir base_offset)
           end);
  r ← with_local (log_file, index) (load_body base_offset);
  let '((current_offset, valid_bytes), (log_file, index)) := r in
  mret {| sg_base_offset := base_offset; sg_log_file := log_file; sg_index := index;
          sg_current_size := valid_bytes; sg_next_offset := current_offset;
          sg_max_bytes := max_bytes; sg_sync_level := sync_level |}.

Definition Segment_append (key value : option bytes) : SegIO Z :=
  s ← gets fst;
  let record_len := record_len key value in
  if sg_max_bytes s <? record_len then throw MessageTooLarge else
  if (sg_max_bytes s <? add_u64 (sg_current_size s) record_len) && (0 <? sg_current_size s)
  then throw (SegmentFull (sg_current_size s) (sg_max_bytes s)) else
  let offset := sg_next_offset s in
  timestamp_ms ← in_world now_ms;
  let record := {| r_offset := offset; r_timestamp_ms := timestamp_ms; r_key := key;
                   r_value := value |} in
  let data := built (Record_encode record) in
  let physical_position := sg_current_size s in
  _ ← on_log (write_all data);
  _ ← when (syncs_log (sg_sync_level s)) (on_log sync_data);
  _ ← on_index (Index_append offset physical_position);
  _ ← when (syncs_index (sg_sync_level s)) (on_index Index_sync);
  _ ← modify (λ t, (set_end (add_u64 (sg_current_size (fst t)) (blen data))
                            (add_u64 (sg_next_offset (fst t)) 1) (fst t), snd t));
  mret offset.

(** The `for payload in payloads` loop of `append_batch`: the encoded records,
    their index entries, the next offset and how many were taken. *)
Fixpoint batch_build (s : Segment) (timestamp_ms : Z) (payloads : list bytes)
    (buf : bytes) (entries : list (Z * Z)) (physical_position current_offset count : Z)
    : outcome RukaError (bytes * list (Z * Z) * Z * Z) :=
  match payloads with
  | [] => Ok (buf, entries, current_offset, count)
  | payload :: rest =>
      let record_len := add_u64 28 (blen payload) in
      if sg_max_bytes s <? record_len then Err MessageTooLarge else
      if sg_max_bytes s <? add_u64 physical_position record_len then
        if 0 <? count then Ok (buf, entries, current_offset, count)
        else Err (SegmentFull (sg_current_size s) (sg_max_bytes s))
      else
      let record := {| r_offset := current_offset; r_timestamp_ms := timestamp_ms;
                       r_key := None; r_value := Some payload |} in
      let buf' := snd (Record_encode record buf) in
      let bytes_added := blen buf' - blen buf in
      batch_build s timestamp_ms rest buf' (entries ++ [(current_offset, physical_position)])
        (add_u64 physical_position bytes_added) (add_u64 current_offset 1) (count + 1)
  end.

Fixpoint append_entries (entries : list (Z * Z)) : Res (Index * World) unit :=
  match entries with
  | [] => mret tt
  | (off, pos) :: rest => _ ← Index_append off pos; append_entries rest
  end.

Definition Segment_append_batch (payloads : list bytes) : SegIO (Z * Z) :=
  s ← gets fst;
  if bool_decide (payloads = []) then mret (sg_next_offset s, 0) else
  let base_offset := sg_next_offset s in
  timestamp_ms ← in_world now_ms;
  r ← lift (batch_build s timestamp_ms payloads [] [] (sg_current_size s) base_offset 0);
  let '(data, index_entries, current_offset, appended_count) := r in
  _ ← when (negb (bool_decide (data = [])))
        (_ ← on_log (write_all data);
         _ ← when (syncs_log (sg_sync_level s)) (on_log sync_data);
         _ ← on_index (append_entries index_entries);
         _ ← when (syncs_index (sg_sync_level s)) (on_index Index_sync);
         modify (λ t, (set_end (add_u64 (sg_current_size (fst t)) (blen data)) current_offset (fst t),
                       snd t)));
  mret (base_offset, appended_count).

(** Reading the record at [position] by its exact length; writing the four
    length bytes into a shorter buffer panics. *)
Definition read_full (position : Z) : FileIO bytes :=
  _ ← seek_start position;
  len_buf ← read_exact 4;
  let record_len := be_val len_buf in
  if record_len <? 4 then panic else
  rest ← read_exact (record_len - 4);
  mret (len_buf ++ rest).

Definition Segment_read_at (offset : Z) : SegIO (option LogRecord) :=
  s ← gets fst;
  if (offset <? sg_base_offset s) || (sg_next_offset s <=? offset) then mret None else
  found ← lift (Index_lookup (sg_index s) offset);
  match found with
  | None => mret None
  | Some position =>
      _ ← on_log (seek_start position);
      buf ← on_log (read 4096);
      first ← scoped buf Record_decode;
      match first with
      | Some record =>
          if r_offset record =? offset then mret (Some record) else
          full_buf ← on_log (read_full position);
          scoped full_buf Record_decode
      | None =>
          full_buf ← on_log (read_full position);
          scoped full_buf Record_decode
      end
  end.

(** The `while src.len() >= 4` loop of `read_batch`; a successful decode takes
    at least 28 bytes off the buffer. *)
Fixpoint scan_records (fuel : nat) (offset max_bytes : Z) (records : list LogRecord)
    (total_bytes : Z) : Res bytes (list LogRecord) :=
  len ← gets blen;
  if len <? 4 then mret records else
  match fuel with
  | O => out_of_fuel
  | S fuel' =>
      src ← gets id;
      record_len ← scoped src get_u32;
      if len <? record_len then mret records else
      if (max_bytes <? total_bytes + record_len) && negb (bool_decide (records = []))
      then mret records else
      decoded ← attempt Record_decode;
      match decoded with
      | inl (Some record) =>
          if offset <=? r_offset record
          then scan_records fuel' offset max_bytes (records ++ [record]) (total_bytes + record_len)
          else scan_records fuel' offset max_bytes records total_bytes
      | _ => mret records
      end
  end.

(** The fallback that reads the first record exactly; failed reads are ignored. *)
Definition read_first (position offset : Z) : FileIO (list LogRecord) :=
  _ ← seek_start position;
  len_res ← attempt (read_exact 4);
  match len_res with
  | inr _ => mret []
  | inl len_buf =>
      let record_len := be_val len_buf in
      if record_len <? 4 then panic else
      rest_res ← attempt (read_exact (record_len - 4));
      match rest_res with
      | inr _ => mret []
      | inl rest =>
          decoded ← attempt (scoped (len_buf ++ rest) Record_decode);
          match decoded with
          | inl (Some record) => if offset <=? r_offset record then mret [record] else mret []
          | _ => mret []
          end
      end
  end.

Definition Segment_read_batch (offset max_bytes : Z) : SegIO (list LogRecord) :=
  s ← gets fst;
  if (offset <? sg_base_offset s) || (sg_next_offset s <=? offset) then mret [] else
  found ← lift (Index_lookup (sg_index s) offset);
  match found with
  | None => mret []
  | Some position =>
      _ ← on_log (seek_start position);
      let max_read_size := if max_bytes <? 1024 * 1024 then 1024 * 1024 else max_bytes in
      buf ← on_log (read max_read_size);
      records ← scoped buf (scan_records (length buf) offset max_bytes [] 0);
      if bool_decide (records = []) && (0 <? blen buf)
      then on_log (read_first position offset)
      else mret records
  end.

Definition Segment_is_full (s : Segment) : bool := sg_max_bytes s <=? sg_current_size s.

Definition Segment_flush : SegIO unit := _ ← on_log flush; on_index Index_flush.
Definition Segment_sync : SegIO unit := _ ← on_log sync_data; on_index Index_sync.
End segment.
