(* ===== verification/SegmentInv.v ===== *)
(** * The segment invariant

    [seg_inv dir s w rs]: the segment [s] of directory [dir] stores exactly the
    records [rs]. The log file is their concatenation, the index has one entry
    per record with its offset and position, offsets are consecutive from the
    base, and the in-memory counters agree. The lemmas here locate a record in
    the file and say how the invariant depends on the world. *)
From S2P Require Import Prelude Errors BytesCrate StdText FileSystem BinarySearch Index Record Segment.
#[local] Open Scope Z_scope.

(** ** File names *)
Lemma split_slash_none acc s :
  slash ∉ s → split_slash acc s = [acc ++ s].
Proof.
  revert acc. induction s as [|c s IH]; intros acc Hs; simpl; [by rewrite app_nil_r|].
  rewrite not_elem_of_cons in Hs. destruct Hs as [Hc Hs].
  rewrite bool_decide_eq_false_2 by congruence. rewrite IH by done. by rewrite <- (assoc_L (++)).
Qed.

Lemma join_name dir s : slash ∉ s → s ≠ [] → s ≠ dot → join dir s = dir ++ [s].
Proof.
  intros Hs Hne Hdot. unfold join. destruct s as [|c s]; [done|].
  rewrite bool_decide_eq_false_2 by (intros ->; apply Hs; left).
  unfold components. rewrite split_slash_none by done.
  rewrite filter_all by (by repeat constructor). done.
Qed.

Lemma digits_no_slash k n : slash ∉ digits k n.
Proof.
  intros Hin. assert (forallb is_digit (digits k n) = true) as Hd by apply digits_digit.
  rewrite forallb_forall in Hd. specialize (Hd slash ltac:(by apply list_elem_of_In)). done.
Qed.

Lemma file_name_path dir n ext :
  slash ∉ ext → (0 < length ext)%nat → join dir (format_020 n ++ ext) = dir ++ [format_020 n ++ ext].
Proof.
  intros Hs Hl. apply join_name.
  - rewrite elem_of_app. intros [?|?]; [by eapply digits_no_slash|done].
  - intros [? ->]%app_eq_nil. simpl in Hl. lia.
  - intros Heq. apply (f_equal length) in Heq. rewrite length_app in Heq. unfold format_020 in Heq.
    rewrite length_digits in Heq. simpl in Heq. lia.
Qed.

Lemma singleton_inj {A} (a b : A) : [a] = [b] → a = b.
Proof. by intros [= ->]. Qed.

Lemma log_path_eq dir n : log_path dir n = dir ++ [format_020 n ++ str ".log"].
Proof. apply file_name_path; [apply (bool_decide_unpack _); vm_compute; done|simpl; lia]. Qed.
Lemma index_path_eq dir n : index_path dir n = dir ++ [format_020 n ++ str ".index"].
Proof. apply file_name_path; [apply (bool_decide_unpack _); vm_compute; done|simpl; lia]. Qed.

Lemma log_index_ne dir n m : log_path dir n ≠ index_path dir m.
Proof.
  rewrite log_path_eq, index_path_eq. intros [_ Heq]%app_inj_2; [|done].
  apply singleton_inj in Heq. apply (f_equal length) in Heq. rewrite !length_app in Heq.
  unfold format_020 in Heq. rewrite !length_digits in Heq. done.
Qed.

Lemma format_app_inj n m ext :
  is_u64 n → is_u64 m → format_020 n ++ ext = format_020 m ++ ext → n = m.
Proof. intros Hn Hm ?%(inj (λ l, l ++ ext)). by apply format_020_inj. Qed.

Lemma log_path_inj dir n m : is_u64 n → is_u64 m → log_path dir n = log_path dir m → n = m.
Proof.
  rewrite !log_path_eq. intros Hn Hm [_ Heq]%app_inj_2; [|done].
  apply singleton_inj in Heq. by apply format_app_inj in Heq.
Qed.
Lemma index_path_inj dir n m : is_u64 n → is_u64 m → index_path dir n = index_path dir m → n = m.
Proof.
  rewrite !index_path_eq. intros Hn Hm [_ Heq]%app_inj_2; [|done].
  apply singleton_inj in Heq. by apply format_app_inj in Heq.
Qed.

(** From here on only the equations above matter. *)
#[global] Opaque log_path index_path.

(** ** Records with consecutive offsets and their index entries *)
Definition consecutive (base : Z) (rs : list LogRecord) : Prop :=
  ∀ i r, rs !! i = Some r → r_offset r = base + Z.of_nat i.

Fixpoint entries_from (pos : Z) (rs : list LogRecord) : list IndexEntry :=
  match rs with
  | [] => []
  | r :: rs' => {| ie_offset := r_offset r; ie_position := pos |} :: entries_from (pos + rsize r) rs'
  end.

Lemma consecutive_app base rs1 rs2 :
  consecutive base (rs1 ++ rs2) ↔ consecutive base rs1 ∧ consecutive (base + blen rs1) rs2.
Proof.
  unfold consecutive, blen. split.
  - intros Hc. split; intros i r Hi.
    + apply Hc. by apply lookup_app_l_Some.
    + rewrite (Hc (length rs1 + i)%nat); [lia|].
      rewrite lookup_app_r by lia. by rewrite Nat.add_sub_swap, Nat.sub_diag by lia.
  - intros [H1 H2] i r [Hi|[Hle Hi]]%lookup_app_Some; [by apply H1|].
    rewrite (H2 _ _ Hi). lia.
Qed.

Lemma consecutive_singleton base r : r_offset r = base → consecutive base [r].
Proof. intros Hr i r' [-> ->]%list_lookup_singleton_Some. lia. Qed.

Lemma consecutive_nil base : consecutive base [].
Proof. intros i r. by rewrite lookup_nil. Qed.

Lemma entries_from_app pos rs1 rs2 :
  entries_from pos (rs1 ++ rs2) =
  entries_from pos rs1 ++ entries_from (pos + blen (log_bytes rs1)) rs2.
Proof.
  revert pos. induction rs1 as [|r rs1 IH]; intros pos; simpl.
  - f_equal. change (blen (log_bytes [])) with 0. lia.
  - rewrite IH. do 3 f_equal. rewrite log_bytes_cons. len.
Qed.

Lemma entries_from_lookup pos rs i e :
  entries_from pos rs !! i = Some e → ∃ r, rs !! i = Some r ∧ ie_offset e = r_offset r.
Proof.
  revert pos i. induction rs as [|r rs IH]; intros pos i; [done|].
  destruct i as [|i]; simpl; [intros [= <-]; by exists r|apply IH].
Qed.

Lemma length_entries_from pos rs : length (entries_from pos rs) = length rs.
Proof. revert pos. induction rs; intros pos; simpl; auto. Qed.

Lemma entries_sorted base pos rs :
  consecutive base rs → strictly_sorted_by ie_offset (entries_from pos rs).
Proof.
  intros Hc i j x y Hij (r1 & Hr1 & ->)%entries_from_lookup (r2 & Hr2 & ->)%entries_from_lookup.
  rewrite (Hc _ _ Hr1), (Hc _ _ Hr2). lia.
Qed.

Lemma entries_typed base pos rs :
  consecutive base rs → 0 ≤ base → base + blen rs ≤ 2 ^ 64 → 0 ≤ pos →
  pos + blen (log_bytes rs) < 2 ^ 64 → Forall entry_typed (entries_from pos rs).
Proof.
  revert base pos. induction rs as [|r rs IH]; intros base pos Hc Hb Hn Hp Hl; [constructor|].
  rewrite log_bytes_cons in Hl. pose proof (rsize_min r).
  pose proof (Hc 0%nat r eq_refl) as H0. constructor.
  - split; unfold is_uint; simpl; len.
  - apply (IH (base + 1)); [|len..]. intros i r' Hi. rewrite (Hc (S i) r' Hi). lia.
Qed.

(** ** The invariant *)
Record seg_inv (dir : path) (s : Segment) (w : World) (rs : list LogRecord) : Prop := {
  si_log_path : fl_path (sg_log_file s) = log_path dir (sg_base_offset s);
  si_index_path : ix_path (sg_index s) = index_path dir (sg_base_offset s);
  si_log : w_files w !! log_path dir (sg_base_offset s) = Some (log_bytes rs);
  si_index : index_inv (sg_index s) w;
  si_entries : ix_entries (sg_index s) = entries_from 0 rs;
  si_consecutive : consecutive (sg_base_offset s) rs;
  si_typed : Forall record_typed rs;
  si_size : sg_current_size s = blen (log_bytes rs);
  si_next : sg_next_offset s = sg_base_offset s + blen rs;
  si_base : 0 ≤ sg_base_offset s;
  si_offsets : sg_base_offset s + blen rs < 2 ^ 64;
  si_small : blen (log_bytes rs) ≤ 2 ^ 63;
  si_max : sg_max_bytes s ≤ 2 ^ 63
}.

(** The next write to the log goes to its end. *)
Definition writable (s : Segment) (w : World) : Prop := at_end (sg_log_file s) w.

(** The world changed at most at the paths [ps]. *)
Definition changes_only (ps : list path) (w' w : World) : Prop :=
  (∀ p, p ∉ ps → w_files w' !! p = w_files w !! p) ∧
  w_dirs w' = w_dirs w ∧ w_dir_order w' = w_dir_order w.

Lemma changes_only_same ps w' w : same_fs w' w → changes_only ps w' w.
Proof. intros (Hf & Hd & Ho). split; [|done]. intros p _. by rewrite Hf. Qed.

Lemma changes_only_trans ps w1 w2 w3 :
  changes_only ps w1 w2 → changes_only ps w2 w3 → changes_only ps w1 w3.
Proof.
  intros (Hf1 & Hd1 & Ho1) (Hf2 & Hd2 & Ho2). split; [|split; congruence].
  intros p Hp. rewrite Hf1, Hf2 by done. done.
Qed.

Lemma changes_only_insert ps w p d :
  p ∈ ps → changes_only ps (set_files (<[p := d]> (w_files w)) w) w.
Proof.
  intros Hp. split; [|done]. intros q Hq. simpl. apply lookup_insert_ne. by intros ->.
Qed.

(** The paths a segment owns. *)
Definition seg_paths (dir : path) (s : Segment) : list path :=
  [log_path dir (sg_base_offset s); index_path dir (sg_base_offset s)].

Lemma seg_paths_log dir s : log_path dir (sg_base_offset s) ∈ seg_paths dir s.
Proof. left. Qed.
Lemma seg_paths_index dir s : index_path dir (sg_base_offset s) ∈ seg_paths dir s.
Proof. right. left. Qed.

Lemma index_inv_frame ix w' w :
  w_files w' !! ix_path ix = w_files w !! ix_path ix → index_inv ix w → index_inv ix w'.
Proof.
  intros Hf (Hp & Hlk & He & Ht). split_and!; [done|by rewrite Hf| |done].
  pose proof Hlk as Hlk2. rewrite <- Hp in Hlk.
  eapply at_end_intro; [|by eapply at_end_elim]. by rewrite Hp, Hf, <- Hp.
Qed.

(** Files of other segments do not matter, nor does what lies in the schedule. *)
Lemma seg_inv_frame dir s w' w rs :
  (∀ p, p ∈ seg_paths dir s → w_files w' !! p = w_files w !! p) →
  seg_inv dir s w rs → seg_inv dir s w' rs.
Proof.
  intros Hf []. split; try assumption.
  - rewrite Hf; [assumption|apply seg_paths_log].
  - eapply index_inv_frame; [|eassumption]. apply Hf. rewrite si_index_path0. apply seg_paths_index.
Qed.

Lemma seg_inv_same dir s w' w rs : same_fs w' w → seg_inv dir s w rs → seg_inv dir s w' rs.
Proof. intros (Hf & _). apply seg_inv_frame. intros p _. by rewrite Hf. Qed.

(** Moving the read position does not matter. *)
Definition moved (n : Z) (s : Segment) : Segment := set_log_file (set_pos n (sg_log_file s)) s.

Lemma seg_inv_moved dir s w rs n : seg_inv dir s w rs → seg_inv dir (moved n s) w rs.
Proof.
  intros []. split; [exact si_log_path0|exact si_index_path0|exact si_log0|exact si_index0
    |exact si_entries0|exact si_consecutive0|exact si_typed0|exact si_size0|exact si_next0
    |exact si_base0|exact si_offsets0|exact si_small0|exact si_max0].
Qed.

Lemma writable_frame dir s w' w rs :
  seg_inv dir s w rs → seg_inv dir s w' rs → writable s w → writable s w'.
Proof.
  intros H1 H2 Hw. unfold writable in *.
  assert (∀ w, seg_inv dir s w rs → w_files w !! fl_path (sg_log_file s) = Some (log_bytes rs)) as Hlk.
  { intros w0 []. by rewrite si_log_path0. }
  eapply at_end_intro; [by apply Hlk|]. eapply (at_end_elim _ w); [by apply Hlk|done].
Qed.

(** ** Locating a record *)
Lemma seg_split dir s w rs o :
  seg_inv dir s w rs → sg_base_offset s ≤ o < sg_next_offset s →
  ∃ rs1 r rs2, rs = rs1 ++ r :: rs2 ∧ r_offset r = o ∧ blen rs1 = o - sg_base_offset s.
Proof.
  intros [] Ho. rewrite si_next0 in Ho.
  destruct (lookup_lt_is_Some_2 rs (Z.to_nat (o - sg_base_offset s))) as [r Hr];
    [unfold blen in Ho; lia|].
  exists (take (Z.to_nat (o - sg_base_offset s)) rs), r, (drop (S (Z.to_nat (o - sg_base_offset s))) rs).
  split; [by rewrite take_drop_middle|]. split.
  - rewrite (si_consecutive0 _ _ Hr). lia.
  - apply lookup_lt_Some in Hr. unfold blen in *. rewrite length_take. lia.
Qed.

Lemma seg_lookup dir s w rs1 r rs2 :
  seg_inv dir s w (rs1 ++ r :: rs2) →
  Index_lookup (sg_index s) (r_offset r) = Ok (Some (blen (log_bytes rs1))).
Proof.
  intros []. apply (Index_lookup_found _ (length rs1)
    {| ie_offset := r_offset r; ie_position := blen (log_bytes rs1) |}).
  - unfold index_sorted. rewrite si_entries0. by eapply entries_sorted.
  - rewrite si_entries0, entries_from_app.
    rewrite lookup_app_r by (by rewrite length_entries_from).
    rewrite length_entries_from, Nat.sub_diag. done.
Qed.

Lemma seg_rest dir s w w' rs1 rs2 f :
  seg_inv dir s w (rs1 ++ rs2) → same_fs w' w → fl_path f = fl_path (sg_log_file s) →
  rest_of (set_pos (blen (log_bytes rs1)) f, w') = log_bytes rs2.
Proof.
  intros [] (Hf & _) Hp. unfold rest_of. rewrite (file_contents_lookup _ _ (log_bytes (rs1 ++ rs2))).
  - rewrite log_bytes_app. by apply drop_blen_app.
  - simpl. by rewrite Hf, Hp, si_log_path0.
Qed.
