(* ===== verification/SegmentRead.v ===== *)
(** * Reading a segment (src/src/storage/segment.rs, `read_at`, `read_batch`)

    Under the segment invariant, and whatever short reads the operating system
    makes, `read_at` returns the record with the requested offset and
    `read_batch` a non-empty run of consecutive records within the byte budget.
    Reads change nothing but the position of the log's file handle. *)
From S2P Require Import Prelude Errors BytesCrate StdText FileSystem BinarySearch Index Record Segment SegmentInv.
#[local] Open Scope Z_scope.

(** ** Handles *)
Lemma on_log_ok {A} (m : FileIO A) s w a f w' :
  m (sg_log_file s, w) = (Ok a, (f, w')) → on_log m (s, w) = (Ok a, (set_log_file f s, w')).
Proof. intros Hm. unfold on_log. by erewrite zoom_Ok by (apply Hm). Qed.

Lemma moved_self s : s = moved (fl_pos (sg_log_file s)) s.
Proof. by destruct s as [? [] ? ? ? ? ?]. Qed.
Lemma moved_moved a b s : moved a (moved b s) = moved a s.
Proof. reflexivity. Qed.

Lemma rest_of_advance f w' w p n :
  same_fs w' w → 0 ≤ p → 0 ≤ n →
  rest_of (set_pos (p + n) f, w') = drop (Z.to_nat n) (rest_of (set_pos p f, w)).
Proof.
  intros Hs Hp Hn. unfold rest_of, file_contents. cbn [fst snd fl_pos set_pos fl_path].
  rewrite (same_fs_contents w' w) by done. rewrite Z2Nat.inj_add by done. by rewrite drop_drop.
Qed.

Lemma rest_of_same f w' w : same_fs w' w → rest_of (f, w') = rest_of (f, w).
Proof.
  intros Hs. unfold rest_of, file_contents. cbn [snd fst]. by rewrite (same_fs_contents w' w) by done.
Qed.

(** What a read that changes nothing leaves behind. *)
Definition only_moved (s' s : Segment) (w' w : World) : Prop :=
  (∃ n, s' = moved n s) ∧ popped w' w.

(** ** Specifications *)

(** The record with offset [o], of the records stored from [base] on. *)
Definition record_at (base : Z) (rs : list LogRecord) (o : Z) : option LogRecord :=
  if decide (base ≤ o) then rs !! Z.to_nat (o - base) else None.

(** The records from offset [o] on. *)
Definition records_from (base : Z) (rs : list LogRecord) (o : Z) : list LogRecord :=
  if decide (base ≤ o) then drop (Z.to_nat (o - base)) rs else [].

(** The longest run that fits in the budget, and at least one record. *)
Fixpoint take_batch (max_bytes total : Z) (rs : list LogRecord) : list LogRecord :=
  match rs with
  | [] => []
  | r :: rs' =>
      if (max_bytes <? total + rsize r) && (0 <? total) then []
      else r :: take_batch max_bytes (total + rsize r) rs'
  end.

Lemma take_batch_prefix max total rs : take_batch max total rs `prefix_of` rs.
Proof.
  revert total. induction rs as [|r rs IH]; intros total; simpl; [done|].
  destruct (_ && _); [apply prefix_nil|]. by apply prefix_cons.
Qed.

Lemma take_batch_app max total rs1 rs2 :
  take_batch max total rs1 `prefix_of` take_batch max total (rs1 ++ rs2).
Proof.
  revert total. induction rs1 as [|r rs IH]; intros total; simpl; [apply prefix_nil|].
  destruct (_ && _); [done|]. by apply prefix_cons.
Qed.

Lemma take_batch_single max r rs : max < rsize r → take_batch max 0 (r :: rs) = [r].
Proof.
  intros Hr. pose proof (rsize_min r). cbn [take_batch]. rewrite andb_false_r. f_equal.
  destruct rs as [|r2 rs]; [done|]. cbn [take_batch]. pose proof (rsize_min r2).
  destruct (Z.ltb_spec max (0 + rsize r + rsize r2)); [|lia].
  destruct (Z.ltb_spec 0 (0 + rsize r)); [done|lia].
Qed.

Lemma take_batch_stop max total rs1 r rs2 :
  0 ≤ total → max < total + blen (log_bytes rs1) + rsize r → rs1 ≠ [] ∨ 0 < total →
  take_batch max total (rs1 ++ r :: rs2) = take_batch max total rs1.
Proof.
  revert total. induction rs1 as [|r1 rs1 IH]; intros total Ht Hlt Hpos; cbn [app take_batch].
  - change (blen (log_bytes [])) with 0 in Hlt. rewrite Z.add_0_r in Hlt.
    destruct Hpos as [?|?]; [done|].
    destruct (Z.ltb_spec max (total + rsize r)), (Z.ltb_spec 0 total); done || lia.
  - destruct (_ && _); [done|]. pose proof (rsize_min r1). rewrite log_bytes_cons in Hlt.
    f_equal. apply IH; len.
Qed.

Lemma take_batch_budget max total rs :
  0 ≤ total →
  total + blen (log_bytes (take_batch max total rs)) ≤ Z.max max total ∨
  (total = 0 ∧ ∃ r, take_batch max total rs = [r] ∧ max < rsize r).
Proof.
  revert total. induction rs as [|r rs IH]; intros total Ht; cbn [take_batch].
  { left. change (blen (log_bytes [])) with 0. lia. }
  pose proof (rsize_min r).
  destruct (Z.ltb_spec max (total + rsize r)), (Z.ltb_spec 0 total); cbn [andb].
  - left. change (blen (log_bytes [])) with 0. lia.
  - right. assert (total = 0) as -> by lia. split; [done|]. exists r. split; [|lia].
    pose proof (take_batch_single max r rs ltac:(lia)) as Heq. cbn [take_batch] in Heq.
    by rewrite andb_false_r in Heq.
  - rewrite log_bytes_cons. destruct (IH (total + rsize r)) as [Hle|[? _]]; [lia|left; len|lia].
  - rewrite log_bytes_cons. destruct (IH (total + rsize r)) as [Hle|[? _]]; [lia|left; len|lia].
Qed.

Lemma take_batch_all max total rs :
  total + blen (log_bytes rs) ≤ max → take_batch max total rs = rs.
Proof.
  revert total. induction rs as [|r rs IH]; intros total Hle; cbn [take_batch]; [done|].
  rewrite log_bytes_cons in Hle. destruct (Z.ltb_spec max (total + rsize r)); [len|].
  cbn [andb]. f_equal. apply IH. len.
Qed.

(** The run ends only where the budget does. *)
Lemma take_batch_longer max out r k :
  out ≠ [] → blen (log_bytes (out ++ [r])) ≤ max → out ≠ take_batch max 0 (out ++ r :: k).
Proof.
  intros Hne Hle Heq. assert (∀ total l, total + blen (log_bytes (l ++ [r])) ≤ max →
    take_batch max total (l ++ r :: k) = l ++ r :: take_batch max (total + blen (log_bytes (l ++ [r]))) k) as Htk.
  { clear. intros total l. revert total. induction l as [|x l IH]; intros total Hle; cbn [app take_batch].
    - cbn [app] in Hle. rewrite log_bytes_singleton, blen_record_bytes in *.
      destruct (Z.ltb_spec max (total + rsize r)); [lia|done].
    - cbn [app] in Hle. rewrite log_bytes_cons in *. destruct (Z.ltb_spec max (total + rsize x)); [len|].
      cbn [andb]. f_equal. rewrite IH by len. do 3 f_equal. len. }
  rewrite Htk in Heq by lia. apply (f_equal length) in Heq. rewrite length_app in Heq. cbn in Heq. lia.
Qed.

(** A batch is within the budget, or a single larger record. *)
Lemma batch_cases max rs out :
  0 ≤ max → out `prefix_of` take_batch max 0 rs → out ≠ [] →
  blen (log_bytes out) ≤ max ∨ ∃ r, out = [r] ∧ max < rsize r.
Proof.
  intros Hm [rest Hr] Hne. destruct (take_batch_budget max 0 rs) as [Hle|(_ & r & Heq & Hlt)]; [done| |].
  - left. rewrite Hr, log_bytes_app in Hle. len.
  - right. exists r. split; [|done]. rewrite Heq in Hr. destruct out as [|x out]; [done|].
    injection Hr as <- Hnil. by destruct out.
Qed.

Section read.
Context `{BytesLaws}.

(** ** Reading one record exactly *)
Lemma record_head r t :
  record_typed r →
  ∃ tl, record_bytes r ++ t = be_bytes 4 (rsize r) ++ tl ∧ be_val (be_bytes 4 (rsize r)) = rsize r.
Proof.
  intros (_ & _ & Hs). unfold storable in Hs. pose proof (rsize_min r). unfold rsize in *.
  eexists. unfold record_bytes. rewrite <- (assoc_L (++)). split; [done|].
  rewrite be_val_be_bytes. apply Z.mod_small. change (256 ^ Z.of_nat 4) with (2 ^ 32). lia.
Qed.

(** The two exact reads of the record at [position], header first. *)
Lemma read_exact_record f w position r t :
  healthy w → 0 ≤ position → record_typed r →
  rest_of (set_pos position f, w) = record_bytes r ++ t →
  ∃ tl,
    record_bytes r = be_bytes 4 (rsize r) ++ tl ∧
    be_val (be_bytes 4 (rsize r)) = rsize r ∧
    read_exact 4 (set_pos position f, w) =
      (Ok (be_bytes 4 (rsize r)), (set_pos (position + 4) f, pop_sched w)) ∧
    read_exact (rsize r - 4) (set_pos (position + 4) f, pop_sched w) =
      (Ok tl, (set_pos (position + 4 + (rsize r - 4)) f, pop_sched (pop_sched w))).
Proof.
  intros Hw Hp Hr Hrest. pose proof (rsize_min r).
  destruct (record_head r [] Hr) as (tl & Htl & Hval). rewrite app_nil_r in Htl.
  assert (blen tl = rsize r - 4) as Hlen
    by (apply (f_equal blen) in Htl; rewrite blen_record_bytes, blen_app, blen_be_bytes in Htl; lia).
  rewrite Htl, <- (assoc_L (++)) in Hrest. exists tl. split_and!; [done|done|..].
  - rewrite read_exact_ok; [|done|rewrite Hrest; len].
    by rewrite Hrest, take_blen_app by (by rewrite blen_be_bytes).
  - assert (rest_of (set_pos (position + 4) f, pop_sched w) = tl ++ t) as Hrest2.
    { rewrite (rest_of_advance f _ w) by (done || lia). rewrite Hrest.
      by rewrite drop_blen_app by (by rewrite blen_be_bytes). }
    rewrite read_exact_ok; [|healthy|rewrite Hrest2; len].
    by rewrite Hrest2, take_blen_app by done.
Qed.

Lemma read_full_ok f w position r t :
  healthy w → 0 ≤ position → record_typed r →
  rest_of (set_pos position f, w) = record_bytes r ++ t →
  ∃ n w', read_full position (f, w) = (Ok (record_bytes r), (set_pos n f, w')) ∧
          popped w' w.
Proof.
  intros Hw Hp Hr Hrest. unfold read_full. mstep seek_start_ok; [|done].
  destruct (read_exact_record f (pop_sched w) position r t) as (tl & Htl & Hval & H1 & H2);
    [healthy|done|done|by rewrite (rest_of_same _ _ w)|].
  pose proof (rsize_min r). mstep H1. rewrite Hval. case_Zbool; [lia|]. mstep H2.
  rewrite run_ret. eexists _, _. rewrite Htl. split; [reflexivity|]. auto with world.
Qed.

Lemma read_first_ok f w position r t offset :
  healthy w → 0 ≤ position → record_typed r → offset ≤ r_offset r →
  rest_of (set_pos position f, w) = record_bytes r ++ t →
  ∃ n w', read_first position offset (f, w) = (Ok [r], (set_pos n f, w')) ∧
          popped w' w.
Proof.
  intros Hw Hp Hr Ho Hrest. unfold read_first. mstep seek_start_ok; [|done].
  destruct (read_exact_record f (pop_sched w) position r t) as (tl & Htl & Hval & H1 & H2);
    [healthy|done|done|by rewrite (rest_of_same _ _ w)|].
  pose proof (rsize_min r). erewrite bind_Ok by (apply attempt_Ok, H1). reduce. rewrite Hval.
  case_Zbool; [lia|]. erewrite bind_Ok by (apply attempt_Ok, H2). reduce. rewrite <- Htl.
  pose proof (Record_decode_app r [] Hr) as Hd. rewrite app_nil_r in Hd.
  erewrite bind_Ok by (eapply attempt_Ok, scoped_eq, Hd). reduce. case_Zbool; [|lia].
  rewrite run_ret. eexists _, _. split; [reflexivity|]. auto with world.
Qed.

(** A chunk of the log from a record on either has the whole record or only a
    proper prefix of it. *)
Lemma chunk_cases r t got tl :
  record_bytes r ++ t = got ++ tl →
  (∃ x, got = record_bytes r ++ x) ∨ (∃ q, record_bytes r = got ++ q ∧ q ≠ []).
Proof.
  intros Heq. destruct (app_eq_inv _ _ _ _ Heq) as [(k & Hk & _)|(k & Hk & _)].
  - destruct k as [|b k]; [left; exists []; by rewrite app_nil_r in Hk |- *|].
    right. by exists (b :: k).
  - left. by exists k.
Qed.

(** ** `read_at` *)
Lemma Segment_read_at_hit dir s w rs1 r rs2 :
  healthy w → seg_inv dir s w (rs1 ++ r :: rs2) →
  ∃ s' w', Segment_read_at (r_offset r) (s, w) = (Ok (Some r), (s', w')) ∧ only_moved s' s w' w.
Proof.
  intros Hw Hinv. pose proof Hinv as [].
  assert (Hoff : r_offset r = sg_base_offset s + blen rs1)
    by (apply (si_consecutive (length rs1)); apply list_lookup_middle; done).
  assert (Hr : record_typed r) by (apply Forall_app in si_typed as [_ [? _]%Forall_cons]; done).
  set (pos := blen (log_bytes rs1)). set (f := sg_log_file s).
  unfold Segment_read_at. mret_step. cbn [fst].
  destruct (Z.ltb_spec (r_offset r) (sg_base_offset s)); [len|].
  destruct (Z.leb_spec (sg_next_offset s) (r_offset r)); [len|]. cbn [orb].
  erewrite bind_Ok by (unfold lift; erewrite seg_lookup by done; done). reduce. fold pos.
  erewrite bind_Ok by (by apply on_log_ok, seek_start_ok). fold f.
  assert (Hrest : ∀ w', same_fs w' w → rest_of (set_pos pos f, w') = record_bytes r ++ log_bytes rs2).
  { intros w' Hs. unfold pos. by erewrite seg_rest by done. }
  destruct (read_ok (set_pos pos f) (pop_sched w)) with (n := 4096) as (got & tl & Hread & Hgot & _ & _);
    [healthy|lia|]. rewrite Hrest in Hgot by done.
  erewrite bind_Ok by (apply on_log_ok, Hread).
  assert (only_moved (moved (pos + blen got) s) s (pop_sched (pop_sched w)) w) as Hdone.
  { split; [by eexists|]. auto with world. }
  destruct (chunk_cases _ _ _ _ Hgot) as [[x ->]|(q & Hq & Hne)].
  - erewrite bind_Ok by (by eapply scoped_eq, Record_decode_app). reduce.
    rewrite Z.eqb_refl. eexists _, _. split; [reflexivity|]. apply Hdone.
  - erewrite bind_Ok by (by eapply scoped_eq, Record_decode_prefix). reduce.
    destruct (read_full_ok (set_pos (pos + blen got) f) (pop_sched (pop_sched w)) pos r (log_bytes rs2))
      as (n & w' & Hfull & Hpop); [healthy|apply blen_nonneg|done|by rewrite set_pos_set_pos, Hrest|].
    erewrite bind_Ok by (apply on_log_ok, Hfull).
    pose proof (Record_decode_app r [] Hr) as Hd. rewrite app_nil_r in Hd.
    erewrite scoped_eq by (apply Hd). eexists _, _. split; [reflexivity|].
    split; [by exists n|]. rewrite Hpop. auto with world.
Qed.

(** What `read_at` returns, for every offset. *)
Lemma Segment_read_at_ok dir s w rs o :
  healthy w → seg_inv dir s w rs →
  ∃ s' w', Segment_read_at o (s, w) = (Ok (record_at (sg_base_offset s) rs o), (s', w')) ∧
           only_moved s' s w' w.
Proof.
  intros Hw Hinv. pose proof Hinv as []. unfold record_at.
  destruct (decide (sg_base_offset s ≤ o < sg_next_offset s)) as [Hin|Hout].
  - destruct (seg_split _ _ _ _ o Hinv Hin) as (rs1 & r & rs2 & -> & <- & Hl).
    rewrite decide_True by lia. rewrite <- Hl, list_lookup_middle by (unfold blen; lia).
    by eapply Segment_read_at_hit.
  - assert ((if decide (sg_base_offset s ≤ o) then rs !! Z.to_nat (o - sg_base_offset s) else None)
            = None) as ->.
    { case_decide; [|done]. apply lookup_ge_None. unfold blen in *. lia. }
    exists s, w. unfold Segment_read_at. mret_step. cbn [fst]. split.
    + destruct (Z.ltb_spec o (sg_base_offset s)), (Z.leb_spec (sg_next_offset s) o); try done. lia.
    + split; [eexists; apply moved_self|done].
Qed.

(** ** `read_batch` *)

(** A chunk of the log is some complete records and a proper prefix of the next. *)
Definition torn (rs : list LogRecord) (part : bytes) : Prop :=
  match rs with [] => part = [] | r :: _ => ∃ q, record_bytes r = part ++ q ∧ q ≠ [] end.

Lemma split_complete rs buf tl :
  log_bytes rs = buf ++ tl →
  ∃ rs1 rs2 part, rs = rs1 ++ rs2 ∧ buf = log_bytes rs1 ++ part ∧ torn rs2 part.
Proof.
  revert buf. induction rs as [|r rs IH]; intros buf Heq.
  { symmetry in Heq. apply app_eq_nil in Heq as [-> ->]. by exists [], [], []. }
  rewrite log_bytes_cons in Heq. destruct (chunk_cases _ _ _ _ Heq) as [[x ->]|(q & Hq & Hne)].
  - rewrite <- (assoc_L (++)) in Heq. apply (inj (record_bytes r ++.)) in Heq.
    destruct (IH x Heq) as (rs1 & rs2 & part & -> & -> & Ht).
    exists (r :: rs1), rs2, part. rewrite log_bytes_cons, <- (assoc_L (++)). done.
  - exists [], (r :: rs), buf. split; [done|]. split; [done|]. by exists q.
Qed.

(** The peeked length of a complete record. *)
Lemma peek_len r t : record_typed r → get_u32 (record_bytes r ++ t) = (Ok (rsize r), drop 4 (record_bytes r ++ t)).
Proof.
  intros Hr. destruct (record_head r t Hr) as (tl & -> & _). destruct Hr as (_ & _ & Hs).
  unfold storable in Hs. pose proof (rsize_min r). rewrite get_u32_app by (unfold is_uint, rsize in *; lia).
  by rewrite drop_app_length' by (by rewrite length_be_bytes).
Qed.

(** The scan stops at an incomplete record. *)
Lemma scan_records_torn fuel offset max acc total rs part :
  Forall record_typed rs → torn rs part → (length part ≤ fuel)%nat →
  scan_records fuel offset max acc total part = (Ok acc, part).
Proof.
  intros Hrs Ht Hf. destruct fuel as [|fuel]; cbn [scan_records]; mret_step.
  { destruct part; [done|simpl in Hf; lia]. }
  case_Zbool; [done|]. mret_step. unfold id. destruct rs as [|r rs]; [simpl in Ht; subst; done|].
  destruct Ht as (q & Hq & Hne). apply Forall_cons in Hrs as [Hr _].
  destruct (record_head r [] Hr) as (tl & Htl & _). rewrite app_nil_r in Htl.
  assert (blen part < rsize r) as Hlt.
  { rewrite <- blen_record_bytes, Hq, blen_app. assert (blen q ≠ 0) by (by intros ?%blen_0). len. }
  assert (∃ x, part = be_bytes 4 (rsize r) ++ x) as [x Hx].
  { exists (drop 4 part). rewrite <- (take_drop 4 part) at 1. f_equal.
    transitivity (take 4 (record_bytes r)).
    - rewrite Hq, take_app_le; [done|unfold blen in *; lia].
    - by rewrite Htl, take_app_length' by (by rewrite length_be_bytes). }
  destruct Hr as (_ & _ & Hs). unfold storable in Hs. pose proof (rsize_min r).
  erewrite bind_Ok by (eapply scoped_eq; rewrite Hx; apply get_u32_app; unfold is_uint, rsize in *; lia).
  case_Zbool; [done|lia].
Qed.

Lemma scan_records_ok fuel offset max acc rs rs2 part :
  Forall record_typed (rs ++ rs2) → Forall (λ r, offset ≤ r_offset r) rs → torn rs2 part →
  (length (log_bytes rs ++ part) ≤ fuel)%nat →
  fst (scan_records fuel offset max acc (blen (log_bytes acc)) (log_bytes rs ++ part)) =
  Ok (acc ++ take_batch max (blen (log_bytes acc)) rs).
Proof.
  revert fuel acc. induction rs as [|r rs IH]; intros fuel acc Hty Hoff Ht Hf.
  { cbn [take_batch]. rewrite app_nil_r. by erewrite scan_records_torn. }
  cbn [app] in Hty. apply Forall_cons in Hty as [Hr Hty]. apply Forall_cons in Hoff as [Ho Hoff].
  rewrite log_bytes_cons, <- (assoc_L (++)) in Hf |- *. pose proof (rsize_min r).
  assert (rsize r ≤ blen (record_bytes r ++ (log_bytes rs ++ part))) as Hlen by len.
  assert (length (record_bytes r) = Z.to_nat (rsize r)) as Hnat
    by (rewrite <- blen_record_bytes; unfold blen; lia).
  rewrite length_app in Hf. destruct fuel as [|fuel]; [lia|].
  cbn [scan_records]. mret_step. case_Zbool; [len|]. mret_step. unfold id at 1.
  erewrite bind_Ok by (by eapply scoped_eq, peek_len). case_Zbool; [len|]. cbn [take_batch].
  assert (negb (bool_decide (acc = [])) = (0 <? blen (log_bytes acc))) as ->.
  { destruct acc as [|a acc]; [done|]. rewrite bool_decide_eq_false_2 by done.
    rewrite log_bytes_cons. pose proof (rsize_min a). symmetry. apply Z.ltb_lt. len. }
  destruct (_ && _) eqn:Hb; [by rewrite app_nil_r|].
  erewrite bind_Ok by (by eapply attempt_Ok, Record_decode_app). reduce. case_Zbool; [|lia].
  assert (blen (log_bytes acc) + rsize r = blen (log_bytes (acc ++ [r]))) as Heq
    by (rewrite log_bytes_app, log_bytes_singleton; len).
  rewrite Heq, IH by (done || lia). by rewrite <- (assoc_L (++)).
Qed.

Lemma records_from_eq rs1 rs2 base o :
  blen rs1 = o - base → records_from base (rs1 ++ rs2) o = rs2.
Proof.
  intros Hl. unfold records_from. rewrite decide_True by len. by apply drop_blen_app.
Qed.

(** The records a scan has to choose from have offsets at or above the first. *)
Lemma consecutive_above base rs1 rs2 :
  consecutive base (rs1 ++ rs2) → Forall (λ r, base + blen rs1 ≤ r_offset r) rs2.
Proof.
  intros [_ Hc]%consecutive_app. apply Forall_lookup. intros i r Hi. rewrite (Hc _ _ Hi). lia.
Qed.

Definition read_size (max_bytes : Z) : Z := if max_bytes <? 1024 * 1024 then 1024 * 1024 else max_bytes.
Lemma read_size_spec max : max ≤ read_size max ∧ 0 < read_size max.
Proof. unfold read_size. case_Zbool; lia. Qed.

(** What the scan of one chunk finds, when the chunk starts at a record. *)
Lemma take_batch_chunk max r rs rs1 rs2 part tl :
  r :: rs = rs1 ++ rs2 → log_bytes (r :: rs) = (log_bytes rs1 ++ part) ++ tl → torn rs2 part →
  tl = [] ∨ max ≤ blen (log_bytes rs1 ++ part) →
  (if decide (rs1 = []) then [r] else take_batch max 0 rs1) = take_batch max 0 (r :: rs).
Proof.
  intros Hsp Hb Ht Hall. assert (Hcut : rs2 ≠ [] → max < blen (log_bytes rs1) + blen (log_bytes (take 1 rs2))).
  { intros Hne. destruct rs2 as [|r2 rs2]; [done|]. destruct Ht as (q & Hq & Hqne).
    assert (blen q ≠ 0) by (by intros ?%blen_0). destruct Hall as [->|Hle].
    - rewrite Hsp, log_bytes_app, log_bytes_cons, app_nil_r, Hq in Hb.
      apply (inj (log_bytes rs1 ++.)) in Hb. apply (f_equal blen) in Hb. len.
    - cbn [take]. rewrite log_bytes_singleton, Hq. len. }
  rewrite Hsp. case_decide as Hnil.
  - subst rs1. cbn [app] in *. subst rs2. specialize (Hcut ltac:(done)).
    symmetry. apply take_batch_single. cbn [take] in Hcut. rewrite log_bytes_singleton in Hcut.
    rewrite blen_record_bytes in Hcut. change (blen (log_bytes [])) with 0 in Hcut. lia.
  - destruct rs2 as [|r2 rs2]; [by rewrite app_nil_r|]. specialize (Hcut ltac:(done)).
    cbn [take] in Hcut. rewrite log_bytes_singleton, blen_record_bytes in Hcut.
    symmetry. apply take_batch_stop; [done|lia|by left].
Qed.

(** A read that is not short returns everything or enough. *)
Lemma read_prompt_full f w n max data got tl st :
  prompt w → read n (f, w) = (Ok got, st) → rest_of (f, w) = data → data = got ++ tl → max ≤ n → tl = [] ∨ max ≤ blen got.
Proof.
  intros Hp Hread Hrest -> Hmax. apply (read_prompt f _ n) in Hp. rewrite Hread, Hrest in Hp. injection Hp as Hp.
  apply (f_equal blen) in Hp. rewrite blen_take, blen_app in Hp.
  destruct (decide (tl = [])) as [->|Ht]; [by left|right]. assert (blen tl ≠ 0) by (by intros ?%blen_0). len.
Qed.

(** A read that finds a record returns some of it. *)
Lemma read_some r rs got tl :
  log_bytes (r :: rs) = got ++ tl → (got = [] → tl = []) → (0 <? blen got) = true.
Proof.
  intros Hgot Hnil. apply Z.ltb_lt. destruct got as [|b got]; [|len]. rewrite Hnil, log_bytes_cons in Hgot by done.
  apply (f_equal blen) in Hgot. pose proof (rsize_min r). len.
Qed.

Lemma Segment_read_batch_hit dir s w rs1 r rs2 max :
  healthy w → seg_inv dir s w (rs1 ++ r :: rs2) →
  ∃ out s' w', Segment_read_batch (r_offset r) max (s, w) = (Ok out, (s', w')) ∧
    only_moved s' s w' w ∧ out `prefix_of` take_batch max 0 (r :: rs2) ∧ out ≠ [] ∧
    (prompt w → out = take_batch max 0 (r :: rs2)).
Proof.
  intros Hw Hinv. pose proof Hinv as [].
  assert (Hoff : r_offset r = sg_base_offset s + blen rs1)
    by (apply (si_consecutive (length rs1)); apply list_lookup_middle; done).
  apply Forall_app in si_typed as [_ Hty]. pose proof (Forall_inv Hty) as Hr.
  set (pos := blen (log_bytes rs1)). set (f := sg_log_file s).
  unfold Segment_read_batch. mret_step. cbn [fst].
  destruct (Z.ltb_spec (r_offset r) (sg_base_offset s)); [len|].
  destruct (Z.leb_spec (sg_next_offset s) (r_offset r)); [len|]. cbn [orb].
  erewrite bind_Ok by (unfold lift; erewrite seg_lookup by done; done). reduce. fold pos.
  erewrite bind_Ok by (by apply on_log_ok, seek_start_ok). fold f. fold (read_size max).
  assert (Hrest : ∀ w', same_fs w' w → rest_of (set_pos pos f, w') = log_bytes (r :: rs2)).
  { intros w' Hs. unfold pos. by erewrite seg_rest by done. }
  destruct (read_size_spec max) as [Hmax Hpos].
  destruct (read_ok (set_pos pos f) (pop_sched w)) with (n := read_size max)
    as (got & tl & Hread & Hgot & Hnil & _); [healthy|done|]. rewrite Hrest in Hgot by done.
  erewrite bind_Ok by (apply on_log_ok, Hread).
  destruct (split_complete _ _ _ Hgot) as (c1 & c2 & part & Hsp & Hbuf & Htorn).
  pose proof (consecutive_above _ _ _ si_consecutive) as Habove. rewrite <- Hoff in Habove.
  rewrite Hsp in Hty, Habove. apply Forall_app in Habove as [Habove _].
  assert (fst (scan_records (length got) (r_offset r) max [] 0 got) = Ok (take_batch max 0 c1)) as Hscan.
  { rewrite Hbuf at 2. rewrite (scan_records_ok _ _ _ [] c1 c2) by (done || by rewrite Hbuf). done. }
  erewrite bind_Ok by (unfold scoped; rewrite Hscan; done).
  assert (Hprompt : prompt w → tl = [] ∨ max ≤ blen got).
  { intros Hp%prompt_pop. eapply read_prompt_full; [exact Hp|exact Hread|by apply Hrest|exact Hgot|exact Hmax]. }
  assert (Hall : prompt w → (if decide (c1 = []) then [r] else take_batch max 0 c1)
                            = take_batch max 0 (r :: rs2)).
  { intros Hp. eapply take_batch_chunk; [done|by rewrite <- Hbuf|done|]. rewrite <- Hbuf. auto. }
  destruct c1 as [|r1 c1].
  - cbn [take_batch bool_decide] in *. cbn [app] in Hsp. rewrite bool_decide_eq_true_2 by done.
    rewrite (read_some _ _ _ _ Hgot Hnil). cbn [andb].
    destruct (read_first_ok (set_pos (pos + blen got) f) (pop_sched (pop_sched w)) pos r
      (log_bytes rs2) (r_offset r)) as (n & w' & Hfirst & Hpop);
      [healthy|apply blen_nonneg|done|lia|by rewrite set_pos_set_pos, Hrest|].
    erewrite on_log_ok by (apply Hfirst). eexists _, _, _. split; [reflexivity|].
    split; [split; [by exists n|rewrite Hpop; auto with world]|]. rewrite andb_false_r.
    split; [apply prefix_cons, prefix_nil|]. split; [done|]. intros Hp.
    specialize (Hall Hp). by rewrite andb_false_r in Hall.
  - cbn [app] in Hsp. injection Hsp as -> Hsp.
    assert (take_batch max 0 (r1 :: c1) ≠ []) as Hne by (cbn [take_batch]; by rewrite andb_false_r).
    rewrite bool_decide_eq_false_2 by done. cbn [andb]. eexists _, _, _. split; [reflexivity|].
    split; [split; [by eexists|auto with world]|]. split; [|split; [done|]].
    + rewrite Hsp. apply (take_batch_app max 0 (r1 :: c1) c2).
    + intros Hp. specialize (Hall Hp). by rewrite decide_False in Hall by done.
Qed.

Lemma Segment_read_batch_ok dir s w rs o max :
  healthy w → seg_inv dir s w rs →
  ∃ out s' w', Segment_read_batch o max (s, w) = (Ok out, (s', w')) ∧ only_moved s' s w' w ∧
    out `prefix_of` take_batch max 0 (records_from (sg_base_offset s) rs o) ∧
    (out = [] → records_from (sg_base_offset s) rs o = []) ∧
    (prompt w → out = take_batch max 0 (records_from (sg_base_offset s) rs o)).
Proof.
  intros Hw Hinv. pose proof Hinv as [].
  destruct (decide (sg_base_offset s ≤ o < sg_next_offset s)) as [Hin|Hout].
  - destruct (seg_split _ _ _ _ o Hinv Hin) as (rs1 & r & rs2 & -> & <- & Hl).
    rewrite records_from_eq by done.
    destruct (Segment_read_batch_hit _ _ _ _ _ _ max Hw Hinv) as (out & s' & w' & ? & ? & ? & ? & ?).
    exists out, s', w'. done.
  - assert (records_from (sg_base_offset s) rs o = []) as ->.
    { unfold records_from. case_decide; [|done]. apply drop_ge. unfold blen in *. lia. }
    exists [], s, w. unfold Segment_read_batch. mret_step. cbn [fst take_batch]. split; [|split; [|done]].
    + destruct (Z.ltb_spec o (sg_base_offset s)), (Z.leb_spec (sg_next_offset s) o); try done. lia.
    + split; [eexists; apply moved_self|done].
Qed.
End read.
