(* ===== verification/ZeroCopy.v ===== *)
(** * Memory-mapped reads (src/src/network/zero_copy.rs)

    `mmap_read_to_bytes` maps a range of a file and copies it. The mapping is the
    memmap2 crate's, a parameter: the operating system may refuse it, and a
    mapping inside the file shows the file's bytes. On the log of a segment it
    yields the stored record that `read_at` returns. *)
From S2P Require Import Prelude Errors BytesCrate FileSystem Index Record Segment SegmentInv SegmentRead.
#[local] Open Scope Z_scope.

(** `MmapOptions::new().offset(offset).len(len).map(file)` on a file with the
    given contents. *)
Class MmapOps : Type := { mmap_map : Z → Z → bytes → bytes + io_error }.

(** The offset need not be aligned; a range beyond the end of the file can be
    mapped but not read, so nothing is said of it. *)
Class MmapLaws `{!MmapOps} : Prop := {
  mmap_map_law offset len file m :
    0 ≤ offset → 0 < len → offset + len ≤ blen file → mmap_map offset len file = inl m →
    m = take (Z.to_nat len) (drop (Z.to_nat offset) file)
}.

Section mmap.
Context `{!MmapOps}.

Definition mmap_read_to_bytes (file : bytes) (offset len : Z) : bytes + io_error :=
  if len =? 0 then inl [] else mmap_map offset len file.
End mmap.

Section mmap_proofs.
Context `{BytesLaws, !MmapOps, !MmapLaws}.

Lemma mmap_read_range file offset len b :
  0 ≤ offset → 0 ≤ len → offset + len ≤ blen file → mmap_read_to_bytes file offset len = inl b →
  b = take (Z.to_nat len) (drop (Z.to_nat offset) file).
Proof.
  intros Ho Hl Hle. unfold mmap_read_to_bytes. case_Zbool.
  - intros [= <-]. by subst len.
  - intros Hm. apply mmap_map_law in Hm; [done|lia..].
Qed.

(** Mapping the range of an indexed record is another way to read it. *)
Lemma mmap_read_matches_read_at dir s w rs1 r rs2 file b :
  healthy w → seg_inv dir s w (rs1 ++ r :: rs2) → w_files w !! fl_path (sg_log_file s) = Some file →
  ∃ position, Index_lookup (sg_index s) (r_offset r) = Ok (Some position) ∧
    (mmap_read_to_bytes file position (rsize r) = inl b →
     fst (Record_decode b) = fst (Segment_read_at (r_offset r) (s, w))).
Proof.
  intros Hw Hinv Hfile. pose proof (seg_lookup _ _ _ _ _ _ Hinv) as Hlk. exists (blen (log_bytes rs1)). split; [exact Hlk|].
  destruct (Segment_read_at_hit _ _ _ _ _ _ Hw Hinv) as (s' & w' & -> & _). pose proof Hinv as [].
  rewrite si_log_path, si_log in Hfile. injection Hfile as <-. intros Hb.
  assert (Hr : record_typed r) by (apply Forall_app in si_typed as [_ [? _]%Forall_cons]; done).
  rewrite log_bytes_app, log_bytes_cons in Hb. pose proof (rsize_min r) as Hmin.
  apply mmap_read_range in Hb; [|apply blen_nonneg|lia|len; pose proof (blen_nonneg (log_bytes rs2)); lia].
  rewrite drop_blen_app, take_app_length' in Hb by (try done; pose proof (blen_record_bytes r); unfold blen in *; lia).
  subst b. pose proof (Record_decode_app r [] Hr) as Hd. rewrite app_nil_r in Hd. by rewrite Hd.
Qed.
End mmap_proofs.

(** An instance that runs: every range inside the file is mapped. *)
Module ListMmap.
#[export] Instance mmap_ops : MmapOps :=
  {| mmap_map offset len file :=
       if offset + len <=? blen file then inl (take (Z.to_nat len) (drop (Z.to_nat offset) file)) else inr InvalidInput |}.
#[export] Instance mmap_laws : MmapLaws.
Proof. split. intros offset len file m _ _ Hle. cbn. case_Zbool; [by intros [= <-]|lia]. Qed.
End ListMmap.
