(* ===== verification/SegmentWrite.v ===== *)
(** * Writing a segment (src/src/storage/segment.rs, `create`, `append`, `append_batch`)

    Appends keep the segment invariant and extend the stored records by exactly
    the new ones; what does not fit is refused before anything is written. *)
From S2P Require Import Prelude Errors BytesCrate StdText FileSystem BinarySearch Index Record Segment SegmentInv SegmentRead.
#[local] Open Scope Z_scope.

(** ** Steps on the log and the index *)
Lemma on_index_ok {A} (m : Res (Index * World) A) s w a ix w' :
  m (sg_index s, w) = (Ok a, (ix, w')) → on_index m (s, w) = (Ok a, (set_index ix s, w')).
Proof. intros Hm. unfold on_index. by erewrite zoom_Ok by (apply Hm). Qed.

Lemma sync_log_ok b s w :
  healthy w →
  ∃ w', when b (on_log sync_data) (s, w) = (Ok tt, (s, w')) ∧ same_fs w' w ∧ healthy w'.
Proof.
  intros Hw. destruct b; [|by exists w]. exists (pop_sched w).
  split; [|split; [done|healthy]]. cbn [when].
  erewrite on_log_ok by (by apply sync_data_ok). by destruct s.
Qed.

Lemma sync_index_ok b s w :
  healthy w →
  ∃ w', when b (on_index Index_sync) (s, w) = (Ok tt, (s, w')) ∧ same_fs w' w ∧ healthy w'.
Proof.
  intros Hw. destruct b; [|by exists w]. exists (pop_sched w).
  split; [|split; [done|healthy]]. cbn [when].
  assert (∀ ix, Index_sync (ix, w) = (Ok tt, (ix, pop_sched w))) as Hs.
  { intros []. unfold Index_sync, on_ix_file. by erewrite zoom_Ok by (by apply sync_data_ok). }
  erewrite on_index_ok by (apply Hs). by destruct s.
Qed.

(** An index operation that appends exactly the entries [es]. *)
Definition adds (m : Res (Index * World) unit) (es : list IndexEntry) : Prop :=
  ∀ ix w, healthy w → index_inv ix w →
  ∃ ix' w', m (ix, w) = (Ok tt, (ix', w')) ∧ index_inv ix' w' ∧ ix_path ix' = ix_path ix ∧
            ix_entries ix' = ix_entries ix ++ es ∧ healthy w' ∧ changes_only [ix_path ix] w' w.

Lemma adds_one o p :
  is_u64 o → is_u64 p → adds (Index_append o p) [{| ie_offset := o; ie_position := p |}].
Proof.
  intros Ho Hp ix w Hw Hinv. destruct (Index_append_ok ix w o p Hw Hinv Ho Hp) as [Heq Hinv'].
  eexists _, _. split; [exact Heq|]. split; [exact Hinv'|]. split; [done|]. split; [done|].
  split; [healthy|]. apply (changes_only_insert _ (pop_sched w)). left.
Qed.

Definition pair_of (e : IndexEntry) : Z * Z := (ie_offset e, ie_position e).

Lemma adds_entries es : Forall entry_typed es → adds (append_entries (pair_of <$> es)) es.
Proof.
  induction 1 as [|e es [Ho Hp] _ IH]; intros ix w Hw Hinv.
  - exists ix, w. rewrite app_nil_r. split_and!; done.
  - cbn [fmap list_fmap append_entries pair_of].
    destruct (adds_one _ _ Ho Hp ix w Hw Hinv) as (ix1 & w1 & H1 & Hinv1 & Hp1 & He1 & Hh1 & Hc1).
    destruct (IH ix1 w1 Hh1 Hinv1) as (ix2 & w2 & H2 & Hinv2 & Hp2 & He2 & Hh2 & Hc2).
    exists ix2, w2. mstep H1. split; [done|]. split; [done|]. split; [congruence|].
    rewrite He2, He1, <- (assoc_L (++)). split; [by destruct e|]. split; [done|].
    rewrite Hp1 in Hc2. by eapply changes_only_trans.
Qed.

Lemma changes_only_sub ps qs w' w :
  (∀ p, p ∈ ps → p ∈ qs) → changes_only ps w' w → changes_only qs w' w.
Proof. intros Hsub (Hf & Hrest). split; [|done]. intros p Hp. apply Hf. auto. Qed.

(** What stays the same about a segment. *)
Definition same_config (s' s : Segment) : Prop :=
  sg_base_offset s' = sg_base_offset s ∧ sg_max_bytes s' = sg_max_bytes s ∧
  sg_sync_level s' = sg_sync_level s.

#[export] Instance same_config_equiv : Equivalence same_config.
Proof.
  unfold same_config. split.
  - done.
  - by intros ?? (-> & -> & ->).
  - by intros ??? (-> & -> & ->) (-> & -> & ->).
Qed.

Lemma seg_paths_config dir s' s : same_config s' s → seg_paths dir s' = seg_paths dir s.
Proof. intros (Hb & _). unfold seg_paths. by rewrite Hb. Qed.

(** A segment that holds the records [rs] and can be appended to, after a
    change of the files it owns. *)
Record extended (dir : path) (s' s : Segment) (w' w : World) (rs : list LogRecord) : Prop := {
  ex_inv : seg_inv dir s' w' rs;
  ex_writable : writable s' w';
  ex_healthy : healthy w';
  ex_config : same_config s' s;
  ex_changes : changes_only (seg_paths dir s) w' w;
  ex_append : fl_append (sg_log_file s') = fl_append (sg_log_file s)
}.

(** The new records' place in the log. *)
Record fits (s : Segment) (rs new : list LogRecord) : Prop := {
  ft_consecutive : consecutive (sg_base_offset s) (rs ++ new);
  ft_typed : Forall record_typed new;
  ft_offsets : sg_base_offset s + blen (rs ++ new) < 2 ^ 64;
  ft_small : blen (log_bytes (rs ++ new)) ≤ 2 ^ 63
}.

(** What `append` and `append_batch` do after the write to the log: sync if
    configured, append the index entries, sync if configured. *)
Lemma indexing_ok s w idx es b1 b2 :
  healthy w → index_inv (sg_index s) w → adds idx es →
  ∃ ix w',
    (∀ A (k : SegIO A),
      (_ ← when b1 (on_log sync_data); _ ← on_index idx; _ ← when b2 (on_index Index_sync); k) (s, w)
      = k (set_index ix s, w')) ∧
    index_inv ix w' ∧ ix_path ix = ix_path (sg_index s) ∧
    ix_entries ix = ix_entries (sg_index s) ++ es ∧ healthy w' ∧
    changes_only [ix_path (sg_index s)] w' w.
Proof.
  intros Hw Hix Hadds. destruct (sync_log_ok b1 s w Hw) as (w2 & Hs2 & Hsame2 & Hh2).
  assert (Hix2 : index_inv (sg_index s) w2)
    by (eapply index_inv_frame; [|exact Hix]; by destruct Hsame2 as (-> & _)).
  destruct (Hadds _ w2 Hh2 Hix2) as (ix & w3 & Hs3 & Hinv3 & Hp3 & He3 & Hh3 & Hc3).
  destruct (sync_index_ok b2 (set_index ix s) w3) as (w4 & Hs4 & Hsame4 & Hh4); [done|].
  exists ix, w4. split.
  { intros A k. mstep Hs2. erewrite bind_Ok by (apply on_index_ok, Hs3). by mstep Hs4. }
  split; [eapply index_inv_frame; [|exact Hinv3]; by destruct Hsame4 as (-> & _)|].
  split; [done|]. split; [done|]. split; [done|].
  eapply changes_only_trans; [exact (changes_only_same _ _ _ Hsame4)|].
  eapply changes_only_trans; [exact Hc3|exact (changes_only_same _ _ _ Hsame2)].
Qed.

(** The body shared by `append` and `append_batch`: write the encoded records,
    then the index. *)
Lemma store_ok dir s w rs new idx b1 b2 :
  healthy w → seg_inv dir s w rs → writable s w → fits s rs new →
  adds idx (entries_from (sg_current_size s) new) →
  ∃ s1 w1,
    (∀ A (k : SegIO A),
      (_ ← on_log (write_all (log_bytes new)); _ ← when b1 (on_log sync_data);
       _ ← on_index idx; _ ← when b2 (on_index Index_sync); k) (s, w) = k (s1, w1)) ∧
    sg_current_size s1 = sg_current_size s ∧ sg_next_offset s1 = sg_next_offset s ∧
    extended dir (set_end (blen (log_bytes (rs ++ new))) (sg_base_offset s + blen (rs ++ new)) s1)
      s w1 w (rs ++ new).
Proof.
  intros Hw Hinv Hend Hfit Hadds. pose proof Hinv as []. destruct Hfit.
  set (f := sg_log_file s) in *. set (lp := log_path dir (sg_base_offset s)) in *.
  assert (Hc : file_contents (f, w) = log_bytes rs)
    by (apply file_contents_lookup; by rewrite si_log_path).
  pose proof (write_all_ok f w Hw (log_bytes new) Hend) as Hwr.
  rewrite Hc, si_log_path, <- log_bytes_app in Hwr.
  set (f1 := set_pos _ f) in Hwr. set (w1 := set_files _ _) in Hwr.
  set (s1 := set_log_file f1 s).
  destruct (indexing_ok s1 w1 idx (entries_from (sg_current_size s) new) b1 b2) as (ix3 & w4 & Hs3 & Hinv3 & Hp3 & He3 & Hh4 & Hc3);
    [healthy| |exact Hadds|].
  { eapply index_inv_frame; [|exact si_index]. cbn [s1 set_log_file sg_index]. rewrite si_index_path.
    apply lookup_insert_ne. apply log_index_ne. }
  cbn [s1 set_log_file sg_index] in Hp3, He3, Hc3. rewrite si_index_path in Hc3.
  exists (set_index ix3 s1), w4. split.
  { intros A k. erewrite bind_Ok by (apply on_log_ok, Hwr). fold s1. apply Hs3. }
  split; [done|]. split; [done|].
  assert (Hc4 : changes_only (seg_paths dir s) w4 w).
  { eapply changes_only_trans; [eapply changes_only_sub; [|exact Hc3]|].
    - intros p ->%list_elem_of_singleton. apply seg_paths_index.
    - apply (changes_only_insert _ (pop_sched w)), seg_paths_log. }
  assert (Hlog : w_files w4 !! lp = Some (log_bytes (rs ++ new))).
  { destruct Hc3 as (-> & _); [apply lookup_insert_eq|].
    rewrite list_elem_of_singleton. apply log_index_ne. }
  split; [|unfold writable|done|done|done|done].
  - split; [exact si_log_path|exact (eq_trans Hp3 si_index_path)|exact Hlog|exact Hinv3|
      |exact ft_consecutive0| |reflexivity|reflexivity|exact si_base|exact ft_offsets0
      |exact ft_small0|exact si_max].
    + cbn [set_end set_index sg_index]. by rewrite He3, si_entries, si_size, entries_from_app.
    + by apply Forall_app.
  - eapply (at_end_intro _ _ (log_bytes (rs ++ new))).
    + cbn. by rewrite si_log_path.
    + right. cbn. rewrite log_bytes_app. by rewrite blen_app.
Qed.

Section write.
Context `{BytesLaws}.

Lemma now_ms_ok {S} (x : S) w :
  ∃ ts, in_world now_ms (x, w) = (Ok ts, (x, pop_clock w)) ∧ is_u64 ts.
Proof. eexists. split; [reflexivity|]. by apply wrap_uint. Qed.

Lemma built_record r : record_typed r → built (Record_encode r) = log_bytes [r].
Proof.
  intros (_ & _ & Hs). unfold built. rewrite (Record_encode_eq r [] Hs). cbn [snd app].
  by rewrite log_bytes_singleton.
Qed.

(** ** `append` *)

(** What `append` answers, before any write. *)
Definition append_check (s : Segment) (len : Z) : option RukaError :=
  if sg_max_bytes s <? len then Some MessageTooLarge else
  if (sg_max_bytes s <? sg_current_size s + len) && (0 <? sg_current_size s)
  then Some (SegmentFull (sg_current_size s) (sg_max_bytes s)) else None.

Lemma append_check_none s len :
  append_check s len = None → len ≤ sg_max_bytes s ∧
    (sg_current_size s + len ≤ sg_max_bytes s ∨ sg_current_size s ≤ 0).
Proof.
  unfold append_check. destruct (Z.ltb_spec (sg_max_bytes s) len); [done|].
  destruct (Z.ltb_spec (sg_max_bytes s) (sg_current_size s + len)),
    (Z.ltb_spec 0 (sg_current_size s)); cbn [andb]; try done; intros _; lia.
Qed.

(** The record `append` stores. *)
Definition new_record (s : Segment) (ts : Z) (key value : option bytes) : LogRecord :=
  {| r_offset := sg_next_offset s; r_timestamp_ms := ts; r_key := key; r_value := value |}.

Lemma new_record_typed dir s w rs ts key value :
  seg_inv dir s w rs → is_u64 ts → storable key value → record_typed (new_record s ts key value).
Proof. intros [] Hts Hs. split_and!; [|done|done]. unfold is_uint. cbn. len. Qed.

(** An append that passes the checks goes on to write its record. *)
Lemma append_stores dir s w rs key value :
  seg_inv dir s w rs → storable key value → sg_next_offset s + 1 < 2 ^ 64 →
  append_check s (record_len key value) = None →
  ∃ ts, let r := new_record s ts key value in
    record_typed r ∧ blen (log_bytes [r]) = record_len key value ∧
    Segment_append key value (s, w) =
      (_ ← on_log (write_all (log_bytes [r]));
       _ ← when (syncs_log (sg_sync_level s)) (on_log sync_data);
       _ ← on_index (Index_append (sg_next_offset s) (sg_current_size s));
       _ ← when (syncs_index (sg_sync_level s)) (on_index Index_sync);
       _ ← modify (λ t, (set_end (add_u64 (sg_current_size (fst t)) (blen (log_bytes [r])))
                                 (add_u64 (sg_next_offset (fst t)) 1) (fst t), snd t));
       mret (sg_next_offset s)) (s, pop_clock w).
Proof.
  intros Hinv Hs Hroom Hchk. pose proof Hinv as []. pose proof (record_len_min key value).
  unfold storable in Hs. set (n := record_len key value) in *.
  assert (Hsum : add_u64 (sg_current_size s) n = sg_current_size s + n) by (apply add_u64_id; len).
  destruct (now_ms_ok s w) as (ts & Hts & Hts64). exists ts. cbn zeta.
  set (r := new_record s ts key value).
  assert (Hr : record_typed r) by (by eapply new_record_typed).
  split; [exact Hr|]. split; [rewrite log_bytes_singleton; apply blen_record_bytes|].
  unfold Segment_append. mret_step. cbn [fst]. fold n. rewrite Hsum. unfold append_check in Hchk.
  destruct (_ <? _); [done|]. destruct (_ && _); [done|]. mstep Hts.
  change {| r_offset := _; r_timestamp_ms := _; r_key := _; r_value := _ |} with r.
  by rewrite built_record by done.
Qed.

Lemma Segment_append_ok dir s w rs key value :
  healthy w → seg_inv dir s w rs → writable s w → storable key value →
  sg_next_offset s + 1 < 2 ^ 64 →
  match append_check s (record_len key value) with
  | Some e => Segment_append key value (s, w) = (Err e, (s, w))
  | None => ∃ s' w' ts,
      Segment_append key value (s, w) = (Ok (sg_next_offset s), (s', w')) ∧
      extended dir s' s w' w (rs ++ [new_record s ts key value])
  end.
Proof.
  intros Hw Hinv Hend Hs Hroom. pose proof Hinv as []. pose proof (record_len_min key value).
  assert (Hs' := Hs). unfold storable in Hs'. set (n := record_len key value) in *.
  assert (Hsum : add_u64 (sg_current_size s) n = sg_current_size s + n) by (apply add_u64_id; len).
  destruct (append_check s n) as [e|] eqn:Hchk.
  { unfold Segment_append. mret_step. cbn [fst]. fold n. rewrite Hsum. unfold append_check in Hchk.
    destruct (_ <? _); [by injection Hchk as <-|]. by destruct (_ && _); [injection Hchk as <-|]. }
  pose proof (append_check_none s n Hchk) as [Hmax Hfit].
  destruct (append_stores dir s w rs key value Hinv Hs Hroom Hchk) as (ts & Hr & Hlen & ->).
  set (r := new_record s ts key value) in *. fold n in Hlen.
  destruct (store_ok dir s (pop_clock w) rs [r] (Index_append (sg_next_offset s) (sg_current_size s))
    (syncs_log (sg_sync_level s)) (syncs_index (sg_sync_level s))) as (s1 & w1 & Hk & Hsz & Hnx & Hext).
  - healthy.
  - eapply seg_inv_same; [|done]. done.
  - done.
  - split; [|by apply Forall_singleton|len|rewrite log_bytes_app, blen_app, Hlen; len].
    apply consecutive_app. split; [done|]. apply consecutive_singleton. by rewrite <- si_next.
  - apply adds_one; unfold is_uint; len.
  - rewrite Hk. mret_step. rewrite run_ret. cbn [fst snd]. eexists _, w1, ts. split; [reflexivity|].
    rewrite Hsz, Hnx, Hlen, Hsum, add_u64_id by len.
    rewrite log_bytes_app, blen_app, Hlen, <- si_size in Hext.
    rewrite blen_app, Z.add_assoc, <- si_next in Hext. destruct Hext. split; done.
Qed.

(** ** `append_batch` *)
Definition psize (p : bytes) : Z := record_len None (Some p).

(** The payloads the loop takes before it stops, or the error it ends with. *)
Fixpoint batch_plan (max size pos : Z) (some : bool) (ps : list bytes) : list bytes + RukaError :=
  match ps with
  | [] => inl []
  | p :: ps' =>
      if max <? psize p then inr MessageTooLarge else
      if max <? pos + psize p then (if some then inl [] else inr (SegmentFull size max)) else
      match batch_plan max size (pos + psize p) true ps' with
      | inl taken => inl (p :: taken)
      | inr e => inr e
      end
  end.

(** The records of a batch: consecutive offsets, one timestamp, no key. *)
Fixpoint stamped (offset ts : Z) (ps : list bytes) : list LogRecord :=
  match ps with
  | [] => []
  | p :: ps' => {| r_offset := offset; r_timestamp_ms := ts; r_key := None; r_value := Some p |}
                :: stamped (offset + 1) ts ps'
  end.

Lemma length_stamped o ts ps : length (stamped o ts ps) = length ps.
Proof. revert o. induction ps; intros o; simpl; auto. Qed.
Lemma blen_stamped o ts ps : blen (stamped o ts ps) = blen ps.
Proof. unfold blen. by rewrite length_stamped. Qed.

Lemma stamped_consecutive o ts ps : consecutive o (stamped o ts ps).
Proof.
  revert o. induction ps as [|p ps IH]; intros o i r Hi; [done|].
  destruct i as [|i]; [injection Hi as <-; cbn; lia|]. rewrite (IH _ _ _ Hi). lia.
Qed.

Lemma stamped_values o ts ps : r_value <$> stamped o ts ps = Some <$> ps.
Proof. revert o. induction ps as [|p ps IH]; intros o; [done|]. cbn. by rewrite IH. Qed.

Definition small_payload (p : bytes) : Prop := psize p < 2 ^ 32.

Lemma stamped_typed o ts ps :
  0 ≤ o → o + blen ps < 2 ^ 64 → is_u64 ts → Forall small_payload ps →
  Forall record_typed (stamped o ts ps).
Proof.
  intros Ho Hn Hts Hps. revert o Ho Hn. induction Hps as [|p ps Hp _ IH]; intros o Ho Hn; [constructor|].
  constructor; [split_and!; [unfold is_uint; cbn; len|done|done]|]. apply IH; len.
Qed.

Lemma batch_plan_prefix max size pos b ps taken :
  batch_plan max size pos b ps = inl taken →
  taken `prefix_of` ps ∧ (b = false → ps ≠ [] → taken ≠ []).
Proof.
  revert pos b taken. induction ps as [|p ps IH]; intros pos b taken; cbn [batch_plan].
  { intros [= <-]. done. }
  destruct (_ <? _); [done|]. destruct (_ <? _).
  { destruct b; [intros [= <-]; split; [apply prefix_nil|done]|done]. }
  destruct (batch_plan _ _ _ _ _) as [t|] eqn:Hb; [|done]. intros [= <-].
  destruct (IH _ _ _ Hb) as [? _]. split; [by apply prefix_cons|done].
Qed.

(** The taken records end below the limit. *)
Lemma batch_plan_size max size pos b ps taken o ts :
  batch_plan max size pos b ps = inl taken → pos ≤ max →
  pos + blen (log_bytes (stamped o ts taken)) ≤ max.
Proof.
  revert pos b taken o. induction ps as [|p ps IH]; intros pos b taken o; cbn [batch_plan].
  { intros [= <-] ?. cbn [stamped]. len. }
  destruct (_ <? _); [done|]. destruct (Z.ltb_spec max (pos + psize p)).
  { destruct b; [intros [= <-] ?; cbn [stamped]; len|done]. }
  destruct (batch_plan _ _ _ _ _) as [t|] eqn:Hb; [|done]. intros [= <-] _.
  specialize (IH _ _ _ (o + 1) Hb ltac:(lia)). cbn [stamped]. rewrite log_bytes_cons, blen_app.
  rewrite blen_record_bytes. unfold rsize. cbn [r_key r_value]. fold (psize p). lia.
Qed.

Lemma batch_build_eq s ts ps buf es pos off count :
  sg_max_bytes s ≤ 2 ^ 63 → 0 ≤ pos ≤ 2 ^ 63 → 0 ≤ off → off + blen ps < 2 ^ 64 → 0 ≤ count →
  is_u64 ts → Forall small_payload ps →
  batch_build s ts ps buf es pos off count =
  match batch_plan (sg_max_bytes s) (sg_current_size s) pos (0 <? count) ps with
  | inl taken => Ok (buf ++ log_bytes (stamped off ts taken),
                     es ++ (pair_of <$> entries_from pos (stamped off ts taken)),
                     off + blen taken, count + blen taken)
  | inr e => Err e
  end.
Proof.
  intros Hmax Hpos Hoff Hn Hc Hts Hps. revert buf es pos off count Hpos Hoff Hn Hc.
  induction Hps as [|p ps Hp _ IH]; intros buf es pos off count Hpos Hoff Hn Hc;
    cbn [batch_build batch_plan].
  { cbn. change (log_bytes []) with (@nil byte). by rewrite !app_nil_r, !Z.add_0_r. }
  unfold small_payload in Hp. pose proof (record_len_min None (Some p)). fold (psize p) in *.
  assert (28 + blen p = psize p) as Hsz by (unfold psize, record_len; cbn; lia).
  rewrite (add_u64_id 28) by lia. rewrite Hsz, (add_u64_id pos (psize p)) by lia.
  destruct (_ <? _); [done|]. destruct (Z.ltb_spec (sg_max_bytes s) (pos + psize p)).
  { destruct (0 <? count); [|done]. cbn. change (log_bytes []) with (@nil byte).
    by rewrite !app_nil_r, !Z.add_0_r. }
  set (r := {| r_offset := off; r_timestamp_ms := ts; r_key := None; r_value := Some p |}).
  rewrite (Record_encode_eq r buf Hp). cbn [snd].
  assert (blen (buf ++ record_bytes r) - blen buf = psize p) as ->
    by (rewrite blen_app, blen_record_bytes; unfold rsize; cbn [r r_key r_value]; fold (psize p); lia).
  rewrite !add_u64_id by len. rewrite IH by len.
  assert ((0 <? count + 1) = true) as -> by (apply Z.ltb_lt; lia).
  destruct (batch_plan _ _ _ _ _) as [taken|e]; [|done].
  cbn [stamped]. fold r. rewrite log_bytes_cons. cbn [entries_from fmap list_fmap].
  change (rsize r) with (psize p). rewrite <- !(assoc_L (++)), !blen_cons. cbn [app].
  do 2 f_equal; [|lia]. f_equal. lia.
Qed.

Lemma Segment_append_batch_ok dir s w rs ps :
  healthy w → seg_inv dir s w rs → writable s w → sg_current_size s ≤ sg_max_bytes s →
  Forall small_payload ps → ps ≠ [] → sg_next_offset s + blen ps < 2 ^ 64 →
  match batch_plan (sg_max_bytes s) (sg_current_size s) (sg_current_size s) false ps with
  | inr e => Segment_append_batch ps (s, w) = (Err e, (s, pop_clock w))
  | inl taken => ∃ s' w' ts,
      Segment_append_batch ps (s, w) = (Ok (sg_next_offset s, blen taken), (s', w')) ∧
      extended dir s' s w' w (rs ++ stamped (sg_next_offset s) ts taken)
  end.
Proof.
  intros Hw Hinv Hend Hsize Hps Hne Hroom. pose proof Hinv as [].
  unfold Segment_append_batch. mret_step. cbn [fst]. rewrite bool_decide_eq_false_2 by done.
  destruct (now_ms_ok s w) as (ts & Hts & Hts64). mstep Hts.
  unfold lift at 1. rewrite batch_build_eq by (done || len). cbn [Z.ltb Z.compare].
  destruct (batch_plan _ _ _ _ _) as [taken|e] eqn:Hplan; [|done].
  destruct (batch_plan_prefix _ _ _ _ _ _ Hplan) as [[rest Hrest] Htaken].
  specialize (Htaken eq_refl Hne). set (new := stamped (sg_next_offset s) ts taken).
  pose proof (batch_plan_size _ _ _ _ _ _ (sg_next_offset s) ts Hplan Hsize) as Hbound. fold new in Hbound.
  rewrite Hrest in Hps, Hroom. apply Forall_app in Hps as [Hps _].
  mret_step. cbn [app]. assert (Hdata : log_bytes new ≠ []).
  { unfold new. destruct taken as [|p taken]; [done|]. cbn [stamped]. rewrite log_bytes_cons.
    intros Heq%(f_equal blen). pose proof (blen_record_bytes {| r_offset := sg_next_offset s;
      r_timestamp_ms := ts; r_key := None; r_value := Some p |}). pose proof (record_len_min None (Some p)).
    unfold rsize in *. cbn [r_key r_value] in *. len. }
  rewrite bool_decide_eq_false_2 by done. cbn [negb when].
  assert (Hnew : blen new = blen taken) by apply blen_stamped.
  destruct (store_ok dir s (pop_clock w) rs new
    (append_entries (pair_of <$> entries_from (sg_current_size s) new))
    (syncs_log (sg_sync_level s)) (syncs_index (sg_sync_level s))) as (s1 & w1 & Hk & Hsz & Hnx & Hext).
  - healthy.
  - eapply seg_inv_same; [|done]. done.
  - done.
  - split; [|apply stamped_typed; done || len|len|rewrite log_bytes_app; len].
    apply consecutive_app. split; [done|]. rewrite <- si_next. apply stamped_consecutive.
  - apply adds_entries. apply (entries_typed (sg_next_offset s)); [apply stamped_consecutive|len..].
  - erewrite bind_Ok by (rewrite Hk; reflexivity). rewrite run_ret. cbn [fst snd].
    eexists _, w1, ts. split; [reflexivity|]. fold new.
    rewrite log_bytes_app, blen_app, <- si_size in Hext.
    rewrite blen_app, Hnew, Z.add_assoc, <- si_next in Hext.
    rewrite Hsz, add_u64_id by len. destruct Hext. split; done.
Qed.

(** ** `create` and `flush` *)

(** The directory can hold the segment's files: it exists or can be made, and
    neither name is a directory. *)
Definition usable_dir (dir : path) (w : World) : Prop :=
  Forall (λ q, w_files w !! q = None) (prefixes dir).
Definition free_names (dir : path) (base : Z) (w : World) : Prop :=
  (log_path dir base ∉ w_dirs w) ∧ (index_path dir base ∉ w_dirs w) ∧
  w_files w !! log_path dir base = None.

Lemma prefixes_self p : p ∈ prefixes p.
Proof. induction p as [|c p IH]; [left|]. right. by apply list_elem_of_fmap_2. Qed.

Lemma create_dir_all_ok p w :
  healthy w → usable_dir p w →
  create_dir_all p w = (Ok tt, set_dirs (list_to_set (prefixes p) ∪ w_dirs w) (pop_sched w)).
Proof.
  intros Hw Hu. unfold create_dir_all. destruct (syscall_ok w Hw) as (ev & He & _). mstep He.
  mret_step. destruct (existsb _ _) eqn:Hex; [|done].
  apply existsb_exists in Hex as (q & Hq%list_elem_of_In & Hs%bool_decide_eq_true).
  unfold usable_dir in Hu. rewrite Forall_forall in Hu. cbn in Hs. rewrite (Hu q Hq) in Hs. by destruct Hs.
Qed.

Lemma parent_snoc dir c : parent (dir ++ [c]) = dir.
Proof.
  unfold parent. rewrite length_app. cbn [length]. rewrite Nat.add_sub. apply take_app_length.
Qed.
Lemma parent_log dir n : parent (log_path dir n) = dir.
Proof. rewrite log_path_eq. apply parent_snoc. Qed.
Lemma parent_index dir n : parent (index_path dir n) = dir.
Proof. rewrite index_path_eq. apply parent_snoc. Qed.

(** An open segment: it holds [rs] and the next write goes to the end. *)
Definition open_seg (dir : path) (s : Segment) (w : World) (rs : list LogRecord) : Prop :=
  seg_inv dir s w rs ∧ writable s w.

(** A path that is not a proper part of a path ending in a segment file. *)
Lemma path_not_prefix dir c : dir ++ [c] ∉ prefixes dir.
Proof.
  induction dir as [|d dir IH]; cbn [prefixes app].
  - by intros ?%list_elem_of_singleton.
  - intros [?|Hin]%elem_of_cons; [done|]. apply list_elem_of_fmap in Hin as (q & [= <-] & Hq). done.
Qed.

Lemma Segment_create_ok dir base max lvl w :
  healthy w → usable_dir dir w → free_names dir base w → 0 ≤ base < 2 ^ 64 → max ≤ 2 ^ 63 →
  ∃ s w', Segment_create dir base max lvl w = (Ok s, w') ∧
    open_seg dir s w' [] ∧ healthy w' ∧
    sg_base_offset s = base ∧ sg_max_bytes s = max ∧ sg_sync_level s = lvl ∧
    fl_append (sg_log_file s) = true ∧
    (∀ p, p ∉ seg_paths dir s → w_files w' !! p = w_files w !! p) ∧
    w_dirs w' = list_to_set (prefixes dir) ∪ w_dirs w ∧ w_dir_order w' = w_dir_order w.
Proof.
  intros Hw Hu (Hd1 & Hd2 & Hnone) Hb Hm. unfold Segment_create.
  mstep create_dir_all_ok; [|done..]. set (w1 := set_dirs _ _).
  assert (Hdir : dir ∈ w_dirs w1) by (cbn; apply elem_of_union_l, elem_of_list_to_set, prefixes_self).
  assert (Hnd : ∀ c, dir ++ [c] ∉ w_dirs w → dir ++ [c] ∉ w_dirs w1).
  { intros c Hc. cbn. rewrite elem_of_union, elem_of_list_to_set. intros [?|?]; [|done].
    by eapply path_not_prefix. }
  mstep open_create; [|healthy|exact Hnone| |reflexivity|].
  2: { rewrite log_path_eq in Hd1 |- *. apply Hnd, Hd1. }
  2: { rewrite parent_log. exact Hdir. }
  set (w2 := set_files _ _). cbn [oo_append].
  destruct (Index_create_ok (index_path dir base) w2) as (ix & Hc & Hp & He & Hi);
    [healthy|rewrite index_path_eq in Hd2 |- *; apply Hnd, Hd2|rewrite parent_index; exact Hdir|].
  mstep Hc. rewrite run_ret. set (w3 := set_files (<[index_path dir base:=[]]> _) _) in *. eexists _, w3. split; [reflexivity|].
  assert (Hlog : w_files w3 !! log_path dir base = Some []).
  { cbn. rewrite lookup_insert_ne by (by intros ?%eq_sym%log_index_ne). apply lookup_insert_eq. }
  split; [split|].
  - split; [reflexivity|exact Hp|exact Hlog|exact Hi|exact He|apply consecutive_nil|constructor
      |reflexivity|cbn [sg_base_offset sg_next_offset]; len..|exact Hm].
  - eapply at_end_intro; [exact Hlog|]. by left.
  - split; [healthy|]. do 4 (split; [done|]). split; [|done]. intros p Hp'. cbn.
    rewrite !lookup_insert_ne; [done|..]; intros <-; apply Hp'; [left|right; left].
Qed.
End write.
