(* ===== verification/SegmentLoad.v ===== *)
(** * Loading a segment (src/src/storage/segment.rs, `load`)

    Recovery after a restart: the log may end in a torn or invalid record and
    the index may be missing, misaligned or empty. `load` keeps exactly the
    complete records, cuts the rest of the file off, rebuilds the index when it
    has to, and leaves a segment that satisfies the invariant. *)
From S2P Require Import Prelude Errors BytesCrate StdText FileSystem BinarySearch Index Record Segment SegmentInv SegmentRead SegmentWrite.
#[local] Open Scope Z_scope.

Section load.
Context `{BytesLaws}.

(** Bytes at which the recovery loop stops: nothing complete or an invalid length. *)
Definition stops (junk : bytes) : Prop :=
  match fst (Record_decode junk) with Ok None | Err _ => True | _ => False end.

Lemma stops_nil : stops [].
Proof. unfold stops, Record_decode. mret_step. done. Qed.

Lemma stops_torn rs part : Forall record_typed rs → torn rs part → stops part.
Proof.
  destruct rs as [|r rs]; cbn [torn].
  - intros _ ->. apply stops_nil.
  - intros [Hr _]%Forall_cons (q & Hq & Hne). unfold stops. by erewrite Record_decode_prefix.
Qed.

(** ** The recovery loop *)
Lemma load_loop_stop fuel b junk off valid st :
  stops junk → load_loop fuel b junk off valid st = (Ok (off, valid), st).
Proof.
  unfold stops. intros Hs. destruct fuel; cbn [load_loop];
    destruct (Record_decode junk) as [[[]|e| |] ?]; done.
Qed.

Lemma load_loop_ok fuel b rs junk off valid ix w :
  Forall record_typed rs → consecutive off rs → stops junk →
  (length (log_bytes rs ++ junk) ≤ fuel)%nat →
  0 ≤ off → off + blen rs < 2 ^ 64 → 0 ≤ valid → valid + blen (log_bytes rs) < 2 ^ 64 →
  healthy w → index_inv ix w →
  ∃ ix' w', load_loop fuel b (log_bytes rs ++ junk) off valid (ix, w) =
      (Ok (off + blen rs, valid + blen (log_bytes rs)), (ix', w')) ∧
    index_inv ix' w' ∧ ix_path ix' = ix_path ix ∧
    ix_entries ix' = ix_entries ix ++ (if b then entries_from valid rs else []) ∧
    healthy w' ∧ changes_only [ix_path ix] w' w.
Proof.
  revert fuel off valid ix w. induction rs as [|r rs IH];
    intros fuel off valid ix w Hty Hc Hstop Hf Ho Hn Hv Hb Hw Hinv.
  { exists ix, w. cbn [app]. change (log_bytes [] ++ junk) with junk.
    rewrite load_loop_stop by done. rewrite blen_log_nil, blen_nil, !Z.add_0_r.
    destruct b; cbn [entries_from]; rewrite app_nil_r; split_and!; done. }
  apply Forall_cons in Hty as [Hr Hty]. rewrite log_bytes_cons, <- (assoc_L (++)) in *.
  pose proof (rsize_min r). rewrite blen_app, blen_record_bytes, blen_cons in *.
  assert (r_offset r = off) as Hoff by (rewrite (Hc 0%nat r eq_refl); lia).
  assert (length (record_bytes r) = Z.to_nat (rsize r)) as Hnat
    by (rewrite <- blen_record_bytes; unfold blen; lia).
  rewrite length_app in Hf. destruct fuel as [|fuel]; [lia|].
  cbn [load_loop]. rewrite Record_decode_app by done. reduce.
  rewrite !blen_app, blen_record_bytes, Hoff, add_u64_id by len.
  replace (rsize r + (blen (log_bytes rs) + blen junk) - (blen (log_bytes rs) + blen junk))
    with (rsize r) by lia.
  assert (∃ ix1 w1, when b (Index_append off valid) (ix, w) = (Ok tt, (ix1, w1)) ∧
    index_inv ix1 w1 ∧ ix_path ix1 = ix_path ix ∧
    ix_entries ix1 = ix_entries ix ++ (if b then [{| ie_offset := off; ie_position := valid |}] else []) ∧
    healthy w1 ∧ changes_only [ix_path ix] w1 w) as (ix1 & w1 & Hrun1 & Hi1 & Hp1 & He1 & Hh1 & Hc1).
  { destruct b; cbn [when].
    - apply adds_one; [unfold is_uint; len..|done|done].
    - exists ix, w. rewrite app_nil_r. split_and!; done. }
  mstep Hrun1. destruct (IH fuel (off + 1) (valid + rsize r) ix1 w1)
    as (ix2 & w2 & Hrun2 & Hi2 & Hp2 & He2 & Hh2 & Hc2); try done; [|len..|].
  { intros i r' Hi. rewrite (Hc (S i) r' Hi). lia. }
  exists ix2, w2. rewrite Hrun2. split; [by rewrite !Z.add_assoc|]. split; [done|].
  split; [congruence|]. split.
  - rewrite He2, He1, <- (assoc_L (++)). f_equal. destruct b; [|done].
    cbn [entries_from app]. by rewrite Hoff.
  - split; [done|]. rewrite Hp1 in Hc2. by eapply changes_only_trans.
Qed.

(** ** The index file at start-up *)

(** What a crash can leave of the index of a segment that holds [rs]. *)
Definition index_state (p : path) (rs : list LogRecord) (w : World) : Prop :=
  match w_files w !! p with
  | None => True
  | Some d => d = index_bytes (entries_from 0 rs) ∨ d = [] ∨ blen d mod INDEX_ENTRY_SIZE ≠ 0
  end.

Definition index_open (p : path) : Res World Index :=
  loaded ← attempt (Index_load p);
  match loaded with inl idx => mret idx | inr _ => Index_create p end.

Lemma Index_load_entries p es w :
  healthy w → w_files w !! p = Some (index_bytes es) → Forall entry_typed es →
  ∃ ix w', Index_load p w = (Ok ix, w') ∧ ix_path ix = p ∧ ix_entries ix = es ∧
           index_inv ix w' ∧ healthy w' ∧ same_fs w' w.
Proof.
  intros Hw Hp Hes.
  set (f := {| fl_path := p; fl_pos := blen (index_bytes es); fl_append := false |}).
  apply (Index_load_ok {| ix_path := p; ix_file := f; ix_entries := es |}); [done|].
  split_and!; [done|done| |done]. eapply at_end_intro; [exact Hp|]. by right.
Qed.

Lemma Index_load_misaligned p d w :
  healthy w → w_files w !! p = Some d → blen d mod INDEX_ENTRY_SIZE ≠ 0 →
  ∃ e, Index_load p w = (Err e, pop_sched (pop_sched w)).
Proof.
  intros Hw Hp Hd. unfold Index_load. mstep open_existing; [|done..].
  eexists. erewrite bind_Err; [done|]. unfold with_local, load_file.
  mstep metadata_len_ok; [|healthy]. rewrite (file_contents_lookup _ _ d) by done.
  by case_Zbool.
Qed.

Lemma Index_load_missing p w :
  healthy w → w_files w !! p = None → p ∉ w_dirs w →
  Index_load p w = (Err (Io NotFound), pop_sched w).
Proof.
  intros Hw Hp Hd. unfold Index_load. erewrite bind_Err; [done|]. unfold open.
  destruct (syscall_ok w Hw) as (ev & He & _). mstep He. mret_step. unfold id. cbn [w_files pop_sched].
  rewrite Hp. cbn [w_dirs pop_sched]. by rewrite bool_decide_eq_false_2.
Qed.

Lemma index_open_ok p rs w :
  healthy w → index_state p rs w → p ∉ w_dirs w → parent p ∈ w_dirs w →
  Forall entry_typed (entries_from 0 rs) →
  ∃ ix w', index_open p w = (Ok ix, w') ∧ index_inv ix w' ∧ ix_path ix = p ∧
    (ix_entries ix = entries_from 0 rs ∨ ix_entries ix = []) ∧ healthy w' ∧ changes_only [p] w' w.
Proof.
  intros Hw Hst Hd Hpar Hes. unfold index_open, index_state in *.
  assert (Hfail : ∀ e w1, Index_load p w = (Err e, w1) → healthy w1 → same_fs w1 w →
    ∃ ix w', index_open p w = (Ok ix, w') ∧ index_inv ix w' ∧ ix_path ix = p ∧
      (ix_entries ix = entries_from 0 rs ∨ ix_entries ix = []) ∧ healthy w' ∧ changes_only [p] w' w).
  { intros e w1 Hl Hh Hs. unfold index_open. erewrite bind_Ok by (apply attempt_Err, Hl). reduce.
    pose proof Hs as (Hfs & Hds & Hos).
    destruct (Index_create_ok p w1) as (ix & Hc & Hp & He & Hi); [done|by rewrite Hds..|].
    eexists ix, _. split; [exact Hc|]. split; [done|]. split; [done|]. split; [by right|].
    split; [healthy|]. eapply changes_only_trans; [apply (changes_only_insert _ (pop_sched w1)); left|].
    by apply changes_only_same. }
  assert (Hload : ∀ es, w_files w !! p = Some (index_bytes es) → Forall entry_typed es →
    ∃ ix w', index_open p w = (Ok ix, w') ∧ index_inv ix w' ∧ ix_path ix = p ∧
      ix_entries ix = es ∧ healthy w' ∧ changes_only [p] w' w).
  { intros es Hf Hty. destruct (Index_load_entries p es w Hw Hf Hty) as (ix & w' & Hl & Hp & He & Hi & Hh & Hs).
    exists ix, w'. unfold index_open. erewrite bind_Ok by (apply attempt_Ok, Hl).
    split; [done|]. split_and!; try done. by apply changes_only_same. }
  destruct (w_files w !! p) as [d|] eqn:Hf.
  - destruct Hst as [->|[->|Hmis]].
    + destruct (Hload _ eq_refl Hes) as (ix & w' & ? & ? & ? & ? & ? & ?). exists ix, w'. auto 10.
    + destruct (Hload [] eq_refl (Forall_nil_2 _)) as (ix & w' & ? & ? & ? & ? & ? & ?). exists ix, w'. auto 10.
    + destruct (Index_load_misaligned p d w Hw Hf Hmis) as [e He].
      eapply Hfail; [exact He|healthy|done].
  - eapply Hfail; [by apply Index_load_missing|healthy|done].
Qed.

(** ** The whole of `load` *)

(** A segment as a crash or a clean shutdown leaves it: complete records [rs],
    then bytes at which recovery stops. *)
Record on_disk (dir : path) (base : Z) (rs : list LogRecord) (junk : bytes) (w : World) : Prop := {
  od_log : w_files w !! log_path dir base = Some (log_bytes rs ++ junk);
  od_index : index_state (index_path dir base) rs w;
  od_name : index_path dir base ∉ w_dirs w;
  od_dir : dir ∈ w_dirs w;
  od_consecutive : consecutive base rs;
  od_typed : Forall record_typed rs;
  od_stops : stops junk;
  od_base : 0 ≤ base;
  od_offsets : base + blen rs < 2 ^ 64;
  od_small : blen (log_bytes rs ++ junk) ≤ 2 ^ 63
}.

(** The part of it that concerns the log. *)
Record seg_log_on_disk (dir : path) (base : Z) (rs : list LogRecord) (junk : bytes) (w : World) : Prop := {
  ld_log : w_files w !! log_path dir base = Some (log_bytes rs ++ junk);
  ld_consecutive : consecutive base rs;
  ld_typed : Forall record_typed rs;
  ld_stops : stops junk;
  ld_base : 0 ≤ base;
  ld_offsets : base + blen rs < 2 ^ 64;
  ld_small : blen (log_bytes rs ++ junk) ≤ 2 ^ 63
}.

Lemma on_disk_log dir base rs junk w : on_disk dir base rs junk w → seg_log_on_disk dir base rs junk w.
Proof.
  intros []. split; [exact od_log0|exact od_consecutive0|exact od_typed0|exact od_stops0
    |exact od_base0|exact od_offsets0|exact od_small0].
Qed.

Lemma seg_log_on_disk_frame dir base rs junk w' w :
  w_files w' !! log_path dir base = w_files w !! log_path dir base →
  seg_log_on_disk dir base rs junk w → seg_log_on_disk dir base rs junk w'.
Proof.
  intros Hf []. split; [by rewrite Hf|exact ld_consecutive0|exact ld_typed0|exact ld_stops0
    |exact ld_base0|exact ld_offsets0|exact ld_small0].
Qed.

(** The entries `load` leaves in the index: it adds those of the log only when
    it found none. *)
Definition loaded_entries (ix : Index) (rs : list LogRecord) (junk : bytes) : list IndexEntry :=
  ix_entries ix ++
    (if (entry_count ix =? 0) && (0 <? blen (log_bytes rs ++ junk)) then entries_from 0 rs else []).

Lemma flush_index_ok ix w : Index_flush (ix, w) = (Ok tt, (ix, w)).
Proof. by destruct ix. Qed.

(** Cutting the tail off, when there is one. *)
Lemma truncate_ok f w rs junk :
  healthy w → w_files w !! fl_path f = Some (log_bytes rs ++ junk) →
  ∃ w', when (blen (log_bytes rs) <? blen (log_bytes rs ++ junk)) (set_len (blen (log_bytes rs))) (f, w)
          = (Ok tt, (f, w')) ∧
        w_files w' !! fl_path f = Some (log_bytes rs) ∧ healthy w' ∧ changes_only [fl_path f] w' w.
Proof.
  intros Hw Hf. pose proof (file_contents_lookup _ _ _ Hf) as Hc. case_Zbool; cbn [when].
  - eexists. split; [apply set_len_ok; [done|rewrite Hc; len]|]. rewrite Hc.
    rewrite take_blen_app by done. split; [apply lookup_insert_eq|]. split; [healthy|].
    apply (changes_only_insert _ (pop_sched w)). left.
  - exists w. assert (junk = []) as -> by (apply blen_0; len). rewrite app_nil_r in Hf. done.
Qed.

Lemma entries_rebuilt ix rs junk :
  ix_entries ix = entries_from 0 rs ∨ ix_entries ix = [] →
  loaded_entries ix rs junk = entries_from 0 rs.
Proof.
  intros Hix. unfold loaded_entries, entry_count. destruct rs as [|r rs].
  { destruct Hix as [->| ->]; cbn [entries_from]; by destruct (_ && _). }
  destruct Hix as [->| ->].
  - cbn [entries_from]. rewrite blen_cons. destruct (Z.eqb_spec (1 + blen (entries_from (0 + rsize r) rs)) 0).
    + len.
    + cbn [andb]. by rewrite app_nil_r.
  - cbn [blen length Z.of_nat Z.eqb andb app]. rewrite log_bytes_cons. pose proof (rsize_min r).
    destruct (Z.ltb_spec 0 (blen ((record_bytes r ++ log_bytes rs) ++ junk))); [done|len].
Qed.

Lemma load_body_ok dir base rs junk f ix w :
  healthy w → seg_log_on_disk dir base rs junk w → fl_path f = log_path dir base →
  index_inv ix w → ix_path ix = index_path dir base →
  ∃ ix' w', load_body base ((f, ix), w) =
      (Ok (base + blen rs, blen (log_bytes rs)), ((set_pos (blen (log_bytes rs)) f, ix'), w')) ∧
    w_files w' !! log_path dir base = Some (log_bytes rs) ∧
    index_inv ix' w' ∧ ix_path ix' = ix_path ix ∧ ix_entries ix' = loaded_entries ix rs junk ∧ healthy w' ∧
    changes_only [log_path dir base; index_path dir base] w' w.
Proof.
  intros Hw [] Hfp Hix Hip. unfold load_body.
  assert (Hc : file_contents (f, w) = log_bytes rs ++ junk)
    by (apply file_contents_lookup; by rewrite Hfp).
  erewrite bind_Ok by (by apply zoom_Ok, metadata_len_ok). cbn [fst snd].
  erewrite bind_Ok by (apply zoom_Ok, seek_start_ok; healthy). cbn [fst snd].
  erewrite bind_Ok by (apply zoom_Ok, read_to_end_ok; healthy). cbn [fst snd].
  set (w3 := pop_sched (pop_sched (pop_sched w))). rewrite set_pos_set_pos.
  assert (rest_of (set_pos 0 f, pop_sched (pop_sched w)) = log_bytes rs ++ junk) as -> by exact Hc.
  rewrite Hc. mret_step. cbn [fst snd]. set (b := _ && _).
  assert (Hix3 : index_inv ix w3) by (eapply index_inv_frame; [|exact Hix]; done).
  destruct (load_loop_ok (length (log_bytes rs ++ junk)) b rs junk base 0 ix w3)
    as (ix4 & w4 & Hrun4 & Hi4 & Hp4 & He4 & Hh4 & Hc4); try (assumption || lia); [len|healthy|].
  rewrite Z.add_0_l in Hrun4. erewrite bind_Ok by (apply zoom_Ok, Hrun4). cbn [fst snd].
  set (g := set_pos _ f).
  destruct (truncate_ok g w4 rs junk Hh4) as (w5 & Hrun5 & Hlog5 & Hh5 & Hc5).
  { cbn [g set_pos fl_path]. destruct Hc4 as (-> & _); [by rewrite Hfp|].
    rewrite list_elem_of_singleton, Hfp, Hip. apply log_index_ne. }
  assert (∀ (b : bool) (m : FileIO unit) x, when b (zoom (λ s : (File * Index) * World, (fst (fst s), snd s))
      (λ t s, ((fst t, snd (fst s)), snd t)) m) x = zoom (λ s, (fst (fst s), snd s))
      (λ t s, ((fst t, snd (fst s)), snd t)) (when b m) x) as Hwhen by (by intros [] m [[? ?] ?]).
  erewrite bind_Ok by (rewrite Hwhen; apply zoom_Ok, Hrun5). cbn [fst snd].
  assert (Hlog5' : w_files w5 !! log_path dir base = Some (log_bytes rs))
    by (cbn [g set_pos fl_path] in Hlog5; by rewrite <- Hfp).
  assert (Hi5 : index_inv ix4 w5).
  { eapply index_inv_frame; [|exact Hi4]. destruct Hc5 as (-> & _); [done|].
    cbn [g set_pos fl_path]. rewrite list_elem_of_singleton, Hp4, Hip, Hfp. by intros ?%eq_sym%log_index_ne. }
  assert (when b (zoom (λ s : (File * Index) * World, (snd (fst s), snd s))
      (λ t s, ((fst (fst s), fst t), snd t)) Index_flush) ((g, ix4), w5) = (Ok tt, ((g, ix4), w5)))
    as Hrun6 by (destruct b; [by destruct ix4|done]).
  mstep Hrun6. erewrite bind_Ok by (by apply zoom_Ok, seek_end_ok). cbn [fst snd].
  rewrite run_ret. rewrite (file_contents_lookup g w5 _ Hlog5).
  eexists ix4, _. split; [reflexivity|]. split_and!.
  - done.
  - by eapply index_inv_frame; [|exact Hi5].
  - done.
  - exact He4.
  - healthy.
  - eapply changes_only_trans; [exact (changes_only_same _ _ _ (same_fs_pop w5))|].
    eapply changes_only_trans; [eapply changes_only_sub; [|exact Hc5]|].
    { cbn [g set_pos fl_path]. rewrite Hfp. intros p ->%list_elem_of_singleton. left. }
    eapply (changes_only_trans _ _ w3); [|done]. eapply changes_only_sub; [|exact Hc4].
    rewrite Hip. intros p ->%list_elem_of_singleton. right. left.
Qed.

(** `load` once the index file is opened. *)
Lemma Segment_load_run dir base max lvl rs junk w ix w1 :
  healthy w → seg_log_on_disk dir base rs junk w →
  index_open (index_path dir base) (pop_sched w) = (Ok ix, w1) →
  index_inv ix w1 → ix_path ix = index_path dir base → healthy w1 →
  changes_only [index_path dir base] w1 (pop_sched w) →
  ∃ ix' w', Segment_load dir base max lvl w =
      (Ok {| sg_base_offset := base;
             sg_log_file := {| fl_path := log_path dir base; fl_pos := blen (log_bytes rs);
                               fl_append := false |};
             sg_index := ix'; sg_current_size := blen (log_bytes rs);
             sg_next_offset := base + blen rs; sg_max_bytes := max; sg_sync_level := lvl |}, w') ∧
    w_files w' !! log_path dir base = Some (log_bytes rs) ∧
    index_inv ix' w' ∧ ix_path ix' = index_path dir base ∧
    ix_entries ix' = loaded_entries ix rs junk ∧ healthy w' ∧
    changes_only [log_path dir base; index_path dir base] w' w.
Proof.
  intros Hw Hdisk Ho Hi Hp Hh Hc. unfold Segment_load.
  mstep open_existing; [|done|apply (ld_log _ _ _ _ _ Hdisk)|done]. cbn [oo_append].
  rewrite bind_assoc. fold (index_open (index_path dir base)). mstep Ho.
  set (f := {| fl_path := log_path dir base; fl_pos := 0; fl_append := false |}).
  destruct (load_body_ok dir base rs junk f ix w1) as (ix2 & w2 & Hb & Hlog & Hi2 & Hp2 & He2 & Hh2 & Hc2);
    [exact Hh| |reflexivity|exact Hi|exact Hp|].
  { eapply seg_log_on_disk_frame; [|exact Hdisk]. destruct Hc as (-> & _); [done|].
    rewrite list_elem_of_singleton. apply log_index_ne. }
  erewrite bind_Ok by (apply with_local_ok, Hb). reduce. rewrite run_ret.
  exists ix2, w2. split; [reflexivity|]. split; [exact Hlog|]. split; [exact Hi2|].
  split; [exact (eq_trans Hp2 Hp)|]. split; [exact He2|]. split; [exact Hh2|].
  eapply changes_only_trans; [exact Hc2|]. eapply (changes_only_trans _ _ (pop_sched w)); [|done].
  eapply changes_only_sub; [|exact Hc]. intros p ->%list_elem_of_singleton. right. left.
Qed.

Lemma Segment_load_ok dir base max lvl rs junk w :
  healthy w → on_disk dir base rs junk w → max ≤ 2 ^ 63 →
  ∃ s w', Segment_load dir base max lvl w = (Ok s, w') ∧ open_seg dir s w' rs ∧ healthy w' ∧
    sg_base_offset s = base ∧ sg_max_bytes s = max ∧ sg_sync_level s = lvl ∧
    changes_only (seg_paths dir s) w' w.
Proof.
  intros Hw Hdisk Hmax. pose proof Hdisk as [].
  assert (Htyped : Forall entry_typed (entries_from 0 rs)) by (apply (entries_typed base); [done|len..]).
  destruct (index_open_ok (index_path dir base) rs (pop_sched w)) as (ix & w1 & Ho & Hi & Hp & He & Hh & Hc);
    [healthy|exact od_index0|exact od_name0|rewrite parent_index; exact od_dir0|exact Htyped|].
  destruct (Segment_load_run dir base max lvl rs junk w ix w1 Hw (on_disk_log _ _ _ _ _ Hdisk) Ho Hi Hp Hh Hc)
    as (ix2 & w2 & Hl & Hlog & Hi2 & Hp2 & He2 & Hh2 & Hc2).
  rewrite entries_rebuilt in He2 by exact He.
  eexists _, w2. split; [exact Hl|]. split; [split|].
  - split; [reflexivity|exact Hp2|exact Hlog|exact Hi2|exact He2|exact od_consecutive0
      |exact od_typed0|reflexivity|reflexivity|exact od_base0|exact od_offsets0|len|exact Hmax].
  - eapply at_end_intro; [exact Hlog|]. by right.
  - split; [done|]. do 3 (split; [done|]). exact Hc2.
Qed.
End load.
