(* ===== verification/SegmentTheorems.v ===== *)
(** * What a segment guarantees

    The statements about single segments: appends in all their cases, batch
    reads without gaps, and recovery from a log cut at an arbitrary byte. *)
From S2P Require Import Prelude Errors BytesCrate StdText FileSystem BinarySearch Index Record Segment SegmentInv SegmentRead SegmentWrite SegmentLoad.
#[local] Open Scope Z_scope.

Section segment_theorems.
Context `{BytesLaws}.

(** C20: the cases of `append` on a segment that is writable ([writable]: its
    log handle is in append mode or at the end of the file, so it was created by
    this process, or loaded and not read since), on a disk without errors. A
    record larger than the segment limit is refused with MessageTooLarge and one
    that no longer fits with SegmentFull (carrying the current and the maximal
    size), both before anything is written. Otherwise the encoded record is
    added at the end of the log file, the returned offset is the next one,
    reading it gives the key and value back, and the size stays at most the
    limit and equal to the file length. [misplaced_append_overwrites] is the
    case of a loaded segment that was read. *)
Theorem Segment_append_correct dir s w rs key value :
  healthy w → seg_inv dir s w rs → writable s w → storable key value →
  sg_next_offset s + 1 < 2 ^ 64 → sg_current_size s ≤ sg_max_bytes s →
  let len := record_len key value in
  if sg_max_bytes s <? len then Segment_append key value (s, w) = (Err MessageTooLarge, (s, w)) else
  if sg_max_bytes s <? sg_current_size s + len then
    Segment_append key value (s, w) = (Err (SegmentFull (sg_current_size s) (sg_max_bytes s)), (s, w))
  else ∃ s' w' r,
    Segment_append key value (s, w) = (Ok (sg_next_offset s), (s', w')) ∧
    r_key r = key ∧ r_value r = value ∧
    contents w' (log_path dir (sg_base_offset s)) =
      contents w (log_path dir (sg_base_offset s)) ++ record_bytes r ∧
    fst (Segment_read_at (sg_next_offset s) (s', w')) = Ok (Some r) ∧
    sg_next_offset s' = sg_next_offset s + 1 ∧
    sg_current_size s' = blen (contents w' (log_path dir (sg_base_offset s))) ∧
    sg_current_size s' ≤ sg_max_bytes s'.
Proof.
  intros Hw Hinv Hend Hst Hroom Hsz. cbn zeta.
  pose proof (Segment_append_ok dir s w rs key value Hw Hinv Hend Hst Hroom) as Happ.
  pose proof (record_len_min key value). unfold append_check in Happ.
  destruct (Z.ltb_spec (sg_max_bytes s) (record_len key value)); [exact Happ|].
  destruct (Z.ltb_spec (sg_max_bytes s) (sg_current_size s + record_len key value)) as [Hfull|Hfit].
  { destruct (Z.ltb_spec 0 (sg_current_size s)) as [Hpos|Hneg]; cbn [andb] in Happ; [exact Happ|lia]. }
  cbn [andb] in Happ. destruct Happ as (s' & w' & ts & Heq & [Hinv' _ Hh' (Hb & Hm & _) _ _]).
  set (r := new_record s ts key value) in *. pose proof Hinv as []. pose proof Hinv' as [].
  rewrite Hb in si_log0. exists s', w', r.
  assert (rsize r = record_len key value) as Hr by done.
  unfold contents. rewrite si_log, si_log0. cbn [default]. unfold id. rewrite log_bytes_app, log_bytes_singleton.
  split; [done|]. split; [done|]. split; [done|]. split; [done|]. split.
  - destruct (Segment_read_at_hit dir s' w' rs r [] Hh' Hinv') as (? & ? & Hrd & _).
    change (sg_next_offset s) with (r_offset r). by rewrite Hrd.
  - rewrite si_next0, si_size0, Hb, Hm, log_bytes_app, log_bytes_singleton.
    rewrite !blen_app, blen_record_bytes, Hr. split_and!; len.
Qed.

(** C22: a batch read of a segment returns a gap-free run of records that starts
    at the requested offset, is empty only when the offset is not in the
    segment, and stays within the budget unless it is a single record; when no
    read is short it is the longest such run. *)
Theorem Segment_read_batch_correct dir s w rs o m :
  healthy w → seg_inv dir s w rs → 0 ≤ m →
  ∃ out st', Segment_read_batch o m (s, w) = (Ok out, st') ∧
    out `prefix_of` records_from (sg_base_offset s) rs o ∧
    (out = [] ↔ ¬ (sg_base_offset s ≤ o < sg_next_offset s)) ∧
    (blen (log_bytes out) ≤ m ∨ length out = 1%nat) ∧
    (prompt w → ∀ r k, records_from (sg_base_offset s) rs o = out ++ r :: k →
                       m < blen (log_bytes (out ++ [r]))).
Proof.
  intros Hw Hinv Hm.
  destruct (Segment_read_batch_ok dir s w rs o m Hw Hinv) as (out & s' & w' & Heq & _ & Hpre & Hnil & Hfull).
  set (rf := records_from (sg_base_offset s) rs o) in *.
  assert (Hrf : rf = [] ↔ ¬ (sg_base_offset s ≤ o < sg_next_offset s)).
  { pose proof Hinv as []. unfold rf, records_from. rewrite si_next. case_decide as Hle; [|by split; [lia|]].
    split.
    - intros Hd%(f_equal length). rewrite length_drop in Hd. cbn in Hd. unfold blen. lia.
    - intros Hn. apply drop_ge. unfold blen in Hn. lia. }
  exists out, (s', w'). split; [done|]. assert (Hp : out `prefix_of` rf) by (etrans; [exact Hpre|apply take_batch_prefix]).
  split; [exact Hp|]. split; [|split].
  - rewrite <- Hrf. split; [exact Hnil|]. intros Hr. rewrite Hr in Hp. by apply prefix_nil_inv in Hp.
  - destruct (decide (out = [])) as [->|Hne]; [left; by rewrite blen_log_nil|].
    destruct (batch_cases m rf out Hm Hpre Hne) as [?|(r & -> & _)]; [by left|by right].
  - intros Hpr r k Hk. specialize (Hfull Hpr). destruct (decide (out = [])) as [->|Hne].
    { rewrite Hnil in Hk by done. discriminate Hk. }
    destruct (Z.lt_ge_cases m (blen (log_bytes (out ++ [r])))) as [|Hge]; [done|exfalso].
    rewrite Hk in Hfull. apply (take_batch_longer m out r k); [done|lia|done].
Qed.

(** C21: a log cut at an arbitrary byte (a crash during a write) whose index is
    missing, empty or cut inside an entry: `load` keeps exactly the records that
    are complete in the remaining bytes, truncates the file after the last of
    them, and afterwards every offset reads correctly. (An index with some whole
    entries but not all is not rebuilt: [stale_index_hides].) *)
Theorem Segment_crash_recovery dir base max lvl rs n w :
  healthy w → consecutive base rs → Forall record_typed rs → 0 ≤ base → base + blen rs < 2 ^ 64 →
  blen (log_bytes rs) ≤ 2 ^ 63 → max ≤ 2 ^ 63 →
  w_files w !! log_path dir base = Some (take n (log_bytes rs)) →
  match w_files w !! index_path dir base with
  | None => True
  | Some d => d = [] ∨ blen d mod INDEX_ENTRY_SIZE ≠ 0
  end →
  index_path dir base ∉ w_dirs w → dir ∈ w_dirs w →
  ∃ s w' rs1 rs2,
    Segment_load dir base max lvl w = (Ok s, w') ∧ rs = rs1 ++ rs2 ∧
    (length (log_bytes rs1) ≤ n ∨ rs2 = [])%nat ∧
    (∀ r k, rs2 = r :: k → (n < length (log_bytes (rs1 ++ [r])))%nat) ∧
    w_files w' !! log_path dir base = Some (log_bytes rs1) ∧
    sg_next_offset s = base + blen rs1 ∧
    ∀ o, fst (Segment_read_at o (s, w')) = Ok (record_at base rs1 o).
Proof.
  intros Hw Hc Hty Hb Hn Hsm Hmax Hlog Hix Hname Hdir.
  destruct (split_complete rs (take n (log_bytes rs)) (drop n (log_bytes rs))) as (rs1 & rs2 & part & -> & Hcut & Htorn).
  { by rewrite take_drop. }
  apply Forall_app in Hty as [Hty1 Hty2]. pose proof Hc as [Hc1 _]%consecutive_app.
  assert (Hlen : length (take n (log_bytes (rs1 ++ rs2))) = (length (log_bytes rs1) + length part)%nat)
    by (by rewrite Hcut, length_app).
  rewrite length_take in Hlen. rewrite log_bytes_app in Hsm, Hlen. rewrite length_app in Hlen.
  destruct (Segment_load_ok dir base max lvl rs1 part w) as (s & w' & Hl & [Hs _] & Hh & Hsb & _); [exact Hw| |exact Hmax|].
  { split; [by rewrite <- Hcut| |exact Hname|exact Hdir|exact Hc1|exact Hty1|by eapply stops_torn|exact Hb|len|].
    - unfold index_state. destruct (w_files w !! index_path dir base) as [d|]; [|done]. by right.
    - rewrite blen_app in Hsm |- *. unfold blen in *. lia. }
  exists s, w', rs1, rs2. split; [exact Hl|]. split; [done|]. pose proof Hs as []. rewrite Hsb in *.
  split; [left; lia|]. split; [|split; [exact si_log|split; [exact si_next|]]].
  - intros r k ->. destruct Htorn as (q & Hq & Hqne). rewrite log_bytes_app, log_bytes_singleton, length_app.
    rewrite log_bytes_cons, Hq, !length_app in Hlen. rewrite Hq, length_app.
    destruct q; [done|]. cbn [length] in *. lia.
  - intros o. destruct (Segment_read_at_ok dir s w' rs1 o Hh Hs) as (? & ? & -> & _). by rewrite Hsb.
Qed.
End segment_theorems.
