(* ===== verification/SegmentFaults.v ===== *)
(** * Where a segment loses records (src/src/storage/segment.rs)

    Two ways in which `load` leaves a segment on which the other operations do
    not do what they mean to: the log handle it opens has no append mode, so an
    append writes where the last read stopped; and an index with some entries
    is never completed from the log. Both are stated for every segment in that
    state; [Findings] runs the shortest programs that lead there. *)
From S2P Require Import Prelude Errors BytesCrate StdText FileSystem BinarySearch Index Record Segment SegmentInv SegmentRead SegmentWrite SegmentLoad.
#[local] Open Scope Z_scope.

Section segment_faults.
Context `{BytesLaws}.

(** ** Reading past the end of the log *)
Lemma Record_decode_nil : Record_decode [] = (Ok None, []).
Proof. reflexivity. Qed.

Lemma read_full_end f w position :
  healthy w → rest_of (set_pos position f, w) = [] →
  ∃ st, read_full position (f, w) = (Err (Io UnexpectedEof), st).
Proof.
  intros Hw Hr. unfold read_full. mstep seek_start_ok; [|done].
  destruct (read_exact_end (set_pos position f) (pop_sched w) (healthy_pop _ Hw) 4) as [st He];
    [lia|exact Hr|]. exists st. by mstep He.
Qed.

(** Reading an offset whose index entry points past the end of the log. *)
Lemma Segment_read_at_past s w o p :
  healthy w → sg_base_offset s ≤ o < sg_next_offset s →
  Index_lookup (sg_index s) o = Ok (Some p) → blen (file_contents (sg_log_file s, w)) ≤ p →
  fst (Segment_read_at o (s, w)) = Err (Io UnexpectedEof).
Proof.
  intros Hw Ho Hl Hp. unfold Segment_read_at. mret_step. cbn [fst].
  destruct (Z.ltb_spec o (sg_base_offset s)); [lia|].
  destruct (Z.leb_spec (sg_next_offset s) o); [lia|]. cbn [orb].
  erewrite bind_Ok by (unfold lift; rewrite Hl; done). reduce.
  erewrite bind_Ok by (by apply on_log_ok, seek_start_ok). set (f := sg_log_file s) in *.
  assert (Hend : ∀ g w', fl_path g = fl_path f → same_fs w' w → rest_of (set_pos p g, w') = []).
  { intros g w' Hg (Hf & _). unfold rest_of. apply drop_ge. cbn [set_pos fl_pos fst].
    unfold file_contents, contents in *. cbn [set_pos fl_path fst snd] in *. rewrite Hg, Hf.
    unfold blen in Hp. lia. }
  destruct (read_end (set_pos p f) (pop_sched w) (healthy_pop _ Hw) 4096) as (g & Hr & Hg);
    [by apply Hend|].
  erewrite bind_Ok by (apply on_log_ok, Hr). reduce.
  erewrite bind_Ok by (eapply scoped_eq, Record_decode_nil). reduce.
  destruct (read_full_end g (pop_sched (pop_sched w)) p) as [st He]; [healthy|by apply Hend|].
  by erewrite bind_Err by (apply zoom_Err, He).
Qed.
(** ** Appending where a read stopped *)

(** The entry an append adds to the index points to the old end of the log. *)
Lemma appended_lookup dir s w rs r ix :
  seg_inv dir s w rs → r_offset r = sg_next_offset s →
  ix_entries ix = ix_entries (sg_index s) ++ entries_from (sg_current_size s) [r] →
  Index_lookup ix (sg_next_offset s) = Ok (Some (sg_current_size s)).
Proof.
  intros [] Hr He. rewrite si_entries, si_size, <- entries_from_app in He.
  assert (Hc : consecutive (sg_base_offset s) (rs ++ [r])).
  { apply consecutive_app. split; [exact si_consecutive|]. apply consecutive_singleton. by rewrite Hr. }
  assert (Hi : ix_entries ix !! length rs = Some {| ie_offset := r_offset r; ie_position := sg_current_size s |}).
  { rewrite He, entries_from_app, lookup_app_r by (by rewrite length_entries_from).
    rewrite length_entries_from, Nat.sub_diag. cbn. by rewrite si_size. }
  rewrite <- Hr. refine (Index_lookup_found ix (length rs) _ _ Hi).
  unfold index_sorted. rewrite He. by apply (entries_sorted (sg_base_offset s)).
Qed.

(** C39: an append through a log handle without append mode (the one `load`
    opens) whose position a read left inside the log. The append is
    acknowledged with the next offset and the counters advance as if the record
    had been added, but it overwrites the bytes at that position: the log ends
    up shorter than the size the segment counts, and when the record fits
    inside the old log its acknowledged offset cannot be read. *)
Theorem misplaced_append_overwrites dir s w rs key value :
  healthy w → seg_inv dir s w rs → storable key value → sg_next_offset s + 1 < 2 ^ 64 →
  sg_current_size s + record_len key value ≤ sg_max_bytes s →
  fl_append (sg_log_file s) = false → 0 ≤ fl_pos (sg_log_file s) < sg_current_size s →
  let pos := fl_pos (sg_log_file s) in
  let len := record_len key value in
  let log := log_path dir (sg_base_offset s) in
  ∃ s' w' r,
    Segment_append key value (s, w) = (Ok (sg_next_offset s), (s', w')) ∧
    r_key r = key ∧ r_value r = value ∧
    contents w' log = take (Z.to_nat pos) (contents w log) ++ record_bytes r ++
                      drop (Z.to_nat (pos + len)) (contents w log) ∧
    sg_next_offset s' = sg_next_offset s + 1 ∧ sg_current_size s' = sg_current_size s + len ∧
    blen (contents w' log) < sg_current_size s' ∧
    (pos + len ≤ sg_current_size s →
     fst (Segment_read_at (sg_next_offset s) (s', w')) = Err (Io UnexpectedEof)).
Proof.
  intros Hw Hinv Hs Hroom Hfit Happ Hpos. cbn zeta. pose proof Hinv as [].
  pose proof (record_len_min key value). set (n := record_len key value) in *.
  set (f := sg_log_file s) in *. set (lp := log_path dir (sg_base_offset s)) in *.
  destruct (append_stores dir s w rs key value Hinv Hs Hroom) as (ts & Hr & Hlen & ->).
  { unfold append_check. fold n. destruct (Z.ltb_spec (sg_max_bytes s) n); [len|].
    by destruct (Z.ltb_spec (sg_max_bytes s) (sg_current_size s + n)); [len|]. }
  set (r := new_record s ts key value) in *. fold n in Hlen.
  assert (Hc : file_contents (f, pop_clock w) = log_bytes rs)
    by (apply file_contents_lookup; cbn [pop_clock w_files]; by rewrite si_log_path).
  pose proof (write_all_inside f (pop_clock w) ltac:(healthy) (log_bytes [r]) Happ) as Hwr.
  rewrite Hc, si_log_path, Hlen in Hwr. specialize (Hwr ltac:(lia)).
  set (d := take _ _ ++ _) in Hwr. set (f1 := set_pos _ f) in Hwr. set (w1 := set_files _ _) in Hwr.
  destruct (indexing_ok (set_log_file f1 s) w1 (Index_append (sg_next_offset s) (sg_current_size s))
    (entries_from (sg_current_size s) [r]) (syncs_log (sg_sync_level s)) (syncs_index (sg_sync_level s)))
    as (ix & w' & Hk & Hi & Hp & He & Hh & Hch); [healthy| |apply adds_one; unfold is_uint; len|].
  { eapply index_inv_frame; [|exact si_index]. cbn [set_log_file sg_index]. rewrite si_index_path.
    apply lookup_insert_ne. apply log_index_ne. }
  cbn [set_log_file sg_index] in He, Hch. rewrite si_index_path in Hch.
  erewrite bind_Ok by (apply on_log_ok, Hwr). rewrite Hk. mret_step. rewrite run_ret. cbn [fst snd].
  assert (Hd : w_files w' !! lp = Some d).
  { destruct Hch as (-> & _); [apply lookup_insert_eq|]. rewrite list_elem_of_singleton. apply log_index_ne. }
  eexists _, w', r. split; [reflexivity|]. split; [done|]. split; [done|].
  cbn [set_end set_index set_log_file sg_next_offset sg_current_size].
  rewrite Hlen, !add_u64_id by len. unfold contents. rewrite Hd, si_log. cbn [default]. unfold id.
  rewrite <- log_bytes_singleton. split; [done|]. split; [done|]. split; [done|].
  assert (Hbd : blen d ≤ Z.max (sg_current_size s) (fl_pos f + n)).
  { unfold d. rewrite !blen_app, Hlen. unfold blen in *. rewrite length_take, length_drop. lia. }
  split; [lia|]. intros Hin. apply (Segment_read_at_past _ w' _ (sg_current_size s)).
  - exact Hh.
  - cbn [set_end set_index set_log_file sg_base_offset sg_next_offset]. len.
  - by apply (appended_lookup dir s w rs r).
  - rewrite (file_contents_lookup _ w' d); [lia|]. cbn [set_end set_index set_log_file sg_log_file].
    unfold f1. cbn [set_pos fl_path]. by rewrite si_log_path.
Qed.

(** ** An index that lost its last entries *)

(** C40: an index file that holds the entries of the first records [rs1] of the
    log but not of all of them, as a crash leaves it when the log reached the
    disk and the index did not. `load` does not rebuild it: it keeps the log and
    counts all its records in the next offset, but every record after [rs1]
    reads as absent and a batch read from it is empty. *)
Theorem stale_index_hides dir base max lvl rs1 rs2 junk w :
  healthy w → seg_log_on_disk dir base (rs1 ++ rs2) junk w → rs1 ≠ [] →
  w_files w !! index_path dir base = Some (index_bytes (entries_from 0 rs1)) →
  ∃ s w', Segment_load dir base max lvl w = (Ok s, w') ∧
    w_files w' !! log_path dir base = Some (log_bytes (rs1 ++ rs2)) ∧
    sg_next_offset s = base + blen (rs1 ++ rs2) ∧
    ∀ o m, base + blen rs1 ≤ o →
      Segment_read_at o (s, w') = (Ok None, (s, w')) ∧
      Segment_read_batch o m (s, w') = (Ok [], (s, w')).
Proof.
  intros Hw Hdisk Hne Hix. pose proof Hdisk as [].
  rewrite blen_app in ld_offsets. rewrite log_bytes_app, !blen_app in ld_small.
  pose proof ld_consecutive as [Hc1 _]%consecutive_app.
  assert (Hty : Forall entry_typed (entries_from 0 rs1)) by (apply (entries_typed base); [done|len..]).
  destruct (Index_load_entries (index_path dir base) (entries_from 0 rs1) (pop_sched w))
    as (ix & w1 & Hl & Hp & He & Hi & Hh & Hs); [healthy|exact Hix|exact Hty|].
  assert (Ho : index_open (index_path dir base) (pop_sched w) = (Ok ix, w1))
    by (unfold index_open; by erewrite bind_Ok by (apply attempt_Ok, Hl)).
  destruct (Segment_load_run dir base max lvl (rs1 ++ rs2) junk w ix w1 Hw Hdisk Ho Hi Hp Hh
    (changes_only_same _ _ _ Hs)) as (ix2 & w2 & Hrun & Hlog & Hi2 & Hp2 & He2 & Hh2 & _).
  assert (He3 : ix_entries ix2 = entries_from 0 rs1).
  { rewrite He2. unfold loaded_entries, entry_count. rewrite He. destruct rs1 as [|r rs1]; [done|].
    cbn [entries_from]. rewrite blen_cons. destruct (Z.eqb_spec (1 + blen (entries_from (0 + rsize r) rs1)) 0);
      [len|]. cbn [andb]. by rewrite app_nil_r. }
  eexists _, w2. split; [exact Hrun|]. split; [exact Hlog|]. split; [done|]. intros o m Hge.
  assert (Hno : Index_lookup ix2 o = Ok None).
  { apply Index_lookup_absent; unfold index_sorted; rewrite He3; [by eapply entries_sorted|].
    intros e (i & (r & Hr & ->)%entries_from_lookup)%list_elem_of_lookup.
    rewrite (Hc1 i r Hr). apply lookup_lt_Some in Hr. unfold blen in Hge. lia. }
  unfold Segment_read_at, Segment_read_batch. split; mret_step; cbn [fst];
    (destruct (_ || _); [done|]); cbn [sg_index];
    (erewrite bind_Ok by (unfold lift; rewrite Hno; done)); done.
Qed.
End segment_faults.
