(* ===== verification/Partition.v ===== *)
(** * Partitions (src/src/storage/partition.rs)

    A partition is a sequence of segments; writes go to the last one and a full
    segment is followed by a fresh one. The methods are translated with their
    loops; [rotate] is the block that the three append paths share. *)
From S2P Require Import Prelude Errors BytesCrate StdText FileSystem BinarySearch Index Record Segment.
#[local] Open Scope Z_scope.

Record Partition : Type := {
  pt_topic : bytes;
  pt_id : Z;
  pt_base_dir : path;
  pt_segments : list Segment;
  pt_max_segment_bytes : Z;
  pt_sync_level : Config.SyncLevel
}.

Definition set_segments (ss : list Segment) (p : Partition) : Partition :=
  {| pt_topic := pt_topic p; pt_id := pt_id p; pt_base_dir := pt_base_dir p; pt_segments := ss;
     pt_max_segment_bytes := pt_max_segment_bytes p; pt_sync_level := pt_sync_level p |}.

Abbreviation PartIO := (Res (Partition * World)).

(** `self.segments[i].m()`: an index out of range panics. *)
Definition on_segment {A} (i : nat) (m : SegIO A) : PartIO A := λ st,
  match pt_segments (fst st) !! i with
  | None => (Panic, st)
  | Some s =>
      let '(o, (s', w')) := m (s, snd st) in
      (o, (set_segments (<[i := s']> (pt_segments (fst st))) (fst st), w'))
  end.

(** ** File names: `Path::extension` and `Path::file_stem` of a directory entry *)
Definition dot_byte : byte := x2e.

(** What comes before and after the last dot. *)
Fixpoint split_last_dot (s : bytes) : option (bytes * bytes) :=
  match s with
  | [] => None
  | c :: r =>
      match split_last_dot r with
      | Some (before, after) => Some (c :: before, after)
      | None => if bool_decide (c = dot_byte) then Some ([], r) else None
      end
  end.
Definition extension (name : bytes) : option bytes :=
  match split_last_dot name with
  | Some (_ :: _, after) => Some after
  | _ => None
  end.
Definition file_stem (name : bytes) : bytes :=
  match split_last_dot name with
  | Some ((_ :: _) as before, _) => before
  | _ => name
  end.

(** The base offset in the name of a log file. *)
Definition log_name (name : bytes) : option Z :=
  match extension name with
  | Some ext => if bool_decide (ext = str "log") then parse_uint 64 (file_stem name) else None
  | None => None
  end.

(** `sort_by_key(|s| s.base_offset)`, a stable sort. *)
Fixpoint sort_insert (s : Segment) (ss : list Segment) : list Segment :=
  match ss with
  | [] => [s]
  | t :: ss' => if sg_base_offset s <=? sg_base_offset t then s :: ss else t :: sort_insert s ss'
  end.
Definition sort_by_base (ss : list Segment) : list Segment := foldr sort_insert [] ss.

Section partition.
Context `{!BytesOps}.

(** The `for entry in fs::read_dir(..)?` loop; `entry?` may fail at each turn. *)
Fixpoint load_segments (dir : path) (max_segment_bytes : Z) (lvl : Config.SyncLevel)
    (entries : list bytes) (segments : list Segment) : Res World (list Segment) :=
  match entries with
  | [] => mret segments
  | name :: rest =>
      _ ← syscall;
      match log_name name with
      | Some base_offset =>
          segment ← Segment_load dir base_offset max_segment_bytes lvl;
          load_segments dir max_segment_bytes lvl rest (segments ++ [segment])
      | None => load_segments dir max_segment_bytes lvl rest segments
      end
  end.

Definition Partition_open_or_create (topic : bytes) (id : Z) (base_dir : path)
    (max_segment_bytes : Z) (sync_level : Config.SyncLevel) : Res World Partition :=
  let partition_dir := join (join base_dir topic) (to_dec id) in
  _ ← create_dir_all partition_dir;
  entries ← read_dir partition_dir;
  loaded ← load_segments partition_dir max_segment_bytes sync_level entries [];
  let segments := sort_by_base loaded in
  segments ← (if bool_decide (segments = [])
              then (λ segment, [segment]) <$>
                     Segment_create partition_dir 0 max_segment_bytes sync_level
              else mret segments);
  mret {| pt_topic := topic; pt_id := id; pt_base_dir := partition_dir; pt_segments := segments;
          pt_max_segment_bytes := max_segment_bytes; pt_sync_level := sync_level |}.

Definition active_idx (p : Partition) : nat := (length (pt_segments p) - 1)%nat.

(** The block that starts a new segment after the active one. *)
Definition rotate (active : nat) : PartIO unit :=
  next_offset ← on_segment active (gets (λ s, sg_next_offset (fst s)));
  _ ← on_segment active Segment_flush;
  p ← gets fst;
  new_segment ← in_world (Segment_create (pt_base_dir p) next_offset (pt_max_segment_bytes p)
                                         (pt_sync_level p));
  modify (λ st, (set_segments (pt_segments (fst st) ++ [new_segment]) (fst st), snd st)).

Definition Partition_append (key value : option bytes) : PartIO Z :=
  active ← gets (λ st, active_idx (fst st));
  res ← attempt (on_segment active (Segment_append key value));
  match res with
  | inl offset => mret offset
  | inr (SegmentFull _ _) =>
      _ ← rotate active;
      active ← gets (λ st, active_idx (fst st));
      on_segment active (Segment_append key value)
  | inr e => throw e
  end.

Definition Partition_next_offset (p : Partition) : Z :=
  match last (pt_segments p) with Some s => sg_next_offset s | None => 0 end.

(** The `while !payloads.is_empty()` loop. A turn takes at least one payload or
    starts a fresh segment, in which the next turn takes one, so twice the
    number of payloads is enough. *)
Fixpoint append_batch_loop (fuel : nat) (payloads : list bytes) (base_offset : option Z) : PartIO Z :=
  if bool_decide (payloads = [])
  then gets (λ st, default (Partition_next_offset (fst st)) base_offset)
  else
  match fuel with
  | O => out_of_fuel
  | S fuel' =>
      active ← gets (λ st, active_idx (fst st));
      res ← attempt (on_segment active (Segment_append_batch payloads));
      match res with
      | inl (offset, count) =>
          let base_offset := match base_offset with None => Some offset | Some _ => base_offset end in
          if blen payloads <? count then panic else
          let payloads := drop (Z.to_nat count) payloads in
          _ ← when (negb (bool_decide (payloads = []))) (rotate active);
          append_batch_loop fuel' payloads base_offset
      | inr (SegmentFull _ _) =>
          _ ← rotate active;
          append_batch_loop fuel' payloads base_offset
      | inr e => throw e
      end
  end.

Definition Partition_append_batch (payloads : list bytes) : PartIO Z :=
  append_batch_loop (2 * length payloads) payloads None.

(** The segment whose base is the greatest one not above the offset. *)
Definition find_segment (p : Partition) (offset : Z) : option nat :=
  match binary_search_by_key sg_base_offset (pt_segments p) offset with
  | inl idx => Some idx
  | inr O => None
  | inr (S idx) => Some idx
  end.

Definition Partition_read (offset : Z) : PartIO (option LogRecord) :=
  p ← gets fst;
  match find_segment p offset with
  | None => mret None
  | Some segment_idx => on_segment segment_idx (Segment_read_at offset)
  end.

(** `28 + key length as u32 + value length as u32`. *)
Definition rec_len (r : LogRecord) : Z :=
  add_u32 (add_u32 28 (as_u32 (opt_len (r_key r)))) (as_u32 (opt_len (r_value r))).

(** The `for r in records` loop: an early return, or the offset, the budget and
    the results. *)
Fixpoint take_records (records : list LogRecord) (offset bytes_budget : Z) (results : list LogRecord)
  : list LogRecord + (Z * Z * list LogRecord) :=
  match records with
  | [] => inr (offset, bytes_budget, results)
  | r :: rest =>
      if rec_len r <=? bytes_budget
      then take_records rest (add_u64 (r_offset r) 1) (bytes_budget - rec_len r) (results ++ [r])
      else if bool_decide (results = []) then inl (results ++ [r])
      else inl results
  end.

(** The `while segment_idx < self.segments.len() && bytes_budget > 0` loop; every
    turn moves to the next segment. *)
Fixpoint read_batch_loop (fuel : nat) (segment_idx : nat) (offset bytes_budget : Z)
    (results : list LogRecord) : PartIO (list LogRecord) :=
  segments ← gets (λ st, pt_segments (fst st));
  if negb ((segment_idx <? length segments)%nat && (0 <? bytes_budget)) then mret results else
  match fuel with
  | O => out_of_fuel
  | S fuel' =>
      records ← on_segment segment_idx (Segment_read_batch offset bytes_budget);
      segments ← gets (λ st, pt_segments (fst st));
      let next offset := match segments !! S segment_idx with Some s => sg_base_offset s | None => offset end in
      if bool_decide (records = []) then
        read_batch_loop fuel' (S segment_idx) (next offset) bytes_budget results
      else
      match take_records records offset bytes_budget results with
      | inl results => mret results
      | inr (offset, bytes_budget, results) =>
          read_batch_loop fuel' (S segment_idx) (next offset) bytes_budget results
      end
  end.

Definition Partition_read_batch (offset max_bytes : Z) : PartIO (list LogRecord) :=
  p ← gets fst;
  match find_segment p offset with
  | None => mret []
  | Some segment_idx => read_batch_loop (length (pt_segments p)) segment_idx offset max_bytes []
  end.

Definition Partition_flush : PartIO unit :=
  p ← gets fst;
  match pt_segments p with [] => mret tt | _ :: _ => on_segment (active_idx p) Segment_flush end.
Definition Partition_sync : PartIO unit :=
  p ← gets fst;
  match pt_segments p with [] => mret tt | _ :: _ => on_segment (active_idx p) Segment_sync end.
End partition.
