(* ===== verification/Listing.v ===== *)
(** * Directory listings

    The names the start-up scan sees, and how they change when a segment's files
    are written or created: the log's name is recognised and parsed back to its
    base offset, the index's name is skipped. *)
From S2P Require Import Prelude Errors BytesCrate StdText FileSystem Index Record Segment SegmentInv SegmentWrite Partition.
#[local] Open Scope Z_scope.

(** ** File names *)
Lemma split_last_dot_none s : dot_byte ∉ s → split_last_dot s = None.
Proof.
  induction s as [|c s IH]; intros Hs; [done|]. rewrite not_elem_of_cons in Hs. destruct Hs as [Hc Hs].
  cbn [split_last_dot]. rewrite IH by done. by rewrite bool_decide_eq_false_2 by congruence.
Qed.

Lemma split_last_dot_app pre suf :
  dot_byte ∉ suf → split_last_dot (pre ++ dot_byte :: suf) = Some (pre, suf).
Proof.
  intros Hs. induction pre as [|c pre IH]; cbn [app split_last_dot].
  - rewrite split_last_dot_none by done. by rewrite bool_decide_eq_true_2.
  - by rewrite IH.
Qed.

Lemma format_020_cons n : ∃ c r, format_020 n = c :: r.
Proof. unfold format_020. cbn [digits]. eauto. Qed.

Lemma log_name_log n : is_u64 n → log_name (format_020 n ++ str ".log") = Some n.
Proof.
  intros Hn. unfold log_name, extension, file_stem.
  change (str ".log") with (dot_byte :: str "log").
  rewrite split_last_dot_app by (apply (bool_decide_unpack _); vm_compute; done).
  destruct (format_020_cons n) as (c & r & Heq). rewrite Heq. rewrite bool_decide_eq_true_2 by done.
  rewrite <- Heq. by apply parse_format_020.
Qed.

Lemma log_name_index n : log_name (format_020 n ++ str ".index") = None.
Proof.
  unfold log_name, extension. change (str ".index") with (dot_byte :: str "index").
  rewrite split_last_dot_app by (apply (bool_decide_unpack _); vm_compute; done).
  destruct (format_020_cons n) as (c & r & ->). by rewrite bool_decide_eq_false_2.
Qed.

(** ** Listings as sets of paths *)
Lemma prefixes_length p q : q ∈ prefixes p → (length q ≤ length p)%nat.
Proof.
  revert q. induction p as [|c p IH]; intros q; cbn [prefixes].
  - by intros ->%list_elem_of_singleton.
  - intros [->|Hq]%elem_of_cons; [cbn; lia|]. apply list_elem_of_fmap in Hq as (r & -> & Hr).
    cbn. apply IH in Hr. lia.
Qed.

Lemma child_name_prefix dir q : q ∈ prefixes dir → child_name dir q = None.
Proof.
  intros Hpre%prefixes_length. unfold child_name. rewrite bool_decide_eq_false_2; [done|].
  intros [Hne Hpar]. apply (f_equal length) in Hpar. unfold parent in Hpar.
  rewrite length_take in Hpar. destruct q as [|c q]; [done|]. cbn [length] in *. lia.
Qed.

Lemma child_name_snoc dir c : child_name dir (dir ++ [c]) = Some c.
Proof.
  unfold child_name. rewrite bool_decide_eq_true_2; [apply last_snoc|].
  split; [by destruct dir|apply parent_snoc].
Qed.

Section omap_sets.
Context {A : Type} (f : path → option A).

Lemma omap_none l : (∀ q, q ∈ l → f q = None) → omap f l = [].
Proof.
  induction l as [|q l IH]; intros Hl; [done|]. cbn [omap list_omap].
  rewrite (Hl q ltac:(left)). apply IH. intros r Hr. apply Hl. by right.
Qed.

Lemma omap_extra (X Y : gset path) :
  X ⊆ Y → (∀ q, q ∈ Y → q ∉ X → f q = None) → omap f (elements Y) ≡ₚ omap f (elements X).
Proof.
  intros Hsub Hf. rewrite (union_difference_L X Y Hsub).
  rewrite elements_disj_union by (apply disjoint_difference_r1; done). rewrite omap_app.
  rewrite (omap_none (elements (Y ∖ X))); [by rewrite app_nil_r|].
  intros q Hq%elem_of_elements. apply elem_of_difference in Hq as [HY HX]. by apply Hf.
Qed.

Lemma omap_insert (X : gset path) q a :
  q ∉ X → f q = Some a → omap f (elements ({[q]} ∪ X)) ≡ₚ a :: omap f (elements X).
Proof. intros Hq Hf. rewrite elements_union_singleton by done. cbn [omap list_omap]. by rewrite Hf. Qed.

(** Only the elements that [f] maps to something matter. *)
Lemma omap_agree (X Y : gset path) :
  (∀ q, is_Some (f q) → q ∈ X ↔ q ∈ Y) → omap f (elements X) ≡ₚ omap f (elements Y).
Proof.
  intros Hxy. trans (omap f (elements (X ∪ Y))); [symmetry|]; apply omap_extra.
  - apply union_subseteq_l.
  - intros q [Hq|Hq]%elem_of_union Hnot; [done|]. destruct (f q) as [a|] eqn:Hf; [|done]. exfalso. apply Hnot.
    apply Hxy; [by eexists|exact Hq].
  - apply union_subseteq_r.
  - intros q [Hq|Hq]%elem_of_union Hnot; [|done]. destruct (f q) as [a|] eqn:Hf; [|done]. exfalso. apply Hnot.
    apply Hxy; [by eexists|exact Hq].
Qed.
End omap_sets.

(** The base offsets of the logs a scan of [dir] finds. *)
Definition log_bases (dir : path) (w : World) : list Z := omap log_name (names dir w).
Definition path_base (dir q : path) : option Z := child_name dir q ≫= log_name.

Lemma log_bases_eq dir w :
  log_bases dir w = omap (path_base dir) (elements (dom (w_files w) ∪ w_dirs w)).
Proof.
  unfold log_bases, names, path_base. induction (elements _) as [|q l IH]; [done|].
  cbn [omap list_omap]. destruct (child_name dir q) as [c|]; cbn; [|done].
  destruct (log_name c); by rewrite <- IH.
Qed.

Lemma path_base_log dir n : is_u64 n → path_base dir (log_path dir n) = Some n.
Proof. intros Hn. unfold path_base. rewrite log_path_eq, child_name_snoc. cbn. by apply log_name_log. Qed.
Lemma path_base_index dir n : path_base dir (index_path dir n) = None.
Proof. unfold path_base. rewrite index_path_eq, child_name_snoc. cbn. apply log_name_index. Qed.
Lemma path_base_prefix dir q : q ∈ prefixes dir → path_base dir q = None.
Proof. intros Hq. unfold path_base. by rewrite child_name_prefix. Qed.

Lemma log_bases_in dir w n :
  is_u64 n → is_Some (w_files w !! log_path dir n) → n ∈ log_bases dir w.
Proof.
  intros Hn Hf. rewrite log_bases_eq. apply list_elem_of_omap. exists (log_path dir n).
  split; [|by apply path_base_log]. apply elem_of_elements, elem_of_union_l. by apply elem_of_dom.
Qed.

(** Making the directory adds no entry to it. *)
Lemma log_bases_mkdir dir w w' :
  w_files w' = w_files w → w_dirs w' = list_to_set (prefixes dir) ∪ w_dirs w →
  log_bases dir w' ≡ₚ log_bases dir w.
Proof.
  intros Hf Hd. rewrite !log_bases_eq, Hf, Hd. apply omap_extra.
  - intros q. rewrite !elem_of_union. intuition.
  - intros q. rewrite !elem_of_union, elem_of_list_to_set. intros Hq Hnot. apply path_base_prefix. intuition.
Qed.

(** Rewriting the files of a segment that has both. *)
Lemma log_bases_write dir s w' w :
  changes_only (seg_paths dir s) w' w →
  (∀ p, p ∈ seg_paths dir s → is_Some (w_files w !! p) ∧ is_Some (w_files w' !! p)) →
  log_bases dir w' = log_bases dir w.
Proof.
  intros (Hf & Hd & _) Hsome. rewrite !log_bases_eq, Hd. do 3 f_equal. apply set_eq. intros p.
  rewrite !elem_of_dom. destruct (decide (p ∈ seg_paths dir s)) as [Hp|Hp]; [|by rewrite Hf].
  destruct (Hsome p Hp). by split.
Qed.

(** Creating the files of a new segment. *)
Lemma log_bases_create dir s w' w :
  is_u64 (sg_base_offset s) → free_names dir (sg_base_offset s) w →
  (∀ p, p ∉ seg_paths dir s → w_files w' !! p = w_files w !! p) →
  w_dirs w' = list_to_set (prefixes dir) ∪ w_dirs w →
  (∀ p, p ∈ seg_paths dir s → is_Some (w_files w' !! p)) →
  log_bases dir w' ≡ₚ sg_base_offset s :: log_bases dir w.
Proof.
  intros Hu (Hl & Hi & Hn) Hf Hd Hsome. rewrite !log_bases_eq.
  rewrite <- (omap_insert (path_base dir) _ (log_path dir (sg_base_offset s))); [|..|by apply path_base_log].
  - apply omap_extra.
    + intros p. rewrite !elem_of_union, !elem_of_dom, elem_of_singleton, Hd, elem_of_union.
      intros [->|[Hp|Hp]]; [left; apply Hsome, seg_paths_log| |by right; right]. left.
      destruct (decide (p ∈ seg_paths dir s)) as [Hin|Hin]; [by apply Hsome|by rewrite Hf].
    + intros p. rewrite !elem_of_union, !elem_of_dom, elem_of_singleton, Hd, elem_of_union, elem_of_list_to_set.
      intros Hp Hnot. destruct Hp as [Hp|[Hp|Hp]]; [|by apply path_base_prefix|destruct Hnot; by right; right].
      destruct (decide (p ∈ seg_paths dir s)) as [Hin|Hin]; [|rewrite Hf in Hp by exact Hin; destruct Hnot; by right; left].
      unfold seg_paths in Hin. rewrite !elem_of_cons, elem_of_nil in Hin.
      destruct Hin as [->|[->|[]]]; [destruct Hnot; by left|apply path_base_index].
  - rewrite elem_of_union, elem_of_dom, Hn. intros [[x Hx]|Hx]; [discriminate Hx|exact (Hl Hx)].
Qed.
