(* ===== verification/PartitionInv.v ===== *)
(** * The partition invariant

    [part_inv p w base rs]: the segments of [p], laid end to end, store exactly
    the records [rs], whose offsets are consecutive from [base]. Only the last
    (active) segment may be empty. *)
From S2P Require Import Prelude Errors BytesCrate StdText FileSystem BinarySearch Index Record Segment SegmentInv SegmentRead SegmentWrite Partition Listing.
#[local] Open Scope Z_scope.

(** Segments that follow each other from offset [base] on. *)
Fixpoint chain (dir : path) (w : World) (base : Z) (ss : list Segment) (parts : list (list LogRecord))
  : Prop :=
  match ss, parts with
  | [], [] => True
  | s :: ss', rs :: parts' =>
      seg_inv dir s w rs ∧ sg_base_offset s = base ∧ (ss' = [] ∨ rs ≠ []) ∧
      chain dir w (base + blen rs) ss' parts'
  | _, _ => False
  end.

Lemma chain_split dir w base l1 s l2 parts :
  chain dir w base (l1 ++ s :: l2) parts ↔
  ∃ p1 rs p2, parts = p1 ++ rs :: p2 ∧ chain dir w base l1 p1 ∧ Forall (λ r, r ≠ []) p1 ∧
    seg_inv dir s w rs ∧ sg_base_offset s = base + blen (concat p1) ∧ (l2 = [] ∨ rs ≠ []) ∧
    chain dir w (base + blen (concat p1) + blen rs) l2 p2.
Proof.
  revert base parts. induction l1 as [|t l1 IH]; intros base parts; cbn [app chain].
  - split.
    + destruct parts as [|rs parts]; [done|]. intros (Hs & Hb & Hn & Hc).
      exists [], rs, parts. cbn [concat]. rewrite blen_nil, Z.add_0_r. split_and!; done || constructor.
    + intros (p1 & rs & p2 & -> & H1 & _ & Hs & Hb & Hn & Hc). destruct p1; [|done].
      cbn [concat app] in *. rewrite blen_nil, Z.add_0_r in *. done.
  - split.
    + destruct parts as [|tr parts]; [done|]. intros (Ht & Hb & [Hn|Hn] & Hc); [by destruct l1|].
      apply IH in Hc as (p1 & rs & p2 & -> & Hc1 & Hf & Hs & Hsb & Hsn & Hc2).
      exists (tr :: p1), rs, p2. cbn [concat app chain]. rewrite blen_app, Z.add_assoc.
      split_and!; try done; [by right|by constructor].
    + intros (p1 & rs & p2 & -> & H1 & Hf & Hs & Hb & Hn & Hc). destruct p1 as [|tr p1]; [done|].
      destruct H1 as (Ht & Htb & _ & Hc1). apply Forall_cons in Hf as [Htr Hf]. cbn [app].
      cbn [concat] in *. rewrite blen_app, Z.add_assoc in *. split_and!; [done|done|by right|].
      apply IH. exists p1, rs, p2. done.
Qed.

Lemma chain_snoc dir w base l s parts :
  chain dir w base (l ++ [s]) parts ↔
  ∃ p1 rs, parts = p1 ++ [rs] ∧ chain dir w base l p1 ∧ Forall (λ r, r ≠ []) p1 ∧
    seg_inv dir s w rs ∧ sg_base_offset s = base + blen (concat p1).
Proof.
  rewrite chain_split. split.
  - intros (p1 & rs & p2 & -> & Hc & Hf & Hs & Hb & _ & Hc2). destruct p2; [|done].
    exists p1, rs. done.
  - intros (p1 & rs & -> & Hc & Hf & Hs & Hb). exists p1, rs, []. split_and!; try done. by left.
Qed.

(** Where the segments of a chain start. *)
Lemma chain_bases dir w base ss parts s :
  chain dir w base ss parts → s ∈ ss →
  base ≤ sg_base_offset s ≤ base + blen (concat parts) ∧ is_u64 (sg_base_offset s).
Proof.
  intros Hc Hin. apply list_elem_of_split in Hin as (l1 & l2 & ->).
  apply chain_split in Hc as (p1 & rs & p2 & -> & _ & _ & [] & Hb & _ & _).
  rewrite concat_app. cbn [concat]. unfold is_uint. len.
Qed.

Lemma chain_before dir w base l1 s l2 parts t :
  chain dir w base (l1 ++ s :: l2) parts → t ∈ l1 → sg_base_offset t < sg_base_offset s.
Proof.
  intros Hc Hin. apply list_elem_of_split in Hin as (k1 & k2 & ->).
  apply chain_split in Hc as (p1 & rs & p2 & -> & Hc & Hf & _ & Hb & _ & _).
  apply chain_split in Hc as (q1 & ts & q2 & -> & _ & _ & _ & Hb2 & _ & _).
  apply Forall_app in Hf as [_ [Hne _]%Forall_cons].
  assert (blen ts ≠ 0) by (by intros ?%blen_0). rewrite concat_app in Hb. cbn [concat] in Hb. len.
Qed.

Lemma chain_sorted dir w base ss parts :
  chain dir w base ss parts → strictly_sorted_by sg_base_offset ss.
Proof.
  intros Hc i j x y Hij Hi Hj. rewrite <- (take_drop_middle ss j y Hj) in Hc.
  eapply chain_before; [exact Hc|]. apply list_elem_of_lookup. exists i. by apply lookup_take_Some.
Qed.

Lemma chain_frame dir w' w base ss parts :
  (∀ s p, s ∈ ss → p ∈ seg_paths dir s → w_files w' !! p = w_files w !! p) →
  chain dir w base ss parts → chain dir w' base ss parts.
Proof.
  revert base parts. induction ss as [|s ss IH]; intros base [|rs parts] Hf; try done.
  intros (Hs & Hb & Hn & Hc). split_and!; [|done|done|].
  - eapply seg_inv_frame; [|exact Hs]. intros p Hp. apply (Hf s); [left|done].
  - apply IH; [|done]. intros t p Ht. apply Hf. by right.
Qed.

Lemma chain_same dir w' w base ss parts :
  same_fs w' w → chain dir w base ss parts → chain dir w' base ss parts.
Proof. intros (Hf & _). apply chain_frame. intros s p _ _. by rewrite Hf. Qed.

(** Replacing a segment by an equivalent one. *)
Lemma chain_update dir w base l1 s s' l2 parts :
  (∀ rs, seg_inv dir s w rs → seg_inv dir s' w rs) → sg_base_offset s' = sg_base_offset s →
  chain dir w base (l1 ++ s :: l2) parts → chain dir w base (l1 ++ s' :: l2) parts.
Proof.
  intros Hs Hb. rewrite !chain_split. intros (p1 & rs & p2 & ? & ? & ? & ? & ? & ? & ?).
  exists p1, rs, p2. split_and!; auto. by rewrite Hb.
Qed.

(** The files of different segments are different. *)
Lemma seg_paths_disjoint dir s t p :
  is_u64 (sg_base_offset s) → is_u64 (sg_base_offset t) → sg_base_offset s ≠ sg_base_offset t →
  p ∈ seg_paths dir s → p ∉ seg_paths dir t.
Proof.
  intros Hs Ht Hne Hp1 Hp2. unfold seg_paths in *. rewrite !elem_of_cons, elem_of_nil in Hp1, Hp2.
  destruct Hp1 as [->|[->|[]]], Hp2 as [Heq|[Heq|[]]].
  - by apply log_path_inj in Heq.
  - by apply log_index_ne in Heq.
  - symmetry in Heq. by apply log_index_ne in Heq.
  - by apply index_path_inj in Heq.
Qed.

Lemma chain_consecutive dir w base ss parts :
  chain dir w base ss parts → consecutive base (concat parts).
Proof.
  revert base parts. induction ss as [|s ss IH]; intros base [|rs parts]; try done.
  intros (Hs & Hb & _ & Hc). cbn [concat]. apply consecutive_app. split; [|by apply IH].
  rewrite <- Hb. apply Hs.
Qed.

Lemma chain_typed dir w base ss parts :
  chain dir w base ss parts → Forall record_typed (concat parts).
Proof.
  revert base parts. induction ss as [|s ss IH]; intros base [|rs parts]; try done.
  intros (Hs & Hb & _ & Hc). cbn [concat]. apply Forall_app. split; [apply Hs|by eapply IH].
Qed.

(** ** The invariant *)
Record part_inv (p : Partition) (w : World) (base : Z) (rs : list LogRecord) : Prop := {
  pi_chain : ∃ parts, chain (pt_base_dir p) w base (pt_segments p) parts ∧ rs = concat parts;
  pi_active : ∃ l s, pt_segments p = l ++ [s] ∧
    sg_max_bytes s = pt_max_segment_bytes p ∧ sg_current_size s ≤ pt_max_segment_bytes p;
  pi_max : pt_max_segment_bytes p ≤ 2 ^ 63;
  pi_dir : usable_dir (pt_base_dir p) w;
  pi_free : ∀ n, is_u64 n → base + blen rs ≤ n →
    (∀ s, last (pt_segments p) = Some s → sg_base_offset s < n) → free_names (pt_base_dir p) n w
}.

(** The next write goes to the end of the active log. *)
Definition part_writable (p : Partition) (w : World) : Prop :=
  ∀ s, last (pt_segments p) = Some s → writable s w.

(** The active segment was created by this process: its handle is in append
    mode, so reads do not move where writes go. *)
Definition part_fresh (p : Partition) : Prop :=
  ∀ s, last (pt_segments p) = Some s → fl_append (sg_log_file s) = true.

Lemma fresh_writable p w : part_fresh p → part_writable p w.
Proof. intros Hf s Hs. left. by apply Hf. Qed.

(** What the start-up scan of the directory would find: exactly the partition's
    segments. *)
Record dir_inv (p : Partition) (w : World) : Prop := {
  di_dir : pt_base_dir p ∈ w_dirs w;
  di_names : log_bases (pt_base_dir p) w ≡ₚ (sg_base_offset <$> pt_segments p);
  di_nodirs : ∀ n, is_u64 n →
    (log_path (pt_base_dir p) n ∉ w_dirs w) ∧ (index_path (pt_base_dir p) n ∉ w_dirs w);
  di_order : ∀ l, w_dir_order w l ≡ₚ l
}.

Lemma dir_inv_same p w' w : same_fs w' w → dir_inv p w → dir_inv p w'.
Proof.
  intros (Hf & Hd & Ho) [H1 H2 H3 H4]. split.
  - rewrite Hd. exact H1.
  - rewrite <- H2, !log_bases_eq. by rewrite Hf, Hd.
  - intros n. rewrite Hd. apply H3.
  - rewrite Ho. exact H4.
Qed.

(** Both files of a segment exist. *)
Lemma seg_files dir s w rs :
  seg_inv dir s w rs → ∀ p, p ∈ seg_paths dir s → is_Some (w_files w !! p).
Proof.
  intros [] p Hp. unfold seg_paths in Hp. rewrite !elem_of_cons, elem_of_nil in Hp.
  destruct Hp as [->|[->|[]]]; [by eexists|]. destruct si_index as (_ & Hix & _).
  rewrite si_index_path in Hix. by eexists.
Qed.
