(* ===== verification/Isolation.v ===== *)
(** * Partitions do not interfere

    [within dir w' w]: between [w] and [w'] only files directly in [dir] and the
    directories that lead to it may have changed. Partitions whose directories
    are [apart] keep their invariants under such a change. *)
From S2P Require Import Prelude Errors BytesCrate StdText FileSystem BinarySearch Index Record Segment SegmentInv SegmentRead SegmentWrite Partition Listing PartitionInv.
#[local] Open Scope Z_scope.

Record within (dir : path) (w' w : World) : Prop := {
  wi_files : ∀ p, parent p ≠ dir → w_files w' !! p = w_files w !! p;
  wi_kept : w_dirs w ⊆ w_dirs w';
  wi_made : w_dirs w' ⊆ list_to_set (prefixes dir) ∪ w_dirs w;
  wi_order : w_dir_order w' = w_dir_order w
}.

#[export] Instance within_preorder dir : PreOrder (within dir).
Proof.
  split.
  - intros w. split; [done|done|apply union_subseteq_r|done].
  - intros w1 w2 w3 [Hf1 Hk1 Hm1 Ho1] [Hf2 Hk2 Hm2 Ho2]. split.
    + intros p Hp. rewrite Hf1, Hf2 by exact Hp. done.
    + by etrans.
    + etrans; [exact Hm1|]. apply union_least; [apply union_subseteq_l|exact Hm2].
    + by rewrite Ho1.
Qed.

Lemma within_same dir w' w : same_fs w' w → within dir w' w.
Proof.
  intros (Hf & Hd & Ho). split.
  - intros p _. by rewrite Hf.
  - by rewrite Hd.
  - rewrite Hd. apply union_subseteq_r.
  - exact Ho.
Qed.

Lemma within_changes dir ps w' w :
  (∀ p, p ∈ ps → parent p = dir) → changes_only ps w' w → within dir w' w.
Proof.
  intros Hps (Hf & Hd & Ho). split.
  - intros p Hp. apply Hf. intros Hin. exact (Hp (Hps p Hin)).
  - by rewrite Hd.
  - rewrite Hd. apply union_subseteq_r.
  - exact Ho.
Qed.

(** Making the directory and changing files in it. *)
Lemma within_made dir (ps : list path) w' w :
  (∀ p, p ∈ ps → parent p = dir) → (∀ p, p ∉ ps → w_files w' !! p = w_files w !! p) →
  w_dirs w' = list_to_set (prefixes dir) ∪ w_dirs w → w_dir_order w' = w_dir_order w →
  within dir w' w.
Proof.
  intros Hps Hf Hd Ho. split.
  - intros p Hp. apply Hf. intros Hin. exact (Hp (Hps p Hin)).
  - rewrite Hd. apply union_subseteq_r.
  - by rewrite Hd.
  - exact Ho.
Qed.

Lemma seg_paths_parent dir s p : p ∈ seg_paths dir s → parent p = dir.
Proof.
  unfold seg_paths. rewrite !elem_of_cons, elem_of_nil.
  intros [->|[->|[]]]; [apply parent_log|apply parent_index].
Qed.

(** ** Directories that are not inside one another *)
Definition apart (d1 d2 : path) : Prop := ¬ d1 `prefix_of` d2 ∧ ¬ d2 `prefix_of` d1.

Lemma apart_sym d1 d2 : apart d1 d2 → apart d2 d1.
Proof. intros [H1 H2]. split; [exact H2|exact H1]. Qed.

Lemma apart_same_length d1 d2 : length d1 = length d2 → d1 ≠ d2 → apart d1 d2.
Proof.
  intros Hl Hne. split; intros Hp.
  - apply Hne. apply prefix_length_eq; [exact Hp|lia].
  - apply Hne. symmetry. apply prefix_length_eq; [exact Hp|lia].
Qed.

Lemma prefixes_prefix q p : q ∈ prefixes p → q `prefix_of` p.
Proof.
  revert q. induction p as [|c p IH]; intros q; cbn [prefixes].
  - intros ->%list_elem_of_singleton. done.
  - intros [->|Hq]%elem_of_cons; [apply prefix_nil|].
    apply list_elem_of_fmap in Hq as (r & -> & Hr). by apply prefix_cons, IH.
Qed.

Lemma parent_prefix q : parent q `prefix_of` q.
Proof. exists (drop (length q - 1) q). unfold parent. by rewrite take_drop. Qed.

Section frame.
Context (dir other : path) (w' w : World) (Hap : apart dir other) (Hwi : within dir w' w).

Lemma frame_file p : parent p = other → w_files w' !! p = w_files w !! p.
Proof using Hap Hwi. intros Hp. apply Hwi. rewrite Hp. intros ->. by destruct Hap as [[] _]. Qed.

Lemma frame_dir c : other ++ [c] ∈ w_dirs w' → other ++ [c] ∈ w_dirs w.
Proof using Hap Hwi.
  intros [Hin%elem_of_list_to_set|Hin]%(wi_made _ _ _ Hwi)%elem_of_union; [|exact Hin].
  destruct (proj2 Hap). etrans; [|by apply prefixes_prefix]. by apply prefix_app_r.
Qed.

Lemma frame_usable : usable_dir other w → usable_dir other w'.
Proof using Hap Hwi.
  unfold usable_dir. rewrite !Forall_forall. intros Hu q Hq. rewrite (wi_files _ _ _ Hwi); [by apply Hu|].
  intros Hp. apply (proj1 Hap). rewrite <- Hp. etrans; [apply parent_prefix|by apply prefixes_prefix].
Qed.

Lemma frame_free n : free_names other n w → free_names other n w'.
Proof using Hap Hwi.
  intros (H1 & H2 & H3). split; [|split].
  - intros Hin. apply H1. rewrite log_path_eq in Hin |- *. by apply frame_dir.
  - intros Hin. apply H2. rewrite index_path_eq in Hin |- *. by apply frame_dir.
  - rewrite frame_file; [exact H3|apply parent_log].
Qed.

Lemma frame_log_bases : log_bases other w' ≡ₚ log_bases other w.
Proof using Hap Hwi.
  rewrite !log_bases_eq. apply omap_agree. intros q [n Hq]. unfold path_base, child_name in Hq.
  case_bool_decide as Hpar; [|done]. destruct Hpar as [Hne Hpar]. rewrite !elem_of_union, !elem_of_dom, (frame_file q Hpar).
  assert (∃ c, q = other ++ [c]) as [c ->].
  { destruct (exists_last Hne) as (l & c & ->). exists c. by rewrite <- Hpar, parent_snoc. }
  assert (other ++ [c] ∈ w_dirs w' ↔ other ++ [c] ∈ w_dirs w) as ->; [|done].
  split; [apply frame_dir|apply (wi_kept _ _ _ Hwi)].
Qed.

(** A partition elsewhere keeps its invariants. *)
Lemma frame_part_inv p base rs :
  pt_base_dir p = other → part_inv p w base rs → part_inv p w' base rs.
Proof using Hap Hwi.
  intros Hd [(parts & Hc & Hrs) Ha Hm Hu Hf]. rewrite Hd in *. split; rewrite ?Hd; try assumption.
  - exists parts. split; [|exact Hrs]. eapply chain_frame; [|exact Hc]. intros s q _ Hq.
    apply frame_file. by eapply seg_paths_parent.
  - by apply frame_usable.
  - intros n Hn Hle Hlast. apply frame_free, Hf; assumption.
Qed.

Lemma frame_dir_inv p : pt_base_dir p = other → dir_inv p w → dir_inv p w'.
Proof using Hap Hwi.
  intros Hd [H1 H2 H3 H4]. rewrite Hd in *. split; rewrite ?Hd.
  - by apply (wi_kept _ _ _ Hwi).
  - by rewrite frame_log_bases.
  - intros n Hn. destruct (H3 n Hn) as [Hl Hi]. rewrite log_path_eq in Hl |- *. rewrite index_path_eq in Hi |- *.
    split; intros Hin%frame_dir; [exact (Hl Hin)|exact (Hi Hin)].
  - rewrite (wi_order _ _ _ Hwi). exact H4.
Qed.
End frame.
