(* ===== verification/PartitionWrite.v ===== *)
(** * Appending to a partition (src/src/storage/partition.rs)

    Under the invariant an append stores its records at the end of the log,
    rotating segments as needed, and answers with the offset of the first. *)
From S2P Require Import Prelude Errors BytesCrate StdText FileSystem BinarySearch Index Record Segment SegmentInv SegmentRead SegmentWrite Partition Listing PartitionInv Isolation.
#[local] Open Scope Z_scope.

(** ** The active segment *)
Lemma active_at p l s : pt_segments p = l ++ [s] → active_idx p = length l.
Proof. intros Hp. unfold active_idx. rewrite Hp, length_app. cbn. lia. Qed.

Lemma on_segment_at {A} (m : SegIO A) p w l s l2 :
  pt_segments p = l ++ s :: l2 →
  on_segment (length l) m (p, w) =
    let '(o, (s', w')) := m (s, w) in (o, (set_segments (l ++ s' :: l2) p, w')).
Proof.
  intros Hp. unfold on_segment. cbn [fst snd]. rewrite Hp, list_lookup_middle by done.
  destruct (m (s, w)) as [o [s' w']]. by rewrite insert_app_r_alt, Nat.sub_diag by lia.
Qed.

Lemma on_active {A} (m : SegIO A) p w l s :
  pt_segments p = l ++ [s] →
  on_segment (active_idx p) m (p, w) =
    let '(o, (s', w')) := m (s, w) in (o, (set_segments (l ++ [s']) p, w')).
Proof. intros Hp. rewrite (active_at p l s Hp). by apply on_segment_at. Qed.

Lemma set_segments_same p ss : pt_segments p = ss → set_segments ss p = p.
Proof. intros <-. by destruct p. Qed.

(** The active segment [s] with its records [ars], and the segments [l] with the
    records [p1] before it. *)
Record active_view (p : Partition) (w : World) (base : Z) (rs : list LogRecord)
    (l : list Segment) (s : Segment) (p1 : list (list LogRecord)) (ars : list LogRecord) : Prop := {
  av_segments : pt_segments p = l ++ [s];
  av_records : rs = concat p1 ++ ars;
  av_chain : chain (pt_base_dir p) w base l p1;
  av_full : Forall (λ r, r ≠ []) p1;
  av_seg : seg_inv (pt_base_dir p) s w ars;
  av_base : sg_base_offset s = base + blen (concat p1);
  av_max : sg_max_bytes s = pt_max_segment_bytes p;
  av_size : sg_current_size s ≤ pt_max_segment_bytes p;
  av_before : ∀ t, t ∈ l → sg_base_offset t < sg_base_offset s
}.

Lemma part_active p w base rs :
  part_inv p w base rs → ∃ l s p1 ars, active_view p w base rs l s p1 ars.
Proof.
  intros [(parts & Hc & ->) (l & s & Hp & Hm & Hsz) _ _ _]. rewrite Hp in Hc.
  pose proof (λ t, chain_before _ _ _ _ _ _ _ t Hc) as Hbefore.
  apply chain_snoc in Hc as (p1 & ars & -> & Hc & Hf & Hs & Hb).
  exists l, s, p1, ars. rewrite concat_app. cbn [concat]. rewrite app_nil_r. split; auto.
Qed.

Lemma av_next p w base rs l s p1 ars :
  active_view p w base rs l s p1 ars →
  Partition_next_offset p = base + blen rs ∧ sg_next_offset s = base + blen rs ∧
  base + blen rs < 2 ^ 64 ∧ is_u64 (sg_base_offset s).
Proof.
  intros [Hp -> _ _ [] Hb _ _ _]. unfold Partition_next_offset, is_uint.
  rewrite Hp, last_snoc. len.
Qed.

(** A change of the files of [s] only, that may also have made the directory. *)
Definition grows (dir : path) (s : Segment) (w' w : World) : Prop :=
  (∀ p, p ∉ seg_paths dir s → w_files w' !! p = w_files w !! p) ∧
  w_dirs w' ⊆ list_to_set (prefixes dir) ∪ w_dirs w.

Lemma changes_grows dir s w' w : changes_only (seg_paths dir s) w' w → grows dir s w' w.
Proof. intros (Hf & Hd & _). split; [exact Hf|]. rewrite Hd. apply union_subseteq_r. Qed.

(** Segments that start before [s] keep their files. *)
Lemma chain_grows dir w' w base l s parts :
  is_u64 (sg_base_offset s) → (∀ t, t ∈ l → sg_base_offset t < sg_base_offset s) →
  grows dir s w' w → chain dir w base l parts → chain dir w' base l parts.
Proof.
  intros Hs Hlt (Hf & _) Hc. eapply chain_frame; [|exact Hc]. intros t p Ht Hp. apply Hf.
  destruct (chain_bases _ _ _ _ _ _ Hc Ht) as [_ Hu]. specialize (Hlt t Ht).
  eapply (seg_paths_disjoint dir t s); [exact Hu|exact Hs|lia|exact Hp].
Qed.

(** Later names stay free. *)
Lemma free_names_grows dir n s w' w :
  is_u64 n → is_u64 (sg_base_offset s) → sg_base_offset s < n →
  grows dir s w' w → free_names dir n w → free_names dir n w'.
Proof.
  intros Hn Hs Hlt (Hf & Hd) (H1 & H2 & H3).
  assert (Hnew : ∀ c, dir ++ [c] ∈ w_dirs w' → dir ++ [c] ∈ w_dirs w).
  { intros c [Hin%elem_of_list_to_set|Hin]%Hd%elem_of_union; [|exact Hin].
    by apply path_not_prefix in Hin. }
  split; [|split].
  - intros Hin. apply H1. rewrite log_path_eq in Hin |- *. by apply Hnew.
  - intros Hin. apply H2. rewrite index_path_eq in Hin |- *. by apply Hnew.
  - rewrite Hf; [exact H3|]. unfold seg_paths. rewrite !elem_of_cons, elem_of_nil.
    intros [Heq|[Heq|[]]]; [|by apply log_index_ne in Heq].
    apply log_path_inj in Heq; [lia|exact Hn|exact Hs].
Qed.

Lemma usable_dir_grows dir s w' w : grows dir s w' w → usable_dir dir w → usable_dir dir w'.
Proof.
  intros (Hf & _) Hu. unfold usable_dir in *. rewrite Forall_forall in *. intros q Hq.
  rewrite Hf; [by apply Hu|]. unfold seg_paths. rewrite !elem_of_cons, elem_of_nil, log_path_eq, index_path_eq.
  intros [->|[->|[]]]; by eapply path_not_prefix.
Qed.

(** Writing to the active segment. *)
Lemma part_extend p w base rs l s p1 ars s' w' new :
  part_inv p w base rs → active_view p w base rs l s p1 ars →
  extended (pt_base_dir p) s' s w' w (ars ++ new) → sg_current_size s' ≤ pt_max_segment_bytes p →
  part_inv (set_segments (l ++ [s']) p) w' base (rs ++ new) ∧
  part_writable (set_segments (l ++ [s']) p) w'.
Proof.
  intros Hinv Hav [Hs' Hw' Hh' Hcfg Hchg _] Hsz. destruct (av_next _ _ _ _ _ _ _ _ Hav) as (_ & _ & _ & Hu).
  destruct Hav as [Hp -> Hc Hf _ Hb Hmax _ Hlt]. pose proof Hcfg as (Hb' & Hm' & _). split.
  - split; cbn [set_segments pt_segments pt_base_dir pt_max_segment_bytes].
    + exists (p1 ++ [ars ++ new]). rewrite concat_app. cbn [concat]. rewrite app_nil_r, (assoc_L (++)).
      split; [|done]. apply chain_snoc. exists p1, (ars ++ new). split_and!; [done| |done|done|congruence].
      eapply chain_grows; [| |by apply changes_grows|done]; done.
    + exists l, s'. rewrite Hm'. done.
    + apply Hinv.
    + eapply usable_dir_grows; [by apply changes_grows|apply Hinv].
    + intros n Hn Hle Hlast. rewrite last_snoc in Hlast. specialize (Hlast s' eq_refl).
      eapply (free_names_grows _ _ s); [done|done|lia|by apply changes_grows|]. apply Hinv; [done|len|].
      rewrite Hp, last_snoc. intros ? [= <-]. lia.
  - intros t. cbn [set_segments pt_segments]. rewrite last_snoc. intros [= <-]. done.
Qed.

(** What an operation leaves of the partition's own fields. *)
Definition same_part (p' p : Partition) : Prop :=
  pt_topic p' = pt_topic p ∧ pt_id p' = pt_id p ∧ pt_base_dir p' = pt_base_dir p ∧
  pt_max_segment_bytes p' = pt_max_segment_bytes p ∧ pt_sync_level p' = pt_sync_level p.

#[export] Instance same_part_equiv : Equivalence same_part.
Proof.
  unfold same_part. split.
  - done.
  - intros ?? (-> & -> & -> & -> & ->). done.
  - intros ??? (-> & -> & -> & -> & ->) (-> & -> & -> & -> & ->). done.
Qed.

(** The state after a successful append: the log is [rs]. *)
Record appended (p' p : Partition) (w' w : World) (base : Z) (rs : list LogRecord) : Prop := {
  ap_inv : part_inv p' w' base rs;
  ap_writable : part_writable p' w';
  ap_healthy : healthy w';
  ap_fresh : part_fresh p → part_fresh p';
  ap_same : same_part p' p;
  ap_dir : dir_inv p w → dir_inv p' w';
  ap_within : within (pt_base_dir p) w' w
}.

Section part_write.
Context `{BytesLaws}.

Lemma Segment_flush_ok s w : Segment_flush (s, w) = (Ok tt, (s, w)).
Proof. by destruct s as [? ? [] ? ? ? ?]. Qed.

Lemma dir_inv_push p w w' l s' :
  pt_segments p = l → is_u64 (sg_base_offset s') → free_names (pt_base_dir p) (sg_base_offset s') w →
  (∀ q, q ∈ seg_paths (pt_base_dir p) s' → is_Some (w_files w' !! q)) →
  (∀ q, q ∉ seg_paths (pt_base_dir p) s' → w_files w' !! q = w_files w !! q) →
  w_dirs w' = list_to_set (prefixes (pt_base_dir p)) ∪ w_dirs w → w_dir_order w' = w_dir_order w →
  dir_inv p w → dir_inv (set_segments (l ++ [s']) p) w'.
Proof.
  intros Hp Hu Hfree Hsome Hf Hd Ho [H1' H2' H3' H4']. split; cbn [set_segments pt_segments pt_base_dir].
  - rewrite Hd. by apply elem_of_union_r.
  - rewrite (log_bases_create _ s' w' w) by done. rewrite H2', Hp, fmap_app. cbn.
    by rewrite Permutation_cons_append.
  - intros n Hn. rewrite Hd, !elem_of_union, !elem_of_list_to_set. destruct (H3' n Hn) as [Hl Hi].
    split; intros [Hin|Hin]; [|by apply Hl| |by apply Hi].
    + rewrite log_path_eq in Hin. by eapply path_not_prefix.
    + rewrite index_path_eq in Hin. by eapply path_not_prefix.
  - rewrite Ho. exact H4'.
Qed.

(** A fresh segment [s'] after the non-empty active one. *)
Record pushed (p : Partition) (s s' : Segment) (w' w : World) : Prop := {
  pu_seg : seg_inv (pt_base_dir p) s' w' [];
  pu_base : sg_base_offset s' = sg_next_offset s;
  pu_max : sg_max_bytes s' = pt_max_segment_bytes p;
  pu_grows : grows (pt_base_dir p) s' w' w;
  pu_above : sg_base_offset s < sg_next_offset s;
  pu_u64 : is_u64 (sg_next_offset s)
}.

Lemma pushed_empty p s s' w' w : pushed p s s' w' w → sg_current_size s' = 0.
Proof. intros [[? ? ? ? ? ? ? -> ? ? ? ? ?] _ _ _ _ _]. done. Qed.

Lemma active_view_push p w w' base rs l s p1 ars s' :
  active_view p w base rs l s p1 ars → ars ≠ [] → pushed p s s' w' w → 0 ≤ pt_max_segment_bytes p →
  active_view (set_segments ((l ++ [s]) ++ [s']) p) w' base rs (l ++ [s]) s' (p1 ++ [ars]) [].
Proof.
  intros Hav Hars Hpu Hmax0. pose proof (pushed_empty _ _ _ _ _ Hpu) as Hsize. destruct Hpu as [Hs' Hb' Hm' Hgrows Hne Hu].
  destruct (av_next _ _ _ _ _ _ _ _ Hav) as (_ & Hnext & _ & _). destruct Hav as [Hp Hrs Hc1 Hf1 Hs Hb _ _ Hlt].
  assert (Hrs' : rs = concat (p1 ++ [ars])) by (rewrite concat_app; cbn [concat]; by rewrite app_nil_r).
  assert (Hlt' : ∀ t, t ∈ l ++ [s] → sg_base_offset t < sg_base_offset s').
  { rewrite Hb'. intros t [Ht|Ht%list_elem_of_singleton]%elem_of_app; [|subst t; exact Hne].
    specialize (Hlt t Ht). lia. }
  split; cbn [set_segments pt_segments pt_base_dir pt_max_segment_bytes].
  - done.
  - by rewrite app_nil_r.
  - eapply chain_grows; [|exact Hlt'|exact Hgrows|]; [rewrite Hb'; exact Hu|]. apply chain_snoc. by exists p1, ars.
  - apply Forall_app. split; [exact Hf1|]. by apply Forall_singleton.
  - exact Hs'.
  - by rewrite Hb', <- Hrs'.
  - exact Hm'.
  - by rewrite Hsize.
  - exact Hlt'.
Qed.

Lemma part_inv_push p w w' base rs l s p1 ars s' :
  part_inv p w base rs → active_view p w base rs l s p1 ars → ars ≠ [] → pushed p s s' w' w → 0 ≤ pt_max_segment_bytes p →
  part_inv (set_segments ((l ++ [s]) ++ [s']) p) w' base rs.
Proof.
  intros Hinv Hav Hars Hpu Hmax0. pose proof (active_view_push _ _ _ _ _ _ _ _ _ _ Hav Hars Hpu Hmax0) as [_ Hr' Hc' Hf' Hsg Hb2 Hmx Hsz _].
  destruct Hpu as [_ Hb' _ Hgrows Hne Hu]. destruct Hinv as [_ _ Hmax Hdir Hfree]. destruct Hav as [Hp _ _ _ _ _ _ _ _].
  split; cbn [set_segments pt_segments pt_base_dir pt_max_segment_bytes] in *.
  - exists ((p1 ++ [ars]) ++ [[]]). rewrite (concat_app _ [[]]). split; [|exact Hr'].
    apply chain_snoc. eexists _, []. split; [reflexivity|]. done.
  - by exists (l ++ [s]), s'.
  - exact Hmax.
  - by eapply usable_dir_grows.
  - intros n Hn Hle Hlast. rewrite last_snoc in Hlast. specialize (Hlast s' eq_refl).
    eapply (free_names_grows _ _ s'); [exact Hn|by rewrite Hb'|exact Hlast|exact Hgrows|].
    apply Hfree; [exact Hn|exact Hle|]. rewrite Hp, last_snoc. intros ? [= <-]. lia.
Qed.

(** Starting a fresh segment after a non-empty active one. *)
Lemma rotate_ok p w base rs l s p1 ars :
  healthy w → part_inv p w base rs → active_view p w base rs l s p1 ars → ars ≠ [] →
  0 ≤ pt_max_segment_bytes p →
  ∃ p' w' s', rotate (active_idx p) (p, w) = (Ok tt, (p', w')) ∧ appended p' p w' w base rs ∧
    part_fresh p' ∧ active_view p' w' base rs (l ++ [s]) s' (p1 ++ [ars]) [].
Proof.
  intros Hw Hinv Hav Hars Hmax0. pose proof Hinv as [_ _ Hmax Hdir Hfree].
  destruct (av_next _ _ _ _ _ _ _ _ Hav) as (_ & Hnext & Hbound & _). pose proof Hav as [Hp _ _ _ Hs _ _ _ _].
  assert (Hu : is_u64 (sg_next_offset s)) by (destruct Hs; unfold is_uint; len).
  assert (Hne : sg_base_offset s < sg_next_offset s).
  { destruct Hs. assert (blen ars ≠ 0) by (by intros ?%blen_0). len. }
  assert (Hname : free_names (pt_base_dir p) (sg_next_offset s) w).
  { apply Hfree; [exact Hu|rewrite Hnext; lia|]. rewrite Hp, last_snoc. intros ? [= <-]. exact Hne. }
  unfold rotate.
  erewrite bind_Ok by (erewrite on_active by done; reflexivity). cbn [fst].
  rewrite set_segments_same by done.
  erewrite bind_Ok by (erewrite on_active by done; rewrite Segment_flush_ok; reflexivity).
  rewrite set_segments_same by done. mret_step. cbn [fst].
  destruct (Segment_create_ok (pt_base_dir p) (sg_next_offset s) (pt_max_segment_bytes p)
    (pt_sync_level p) w) as (s' & w' & Hcr & [Hs' Hw'] & Hh' & Hb' & Hm' & _ & Happ & Hfiles & Hdirs & Hord);
    [exact Hw|exact Hdir|exact Hname|exact Hu|exact Hmax|].
  erewrite bind_Ok by (apply in_world_ok, Hcr). unfold modify. cbn [fst snd]. rewrite Hp.
  assert (Hpu : pushed p s s' w' w) by (split; try done; split; [exact Hfiles|by rewrite Hdirs]).
  set (p' := set_segments _ p). exists p', w', s'. split; [reflexivity|].
  assert (Hfresh : part_fresh p').
  { intros t. cbn [p' set_segments pt_segments]. rewrite last_snoc. intros [= <-]. exact Happ. }
  split; [|split; [exact Hfresh|by eapply active_view_push]].
  split; [by eapply part_inv_push|by apply fresh_writable|exact Hh'|intros _; exact Hfresh|done| |].
  - eapply (dir_inv_push p w w' (l ++ [s]) s'); try done; [by rewrite Hb'|rewrite Hb'; exact Hname|by eapply seg_files].
  - eapply within_made; [apply seg_paths_parent|exact Hfiles|exact Hdirs|exact Hord].
Qed.

(** ** `append` *)
Definition stores (r : LogRecord) (o : Z) (key value : option bytes) : Prop :=
  r_offset r = o ∧ r_key r = key ∧ r_value r = value.

(** The listing after a write to the active segment and after a rotation. *)
Lemma dir_inv_extend p w w' base rs l s p1 ars s' new :
  active_view p w base rs l s p1 ars → extended (pt_base_dir p) s' s w' w (ars ++ new) →
  dir_inv p w → dir_inv (set_segments (l ++ [s']) p) w'.
Proof.
  intros Hav [Hs' _ _ Hcfg Hchg _] [H1' H2' H3' H4']. pose proof Hcfg as (Hb & _ & _).
  pose proof Hchg as (_ & Hd & Ho). destruct Hav as [Hp _ _ _ Hs _ _ _ _].
  split; cbn [set_segments pt_segments pt_base_dir].
  - rewrite Hd. exact H1'.
  - rewrite (log_bases_write _ s w' w Hchg).
    + rewrite H2', Hp, !fmap_app. cbn. by rewrite Hb.
    + intros q Hq. split; [by eapply seg_files|]. eapply seg_files; [exact Hs'|].
      by rewrite (seg_paths_config _ _ _ Hcfg).
  - intros n. rewrite Hd. apply H3'.
  - rewrite Ho. exact H4'.
Qed.

(** Extending the active segment, seen from the partition. *)
Lemma appended_extend p w base rs l s p1 ars s' w' new :
  part_inv p w base rs → active_view p w base rs l s p1 ars →
  extended (pt_base_dir p) s' s w' w (ars ++ new) →
  sg_current_size s + blen (log_bytes new) ≤ pt_max_segment_bytes p →
  appended (set_segments (l ++ [s']) p) p w' w base (rs ++ new).
Proof.
  intros Hinv Hav Hext Hsz.
  assert (sg_current_size s' ≤ pt_max_segment_bytes p) as Hsz'.
  { destruct Hext as [[] _ _ _ _ _], Hav as [_ _ _ _ [] _ _ _ _].
    rewrite si_size, log_bytes_app, blen_app. lia. }
  destruct (part_extend _ _ _ _ _ _ _ _ _ _ _ Hinv Hav Hext Hsz') as [Hinv' Hwr].
  pose proof Hext as [_ _ Hh _ Hchg Happ].
  split; [exact Hinv'|exact Hwr|exact Hh| |done|by eapply dir_inv_extend|].
  2: { eapply within_changes; [apply seg_paths_parent|exact Hchg]. }
  intros Hfresh t. cbn [set_segments pt_segments]. rewrite last_snoc. intros [= <-]. rewrite Happ.
  apply Hfresh. rewrite (av_segments _ _ _ _ _ _ _ _ Hav). apply last_snoc.
Qed.

Lemma active_append_ok p w base rs l s p1 ars key value :
  healthy w → part_inv p w base rs → active_view p w base rs l s p1 ars → part_writable p w →
  storable key value → base + blen rs + 1 < 2 ^ 64 →
  match append_check s (record_len key value) with
  | Some e => on_segment (active_idx p) (Segment_append key value) (p, w) = (Err e, (p, w))
  | None => ∃ p' w' r,
      on_segment (active_idx p) (Segment_append key value) (p, w) = (Ok (base + blen rs), (p', w')) ∧
      stores r (base + blen rs) key value ∧ appended p' p w' w base (rs ++ [r])
  end.
Proof.
  intros Hw Hinv Hav Hwr Hst Hroom. destruct (av_next _ _ _ _ _ _ _ _ Hav) as (_ & Hnext & _ & _).
  pose proof Hav as [Hp _ _ _ Hs _ Hm _ _].
  assert (Hws : writable s w) by (apply Hwr; rewrite Hp; apply last_snoc).
  rewrite (on_active _ _ _ _ _ Hp).
  pose proof (Segment_append_ok (pt_base_dir p) s w ars key value Hw Hs Hws Hst ltac:(lia)) as Happ.
  destruct (append_check s _) as [e|] eqn:Hchk.
  { rewrite Happ. by rewrite set_segments_same. }
  apply append_check_none in Hchk as [Hmax Hfit].
  destruct Happ as (s' & w' & ts & Heq & Hext). rewrite Heq, <- Hnext.
  eexists _, w', (new_record s ts key value). split; [reflexivity|]. split; [done|].
  eapply appended_extend; [exact Hinv|exact Hav|exact Hext|].
  rewrite log_bytes_singleton, blen_record_bytes. unfold rsize, new_record. cbn [r_key r_value].
  destruct Hs. rewrite <- Hm. len.
Qed.

(** A full segment is not empty. *)
Lemma full_nonempty dir s w rs : seg_inv dir s w rs → 0 < sg_current_size s → rs ≠ [].
Proof. intros [] Hpos ->. rewrite si_size, blen_log_nil in Hpos. lia. Qed.

(** Appending to a partition: the record goes to the end of the log, unless it
    is larger than a segment. *)
Lemma Partition_append_ok p w base rs key value :
  healthy w → part_inv p w base rs → part_writable p w → storable key value →
  base + blen rs + 1 < 2 ^ 64 →
  if pt_max_segment_bytes p <? record_len key value
  then Partition_append key value (p, w) = (Err MessageTooLarge, (p, w))
  else ∃ p' w' r, Partition_append key value (p, w) = (Ok (base + blen rs), (p', w')) ∧
         stores r (base + blen rs) key value ∧ appended p' p w' w base (rs ++ [r]).
Proof.
  intros Hw Hinv Hwr Hst Hroom. destruct (part_active _ _ _ _ Hinv) as (l & s & p1 & ars & Hav).
  pose proof (active_append_ok _ _ _ _ _ _ _ _ key value Hw Hinv Hav Hwr Hst Hroom) as Happ.
  pose proof Hav as [Hp _ _ _ Hs _ Hm _ _]. unfold Partition_append. mret_step. cbn [fst].
  pose proof (record_len_min key value).
  destruct (append_check s (record_len key value)) as [e|] eqn:Hchk.
  - erewrite bind_Ok by (apply attempt_Err, Happ). unfold append_check in Hchk. rewrite Hm in Hchk.
    destruct (Z.ltb_spec (pt_max_segment_bytes p) (record_len key value)) as [Hbig|Hsmall].
    { by injection Hchk as <-. }
    destruct (Z.ltb_spec 0 (sg_current_size s)) as [Hpos|]; [|by rewrite andb_false_r in Hchk].
    destruct (_ <? _) in Hchk; [|done]. injection Hchk as <-. reduce.
    destruct (rotate_ok _ _ _ _ _ _ _ _ Hw Hinv Hav) as (p' & w' & s' & Hrot & Happ' & _ & Hav');
      [by eapply full_nonempty|lia|].
    mstep Hrot. mret_step. cbn [fst]. destruct Happ' as [Hinv' Hwr' Hh' Hfr Hsame Hdi Hwi].
    pose proof (active_append_ok _ _ _ _ _ _ _ _ key value Hh' Hinv' Hav' Hwr' Hst Hroom) as Happ2.
    assert (append_check s' (record_len key value) = None) as Hnone.
    { unfold append_check. destruct Hav' as [_ _ _ _ [] _ Hm' _ _]. rewrite Hm'.
      pose proof Hsame as (_ & _ & _ & -> & _). rewrite si_size, blen_log_nil.
      destruct (Z.ltb_spec (pt_max_segment_bytes p) (record_len key value)); [lia|]. by rewrite andb_false_r. }
    rewrite Hnone in Happ2. destruct Happ2 as (p2 & w2 & r & Heq & Hr & [? ? ? Hfr2 Hsame2 ? Hwi2]).
    exists p2, w2, r. split; [exact Heq|]. split; [exact Hr|]. split; try assumption; [auto|by rewrite Hsame2|auto|].
    pose proof Hsame as (_ & _ & Hbd & _). rewrite Hbd in Hwi2. by etrans.
  - apply append_check_none in Hchk as [Hle _]. rewrite Hm in Hle.
    destruct (Z.ltb_spec (pt_max_segment_bytes p) (record_len key value)); [lia|].
    destruct Happ as (p2 & w2 & r & Heq & Hr & Hap). exists p2, w2, r.
    erewrite bind_Ok by (apply attempt_Ok, Heq). done.
Qed.

(** ** `append_batch` *)
Definition accepts (max : Z) (ps : list bytes) : bool := forallb (λ p, psize p <=? max) ps.

Lemma batch_plan_accepts max size pos b ps taken :
  0 ≤ pos → batch_plan max size pos b ps = inl taken → accepts max taken = true.
Proof.
  revert pos b taken. induction ps as [|p ps IH]; intros pos b taken Hpos; cbn [batch_plan].
  { by intros [= <-]. }
  destruct (Z.ltb_spec max (psize p)); [done|]. destruct (_ <? _).
  { destruct b; [by intros [= <-]|done]. }
  destruct (batch_plan _ _ _ _ _) as [t|] eqn:Hb; [|done]. intros [= <-].
  pose proof (record_len_min None (Some p)). fold (psize p) in *. cbn [accepts forallb].
  apply andb_true_iff. split; [by apply Z.leb_le|]. eapply IH; [|exact Hb]. lia.
Qed.

Lemma batch_plan_error max size pos b ps e :
  batch_plan max size pos b ps = inr e →
  (e = MessageTooLarge ∧ accepts max ps = false) ∨
  (e = SegmentFull size max ∧ b = false ∧ ∃ p ps', ps = p :: ps' ∧ psize p ≤ max < pos + psize p).
Proof.
  revert pos b. induction ps as [|p ps IH]; intros pos b; cbn [batch_plan accepts forallb]; [done|].
  destruct (Z.ltb_spec max (psize p)).
  { intros [= <-]. left. split; [done|]. apply andb_false_iff. left. by apply Z.leb_gt. }
  destruct (Z.ltb_spec max (pos + psize p)).
  { destruct b; [done|]. intros [= <-]. right. split; [done|]. split; [done|]. by exists p, ps. }
  destruct (batch_plan _ _ _ _ _) as [t|e'] eqn:Hb; [done|]. intros [= <-].
  destruct (IH _ _ Hb) as [[-> Hf]|(_ & Hf & _)]; [|done]. left. split; [done|].
  unfold accepts in Hf. rewrite Hf. apply andb_false_r.
Qed.

(** The records [new] carry exactly the payloads [ps], in order. *)
Definition carries (new : list LogRecord) (ps : list bytes) : Prop :=
  r_value <$> new = Some <$> ps ∧ Forall (λ r, r_key r = None) new.

Lemma carries_app n1 n2 ps1 ps2 : carries n1 ps1 → carries n2 ps2 → carries (n1 ++ n2) (ps1 ++ ps2).
Proof.
  intros [H1 K1] [H2 K2]. split; [by rewrite !fmap_app, H1, H2|by apply Forall_app].
Qed.
Lemma carries_stamped o ts ps : carries (stamped o ts ps) ps.
Proof.
  split; [apply stamped_values|]. revert o. induction ps; intros o; constructor; [done|auto].
Qed.

Lemma part_inv_same p w' w base rs : same_fs w' w → part_inv p w base rs → part_inv p w' base rs.
Proof.
  intros Hs [(parts & Hc & Hrs) Ha Hm Hd Hf]. pose proof Hs as (Hfs & Hds & _). split; try assumption.
  - exists parts. split; [by eapply chain_same|done].
  - unfold usable_dir in *. by rewrite Hfs.
  - intros n Hn Hle Hlast. unfold free_names. rewrite Hds, Hfs. by apply Hf.
Qed.

Lemma appended_refl p w base rs :
  healthy w → part_inv p w base rs → part_writable p w → appended p p w w base rs.
Proof. intros Hw Hinv Hwr. split; [exact Hinv|exact Hwr|exact Hw|auto|done|auto|done]. Qed.

Lemma appended_clock p w base rs :
  healthy w → part_inv p w base rs → part_writable p w → appended p p (pop_clock w) w base rs.
Proof.
  intros Hw Hinv Hwr. split; [by apply (part_inv_same p _ w)|exact Hwr|healthy|done|done| |].
  - by apply dir_inv_same.
  - by apply within_same.
Qed.

Lemma appended_trans p2 p1 p w2 w1 w base rs rs1 :
  appended p1 p w1 w base rs1 → appended p2 p1 w2 w1 base rs → appended p2 p w2 w base rs.
Proof.
  intros [_ _ _ Hf1 Hs1 Hd1 Hw1] [? ? ? Hf2 Hs2 Hd2 Hw2]. split; try assumption; [auto|by rewrite Hs2|auto|].
  pose proof Hs1 as (_ & _ & Hbd & _). rewrite Hbd in Hw2. by etrans.
Qed.

(** What the active segment does with a batch. *)
Lemma active_batch_ok p w base rs l s p1 ars ps :
  healthy w → part_inv p w base rs → active_view p w base rs l s p1 ars → part_writable p w →
  Forall small_payload ps → ps ≠ [] → base + blen rs + blen ps < 2 ^ 64 →
  match batch_plan (sg_max_bytes s) (sg_current_size s) (sg_current_size s) false ps with
  | inr e => on_segment (active_idx p) (Segment_append_batch ps) (p, w) = (Err e, (p, pop_clock w))
  | inl taken => ∃ s' w' ts,
      on_segment (active_idx p) (Segment_append_batch ps) (p, w) =
        (Ok (base + blen rs, blen taken), (set_segments (l ++ [s']) p, w')) ∧
      extended (pt_base_dir p) s' s w' w (ars ++ stamped (base + blen rs) ts taken) ∧
      appended (set_segments (l ++ [s']) p) p w' w base (rs ++ stamped (base + blen rs) ts taken)
  end.
Proof.
  intros Hw Hinv Hav Hwr Hps Hne Hroom. destruct (av_next _ _ _ _ _ _ _ _ Hav) as (_ & Hnext & _ & _).
  pose proof Hav as [Hp _ _ _ Hs _ Hm Hsz _].
  assert (Hws : writable s w) by (apply Hwr; rewrite Hp; apply last_snoc).
  rewrite (on_active _ _ _ _ _ Hp).
  pose proof (Segment_append_batch_ok (pt_base_dir p) s w ars ps Hw Hs Hws ltac:(lia) Hps Hne ltac:(lia)) as Happ.
  destruct (batch_plan _ _ _ _ _) as [taken|e] eqn:Hplan.
  - destruct Happ as (s' & w' & ts & Heq & Hext). rewrite Heq. rewrite Hnext in Hext |- *.
    exists s', w', ts. split; [reflexivity|]. split; [exact Hext|].
    eapply appended_extend; [exact Hinv|exact Hav|exact Hext|].
    rewrite <- Hm in Hsz |- *. eapply batch_plan_size; [exact Hplan|lia].
  - rewrite Happ. by rewrite set_segments_same.
Qed.

(** How a batch ends: everything is stored, or a payload is too large and only
    payloads before it are. *)
Record batch_done (p : Partition) (w : World) (base : Z) (rs : list LogRecord) (ps : list bytes) (first : Z)
    (res : outcome RukaError Z * (Partition * World)) : Prop := {
  bd_stored : ∃ new taken, appended (fst (snd res)) p (snd (snd res)) w base (rs ++ new) ∧
    carries new taken ∧ taken `prefix_of` ps ∧
    (if accepts (pt_max_segment_bytes p) ps then fst res = Ok first ∧ taken = ps
     else fst res = Err MessageTooLarge)
}.

(** A batch that continues in another segment. *)
Lemma batch_done_cons p p1 w1 w base rs new taken ps first res :
  appended p1 p w1 w base (rs ++ new) → carries new taken →
  accepts (pt_max_segment_bytes p) taken = true →
  batch_done p1 w1 base (rs ++ new) ps first res → batch_done p w base rs (taken ++ ps) first res.
Proof.
  intros Hap Hcar Hacc [(new2 & taken2 & Hap2 & Hcar2 & Hpre & Hres)].
  pose proof (ap_same _ _ _ _ _ _ Hap) as (_ & _ & _ & Hmax & _). rewrite Hmax in Hres.
  split. exists (new ++ new2), (taken ++ taken2). rewrite (assoc_L (++)). split_and!.
  - by eapply appended_trans.
  - by apply carries_app.
  - by apply prefix_app.
  - unfold accepts in *. rewrite forallb_app, Hacc. cbn [andb].
    destruct (forallb _ ps); [|done]. destruct Hres as [-> ->]. done.
Qed.

Lemma batch_done_nil fuel p w base rs l s p1 ars b :
  healthy w → part_inv p w base rs → active_view p w base rs l s p1 ars → part_writable p w →
  batch_done p w base rs [] (default (base + blen rs) b) (append_batch_loop fuel [] b (p, w)).
Proof.
  intros Hw Hinv Hav Hwr. destruct (av_next _ _ _ _ _ _ _ _ Hav) as (<- & _).
  assert (append_batch_loop fuel [] b (p, w) = (Ok (default (Partition_next_offset p) b), (p, w))) as ->
    by (by destruct fuel).
  split. exists [], []. rewrite app_nil_r. split; [by apply appended_refl|]. split; [done|]. done.
Qed.

(** Whether a segment may still answer that it is full. *)
Definition fullness (s : Segment) : nat := if 0 <? sg_current_size s then 1 else 0.

Lemma empty_fullness p w base rs l s p1 :
  active_view p w base rs l s p1 [] → fullness s = 0%nat.
Proof. intros [_ _ _ _ [] _ _ _ _]. unfold fullness. by rewrite si_size, blen_log_nil. Qed.

(** A turn of the loop that stores the payloads [taken]; a new segment is
    started if some are left. *)
Lemma batch_take_turn fuel p w base rs l s p1 ars taken rest b :
  healthy w → part_inv p w base rs → active_view p w base rs l s p1 ars → part_writable p w →
  Forall small_payload (taken ++ rest) → taken ≠ [] → base + blen rs + blen (taken ++ rest) < 2 ^ 64 →
  0 ≤ pt_max_segment_bytes p →
  batch_plan (sg_max_bytes s) (sg_current_size s) (sg_current_size s) false (taken ++ rest) = inl taken →
  ∃ p2 w2 l2 s2 q1 a2 ts,
    append_batch_loop (S fuel) (taken ++ rest) b (p, w) =
      append_batch_loop fuel rest (Some (default (base + blen rs) b)) (p2, w2) ∧
    appended p2 p w2 w base (rs ++ stamped (base + blen rs) ts taken) ∧
    active_view p2 w2 base (rs ++ stamped (base + blen rs) ts taken) l2 s2 q1 a2 ∧
    (rest = [] ∨ fullness s2 = 0%nat).
Proof.
  intros Hw Hinv Hav Hwr Hps Htk Hroom Hmax Hplan.
  assert (Hne : taken ++ rest ≠ []) by (by destruct taken).
  pose proof (active_batch_ok _ _ _ _ _ _ _ _ _ Hw Hinv Hav Hwr Hps Hne Hroom) as Hstep.
  rewrite Hplan in Hstep. destruct Hstep as (s' & w' & ts & Heq & Hext & Hap).
  cbn [append_batch_loop]. rewrite bool_decide_eq_false_2 by done. mret_step. cbn [fst].
  erewrite bind_Ok by (apply attempt_Ok, Heq). reduce.
  case_Zbool; [len|]. rewrite drop_blen_app by done.
  set (new := stamped (base + blen rs) ts taken) in *. set (p2 := set_segments (l ++ [s']) p) in *.
  assert (match b with None => Some (base + blen rs) | Some _ => b end = Some (default (base + blen rs) b))
    as -> by (by destruct b).
  pose proof Hap as [Hinv2 Hwr2 Hh2 _ _ _ _]. destruct (part_active _ _ _ _ Hinv2) as (l2 & s2 & q1 & a2 & Hav2).
  destruct (decide (rest = [])) as [->|Hrest].
  { exists p2, w', l2, s2, q1, a2, ts. rewrite bool_decide_eq_true_2 by done. cbn [negb when].
    mret_step. split; [done|]. split; [exact Hap|]. split; [exact Hav2|by left]. }
  rewrite bool_decide_eq_false_2 by done. cbn [negb when].
  assert (a2 ≠ []) as Ha2.
  { eapply full_nonempty; [exact (av_seg _ _ _ _ _ _ _ _ Hav2)|].
    pose proof (av_segments _ _ _ _ _ _ _ _ Hav2) as Hseg. cbn [p2 set_segments pt_segments] in Hseg.
    apply app_inj_tail in Hseg as [_ <-]. destruct (ex_inv _ _ _ _ _ _ Hext) as [? ? ? ? ? ? ? -> ? ? ? ? ?].
    destruct taken as [|x taken]; [done|]. unfold new. cbn [stamped]. rewrite log_bytes_app, log_bytes_cons.
    match goal with |- context [record_bytes ?r] => pose proof (rsize_min r) end. len. }
  assert (active_idx p = active_idx p2) as ->.
  { rewrite (active_at p l s (av_segments _ _ _ _ _ _ _ _ Hav)). by rewrite (active_at p2 l s'). }
  destruct (rotate_ok _ _ _ _ _ _ _ _ Hh2 Hinv2 Hav2 Ha2 Hmax) as (p3 & w3 & s3 & Hrot & Hap3 & _ & Hav3).
  mstep Hrot. exists p3, w3, (l2 ++ [s2]), s3, (q1 ++ [a2]), [], ts. split; [done|].
  split; [by eapply appended_trans|]. split; [exact Hav3|right]. by eapply empty_fullness.
Qed.

(** A turn that finds the active segment full. *)
Lemma batch_full_turn fuel p w base rs l s p1 ars ps b size max :
  healthy w → part_inv p w base rs → active_view p w base rs l s p1 ars → part_writable p w →
  Forall small_payload ps → base + blen rs + blen ps < 2 ^ 64 → 0 ≤ pt_max_segment_bytes p →
  batch_plan (sg_max_bytes s) (sg_current_size s) (sg_current_size s) false ps = inr (SegmentFull size max) →
  ∃ p2 w2 l2 s2 q1,
    append_batch_loop (S fuel) ps b (p, w) = append_batch_loop fuel ps b (p2, w2) ∧
    appended p2 p w2 w base rs ∧ active_view p2 w2 base rs l2 s2 q1 [] ∧ fullness s = 1%nat.
Proof.
  intros Hw Hinv Hav Hwr Hps Hroom Hmax Hplan.
  destruct (batch_plan_error _ _ _ _ _ _ Hplan) as [[? _]|(_ & _ & x & ps' & -> & Hle)]; [done|].
  pose proof (active_batch_ok _ _ _ _ _ _ _ _ (x :: ps') Hw Hinv Hav Hwr Hps ltac:(done) Hroom) as Hstep.
  rewrite Hplan in Hstep. cbn [append_batch_loop]. rewrite bool_decide_eq_false_2 by done.
  mret_step. cbn [fst]. erewrite bind_Ok by (apply attempt_Err, Hstep). reduce.
  pose proof (appended_clock _ _ _ _ Hw Hinv Hwr) as Hap. pose proof Hap as [Hinv1 Hwr1 Hh1 _ _ _ _].
  assert (Hav1 : active_view p (pop_clock w) base rs l s p1 ars).
  { destruct Hav as [? ? Hc ? Hs ? ? ? ?]. split; try assumption.
    - by apply (chain_same _ _ w).
    - by apply (seg_inv_same _ _ _ w). }
  assert (0 < sg_current_size s) as Hpos by lia.
  destruct (rotate_ok _ _ _ _ _ _ _ _ Hh1 Hinv1 Hav1) as (p2 & w2 & s2 & Hrot & Hap2 & _ & Hav2);
    [eapply full_nonempty; [exact (av_seg _ _ _ _ _ _ _ _ Hav)|lia]|exact Hmax|].
  mstep Hrot. exists p2, w2, (l ++ [s]), s2, (p1 ++ [ars]). split; [done|].
  split; [exact (appended_trans _ _ _ _ _ _ _ _ _ Hap Hap2)|]. split; [exact Hav2|]. unfold fullness.
  by apply Z.ltb_lt in Hpos as ->.
Qed.

Lemma append_batch_loop_ok fuel p w base rs l s p1 ars ps b :
  healthy w → part_inv p w base rs → active_view p w base rs l s p1 ars → part_writable p w →
  Forall small_payload ps → base + blen rs + blen ps < 2 ^ 64 → 0 ≤ pt_max_segment_bytes p →
  ps = [] ∨ (length ps + fullness s ≤ fuel)%nat →
  batch_done p w base rs ps (default (base + blen rs) b) (append_batch_loop fuel ps b (p, w)).
Proof.
  revert p w rs l s p1 ars ps b.
  induction fuel as [|fuel IH]; intros p w rs l s p1 ars ps b Hw Hinv Hav Hwr Hps Hroom Hmax Hfuel;
    destruct (decide (ps = [])) as [->|Hne].
  1,3: by eapply batch_done_nil.
  { destruct Hfuel as [?|Hf]; [done|]. destruct ps; [done|cbn in Hf; lia]. }
  destruct Hfuel as [?|Hfuel]; [done|].
  destruct (batch_plan (sg_max_bytes s) (sg_current_size s) (sg_current_size s) false ps)
    as [taken|e] eqn:Hplan.
  - destruct (batch_plan_prefix _ _ _ _ _ _ Hplan) as [[rest ->] Htk]. specialize (Htk eq_refl Hne).
    pose proof Hav as [_ _ _ _ [? ? ? ? ? ? ? Hsz ? ? ? ? ?] _ Hm _ _].
    assert (Hsize0 : 0 ≤ sg_current_size s) by (rewrite Hsz; apply blen_nonneg).
    pose proof (batch_plan_accepts _ _ _ _ _ _ Hsize0 Hplan) as Hacc. rewrite Hm in Hacc.
    destruct (batch_take_turn fuel _ _ _ _ _ _ _ _ _ _ b Hw Hinv Hav Hwr Hps Htk Hroom Hmax Hplan)
      as (p2 & w2 & l2 & s2 & q1 & a2 & ts & -> & Hap & Hav2 & Hrest).
    eapply batch_done_cons; [exact Hap|apply carries_stamped|exact Hacc|].
    apply Forall_app in Hps as [_ Hps]. pose proof Hap as [Hinv2 Hwr2 Hh2 _ (_ & _ & _ & Hm2 & _) _ _].
    eapply (IH p2 w2 _ _ _ _ _ rest (Some (default (base + blen rs) b))); try eassumption.
    + rewrite !blen_app, blen_stamped in *. lia.
    + by rewrite Hm2.
    + destruct Hrest as [->| ->]; [by left|right]. rewrite length_app in Hfuel.
      destruct taken; [done|cbn in Hfuel; lia].
  - pose proof (batch_plan_error _ _ _ _ _ _ Hplan) as [[-> Hbad]|(-> & _ & _)].
    + pose proof (active_batch_ok _ _ _ _ _ _ _ _ _ Hw Hinv Hav Hwr Hps Hne Hroom) as Hstep.
      rewrite Hplan in Hstep. cbn [append_batch_loop]. rewrite bool_decide_eq_false_2 by done.
      mret_step. cbn [fst]. erewrite bind_Ok by (apply attempt_Err, Hstep). reduce.
      rewrite (av_max _ _ _ _ _ _ _ _ Hav) in Hbad.
      split. exists [], []. rewrite app_nil_r, Hbad. split; [by apply appended_clock|].
      split; [done|]. split; [apply prefix_nil|done].
    + destruct (batch_full_turn fuel _ _ _ _ _ _ _ _ _ b _ _ Hw Hinv Hav Hwr Hps Hroom Hmax Hplan)
        as (p2 & w2 & l2 & s2 & q1 & -> & Hap & Hav2 & Hfull).
      pose proof Hap as [Hinv2 Hwr2 Hh2 _ (_ & _ & _ & Hm2 & _) _ _].
      eapply (batch_done_cons _ _ _ _ _ _ [] []); [by rewrite app_nil_r|done|done|]. rewrite app_nil_r.
      eapply IH; try eassumption; [by rewrite Hm2|right]. rewrite (empty_fullness _ _ _ _ _ _ _ Hav2). lia.
Qed.

(** Appending a batch. *)
Lemma Partition_append_batch_ok p w base rs ps :
  healthy w → part_inv p w base rs → part_writable p w → Forall small_payload ps →
  base + blen rs + blen ps < 2 ^ 64 → 0 ≤ pt_max_segment_bytes p →
  batch_done p w base rs ps (base + blen rs) (Partition_append_batch ps (p, w)).
Proof.
  intros Hw Hinv Hwr Hps Hroom Hmax. destruct (part_active _ _ _ _ Hinv) as (l & s & p1 & ars & Hav).
  apply (append_batch_loop_ok _ _ _ _ _ l s p1 ars ps None); try assumption.
  destruct ps as [|x ps]; [by left|right]. unfold fullness. cbn [length]. destruct (_ <? _); lia.
Qed.
End part_write.
