(* ===== verification/PartitionRead.v ===== *)
(** * Reading a partition (src/src/storage/partition.rs, `read`, `read_batch`)

    Under the partition invariant `read` returns the record with the requested
    offset. `read_batch` starts with it, stays within the byte budget and
    returns records of the log in order; it is complete when everything fits. *)
From S2P Require Import Prelude Errors BytesCrate StdText FileSystem BinarySearch Index Record Segment SegmentInv SegmentRead SegmentWrite Partition Listing PartitionInv PartitionWrite.
#[local] Open Scope Z_scope.

(** ** What reads change: positions of log handles *)
Record touched (p' p : Partition) (w' w : World) : Prop := {
  to_part : same_part p' p;
  to_segments : Forall2 (λ s' s, ∃ n, s' = moved n s) (pt_segments p') (pt_segments p);
  to_world : popped w' w
}.

Lemma moved_refl ss : Forall2 (λ s' s, ∃ n, s' = moved n s) ss ss.
Proof. induction ss; constructor; [eexists; apply moved_self|done]. Qed.

Lemma touched_refl p w : touched p p w w.
Proof. split; [done|apply moved_refl|done]. Qed.

Lemma touched_trans p3 p2 p1 w3 w2 w1 :
  touched p2 p1 w2 w1 → touched p3 p2 w3 w2 → touched p3 p1 w3 w1.
Proof.
  intros [Hp1 Hs1 Hw1] [Hp2 Hs2 Hw2]. split; [by rewrite Hp2| |by rewrite Hw2].
  revert Hs1. generalize (pt_segments p1). induction Hs2 as [|s3 s2 l3 l2 [n ->] _ IH]; intros l1 Hs1.
  - inversion Hs1. constructor.
  - inversion Hs1 as [|? s1 ? l1' [m ->] Hl1]; subst. constructor; [by exists n|auto].
Qed.

Lemma chain_moved dir w base ss' ss parts :
  Forall2 (λ s' s, ∃ n, s' = moved n s) ss' ss → chain dir w base ss parts → chain dir w base ss' parts.
Proof.
  intros Hm. revert base parts. induction Hm as [|s' s ss' ss [n ->] Hm IH]; intros base [|rs parts]; try done.
  intros (Hs & Hb & Hn & Hc). split; [by apply seg_inv_moved|]. split; [done|]. split; [|auto].
  destruct Hn as [->|]; [left; by inversion Hm|by right].
Qed.

Lemma last_moved ss' ss :
  Forall2 (λ s' s, ∃ n, s' = moved n s) ss' ss →
  (ss' = [] ∧ ss = []) ∨ ∃ s n, last ss = Some s ∧ last ss' = Some (moved n s).
Proof.
  induction 1 as [|s' s l' l [n ->] Hl IH]; [by left|right]. destruct Hl as [|a b l' l Hab Hl].
  - by exists s, n.
  - destruct IH as [[? _]|(t & m & Ht & Ht')]; [done|]. by exists t, m.
Qed.

Lemma touched_inv p' p w' w base rs :
  touched p' p w' w → part_inv p w base rs → part_inv p' w' base rs.
Proof.
  intros [(_ & _ & Hd & Hm & _) Hs Hw] Hinv. apply (part_inv_same p' w' w); [by apply popped_same|].
  destruct Hinv as [(parts & Hc & Hrs) (l & s & Hp & Hmax & Hsz) Hm63 Hdir Hfree].
  split; rewrite ?Hd, ?Hm; try assumption.
  - exists parts. split; [by eapply chain_moved|done].
  - rewrite Hp in Hs. apply Forall2_app_inv_r in Hs as (l' & k & _ & Hk & Hseg).
    inversion Hk as [|s' ? k' ? [n ->] Hk']; subst. inversion Hk'; subst.
    exists l', (moved n s). done.
  - intros n Hn Hle Hlast. apply Hfree; [done|done|]. intros t Ht.
    destruct (last_moved _ _ Hs) as [[_ He]|(t' & m & Ht1 & Ht2)]; [by rewrite He in Ht|].
    rewrite Ht in Ht1. injection Ht1 as <-. apply (Hlast _ Ht2).
Qed.

Lemma touched_fresh p' p w' w : touched p' p w' w → part_fresh p → part_fresh p'.
Proof.
  intros [_ Hs _] Hf s' Hs'. destruct (last_moved _ _ Hs) as [[He _]|(t & m & Ht1 & Ht2)].
  - by rewrite He in Hs'.
  - rewrite Ht2 in Hs'. injection Hs' as <-. apply (Hf t Ht1).
Qed.

(** One segment read, seen from the partition. *)
Lemma touched_segment p l1 s l2 s' w' w :
  pt_segments p = l1 ++ s :: l2 → only_moved s' s w' w →
  touched (set_segments (l1 ++ s' :: l2) p) p w' w.
Proof.
  intros Hp [Hm Hw]. split; [done| |done]. cbn [set_segments pt_segments]. rewrite Hp.
  apply Forall2_app; [apply moved_refl|]. constructor; [done|apply moved_refl].
Qed.

(** ** Finding the segment *)
Record located (p : Partition) (w : World) (base : Z) (rs : list LogRecord) (o : Z)
    (l1 : list Segment) (s : Segment) (l2 : list Segment)
    (pre : list LogRecord) (srs : list LogRecord) (p2 : list (list LogRecord)) : Prop := {
  lo_segments : pt_segments p = l1 ++ s :: l2;
  lo_find : find_segment p o = Some (length l1);
  lo_records : rs = pre ++ srs ++ concat p2;
  lo_seg : seg_inv (pt_base_dir p) s w srs;
  lo_base : sg_base_offset s = base + blen pre;
  lo_rest : chain (pt_base_dir p) w (base + blen pre + blen srs) l2 p2;
  lo_from : sg_base_offset s ≤ o;
  lo_to : l2 = [] ∨ o < base + blen pre + blen srs
}.

Lemma find_segment_spec p o :
  sorted_by sg_base_offset (pt_segments p) →
  match find_segment p o with
  | None => ∀ s, s ∈ pt_segments p → o < sg_base_offset s
  | Some i => ∃ s, pt_segments p !! i = Some s ∧ sg_base_offset s ≤ o ∧
                   (o = sg_base_offset s ∨ ∀ t, pt_segments p !! S i = Some t → o < sg_base_offset t)
  end.
Proof.
  intros Hs. pose proof (binary_search_correct sg_base_offset (pt_segments p) o Hs) as Hb.
  unfold find_segment. destruct (binary_search_by_key _ _ _) as [i|[|i]].
  - destruct Hb as (s & Hi & Hk). exists s. split; [done|]. split; [lia|]. by left.
  - destruct Hb as (_ & _ & Hhi). intros s [j Hj]%list_elem_of_lookup. apply (Hhi j); [lia|done].
  - destruct Hb as (Hlen & Hlo & Hhi). destruct (lookup_lt_is_Some_2 (pt_segments p) i) as [s Hi]; [lia|].
    exists s. split; [done|]. specialize (Hlo i s ltac:(lia) Hi). split; [lia|]. right.
    intros t Ht. apply (Hhi (S i)); [lia|done].
Qed.

Lemma chain_locate p w base parts o :
  chain (pt_base_dir p) w base (pt_segments p) parts → pt_segments p ≠ [] → base ≤ o →
  ∃ l1 s l2 p1 srs p2, located p w base (concat parts) o l1 s l2 (concat p1) srs p2 ∧
                       parts = p1 ++ srs :: p2 ∧ chain (pt_base_dir p) w base l1 p1.
Proof.
  intros Hc Hne Ho.
  pose proof (find_segment_spec p o (strictly_sorted_sorted _ _ (chain_sorted _ _ _ _ _ Hc))) as Hfind.
  destruct (find_segment p o) as [i|] eqn:Hf.
  - destruct Hfind as (s & Hi & Hle & Hnext). pose proof (take_drop_middle _ _ _ Hi) as Hsplit.
    set (l1 := take i (pt_segments p)) in *. set (l2 := drop (S i) (pt_segments p)) in *.
    pose proof Hc as Hc'. rewrite <- Hsplit in Hc'.
    apply chain_split in Hc' as (p1 & srs & p2 & -> & Hc1 & _ & Hs & Hb & Hn & Hc2).
    exists l1, s, l2, p1, srs, p2. split; [|done]. split; try done.
    + rewrite Hf. f_equal. unfold l1. rewrite length_take. apply lookup_lt_Some in Hi. lia.
    + by rewrite concat_app.
    + destruct Hn as [Hnil|Hn]; [by left|]. assert (blen srs ≠ 0) by (by intros ?%blen_0).
      destruct Hnext as [->|Hnext]; [right; len|].
      destruct l2 as [|t2 l3] eqn:Hl2; [by left|right]. destruct p2 as [|r2 p2]; [done|].
      destruct Hc2 as (_ & <- & _). apply Hnext. unfold l2 in Hl2.
      rewrite <- (Nat.add_0_r (S i)), <- lookup_drop, Hl2. done.
  - destruct (pt_segments p) as [|s ss]; [done|]. specialize (Hfind s ltac:(left)).
    destruct parts as [|r parts]; [done|]. destruct Hc as (_ & Hb & _). lia.
Qed.

Lemma part_segments p w base rs : part_inv p w base rs → pt_segments p ≠ [].
Proof. intros [_ (l & t & -> & _) _ _ _]. by destruct l. Qed.

Lemma part_locate p w base rs o :
  part_inv p w base rs → base ≤ o → ∃ l1 s l2 pre srs p2, located p w base rs o l1 s l2 pre srs p2.
Proof.
  intros Hinv Ho. pose proof (part_segments _ _ _ _ Hinv) as Hne. destruct Hinv as [(parts & Hc & ->) _ _ _ _].
  destruct (chain_locate _ _ _ _ _ Hc Hne Ho) as (l1 & s & l2 & p1 & srs & p2 & Hloc & _).
  by exists l1, s, l2, (concat p1), srs, p2.
Qed.

Lemma find_segment_before p w base parts o :
  chain (pt_base_dir p) w base (pt_segments p) parts → o < base → find_segment p o = None.
Proof.
  intros Hc Ho.
  pose proof (find_segment_spec p o (strictly_sorted_sorted _ _ (chain_sorted _ _ _ _ _ Hc))) as Hfind.
  destruct (find_segment p o) as [i|]; [|done]. destruct Hfind as (s & Hi & Hle & _).
  destruct (chain_bases _ _ _ _ _ s Hc) as [? _]; [by eapply list_elem_of_lookup_2|lia].
Qed.

Lemma records_from_located p w base rs o l1 s l2 pre srs p2 :
  located p w base rs o l1 s l2 pre srs p2 →
  records_from base rs o = records_from (sg_base_offset s) srs o ++ concat p2.
Proof.
  intros [Hp _ -> Hs Hb Hc Hle Hto]. unfold records_from. rewrite !decide_True by len.
  replace (Z.to_nat (o - base)) with (length pre + Z.to_nat (o - sg_base_offset s))%nat
    by (unfold blen in Hb; lia).
  rewrite <- drop_drop, drop_app_length. destruct Hto as [->|Hlt].
  - destruct p2; [|done]. cbn [concat]. by rewrite !app_nil_r.
  - apply drop_app_le. unfold blen in *. lia.
Qed.

Lemma record_at_head base rs o : record_at base rs o = head (records_from base rs o).
Proof.
  unfold record_at, records_from. case_decide; [|done]. by rewrite head_lookup, lookup_drop, Nat.add_0_r.
Qed.

Section part_read.
Context `{BytesLaws}.

(** ** `read` *)
Lemma Partition_read_ok p w base rs o :
  healthy w → part_inv p w base rs →
  ∃ p' w', Partition_read o (p, w) = (Ok (record_at base rs o), (p', w')) ∧ touched p' p w' w.
Proof.
  intros Hw Hinv. unfold Partition_read. mret_step. cbn [fst].
  destruct (decide (base ≤ o)) as [Ho|Ho].
  - destruct (part_locate _ _ _ _ _ Hinv Ho) as (l1 & s & l2 & pre & srs & p2 & Hloc).
    assert (record_at base rs o = record_at (sg_base_offset s) srs o) as ->.
    { rewrite !record_at_head, (records_from_located _ _ _ _ _ _ _ _ _ _ _ Hloc).
      destruct Hloc as [_ _ _ _ Hb Hc Hle [->|Hlt]]; [destruct p2; [|done]; cbn [concat]; by rewrite app_nil_r|].
      unfold records_from. rewrite decide_True by done.
      destruct (drop _ srs) as [|r d] eqn:Hd; [|done]. apply (f_equal length) in Hd.
      rewrite length_drop in Hd. cbn in Hd. unfold blen in *. lia. }
    destruct Hloc as [Hp Hf _ Hs _ _ _ _]. rewrite Hf.
    destruct (Segment_read_at_ok _ _ _ _ o Hw Hs) as (s' & w' & Hr & Hmv).
    rewrite (on_segment_at _ _ _ _ _ _ Hp), Hr. eexists _, w'. split; [reflexivity|].
    by eapply touched_segment.
  - destruct Hinv as [(parts & Hc & ->) _ _ _ _]. rewrite (find_segment_before _ _ _ _ _ Hc) by lia. exists p, w.
    split; [|apply touched_refl]. unfold record_at. by rewrite decide_False.
Qed.

(** ** `read_batch` *)
Lemma rec_len_rsize r : record_typed r → rec_len r = rsize r.
Proof.
  intros (_ & _ & Hs). unfold storable, rec_len, rsize, record_len in *.
  pose proof (opt_len_nonneg (r_key r)). pose proof (opt_len_nonneg (r_value r)).
  rewrite !wrap_id by (unfold is_uint; lia). rewrite !add_u32_id; rewrite ?add_u32_id; lia.
Qed.

Lemma take_records_fit recs o budget results :
  Forall record_typed recs → blen (log_bytes recs) ≤ budget →
  ∃ o', take_records recs o budget results = inr (o', budget - blen (log_bytes recs), results ++ recs).
Proof.
  intros Hty. revert o budget results. induction Hty as [|r recs Hr _ IH]; intros o budget results Hle;
    cbn [take_records].
  - exists o. rewrite blen_log_nil, app_nil_r. by rewrite Z.sub_0_r.
  - rewrite log_bytes_cons, blen_app, blen_record_bytes in *. rewrite rec_len_rsize by done.
    case_Zbool; [|len]. destruct (IH (add_u64 (r_offset r) 1) (budget - rsize r) (results ++ [r])) as [o' ->]; [lia|].
    exists o'. rewrite <- (assoc_L (++)). do 3 f_equal. lia.
Qed.

Lemma take_records_large r o budget results :
  record_typed r → budget < rsize r →
  take_records [r] o budget results = inl (if decide (results = []) then [r] else results).
Proof.
  intros Hr Hlt. cbn [take_records]. rewrite rec_len_rsize by done. case_Zbool; [lia|].
  case_decide as Hres; [subst|]; [done|]. by rewrite bool_decide_eq_false_2.
Qed.

(** The records the loop can still reach, by segment and as one list. *)
Definition reach (base : Z) (parts : list (list LogRecord)) (o : Z) : list (list LogRecord) :=
  match parts with [] => [] | rs :: parts' => records_from base rs o :: parts' end.
Definition remaining (base : Z) (parts : list (list LogRecord)) (o : Z) : list LogRecord :=
  concat (reach base parts o).

Lemma reach_start base parts : reach base parts base = parts.
Proof.
  destruct parts as [|rs parts]; [done|]. cbn [reach]. unfold records_from.
  by rewrite decide_True, Z.sub_diag by lia.
Qed.

(** What a batch read returns when no read is short: from each segment in turn
    the longest run that fits in what is left of the budget, and a first record
    that is too large alone. It goes on with the next segment also when it has
    left records of this one behind. *)
Fixpoint batches (budget : Z) (some : bool) (segs : list (list LogRecord)) : list LogRecord :=
  match segs with
  | [] => []
  | rs :: segs' =>
      if budget <=? 0 then [] else
      let recs := take_batch budget 0 rs in
      if blen (log_bytes recs) <=? budget
      then recs ++ batches (budget - blen (log_bytes recs))
                     (some || negb (bool_decide (recs = []))) segs'
      else if some then [] else recs
  end.

Lemma batches_nil budget some segs : batches budget some ([] :: segs) = batches budget some segs.
Proof.
  cbn [batches take_batch]. change (blen (log_bytes [])) with 0. destruct (Z.leb_spec budget 0) as [Hle|Hgt].
  - destruct segs; cbn [batches]; [done|]. by rewrite (proj2 (Z.leb_le budget 0) Hle).
  - rewrite (proj2 (Z.leb_le 0 budget)) by lia. rewrite Z.sub_0_r. by destruct some.
Qed.

Lemma batches_all budget some segs :
  blen (log_bytes (concat segs)) ≤ budget → batches budget some segs = concat segs.
Proof.
  revert budget some. induction segs as [|rs segs IH]; intros budget some Hle; [done|].
  cbn [concat batches] in *. rewrite log_bytes_app, blen_app in Hle. destruct (Z.leb_spec budget 0) as [Hz|Hz].
  - destruct rs as [|r rs]; [|rewrite log_bytes_cons in Hle; pose proof (rsize_min r); len].
    cbn [app]. rewrite <- (IH budget some) by len. destruct segs; cbn [batches]; [done|].
    by rewrite (proj2 (Z.leb_le budget 0) Hz).
  - rewrite take_batch_all by len. rewrite (proj2 (Z.leb_le _ budget)) by len. f_equal. apply IH. len.
Qed.

(** What the loop adds to the results. *)
Record batch_out (budget : Z) (results rem out : list LogRecord) : Prop := {
  bo_sublist : out `sublist_of` rem;
  bo_budget : blen (log_bytes out) ≤ budget ∨ (results = [] ∧ ∃ r, out = [r]);
  bo_head : 0 < budget → results = [] → head out = head rem
}.

Lemma batch_out_nil budget results rem :
  0 ≤ budget → results ≠ [] ∨ rem = [] ∨ budget = 0 → batch_out budget results rem [].
Proof.
  intros Hb Hc. split; [apply sublist_nil_l|left; by rewrite blen_log_nil|].
  intros Hpos Hres. destruct Hc as [?|[->|?]]; [done|done|lia].
Qed.

Lemma batch_out_app budget results recs rf rem out :
  recs `prefix_of` rf → recs ≠ [] → blen (log_bytes recs) ≤ budget →
  batch_out (budget - blen (log_bytes recs)) (results ++ recs) rem out →
  batch_out budget results (rf ++ rem) (recs ++ out).
Proof.
  intros [k ->] Hne Hle [Hsub Hbud _]. split.
  - apply sublist_app; [by apply sublist_inserts_r|done].
  - left. rewrite log_bytes_app. destruct Hbud as [?|[Hnil _]]; [len|].
    by apply app_eq_nil in Hnil as [_ ?].
  - intros _ _. by destruct recs.
Qed.

Lemma sublist_single_prefix (r : LogRecord) rf rem : [r] `prefix_of` rf → [r] `sublist_of` rf ++ rem.
Proof.
  intros [k ->]. cbn [app]. apply sublist_skip, sublist_nil_l.
Qed.

Lemma log_bytes_small rs : blen (log_bytes rs) ≤ 0 → rs = [].
Proof. destruct rs as [|r rs]; [done|]. rewrite log_bytes_cons. pose proof (rsize_min r). len. Qed.

(** The part of the log that is left when the loop goes on with the next segment. *)
Lemma reach_next dir w base l l2 parts o :
  chain dir w base l2 parts →
  reach base parts (match (l ++ l2) !! length l with Some s => sg_base_offset s | None => o end) = parts.
Proof.
  intros Hc. rewrite lookup_app_r, Nat.sub_diag by lia. destruct l2 as [|s2 l2]; [by destruct parts|].
  destruct parts as [|r2 parts]; [done|]. cbn [lookup list_lookup]. destruct Hc as (_ & -> & _). apply reach_start.
Qed.

Lemma prefix_typed recs base srs o :
  recs `prefix_of` records_from base srs o → Forall record_typed srs → Forall record_typed recs.
Proof.
  intros [k Hk] Hs. assert (Htf : Forall record_typed (records_from base srs o))
    by (unfold records_from; case_decide; [by apply Forall_drop|constructor]).
  rewrite Hk in Htf. by apply Forall_app in Htf as [? _].
Qed.

(** A record larger than the budget ends the batch; it is returned when it is
    the first. *)
Lemma batch_out_large budget results r rf rem :
  0 ≤ budget → [r] `prefix_of` rf → budget < rsize r →
  batch_out budget results (rf ++ rem) (if decide (results = []) then [r] else []) ∧ ¬ blen (log_bytes (rf ++ rem)) ≤ budget.
Proof.
  intros Hb Hrf Hlt. split.
  - case_decide; [|apply batch_out_nil; [done|by left]]. split; [by apply sublist_single_prefix|right; eauto|].
    intros _ _. by destruct Hrf as [k ->].
  - destruct Hrf as [k ->]. rewrite !log_bytes_app, log_bytes_singleton. len.
Qed.

Lemma read_batch_loop_ok fuel p w l1 l2 base parts o budget results :
  healthy w → pt_segments p = l1 ++ l2 → chain (pt_base_dir p) w base l2 parts →
  (length l2 ≤ fuel)%nat → 0 ≤ budget →
  ∃ out p' w', read_batch_loop fuel (length l1) o budget results (p, w) = (Ok (results ++ out), (p', w')) ∧
    touched p' p w' w ∧ batch_out budget results (remaining base parts o) out ∧
    (prompt w → out = batches budget (negb (bool_decide (results = []))) (reach base parts o)).
Proof.
  revert fuel p w l1 base parts o budget results.
  induction l2 as [|s l2 IH]; intros fuel p w l1 base parts o budget results Hw Hp Hc Hf Hb.
  { exists [], p, w. destruct parts; [|done]. rewrite app_nil_r in Hp |- *. split.
    - destruct fuel; cbn [read_batch_loop]; mret_step; cbn [fst]; by rewrite Hp, Nat.ltb_irrefl.
    - split; [apply touched_refl|]. split; [apply batch_out_nil; [done|by right; left]|done]. }
  destruct parts as [|srs parts]; [done|]. destruct Hc as (Hs & Hsb & Hn & Hc).
  destruct fuel as [|fuel]; [cbn in Hf; lia|]. cbn [read_batch_loop]. mret_step. cbn [fst].
  rewrite Hp, length_app. cbn [length]. assert ((length l1 <? length l1 + S (length l2))%nat = true) as ->
    by (apply Nat.ltb_lt; lia). cbn [andb].
  destruct (Z.ltb_spec 0 budget) as [Hpos|Hz]; cbn [negb].
  2: { exists [], p, w. rewrite app_nil_r. split; [done|]. split; [apply touched_refl|].
       split; [apply batch_out_nil; [done|right; right; lia]|]. intros _. cbn [reach batches].
       by rewrite (proj2 (Z.leb_le budget 0)). }
  destruct (Segment_read_batch_ok _ _ _ _ o budget Hw Hs) as (recs & s' & w1 & Hr & Hmv & Hpre & Hnil & Hfull).
  rewrite Hsb in Hpre, Hnil, Hfull. set (rf := records_from base srs o) in *.
  erewrite bind_Ok by (rewrite (on_segment_at _ _ _ _ _ _ Hp), Hr; reflexivity).
  set (p1 := set_segments (l1 ++ s' :: l2) p). mret_step. cbn [fst].
  pose proof (touched_segment _ _ _ _ _ _ _ Hp Hmv) as Hto1. fold p1 in Hto1.
  pose proof (to_world _ _ _ _ Hto1) as Hpop1. pose proof (popped_healthy _ _ Hpop1 Hw) as Hw1.
  assert (Hp1 : pt_segments p1 = (l1 ++ [s']) ++ l2) by (by rewrite <- (assoc_L (++))).
  assert (Hlen1 : S (length l1) = length (l1 ++ [s'])) by (rewrite length_app; cbn; lia).
  assert (Hc1 : chain (pt_base_dir p1) w1 (base + blen srs) l2 parts)
    by (eapply chain_same; [by apply popped_same|exact Hc]).
  set (next := λ o : Z, match pt_segments p1 !! S (length l1) with Some s => sg_base_offset s | None => o end).
  assert (Hrem : ∀ o, reach (base + blen srs) parts (next o) = parts)
    by (intros o'; unfold next; rewrite Hp1, Hlen1; by eapply reach_next).
  unfold remaining in *. cbn [reach concat batches]. fold rf. rewrite (proj2 (Z.leb_gt budget 0)) by lia.
  destruct (decide (recs = [])) as [->|Hne].
  - rewrite bool_decide_eq_true_2 by done. rewrite Hnil by done. cbn [app].
    destruct (IH fuel p1 w1 (l1 ++ [s']) _ parts (next o) budget results Hw1 Hp1 Hc1 ltac:(cbn in Hf; lia) Hb)
      as (out & p' & w' & Heq & Hto & Hout & Hall). rewrite Hrem in Hout, Hall. rewrite <- Hlen1 in Heq.
    exists out, p', w'. split; [exact Heq|]. split; [by eapply touched_trans|]. split; [done|].
    intros Hpr. rewrite (Hall (proj2 (proj2 Hpop1) Hpr)).
    change (take_batch budget 0 []) with (@nil LogRecord). rewrite blen_log_nil, Z.sub_0_r, orb_false_r.
    by rewrite (proj2 (Z.leb_le 0 budget)) by lia.
  - rewrite bool_decide_eq_false_2 by done.
    assert (Hrf : recs `prefix_of` rf) by (etrans; [exact Hpre|apply take_batch_prefix]).
    assert (Hty : Forall record_typed recs) by (eapply prefix_typed; [exact Hrf|apply Hs]).
    destruct (batch_cases _ _ _ Hb Hpre Hne) as [Hle|(r & -> & Hlt)].
    + destruct (take_records_fit recs o budget results Hty Hle) as [o' ->].
      destruct (IH fuel p1 w1 (l1 ++ [s']) _ parts (next o') (budget - blen (log_bytes recs)) (results ++ recs)
        Hw1 Hp1 Hc1 ltac:(cbn in Hf; lia) ltac:(lia)) as (out & p' & w' & Heq & Hto & Hout & Hall).
      rewrite Hrem in Hout, Hall. rewrite <- Hlen1 in Heq. exists (recs ++ out), p', w'. rewrite (assoc_L (++)).
      split; [exact Heq|]. split; [by eapply touched_trans|]. split; [by eapply batch_out_app|].
      intros Hpr. rewrite <- (Hfull Hpr), (proj2 (Z.leb_le _ budget)) by exact Hle. f_equal.
      rewrite (Hall (proj2 (proj2 Hpop1) Hpr)). rewrite (bool_decide_eq_false_2 (recs = [])), orb_true_r by exact Hne.
      by rewrite bool_decide_eq_false_2 by (by intros [_ ?]%app_eq_nil).
    + apply Forall_inv in Hty. rewrite take_records_large by done.
      destruct (batch_out_large budget results r rf (concat parts)) as [Hout Hbig]; [done..|].
      exists (if decide (results = []) then [r] else []), p1, w1.
      split; [case_decide; [by subst|by rewrite app_nil_r]|]. split; [done|]. split; [done|].
      intros Hpr. rewrite <- (Hfull Hpr), log_bytes_singleton, blen_record_bytes.
      rewrite (proj2 (Z.leb_gt _ budget)) by exact Hlt. case_decide;
        [by rewrite bool_decide_eq_true_2|by rewrite bool_decide_eq_false_2].
Qed.

(** What each segment holds from offset [o] on. *)
Definition segs_from (o : Z) (parts : list (list LogRecord)) : list (list LogRecord) :=
  filter (λ r, o ≤ r_offset r) <$> parts.

Lemma filter_after base rs o : consecutive base rs → o ≤ base → filter (λ r, o ≤ r_offset r) rs = rs.
Proof.
  intros Hc Ho. apply filter_all, Forall_forall. intros r (i & Hi)%list_elem_of_lookup. rewrite (Hc i r Hi). lia.
Qed.

Lemma filter_before base rs o :
  consecutive base rs → base + blen rs ≤ o → filter (λ r, o ≤ r_offset r) rs = [].
Proof.
  intros Hc Ho. apply filter_none, Forall_forall. intros r (i & Hi)%list_elem_of_lookup.
  rewrite (Hc i r Hi). apply lookup_lt_Some in Hi. unfold blen in Ho. lia.
Qed.

Lemma filter_records_from base rs o :
  consecutive base rs → base ≤ o → filter (λ r, o ≤ r_offset r) rs = records_from base rs o.
Proof.
  intros Hc Ho. unfold records_from. rewrite decide_True by done. set (n := Z.to_nat (o - base)).
  rewrite <- (take_drop n rs) in Hc |- * at 1. apply consecutive_app in Hc as [Hc1 Hc2].
  assert (blen (take n rs) ≤ o - base) by (unfold blen, n; rewrite length_take; lia).
  rewrite filter_app, (filter_before base) by (done || lia). cbn [app].
  destruct (decide (length rs ≤ n)%nat) as [Hge|Hlt]; [by rewrite drop_ge|].
  apply (filter_after _ _ _ Hc2). unfold blen, n in *. rewrite length_take. lia.
Qed.

Lemma segs_from_app o ps qs : segs_from o (ps ++ qs) = segs_from o ps ++ segs_from o qs.
Proof. apply fmap_app. Qed.

Lemma segs_from_before base parts o some budget segs :
  consecutive base (concat parts) → base + blen (concat parts) ≤ o →
  batches budget some (segs_from o parts ++ segs) = batches budget some segs.
Proof.
  revert base. induction parts as [|rs parts IH]; intros base Hc Ho; [done|].
  cbn [concat] in *. apply consecutive_app in Hc as [Hrs Hc]. rewrite blen_app in Ho.
  cbn [segs_from fmap list_fmap app]. rewrite (filter_before base); [|done|len]. rewrite batches_nil.
  by apply (IH (base + blen rs)); [|lia].
Qed.

Lemma segs_from_after base parts o :
  consecutive base (concat parts) → o ≤ base → segs_from o parts = parts.
Proof.
  revert base. induction parts as [|rs parts IH]; intros base Hc Ho; [done|].
  cbn [concat] in Hc. apply consecutive_app in Hc as [Hrs Hc]. cbn [segs_from fmap list_fmap].
  rewrite (filter_after base) by done. f_equal. apply (IH (base + blen rs)); [done|len].
Qed.

Lemma segs_from_concat dir w base ss parts o :
  chain dir w base ss parts → base ≤ o → concat (segs_from o parts) = records_from base (concat parts) o.
Proof.
  intros Hc Ho. rewrite <- (filter_records_from base) by (done || by eapply chain_consecutive). clear.
  induction parts as [|rs parts IH]; [done|]. cbn [segs_from fmap list_fmap concat]. rewrite filter_app. by f_equal.
Qed.

Lemma Partition_read_batch_run p w base parts o max :
  healthy w → chain (pt_base_dir p) w base (pt_segments p) parts → pt_segments p ≠ [] → 0 ≤ max →
  ∃ out p' w', Partition_read_batch o max (p, w) = (Ok out, (p', w')) ∧ touched p' p w' w ∧
    (base ≤ o → batch_out max [] (records_from base (concat parts) o) out ∧
                (prompt w → out = batches max false (segs_from o parts))) ∧ (o < base → out = []).
Proof.
  intros Hw Hchain Hne Hm. unfold Partition_read_batch. mret_step. cbn [fst].
  destruct (decide (base ≤ o)) as [Ho|Ho].
  - destruct (chain_locate _ _ _ _ _ Hchain Hne Ho) as (l1 & s & l2 & p1 & srs & p2 & Hloc & -> & Hc1).
    rewrite (records_from_located _ _ _ _ _ _ _ _ _ _ _ Hloc).
    destruct Hloc as [Hp -> _ Hs Hb Hc Hle Hto].
    destruct (read_batch_loop_ok (length (pt_segments p)) p w l1 (s :: l2) (sg_base_offset s) (srs :: p2) o max [])
      as (out & p' & w' & Heq & Hto' & Hout & Hall); [done|done| |rewrite Hp, length_app; lia|done|].
    { split; [done|]. split; [done|]. rewrite Hb at 1. split; [|exact Hc].
      destruct Hto as [->|Hlt]; [by left|right]. intros ->. rewrite blen_nil in Hlt. lia. }
    exists out, p', w'. split; [done|]. split; [done|]. split; [|lia]. intros _. split; [exact Hout|].
    intros Hpr. rewrite (Hall Hpr). rewrite segs_from_app.
    rewrite (segs_from_before base) by (lia || by eapply chain_consecutive). cbn [segs_from fmap list_fmap reach].
    rewrite (filter_records_from (sg_base_offset s)) by (apply Hs || done). do 2 f_equal. symmetry.
    destruct Hto as [->|Hlt]; [by destruct p2|]. eapply segs_from_after; [by eapply chain_consecutive|lia].
  - rewrite (find_segment_before _ _ _ _ _ Hchain) by lia. exists [], p, w.
    split; [done|]. split; [apply touched_refl|]. split; [lia|done].
Qed.

Lemma Partition_read_batch_ok p w base rs o max :
  healthy w → part_inv p w base rs → 0 ≤ max →
  ∃ out p' w', Partition_read_batch o max (p, w) = (Ok out, (p', w')) ∧ touched p' p w' w ∧
    batch_out max [] (records_from base rs o) out ∧
    (prompt w → blen (log_bytes (records_from base rs o)) ≤ max → out = records_from base rs o).
Proof.
  intros Hw Hinv Hm. pose proof (part_segments _ _ _ _ Hinv) as Hne.
  destruct Hinv as [(parts & Hc & ->) _ _ _ _].
  destruct (Partition_read_batch_run p w base parts o max Hw Hc Hne Hm) as (out & p' & w' & Heq & Hto & Hge & Hlt).
  exists out, p', w'. split; [done|]. split; [done|]. destruct (decide (base ≤ o)) as [Ho|Ho].
  - destruct (Hge Ho) as [Hout Hex]. split; [done|]. intros Hpr Hfit. rewrite (Hex Hpr).
    pose proof (segs_from_concat _ _ _ _ _ o Hc Ho) as Hcat. rewrite <- Hcat in Hfit |- *. by apply batches_all.
  - rewrite (Hlt ltac:(lia)). unfold records_from. rewrite decide_False by done. split; [|done].
    apply batch_out_nil; [done|by right; left].
Qed.
End part_read.
