(* ===== verification/PartitionBatch.v ===== *)
(** * The exact result of a batch read (src/src/storage/partition.rs, `read_batch`)

    When no read is short, `read_batch` returns what the reference function
    [batches] computes from the records of the segments. The loop goes on with
    the next segment although the budget ended inside the current one, so that
    it can skip records; the second theorem states when it does. *)
From S2P Require Import Prelude Errors BytesCrate StdText FileSystem BinarySearch Index Record Segment SegmentInv SegmentRead SegmentWrite Partition Listing PartitionInv PartitionWrite PartitionRead.
#[local] Open Scope Z_scope.

Lemma prompt_healthy w : prompt w → healthy w.
Proof. intros Hp. eapply Forall_impl; [exact Hp|]. by intros ? ->. Qed.

Lemma consecutive_bounds base rs x :
  consecutive base rs → x ∈ rs → base ≤ r_offset x < base + blen rs.
Proof.
  intros Hc (i & Hi)%list_elem_of_lookup. rewrite (Hc i x Hi). apply lookup_lt_Some in Hi. unfold blen. lia.
Qed.

(** A batch holds records of the segments only, and in their order. *)
Lemma batches_sublist budget some segs : batches budget some segs `sublist_of` concat segs.
Proof.
  revert budget some. induction segs as [|rs segs IH]; intros budget some; [done|]. cbn [batches concat].
  assert (Hp : take_batch budget 0 rs `sublist_of` rs).
  { destruct (take_batch_prefix budget 0 rs) as [k Hk]. rewrite Hk at 2. by apply sublist_inserts_r. }
  repeat case_match; [apply sublist_nil_l|by apply sublist_app|apply sublist_nil_l|by apply sublist_inserts_r].
Qed.

(** A first record that fits in the budget is taken. *)
Lemma batches_head budget some r rs segs :
  rsize r ≤ budget → ∃ later, batches budget some ((r :: rs) :: segs) = r :: later.
Proof.
  intros Hle. pose proof (rsize_min r). cbn [batches]. rewrite (proj2 (Z.leb_gt budget 0)) by lia.
  destruct (take_batch_budget budget 0 (r :: rs)) as [Hb|(_ & r2 & Heq & Hlt)]; [done| |].
  - rewrite (proj2 (Z.leb_le _ budget)) by lia. cbn [take_batch]. rewrite andb_false_r. by eexists.
  - exfalso. cbn [take_batch] in Heq. rewrite andb_false_r in Heq. injection Heq as <- _. lia.
Qed.

(** A segment of which only the run [out] fits. *)
Lemma batches_cut budget some out r k segs :
  out ≠ [] → blen (log_bytes out) ≤ budget < blen (log_bytes (out ++ [r])) →
  batches budget some ((out ++ r :: k) :: segs) =
  out ++ batches (budget - blen (log_bytes out)) true segs.
Proof.
  intros Hne [Hle Hlt]. rewrite log_bytes_app, log_bytes_singleton, blen_app, blen_record_bytes in Hlt.
  assert (take_batch budget 0 (out ++ r :: k) = out) as Htk.
  { rewrite take_batch_stop by (lia || by left). apply take_batch_all. lia. }
  cbn [batches]. rewrite Htk. destruct (Z.leb_spec budget 0) as [Hz|_].
  - destruct out as [|x out]; [done|]. rewrite log_bytes_cons in Hle. pose proof (rsize_min x). len.
  - rewrite (proj2 (Z.leb_le _ budget) Hle), bool_decide_eq_false_2 by done. by rewrite orb_true_r.
Qed.

Section part_batch.
Context `{BytesLaws}.

(** C37: the exact result of a batch read when no read is short, for a partition
    whose segments hold the records [parts] and any offset from the first one on:
    what the reference function [batches] computes from the records each segment
    holds from that offset on. *)
Theorem Partition_read_batch_exact p w base parts o max :
  prompt w → chain (pt_base_dir p) w base (pt_segments p) parts → pt_segments p ≠ [] →
  base ≤ o → 0 ≤ max →
  fst (Partition_read_batch o max (p, w)) = Ok (batches max false (segs_from o parts)).
Proof.
  intros Hpr Hc Hne Ho Hm.
  destruct (Partition_read_batch_run p w base parts o max (prompt_healthy w Hpr) Hc Hne Hm)
    as (out & p' & w' & -> & _ & Hex & _). by rewrite (proj2 (Hex Ho) Hpr).
Qed.

(** C38: a batch read can skip records. From offset [o] on, let one segment hold
    the records [out], then [r]; let the budget suffice for [out] but not for
    [out] and [r], and let what is left of it suffice for [r'], the first record
    of the next segment. Then the batch goes on with [r'] after [out], and [r],
    whose offset lies between them, is not in it. *)
Theorem Partition_read_batch_skips p w base p1 a out r k r' next p2 max :
  prompt w → out ≠ [] →
  chain (pt_base_dir p) w base (pt_segments p) (p1 ++ (a ++ out ++ r :: k) :: (r' :: next) :: p2) →
  blen (log_bytes out) + rsize r' ≤ max < blen (log_bytes (out ++ [r])) →
  let o := base + blen (concat p1 ++ a) in
  ∃ later, fst (Partition_read_batch o max (p, w)) = Ok (out ++ r' :: later) ∧
    (∀ x, x ∈ out → r_offset x < r_offset r) ∧ (∀ x, x ∈ r' :: later → r_offset r < r_offset x).
Proof.
  intros Hpr Hne Hc [Hmin Hmax]. cbn zeta. set (o := base + _).
  set (srs := a ++ out ++ r :: k) in *. set (parts := p1 ++ srs :: _ :: p2) in *.
  assert (Hss : pt_segments p ≠ []) by (intros Hn; rewrite Hn in Hc; by destruct p1).
  pose proof (rsize_min r'). destruct (Partition_read_batch_run p w base parts o max
    (prompt_healthy w Hpr) Hc Hss) as (res & p' & w' & -> & _ & Hex & _); [len|].
  rewrite (proj2 (Hex ltac:(unfold o; len)) Hpr). clear Hex. cbn [fst].
  apply chain_consecutive in Hc as Hcons. unfold parts in Hcons. rewrite concat_app in Hcons.
  cbn [concat] in Hcons. apply consecutive_app in Hcons as [Hc1 [Hcs Hc2]%consecutive_app].
  set (b1 := base + blen (concat p1)) in *. assert (Ho : o = b1 + blen a) by (unfold o, b1; len).
  assert (Hfrom : filter (λ x, o ≤ r_offset x) srs = out ++ r :: k).
  { rewrite (filter_records_from b1) by (done || len). unfold records_from. rewrite decide_True by len.
    unfold srs. replace (Z.to_nat (o - b1)) with (length a) by (unfold blen in Ho; lia). apply drop_app_length. }
  assert (blen srs = blen a + blen out + (1 + blen k)) as Hsrs by (unfold srs; rewrite !blen_app, blen_cons; lia).
  unfold parts. rewrite segs_from_app, (segs_from_before base) by (done || fold b1; len).
  cbn [segs_from fmap list_fmap]. rewrite Hfrom, batches_cut by (done || lia).
  fold (segs_from o p2). change (filter _ (r' :: next) :: segs_from o p2) with (segs_from o ((r' :: next) :: p2)).
  rewrite (segs_from_after (b1 + blen srs)) by (done || len).
  destruct (batches_head (max - blen (log_bytes out)) true r' next p2) as [later Hl]; [lia|].
  exists later. rewrite Hl. split; [done|].
  unfold srs in Hcs. rewrite (assoc_L (++)) in Hcs. apply consecutive_app in Hcs as [Hao Hrk].
  assert (Hr : r_offset r = b1 + blen (a ++ out)) by (rewrite (Hrk 0%nat r eq_refl); lia).
  split; intros x Hx.
  - destruct (consecutive_bounds b1 (a ++ out) x Hao) as [_ ?]; [by apply elem_of_app; right|]. lia.
  - assert (Hin : x ∈ (r' :: next) ++ concat p2).
    { rewrite <- Hl in Hx. exact (elem_of_sublist _ _ _ Hx (batches_sublist _ _ _)). }
    destruct (consecutive_bounds _ _ x Hc2 Hin) as [? _]. rewrite Hr, blen_app. len.
Qed.
End part_batch.
