(* ===== verification/PartitionOpen.v ===== *)
(** * Opening a partition (src/src/storage/partition.rs, `open_or_create`)

    The directory scan finds the segments in any order the operating system
    lists them; after loading and sorting they form the chain of the invariant. *)
From stdpp Require Import sorting.
From S2P Require Import Prelude Errors BytesCrate StdText FileSystem BinarySearch Index Record Segment SegmentInv SegmentRead SegmentWrite SegmentLoad Partition Listing PartitionInv Isolation PartitionWrite.
#[local] Open Scope Z_scope.

(** ** Sorting *)
Lemma sort_insert_perm s ss : sort_insert s ss ≡ₚ s :: ss.
Proof.
  induction ss as [|t ss IH]; cbn [sort_insert]; [done|]. destruct (_ <=? _); [done|].
  rewrite IH. apply Permutation_swap.
Qed.
Lemma sort_by_base_perm ss : sort_by_base ss ≡ₚ ss.
Proof.
  induction ss as [|s ss IH]; [done|]. cbn [sort_by_base foldr]. rewrite sort_insert_perm. by f_equiv.
Qed.

Definition base_le (s t : Segment) : Prop := sg_base_offset s ≤ sg_base_offset t.
Lemma sort_insert_sorted s ss : Sorted base_le ss → Sorted base_le (sort_insert s ss).
Proof.
  induction 1 as [|t ss Hss IH Ht]; cbn [sort_insert]; [by repeat constructor|].
  destruct (Z.leb_spec (sg_base_offset s) (sg_base_offset t)).
  - constructor; [by constructor|]. by constructor.
  - constructor; [done|]. destruct ss as [|u ss]; cbn [sort_insert] in *.
    + constructor. unfold base_le. lia.
    + inversion Ht; subst. destruct (_ <=? _); constructor; [unfold base_le; lia|done].
Qed.
Lemma sort_by_base_sorted ss : Sorted base_le (sort_by_base ss).
Proof. induction ss as [|s ss IH]; [constructor|]. by apply sort_insert_sorted. Qed.

Lemma sorted_bases ss : Sorted base_le ss → Sorted Z.le (sg_base_offset <$> ss).
Proof.
  induction 1 as [|s ss Hss IH Hs]; [constructor|]. cbn [fmap list_fmap]. constructor; [done|].
  destruct Hs; by constructor.
Qed.

(** ** Segments on disk *)
Section disk.
Context `{BytesLaws} (dir : path) (max : Z) (lvl : Config.SyncLevel).
(** The complete records and the torn tail of the segment at each base offset. *)
Context (recs : Z → list LogRecord) (junk : Z → bytes).

(** The bases [bs] are those of a chain that starts at [base]. *)
Fixpoint disk_chain (base : Z) (bs : list Z) : Prop :=
  match bs with
  | [] => True
  | b :: bs' => b = base ∧ (bs' = [] ∨ recs b ≠ []) ∧ disk_chain (base + blen (recs b)) bs'
  end.

Definition base_paths (n : Z) : list path := [log_path dir n; index_path dir n].

Lemma base_paths_disjoint n m p :
  is_u64 n → is_u64 m → n ≠ m → p ∈ base_paths n → p ∉ base_paths m.
Proof.
  intros Hn Hm Hne Hp1 Hp2. unfold base_paths in *. rewrite !elem_of_cons, elem_of_nil in Hp1, Hp2.
  destruct Hp1 as [->|[->|[]]], Hp2 as [Heq|[Heq|[]]].
  - by apply log_path_inj in Heq.
  - by apply log_index_ne in Heq.
  - symmetry in Heq. by apply log_index_ne in Heq.
  - by apply index_path_inj in Heq.
Qed.

Definition disk_seg (n : Z) (w : World) : Prop := on_disk dir n (recs n) (junk n) w.

Lemma disk_seg_u64 n w : disk_seg n w → is_u64 n.
Proof. intros []. unfold is_uint. len. Qed.

Lemma disk_seg_pop n w : disk_seg n w → disk_seg n (pop_sched w).
Proof.
  intros []. split; [exact od_log|exact od_index|exact od_name|exact od_dir|exact od_consecutive
    |exact od_typed|exact od_stops|exact od_base|exact od_offsets|exact od_small].
Qed.

Lemma disk_seg_frame n m w' w :
  is_u64 m → n ≠ m → changes_only (base_paths m) w' w → disk_seg n w → disk_seg n w'.
Proof.
  intros Hm Hne (Hf & Hd & _) Hdisk. pose proof (disk_seg_u64 _ _ Hdisk) as Hn. destruct Hdisk.
  assert (Hout : ∀ p, p ∈ base_paths n → w_files w' !! p = w_files w !! p)
    by (intros p Hp; apply Hf; by apply (base_paths_disjoint n m)).
  split; [| | | |exact od_consecutive|exact od_typed|exact od_stops|exact od_base|exact od_offsets|exact od_small].
  - rewrite Hout; [exact od_log|left].
  - unfold index_state in *. rewrite Hout; [exact od_index|right; left].
  - rewrite Hd. exact od_name.
  - rewrite Hd. exact od_dir.
Qed.

(** A loaded segment. *)
Record loaded (w : World) (n : Z) (s : Segment) : Prop := {
  ld_seg : seg_inv dir s w (recs n);
  ld_writable : writable s w;
  ld_base : sg_base_offset s = n;
  ld_max : sg_max_bytes s = max
}.

Lemma loaded_frame n w' w s :
  (∀ p, p ∈ base_paths n → w_files w' !! p = w_files w !! p) → loaded w n s → loaded w' n s.
Proof.
  intros Hf [Hs Hw Hb Hm]. assert (seg_inv dir s w' (recs n)) as Hs'.
  { eapply seg_inv_frame; [|exact Hs]. unfold seg_paths. rewrite Hb. exact Hf. }
  split; [exact Hs'| |exact Hb|exact Hm]. by eapply (writable_frame dir s w' w).
Qed.

Lemma load_segments_ok entries acc w :
  healthy w → NoDup (omap log_name entries) → Forall (λ n, disk_seg n w) (omap log_name entries) →
  max ≤ 2 ^ 63 →
  ∃ ss w', load_segments dir max lvl entries acc w = (Ok (acc ++ ss), w') ∧
    Forall2 (loaded w') (omap log_name entries) ss ∧ healthy w' ∧
    changes_only (omap log_name entries ≫= base_paths) w' w.
Proof.
  intros Hw Hnd Hdisk Hmax. revert acc w Hw Hnd Hdisk. induction entries as [|name entries IH];
    intros acc w Hw Hnd Hdisk; cbn [load_segments].
  { exists [], w. rewrite app_nil_r. split; [done|]. split; [constructor|]. done. }
  destruct (syscall_ok w Hw) as (ev & He & _). mstep He. change (omap log_name (name :: entries))
    with (match log_name name with Some n => n :: omap log_name entries | None => omap log_name entries end) in *.
  destruct (log_name name) as [n|].
  2: { destruct (IH acc (pop_sched w)) as (ss & w' & Heq & ? & ? & ?); [healthy|done| |].
       { eapply Forall_impl; [exact Hdisk|]. intros m. apply disk_seg_pop. }
       by exists ss, w'. }
  apply NoDup_cons in Hnd as [Hn Hnd]. apply Forall_cons in Hdisk as [Hd Hdisk].
  destruct (Segment_load_ok dir n max lvl (recs n) (junk n) (pop_sched w))
    as (s & w1 & Hl & [Hs Hws] & Hh1 & Hb & Hm & _ & Hc); [healthy|by apply disk_seg_pop|exact Hmax|].
  mstep Hl. unfold seg_paths in Hc. rewrite Hb in Hc. fold (base_paths n) in Hc.
  pose proof (disk_seg_u64 _ _ Hd) as Hu.
  destruct (IH (acc ++ [s]) w1) as (ss & w2 & Heq & Hall & Hh2 & Hc2); [done|done| |].
  { rewrite Forall_forall in Hdisk |- *. intros m Hm'.
    apply (disk_seg_frame m n w1 (pop_sched w)); [exact Hu|by intros ->|exact Hc|].
    by apply disk_seg_pop, Hdisk. }
  exists (s :: ss), w2. rewrite <- (assoc_L (++)) in Heq. split; [exact Heq|]. split; [|split; [done|]].
  - constructor; [|done]. eapply loaded_frame; [|by split].
    intros p Hp. apply Hc2. intros (m & Hpm & Hin)%list_elem_of_bind.
    rewrite Forall_forall in Hdisk. pose proof (disk_seg_u64 _ _ (Hdisk m Hin)) as Hum.
    eapply (base_paths_disjoint n m p); [exact Hu|exact Hum|by intros ->|done|done].
  - cbn [mbind list_bind]. eapply changes_only_trans; [eapply changes_only_sub; [|exact Hc2]|].
    + intros p Hp. apply elem_of_app. by right.
    + eapply (changes_only_trans _ _ (pop_sched w)); [|done].
      eapply changes_only_sub; [|exact Hc]. intros p Hp. apply elem_of_app. by left.
Qed.

(** ** From the loaded segments to the invariant *)
Lemma disk_chain_sorted base bs : disk_chain base bs → Sorted Z.le bs.
Proof.
  revert base. induction bs as [|b bs IH]; intros base; [constructor|]. intros (-> & _ & Hc).
  constructor; [by eapply IH|]. destruct bs as [|b2 bs]; [constructor|]. destruct Hc as (-> & _).
  constructor. len.
Qed.

Lemma chain_of_loaded w base bs ss :
  disk_chain base bs → Forall2 (loaded w) bs ss → chain dir w base ss (recs <$> bs).
Proof.
  intros Hc Hl. revert base Hc. induction Hl as [|b s bs ss Hb Hl IH]; intros base Hc; [done|].
  destruct Hc as (-> & Hn & Hc), Hb as [Hs _ Hb _]. cbn [chain fmap list_fmap].
  split; [done|]. split; [done|]. split; [|auto]. destruct Hn as [->|]; [left; by inversion Hl|by right].
Qed.

Lemma loaded_sorted w bs bs' ss :
  Forall2 (loaded w) bs' ss → bs' ≡ₚ bs → Sorted Z.le bs → Forall2 (loaded w) bs (sort_by_base ss).
Proof.
  intros Hl Hp Hs.
  assert (sg_base_offset <$> ss = bs') as Hb by (clear -Hl; induction Hl as [|b s ? ? []]; cbn; congruence).
  assert (Forall (λ s, loaded w (sg_base_offset s) s) ss) as Hall.
  { clear -Hl. induction Hl as [|b s ? ? Hb]; constructor; [|done]. by rewrite (ld_base _ _ _ Hb). }
  assert (bs = sg_base_offset <$> sort_by_base ss) as ->.
  { apply (Sorted_unique Z.le); [done|apply sorted_bases, sort_by_base_sorted|].
    rewrite sort_by_base_perm, Hb. by symmetry. }
  rewrite <- (sort_by_base_perm ss) in Hall. clear -Hall. induction Hall; constructor; done.
Qed.

(** ** The state of the directory at start-up *)
Record dir_state (w : World) (base : Z) (bs : list Z) : Prop := {
  ds_usable : usable_dir dir w;
  ds_order : ∀ l, w_dir_order w l ≡ₚ l;
  ds_names : log_bases dir w ≡ₚ bs;
  ds_nodup : NoDup bs;
  ds_chain : disk_chain base bs;
  ds_segments : Forall (λ n, disk_seg n w) bs;
  ds_free : ∀ n, is_u64 n → n ∉ bs → free_names dir n w;
  ds_last : ∀ b, last bs = Some b → blen (log_bytes (recs b)) ≤ max;
  ds_files : ∀ n, n ∈ bs → log_path dir n ∉ w_dirs w
}.

Definition made (w : World) : World := set_dirs (list_to_set (prefixes dir) ∪ w_dirs w) (pop_sched w).

Lemma not_made c w : dir ++ [c] ∉ w_dirs w → dir ++ [c] ∉ w_dirs (made w).
Proof.
  intros Hc. cbn. rewrite elem_of_union, elem_of_list_to_set. intros [?|?]; [|done].
  by eapply path_not_prefix.
Qed.

Lemma disk_seg_made n w : disk_seg n w → disk_seg n (made w).
Proof.
  intros []. split; [exact od_log|exact od_index| | |exact od_consecutive
    |exact od_typed|exact od_stops|exact od_base|exact od_offsets|exact od_small].
  - rewrite index_path_eq in od_name |- *. apply not_made, od_name.
  - cbn. by apply elem_of_union_r.
Qed.

Lemma free_names_made n w : free_names dir n w → free_names dir n (made w).
Proof.
  intros (H1' & H2' & H3'). rewrite log_path_eq in H1'. rewrite index_path_eq in H2'.
  split; [rewrite log_path_eq; apply not_made, H1'|].
  split; [rewrite index_path_eq; apply not_made, H2'|exact H3'].
Qed.

Lemma changes_none ps w' w p : changes_only ps w' w → p ∉ ps → w_files w' !! p = w_files w !! p.
Proof. intros (Hf & _). apply Hf. Qed.

(** The loaded segments are a partition in the sense of the invariant. *)
Lemma part_inv_loaded p w w' base bs ss :
  dir_state w base bs → bs ≠ [] → max ≤ 2 ^ 63 →
  Forall2 (loaded w') bs ss → changes_only (bs ≫= base_paths) w' (made w) →
  pt_base_dir p = dir → pt_segments p = ss → pt_max_segment_bytes p = max →
  part_inv p w' base (concat (recs <$> bs)) ∧ part_writable p w'.
Proof.
  intros [] Hne Hmax Hl Hc Hd Hss Hm.
  assert (Hu : ∀ m, m ∈ bs → is_u64 m).
  { intros m Hin. rewrite Forall_forall in ds_segments0. by apply (disk_seg_u64 m w), ds_segments0. }
  destruct (exists_last Hne) as (bs1 & b & Hbs). subst bs. rename bs1 into bs.
  pose proof Hl as Hl'. apply Forall2_app_inv_l in Hl' as (ss1 & k & _ & Hk & Hsplit).
  inversion Hk as [|? s ? k' Hs Hk']; subst. inversion Hk'; subst. split.
  - split; rewrite ?Hd, ?Hm, ?Hsplit.
    + exists (recs <$> bs ++ [b]). split; [|done]. rewrite <- Hsplit. by apply chain_of_loaded.
    + exists ss1, s. split; [done|]. split; [exact (ld_max _ _ _ Hs)|].
      destruct (ld_seg _ _ _ Hs) as [? ? ? ? ? ? ? -> ? ? ? ? ?]. apply ds_last0. apply last_snoc.
    + exact Hmax.
    + unfold usable_dir in *. rewrite Forall_forall in *. intros q Hq.
      rewrite (changes_none _ _ _ q Hc); [by apply ds_usable0|]. intros (m & Hpm & _)%list_elem_of_bind.
      unfold base_paths in Hpm. rewrite !elem_of_cons, elem_of_nil, log_path_eq, index_path_eq in Hpm.
      destruct Hpm as [->|[->|[]]]; by eapply path_not_prefix.
    + intros n Hn _ Hlast. rewrite last_snoc in Hlast. specialize (Hlast s eq_refl).
      rewrite (ld_base _ _ _ Hs) in Hlast.
      assert (n ∉ bs ++ [b]) as Hnin.
      { intros Hin. assert (n ≤ b); [|lia]. pose proof (disk_chain_sorted _ _ ds_chain0) as Hsrt.
        apply (Sorted_StronglySorted Z.le) in Hsrt. apply elem_of_app in Hin as [Hin|Hin%list_elem_of_singleton]; [|lia].
        clear -Hsrt Hin. induction bs as [|c bs IH]; [by apply elem_of_nil in Hin|].
        cbn [app] in Hsrt. apply StronglySorted_cons in Hsrt as [Hall Hsrt].
        apply elem_of_cons in Hin as [->|Hin]; [|auto]. rewrite Forall_forall in Hall. apply Hall.
        apply elem_of_app. right. left. }
      pose proof (free_names_made _ _ (ds_free0 n Hn Hnin)) as (Hf1 & Hf2 & Hf3).
      destruct Hc as (Hcf & Hcd & _). unfold free_names. rewrite Hcd. split; [exact Hf1|]. split; [exact Hf2|].
      rewrite Hcf; [exact Hf3|]. intros (m & Hpm & Hin)%list_elem_of_bind.
      eapply (base_paths_disjoint n m); [exact Hn|by apply Hu|by intros ->|left|exact Hpm].
  - intros t. rewrite Hsplit, last_snoc. intros [= <-]. exact (ld_writable _ _ _ Hs).
Qed.

(** A scan of the directory would find them again. *)
Lemma dir_inv_loaded p w w' base bs ss :
  dir_state w base bs → Forall2 (loaded w') bs ss → changes_only (bs ≫= base_paths) w' (made w) →
  pt_base_dir p = dir → pt_segments p = ss → dir_inv p w'.
Proof.
  intros [] Hl Hc Hd Hss. pose proof Hc as (Hcf & Hcd & Hco).
  assert (Hb : sg_base_offset <$> ss = bs) by (clear -Hl; induction Hl as [|b s ? ? []]; cbn; congruence).
  split; rewrite ?Hd, ?Hss, ?Hb.
  - rewrite Hcd. cbn. apply elem_of_union_l, elem_of_list_to_set, prefixes_self.
  - rewrite <- ds_names0. etrans; [|by apply (log_bases_mkdir dir w (made w))]. rewrite !log_bases_eq, Hcd.
    apply omap_agree. intros q Hq. rewrite !elem_of_union, !elem_of_dom.
    destruct (decide (q ∈ bs ≫= base_paths)) as [Hin|Hin]; [|by rewrite Hcf].
    apply list_elem_of_bind in Hin as (n & Hqn & Hn). unfold base_paths in Hqn. rewrite !elem_of_cons, elem_of_nil in Hqn.
    destruct Hqn as [->|[->|[]]]; [|rewrite path_base_index in Hq; by destruct Hq].
    rewrite Forall_forall in ds_segments0. pose proof (od_log _ _ _ _ _ (ds_segments0 n Hn)) as Hlog.
    apply list_elem_of_lookup_1 in Hn as [i Hi]. destruct (Forall2_lookup_l _ _ _ _ _ Hl Hi) as (s & _ & Hs).
    destruct (seg_files _ _ _ _ (ld_seg _ _ _ Hs) (log_path dir (sg_base_offset s))) as [d Hf]; [left|].
    rewrite (ld_base _ _ _ Hs) in Hf. split; intros _; left; [by exists (log_bytes (recs n) ++ junk n)|by exists d].
  - intros n Hn. rewrite Hcd, log_path_eq, index_path_eq.
    destruct (decide (n ∈ bs)) as [Hin|Hin].
    + rewrite Forall_forall in ds_segments0. pose proof (od_name _ _ _ _ _ (ds_segments0 n Hin)) as Hi.
      pose proof (ds_files0 n Hin) as Hlf. rewrite log_path_eq in Hlf. rewrite index_path_eq in Hi. split; by apply not_made.
    + destruct (ds_free0 n Hn Hin) as (Hf1 & Hf2 & _). rewrite log_path_eq in Hf1. rewrite index_path_eq in Hf2. split; by apply not_made.
  - rewrite Hco. exact ds_order0.
Qed.

(** The scan finds exactly the segments on disk. *)
Lemma scan_ok w base bs :
  healthy w → dir_state w base bs → max ≤ 2 ^ 63 →
  ∃ entries ss w',
    create_dir_all dir w = (Ok tt, made w) ∧
    read_dir dir (made w) = (Ok entries, pop_sched (made w)) ∧
    load_segments dir max lvl entries [] (pop_sched (made w)) = (Ok ss, w') ∧
    Forall2 (loaded w') bs (sort_by_base ss) ∧ healthy w' ∧
    changes_only (bs ≫= base_paths) w' (made w).
Proof.
  intros Hw [] Hmax. set (w1 := pop_sched (made w)).
  set (entries := w_dir_order (made w) (names dir (made w))).
  assert (Hperm : omap log_name entries ≡ₚ bs).
  { rewrite <- ds_names0. etrans; [|by apply (log_bases_mkdir dir w (made w))].
    apply omap_Permutation, ds_order0. }
  assert (Hw1 : healthy w1) by (unfold w1, made; healthy).
  destruct (load_segments_ok entries [] w1) as (ss & w' & Hl & Hall & Hh & Hc);
    [done|by rewrite Hperm| |done|].
  { rewrite Hperm. eapply Forall_impl; [exact ds_segments0|]. intros n Hn.
    by apply disk_seg_pop, disk_seg_made. }
  exists entries, ss, w'. split; [by apply create_dir_all_ok|]. split.
  - unfold read_dir. destruct (syscall_ok (made w)) as (ev & He & _); [unfold made; healthy|].
    mstep He. mret_step. rewrite bool_decide_eq_true_2; [done|].
    cbn. apply elem_of_union_l, elem_of_list_to_set, prefixes_self.
  - split; [done|]. split; [|split; [done|]].
    + eapply loaded_sorted; [exact Hall|exact Hperm|by eapply disk_chain_sorted].
    + eapply (changes_only_trans _ _ w1); [|done]. eapply changes_only_sub; [|exact Hc].
      intros p (m & Hp & Hin)%list_elem_of_bind. apply list_elem_of_bind. exists m. by rewrite <- Hperm.
Qed.

(** Opening changes nothing outside of the directory. *)
Lemma within_scan bs w' w : changes_only (bs ≫= base_paths) w' (made w) → within dir w' w.
Proof.
  intros Hc. trans (made w).
  - eapply within_changes; [|exact Hc]. intros p (m & Hp & _)%list_elem_of_bind.
    unfold base_paths in Hp. rewrite !elem_of_cons, elem_of_nil in Hp.
    destruct Hp as [->|[->|[]]]; [apply parent_log|apply parent_index].
  - by apply (within_made dir []); [intros p ?%elem_of_nil|..].
Qed.

Context (topic : bytes) (id : Z) (base_dir : path) (Hdir : join (join base_dir topic) (to_dec id) = dir).

(** Reopening a partition whose directory holds the segments [bs]. *)
Lemma Partition_reopen_ok w base bs :
  healthy w → dir_state w base bs → max ≤ 2 ^ 63 → bs ≠ [] →
  ∃ p w', Partition_open_or_create topic id base_dir max lvl w = (Ok p, w') ∧
    part_inv p w' base (concat (recs <$> bs)) ∧ part_writable p w' ∧ healthy w' ∧
    pt_base_dir p = dir ∧ pt_max_segment_bytes p = max ∧ within dir w' w ∧ pt_topic p = topic ∧ pt_id p = id ∧ dir_inv p w'.
Proof.
  intros Hw Hst Hmax Hne. unfold Partition_open_or_create. rewrite Hdir. reduce.
  destruct (scan_ok w base bs Hw Hst Hmax) as (entries & ss & w' & Hcr & Hrd & Hld & Hall & Hh & Hc).
  mstep Hcr. mstep Hrd. mstep Hld. assert (sort_by_base ss ≠ []) as Hss by (intros He; rewrite He in Hall; by inversion Hall; subst).
  rewrite bool_decide_eq_false_2 by done. mret_step. rewrite run_ret. eexists _, w'. split; [reflexivity|].
  set (p := {| pt_topic := topic |}).
  destruct (part_inv_loaded p w w' base bs (sort_by_base ss)) as [Hinv Hwr]; try done.
  do 5 (split; [done|]). split; [by eapply within_scan|]. do 2 (split; [done|]). by eapply dir_inv_loaded.
Qed.

(** Creating a partition in a directory that holds no log. *)
Lemma Partition_create_ok w :
  healthy w → dir_state w 0 [] → 0 ≤ max ≤ 2 ^ 63 →
  ∃ p w', Partition_open_or_create topic id base_dir max lvl w = (Ok p, w') ∧
    part_inv p w' 0 [] ∧ dir_inv p w' ∧ healthy w' ∧ part_fresh p ∧
    pt_base_dir p = dir ∧ pt_max_segment_bytes p = max ∧ pt_topic p = topic ∧ pt_id p = id ∧ within dir w' w ∧
    list_to_set (prefixes dir) ⊆ w_dirs w'.
Proof.
  intros Hw Hst Hmax. unfold Partition_open_or_create. rewrite Hdir. reduce.
  destruct (scan_ok w 0 [] Hw Hst) as (entries & ss & w1 & Hcr & Hrd & Hld & Hall & Hh & Hc); [lia|].
  pose proof (within_scan _ _ _ Hc) as Hwi. destruct Hc as (Hcf & Hcd & Hco).
  mstep Hcr. mstep Hrd. mstep Hld. inversion Hall as [Heq|]. rewrite bool_decide_eq_true_2 by done.
  pose proof Hst as [Hu Hord Hnames _ _ _ Hfree _].
  assert (Hfree1 : ∀ n, is_u64 n → free_names dir n w1).
  { intros n Hn. destruct (free_names_made _ _ (Hfree n Hn (not_elem_of_nil _))) as (Hf1 & Hf2 & Hf3).
    unfold free_names. rewrite Hcd, Hcf by apply not_elem_of_nil.
    split; [exact Hf1|]. split; [exact Hf2|exact Hf3]. }
  assert (Hu1 : usable_dir dir w1).
  { unfold usable_dir in *. rewrite Forall_forall in *. intros q Hq.
    rewrite Hcf by apply not_elem_of_nil. by apply Hu. }
  destruct (Segment_create_ok dir 0 max lvl w1) as (s & w2 & Hsc & [Hs Hws] & Hh2 & Hb & Hm & _ & Happ & Hfiles & Hdirs & Hord2);
    [exact Hh|exact Hu1|apply Hfree1; unfold is_uint; lia|lia|lia|].
  erewrite bind_Ok by (unfold fmap, M_fmap; rewrite Hsc; reflexivity). rewrite run_ret.
  set (p := {| pt_topic := topic |}). exists p, w2. split; [reflexivity|].
  assert (Hfresh : part_fresh p) by (intros t [= <-]; exact Happ).
  assert (Hgrows : grows dir s w2 w1) by (split; [exact Hfiles|by rewrite Hdirs]).
  assert (Hwi2 : within dir w2 w).
  { trans w1; [|exact Hwi]. eapply within_made; [apply seg_paths_parent|exact Hfiles|exact Hdirs|exact Hord2]. }
  split; [|split; [|do 7 (split; [done|]); rewrite Hdirs; apply union_subseteq_l]].
  2: { set (q := {| pt_topic := topic; pt_id := id; pt_base_dir := dir; pt_segments := [];
         pt_max_segment_bytes := max; pt_sync_level := lvl |}).
       change p with (set_segments ([] ++ [s]) q). apply (dir_inv_push q w1); try done.
       - rewrite Hb. unfold is_uint. lia.
       - rewrite Hb. apply Hfree1. unfold is_uint. lia.
       - by eapply seg_files.
       - split; cbn [q pt_base_dir pt_segments].
         + rewrite Hcd. cbn. apply elem_of_union_l, elem_of_list_to_set, prefixes_self.
         + rewrite <- Hnames. etrans; [|by apply (log_bases_mkdir dir w (made w))].
           rewrite !log_bases_eq, Hcd. assert (w_files w1 = w_files (made w)) as ->; [|done].
           apply map_eq. intros k. apply Hcf, not_elem_of_nil.
         + intros n Hn. destruct (Hfree1 n Hn) as (Hf1 & Hf2 & _). split; [exact Hf1|exact Hf2].
         + rewrite Hco. exact Hord. }
  split; cbn [p pt_segments pt_base_dir pt_max_segment_bytes].
  - exists [[]]. split; [|done]. split; [exact Hs|]. split; [exact Hb|]. split; [by left|done].
  - exists [], s. split; [done|]. split; [exact Hm|].
    destruct Hs as [? ? ? ? ? ? ? -> ? ? ? ? ?]. rewrite blen_log_nil. lia.
  - lia.
  - by eapply usable_dir_grows.
  - intros n Hn _ Hlast. specialize (Hlast s eq_refl). eapply (free_names_grows _ _ s);
      [exact Hn|rewrite Hb; unfold is_uint; lia|exact Hlast|exact Hgrows|by apply Hfree1].
Qed.
End disk.
