(* ===== verification/PartitionSpec.v ===== *)
(** * A partition is an append-only log

    The abstract specification: a sequence of records with consecutive offsets,
    the operations as a transition relation on it. Every run of the partition's
    operations simulates the specification, and what it stored survives a
    restart. *)
From S2P Require Import Prelude Errors BytesCrate StdText FileSystem BinarySearch Index Record Segment SegmentInv SegmentRead SegmentWrite SegmentLoad Partition Listing PartitionInv Isolation PartitionWrite PartitionRead PartitionOpen.
#[local] Open Scope Z_scope.

(** ** The specification *)
Inductive op : Type :=
| OpAppend (key value : option bytes)
| OpBatch (payloads : list bytes)
| OpRead (offset : Z)
| OpReadBatch (offset max_bytes : Z)
| OpFlush
| OpSync.

Inductive reply : Type :=
| RepOffset (o : Z)
| RepError (e : RukaError)
| RepRecord (r : option LogRecord)
| RepRecords (rs : list LogRecord)
| RepUnit.

(** One step of the log that holds [rs] from offset [base] on, for segments of
    at most [max] bytes. *)
Inductive spec_step (max base : Z) (rs : list LogRecord) : op → reply → list LogRecord → Prop :=
| SpecAppend key value r :
    record_len key value ≤ max → stores r (base + blen rs) key value →
    spec_step max base rs (OpAppend key value) (RepOffset (base + blen rs)) (rs ++ [r])
| SpecAppendLarge key value :
    max < record_len key value →
    spec_step max base rs (OpAppend key value) (RepError MessageTooLarge) rs
| SpecBatch ps new :
    accepts max ps = true → carries new ps → consecutive base (rs ++ new) →
    spec_step max base rs (OpBatch ps) (RepOffset (base + blen rs)) (rs ++ new)
| SpecBatchLarge ps new taken :
    accepts max ps = false → carries new taken → taken `prefix_of` ps → consecutive base (rs ++ new) →
    spec_step max base rs (OpBatch ps) (RepError MessageTooLarge) (rs ++ new)
| SpecRead o :
    spec_step max base rs (OpRead o) (RepRecord (record_at base rs o)) rs
| SpecReadBatch o m out :
    batch_out m [] (records_from base rs o) out →
    spec_step max base rs (OpReadBatch o m) (RepRecords out) rs
| SpecFlush : spec_step max base rs OpFlush RepUnit rs
| SpecSync : spec_step max base rs OpSync RepUnit rs.

Inductive spec_run (max base : Z) : list LogRecord → list op → list reply → list LogRecord → Prop :=
| SpecNil rs : spec_run max base rs [] [] rs
| SpecCons rs o r rs1 ops reps rs2 :
    spec_step max base rs o r rs1 → spec_run max base rs1 ops reps rs2 →
    spec_run max base rs (o :: ops) (r :: reps) rs2.

Lemma spec_run_app max base rs ops1 reps1 rs1 ops2 reps2 rs2 :
  spec_run max base rs ops1 reps1 rs1 → spec_run max base rs1 ops2 reps2 rs2 →
  spec_run max base rs (ops1 ++ ops2) (reps1 ++ reps2) rs2.
Proof. induction 1; [done|]. intros H2. cbn. econstructor; eauto. Qed.

(** ** The program's run *)
Section spec.
Context `{!BytesOps}.

Definition reply_of {A} (f : A → reply) (m : PartIO A) : PartIO reply :=
  r ← attempt m; mret (match r with inl a => f a | inr e => RepError e end).

Definition exec (o : op) : PartIO reply :=
  match o with
  | OpAppend key value => reply_of RepOffset (Partition_append key value)
  | OpBatch ps => reply_of RepOffset (Partition_append_batch ps)
  | OpRead offset => reply_of RepRecord (Partition_read offset)
  | OpReadBatch offset m => reply_of RepRecords (Partition_read_batch offset m)
  | OpFlush => reply_of (λ _, RepUnit) Partition_flush
  | OpSync => reply_of (λ _, RepUnit) Partition_sync
  end.

Fixpoint exec_all (ops : list op) : PartIO (list reply) :=
  match ops with
  | [] => mret []
  | o :: ops' => r ← exec o; rs ← exec_all ops'; mret (r :: rs)
  end.
End spec.

(** The arguments have their Rust types and lengths fit the record format. *)
Definition op_typed (o : op) : Prop :=
  match o with
  | OpAppend key value => storable key value
  | OpBatch ps => Forall small_payload ps
  | OpReadBatch _ m => is_u32 m
  | _ => True
  end.

(** How many offsets an operation may take. *)
Definition op_weight (o : op) : Z :=
  match o with OpAppend _ _ => 1 | OpBatch ps => blen ps | _ => 0 end.
Definition ops_weight (ops : list op) : Z := foldr (λ o n, op_weight o + n) 0 ops.

Lemma op_weight_nonneg o : 0 ≤ op_weight o.
Proof. destruct o; cbn [op_weight]; len. Qed.
Lemma ops_weight_nonneg ops : 0 ≤ ops_weight ops.
Proof. induction ops as [|o ops IH]; [done|]. cbn [ops_weight foldr]. fold (ops_weight ops). pose proof (op_weight_nonneg o). lia. Qed.

(** An operation adds at most as many records as it has weight. *)
Lemma spec_run_weight max base rs ops reps rs' : spec_run max base rs ops reps rs' → blen rs' ≤ blen rs + ops_weight ops.
Proof.
  assert (Hcar : ∀ new ps, carries new ps → blen new = blen ps).
  { intros new ps [Hc _]. apply (f_equal length) in Hc. rewrite !length_fmap in Hc. unfold blen. lia. }
  induction 1 as [|rs o r rs1 ops reps rs2 Hstep _ IH]; [cbn; lia|]. cbn [ops_weight foldr]. fold (ops_weight ops).
  assert (blen rs1 ≤ blen rs + op_weight o); [|lia].
  inversion Hstep as [| |ps new _ Hc _|ps new taken _ Hc [k ->] _| | | |]; subst; cbn [op_weight]; rewrite ?blen_app;
    try (apply Hcar in Hc); len.
Qed.

(** How a partition may be used. One whose active segment was created by this
    process may be used in any way; one that was opened from the disk may be
    appended to as long as nothing was read, or read as long as nothing is
    appended, because reads move the position its handle writes at. *)
Inductive access : Type := AnyUse | AppendOnly | ReadOnly.

Definition usable_for (m : access) (p : Partition) (w : World) : Prop :=
  match m with AnyUse => part_fresh p | AppendOnly => part_writable p w | ReadOnly => True end.

Definition permits (m : access) (o : op) : bool :=
  match m, o with
  | AppendOnly, (OpRead _ | OpReadBatch _ _) => false
  | ReadOnly, (OpAppend _ _ | OpBatch _) => false
  | _, _ => true
  end.

(** A partition in service that stores [rs]. *)
Record serving (m : access) (p : Partition) (w : World) (base : Z) (rs : list LogRecord) : Prop := {
  sv_inv : part_inv p w base rs;
  sv_dir : dir_inv p w;
  sv_access : usable_for m p w;
  sv_healthy : healthy w;
  sv_max : 0 ≤ pt_max_segment_bytes p
}.

(** A new partition can be used in every way. *)
Lemma fresh_usable m p w : part_fresh p → usable_for m p w.
Proof. intros Hf. destruct m; [exact Hf|by apply fresh_writable|done]. Qed.

Lemma serving_any m p w base rs : serving AnyUse p w base rs → serving m p w base rs.
Proof. intros [? ? Hf ? ?]. split; [done|done|by apply fresh_usable|done|done]. Qed.
Lemma serving_reads m p w base rs : serving m p w base rs → serving ReadOnly p w base rs.
Proof. intros []. by split. Qed.

Lemma usable_writable m p w o :
  usable_for m p w → permits m o = true → (match o with OpAppend _ _ | OpBatch _ => True | _ => False end) → part_writable p w.
Proof. intros Hu Hp Ho. destruct m; [by apply fresh_writable|done|by destruct o]. Qed.

(** The files of the active segment are the same. *)
Lemma usable_files m p w' w :
  (∀ s, last (pt_segments p) = Some s → w_files w' !! fl_path (sg_log_file s) = w_files w !! fl_path (sg_log_file s)) →
  usable_for m p w → usable_for m p w'.
Proof.
  intros Hf. destruct m; [done| |done]. intros Hw s Hs. specialize (Hw s Hs). unfold writable, at_end, file_contents, contents in *.
  cbn [fst snd] in *. by rewrite Hf.
Qed.

Lemma part_next_offset p w base rs : part_inv p w base rs → Partition_next_offset p = base + blen rs.
Proof.
  intros Hinv. destruct (part_active _ _ _ _ Hinv) as (? & ? & ? & ? & Hav).
  by destruct (av_next _ _ _ _ _ _ _ _ Hav) as (-> & _).
Qed.

Section refinement.
Context `{BytesLaws}.

Lemma reply_of_Ok {A} (f : A → reply) (m : PartIO A) st a st' :
  m st = (Ok a, st') → reply_of f m st = (Ok (f a), st').
Proof. intros Hm. unfold reply_of. by erewrite bind_Ok by (apply attempt_Ok, Hm). Qed.
Lemma reply_of_Err {A} (f : A → reply) (m : PartIO A) st e st' :
  m st = (Err e, st') → reply_of f m st = (Ok (RepError e), st').
Proof. intros Hm. unfold reply_of. by erewrite bind_Ok by (apply attempt_Err, Hm). Qed.

Lemma appended_serving m p' p w' w base rs rs' :
  serving m p w base rs → appended p' p w' w base rs' → serving m p' w' base rs'.
Proof.
  intros [? ? Hu ? ?] [? ? ? Hf (_ & _ & _ & Hm & _) Hd _]. split; auto; [|by rewrite Hm].
  destruct m; [by apply Hf|done|done].
Qed.

Lemma touched_dir p' p w' w : touched p' p w' w → dir_inv p w → dir_inv p' w'.
Proof.
  intros [(_ & _ & Hd & _) Hs Hw] Hdi. apply (dir_inv_same _ _ _ (popped_same _ _ Hw)) in Hdi.
  destruct Hdi as [H1' H2' H3' H4']. split; rewrite ?Hd; try assumption. rewrite H2'.
  assert (sg_base_offset <$> pt_segments p' = sg_base_offset <$> pt_segments p) as ->; [|done].
  clear -Hs. induction Hs as [|s' s ? ? [n ->]]; cbn; [done|]. f_equal. done.
Qed.

Lemma touched_serving m p' p w' w base rs :
  serving m p w base rs → m ≠ AppendOnly → touched p' p w' w → serving m p' w' base rs.
Proof.
  intros [] Hno Ht. pose proof Ht as [(_ & _ & _ & Hm & _) _ Hw]. split.
  - by eapply touched_inv.
  - by eapply touched_dir.
  - destruct m; [by eapply touched_fresh|done|done].
  - by eapply popped_healthy.
  - by rewrite Hm.
Qed.

(** Only the system calls advance. *)
Lemma popped_serving m p w' w base rs : serving m p w base rs → popped w' w → serving m p w' base rs.
Proof.
  intros [] Hp. pose proof (popped_same _ _ Hp) as Hs. split.
  - by eapply part_inv_same.
  - by eapply dir_inv_same.
  - eapply usable_files; [|done]. intros s _. by destruct Hs as [-> _].
  - by eapply popped_healthy.
  - done.
Qed.

Lemma serving_active m p w base rs : serving m p w base rs → ∃ l s, pt_segments p = l ++ [s].
Proof. intros [[_ (l & s & Hp & _) _ _ _] _ _ _ _]. eauto. Qed.

Lemma nonempty_match {A} (l : list Segment) s (x y : A) :
  match l ++ [s] with [] => x | _ :: _ => y end = y.
Proof. by destruct l. Qed.

Lemma Partition_flush_ok m p w base rs : serving m p w base rs → Partition_flush (p, w) = (Ok tt, (p, w)).
Proof.
  intros (l & s & Hp)%serving_active. unfold Partition_flush. mret_step. cbn [fst].
  rewrite Hp, nonempty_match, (on_active _ _ _ _ _ Hp), Segment_flush_ok. by rewrite set_segments_same.
Qed.

Lemma Segment_sync_ok s w :
  healthy w → Segment_sync (s, w) = (Ok tt, (s, pop_sched (pop_sched w))).
Proof.
  intros Hw. unfold Segment_sync. erewrite bind_Ok by (apply on_log_ok, sync_data_ok; exact Hw).
  assert (∀ ix w, healthy w → Index_sync (ix, w) = (Ok tt, (ix, pop_sched w))) as Hs.
  { intros [] w1 Hw1. unfold Index_sync, on_ix_file. by erewrite zoom_Ok by (by apply sync_data_ok). }
  erewrite on_index_ok by (apply Hs; healthy). by destruct s.
Qed.

Lemma Partition_sync_ok m p w base rs :
  serving m p w base rs → Partition_sync (p, w) = (Ok tt, (p, pop_sched (pop_sched w))).
Proof.
  intros Hsv. pose proof (sv_healthy _ _ _ _ _ Hsv). apply serving_active in Hsv as (l & s & Hp).
  unfold Partition_sync. mret_step. cbn [fst].
  rewrite Hp, nonempty_match, (on_active _ _ _ _ _ Hp), Segment_sync_ok by done.
  by rewrite set_segments_same.
Qed.

(** Appending takes a step of the specification. *)
Lemma exec_append_ok m p w base rs o :
  serving m p w base rs → permits m o = true → op_typed o → base + blen rs + op_weight o < 2 ^ 64 →
  (match o with OpAppend _ _ | OpBatch _ => True | _ => False end) →
  ∃ rep p' w' rs', exec o (p, w) = (Ok rep, (p', w')) ∧
    spec_step (pt_max_segment_bytes p) base rs o rep rs' ∧ serving m p' w' base rs' ∧ same_part p' p ∧
    blen rs' ≤ blen rs + op_weight o ∧ within (pt_base_dir p) w' w.
Proof.
  intros Hsv Hper Hty Hroom Ho. pose proof Hsv as [Hinv Hdi Hu Hw Hmax].
  pose proof (usable_writable m p w o Hu Hper Ho) as Hwr. destruct o as [key value|ps|o|o n| |]; try done; cbn [exec op_weight] in *.
  - pose proof (Partition_append_ok p w base rs key value Hw Hinv Hwr Hty Hroom) as Happ.
    destruct (Z.ltb_spec (pt_max_segment_bytes p) (record_len key value)) as [Hbig|Hsmall].
    + eexists _, p, w, rs. split; [by apply reply_of_Err|]. split; [by constructor|]. split; [done|]. split; [done|]. split; [lia|done].
    + destruct Happ as (p' & w' & r & Heq & Hst & Hap). eexists _, p', w', (rs ++ [r]).
      split; [by apply reply_of_Ok|]. split; [by constructor|]. split; [by eapply appended_serving|].
      split; [apply Hap|]. split; [len|apply Hap].
  - destruct (Partition_append_batch_ok p w base rs ps Hw Hinv Hwr Hty Hroom Hmax)
      as [(new & taken & Hap & Hcar & Hpre & Hres)].
    destruct (Partition_append_batch ps (p, w)) as [res [p' w']] eqn:Hrun. cbn [fst snd] in *.
    assert (Hlen : blen new = blen taken).
    { destruct Hcar as [Hc _]. apply (f_equal length) in Hc. rewrite !length_fmap in Hc. unfold blen. lia. }
    assert (Hcons : consecutive base (rs ++ new)).
    { destruct (ap_inv _ _ _ _ _ _ Hap) as [(parts & Hc & ->) _ _ _ _]. by eapply chain_consecutive. }
    assert (Htk : blen taken ≤ blen ps) by (destruct Hpre as [k ->]; len).
    exists (match res with Ok o => RepOffset o | _ => RepError MessageTooLarge end), p', w', (rs ++ new).
    destruct (accepts _ ps) eqn:Hacc.
    + destruct Hres as [-> ->]. split; [by apply reply_of_Ok|]. split; [by constructor|].
      split; [by eapply appended_serving|]. split; [apply Hap|]. split; [len|apply Hap].
    + subst res. split; [by apply reply_of_Err|]. split; [by eapply SpecBatchLarge|].
      split; [by eapply appended_serving|]. split; [apply Hap|]. split; [len|apply Hap].
Qed.

(** Every operation takes a step of the specification. *)
Lemma exec_ok m p w base rs o :
  serving m p w base rs → permits m o = true → op_typed o → base + blen rs + op_weight o < 2 ^ 64 →
  ∃ rep p' w' rs', exec o (p, w) = (Ok rep, (p', w')) ∧
    spec_step (pt_max_segment_bytes p) base rs o rep rs' ∧ serving m p' w' base rs' ∧ same_part p' p ∧
    blen rs' ≤ blen rs + op_weight o ∧ within (pt_base_dir p) w' w.
Proof.
  intros Hsv Hper Hty Hroom. pose proof Hsv as [Hinv Hdi _ Hw Hmax].
  destruct o as [key value|ps|o|o n| |]; [by apply exec_append_ok..| | | |]; cbn [exec op_weight] in *.
  - destruct (Partition_read_ok p w base rs o Hw Hinv) as (p' & w' & Heq & Hto).
    eexists _, p', w', rs. split; [by apply reply_of_Ok|]. split; [constructor|].
    split; [eapply touched_serving; [exact Hsv|by destruct m|exact Hto]|]. split; [apply Hto|]. split; [lia|apply within_same, popped_same, Hto].
  - unfold is_uint in Hty. destruct (Partition_read_batch_ok p w base rs o n Hw Hinv) as (out & p' & w' & Heq & Hto & Hout & _); [by apply Hty|].
    eexists _, p', w', rs. split; [by apply reply_of_Ok|]. split; [by constructor|].
    split; [eapply touched_serving; [exact Hsv|by destruct m|exact Hto]|]. split; [apply Hto|]. split; [lia|apply within_same, popped_same, Hto].
  - eexists _, p, w, rs. split; [eapply reply_of_Ok, Partition_flush_ok, Hsv|]. split; [constructor|].
    split; [done|]. split; [done|]. split; [lia|done].
  - eexists _, p, _, rs. split; [eapply reply_of_Ok, Partition_sync_ok, Hsv|]. split; [constructor|].
    split; [eapply popped_serving; [exact Hsv|auto with world]|]. split; [done|]. split; [lia|by apply within_same].
Qed.

Lemma exec_all_ok m p w base rs ops :
  serving m p w base rs → forallb (permits m) ops = true → Forall op_typed ops → base + blen rs + ops_weight ops < 2 ^ 64 →
  ∃ reps p' w' rs', exec_all ops (p, w) = (Ok reps, (p', w')) ∧
    spec_run (pt_max_segment_bytes p) base rs ops reps rs' ∧ serving m p' w' base rs' ∧ same_part p' p.
Proof.
  intros Hsv Hper Hty. revert p w rs Hsv Hper. induction Hty as [|o ops Ho Hty IH]; intros p w rs Hsv Hper Hroom.
  { exists [], p, w, rs. split; [done|]. split; [constructor|]. done. }
  cbn [forallb] in Hper. apply andb_true_iff in Hper as [Hpo Hper].
  cbn [ops_weight foldr] in Hroom. fold (ops_weight ops) in Hroom.
  pose proof (ops_weight_nonneg ops) as Hpos.
  destruct (exec_ok m p w base rs o Hsv Hpo Ho) as (rep & p1 & w1 & rs1 & Hx & Hstep & Hsv1 & Hsame1 & Hlen & _); [lia|].
  destruct (IH p1 w1 rs1 Hsv1 Hper) as (reps & p2 & w2 & rs2 & Hxs & Hrun & Hsv2 & Hsame2); [lia|].
  exists (rep :: reps), p2, w2, rs2. cbn [exec_all]. mstep Hx. mstep Hxs. split; [done|].
  split; [|split; [done|by rewrite Hsame2]]. pose proof Hsame1 as (_ & _ & _ & Hm & _). rewrite Hm in Hrun.
  by eapply SpecCons.
Qed.

Lemma permits_any ops : forallb (permits AnyUse) ops = true.
Proof. induction ops as [|o ops IH]; [done|]. cbn. by destruct o. Qed.

(** ** Restart *)
Definition recs_of (bs : list Z) (parts : list (list LogRecord)) (n : Z) : list LogRecord :=
  default [] ((list_to_map (zip bs parts) : gmap Z (list LogRecord)) !! n).

Lemma recs_of_cons b bs rs parts n :
  recs_of (b :: bs) (rs :: parts) n = if decide (n = b) then rs else recs_of bs parts n.
Proof.
  unfold recs_of. cbn [zip zip_with list_to_map foldr]. destruct (decide (n = b)) as [->|Hne].
  - by rewrite lookup_insert_eq.
  - by rewrite lookup_insert_ne.
Qed.

Lemma recs_of_fmap bs parts : NoDup bs → length bs = length parts → recs_of bs parts <$> bs = parts.
Proof.
  intros Hnd. revert parts. induction Hnd as [|b bs Hb Hnd IH]; intros [|rs parts] Hlen; try done.
  cbn [fmap list_fmap]. rewrite recs_of_cons, decide_True by done. f_equal.
  injection Hlen as Hlen. rewrite <- (IH parts Hlen) at 2. apply list_fmap_ext. intros i n Hi.
  rewrite recs_of_cons, decide_False; [done|]. intros ->. by apply Hb, list_elem_of_lookup_2 with i.
Qed.

Lemma disk_chain_ext f g base bs :
  (∀ n, n ∈ bs → f n = g n) → disk_chain f base bs → disk_chain g base bs.
Proof.
  revert base. induction bs as [|b bs IH]; intros base Hext; [done|]. cbn [disk_chain].
  rewrite (Hext b ltac:(left)). intros (? & ? & Hc). split; [done|]. split; [done|].
  apply IH; [|done]. intros n Hn. apply Hext. by right.
Qed.

(** A chain in memory is a chain on disk. *)
Lemma chain_disk dir w base ss parts :
  chain dir w base ss parts →
  let bs := sg_base_offset <$> ss in
  NoDup bs ∧ length bs = length parts ∧ disk_chain (recs_of bs parts) base bs ∧
  ∀ n, n ∈ bs → ∃ s, sg_base_offset s = n ∧ seg_inv dir s w (recs_of bs parts n).
Proof.
  intros Hc. cbn zeta. revert base parts Hc. induction ss as [|s ss IH]; intros base [|rs parts] Hc; try done.
  { split; [constructor|]. split; [done|]. split; [done|]. by intros n ?%elem_of_nil. }
  pose proof Hc as (Hs & Hb & Hn & Hc'). destruct (IH _ _ Hc') as (Hnd & Hlen & Hd & Hall).
  cbn [fmap list_fmap]. set (bs := sg_base_offset <$> ss) in *.
  assert (Hlt : ∀ n, n ∈ bs → sg_base_offset s < n).
  { intros n Hin. apply list_elem_of_fmap in Hin as (t & -> & Ht).
    destruct (chain_bases _ _ _ _ _ _ Hc' Ht) as [Hge _].
    destruct Hn as [->|Hne]; [by apply elem_of_nil in Ht|].
    assert (blen rs ≠ 0) by (by intros ?%blen_0). len. }
  assert (Hext : ∀ n, n ∈ bs → recs_of bs parts n = recs_of (sg_base_offset s :: bs) (rs :: parts) n).
  { intros n Hin. rewrite recs_of_cons, decide_False; [done|]. specialize (Hlt n Hin). lia. }
  split; [|split; [cbn; lia|split]].
  - constructor; [|done]. intros Hin. specialize (Hlt _ Hin). lia.
  - cbn [disk_chain]. rewrite recs_of_cons, decide_True by done. split; [done|]. split.
    + destruct Hn as [->|]; [by left|by right].
    + by eapply disk_chain_ext.
  - intros n [->|Hin]%elem_of_cons.
    + exists s. by rewrite recs_of_cons, decide_True.
    + destruct (Hall n Hin) as (t & Ht & Hts). exists t. by rewrite <- Hext.
Qed.

(** What a directory holds when the complete records of its segments are [rs];
    the logs may end in a torn tail. *)
Definition log_on_disk (dir : path) (max : Z) (w : World) (base : Z) (rs : list LogRecord) : Prop :=
  ∃ recs junk bs, dir_state dir max recs junk w base bs ∧ bs ≠ [] ∧ concat (recs <$> bs) = rs.

Lemma serving_dir_state m p w base rs :
  serving m p w base rs →
  log_on_disk (pt_base_dir p) (pt_max_segment_bytes p) w base rs.
Proof.
  intros [[(parts & Hc & ->) (l & s & Hp & Hm & Hsz) Hm63 Hdir Hfree] [Hd Hnames Hnod Hord] _ _ _].
  destruct (chain_disk _ _ _ _ _ Hc) as (Hnd & Hlen & Hdc & Hseg).
  set (bs := sg_base_offset <$> pt_segments p) in *. exists (recs_of bs parts), (λ _, []), bs.
  rewrite recs_of_fmap by done. split; [|split; [|done]].
  2: { unfold bs. rewrite Hp. by destruct l. }
  assert (Hu : ∀ n, n ∈ bs → is_u64 n).
  { intros n (t & <- & [])%Hseg. unfold is_uint. len. }
  split; [exact Hdir|exact Hord|exact Hnames|exact Hnd|exact Hdc|..].
  - apply Forall_forall. intros n Hn. destruct (Hseg n Hn) as (t & <- & []). split.
    + rewrite app_nil_r. exact si_log.
    + unfold index_state. destruct si_index as (_ & Hix & _). rewrite si_index_path in Hix. rewrite Hix.
      left. by rewrite si_entries.
    + by apply Hnod, Hu.
    + exact Hd.
    + exact si_consecutive.
    + exact si_typed.
    + apply stops_nil.
    + exact si_base.
    + exact si_offsets.
    + rewrite app_nil_r. exact si_small.
  - intros n Hn Hnin. destruct (Hnod n Hn) as [Hl Hi]. split; [exact Hl|]. split; [exact Hi|].
    destruct (w_files w !! log_path (pt_base_dir p) n) as [d|] eqn:Hf; [|done]. destruct Hnin.
    rewrite <- Hnames. apply log_bases_in; [exact Hn|]. rewrite Hf. by eexists.
  - intros b Hb. unfold bs in Hb. rewrite Hp, fmap_app in Hb. cbn [fmap list_fmap] in Hb.
    rewrite last_snoc in Hb. injection Hb as <-.
    rewrite Hp in Hc. pose proof Hc as (p1 & ars & -> & _ & _ & Hs & _)%chain_snoc.
    pose proof (recs_of_fmap _ _ Hnd Hlen) as Hrf. unfold bs in Hrf at 2.
    rewrite Hp, !fmap_app in Hrf. apply app_inj_tail in Hrf as [_ Hrf]. rewrite Hrf.
    destruct Hs. by rewrite <- si_size.
  - intros n Hn. destruct (Hnod n (Hu n Hn)) as [Hl _]. exact Hl.
Qed.

(** Where a partition's segments are. *)
Definition partition_dir (base_dir : path) (topic : bytes) (id : Z) : path :=
  join (join base_dir topic) (to_dec id).

(** A directory (existing or not) without any log in it. *)
Record empty_dir (dir : path) (w : World) : Prop := {
  ed_usable : usable_dir dir w;
  ed_order : ∀ l, w_dir_order w l ≡ₚ l;
  ed_names : log_bases dir w = [];
  ed_free : ∀ n, is_u64 n → free_names dir n w
}.

Lemma empty_dir_state dir max recs junk w : empty_dir dir w → dir_state dir max recs junk w 0 [].
Proof.
  intros [Hu Ho Hn Hf]. split; [exact Hu|exact Ho|by rewrite Hn|constructor|done|constructor|auto|done|by intros n ?%elem_of_nil].
Qed.

Context (topic : bytes) (id : Z) (base_dir : path) (max : Z) (lvl : Config.SyncLevel).

Lemma open_serving w :
  healthy w → empty_dir (partition_dir base_dir topic id) w → 0 ≤ max ≤ 2 ^ 63 →
  ∃ p w', Partition_open_or_create topic id base_dir max lvl w = (Ok p, w') ∧ serving AnyUse p w' 0 [] ∧ pt_base_dir p = partition_dir base_dir topic id ∧
          pt_max_segment_bytes p = max ∧ pt_topic p = topic ∧ pt_id p = id ∧ within (partition_dir base_dir topic id) w' w ∧
          list_to_set (prefixes (partition_dir base_dir topic id)) ⊆ w_dirs w'.
Proof using All.
  intros Hw He Hm.
  destruct (Partition_create_ok _ max lvl (λ _, []) (λ _, []) topic id base_dir eq_refl w)
    as (p & w' & Ho & Hinv & Hdi & Hh & Hfr & Hd & Hmx & Ht & Hi & Hwi & Hpre); [done|by apply empty_dir_state|done|].
  exists p, w'. split; [exact Ho|]. split; [|done]. split; try done. lia.
Qed.

(** Reopening gives back the log, which may be appended to or read. *)
Lemma reopen_ok w base rs :
  healthy w → log_on_disk (partition_dir base_dir topic id) max w base rs → 0 ≤ max ≤ 2 ^ 63 →
  ∃ p w', Partition_open_or_create topic id base_dir max lvl w = (Ok p, w') ∧ serving AppendOnly p w' base rs ∧
    pt_base_dir p = partition_dir base_dir topic id ∧ pt_max_segment_bytes p = max ∧ pt_topic p = topic ∧ pt_id p = id ∧
    within (partition_dir base_dir topic id) w' w.
Proof using All.
  intros Hw (recs & junk & bs & Hst & Hne & <-) Hm.
  destruct (Partition_reopen_ok _ max lvl recs junk topic id base_dir eq_refl w base bs)
    as (p & w' & Ho & Hinv & Hwr & Hh & Hd & Hmx & Hwi & Ht & Hi & Hdi); [done|done|lia|done|].
  exists p, w'. split; [done|]. split; [|done]. split; try done. rewrite Hmx. lia.
Qed.

(** C2: a partition opened in a directory without logs behaves, for every
    sequence of appends, batches, reads, batch reads, flushes and syncs and for
    every pattern of short reads, as the append-only log of the specification:
    it never panics, every reply is one the specification allows, and offsets
    are assigned consecutively from 0 across segment rotations. *)
Theorem Partition_refines_log w ops :
  healthy w → empty_dir (partition_dir base_dir topic id) w → 0 ≤ max ≤ 2 ^ 63 → Forall op_typed ops → ops_weight ops < 2 ^ 64 →
  ∃ p w0 reps p1 w1 rs,
    Partition_open_or_create topic id base_dir max lvl w = (Ok p, w0) ∧ exec_all ops (p, w0) = (Ok reps, (p1, w1)) ∧
    spec_run max 0 [] ops reps rs.
Proof using All.
  intros Hw He Hm Hty Hwt. destruct (open_serving w Hw He Hm) as (p & w0 & Ho & Hsv & _ & Hmx & _).
  destruct (exec_all_ok AnyUse p w0 0 [] ops Hsv (permits_any ops) Hty) as (reps & p1 & w1 & rs & Hx & Hrun & _); [len|].
  rewrite Hmx in Hrun. exists p, w0, reps, p1, w1, rs. done.
Qed.

(** ** Durability *)
Lemma exec_all_app ops1 ops2 st reps1 st1 reps2 st2 :
  exec_all ops1 st = (Ok reps1, st1) → exec_all ops2 st1 = (Ok reps2, st2) → exec_all (ops1 ++ ops2) st = (Ok (reps1 ++ reps2), st2).
Proof.
  revert st reps1. induction ops1 as [|o ops1 IH]; intros st reps1; cbn [exec_all app].
  - intros [= <- <-] H2. exact H2.
  - intros H1 H2. apply bind_Ok_inv in H1 as (r & sa & Ho & H1). apply bind_Ok_inv in H1 as (rs & sb & Hrs & H1).
    injection H1 as <- ->. mstep Ho. pose proof (IH _ _ Hrs H2) as Hall. by mstep Hall.
Qed.

Lemma ops_weight_app ops1 ops2 : ops_weight (ops1 ++ ops2) = ops_weight ops1 + ops_weight ops2.
Proof.
  unfold ops_weight. induction ops1 as [|o ops1 IH]; cbn [app foldr]; [done|]. rewrite IH. lia.
Qed.

(** Runs in which the log stays what it should be: any operations on a partition
    opened in a directory without logs; on one that is opened on the logs of an
    earlier process, appends that come before all reads. *)
Inductive sound_run (dir : path) (w : World) (base : Z) : list LogRecord → list op → Prop :=
| sound_new ops : empty_dir dir w → base = 0 → sound_run dir w base [] ops
| sound_reopened rs ops1 ops2 :
    log_on_disk dir max w base rs → forallb (permits AppendOnly) ops1 = true → forallb (permits ReadOnly) ops2 = true →
    sound_run dir w base rs (ops1 ++ ops2).

Lemma sound_run_ok w base rs ops :
  healthy w → sound_run (partition_dir base_dir topic id) w base rs ops → 0 ≤ max ≤ 2 ^ 63 →
  Forall op_typed ops → base + blen rs + ops_weight ops < 2 ^ 64 →
  ∃ p w0 reps p1 w1 rs1, Partition_open_or_create topic id base_dir max lvl w = (Ok p, w0) ∧
    exec_all ops (p, w0) = (Ok reps, (p1, w1)) ∧ spec_run max base rs ops reps rs1 ∧ serving ReadOnly p1 w1 base rs1 ∧
    log_on_disk (partition_dir base_dir topic id) max w1 base rs1.
Proof using All.
  intros Hw Hrun Hm Hty Hwt.
  assert (Hend : ∀ m p w0 p1 w1 rs1, serving m p1 w1 base rs1 → same_part p1 p → pt_base_dir p = partition_dir base_dir topic id →
    pt_max_segment_bytes p = max → Partition_open_or_create topic id base_dir max lvl w = (Ok p, w0) →
    serving ReadOnly p1 w1 base rs1 ∧ log_on_disk (partition_dir base_dir topic id) max w1 base rs1).
  { intros m p w0 p1 w1 rs1 Hsv (_ & _ & Hd1 & Hm1 & _) Hd Hmx _. split; [by eapply serving_reads|].
    apply serving_dir_state in Hsv. by rewrite Hd1, Hm1, Hd, Hmx in Hsv. }
  destruct Hrun as [ops He ->|rs ops1 ops2 Hdisk Hap Hre].
  - destruct (open_serving w Hw He Hm) as (p & w0 & Ho & Hsv & Hd & Hmx & _).
    destruct (exec_all_ok AnyUse p w0 0 [] ops Hsv (permits_any ops) Hty Hwt) as (reps & p1 & w1 & rs1 & Hx & Hsp & Hsv1 & Hsame).
    rewrite Hmx in Hsp. exists p, w0, reps, p1, w1, rs1. do 3 (split; [done|]). by eapply Hend.
  - destruct (reopen_ok w base rs Hw Hdisk Hm) as (p & w0 & Ho & Hsv & Hd & Hmx & _).
    rewrite ops_weight_app in Hwt. apply Forall_app in Hty as [Hty1 Hty2].
    assert (Hpos : 0 ≤ ops_weight ops2) by apply ops_weight_nonneg.
    destruct (exec_all_ok AppendOnly p w0 base rs ops1 Hsv Hap Hty1) as (reps1 & p1 & w1 & rs1 & Hx1 & Hsp1 & Hsv1 & Hsame1); [lia|].
    pose proof (spec_run_weight _ _ _ _ _ _ Hsp1) as Hgrow.
    destruct (exec_all_ok ReadOnly p1 w1 base rs1 ops2 (serving_reads _ _ _ _ _ Hsv1) Hre Hty2)
      as (reps2 & p2 & w2 & rs2 & Hx2 & Hsp2 & Hsv2 & Hsame2); [lia|].
    pose proof Hsame1 as (_ & _ & _ & Hm1 & _). rewrite Hm1 in Hsp2. rewrite Hmx in Hsp1, Hsp2.
    exists p, w0, (reps1 ++ reps2), p2, w2, rs2. split; [done|]. split; [by eapply exec_all_app|].
    split; [by eapply spec_run_app|]. eapply (Hend ReadOnly p w0); [exact Hsv2|by rewrite Hsame2|done..].
Qed.

(** C3: what a partition stored survives a restart ([sound_run]). Take a
    partition opened in a directory without logs and used in any way, or one
    opened on the logs an earlier process left and in which all appends come
    before all reads (a read of such a partition moves the place where the next
    append writes, see [misplaced_append_overwrites]), on a disk without errors.
    After the run, opening the directory again succeeds, and every offset reads
    the same record (or the same absence of one) as before; the next offset to
    be assigned is the same too. *)
Theorem Partition_durability w base rs ops :
  healthy w → sound_run (partition_dir base_dir topic id) w base rs ops → 0 ≤ max ≤ 2 ^ 63 →
  Forall op_typed ops → base + blen rs + ops_weight ops < 2 ^ 64 →
  ∃ p w0 reps p1 w1 p2 w2,
    Partition_open_or_create topic id base_dir max lvl w = (Ok p, w0) ∧ exec_all ops (p, w0) = (Ok reps, (p1, w1)) ∧
    Partition_open_or_create topic id base_dir max lvl w1 = (Ok p2, w2) ∧
    (∀ o, fst (Partition_read o (p2, w2)) = fst (Partition_read o (p1, w1))) ∧
    Partition_next_offset p2 = Partition_next_offset p1.
Proof using All.
  intros Hw Hrun Hm Hty Hwt.
  destruct (sound_run_ok w base rs ops Hw Hrun Hm Hty Hwt) as (p & w0 & reps & p1 & w1 & rs1 & Ho & Hx & _ & Hsv1 & Hdisk).
  destruct (reopen_ok w1 base rs1 (sv_healthy _ _ _ _ _ Hsv1) Hdisk Hm) as (p2 & w2 & Ho2 & [Hinv2 _ _ Hh2 _] & _).
  exists p, w0, reps, p1, w1, p2, w2. split; [done|]. split; [done|]. split; [done|].
  pose proof Hsv1 as [Hinv1 _ _ Hh1 _]. split.
  - intros o. destruct (Partition_read_ok p2 w2 base rs1 o Hh2 Hinv2) as (? & ? & -> & _).
    destruct (Partition_read_ok p1 w1 base rs1 o Hh1 Hinv1) as (? & ? & -> & _). done.
  - by rewrite (part_next_offset _ _ _ _ Hinv1), (part_next_offset _ _ _ _ Hinv2).
Qed.

(** C14: on a partition that satisfies the invariant and is writable
    ([part_writable]: its active segment was created by this process, or it was
    reopened and not read since), on a disk without errors, `append` either
    refuses a record larger than a segment and changes nothing, or stores it
    under the next offset: reading that offset returns the key and value, every
    other offset reads as before, and the next offset grows by one.
    [misplaced_append_overwrites] says what happens to a segment that is not
    writable. *)
Theorem Partition_append_read p w base rs key value :
  healthy w → part_inv p w base rs → part_writable p w → storable key value →
  base + blen rs + 1 < 2 ^ 64 →
  if pt_max_segment_bytes p <? record_len key value
  then Partition_append key value (p, w) = (Err MessageTooLarge, (p, w))
  else ∃ p' w' r,
    Partition_append key value (p, w) = (Ok (Partition_next_offset p), (p', w')) ∧
    fst (Partition_read (Partition_next_offset p) (p', w')) = Ok (Some r) ∧
    stores r (Partition_next_offset p) key value ∧
    (∀ o, o ≠ Partition_next_offset p →
       fst (Partition_read o (p', w')) = fst (Partition_read o (p, w))) ∧
    Partition_next_offset p' = Partition_next_offset p + 1.
Proof.
  intros Hw Hinv Hwr Hst Hroom.
  pose proof (Partition_append_ok p w base rs key value Hw Hinv Hwr Hst Hroom) as Happ.
  destruct (_ <? _); [done|]. destruct Happ as (p' & w' & r & Heq & Hr & [Hinv' _ Hh' _ _ _ _]).
  exists p', w', r. rewrite (part_next_offset _ _ _ _ Hinv), (part_next_offset _ _ _ _ Hinv').
  split; [done|].
  assert (Hread : ∀ o, fst (Partition_read o (p', w')) = Ok (record_at base (rs ++ [r]) o)).
  { intros o. by destruct (Partition_read_ok p' w' base _ o Hh' Hinv') as (? & ? & -> & _). }
  split; [|split; [done|split; [|len]]].
  - rewrite Hread. unfold record_at. rewrite decide_True by len. f_equal.
    rewrite lookup_app_r by (unfold blen; lia).
    replace (Z.to_nat (base + blen rs - base) - length rs)%nat with 0%nat by (unfold blen; lia). done.
  - intros o Ho. rewrite Hread. destruct (Partition_read_ok p w base rs o Hw Hinv) as (? & ? & -> & _).
    cbn [fst]. f_equal. unfold record_at. case_decide; [|done].
    destruct (decide (Z.to_nat (o - base) < length rs)%nat) as [Hlt|Hge].
    + by rewrite lookup_app_l.
    + rewrite (lookup_ge_None_2 rs) by lia. apply lookup_ge_None. rewrite length_app. cbn.
      unfold blen in *. lia.
Qed.

(** C16: a batch read starts with the record at the requested offset whenever
    there is one and the budget is positive, returns records of the log in log
    order, none twice, within the byte budget unless it is a single record;
    and when no read is short and everything from the offset on fits in the
    budget, it returns exactly all of it, across segments. *)
Theorem Partition_read_batch_correct p w base rs o m :
  healthy w → part_inv p w base rs → 0 < m →
  ∃ out st', Partition_read_batch o m (p, w) = (Ok out, st') ∧
    out `sublist_of` records_from base rs o ∧
    head out = record_at base rs o ∧
    (blen (log_bytes out) ≤ m ∨ length out = 1%nat) ∧
    (prompt w → blen (log_bytes (records_from base rs o)) ≤ m → out = records_from base rs o).
Proof.
  intros Hw Hinv Hm.
  destruct (Partition_read_batch_ok p w base rs o m Hw Hinv) as (out & p' & w' & Heq & _ & [Hsub Hbud Hhd] & Hall); [lia|].
  exists out, (p', w'). split; [done|]. split; [done|]. rewrite record_at_head.
  split; [by apply Hhd|]. split; [|done]. destruct Hbud as [?|[_ [r ->]]]; [by left|by right].
Qed.

(** C15: on a partition that satisfies the invariant and is writable
    ([part_writable]: its active segment was created by this process, or it was
    reopened and not read since), on a disk without errors, a batch append
    stores all payloads, in order and without key, under consecutive offsets
    starting at the offset it returns, rotating segments as often as needed; if
    some payload is larger than a segment it answers MessageTooLarge, and what
    it stored is a prefix of the batch. *)
Theorem Partition_append_batch_correct p w base rs ps :
  healthy w → part_inv p w base rs → part_writable p w → Forall small_payload ps →
  base + blen rs + blen ps < 2 ^ 64 → 0 ≤ pt_max_segment_bytes p →
  ∃ res p' w' new taken,
    Partition_append_batch ps (p, w) = (res, (p', w')) ∧ part_inv p' w' base (rs ++ new) ∧
    carries new taken ∧ taken `prefix_of` ps ∧
    (if accepts (pt_max_segment_bytes p) ps then res = Ok (base + blen rs) ∧ taken = ps
     else res = Err MessageTooLarge).
Proof.
  intros Hw Hinv Hwr Hps Hroom Hmax.
  destruct (Partition_append_batch_ok p w base rs ps Hw Hinv Hwr Hps Hroom Hmax) as [(new & taken & Hap & Hc & Hp & Hres)].
  destruct (Partition_append_batch ps (p, w)) as [res [p' w']]. exists res, p', w', new, taken.
  split; [done|]. split; [apply Hap|]. done.
Qed.

(** C7: recovery of a partition after a crash: whatever order the directory is
    listed in, when each log holds complete records followed by a tail on which
    decoding stops (a torn record, or a length field below 28; a tail that makes
    the decoder panic is excluded), and each index is complete, empty,
    misaligned or missing, opening the partition keeps exactly the complete
    records: every offset reads its record, and the next append goes after the
    last one. *)
Theorem Partition_recovery recs junk w base bs :
  healthy w → dir_state (partition_dir base_dir topic id) max recs junk w base bs →
  max ≤ 2 ^ 63 → bs ≠ [] →
  ∃ p w', Partition_open_or_create topic id base_dir max lvl w = (Ok p, w') ∧
    (∀ o, fst (Partition_read o (p, w')) = Ok (record_at base (concat (recs <$> bs)) o)) ∧
    Partition_next_offset p = base + blen (concat (recs <$> bs)) ∧
    part_inv p w' base (concat (recs <$> bs)) ∧ part_writable p w'.
Proof.
  intros Hw Hst Hm Hne.
  destruct (Partition_reopen_ok _ max lvl recs junk topic id base_dir eq_refl w base bs Hw Hst Hm Hne)
    as (p & w' & Ho & Hinv & Hwr & Hh & _). exists p, w'. split; [exact Ho|]. split; [|split; [|done]].
  - intros o. by destruct (Partition_read_ok p w' base _ o Hh Hinv) as (? & ? & -> & _).
  - by eapply part_next_offset.
Qed.
End refinement.
