(* ===== verification/Registry.v ===== *)
(** * Topic registry and partition actors (src/src/storage/topic.rs, src/src/broker/writer.rs)

    The registry maps a topic and a partition number to the channel of the task
    that owns the partition. The model of the running process has the tasks
    ([rt_actors]), the reply channels ([rt_offsets], [rt_records]) and the world
    of files. [actor_turn] is one turn of a partition task's loop. *)
From S2P Require Import Prelude Errors BytesCrate StdText Types Frame Tokio FileSystem Record Segment Partition.
#[local] Open Scope Z_scope.

(** The commands of a partition task; the reply sender is named by its channel. *)
Inductive BrokerCommand : Type :=
| Produce (key value : option bytes) (reply : nat)
| ProduceBatch (payloads : list bytes) (reply : nat)
| Fetch (offset max_bytes : Z) (reply : nat).

(** A sender of commands is named by the task at the other end. *)
Abbreviation Sender := nat.

Record TopicRegistry : Type := {
  rg_base_dir : path;
  rg_max_segment_bytes : Z;
  rg_default_partitions : Z;
  rg_sync_level : Config.SyncLevel;
  rg_channel_capacity : Z;
  rg_topics : gmap bytes (gmap Z Sender)
}.

Definition set_topics (m : gmap bytes (gmap Z Sender)) (r : TopicRegistry) : TopicRegistry :=
  {| rg_base_dir := rg_base_dir r; rg_max_segment_bytes := rg_max_segment_bytes r;
     rg_default_partitions := rg_default_partitions r; rg_sync_level := rg_sync_level r;
     rg_channel_capacity := rg_channel_capacity r; rg_topics := m |}.

Definition TopicRegistry_new (base_dir : path) (max_segment_bytes default_partitions : Z)
    (sync_level : Config.SyncLevel) (channel_capacity : Z) : TopicRegistry :=
  {| rg_base_dir := base_dir; rg_max_segment_bytes := max_segment_bytes;
     rg_default_partitions := default_partitions; rg_sync_level := sync_level;
     rg_channel_capacity := channel_capacity; rg_topics := ∅ |}.

Section registry.
Context `{!BytesOps, !MpscOps, !OneshotOps}.

(** A task that runs the command loop of a partition. *)
Record Actor : Type := {
  ac_rx : mpsc BrokerCommand;
  ac_partition : Partition
}.

(** The process: tasks by name (a task that panicked is gone), reply channels,
    the next unused name, the files. *)
Record Runtime : Type := {
  rt_actors : gmap nat Actor;
  rt_offsets : gmap nat (oneshot (Z + RukaError));
  rt_records : gmap nat (oneshot (list LogRecord + RukaError));
  rt_next : nat;
  rt_world : World
}.

Definition set_actors (m : gmap nat Actor) (rt : Runtime) : Runtime :=
  {| rt_actors := m; rt_offsets := rt_offsets rt; rt_records := rt_records rt;
     rt_next := rt_next rt; rt_world := rt_world rt |}.
Definition set_offsets (m : gmap nat (oneshot (Z + RukaError))) (rt : Runtime) : Runtime :=
  {| rt_actors := rt_actors rt; rt_offsets := m; rt_records := rt_records rt;
     rt_next := rt_next rt; rt_world := rt_world rt |}.
Definition set_records (m : gmap nat (oneshot (list LogRecord + RukaError))) (rt : Runtime) : Runtime :=
  {| rt_actors := rt_actors rt; rt_offsets := rt_offsets rt; rt_records := m;
     rt_next := rt_next rt; rt_world := rt_world rt |}.
Definition set_next (n : nat) (rt : Runtime) : Runtime :=
  {| rt_actors := rt_actors rt; rt_offsets := rt_offsets rt; rt_records := rt_records rt;
     rt_next := n; rt_world := rt_world rt |}.
Definition set_world (w : World) (rt : Runtime) : Runtime :=
  {| rt_actors := rt_actors rt; rt_offsets := rt_offsets rt; rt_records := rt_records rt;
     rt_next := rt_next rt; rt_world := w |}.

Definition on_world {A} (m : Res World A) : Res Runtime A := zoom rt_world set_world m.

(** `tokio::spawn` of the command loop. *)
Definition spawn (act : Actor) : Res Runtime Sender := λ rt,
  (Ok (rt_next rt), set_next (S (rt_next rt)) (set_actors (<[rt_next rt := act]> (rt_actors rt)) rt)).

(** ** One turn of the command loop *)

(** What is sent back; nothing after a panic. *)
Definition reply_value {A} (o : outcome RukaError A) : option (A + RukaError) :=
  match o with Ok a => Some (inl a) | Err e => Some (inr e) | _ => None end.

(** `reply.send(res)`, the result of which is ignored; a sender that was not used
    is dropped. *)
Definition resolve {A} (v : option A) (reply : nat) (m : gmap nat (oneshot A)) : gmap nat (oneshot A) :=
  match m !! reply with
  | Some s => <[reply := match v with Some a => oneshot_send a s | None => oneshot_drop s end]> m
  | None => m
  end.
Definition resolve_offset v reply (rt : Runtime) : Runtime :=
  set_offsets (resolve v reply (rt_offsets rt)) rt.
Definition resolve_records v reply (rt : Runtime) : Runtime :=
  set_records (resolve v reply (rt_records rt)) rt.

(** The senders in the commands a dead task will not serve are dropped. *)
Definition drop_command (cmd : BrokerCommand) (rt : Runtime) : Runtime :=
  match cmd with
  | Produce _ _ reply | ProduceBatch _ reply => resolve_offset None reply rt
  | Fetch _ _ reply => resolve_records None reply rt
  end.

(** The task after a command: it goes on with the partition as the command left
    it, or it died and its mailbox is gone. *)
Definition after_command {A} (a : Sender) (rx : mpsc BrokerCommand) (o : outcome RukaError A)
    (st : Partition * World) (rt : Runtime) : Runtime :=
  let rt := set_world (snd st) rt in
  match o with
  | Ok _ | Err _ => set_actors (<[a := {| ac_rx := rx; ac_partition := fst st |}]> (rt_actors rt)) rt
  | _ => foldr drop_command (set_actors (delete a (rt_actors rt)) rt) (mpsc_buffer rx)
  end.

(** `while let Some(cmd) = rx.recv().await { match cmd { .. } }`; [None] when
    the task does not exist or waits for a command. *)
Definition actor_turn (a : Sender) (rt : Runtime) : option Runtime :=
  act ← rt_actors rt !! a;
  '(cmd, rx) ← mpsc_recv (ac_rx act);
  match cmd with
  | Produce key value reply =>
      let '(res, st) := Partition_append key value (ac_partition act, rt_world rt) in
      Some (after_command a rx res st (resolve_offset (reply_value res) reply rt))
  | ProduceBatch payloads reply =>
      let '(res, st) := Partition_append_batch payloads (ac_partition act, rt_world rt) in
      Some (after_command a rx res st (resolve_offset (reply_value res) reply rt))
  | Fetch offset max_bytes reply =>
      let '(res, st) := Partition_read_batch offset max_bytes (ac_partition act, rt_world rt) in
      Some (after_command a rx res st (resolve_records (reply_value res) reply rt))
  end.

(** ** Opening partitions *)

(** Open the partition, make its channel and start its task. *)
Definition start_partition (reg : TopicRegistry) (topic : bytes) (id : Z) : Res Runtime Sender :=
  partition ← on_world (Partition_open_or_create topic id (rg_base_dir reg) (rg_max_segment_bytes reg)
                                                 (rg_sync_level reg));
  rx ← unwrap (mpsc_channel (rg_channel_capacity reg));
  spawn {| ac_rx := rx; ac_partition := partition |}.

(** The loop over the entries of a topic's directory. *)
Fixpoint load_partitions (reg : TopicRegistry) (topic_name : bytes) (topic_path : path)
    (entries : list bytes) (partition_map : gmap Z Sender) : Res Runtime (gmap Z Sender) :=
  match entries with
  | [] => mret partition_map
  | name :: rest =>
      _ ← on_world syscall;
      d ← on_world (is_dir (topic_path ++ [name]));
      match (if d : bool then parse_uint 32 (to_string_lossy name) else None) with
      | Some part_id =>
          tx ← start_partition reg topic_name part_id;
          load_partitions reg topic_name topic_path rest (<[part_id := tx]> partition_map)
      | None => load_partitions reg topic_name topic_path rest partition_map
      end
  end.

(** The loop over the entries of the data directory. *)
Fixpoint load_topics (reg : TopicRegistry) (entries : list bytes)
    (topics_map : gmap bytes (gmap Z Sender)) : Res Runtime (gmap bytes (gmap Z Sender)) :=
  match entries with
  | [] => mret topics_map
  | name :: rest =>
      _ ← on_world syscall;
      let topic_path := rg_base_dir reg ++ [name] in
      d ← on_world (is_dir topic_path);
      if d : bool then
        let topic_name := to_string_lossy name in
        part_entries ← on_world (read_dir topic_path);
        partition_map ← load_partitions reg topic_name topic_path part_entries ∅;
        load_topics reg rest (<[topic_name := partition_map]> topics_map)
      else load_topics reg rest topics_map
  end.

Definition TopicRegistry_load (base_dir : path) (max_segment_bytes default_partitions : Z)
    (sync_level : Config.SyncLevel) (channel_capacity : Z) : Res Runtime TopicRegistry :=
  let registry := TopicRegistry_new base_dir max_segment_bytes default_partitions sync_level
                                    channel_capacity in
  exists_ ← on_world (path_exists base_dir);
  if negb exists_ then
    _ ← on_world (create_dir_all base_dir);
    mret registry
  else
  entries ← on_world (read_dir base_dir);
  topics_map ← load_topics registry entries ∅;
  mret (set_topics topics_map registry).

(** ** Looking partitions up *)
Definition find_sender (topics : gmap bytes (gmap Z Sender)) (topic : bytes) (id : Z) : option Sender :=
  partitions ← topics !! topic; partitions !! id.

(** What tasks share: the registry behind its `Arc` and the process. *)
Definition Shared : Type := TopicRegistry * Runtime.

Definition put_topics (m : gmap bytes (gmap Z Sender)) (s : Shared) : Shared := (set_topics m (fst s), snd s).

(** The part of `get_or_create_partition` that holds the write lock. *)
Definition create_locked (topic : bytes) (partition_id : Z) : Res Shared Sender :=
  _ ← modify (λ s, put_topics (<[topic := default ∅ (rg_topics (fst s) !! topic)]> (rg_topics (fst s))) s);
  s ← gets id;
  match find_sender (rg_topics (fst s)) topic partition_id with
  | Some tx => mret tx
  | None =>
      tx ← zoom snd (λ rt s, (fst s, rt)) (start_partition (fst s) topic partition_id);
      _ ← modify (λ s, put_topics (<[topic := <[partition_id := tx]> (default ∅ (rg_topics (fst s) !! topic))]>
                                     (rg_topics (fst s))) s);
      mret tx
  end.
End registry.
