(* ===== verification/Handler.v ===== *)
(** * Request handlers (src/src/broker/handler.rs)

    An async function is a future: a value, or a suspended computation that can
    be polled. A poll runs on what the tasks share (the registry, the partition
    tasks, the reply channels, the files) up to the next `.await`; it stays
    pending, goes on, or panics. Critical sections of the registry's lock contain
    no `.await`, so each is one poll. *)
From S2P Require Import Prelude Errors BytesCrate StdText Types Frame Request Response Tokio FileSystem Record Segment Partition Registry.
#[local] Open Scope Z_scope.
#[local] Set Warnings "-register-all".

(** ** Futures *)
Inductive Poll (A : Type) : Type :=
| Pending
| Go (a : A)
| Crash.
Arguments Pending {A}.
Arguments Go {A} a.
Arguments Crash {A}.

Section future.
Context {S : Type}.

Inductive Future (A : Type) : Type :=
| Ready (a : A)
| Await (poll : S → Poll (Future A) * S).
Arguments Ready {A} a.
Arguments Await {A} poll.

#[export] Instance Future_ret : MRet Future := @Ready.

Fixpoint Future_bind_def {A B} (k : A → Future B) (f : Future A) : Future B :=
  match f with
  | Ready a => k a
  | Await p => Await (λ s,
      match p s with
      | (Pending, s') => (Pending, s')
      | (Go f', s') => (Go (Future_bind_def k f'), s')
      | (Crash, s') => (Crash, s')
      end)
  end.
#[export] Instance Future_bind : MBind Future := @Future_bind_def.

(** One atomic operation on the shared state. *)
Definition poll_with {A} (f : S → Poll A * S) : Future A :=
  Await (λ s, match f s with
              | (Pending, s') => (Pending, s')
              | (Go a, s') => (Go (Ready a), s')
              | (Crash, s') => (Crash, s')
              end).

(** A critical section that returns a `Result`. *)
Definition atomically {A} (m : Res S A) : Future (A + RukaError) :=
  poll_with (λ s, match m s with
           | (Ok a, s') => (Go (inl a), s')
           | (Err e, s') => (Go (inr e), s')
           | (_, s') => (Crash, s')
           end).
End future.
Arguments Future S A : clear implicits.
Arguments Ready {S A} a.
Arguments Await {S A} poll.

(** The texts of the errors of tokio's channels and of `RukaError`'s `Display`,
    which is derived by a third-party macro. *)
Class ErrorTexts : Type := {
  to_string : RukaError → bytes;
  send_error_text : bytes;
  recv_error_text : bytes
}.

Section handler.
Context `{!BytesOps, !MpscOps, !OneshotOps, !ErrorTexts}.

Abbreviation Async := (Future Shared).

(** ** The registry's async methods (topic.rs) *)
Definition TopicRegistry_get_or_create_partition (topic : bytes) (partition_id : Z) : Async (Sender + RukaError) :=
  found ← poll_with (λ s, (Go (find_sender (rg_topics (fst s)) topic partition_id), s));
  match found with
  | Some tx => Ready (inl tx)
  | None => atomically (create_locked topic partition_id)
  end.

Definition TopicRegistry_get_partition (topic : bytes) (partition_id : Z) : Async (Sender + RukaError) :=
  found ← poll_with (λ s, (Go (find_sender (rg_topics (fst s)) topic partition_id), s));
  match found with
  | Some tx => Ready (inl tx)
  | None => Ready (inr (PartitionNotFound topic partition_id))
  end.

(** ** The channels as the handlers use them *)
Definition oneshot_offset : Async nat := poll_with (λ s,
  let rt := snd s in
  (Go (rt_next rt), (fst s, set_next (S (rt_next rt))
     (set_offsets (<[rt_next rt := oneshot_channel]> (rt_offsets rt)) rt)))).
Definition oneshot_records : Async nat := poll_with (λ s,
  let rt := snd s in
  (Go (rt_next rt), (fst s, set_next (S (rt_next rt))
     (set_records (<[rt_next rt := oneshot_channel]> (rt_records rt)) rt)))).

(** `tx.send(cmd).await`: an error when the task is gone. *)
Definition send (tx : Sender) (cmd : BrokerCommand) : Async (unit + unit) := poll_with (λ s,
  match rt_actors (snd s) !! tx with
  | None => (Go (inr tt), s)
  | Some act =>
      match mpsc_send cmd (ac_rx act) with
      | None => (Pending, s)
      | Some rx => (Go (inl tt), (fst s, set_actors (<[tx := {| ac_rx := rx; ac_partition := ac_partition act |}]>
                                                      (rt_actors (snd s))) (snd s)))
      end
  end).

(** `reply_rx.await`. *)
Definition await_reply {A} (slots : Runtime → gmap nat (oneshot A)) (reply : nat) : Async (A + unit) := poll_with (λ s,
  match slots (snd s) !! reply ≫= oneshot_recv with
  | None => (Pending, s)
  | Some v => (Go v, s)
  end).

(** ** The handlers *)
Definition handle_produce (req : ProduceRequest) : Async Response :=
  let cid := pr_correlation_id req in
  tx ← TopicRegistry_get_or_create_partition (pr_topic req) (pr_partition req);
  match tx with
  | inr e => Ready (from_error cid (ErrorCode_from_error e) (to_string e))
  | inl tx =>
      reply ← oneshot_offset;
      sent ← send tx (Produce None (Some (pr_payload req)) reply);
      match sent with
      | inr _ => Ready (from_error cid ECServerError (str "Writer task died: " ++ send_error_text))
      | inl _ =>
          res ← await_reply rt_offsets reply;
          match res with
          | inl (inl offset) =>
              Ready (ResProduce {| pres_correlation_id := cid; pres_topic := pr_topic req;
                                   pres_partition := pr_partition req; pres_offset := offset |})
          | inl (inr e) => Ready (from_error cid (ErrorCode_from_error e) (to_string e))
          | inr _ => Ready (from_error cid ECServerError (str "Failed to receive reply: " ++ recv_error_text))
          end
      end
  end.

Definition handle_produce_batch (req : ProduceBatchRequest) : Async Response :=
  let cid := pb_correlation_id req in
  tx ← TopicRegistry_get_or_create_partition (pb_topic req) (pb_partition req);
  match tx with
  | inr e => Ready (from_error cid (ErrorCode_from_error e) (to_string e))
  | inl tx =>
      reply ← oneshot_offset;
      sent ← send tx (ProduceBatch (pb_payloads req) reply);
      match sent with
      | inr _ => Ready (from_error cid ECServerError (str "Writer task died: " ++ send_error_text))
      | inl _ =>
          res ← await_reply rt_offsets reply;
          match res with
          | inl (inl base_offset) =>
              Ready (ResProduceBatch {| bres_correlation_id := cid; bres_topic := pb_topic req;
                                        bres_partition := pb_partition req; bres_base_offset := base_offset |})
          | inl (inr e) => Ready (from_error cid (ErrorCode_from_error e) (to_string e))
          | inr _ => Ready (from_error cid ECServerError (str "Failed to receive reply: " ++ recv_error_text))
          end
      end
  end.

(** `record.encode(&mut payload)` for every record. *)
Fixpoint encode_records (records : list LogRecord) : Res bytes unit :=
  match records with
  | [] => mret tt
  | record :: rest => _ ← Record_encode record; encode_records rest
  end.

(** The body of a fetch response: the number of records, then the records. *)
Definition fetch_payload (records : list LogRecord) : bytes :=
  built (_ ← put_u32 (as_u32 (blen records)); encode_records records).

Definition handle_fetch (req : FetchRequest) : Async Response :=
  let cid := fr_correlation_id req in
  tx ← TopicRegistry_get_partition (fr_topic req) (fr_partition req);
  match tx with
  | inr e => Ready (from_error cid (ErrorCode_from_error e) (to_string e))
  | inl tx =>
      reply ← oneshot_records;
      sent ← send tx (Fetch (fr_offset req) (fr_max_bytes req) reply);
      match sent with
      | inr _ => Ready (from_error cid ECServerError (str "Writer task died: " ++ send_error_text))
      | inl _ =>
          res ← await_reply rt_records reply;
          match res with
          | inl (inl records) =>
              if bool_decide (records = []) then
                let e := OffsetNotFound (fr_offset req) in
                Ready (from_error cid (ErrorCode_from_error e) (to_string e))
              else
                Ready (ResFetch {| fres_correlation_id := cid; fres_topic := fr_topic req;
                                   fres_partition := fr_partition req; fres_payload := fetch_payload records |})
          | inl (inr e) => Ready (from_error cid (ErrorCode_from_error e) (to_string e))
          | inr _ => Ready (from_error cid ECServerError (str "Failed to receive reply: " ++ recv_error_text))
          end
      end
  end.

Definition handle_request (req : Request) : Async Response :=
  match req with
  | RProduce produce => handle_produce produce
  | RProduceBatch batch => handle_produce_batch batch
  | RFetch fetch => handle_fetch fetch
  end.
End handler.
