(* ===== verification/Connection.v ===== *)
(** * Connections and the running broker (src/src/network/connection.rs, src/src/network/server.rs, src/src/main.rs)

    [connection_turn] is one turn of a connection's frame loop. [System] is the
    running broker: connections not yet accepted, a task per accepted connection,
    the partition tasks and what they share. A [move] lets one of them run to its
    next `.await`; every interleaving of the tasks is a list of moves. *)
From S2P Require Import Prelude Errors BytesCrate StdText Types Frame Request Response Tokio FileSystem Record Segment Partition Registry Handler.
#[local] Open Scope Z_scope.

(** What `listener.accept()` yields: a connection, or an error that is logged
    before the loop goes on. A listener that could not be bound yields nothing. *)
Abbreviation AcceptResult := (framed + io_error)%type.
Abbreviation Listener := (list AcceptResult + io_error)%type.

Section connection.
Context `{!BytesOps, !MpscOps, !OneshotOps, !ErrorTexts, !FramedOps}.

(** The body of `while let Some(frame_result) = framed.next().await`: the
    connection's state and whether the loop goes on. *)
Definition connection_turn (fr : framed) : Future Shared (framed * bool) :=
  match framed_next fr with
  | (None, fr) => Ready (fr, false)
  | (Some (inr e), fr) => Ready (fr, false)
  | (Some (inl frame), fr) =>
      match Request_from_frame frame with
      | Err e => Ready (fr, false)
      | Ok request =>
          response ← handle_request request;
          match framed_send (Response_into_frame response) fr with
          | (Some e, fr) => Ready (fr, false)
          | (None, fr) => Ready (fr, true)
          end
      | _ => Await (λ s, (Crash, s))
      end
  end.

(** A connection's task. *)
Inductive Conn : Type :=
| Running (f : Future Shared (framed * bool))
| Closed (fr : framed)
| Panicked.

(** `handle_connection`: the loop, polled once. *)
Definition poll_connection (c : Conn) (s : Shared) : option (Conn * Shared) :=
  match c with
  | Running (Ready (fr, true)) => Some (Running (connection_turn fr), s)
  | Running (Ready (fr, false)) => Some (Closed fr, s)
  | Running (Await p) =>
      match p s with
      | (Pending, _) => None
      | (Go f, s') => Some (Running f, s')
      | (Crash, s') => Some (Panicked, s')
      end
  | Closed _ | Panicked => None
  end.

Record System : Type := {
  sy_backlog : list AcceptResult;
  sy_conns : list Conn;
  sy_shared : Shared
}.

Inductive move : Type :=
| MAccept
| MConnection (t : nat)
| MPartition (a : Sender).

(** [start_server]'s loop accepts the next connection and spawns its task; the
    tasks run in between. [None]: the chosen task cannot run. *)
Definition do_move (m : move) (sys : System) : option System :=
  match m with
  | MAccept =>
      match sy_backlog sys with
      | [] => None
      | inl fr :: rest =>
          Some {| sy_backlog := rest; sy_conns := sy_conns sys ++ [Running (connection_turn fr)];
                  sy_shared := sy_shared sys |}
      | inr e :: rest =>
          Some {| sy_backlog := rest; sy_conns := sy_conns sys; sy_shared := sy_shared sys |}
      end
  | MConnection t =>
      c ← sy_conns sys !! t;
      '(c', s') ← poll_connection c (sy_shared sys);
      Some {| sy_backlog := sy_backlog sys; sy_conns := <[t := c']> (sy_conns sys); sy_shared := s' |}
  | MPartition a =>
      rt ← actor_turn a (snd (sy_shared sys));
      Some {| sy_backlog := sy_backlog sys; sy_conns := sy_conns sys;
              sy_shared := (fst (sy_shared sys), rt) |}
  end.

(** A run of the broker under a schedule. *)
Fixpoint run (ms : list move) (sys : System) : option System :=
  match ms with
  | [] => Some sys
  | m :: ms' => do_move m sys ≫= run ms'
  end.

Definition step (sys sys' : System) : Prop := ∃ m, do_move m sys = Some sys'.

(** ** Start-up *)
Definition no_tasks (w : World) : Runtime :=
  {| rt_actors := ∅; rt_offsets := ∅; rt_records := ∅; rt_next := 0; rt_world := w |}.

(** `main`: load the registry with the configuration's values, bind the listener,
    then serve. *)
Definition start (config : Config.BrokerConfig) (listener : Listener) (w : World) : outcome RukaError System :=
  match TopicRegistry_load (join [] (Config.data_dir config)) (Config.segment_max_bytes config)
          (Config.default_partitions config) (Config.sync_level config)
          (Config.channel_capacity config) (no_tasks w) with
  | (Ok registry, rt) =>
      match listener with
      | inl backlog => Ok {| sy_backlog := backlog; sy_conns := []; sy_shared := (registry, rt) |}
      | inr e => Err (Io e)
      end
  | (Err e, _) => Err e
  | (Panic, _) => Panic
  | (OutOfFuel, _) => OutOfFuel
  end.

(** `ctrl_c`: the accept loop ends, `start_server` and `main` return, and the
    runtime drops every task where it is. What is left is the files. *)
Definition shutdown (sys : System) : World := rt_world (snd (sy_shared sys)).
End connection.
