(* ===== verification/Clients.v ===== *)
(** * The example clients (src/examples)

    A client program is a [Session]: it sends frames, waits for frames and
    prints lines on one `Framed` connection. [drive] runs it on a connection and
    records what it did. Modelled are the round trip of `client.rs`, the
    sequential loops of `benchmark.rs` and of the latency test of
    `interview_bench.rs`, and the pipelined loop of `throughput_bench.rs` and of
    the throughput test of `interview_bench.rs`, each from the moment it is
    connected. What the benchmarks do with the readings of the clock is in
    [BenchReport]. *)
From S2P Require Import Prelude Errors BytesCrate StdText Types Frame Request Response Tokio Record.
#[local] Open Scope Z_scope.

(** ** Sessions *)

(** The lines `client.rs` prints. *)
Inductive Line : Type :=
| SendingProduce (topic payload : bytes)
| ProduceSuccessful (offset : Z)
| SendingFetch (offset : Z)
| FetchSuccessful (text : bytes)
| RoundTripped
| FetchedNothing.

Inductive Session (A : Type) : Type :=
| Finish (o : outcome RukaError A)
| SendFrame (f : Frame) (k : option RukaError → Session A)
| NextFrame (k : option (Frame + RukaError) → Session A)
| PrintLine (l : Line) (k : Session A).
Arguments Finish {A} o.
Arguments SendFrame {A} f k.
Arguments NextFrame {A} k.
Arguments PrintLine {A} l k.

#[export] Instance Session_ret : MRet Session := λ A a, Finish (Ok a).
#[export] Instance Session_bind : MBind Session := λ A B k,
  fix go s :=
    match s with
    | Finish (Ok a) => k a
    | Finish (Err e) => Finish (Err e)
    | Finish Panic => Finish Panic
    | Finish OutOfFuel => Finish OutOfFuel
    | SendFrame f h => SendFrame f (λ r, go (h r))
    | NextFrame h => NextFrame (λ r, go (h r))
    | PrintLine l h => PrintLine l (go h)
    end.

(** `client.send(frame).await`, `client.next().await` and `println!`. *)
Definition send_frame (f : Frame) : Session (option RukaError) := SendFrame f mret.
Definition next_frame : Session (option (Frame + RukaError)) := NextFrame mret.
Definition print_line (l : Line) : Session unit := PrintLine l (mret tt).
(** A computation on a buffer of the client; its error is propagated with `?`. *)
Definition on_buffer {A} (m : Res bytes A) (b : bytes) : Session (A * bytes) :=
  match m b with
  | (Ok a, b') => mret (a, b')
  | (Err e, _) => Finish (Err e)
  | (Panic, _) => Finish Panic
  | (OutOfFuel, _) => Finish OutOfFuel
  end.

(** What a session did on its connection. *)
Inductive Event : Type :=
| Sent (f : Frame)
| NotSent (f : Frame) (e : RukaError)
| Received (r : option (Frame + RukaError))
| Printed (l : Line).

Section drive.
Context `{!FramedOps}.

Fixpoint drive {A} (s : Session A) (c : framed) : list Event * outcome RukaError A * framed :=
  match s with
  | Finish o => ([], o, c)
  | SendFrame f k =>
      let '(r, c) := framed_send f c in
      let '(ev, o, c) := drive (k r) c in
      ((match r with None => Sent f | Some e => NotSent f e end) :: ev, o, c)
  | NextFrame k =>
      let '(r, c) := framed_next c in
      let '(ev, o, c) := drive (k r) c in
      (Received r :: ev, o, c)
  | PrintLine l k =>
      let '(ev, o, c) := drive k c in
      (Printed l :: ev, o, c)
  end.
End drive.

(** ** `examples/client.rs` *)
Section client.
Context `{!BytesOps}.

Definition client_topic : bytes := str "demo-topic".
Definition client_partition : Z := 0.
Definition message_str : bytes := str "Hello, Ruka! This is a high-performance test message.".

Definition client_produce : ProduceRequest :=
  {| pr_correlation_id := 1; pr_topic := client_topic; pr_partition := client_partition; pr_payload := message_str |}.
Definition client_fetch (offset : Z) : FetchRequest :=
  {| fr_correlation_id := 2; fr_topic := client_topic; fr_partition := client_partition;
     fr_offset := offset; fr_max_bytes := 4096 |}.

(** `u64::from_be_bytes(frame.payload[..8].try_into().unwrap())`. *)
Definition read_offset (payload : bytes) : outcome RukaError Z :=
  if blen payload <? 8 then Panic else Ok (be_val (take 8 payload)).

(** A send whose error is propagated with `?`. *)
Definition send_or_return (f : Frame) : Session unit :=
  r ← send_frame f;
  match r with Some e => Finish (Err e) | None => mret tt end.

(** The branch of a fetch response. *)
Definition client_show_fetch (payload : bytes) : Session unit :=
  '(num_records, payload) ← on_buffer get_u32 payload;
  if 0 <? num_records then
    '(record, _) ← on_buffer Record_decode payload;
    match record with
    | Some record =>
        let received_str := to_string_lossy (default [] (r_value record)) in
        _ ← print_line (FetchSuccessful received_str);
        if bool_decide (received_str = message_str) then print_line RoundTripped else mret tt
    | None => mret tt
    end
  else print_line FetchedNothing.

Definition client_main : Session unit :=
  _ ← print_line (SendingProduce client_topic message_str);
  _ ← send_or_return (ProduceRequest_into_frame client_produce);
  r ← next_frame;
  committed_offset ←
    match r with
    | Some (inl frame) =>
        if bool_decide (f_api_key frame = AProduce) then
          offset ← Finish (read_offset (f_payload frame));
          _ ← print_line (ProduceSuccessful offset);
          mret offset
        else mret 0
    | _ => mret 0
    end;
  _ ← print_line (SendingFetch committed_offset);
  _ ← send_or_return (FetchRequest_into_frame (client_fetch committed_offset));
  r ← next_frame;
  match r with
  | Some (inl frame) =>
      if bool_decide (f_api_key frame = AFetch) then client_show_fetch (f_payload frame) else mret tt
  | _ => mret tt
  end.
End client.

(** ** Sequential benchmarks *)
Section sequential.
Context `{!BytesOps}.

(** `examples/benchmark.rs`. *)
Definition NUM_MESSAGES : Z := 100000.
Definition benchmark_request (i : Z) : ProduceRequest :=
  {| pr_correlation_id := as_u32 i; pr_topic := str "benchmark-topic"; pr_partition := 0;
     pr_payload := replicate 256 x00 |}.

(** `for i in i..i + n`: an error ends the loop, the end of the stream does not. *)
Fixpoint benchmark_loop (n : nat) (i : Z) : Session unit :=
  match n with
  | O => mret tt
  | S n' =>
      _ ← send_or_return (ProduceRequest_into_frame (benchmark_request i));
      r ← next_frame;
      match r with
      | Some (inr e) => mret tt
      | _ => benchmark_loop n' (i + 1)
      end
  end.
Definition benchmark_main : Session unit := benchmark_loop (Z.to_nat NUM_MESSAGES) 0.

(** `client.send(..).await.unwrap(); client.next().await.unwrap().unwrap()`. *)
Definition exchange_or_panic (f : Frame) : Session unit :=
  r ← send_frame f;
  match r with
  | Some e => Finish Panic
  | None =>
      r ← next_frame;
      match r with
      | Some (inl _) => mret tt
      | _ => Finish Panic
      end
  end.

(** `run_latency_bench` of `examples/interview_bench.rs`: the warm-up, then the
    measured requests, whose correlation ids go on after it. *)
Definition latency_request (size i : Z) : ProduceRequest :=
  {| pr_correlation_id := as_u32 i; pr_topic := str "bench_latency"; pr_partition := 0;
     pr_payload := replicate (Z.to_nat size) xbb |}.
Fixpoint latency_loop (size : Z) (n : nat) (i : Z) : Session unit :=
  match n with
  | O => mret tt
  | S n' => _ ← exchange_or_panic (ProduceRequest_into_frame (latency_request size i)); latency_loop size n' (i + 1)
  end.
Definition run_latency_bench (count size : Z) : Session unit :=
  _ ← latency_loop size 1000 0;
  latency_loop size (Z.to_nat count) 1000.
End sequential.

(** ** Pipelined benchmarks *)

(** The arguments of `examples/throughput_bench.rs` that shape its requests. *)
Record Args : Type := {
  topic : bytes;
  partition : Z;
  messages : Z;
  batch_size : Z;
  max_in_flight : Z;
  payload_size : Z
}.

Definition Args_default : Args :=
  {| topic := str "throughput_topic"; partition := 0; messages := 1000000; batch_size := 1000; max_in_flight := 10;
     payload_size := 256 |}.

(** The counters of the loop. *)
Record Pipeline : Type := {
  correlation_id : Z;
  in_flight : Z;
  replies_received : Z;
  batches_sent : Z
}.

Section pipelined.
Context `{!BytesOps}.
Context (args : Args).

(** What becomes of an error: `?` returns it, `unwrap` panics. *)
Context (failed : RukaError → outcome RukaError Pipeline).

Definition batch_request (cid : Z) : ProduceBatchRequest :=
  {| pb_correlation_id := cid; pb_topic := topic args; pb_partition := partition args;
     pb_payloads := replicate (Z.to_nat (batch_size args)) (replicate (Z.to_nat (payload_size args)) xaa) |}.

(** The inner loop: send as many batches as the window allows. *)
Fixpoint fill_window (fuel : nat) (total_batches : Z) (p : Pipeline) : Session Pipeline :=
  if (in_flight p <? max_in_flight args) && (batches_sent p <? total_batches) then
    match fuel with
    | O => Finish OutOfFuel
    | S fuel' =>
        let correlation_id := add_u32 (correlation_id p) 1 in
        r ← send_frame (ProduceBatchRequest_into_frame (batch_request correlation_id));
        match r with
        | Some e => Finish (failed e)
        | None =>
            fill_window fuel' total_batches
              {| correlation_id := correlation_id; in_flight := add_u64 (in_flight p) 1;
                 replies_received := replies_received p; batches_sent := add_u64 (batches_sent p) 1 |}
        end
    end
  else mret p.

(** The outer loop: fill the window, then wait for one reply. *)
Fixpoint pipeline_loop (fuel : nat) (total_batches : Z) (p : Pipeline) : Session Pipeline :=
  if replies_received p <? total_batches then
    match fuel with
    | O => Finish OutOfFuel
    | S fuel' =>
        p ← fill_window (Z.to_nat total_batches) total_batches p;
        r ← next_frame;
        match r with
        | None => Finish Panic
        | Some (inr e) => Finish (failed e)
        | Some (inl _) =>
            pipeline_loop fuel' total_batches
              {| correlation_id := correlation_id p; in_flight := wrap 64 (in_flight p - 1);
                 replies_received := add_u64 (replies_received p) 1; batches_sent := batches_sent p |}
        end
    end
  else mret p.

(** `messages / batch_size` panics when the batch size is zero. *)
Definition pipelined : Session Pipeline :=
  if batch_size args =? 0 then Finish Panic else
  let total_batches := messages args / batch_size args in
  pipeline_loop (Z.to_nat total_batches) total_batches
    {| correlation_id := 0; in_flight := 0; replies_received := 0; batches_sent := 0 |}.
End pipelined.

Section programs.
Context `{!BytesOps}.

(** `main` of `examples/throughput_bench.rs`. *)
Definition throughput_main (args : Args) : Session Pipeline := pipelined args Err.

(** `run_throughput_bench` of `examples/interview_bench.rs`. *)
Definition throughput_args (msgs size batch pipeline : Z) : Args :=
  {| topic := str "bench_throughput"; partition := 0; messages := msgs; batch_size := batch;
     max_in_flight := pipeline; payload_size := size |}.
Definition run_throughput_bench (msgs size batch pipeline : Z) : Session Pipeline :=
  pipelined (throughput_args msgs size batch pipeline) (λ _, Panic).

(** The tests `main` of `examples/interview_bench.rs` runs one after the other,
    each on its own connection. *)
Definition interview_sizes : list Z := [16; 64; 256; 1024].
Definition interview_tests : list (Session unit) :=
  ((λ size, run_latency_bench 100000 size) <$> interview_sizes) ++
  ((λ size, _ ← run_throughput_bench 1000000 size 1000 10; mret tt) <$> interview_sizes).
End programs.
