(* ===== verification/BenchReport.v ===== *)
(** * The reports of the benchmark clients (src/examples)

    What the benchmarks do around the sessions of [Clients]: `interview_bench.rs`
    clears its data directory and starts a broker ([start_broker]), runs its
    tests, computes averages, percentiles and rates from the clock's readings,
    and writes them as JSON and CSV ([interview_main]); `throughput_bench.rs` and
    `benchmark.rs` compute their rates and print them. The readings of the clock, the processes
    that cargo starts and the JSON serialiser are parameters. *)
From stdpp Require Import sorting.
From S2P Require Import Prelude Errors BytesCrate StdText F64 Types Frame Request Response Tokio FileSystem Record Clients.
#[local] Open Scope Z_scope.

(** ** Time *)

(** `std::time::Duration`: whole seconds and nanoseconds below one. *)
Record Duration : Type := { d_secs : Z; d_nanos : Z }.
Definition as_secs_f64 (d : Duration) : f64 :=
  f64_add (of_int (d_secs d)) (f64_div (of_int (d_nanos d)) (of_int 1000000000)).

(** ** Results *)
Record LatencyResult : Type := {
  lr_workload : bytes;
  lr_requests : Z;
  lr_payload_size : Z;
  lr_avg_us : f64;
  lr_p50_us : f64;
  lr_p95_us : f64;
  lr_p99_us : f64
}.

Record ThroughputResult : Type := {
  tr_workload : bytes;
  tr_messages : Z;
  tr_payload_size : Z;
  tr_pipeline_depth : Z;
  tr_total_time_sec : f64;
  tr_msgs_per_sec : f64;
  tr_mb_per_sec : f64
}.

Record BenchmarkReport : Type := {
  br_sync_mode : bytes;
  br_latency : list LatencyResult;
  br_throughput : list ThroughputResult
}.

(** `(count as f64 * p) as usize`. *)
Definition percentile_index (count : Z) (p : f64) : Z := to_u64 (f64_mul (of_int count) p).

(** The end of `run_latency_bench`: [micros] are the measured times, one per
    request; an index out of range panics. *)
Definition latency_result (count size : Z) (micros : list Z) : outcome RukaError LatencyResult :=
  match f64_sort (of_int <$> micros) with
  | None => Panic
  | Some latencies_us =>
      let at_percentile p := latencies_us !! Z.to_nat (percentile_index count p) in
      match at_percentile (lit 1 2), at_percentile (lit 95 100), at_percentile (lit 99 100) with
      | Some p50_us, Some p95_us, Some p99_us =>
          Ok {| lr_workload := str "Sequential Latency"; lr_requests := count; lr_payload_size := size;
                lr_avg_us := f64_div (f64_sum latencies_us) (of_int count);
                lr_p50_us := p50_us; lr_p95_us := p95_us; lr_p99_us := p99_us |}
      | _, _, _ => Panic
      end
  end.

(** The end of `run_throughput_bench`. *)
Definition throughput_result (msgs size batch pipeline : Z) (elapsed : Duration) : ThroughputResult :=
  let elapsed := as_secs_f64 elapsed in
  {| tr_workload := str "Pipelined Throughput"; tr_messages := msgs; tr_payload_size := size;
     tr_pipeline_depth := wrap 64 (pipeline * batch);
     tr_total_time_sec := elapsed;
     tr_msgs_per_sec := f64_div (of_int msgs) elapsed;
     tr_mb_per_sec := f64_div (f64_div (f64_div (of_int (wrap 64 (msgs * size))) elapsed) (of_int 1024)) (of_int 1024) |}.

(** `main` of `throughput_bench.rs` prints whole messages per second and MB/s. *)
Definition throughput_summary (args : Args) (elapsed : Duration) : Z * f64 :=
  (to_u64 (f64_div (of_int (messages args)) (as_secs_f64 elapsed)),
   f64_div (f64_div (f64_div (of_int (wrap 64 (messages args * payload_size args))) (as_secs_f64 elapsed)) (of_int 1024)) (of_int 1024)).

(** `main` of `benchmark.rs`: messages and MB per second, and milliseconds per
    message. *)
Definition benchmark_summary (elapsed : Duration) : f64 * f64 * f64 :=
  let seconds := as_secs_f64 elapsed in
  (f64_div (of_int NUM_MESSAGES) seconds,
   f64_div (f64_div (of_int (wrap 64 (NUM_MESSAGES * 256))) (of_int 1048576)) seconds,
   f64_div (f64_mul seconds (of_int 1000)) (of_int NUM_MESSAGES)).

(** ** What is printed *)
Definition println (l : bytes) : bytes := l ++ [x0a].

(** The lines of `run_latency_bench` and `run_throughput_bench` at their end. *)
Definition latency_table (r : LatencyResult) : bytes :=
  println (str "  Avg RTT: " ++ format_fixed 2 (lr_avg_us r) ++ str " us") ++
  println (str "  p50 RTT: " ++ format_fixed 2 (lr_p50_us r) ++ str " us") ++
  println (str "  p95 RTT: " ++ format_fixed 2 (lr_p95_us r) ++ str " us") ++
  println (str "  p99 RTT: " ++ format_fixed 2 (lr_p99_us r) ++ str " us").
Definition throughput_table (r : ThroughputResult) : bytes :=
  println (str "  Total Time: " ++ format_fixed 2 (tr_total_time_sec r) ++ str "s") ++
  println (str "  Throughput: " ++ format_fixed 0 (tr_msgs_per_sec r) ++ str " msgs/sec") ++
  println (str "  Bandwidth : " ++ format_fixed 2 (tr_mb_per_sec r) ++ str " MB/s").

(** The tables of `throughput_bench.rs` and of `benchmark.rs`. *)
Definition throughput_bench_table (args : Args) (elapsed : Duration) : bytes :=
  let '(msgs_per_sec, mb_per_sec) := throughput_summary args elapsed in
  println (x0a :: str "--- Pipelined Batch Benchmark Results ---") ++
  println (str "Total Messages : " ++ to_dec (messages args)) ++
  println (str "Batch Size     : " ++ to_dec (batch_size args)) ++
  println (str "Payload Size   : " ++ to_dec (payload_size args) ++ str " bytes") ++
  println (str "Total Time     : " ++ format_fixed 2 (as_secs_f64 elapsed) ++ str "s") ++
  println (str "Throughput     : " ++ to_dec msgs_per_sec ++ str " msgs/sec") ++
  println (str "Bandwidth      : " ++ format_fixed 2 mb_per_sec ++ str " MB/s").
Definition benchmark_table (elapsed : Duration) : bytes :=
  let '(msg_per_sec, mb_per_sec, avg_latency) := benchmark_summary elapsed in
  println (x0a :: str "📊 Benchmark Results (Sequential Round-Trip)") ++
  println (str "----------------------------------------------") ++
  println (str "Total Messages : " ++ to_dec NUM_MESSAGES) ++
  println (str "Payload Size   : 256 bytes") ++
  println (str "Total Time     : " ++ format_fixed 3 (as_secs_f64 elapsed) ++ str " seconds") ++
  println (str "Throughput     : " ++ format_fixed 0 msg_per_sec ++ str " msgs/sec") ++
  println (str "Data Rate      : " ++ format_fixed 2 mb_per_sec ++ str " MB/sec") ++
  println (str "Avg Latency    : " ++ format_fixed 3 avg_latency ++ str " ms/msg").

(** ** Starting the broker *)

(** `fs::remove_dir_all`: what lies in the directory is removed before the
    directory; a failure leaves the rest. *)
Definition remove_path (q : path) : Res World unit :=
  _ ← syscall;
  modify (λ w, set_dirs (w_dirs w ∖ {[q]}) (set_files (delete q (w_files w)) w)).
Fixpoint remove_paths (qs : list path) : Res World unit :=
  match qs with [] => mret tt | q :: qs' => _ ← remove_path q; remove_paths qs' end.
Definition deeper (q r : path) : Prop := (length r ≤ length q)%nat.
#[export] Instance deeper_dec q r : Decision (deeper q r).
Proof. unfold deeper. apply _. Defined.
Definition paths_below (p : path) (w : World) : list path :=
  merge_sort deeper (filter (λ q, p `prefix_of` q) (elements (dom (w_files w) ∪ w_dirs w))).
Definition remove_dir_all (p : path) : Res World unit :=
  _ ← syscall;
  dirs ← gets w_dirs;
  if bool_decide (p ∈ dirs) then qs ← gets (paths_below p); remove_paths qs
  else
    file ← gets (λ w, bool_decide (is_Some (w_files w !! p)));
    throw (Io (if file : bool then OsError 20 else NotFound)).

(** What the broker's process is given. *)
Definition broker_args (data_dir sync_mode : bytes) : list bytes :=
  [str "run"; str "--release"; str "--bin"; str "ruka"; str "--"; str "--data-dir"; data_dir; str "--sync-level"; sync_mode].

(** The configuration that `BrokerConfig::parse` makes of these arguments. *)
Definition bench_config (data_dir : bytes) (level : Config.SyncLevel) : Config.BrokerConfig :=
  {| Config.port := Config.port Config.BrokerConfig_default; Config.host := Config.host Config.BrokerConfig_default;
     Config.data_dir := data_dir; Config.segment_max_bytes := Config.segment_max_bytes Config.BrokerConfig_default;
     Config.default_partitions := Config.default_partitions Config.BrokerConfig_default;
     Config.sync_level := level; Config.channel_capacity := Config.channel_capacity Config.BrokerConfig_default |}.

Section interview.
Context `{!BytesOps, !FramedOps}.
(** `cargo build` (whether it succeeded) and `cargo run` with arguments. *)
Context {Child : Type} (build : Res World bool) (spawn : list bytes → Res World Child).
(** `serde_json::to_string_pretty`. *)
Context (to_json : BenchmarkReport → outcome RukaError bytes).

Definition start_broker (data_dir sync_mode : bytes) : Res World Child :=
  exists_ ← path_exists (join [] data_dir);
  _ ← (if exists_ : bool then _ ← attempt (remove_dir_all (join [] data_dir)); mret tt else mret tt);
  _ ← create_dir_all (join [] data_dir);
  success ← build;
  if success : bool then
    match from_utf8 data_dir with
    | Some dir => spawn (broker_args dir sync_mode)
    | None => panic
    end
  else throw (Io (Other (str "Failed to build broker"))).

(** ** `main` of `interview_bench.rs` *)

(** The tests with their results: [micros i] is the time of the measured
    request [i], [elapsed] that of the whole run. *)
Definition latency_test (micros : nat → Z) (count size : Z) : Session LatencyResult :=
  _ ← run_latency_bench count size;
  Finish (latency_result count size (micros <$> seq 0 (Z.to_nat count))).
Definition throughput_test (elapsed : Duration) (msgs size batch pipeline : Z) : Session ThroughputResult :=
  _ ← run_throughput_bench msgs size batch pipeline;
  mret (throughput_result msgs size batch pipeline elapsed).

(** Each test has a connection of its own; `connect(..).await.unwrap()`. *)
Definition run_test {A} (conn : option framed) (s : Session A) : Res World A :=
  match conn with None => panic | Some c => let '(_, o, _) := drive s c in lift o end.
Fixpoint run_tests {A} (tests : list (option framed * Session A)) : Res World (list A) :=
  match tests with
  | [] => mret []
  | (conn, s) :: tests' => r ← run_test conn s; rs ← run_tests tests'; mret (r :: rs)
  end.

Definition csv_header : bytes := str "Workload,Size,Requests,Metrics" ++ [x0a].
Definition latency_line (l : LatencyResult) : bytes :=
  lr_workload l ++ str "," ++ to_dec (lr_payload_size l) ++ str "," ++ to_dec (lr_requests l) ++ str ",Avg: " ++
  format_fixed 2 (lr_avg_us l) ++ str "us | p99: " ++ format_fixed 2 (lr_p99_us l) ++ str "us" ++ [x0a].
Definition throughput_line (t : ThroughputResult) : bytes :=
  tr_workload t ++ str "," ++ to_dec (tr_payload_size t) ++ str "," ++ to_dec (tr_messages t) ++ str ",Throughput: " ++
  format_fixed 0 (tr_msgs_per_sec t) ++ str " msgs/sec | Bandwidth: " ++ format_fixed 2 (tr_mb_per_sec t) ++ str " MB/s" ++ [x0a].
Definition csv_lines (report : BenchmarkReport) : list bytes :=
  csv_header :: (latency_line <$> br_latency report) ++ (throughput_line <$> br_throughput report).

(** `writeln!` for each line, here one write per line. *)
Fixpoint write_lines (ls : list bytes) : FileIO unit :=
  match ls with [] => mret tt | l :: ls' => _ ← write_all l; write_lines ls' end.

(** `fs::File::create` followed by writes. *)
Definition write_file (name : bytes) (ls : list bytes) : Res World unit :=
  f ← open {| oo_create := true; oo_truncate := true; oo_append := false |} (join [] name);
  _ ← with_local f (write_lines ls);
  mret tt.

(** The connections and the clock's readings of the tests, by their number. *)
Record Measurements : Type := {
  me_latency : nat → option framed * (nat → Z);
  me_throughput : nat → option framed * Duration
}.

Definition interview_latency (me : Measurements) : list (option framed * Session LatencyResult) :=
  imap (λ i size, (fst (me_latency me i), latency_test (snd (me_latency me i)) 100000 size)) interview_sizes.
Definition interview_throughput (me : Measurements) : list (option framed * Session ThroughputResult) :=
  imap (λ i size, (fst (me_throughput me i), throughput_test (snd (me_throughput me i)) 1000000 size 1000 10)) interview_sizes.

(** `expect` on the broker's start; stopping its process at the end changes
    nothing here, its errors are ignored. *)
Definition interview_main (data_dir sync_mode : bytes) (me : Measurements) : Res World unit :=
  broker ← attempt (start_broker data_dir sync_mode);
  match broker with
  | inr _ => panic
  | inl _ =>
      latency ← run_tests (interview_latency me);
      throughput ← run_tests (interview_throughput me);
      let report := {| br_sync_mode := sync_mode; br_latency := latency; br_throughput := throughput |} in
      json ← lift (to_json report);
      _ ← write_file (str "ruka_bench_results.json") [json];
      write_file (str "ruka_bench_results.csv") (csv_lines report)
  end.
End interview.
