(* ===== verification/BrokerSpec.v ===== *)
(** * The atomic broker

    The abstract specification of the running broker: a map from partitions to
    append-only logs, and for every client the requests it has still to make and
    the responses it got. A request takes effect in one atomic step, as the log
    of its partition specifies; the only other step creates an empty partition
    for a produce request. *)
From S2P Require Import Prelude Errors BytesCrate StdText Types Frame Request Response Tokio FileSystem BinarySearch Index Record Segment SegmentInv SegmentRead SegmentWrite SegmentLoad Partition Listing PartitionInv Isolation PartitionWrite PartitionRead PartitionOpen PartitionSpec Registry Handler Connection.
#[local] Open Scope Z_scope.

(** A partition is named by its topic and number. *)
Abbreviation Key := (bytes * Z)%type.

Definition req_key (req : Request) : Key :=
  match req with
  | RProduce r => (pr_topic r, pr_partition r)
  | RProduceBatch r => (pb_topic r, pb_partition r)
  | RFetch r => (fr_topic r, fr_partition r)
  end.
Definition req_cid (req : Request) : Z :=
  match req with
  | RProduce r => pr_correlation_id r
  | RProduceBatch r => pb_correlation_id r
  | RFetch r => fr_correlation_id r
  end.
(** Whether the request creates its partition when it is missing. *)
Definition creates (req : Request) : bool := match req with RFetch _ => false | _ => true end.

(** What the request does to the log. *)
Definition req_op (req : Request) : op :=
  match req with
  | RProduce r => OpAppend None (Some (pr_payload r))
  | RProduceBatch r => OpBatch (pb_payloads r)
  | RFetch r => OpReadBatch (fr_offset r) (fr_max_bytes r)
  end.

Section responses.
Context `{!BytesOps, !ErrorTexts}.

Definition error_response (req : Request) (e : RukaError) : Response :=
  from_error (req_cid req) (ErrorCode_from_error e) (to_string e).

(** The response to a request, given what the log replied. *)
Definition response_to (req : Request) (rep : reply) : Response :=
  match req, rep with
  | RProduce r, RepOffset o =>
      ResProduce {| pres_correlation_id := pr_correlation_id r; pres_topic := pr_topic r;
                    pres_partition := pr_partition r; pres_offset := o |}
  | RProduceBatch r, RepOffset o =>
      ResProduceBatch {| bres_correlation_id := pb_correlation_id r; bres_topic := pb_topic r;
                         bres_partition := pb_partition r; bres_base_offset := o |}
  | RFetch r, RepRecords [] => error_response req (OffsetNotFound (fr_offset r))
  | RFetch r, RepRecords rs =>
      ResFetch {| fres_correlation_id := fr_correlation_id r; fres_topic := fr_topic r;
                  fres_partition := fr_partition r; fres_payload := fetch_payload rs |}
  | _, RepError e => error_response req e
  | _, _ => error_response req ConnectionReset (* the log gives no such reply *)
  end.

(** ** The atomic machine *)
Record Atomic : Type := {
  at_logs : gmap Key (list LogRecord);
  at_clients : list (list Request * list Response)
}.

Inductive serve (max : Z) (logs : gmap Key (list LogRecord)) (req : Request)
  : Response → gmap Key (list LogRecord) → Prop :=
| ServeLog rs rep rs' :
    logs !! req_key req = Some rs → spec_step max 0 rs (req_op req) rep rs' →
    serve max logs req (response_to req rep) (<[req_key req := rs']> logs)
| ServeMissing :
    creates req = false → logs !! req_key req = None →
    serve max logs req (error_response req (PartitionNotFound (fst (req_key req)) (snd (req_key req)))) logs.

Inductive atomic_step (max : Z) (st : Atomic) : Atomic → Prop :=
| AtCreate t req todo done :
    at_clients st !! t = Some (req :: todo, done) → creates req = true →
    at_logs st !! req_key req = None →
    atomic_step max st {| at_logs := <[req_key req := []]> (at_logs st); at_clients := at_clients st |}
| AtServe t req todo done resp logs' :
    at_clients st !! t = Some (req :: todo, done) → serve max (at_logs st) req resp logs' →
    atomic_step max st {| at_logs := logs';
                          at_clients := <[t := (todo, done ++ [resp])]> (at_clients st) |}.

(** The logs the broker finds when it starts, and the clients with all their
    requests before them. *)
Definition atomic_init (logs : gmap Key (list LogRecord)) (reqs : list (list Request)) : Atomic :=
  {| at_logs := logs; at_clients := (λ rs, (rs, [])) <$> reqs |}.

(** ** What a client's bytes ask for

    The requests a connection serves: those of the frames up to the first that
    is malformed, of an unknown kind or incomplete. *)
Inductive parsed : bytes → list Request → Prop :=
| ParsedEnd b : (∀ f b', Codec_decode b ≠ (Ok (Some f), b')) → parsed b []
| ParsedBad b f b' e : Codec_decode b = (Ok (Some f), b') → Request_from_frame f = Err e → parsed b []
| ParsedRequest b f b' req reqs :
    Codec_decode b = (Ok (Some f), b') → Request_from_frame f = Ok req → parsed b' reqs →
    parsed b (req :: reqs).
End responses.

(** A topic that is one component of a path and not a special one. *)
Definition plain_topic (topic : bytes) : Prop :=
  (slash ∉ topic) ∧ (x00 ∉ topic) ∧ topic ≠ [] ∧ topic ≠ dot ∧ topic ≠ str "..".
#[export] Instance plain_topic_dec topic : Decision (plain_topic topic).
Proof. unfold plain_topic. apply _. Defined.

(** How the clients of a broker use each partition. *)
Class Usage : Type := usage : Key → access.

(** What the broker relies on about a request it serves. *)
Record request_ok `{!Usage} (req : Request) : Prop := {
  ro_plain : plain_topic (fst (req_key req));
  ro_partition : is_u32 (snd (req_key req));
  ro_typed : op_typed (req_op req);
  ro_utf8 : utf8_valid (fst (req_key req)) = true;
  ro_permitted : permits (usage (req_key req)) (req_op req) = true
}.

Definition req_weight (req : Request) : Z := op_weight (req_op req).
(** The offsets the remaining requests may take. *)
Definition clients_weight (cs : list (list Request * list Response)) : Z :=
  foldr (λ c n, foldr (λ r m, req_weight r + m) 0 (fst c) + n) 0 cs.
