(* ===== verification/BrokerHistory.v ===== *)
(** * The history of a client

    The atomic broker's logs only grow, so what a response said stays true:
    [explained logs req resp] says how the response to a request is justified by
    the logs, now and for ever. [history] keeps it for every response of every
    client, and adds that a fetch which follows an acknowledged produce at its
    offset returns the record, a client reads its own writes, and that a fetch at
    an offset that was on the disk when the broker started returns that record. *)
From S2P Require Import Prelude Errors BytesCrate StdText Types Frame Request Response Tokio FileSystem BinarySearch Index Record Segment SegmentInv SegmentRead SegmentWrite SegmentLoad Partition Listing PartitionInv Isolation PartitionWrite PartitionRead PartitionOpen PartitionSpec Registry Handler Connection BrokerSpec.
#[local] Open Scope Z_scope.

(** ** Logs that grow *)
Definition grows_to (logs logs' : gmap Key (list LogRecord)) : Prop :=
  ∀ key rs, logs !! key = Some rs → ∃ more, logs' !! key = Some (rs ++ more).

#[export] Instance grows_to_preorder : PreOrder grows_to.
Proof.
  split.
  - intros logs key rs Hk. exists []. by rewrite app_nil_r.
  - intros l1 l2 l3 H12 H23 key rs Hk. destruct (H12 key rs Hk) as [m1 Hm1]. destruct (H23 _ _ Hm1) as [m2 Hm2].
    exists (m1 ++ m2). by rewrite (assoc_L (++)).
Qed.

Lemma grows_to_insert logs key rs more :
  logs !! key = Some rs → grows_to logs (<[key := rs ++ more]> logs).
Proof.
  intros Hk k r Hr. destruct (decide (k = key)) as [->|Hne].
  - rewrite Hk in Hr. injection Hr as <-. exists more. apply lookup_insert_eq.
  - exists []. by rewrite lookup_insert_ne, app_nil_r.
Qed.

Lemma record_at_app base rs more o r : record_at base rs o = Some r → record_at base (rs ++ more) o = Some r.
Proof. unfold record_at. case_decide; [|done]. apply lookup_app_l_Some. Qed.

Lemma records_from_app base rs more o : records_from base rs o `sublist_of` records_from base (rs ++ more) o.
Proof.
  unfold records_from. case_decide; [|done]. rewrite drop_app. apply sublist_inserts_r. done.
Qed.

Lemma record_at_end rs r more : record_at 0 (rs ++ r :: more) (blen rs) = Some r.
Proof.
  unfold record_at. rewrite decide_True by apply blen_nonneg. unfold blen. rewrite Z.sub_0_r, Nat2Z.id. by apply list_lookup_middle.
Qed.

(** ** What a response says about the logs *)
Section explained.
Context `{!BytesOps}.
Implicit Types (logs : gmap Key (list LogRecord)) (req : Request).

(** An error says why: a produce fails only when a record is larger than a
    segment, a fetch only because its partition or its offset is not there. *)
Definition explained (max : Z) logs req (resp : Response) : Prop :=
  match req, resp with
  | RProduce r, ResProduce p => ∃ rs rec, logs !! req_key req = Some rs ∧
      record_at 0 rs (pres_offset p) = Some rec ∧ stores rec (pres_offset p) None (Some (pr_payload r))
  | RProduceBatch r, ResProduceBatch p => ∃ rs, logs !! req_key req = Some rs ∧
      ∀ i payload, pb_payloads r !! i = Some payload → ∃ rec,
        record_at 0 rs (bres_base_offset p + Z.of_nat i) = Some rec ∧
        stores rec (bres_base_offset p + Z.of_nat i) None (Some payload)
  | RFetch f, ResFetch p => ∃ rs out, logs !! req_key req = Some rs ∧ fres_payload p = fetch_payload out ∧
      out `sublist_of` records_from 0 rs (fr_offset f) ∧
      (0 < fr_max_bytes f → ∃ rec, head out = Some rec ∧ record_at 0 rs (fr_offset f) = Some rec)
  | RProduce r, ResError e => max < psize (pr_payload r) ∧ eres_error_code e = ECMessageTooLarge
  | RProduceBatch r, ResError e => accepts max (pb_payloads r) = false ∧ eres_error_code e = ECMessageTooLarge
  | RFetch _, ResError e => eres_error_code e = ECPartitionNotFound ∨ eres_error_code e = ECOffsetNotFound
  | _, _ => False
  end.

Lemma explained_grows max logs logs' req resp :
  grows_to logs logs' → explained max logs req resp → explained max logs' req resp.
Proof.
  intros Hg. destruct req as [r|r|f], resp as [p|p|p|p]; cbn [explained]; try done.
  - intros (rs & rec & Hk & Hat & Hst). destruct (Hg _ _ Hk) as [more Hm]. exists (rs ++ more), rec.
    split; [exact Hm|]. split; [by apply record_at_app|exact Hst].
  - intros (rs & Hk & Hall). destruct (Hg _ _ Hk) as [more Hm]. exists (rs ++ more). split; [exact Hm|].
    intros i payload Hi. destruct (Hall i payload Hi) as (rec & Hat & Hst). exists rec. split; [by apply record_at_app|exact Hst].
  - intros (rs & out & Hk & Hp & Hsub & Hhd). destruct (Hg _ _ Hk) as [more Hm]. exists (rs ++ more), out.
    split; [exact Hm|]. split; [exact Hp|]. split; [by etrans; [|apply records_from_app]|].
    intros Hb. destruct (Hhd Hb) as (rec & Ho & Hat). exists rec. split; [exact Ho|by apply record_at_app].
Qed.

(** What a response acknowledges: payloads under offsets. *)
Definition acknowledged (req : Request) (resp : Response) : list (Z * bytes) :=
  match req, resp with
  | RProduce r, ResProduce p => [(pres_offset p, pr_payload r)]
  | RProduceBatch r, ResProduceBatch p => imap (λ i payload, (bres_base_offset p + Z.of_nat i, payload)) (pb_payloads r)
  | _, _ => []
  end.

Lemma acknowledged_logged max logs req resp offset payload :
  explained max logs req resp → (offset, payload) ∈ acknowledged req resp →
  ∃ rs rec, logs !! req_key req = Some rs ∧ record_at 0 rs offset = Some rec ∧ stores rec offset None (Some payload).
Proof.
  destruct req as [r|r|r], resp as [p|p|p|p]; cbn [acknowledged]; try (by intros _ ?%elem_of_nil).
  - intros (rs & rec & Hk & Hat & Hst) [= -> ->]%list_elem_of_singleton. by exists rs, rec.
  - intros (rs & Hk & Hall) Hin. apply elem_of_lookup_imap in Hin as (i & x & [= -> ->] & Hi).
    destruct (Hall i x Hi) as (rec & Hat & Hst). by exists rs, rec.
Qed.
End explained.

(** ** Serving *)
Section serving.
Context `{!BytesOps, !ErrorTexts}.
Implicit Types (logs : gmap Key (list LogRecord)) (req : Request).

Lemma spec_step_grows max rs req rep rs' : spec_step max 0 rs (req_op req) rep rs' → ∃ more, rs' = rs ++ more.
Proof.
  destruct req; inversion 1; subst; eauto; exists []; by rewrite app_nil_r.
Qed.

(** Records carried by a batch sit at consecutive offsets. *)
Lemma carries_at rs new ps i payload :
  carries new ps → consecutive 0 (rs ++ new) → ps !! i = Some payload →
  ∃ rec, record_at 0 (rs ++ new) (blen rs + Z.of_nat i) = Some rec ∧ stores rec (blen rs + Z.of_nat i) None (Some payload).
Proof.
  intros [Hv Hk] Hc Hi. apply (f_equal (λ l, l !! i)) in Hv. rewrite !list_lookup_fmap, Hi in Hv.
  destruct (new !! i) as [rec|] eqn:Hn; [|done]. injection Hv as Hv. exists rec.
  assert (Hat : (rs ++ new) !! (length rs + i)%nat = Some rec) by (rewrite lookup_app_r by lia; by rewrite Nat.add_sub_swap, Nat.sub_diag by lia).
  split.
  - unfold record_at, blen. rewrite decide_True by lia. rewrite <- Hat. f_equal. lia.
  - split; [rewrite (Hc _ _ Hat); unfold blen; lia|]. split; [|exact Hv]. rewrite Forall_lookup in Hk. by apply (Hk i).
Qed.

Lemma serve_explained max logs req resp logs' :
  serve max logs req resp logs' → grows_to logs logs' ∧ explained max logs' req resp.
Proof.
  intros [rs rep rs' Hk Hst|Hcr Hk]; [|split; [done|destruct req; try done; by left]].
  split; [destruct (spec_step_grows _ _ _ _ _ Hst) as [more ->]; by apply grows_to_insert|].
  destruct req as [r|r|f]; cbn [req_op] in Hst; inversion Hst as [? ? rec _ Hs| |? new _ Hcar Hcon| | |? ? out Hout| |]; subst; try done;
    cbn [response_to].
  - eexists _, rec. rewrite lookup_insert_eq. split; [done|]. cbn [pres_offset]. rewrite Z.add_0_l in *.
    split; [apply record_at_end|exact Hs].
  - eexists. rewrite lookup_insert_eq. split; [done|]. cbn [bres_base_offset]. rewrite Z.add_0_l.
    intros i payload Hi. by eapply carries_at.
  - destruct out as [|x out]; [by right|]. eexists _, (x :: out). rewrite lookup_insert_eq.
    split; [done|]. split; [done|]. destruct Hout as [Hsub _ Hhd]. split; [exact Hsub|].
    intros Hb. exists x. split; [done|]. rewrite record_at_head. symmetry. by apply Hhd.
Qed.
End serving.

(** ** The history *)
Section history.
Context `{!BytesOps, !ErrorTexts}.

(** A fetch at an offset the client was given earlier, for a message or for one
    of a batch, returns that message first. *)
Definition reads_own (served : list Request) (resps : list Response) : Prop :=
  ∀ i j req resp offset payload f, (i < j)%nat → served !! i = Some req → resps !! i = Some resp →
    (offset, payload) ∈ acknowledged req resp →
    served !! j = Some (RFetch f) → req_key (RFetch f) = req_key req → fr_offset f = offset →
    0 < fr_max_bytes f → (j < length resps)%nat →
    ∃ q rec out, resps !! j = Some (ResFetch q) ∧ fres_payload q = fetch_payload (rec :: out) ∧
      stores rec offset None (Some payload).

(** A fetch at an offset that the broker found in [logs] when it started returns
    the record first. *)
Definition reads_found (logs : gmap Key (list LogRecord)) (served : list Request) (resps : list Response) : Prop :=
  ∀ j f rs rec, served !! j = Some (RFetch f) → (j < length resps)%nat → logs !! req_key (RFetch f) = Some rs →
    record_at 0 rs (fr_offset f) = Some rec → 0 < fr_max_bytes f →
    ∃ q out, resps !! j = Some (ResFetch q) ∧ fres_payload q = fetch_payload (rec :: out).

Record served_so_far (max : Z) (found logs : gmap Key (list LogRecord)) (served : list Request) (resps : list Response) : Prop := {
  ss_explained : Forall2 (explained max logs) served resps;
  ss_own : reads_own served resps;
  ss_found : reads_found found served resps
}.

(** [found] are the logs at the start. *)
Record history (max : Z) (found : gmap Key (list LogRecord)) (reqs : list (list Request)) (st : Atomic) : Prop := {
  hi_grows : grows_to found (at_logs st);
  hi_clients : ∀ t todo resps, at_clients st !! t = Some (todo, resps) → ∃ served,
    reqs !! t = Some (served ++ todo) ∧ served_so_far max found (at_logs st) served resps
}.

Lemma history_init max logs reqs : history max logs reqs (atomic_init logs reqs).
Proof.
  split; [reflexivity|]. intros t todo resps Ht. cbn in Ht. rewrite list_lookup_fmap in Ht. destruct (reqs !! t) as [r|]; [|done].
  injection Ht as <- <-. exists []. split; [done|]. split; [constructor|..].
  - intros i j ? ? ? ? ? _ Hi. by rewrite lookup_nil in Hi.
  - intros j ? ? ? Hj. by rewrite lookup_nil in Hj.
Qed.

(** The fetch that is served next. *)
Lemma serve_reads max logs f rs rec resp logs' :
  logs !! req_key (RFetch f) = Some rs → record_at 0 rs (fr_offset f) = Some rec → 0 < fr_max_bytes f →
  serve max logs (RFetch f) resp logs' → ∃ q out, resp = ResFetch q ∧ fres_payload q = fetch_payload (rec :: out).
Proof.
  intros Hk Hat Hb Hs. destruct Hs as [rs0 rep rs' Hk0 Hst|_ Hnone]; [|congruence]. rewrite Hk in Hk0. injection Hk0 as <-.
  cbn [req_op] in Hst. inversion Hst as [| | | | |? ? out [_ _ Hhd]| |]; subst.
  specialize (Hhd Hb eq_refl). rewrite <- record_at_head, Hat in Hhd. destruct out as [|x out]; [done|].
  injection Hhd as ->. by eexists _, out.
Qed.

Lemma serve_reads_own max logs req resp0 offset payload f resp logs' :
  explained max logs req resp0 → (offset, payload) ∈ acknowledged req resp0 → serve max logs (RFetch f) resp logs' →
  req_key (RFetch f) = req_key req → fr_offset f = offset → 0 < fr_max_bytes f →
  ∃ q rec out, resp = ResFetch q ∧ fres_payload q = fetch_payload (rec :: out) ∧ stores rec offset None (Some payload).
Proof.
  intros Hex Hack Hs Hkey Hoff Hb. destruct (acknowledged_logged _ _ _ _ _ _ Hex Hack) as (rs & rec & Hk & Hat & Hrec).
  rewrite <- Hkey in Hk. rewrite <- Hoff in Hat.
  destruct (serve_reads max logs f rs rec resp logs' Hk Hat Hb Hs) as (q & out & -> & Hq). by exists q, rec, out.
Qed.

Lemma reads_own_snoc max logs served resps req resp logs' :
  Forall2 (explained max logs) served resps → reads_own served resps → serve max logs req resp logs' →
  reads_own (served ++ [req]) (resps ++ [resp]).
Proof.
  intros Hex Hro Hs. pose proof (Forall2_length _ _ _ Hex) as Hlen.
  intros i j rq rp o payload f Hij Hi Hpi Hack Hj Hkey Hoff Hb Hjl. rewrite length_app in Hjl. cbn in Hjl.
  assert (Hi' : (i < length served)%nat) by lia.
  rewrite lookup_app_l in Hi by lia. rewrite lookup_app_l in Hpi by lia.
  destruct (decide (j < length served)%nat) as [Hlt|Hge].
  - rewrite lookup_app_l in Hj by lia. rewrite lookup_app_l by lia. eapply (Hro i j); try done. lia.
  - assert (j = length served) as -> by lia. rewrite list_lookup_middle in Hj by done. injection Hj as ->.
    rewrite Hlen, list_lookup_middle by done.
    pose proof (Forall2_lookup_lr _ _ _ _ _ _ Hex Hi Hpi) as He.
    destruct (serve_reads_own max logs rq rp o payload f resp logs' He Hack Hs Hkey Hoff Hb) as (q & rec & out & -> & Hq & Hr).
    by exists q, rec, out.
Qed.

Lemma reads_found_snoc max found logs served resps req resp logs' :
  length served = length resps → grows_to found logs → reads_found found served resps → serve max logs req resp logs' →
  reads_found found (served ++ [req]) (resps ++ [resp]).
Proof.
  intros Hlen Hg Hrf Hs j f rs rec Hj Hjl Hk Hat Hb. rewrite length_app in Hjl. cbn in Hjl.
  destruct (decide (j < length served)%nat) as [Hlt|Hge].
  - rewrite lookup_app_l in Hj by lia. rewrite lookup_app_l by lia. eapply (Hrf j); try done. lia.
  - assert (j = length served) as -> by lia. rewrite list_lookup_middle in Hj by done. injection Hj as ->.
    rewrite Hlen, list_lookup_middle by done. destruct (Hg _ _ Hk) as [more Hm].
    destruct (serve_reads max logs f (rs ++ more) rec resp logs') as (q & out & -> & Hq); try done; [by apply record_at_app|].
    by exists q, out.
Qed.

Lemma served_grows max found logs logs' served resps :
  grows_to logs logs' → served_so_far max found logs served resps → served_so_far max found logs' served resps.
Proof.
  intros Hg [Hex Hro Hrf]. split; [|exact Hro|exact Hrf]. eapply Forall2_impl; [exact Hex|]. intros x y. by apply explained_grows.
Qed.

Lemma history_step max found reqs st st' : history max found reqs st → atomic_step max st st' → history max found reqs st'.
Proof.
  intros [Hgr Hh] [t req todo sent Ht Hcr Hk|t req todo sent resp logs' Ht Hs].
  - assert (Hg : grows_to (at_logs st) (<[req_key req := []]> (at_logs st))).
    { intros key rs Hkey. exists []. rewrite app_nil_r, lookup_insert_ne; [exact Hkey|]. intros <-. congruence. }
    split; cbn [at_clients at_logs]; [by etrans|]. intros t2 todo2 resps2 Ht2.
    destruct (Hh t2 todo2 resps2 Ht2) as (served & Hr & Hss). exists served. split; [exact Hr|by eapply served_grows].
  - destruct (serve_explained _ _ _ _ _ Hs) as [Hg He]. split; cbn [at_clients at_logs]; [by etrans|].
    intros t2 todo2 resps2. rewrite list_lookup_insert_Some. intros [(<- & [= <- <-] & _)|[Hne Ht2]].
    + destruct (Hh t _ _ Ht) as (served & Hr & Hss). exists (served ++ [req]). split; [by rewrite <- (assoc_L (++))|].
      pose proof Hss as [Hex Hro Hrf]. pose proof (Forall2_length _ _ _ Hex) as Hlen.
      destruct (served_grows _ _ _ _ _ _ Hg Hss) as [Hex' _ _]. split.
      * apply Forall2_app; [exact Hex'|by repeat constructor].
      * eapply reads_own_snoc; [exact Hex|exact Hro|exact Hs].
      * eapply reads_found_snoc; [exact Hlen|exact Hgr|exact Hrf|exact Hs].
    + destruct (Hh t2 todo2 resps2 Ht2) as (served & Hr & Hss). exists served. split; [exact Hr|by eapply served_grows].
Qed.

Lemma history_run max logs reqs st : rtc (atomic_step max) (atomic_init logs reqs) st → history max logs reqs st.
Proof.
  intros Hrun. assert (Hgen : ∀ a b, rtc (atomic_step max) a b → history max logs reqs a → history max logs reqs b).
  { induction 1 as [|a b c Hab _ IH]; [done|]. intros Ha. apply IH. by eapply history_step. }
  eapply Hgen; [exact Hrun|apply history_init].
Qed.
End history.
