(* ===== verification/Layout.v ===== *)
(** * The layout of the data directory

    Partition [id] of topic [t] lives in <base>/<t>/<id>. [tidy]: the data
    directory holds a directory for every partition of the broker's logs and its
    topic, and nothing else. This is what the registry finds when it starts
    again. *)
From S2P Require Import Prelude Errors BytesCrate StdText Types Frame Request Response Tokio FileSystem BinarySearch Index Record Segment SegmentInv SegmentRead SegmentWrite SegmentLoad Partition Listing PartitionInv Isolation PartitionWrite PartitionRead PartitionOpen PartitionSpec Registry Handler Connection BrokerSpec BrokerHistory.
#[local] Open Scope Z_scope.

(** ** Directories of partitions *)
Lemma to_dec_digits n : forallb is_digit (to_dec n) = true ∧ to_dec n ≠ [].
Proof.
  unfold to_dec. destruct (strip_zeros_spec (digits 20 n)) as (_ & Hne & Hd).
  split; [apply Hd, digits_digit|apply Hne]. by intros ?%(f_equal length).
Qed.

Lemma to_dec_name n : (slash ∉ to_dec n) ∧ to_dec n ≠ [] ∧ to_dec n ≠ dot.
Proof.
  destruct (to_dec_digits n) as [Hd Hne]. rewrite forallb_forall in Hd. split; [|split; [exact Hne|]].
  - intros Hin%list_elem_of_In. specialize (Hd _ Hin). done.
  - intros Hdot. rewrite Hdot in Hd. specialize (Hd x2e (or_introl eq_refl)). done.
Qed.

Lemma partition_dir_plain base topic id :
  plain_topic topic → partition_dir base topic id = base ++ [topic; to_dec id].
Proof.
  intros (Hs & _ & Hne & Hdot & _). destruct (to_dec_name id) as (Hs2 & Hne2 & Hdot2).
  unfold partition_dir. rewrite (join_name base topic) by assumption.
  rewrite join_name by assumption. by rewrite <- (assoc_L (++)).
Qed.

Lemma to_dec_inj n m : is_u32 n → is_u32 m → to_dec n = to_dec m → n = m.
Proof.
  unfold is_uint. intros Hn Hm Heq. apply (f_equal (parse_uint 32)) in Heq.
  rewrite !parse_to_dec in Heq by lia. by injection Heq.
Qed.

Lemma partition_dirs_apart base t1 i1 t2 i2 :
  plain_topic t1 → plain_topic t2 → is_u32 i1 → is_u32 i2 → (t1, i1) ≠ (t2, i2) →
  apart (partition_dir base t1 i1) (partition_dir base t2 i2).
Proof.
  intros Ht1 Ht2 Hi1 Hi2 Hne. rewrite !partition_dir_plain by assumption.
  apply apart_same_length; [by rewrite !length_app|]. intros Heq. apply Hne.
  apply (inj (app base)) in Heq. injection Heq as -> Hd. apply to_dec_inj in Hd; [|exact Hi1|exact Hi2]. by subst.
Qed.

Lemma prefixes_app base q r : q ∈ prefixes r → base ++ q ∈ prefixes (base ++ r).
Proof.
  intros Hq. induction base as [|c base IH]; [exact Hq|]. cbn [app prefixes]. right. by apply list_elem_of_fmap_2.
Qed.

(** ** Directory listings *)
Lemma elem_of_names p w c : c ∈ names p w ↔ is_Some (w_files w !! (p ++ [c])) ∨ p ++ [c] ∈ w_dirs w.
Proof.
  unfold names. rewrite list_elem_of_omap. split.
  - intros (q & Hq%elem_of_elements & Hc). unfold child_name in Hc. case_bool_decide as Hp; [|done].
    destruct Hp as [Hne Hp]. destruct (exists_last Hne) as (l & x & ->). rewrite last_snoc in Hc. injection Hc as ->.
    rewrite parent_snoc in Hp. subst l. apply elem_of_union in Hq as [Hq|Hq]; [left; by apply elem_of_dom|by right].
  - intros Hq. exists (p ++ [c]). split; [|apply child_name_snoc]. apply elem_of_elements, elem_of_union.
    destruct Hq as [Hq|Hq]; [left; by apply elem_of_dom|by right].
Qed.

Lemma names_nodup p w : NoDup (names p w).
Proof.
  unfold names. assert (Hnd : NoDup (elements (dom (w_files w) ∪ w_dirs w))) by apply NoDup_elements.
  induction Hnd as [|q l Hq _ IH]; [constructor|]. cbn [omap list_omap]. destruct (child_name p q) as [c|] eqn:Hc; [|exact IH].
  constructor; [|exact IH]. intros (q' & Hq' & Hc')%list_elem_of_omap. apply Hq.
  assert (Hinj : ∀ r, child_name p r = Some c → r = p ++ [c]).
  { intros r Hr. unfold child_name in Hr. case_bool_decide as Hp; [|done]. destruct Hp as [Hne Hp].
    destruct (exists_last Hne) as (m & x & ->). rewrite last_snoc in Hr. injection Hr as ->. rewrite parent_snoc in Hp. by subst m. }
  by rewrite (Hinj q Hc), <- (Hinj q' Hc').
Qed.

(** ** The layout *)
Record tidy (base : path) (logs : gmap Key (list LogRecord)) (w : World) : Prop := {
  td_base : base ∈ w_dirs w;
  td_topics : ∀ t, base ++ [t] ∈ w_dirs w ↔ ∃ id, is_Some (logs !! (t, id));
  td_parts : ∀ t d, base ++ [t; d] ∈ w_dirs w ↔ ∃ id, d = to_dec id ∧ is_Some (logs !! (t, id));
  td_topic_files : ∀ t, w_files w !! (base ++ [t]) = None;
  td_part_files : ∀ t d, w_files w !! (base ++ [t; d]) = None;
  td_utf8 : ∀ key rs, logs !! key = Some rs → utf8_valid (fst key) = true;
  td_order : ∀ l, w_dir_order w l ≡ₚ l
}.

Lemma parent_topic base (t : bytes) : parent (base ++ [t]) = base.
Proof. apply parent_snoc. Qed.
Lemma parent_part base (t d : bytes) : parent (base ++ [t; d]) = base ++ [t].
Proof. change [t; d] with ([t] ++ [d]). rewrite (assoc_L (++)). apply parent_snoc. Qed.

Lemma tidy_same base logs w' w : same_fs w' w → tidy base logs w → tidy base logs w'.
Proof. intros (Hf & Hd & Ho) []. split; rewrite ?Hf, ?Hd, ?Ho; assumption. Qed.

(** A change in the directory of one partition, which has a log afterwards. *)
Lemma tidy_within base logs logs' w' w t id :
  tidy base logs w → within (base ++ [t; to_dec id]) w' w → utf8_valid t = true →
  base ++ [t] ∈ w_dirs w' → base ++ [t; to_dec id] ∈ w_dirs w' →
  (∀ k, is_Some (logs' !! k) ↔ k = (t, id) ∨ is_Some (logs !! k)) → tidy base logs' w'.
Proof.
  intros [Hb Ht Hp Htf Hpf Hu Ho] [Wf Wk Wm Wo] Hut Hin1 Hin2 Hk.
  assert (Hnew : ∀ q, q ∈ w_dirs w' → q `prefix_of` base ++ [t; to_dec id] ∨ q ∈ w_dirs w).
  { intros q Hq. apply Wm, elem_of_union in Hq as [Hq|Hq]; [left|by right].
    by apply elem_of_list_to_set, prefixes_prefix in Hq. }
  split.
  - by apply Wk.
  - intros x. split.
    + intros [Hq|Hq]%Hnew.
      * apply prefix_app_inv, prefix_cons_inv_1 in Hq. subst x. exists id. apply Hk. by left.
      * apply Ht in Hq as [i Hi]. exists i. apply Hk. by right.
    + intros [i [Heq|Hi]%Hk]; [injection Heq as -> ->; exact Hin1|]. apply Wk, Ht. by exists i.
  - intros x d. split.
    + intros [Hq|Hq]%Hnew.
      * apply prefix_app_inv in Hq. pose proof (prefix_cons_inv_1 _ _ _ _ Hq) as Hx. apply prefix_cons_inv_2, prefix_cons_inv_1 in Hq.
        exists id. subst. split; [reflexivity|]. apply Hk. by left.
      * apply Hp in Hq as (i & -> & Hi). exists i. split; [reflexivity|]. apply Hk. by right.
    + intros (i & -> & [Heq|Hi]%Hk); [injection Heq as -> ->; exact Hin2|]. apply Wk, Hp. by exists i.
  - intros x. rewrite Wf; [apply Htf|]. rewrite parent_topic. intros Heq%(f_equal length).
    rewrite length_app in Heq. cbn in Heq. lia.
  - intros x d. rewrite Wf; [apply Hpf|]. rewrite parent_part. intros Heq%(f_equal length).
    rewrite !length_app in Heq. cbn in Heq. lia.
  - intros key rs Hkey. destruct (proj1 (Hk key)) as [->|[r Hr]]; [by eexists|exact Hut|by eapply Hu].
  - by rewrite Wo.
Qed.

(** The partition existed before. *)
Lemma tidy_served base logs w' w t id rs rs' :
  tidy base logs w → within (base ++ [t; to_dec id]) w' w → logs !! (t, id) = Some rs →
  tidy base (<[(t, id) := rs']> logs) w'.
Proof.
  intros Htd Hwi Hk. assert (Hs : is_Some (logs !! (t, id))) by (by eexists).
  eapply tidy_within; [exact Htd|exact Hwi|by eapply (td_utf8 _ _ _ Htd (t, id))| | |].
  - apply (wi_kept _ _ _ Hwi), (td_topics _ _ _ Htd). by exists id.
  - apply (wi_kept _ _ _ Hwi), (td_parts _ _ _ Htd). by exists id.
  - intros k. rewrite lookup_insert_is_Some'. split; (intros [<-|?]; [by left|by right]).
Qed.

(** The partition is new. *)
Lemma tidy_created base logs w' w t id rs :
  tidy base logs w → within (base ++ [t; to_dec id]) w' w → utf8_valid t = true →
  list_to_set (prefixes (base ++ [t; to_dec id])) ⊆ w_dirs w' → tidy base (<[(t, id) := rs]> logs) w'.
Proof.
  intros Htd Hwi Hu Hpre. eapply tidy_within; [exact Htd|exact Hwi|exact Hu| | |].
  - apply Hpre, elem_of_list_to_set. apply (prefixes_app base [t]). right. apply list_elem_of_fmap. exists []. split; [reflexivity|left].
  - apply Hpre, elem_of_list_to_set, prefixes_self.
  - intros k. rewrite lookup_insert_is_Some'. split; (intros [<-|?]; [by left|by right]).
Qed.
