(* ===== verification/BrokerStore.v ===== *)
(** * The registry keeps one log per partition

    [store_inv reg rt logs]: the registered partitions are exactly those of
    [logs]; each has a live task that owns it and serves its log, and every
    other partition's directory is still empty. Creating a partition and serving
    a command keep the invariant; the files of other partitions are not touched. *)
From S2P Require Import Prelude Errors BytesCrate StdText Types Frame Request Response Tokio FileSystem BinarySearch Index Record Segment SegmentInv SegmentRead SegmentWrite SegmentLoad Partition Listing PartitionInv Isolation PartitionWrite PartitionRead PartitionOpen PartitionSpec Registry Handler Connection BrokerSpec BrokerHistory Layout.
#[local] Open Scope Z_scope.

(** ** Partitions under changes to others *)
Lemma serving_frame m dir p w' w rs :
  apart dir (pt_base_dir p) → within dir w' w → healthy w' → serving m p w 0 rs → serving m p w' 0 rs.
Proof.
  intros Hap Hwi Hh [Hinv Hdi Hu _ Hm]. split; [..|exact Hh|exact Hm].
  - by eapply frame_part_inv.
  - by eapply frame_dir_inv.
  - eapply usable_files; [|exact Hu]. intros s Hs. eapply frame_file; [exact Hap|exact Hwi|].
    destruct (part_active _ _ _ _ Hinv) as (l & s' & p1 & ars & [Hp _ _ _ Hseg _ _ _ _]).
    rewrite Hp, last_snoc in Hs. injection Hs as ->. destruct Hseg as [-> _ _ _ _ _ _ _ _ _ _ _ _]. apply parent_log.
Qed.

(** The files of a partition under changes elsewhere. *)
Section disk_frame.
Context `{BytesLaws}.

Lemma dir_state_frame dir other max recs junk w' w base bs :
  apart dir other → within dir w' w → dir_state other max recs junk w base bs → dir_state other max recs junk w' base bs.
Proof.
  intros Hap Hwi []. split; try assumption.
  - by eapply frame_usable.
  - rewrite (wi_order _ _ _ Hwi). assumption.
  - rewrite <- ds_names. by eapply frame_log_bases.
  - eapply Forall_impl; [exact ds_segments|]. intros n []. split; try assumption.
    + rewrite (frame_file dir other w' w Hap Hwi); [assumption|apply parent_log].
    + unfold index_state. rewrite (frame_file dir other w' w Hap Hwi); [assumption|apply parent_index].
    + rewrite index_path_eq in od_name |- *. intros Hin. by apply od_name, (frame_dir dir other w' w Hap Hwi).
    + by apply (wi_kept _ _ _ Hwi).
  - intros n Hn Hnin. eapply frame_free; [exact Hap|exact Hwi|by apply ds_free].
  - intros n Hn. specialize (ds_files n Hn). rewrite log_path_eq in ds_files |- *. intros Hin.
    by apply ds_files, (frame_dir dir other w' w Hap Hwi).
Qed.

Lemma log_on_disk_frame dir other max w' w base rs :
  apart dir other → within dir w' w → log_on_disk other max w base rs → log_on_disk other max w' base rs.
Proof.
  intros Hap Hwi (recs & junk & bs & Hst & Hne & Hrs). exists recs, junk, bs. split; [by eapply dir_state_frame|done].
Qed.
End disk_frame.

Lemma empty_dir_frame dir other w' w :
  apart dir other → within dir w' w → empty_dir other w → empty_dir other w'.
Proof.
  intros Hap Hwi [Hu Ho Hn Hf]. split.
  - by eapply frame_usable.
  - rewrite (wi_order _ _ _ Hwi). exact Ho.
  - apply Permutation_nil_r. rewrite <- Hn. by eapply frame_log_bases.
  - intros n Hn'. eapply frame_free; [exact Hap|exact Hwi|by apply Hf].
Qed.

(** ** The invariant *)
Section store.
Context `{BytesLaws, !MpscOps, !MpscLaws, !OneshotOps, !Usage}.
Implicit Types (reg : TopicRegistry) (rt : Runtime) (logs : gmap Key (list LogRecord)).

(** The registry without its map: what never changes. *)
Definition settings reg : TopicRegistry := set_topics ∅ reg.

Definition registered reg (key : Key) : option Sender := find_sender (rg_topics reg) (fst key) (snd key).
Definition key_dir reg (key : Key) : path := partition_dir (rg_base_dir reg) (fst key) (snd key).

(** The configuration allows partitions to be created. *)
Record config_ok reg : Prop := {
  co_max : 0 ≤ rg_max_segment_bytes reg ≤ 2 ^ 63;
  co_capacity : 0 < rg_channel_capacity reg ≤ MAX_PERMITS
}.

(** The task that owns a partition. *)
Record owns reg (key : Key) (act : Actor) (w : World) (rs : list LogRecord) : Prop := {
  ow_topic : pt_topic (ac_partition act) = fst key;
  ow_id : pt_id (ac_partition act) = snd key;
  ow_dir : pt_base_dir (ac_partition act) = key_dir reg key;
  ow_max : pt_max_segment_bytes (ac_partition act) = rg_max_segment_bytes reg;
  ow_serving : serving (usage key) (ac_partition act) w 0 rs;
  ow_capacity : mpsc_capacity (ac_rx act) = rg_channel_capacity reg;
  ow_mailbox : blen (mpsc_buffer (ac_rx act)) ≤ rg_channel_capacity reg
}.

Record store_inv reg rt logs : Prop := {
  st_healthy : healthy (rt_world rt);
  st_config : config_ok reg;
  st_log : ∀ key rs, logs !! key = Some rs → ∃ a act,
    registered reg key = Some a ∧ rt_actors rt !! a = Some act ∧ owns reg key act (rt_world rt) rs;
  st_found : ∀ key a, registered reg key = Some a → is_Some (logs !! key);
  st_actor : ∀ a act, rt_actors rt !! a = Some act →
    registered reg (pt_topic (ac_partition act), pt_id (ac_partition act)) = Some a;
  st_plain : ∀ key rs, logs !! key = Some rs → plain_topic (fst key) ∧ is_u32 (snd key);
  st_empty : ∀ key, plain_topic (fst key) → is_u32 (snd key) → logs !! key = None →
    empty_dir (key_dir reg key) (rt_world rt);
  st_names : ∀ a act, rt_actors rt !! a = Some act → (a < rt_next rt)%nat;
  st_tidy : tidy (rg_base_dir reg) logs (rt_world rt)
}.

Lemma key_dir_plain reg key :
  plain_topic (fst key) → key_dir reg key = rg_base_dir reg ++ [fst key; to_dec (snd key)].
Proof. apply partition_dir_plain. Qed.

Lemma keys_apart reg k1 k2 :
  plain_topic (fst k1) → plain_topic (fst k2) → is_u32 (snd k1) → is_u32 (snd k2) → k1 ≠ k2 →
  apart (key_dir reg k1) (key_dir reg k2).
Proof. destruct k1, k2. apply partition_dirs_apart. Qed.

(** The task found under a key. *)
Lemma store_lookup reg rt logs key a :
  store_inv reg rt logs → registered reg key = Some a →
  ∃ rs act, logs !! key = Some rs ∧ rt_actors rt !! a = Some act ∧ owns reg key act (rt_world rt) rs.
Proof.
  intros Hst Hr. destruct (st_found _ _ _ Hst key a Hr) as [rs Hrs].
  destruct (st_log _ _ _ Hst key rs Hrs) as (a' & act & Hr' & Ha & Ho). rewrite Hr in Hr'.
  injection Hr' as <-. by exists rs, act.
Qed.

Lemma registered_inj reg rt logs k1 k2 a :
  store_inv reg rt logs → registered reg k1 = Some a → registered reg k2 = Some a → k1 = k2.
Proof.
  intros Hst H1' H2'. destruct (store_lookup _ _ _ _ _ Hst H1') as (r1 & act1 & _ & Ha1 & [Ht1 Hi1 _ _ _ _ _]).
  destruct (store_lookup _ _ _ _ _ Hst H2') as (r2 & act2 & _ & Ha2 & [Ht2 Hi2 _ _ _ _ _]).
  rewrite Ha1 in Ha2. injection Ha2 as <-. destruct k1, k2; cbn in *. congruence.
Qed.

(** Another partition's task, after a change in the directory of [key]. *)
Lemma owns_frame reg key other act w' w rs :
  plain_topic (fst key) → is_u32 (snd key) → plain_topic (fst other) → is_u32 (snd other) → key ≠ other →
  within (key_dir reg key) w' w → healthy w' → owns reg other act w rs → owns reg other act w' rs.
Proof.
  intros Hp Hi Hp2 Hi2 Hne Hwi Hh [Ht Hid Hd Hm Hs Hc Hb]. split; [exact Ht|exact Hid|exact Hd|exact Hm| |exact Hc|exact Hb].
  eapply serving_frame; [|exact Hwi|exact Hh|exact Hs]. rewrite Hd. by apply keys_apart.
Qed.

(** A task whose mailbox changed. *)
Lemma owns_mailbox reg key act w rs rx :
  owns reg key act w rs → mpsc_capacity rx = mpsc_capacity (ac_rx act) →
  blen (mpsc_buffer rx) ≤ mpsc_capacity rx →
  owns reg key {| ac_rx := rx; ac_partition := ac_partition act |} w rs.
Proof. intros [Ht Hi Hd Hm Hs Hc Hb] Hcap Hbuf. split; cbn; try assumption; [by rewrite Hcap|by rewrite <- Hc, <- Hcap]. Qed.

(** ** Serving a command: the log of one partition changes *)
Lemma store_serve reg rt rt' logs key a act' rs rs' :
  store_inv reg rt logs → logs !! key = Some rs → registered reg key = Some a →
  rt_actors rt' = <[a := act']> (rt_actors rt) → (rt_next rt ≤ rt_next rt')%nat →
  within (key_dir reg key) (rt_world rt') (rt_world rt) → owns reg key act' (rt_world rt') rs' →
  store_inv reg rt' (<[key := rs']> logs).
Proof.
  intros Hst Hrs Hreg Hact Hnext Hwi Hown. pose proof (st_plain _ _ _ Hst _ _ Hrs) as [Hpl Hid].
  pose proof (sv_healthy _ _ _ _ _ (ow_serving _ _ _ _ _ Hown)) as Hh.
  destruct (store_lookup _ _ _ _ _ Hst Hreg) as (rs0 & act0 & Hrs0 & Ha0 & Hown0).
  destruct Hst as [_ Hcfg Hlog Hfound Hactor Hplain Hempty Hnames Htidy]. split; [exact Hh|exact Hcfg|..].
  - intros k r. rewrite lookup_insert_Some. intros [[<- <-]|[Hne Hk]].
    + exists a, act'. rewrite Hact, lookup_insert_eq. done.
    + destruct (Hlog k r Hk) as (b & act & Hb & Hba & Ho). destruct (Hplain k r Hk) as [Hpk Hik].
      exists b, act. split; [exact Hb|]. split.
      2: { eapply (owns_frame reg key k); [exact Hpl|exact Hid|exact Hpk|exact Hik|exact Hne|exact Hwi|exact Hh|exact Ho]. }
      rewrite Hact, lookup_insert_ne; [exact Hba|]. intros <-. apply Hne.
      destruct Hown0 as [Ht0 Hi0 _ _ _ _ _], Ho as [Htk Hik' _ _ _ _ _].
      rewrite Ha0 in Hba. injection Hba as <-. destruct key, k; cbn in *. congruence.
  - intros k b Hb. rewrite lookup_insert_is_Some. destruct (decide (key = k)); [by left|right].
    split; [done|by eapply Hfound].
  - intros b act. rewrite Hact, lookup_insert_Some. intros [[<- <-]|[Hne Hb]]; [|by apply Hactor].
    destruct Hown as [-> -> _ _ _ _ _]. destruct key. exact Hreg.
  - intros k r. rewrite lookup_insert_Some. intros [[<- <-]|[Hne Hk]]; [done|by eapply Hplain].
  - intros k Hpk Hik. rewrite lookup_insert_None. intros [Hk Hne].
    eapply empty_dir_frame; [by apply (keys_apart reg key k)|exact Hwi|by apply Hempty].
  - intros b act. rewrite Hact, lookup_insert_Some. intros [[<- _]|[_ Hb]].
    + eapply Nat.lt_le_trans; [by eapply Hnames|exact Hnext].
    + eapply Nat.lt_le_trans; [by eapply Hnames|exact Hnext].
  - rewrite key_dir_plain in Hwi by exact Hpl. destruct key as [t i]. by eapply tidy_served.
Qed.

(** Only mailboxes, reply channels and unused names change. *)
Lemma store_mailbox reg rt rt' logs a act rx :
  store_inv reg rt logs → rt_actors rt !! a = Some act →
  rt_actors rt' = <[a := {| ac_rx := rx; ac_partition := ac_partition act |}]> (rt_actors rt) →
  mpsc_capacity rx = mpsc_capacity (ac_rx act) → blen (mpsc_buffer rx) ≤ mpsc_capacity rx →
  rt_world rt' = rt_world rt → (rt_next rt ≤ rt_next rt')%nat →
  store_inv reg rt' logs.
Proof.
  intros Hst Ha Hact Hcap Hbuf Hw Hnext. pose proof (st_actor _ _ _ Hst a act Ha) as Hreg.
  destruct (store_lookup _ _ _ _ _ Hst Hreg) as (rs & act0 & Hrs & Ha0 & Hown).
  rewrite Ha in Ha0. injection Ha0 as <-. set (key := (pt_topic (ac_partition act), pt_id (ac_partition act))) in *.
  rewrite <- (insert_id logs key rs Hrs). eapply store_serve; [exact Hst|exact Hrs|exact Hreg|exact Hact|exact Hnext|..].
  - rewrite Hw. done.
  - rewrite Hw. by apply owns_mailbox.
Qed.

Lemma store_slots reg rt rt' logs :
  store_inv reg rt logs → rt_actors rt' = rt_actors rt → rt_world rt' = rt_world rt →
  (rt_next rt ≤ rt_next rt')%nat → store_inv reg rt' logs.
Proof.
  intros [] Ha Hw Hn. split; rewrite ?Ha, ?Hw; try assumption.
  intros a act Hb. eapply Nat.lt_le_trans; [by eapply st_names0|exact Hn].
Qed.

(** ** Creating a partition *)

(** The commands waiting for a task. *)
Definition mailbox rt (a : Sender) : list BrokerCommand :=
  match rt_actors rt !! a with Some act => mpsc_buffer (ac_rx act) | None => [] end.

Lemma registered_insert reg topic id tx key :
  let ps := default ∅ (rg_topics reg !! topic) in
  registered (set_topics (<[topic := <[id := tx]> ps]> (rg_topics reg)) reg) key =
    if decide (key = (topic, id)) then Some tx else registered reg key.
Proof.
  intros ps. destruct key as [t i]. unfold registered, find_sender. cbn [fst snd set_topics rg_topics].
  destruct (decide (t = topic)) as [->|Hne].
  - rewrite lookup_insert_eq. cbn. destruct (decide (i = id)) as [->|Hi].
    + by rewrite lookup_insert_eq, decide_True.
    + rewrite lookup_insert_ne, decide_False by congruence. unfold ps. by destruct (rg_topics reg !! topic).
  - rewrite lookup_insert_ne, decide_False by congruence. done.
Qed.

(** `or_insert_with(HashMap::new)` registers nothing. *)
Lemma registered_entry reg topic key :
  registered (set_topics (<[topic := default ∅ (rg_topics reg !! topic)]> (rg_topics reg)) reg) key = registered reg key.
Proof.
  destruct key as [t i]. unfold registered, find_sender. cbn [fst snd set_topics rg_topics].
  destruct (decide (t = topic)) as [->|Hne]; [|by rewrite lookup_insert_ne].
  rewrite lookup_insert_eq. cbn. by destruct (rg_topics reg !! topic).
Qed.

Lemma owns_topics m reg key act w rs : owns reg key act w rs → owns (set_topics m reg) key act w rs.
Proof. intros []. split; assumption. Qed.

Lemma store_topics m reg rt logs :
  (∀ key, registered (set_topics m reg) key = registered reg key) →
  store_inv reg rt logs → store_inv (set_topics m reg) rt logs.
Proof.
  intros Hreg []. split.
  - assumption.
  - by destruct st_config0.
  - intros key rs Hk. destruct (st_log0 key rs Hk) as (a & act & Ha & Hact & Ho). exists a, act.
    rewrite Hreg. split; [exact Ha|]. split; [exact Hact|by apply owns_topics].
  - intros key a. rewrite Hreg. apply st_found0.
  - intros a act. rewrite Hreg. apply st_actor0.
  - assumption.
  - assumption.
  - assumption.
  - assumption.
Qed.

(** A new partition: its task starts with an empty mailbox and an empty log. *)
Lemma start_partition_ok reg rt logs key :
  store_inv reg rt logs → plain_topic (fst key) → is_u32 (snd key) → logs !! key = None →
  ∃ act w', start_partition reg (fst key) (snd key) rt =
      (Ok (rt_next rt), set_next (S (rt_next rt)) (set_actors (<[rt_next rt := act]> (rt_actors rt)) (set_world w' rt))) ∧
    owns reg key act w' [] ∧ mpsc_buffer (ac_rx act) = [] ∧ within (key_dir reg key) w' (rt_world rt) ∧
    list_to_set (prefixes (key_dir reg key)) ⊆ w_dirs w'.
Proof.
  intros Hst Hp Hi Hk. pose proof (st_empty _ _ _ Hst key Hp Hi Hk) as He. destruct (st_config _ _ _ Hst) as [Hmax Hcap].
  destruct (open_serving (fst key) (snd key) (rg_base_dir reg) (rg_max_segment_bytes reg) (rg_sync_level reg) (rt_world rt))
    as (p & w' & Ho & Hsv & Hd & Hm & Ht & Hid & Hwi & Hpre); [apply Hst|exact He|exact Hmax|].
  destruct (mpsc_channel_law (A := BrokerCommand) (rg_channel_capacity reg) Hcap) as (c & Hc & Hb & Hcc).
  exists {| ac_rx := c; ac_partition := p |}, w'. unfold start_partition, on_world.
  erewrite bind_Ok by (apply zoom_Ok, Ho). rewrite Hc. mret_step. split; [reflexivity|].
  split; [|split; [exact Hb|split; [exact Hwi|exact Hpre]]]. split; cbn; [exact Ht|exact Hid|exact Hd|exact Hm|by apply serving_any|exact Hcc|].
  rewrite Hb, blen_nil. lia.
Qed.

(** The registry after a successful `get_or_create_partition`. *)
Record created reg reg' rt rt' (key : Key) (a : Sender) : Prop := {
  cr_found : registered reg' key = Some a;
  cr_settings : settings reg' = settings reg;
  cr_kept : ∀ k b, registered reg k = Some b → registered reg' k = Some b;
  cr_offsets : rt_offsets rt' = rt_offsets rt;
  cr_records : rt_records rt' = rt_records rt;
  cr_next : (rt_next rt ≤ rt_next rt')%nat;
  cr_mailbox : ∀ b, mailbox rt' b = mailbox rt b
}.

(** A registry with the new task in it. *)
Lemma store_create reg reg' rt rt' logs key a act :
  store_inv reg rt logs → plain_topic (fst key) → is_u32 (snd key) → logs !! key = None →
  settings reg' = settings reg → a = rt_next rt → rt_next rt' = S a →
  (∀ k, registered reg' k = if decide (k = key) then Some a else registered reg k) →
  rt_actors rt' = <[a := act]> (rt_actors rt) → owns reg key act (rt_world rt') [] →
  within (key_dir reg key) (rt_world rt') (rt_world rt) →
  list_to_set (prefixes (key_dir reg key)) ⊆ w_dirs (rt_world rt') → utf8_valid (fst key) = true →
  store_inv reg' rt' (<[key := []]> logs).
Proof.
  intros Hst Hp Hi Hk Hset Ha Hnext Hreg Hacts Hown Hwi Hpre Hutf.
  assert (Hrr : reg' = set_topics (rg_topics reg') reg) 
    by (clear -Hset; destruct reg, reg'; cbv [settings set_topics] in *; cbn in *; injection Hset as -> -> -> -> ->; reflexivity).
  assert (Hfree : rt_actors rt !! a = None).
  { destruct (rt_actors rt !! a) as [b|] eqn:Hb; [|done]. pose proof (st_names _ _ _ Hst a b Hb). lia. }
  pose proof (sv_healthy _ _ _ _ _ (ow_serving _ _ _ _ _ Hown)) as Hh.
  destruct Hst as [_ Hcfg Hlog Hfound Hactor Hplain Hempty Hnames Htidy]. split; rewrite ?Hacts.
  - exact Hh.
  - rewrite Hrr. by destruct Hcfg.
  - intros k r. rewrite lookup_insert_Some. rewrite Hreg. intros [[<- <-]|[Hne Hkr]].
    + exists a, act. rewrite decide_True by done. rewrite lookup_insert_eq.
      split; [done|]. split; [done|]. rewrite Hrr. by apply owns_topics.
    + destruct (Hlog k r Hkr) as (b & act' & Hb & Hba & Ho). destruct (Hplain k r Hkr) as [Hpk Hik].
      exists b, act'. rewrite decide_False by congruence. split; [exact Hb|]. split.
      { rewrite lookup_insert_ne; [exact Hba|]. intros <-. congruence. }
      rewrite Hrr. apply owns_topics. by eapply (owns_frame reg key k).
  - intros k b. rewrite Hreg, lookup_insert_is_Some. case_decide as Hkk; [by left|]. intros Hb.
    right. split; [congruence|by eapply Hfound].
  - intros b act'. rewrite Hreg, lookup_insert_Some. intros [[<- <-]|[Hne Hb]].
    + destruct Hown as [-> -> _ _ _ _ _]. by rewrite decide_True by (by destruct key).
    + rewrite decide_False; [by apply Hactor|]. intros Heq. pose proof (Hactor b act' Hb) as Hr. rewrite Heq in Hr.
      destruct (Hfound _ _ Hr) as [r Hkr]. congruence.
  - intros k r. rewrite lookup_insert_Some. intros [[<- <-]|[Hne Hkr]]; [done|by eapply Hplain].
  - intros k Hpk Hik. rewrite lookup_insert_None. intros [Hkn Hne]. rewrite Hrr.
    eapply (empty_dir_frame (key_dir reg key)); [by apply (keys_apart reg key k)|exact Hwi|by apply Hempty].
  - rewrite Hnext. intros b act'. rewrite lookup_insert_Some. intros [[<- _]|[_ Hb]]; [lia|].
    pose proof (Hnames b act' Hb). lia.
  - rewrite Hrr. cbn [set_topics rg_base_dir]. rewrite key_dir_plain in Hwi, Hpre by exact Hp.
    destruct key as [t i]. by eapply tidy_created.
Qed.

Lemma create_locked_ok reg rt logs key :
  store_inv reg rt logs → plain_topic (fst key) → is_u32 (snd key) → utf8_valid (fst key) = true →
  ∃ a reg' rt', create_locked (fst key) (snd key) (reg, rt) = (Ok a, (reg', rt')) ∧
    created reg reg' rt rt' key a ∧
    store_inv reg' rt' (match logs !! key with Some _ => logs | None => <[key := []]> logs end).
Proof.
  intros Hst Hp Hi Hutf. unfold create_locked. mret_step. unfold put_topics. cbn [fst snd]. mret_step.
  set (m := <[fst key := _]> (rg_topics reg)). set (reg1 := set_topics m reg).
  assert (Hreg1 : ∀ k, registered reg1 k = registered reg k) by (intros k; apply registered_entry).
  pose proof (store_topics m reg rt logs Hreg1 Hst) as Hst1. fold reg1 in Hst1. unfold id. cbn [fst].
  change (find_sender (rg_topics reg1) (fst key) (snd key)) with (registered reg1 key).
  destruct (registered reg1 key) as [a|] eqn:Ha.
  { exists a, reg1, rt. destruct (st_found _ _ _ Hst1 key a Ha) as [rs Hrs]. rewrite Hrs. split; [reflexivity|].
    split; [|exact Hst1]. split; try done. intros k b. by rewrite Hreg1. }
  assert (Hk : logs !! key = None).
  { destruct (logs !! key) as [rs|] eqn:Hk; [|done]. destruct (st_log _ _ _ Hst1 key rs Hk) as (b & _ & Hb & _). congruence. }
  rewrite Hk. destruct (start_partition_ok reg1 rt logs key Hst1 Hp Hi Hk) as (act & w' & Hs & Hown & Hbuf & Hwi & Hpre).
  erewrite bind_Ok by (apply zoom_Ok, Hs). mret_step. cbn [fst snd]. set (a := rt_next rt) in *.
  set (rt' := set_next _ _) in *. set (reg2 := set_topics (<[fst key := <[snd key := a]> (default ∅ (rg_topics reg1 !! fst key))]> (rg_topics reg1)) reg1).
  assert (Hreg2 : ∀ k, registered reg2 k = if decide (k = key) then Some a else registered reg1 k).
  { intros k. unfold reg2. rewrite (registered_insert reg1 (fst key) (snd key) a k). by destruct key. }
  exists a, reg2, rt'. split; [reflexivity|]. split; [|by eapply (store_create reg1 reg2 rt rt' logs key a act)].
  split; try done.
  - by rewrite Hreg2, decide_True.
  - intros k b Hb. rewrite Hreg2, Hreg1. case_decide as Hkk; [|exact Hb]. subst k. rewrite Hreg1 in Ha. congruence.
  - cbn. lia.
  - intros b. unfold mailbox. cbn [rt' set_next set_actors rt_actors]. rewrite lookup_insert. case_decide as Hab; [|done].
    subst b. destruct (rt_actors rt !! a) as [b|] eqn:Hb; [|exact Hbuf]. pose proof (st_names _ _ _ Hst a b Hb). lia.
Qed.
End store.
