(* ===== verification/DataDir.v ===== *)
(** * The registry from the data directory

    [data_dir base max logs w]: the data directory holds the logs [logs], each
    possibly with a torn tail, or there are none and it is empty or missing.
    Loading the registry opens one task per partition and gives [store_inv]:
    [loading] is the invariant of the two loops over directories,
    [load_topics_ok] and [load_partitions_ok] their effect. *)
From S2P Require Import Prelude Errors BytesCrate StdText Types Frame Request Response Tokio FileSystem BinarySearch Index Record Segment SegmentInv SegmentRead SegmentWrite SegmentLoad Partition Listing PartitionInv Isolation PartitionWrite PartitionRead PartitionOpen PartitionSpec Registry Handler Connection BrokerSpec BrokerHistory Layout BrokerStore.
#[local] Open Scope Z_scope.

(** ** An empty data directory *)

(** A data directory, existing or not, with nothing in it. *)
Record fresh_base (base : path) (w : World) : Prop := {
  fb_usable : usable_dir base w;
  fb_files : ∀ p, base `prefix_of` p → w_files w !! p = None;
  fb_dirs : ∀ p, base `prefix_of` p → p ∈ w_dirs w → p = base;
  fb_order : ∀ l, w_dir_order w l ≡ₚ l
}.

(** Nothing lies directly in a directory at or below the base. *)
Lemma fresh_names base w dir : fresh_base base w → base `prefix_of` dir → names dir w = [].
Proof.
  intros [_ Hf Hd _] Hpre. unfold names. apply omap_none. intros q Hq%elem_of_elements.
  unfold child_name. case_bool_decide as Hp; [|done]. destruct Hp as [Hne Hp]. exfalso.
  assert (Hlt : (length (parent q) < length q)%nat).
  { unfold parent. rewrite length_take. destruct q; [done|]. cbn. lia. }
  assert (Hbq : base `prefix_of` q) by (etrans; [exact Hpre|]; rewrite <- Hp; apply parent_prefix).
  apply elem_of_union in Hq as [Hq|Hq].
  - apply elem_of_dom in Hq as [d Hq]. by rewrite Hf in Hq.
  - apply (Hd q Hbq) in Hq. subst q. apply prefix_length in Hpre. rewrite <- Hp in Hpre. lia.
Qed.

Lemma prefixes_app_inv base rest q :
  q ∈ prefixes (base ++ rest) → q ∈ prefixes base ∨ base `prefix_of` q.
Proof.
  revert q. induction base as [|c base IH]; intros q; cbn [app prefixes].
  - right. apply prefix_nil.
  - intros [->|Hq]%elem_of_cons; [left; left|]. apply list_elem_of_fmap in Hq as (r & -> & Hr).
    destruct (IH r Hr) as [Hr'|Hr'].
    + left. right. by apply list_elem_of_fmap_2.
    + right. by apply prefix_cons.
Qed.

(** A directory below the base, given by the names that lead to it. *)
Lemma fresh_below base rest w : fresh_base base w → rest ≠ [] → empty_dir (base ++ rest) w.
Proof.
  intros Hfb Hne.
  assert (Hpre : base `prefix_of` base ++ rest) by (by exists rest).
  assert (Hpre2 : ∀ c, base `prefix_of` (base ++ rest) ++ [c]) by (intros c; exists (rest ++ [c]); by rewrite assoc_L by apply _).
  assert (Hbelow : ∀ c, (base ++ rest) ++ [c] ∉ w_dirs w).
  { intros c Hin. apply (fb_dirs _ _ Hfb) in Hin; [|apply Hpre2].
    apply (f_equal length) in Hin. rewrite !length_app in Hin. cbn in Hin. lia. }
  split.
  - apply Forall_forall. intros q Hq. destruct (prefixes_app_inv base _ q Hq) as [Hq'|Hq'].
    + pose proof (fb_usable _ _ Hfb) as Hu. unfold usable_dir in Hu. rewrite Forall_forall in Hu. by apply Hu.
    + by apply (fb_files _ _ Hfb).
  - apply Hfb.
  - unfold log_bases. by rewrite (fresh_names base w _ Hfb Hpre).
  - intros n _. split; [rewrite log_path_eq; apply Hbelow|]. split; [rewrite index_path_eq; apply Hbelow|].
    rewrite log_path_eq. apply (fb_files _ _ Hfb), Hpre2.
Qed.

Lemma fresh_empty base w topic id :
  fresh_base base w → plain_topic topic → empty_dir (partition_dir base topic id) w.
Proof. intros Hfb Hp. rewrite partition_dir_plain by exact Hp. by apply fresh_below. Qed.

Lemma fresh_base_pop base w : fresh_base base w → fresh_base base (pop_sched w).
Proof. intros [Hu Hf Hd Ho]. by split. Qed.

Lemma fresh_base_made base w :
  fresh_base base w → fresh_base base (set_dirs (list_to_set (prefixes base) ∪ w_dirs w) w).
Proof.
  intros [Hu Hf Hd Ho]. split; [exact Hu|exact Hf| |exact Ho].
  intros p Hp. cbn. rewrite elem_of_union, elem_of_list_to_set. intros [Hin|Hin]; [|by apply Hd].
  apply prefixes_prefix in Hin. apply prefix_length_eq; [exact Hin|]. by apply prefix_length.
Qed.

Lemma fresh_tidy base w : fresh_base base w → base ∈ w_dirs w → tidy base ∅ w.
Proof.
  intros [Hu Hf Hd Ho] Hin.
  assert (Hlow : ∀ rest, rest ≠ [] → base ++ rest ∉ w_dirs w).
  { intros rest Hne Hq. apply Hd in Hq; [|by exists rest]. apply (f_equal length) in Hq. rewrite length_app in Hq.
    destruct rest; [done|]. cbn in Hq. lia. }
  split.
  - exact Hin.
  - intros t. split; [intros Hq; by apply Hlow in Hq|]. intros [id [r Hr]]. by rewrite lookup_empty in Hr.
  - intros t d. split; [intros Hq; by apply Hlow in Hq|]. intros (id & _ & [r Hr]). by rewrite lookup_empty in Hr.
  - intros t. apply Hf. by exists [t].
  - intros t d. apply Hf. by exists [t; d].
  - intros key rs Hk. by rewrite lookup_empty in Hk.
  - exact Ho.
Qed.

(** ** Names of partitions as text *)
Lemma utf8_digits s : forallb is_digit s = true → utf8_valid s = true.
Proof.
  induction s as [|c s IH]; [done|]. cbn [forallb utf8_valid]. intros [Hc Hs]%andb_true_iff.
  assert (in_range 0 127 c = true) as ->; [|by apply IH]. unfold is_digit, in_range in *.
  apply andb_true_iff in Hc as [H1%Z.leb_le H2%Z.leb_le]. apply andb_true_iff. split; apply Z.leb_le; lia.
Qed.

Lemma part_name id : is_u32 id → parse_uint 32 (to_string_lossy (to_dec id)) = Some id.
Proof.
  unfold is_uint. intros Hid. rewrite to_string_lossy_valid by (apply utf8_digits, to_dec_digits). apply parse_to_dec; lia.
Qed.

(** ** What a data directory holds *)
Section data_dir.
Context `{BytesLaws}.

Record stored (base : path) (max : Z) (logs : gmap Key (list LogRecord)) (w : World) : Prop := {
  dd_tidy : tidy base logs w;
  dd_plain : ∀ key rs, logs !! key = Some rs → plain_topic (fst key) ∧ is_u32 (snd key);
  dd_logs : ∀ key rs, logs !! key = Some rs → log_on_disk (partition_dir base (fst key) (snd key)) max w 0 rs;
  dd_empty : ∀ key, plain_topic (fst key) → is_u32 (snd key) → logs !! key = None →
    empty_dir (partition_dir base (fst key) (snd key)) w
}.

Definition data_dir (base : path) (max : Z) (logs : gmap Key (list LogRecord)) (w : World) : Prop :=
  stored base max logs w ∨ (logs = ∅ ∧ fresh_base base w).

Lemma fresh_stored base max w : fresh_base base w → base ∈ w_dirs w → stored base max ∅ w.
Proof.
  intros Hfb Hin. split.
  - by apply fresh_tidy.
  - intros key rs. by rewrite lookup_empty.
  - intros key rs. by rewrite lookup_empty.
  - intros key Hp _ _. by apply fresh_empty.
Qed.
End data_dir.

Section load.
Context `{BytesLaws, !MpscOps, !MpscLaws, !OneshotOps, !Usage}.
Implicit Types (reg : TopicRegistry) (rt : Runtime) (logs : gmap Key (list LogRecord)) (found : Key → option Sender).

(** The state of the loops: [found] maps the partitions opened so far to their
    tasks, the others are on the disk as they were found. *)
Record loading reg logs found rt : Prop := {
  lo_healthy : healthy (rt_world rt);
  lo_config : config_ok reg;
  lo_tidy : tidy (rg_base_dir reg) logs (rt_world rt);
  lo_plain : ∀ key rs, logs !! key = Some rs → plain_topic (fst key) ∧ is_u32 (snd key);
  lo_usage : ∀ key rs, logs !! key = Some rs → usage key ≠ AnyUse;
  lo_disk : ∀ key rs, logs !! key = Some rs → found key = None →
    log_on_disk (key_dir reg key) (rg_max_segment_bytes reg) (rt_world rt) 0 rs;
  lo_task : ∀ key a, found key = Some a → ∃ act rs, logs !! key = Some rs ∧ rt_actors rt !! a = Some act ∧
    owns reg key act (rt_world rt) rs ∧ mpsc_buffer (ac_rx act) = [];
  lo_actor : ∀ a act, rt_actors rt !! a = Some act → found (pt_topic (ac_partition act), pt_id (ac_partition act)) = Some a;
  lo_empty : ∀ key, plain_topic (fst key) → is_u32 (snd key) → logs !! key = None → empty_dir (key_dir reg key) (rt_world rt);
  lo_names : ∀ a act, rt_actors rt !! a = Some act → (a < rt_next rt)%nat
}.

Lemma loading_ext reg logs found found' rt :
  (∀ k, found' k = found k) → loading reg logs found rt → loading reg logs found' rt.
Proof.
  intros Heq []. split; try assumption.
  - intros key rs Hk Hf. apply lo_disk0; [exact Hk|]. by rewrite <- Heq.
  - intros key a Hf. apply lo_task0. by rewrite <- Heq.
  - intros a act Ha. rewrite Heq. by apply lo_actor0.
Qed.

Lemma log_on_disk_same dir max w' w base rs :
  same_fs w' w → log_on_disk dir max w base rs → log_on_disk dir max w' base rs.
Proof.
  intros (Hf & Hd & Ho) (recs & junk & bs & [] & Hne & Hrs). exists recs, junk, bs. split; [|done].
  split; try assumption; unfold usable_dir, free_names in *; rewrite ?Hf, ?Hd, ?Ho; try assumption.
  - rewrite <- ds_names, !log_bases_eq. by rewrite Hf, Hd.
  - eapply Forall_impl; [exact ds_segments|]. intros n []. split; unfold index_state in *; rewrite ?Hf, ?Hd; assumption.
Qed.

Lemma empty_dir_same dir w' w : same_fs w' w → empty_dir dir w → empty_dir dir w'.
Proof.
  intros (Hf & Hd & Ho) []. split; unfold usable_dir, free_names in *; rewrite ?Hf, ?Hd, ?Ho; try assumption.
  rewrite log_bases_eq in *. by rewrite Hf, Hd.
Qed.

(** A system call that only looks. *)
Lemma loading_popped reg logs found rt w :
  popped w (rt_world rt) → loading reg logs found rt → loading reg logs found (set_world w rt).
Proof.
  intros Hp []. pose proof (popped_same _ _ Hp) as Hs. assert (Hh : healthy w) by (by eapply popped_healthy).
  split; cbn [set_world rt_world rt_actors rt_next]; try assumption.
  - by eapply tidy_same.
  - intros key rs Hk Hf. eapply log_on_disk_same; [exact Hs|by apply lo_disk0].
  - intros key a Hf. destruct (lo_task0 key a Hf) as (act & rs & Hk & Ha & [Ht Hi Hd Hm Hsv Hc Hb] & He). exists act, rs.
    split; [exact Hk|]. split; [exact Ha|]. split; [|exact He]. split; try assumption. by eapply popped_serving.
  - intros key Hpl Hid Hk. eapply empty_dir_same; [exact Hs|by apply lo_empty0].
Qed.

(** ** Opening one partition *)
Lemma serving_opened m p w base rs : m ≠ AnyUse → serving AppendOnly p w base rs → serving m p w base rs.
Proof. intros Hm []. split; try assumption. by destruct m. Qed.

Lemma open_partition_ok reg logs found rt key rs :
  loading reg logs found rt → logs !! key = Some rs → found key = None →
  ∃ act w', start_partition reg (fst key) (snd key) rt =
      (Ok (rt_next rt), set_next (S (rt_next rt)) (set_actors (<[rt_next rt := act]> (rt_actors rt)) (set_world w' rt))) ∧
    owns reg key act w' rs ∧ mpsc_buffer (ac_rx act) = [] ∧ within (key_dir reg key) w' (rt_world rt).
Proof.
  intros Hlo Hk Hf. pose proof Hlo as [Hw [Hmax Hcap] _ _ Husage Hdisk _ _ _ _].
  destruct (reopen_ok (fst key) (snd key) (rg_base_dir reg) (rg_max_segment_bytes reg) (rg_sync_level reg) (rt_world rt) 0 rs Hw)
    as (p & w' & Ho & Hsv & Hd & Hm & Ht & Hi & Hwi); [by apply (Hdisk key)|exact Hmax|].
  destruct (mpsc_channel_law (A := BrokerCommand) (rg_channel_capacity reg) Hcap) as (c & Hc & Hb & Hcc).
  exists {| ac_rx := c; ac_partition := p |}, w'. split; [|split; [|split; [exact Hb|exact Hwi]]].
  - unfold start_partition, on_world. erewrite bind_Ok by (apply zoom_Ok, Ho). rewrite Hc. mret_step. reflexivity.
  - split; cbn; [exact Ht|exact Hi|exact Hd|exact Hm|apply serving_opened; [by eapply Husage|exact Hsv]|exact Hcc|].
    rewrite Hb, blen_nil. lia.
Qed.

Lemma loading_open reg logs found rt key rs :
  loading reg logs found rt → logs !! key = Some rs → found key = None →
  ∃ rt', start_partition reg (fst key) (snd key) rt = (Ok (rt_next rt), rt') ∧
    loading reg logs (λ k, if decide (k = key) then Some (rt_next rt) else found k) rt'.
Proof.
  intros Hlo Hk Hf. destruct (open_partition_ok reg logs found rt key rs Hlo Hk Hf) as (act & w' & Hst & Hown & Hb & Hwi).
  eexists. split; [exact Hst|]. set (a := rt_next rt) in *. pose proof Hlo as [_ Hcfg Htd Hpl Husage Hdisk Htask Hactor Hempty Hnames].
  pose proof (sv_healthy _ _ _ _ _ (ow_serving _ _ _ _ _ Hown)) as Hh. destruct (Hpl key rs Hk) as [Hp Hi].
  assert (Hap : ∀ k, plain_topic (fst k) → is_u32 (snd k) → k ≠ key → apart (key_dir reg key) (key_dir reg k)).
  { intros k Hpk Hik Hne. apply keys_apart; try assumption. congruence. }
  split; cbn [set_next set_actors set_world rt_world rt_actors rt_next].
  - exact Hh.
  - exact Hcfg.
  - rewrite <- (insert_id logs key rs Hk). rewrite key_dir_plain in Hwi by exact Hp. destruct key as [t i].
    by eapply tidy_served.
  - exact Hpl.
  - exact Husage.
  - intros k r Hkr. case_decide as Hne; [done|]. intros Hfk. destruct (Hpl k r Hkr).
    eapply log_on_disk_frame; [by apply Hap|exact Hwi|by apply Hdisk].
  - intros k b. case_decide as Hne.
    + intros [= <-]. subst k. exists act, rs. rewrite lookup_insert_eq. done.
    + intros Hfk. destruct (Htask k b Hfk) as (act' & r & Hkr & Hba & Ho & He). destruct (Hpl k r Hkr). exists act', r.
      split; [exact Hkr|]. split.
      { rewrite lookup_insert_ne; [exact Hba|]. intros <-. pose proof (Hnames _ _ Hba). unfold a in *. lia. }
      split; [|exact He]. eapply (owns_frame reg key k); [exact Hp|exact Hi|assumption|assumption|congruence|exact Hwi|exact Hh|exact Ho].
  - intros b act'. rewrite lookup_insert_Some. intros [[<- <-]|[Hne Hb']].
    + destruct Hown as [-> -> _ _ _ _ _]. by rewrite decide_True by (by destruct key).
    + pose proof (Hactor b act' Hb') as Hr. rewrite decide_False; [exact Hr|]. intros Heq. rewrite Heq in Hr. congruence.
  - intros k Hpk Hik Hkn. eapply empty_dir_frame; [|exact Hwi|by apply Hempty]. apply Hap; [exact Hpk|exact Hik|congruence].
  - intros b act'. rewrite lookup_insert_Some. intros [[<- _]|[_ Hb']]; [lia|]. pose proof (Hnames _ _ Hb'). unfold a. lia.
Qed.

(** ** The loop over the partitions of a topic *)

(** The partitions of the topic [t] are found in [pm], the others by [found]. *)
Definition in_topic (t : bytes) (pm : gmap Z Sender) found : Key → option Sender :=
  λ k, if decide (fst k = t) then pm !! snd k else found k.

Lemma probe_dir reg logs found rt p :
  loading reg logs found rt → p ∈ w_dirs (rt_world rt) →
  (_ ← on_world syscall; on_world (is_dir p)) rt = (Ok true, set_world (pop_sched (pop_sched (rt_world rt))) rt) ∧
  loading reg logs found (set_world (pop_sched (pop_sched (rt_world rt))) rt).
Proof.
  intros Hlo Hp. pose proof (lo_healthy _ _ _ _ Hlo) as Hw. split; [|apply loading_popped; [auto with world|exact Hlo]].
  destruct (syscall_ok _ Hw) as (ev & He & _). unfold on_world. erewrite bind_Ok by (apply zoom_Ok, He).
  erewrite zoom_Ok by (apply probe_ok; cbn; by apply healthy_pop). cbn [set_world rt_world pop_sched w_dirs].
  by rewrite bool_decide_eq_true_2.
Qed.

Lemma load_partitions_ok reg logs found t entries pm rt :
  loading reg logs (in_topic t pm found) rt → NoDup entries →
  (∀ d, d ∈ entries → ∃ id, d = to_dec id ∧ is_Some (logs !! (t, id)) ∧ pm !! id = None) →
  ∃ pm' rt', load_partitions reg t (rg_base_dir reg ++ [t]) entries pm rt = (Ok pm', rt') ∧
    loading reg logs (in_topic t pm' found) rt' ∧
    (∀ id, is_Some (pm !! id) → is_Some (pm' !! id)) ∧
    (∀ id, is_Some (logs !! (t, id)) → to_dec id ∈ entries → is_Some (pm' !! id)).
Proof.
  revert pm rt. induction entries as [|d entries IH]; intros pm rt Hlo Hnd Hent.
  { exists pm, rt. split; [reflexivity|]. split; [exact Hlo|]. split; [done|]. by intros id _ ?%elem_of_nil. }
  apply NoDup_cons in Hnd as [Hd Hnd]. destruct (Hent d ltac:(left)) as (id & -> & [rs Hk] & Hpm).
  pose proof (lo_plain _ _ _ _ Hlo _ _ Hk) as [_ Hid]. cbn [fst snd] in Hid.
  destruct (probe_dir _ _ _ _ ((rg_base_dir reg ++ [t]) ++ [to_dec id]) Hlo) as [Hprobe Hlo1].
  { rewrite <- (assoc_L (++)). apply (td_parts _ _ _ (lo_tidy _ _ _ _ Hlo)). exists id. split; [reflexivity|by eexists]. }
  destruct (loading_open _ _ _ _ (t, id) rs Hlo1 Hk) as (rt2 & Hst & Hlo2).
  { unfold in_topic. cbn [fst snd]. by rewrite decide_True. }
  set (rt1 := set_world _ rt) in *. set (a := rt_next rt1) in *.
  destruct (IH (<[id := a]> pm) rt2) as (pm' & rt' & Hrun & Hlo' & Hkeep & Hall); [|exact Hnd| |].
  - eapply loading_ext; [|exact Hlo2]. intros [t' i]. unfold in_topic. cbn [fst snd].
    destruct (decide (t' = t)) as [->|Hne]; [|by rewrite decide_False by congruence].
    destruct (decide (i = id)) as [->|Hi]; [by rewrite lookup_insert_eq, decide_True|].
    by rewrite lookup_insert_ne, decide_False by congruence.
  - intros d Hin. destruct (Hent d ltac:(by right)) as (i & -> & Hi & Hpi). exists i. split; [reflexivity|]. split; [exact Hi|].
    rewrite lookup_insert_ne; [exact Hpi|]. intros <-. exact (Hd Hin).
  - exists pm', rt'. split; [|split; [exact Hlo'|]].
    + cbn [load_partitions]. rewrite <- Hrun. unfold mbind, M_bind in Hprobe |- *.
      destruct (on_world syscall rt) as [[ev|e| |] rt0]; try discriminate Hprobe.
      rewrite Hprobe, part_name by exact Hid. cbn [fst snd] in Hst. by rewrite Hst.
    + split.
      * intros i Hi. apply Hkeep. apply lookup_insert_is_Some'. by right.
      * intros i Hi [Heq|Hin]%elem_of_cons; [|by apply Hall]. apply Hkeep, lookup_insert_is_Some'. left.
        destruct Hi as [r Hr]. destruct (lo_plain _ _ _ _ Hlo _ _ Hr) as [_ Hiu]. symmetry. by apply to_dec_inj.
Qed.
(** ** The loop over the topics *)
Definition senders (tm : gmap bytes (gmap Z Sender)) : Key → option Sender := λ k, find_sender tm (fst k) (snd k).

Lemma senders_in_topic t pm tm k : senders (<[t := pm]> tm) k = in_topic t pm (senders tm) k.
Proof.
  unfold senders, find_sender, in_topic. destruct (decide (fst k = t)) as [->|Hne].
  - by rewrite lookup_insert_eq.
  - by rewrite lookup_insert_ne by congruence.
Qed.

(** What a topic's directory lists. *)
Lemma list_topic reg logs found rt t :
  loading reg logs found rt → (∃ id, is_Some (logs !! (t, id))) →
  ∃ entries rt', on_world (read_dir (rg_base_dir reg ++ [t])) rt = (Ok entries, rt') ∧ loading reg logs found rt' ∧
    NoDup entries ∧ ∀ d, d ∈ entries ↔ ∃ id, d = to_dec id ∧ is_Some (logs !! (t, id)).
Proof.
  intros Hlo Ht. pose proof (lo_healthy _ _ _ _ Hlo) as Hw. set (w1 := pop_sched (rt_world rt)).
  assert (Hlo1 : loading reg logs found (set_world w1 rt)) by (apply loading_popped; [unfold w1; auto with world|exact Hlo]).
  pose proof (lo_tidy _ _ _ _ Hlo1) as Htd. cbn [set_world rt_world] in Htd.
  exists (w_dir_order w1 (names (rg_base_dir reg ++ [t]) w1)), (set_world w1 rt). split; [|split; [exact Hlo1|]].
  - unfold on_world. apply zoom_Ok. unfold read_dir. destruct (syscall_ok _ Hw) as (ev & He & _). mstep He. mret_step.
    rewrite bool_decide_eq_true_2; [reflexivity|]. by apply (td_topics _ _ _ Htd).
  - rewrite (td_order _ _ _ Htd). split; [apply names_nodup|]. intros d. rewrite (td_order _ _ _ Htd), elem_of_names, <- (assoc_L (++)).
    rewrite <- (td_parts _ _ _ Htd). cbn [app]. rewrite (td_part_files _ _ _ Htd). split; [by intros [[? ?]|?]|by right].
Qed.

Lemma load_topics_ok reg logs entries tm rt :
  loading reg logs (senders tm) rt → NoDup entries →
  (∀ t, t ∈ entries → (∃ id, is_Some (logs !! (t, id))) ∧ tm !! t = None) →
  ∃ tm' rt', load_topics reg entries tm rt = (Ok tm', rt') ∧ loading reg logs (senders tm') rt' ∧
    (∀ k, is_Some (senders tm k) → is_Some (senders tm' k)) ∧
    (∀ t id, is_Some (logs !! (t, id)) → t ∈ entries → is_Some (senders tm' (t, id))).
Proof.
  revert tm rt. induction entries as [|t entries IH]; intros tm rt Hlo Hnd Hent.
  { exists tm, rt. split; [reflexivity|]. split; [exact Hlo|]. split; [done|]. by intros t id _ ?%elem_of_nil. }
  apply NoDup_cons in Hnd as [Ht Hnd]. destruct (Hent t ltac:(left)) as [Hid Htm].
  destruct (probe_dir _ _ _ _ (rg_base_dir reg ++ [t]) Hlo) as [Hprobe Hlo1];
    [by apply (td_topics _ _ _ (lo_tidy _ _ _ _ Hlo))|].
  destruct (list_topic _ _ _ _ t Hlo1 Hid) as (ds & rt2 & Hlist & Hlo2 & Hnd2 & Hds).
  destruct (load_partitions_ok reg logs (senders tm) t ds ∅ rt2) as (pm & rt3 & Hparts & Hlo3 & _ & Hall3); [|exact Hnd2| |].
  { eapply loading_ext; [|exact Hlo2]. intros k. unfold in_topic, senders, find_sender. case_decide as Hk; [|done].
    by rewrite Hk, Htm, lookup_empty. }
  { intros d (id & -> & Hk)%Hds. exists id. split; [reflexivity|]. split; [exact Hk|apply lookup_empty]. }
  assert (Hutf : to_string_lossy t = t).
  { destruct Hid as [id [rs Hk]]. apply to_string_lossy_valid. by apply (td_utf8 _ _ _ (lo_tidy _ _ _ _ Hlo) (t, id) rs). }
  destruct (IH (<[t := pm]> tm) rt3) as (tm' & rt' & Hrun & Hlo' & Hkeep & Hall); [|exact Hnd| |].
  - eapply loading_ext; [|exact Hlo3]. intros k. apply senders_in_topic.
  - intros t' Hin. destruct (Hent t' ltac:(by right)) as [Hid' Htm']. split; [exact Hid'|].
    rewrite lookup_insert_ne; [exact Htm'|]. intros <-. exact (Ht Hin).
  - exists tm', rt'. split; [|split; [exact Hlo'|split]].
    + cbn [load_topics]. unfold mbind, M_bind in Hprobe |- *.
      destruct (on_world syscall rt) as [[ev|e| |] rt0]; try discriminate Hprobe. by rewrite Hprobe, Hlist, Hutf, Hparts.
    + intros k Hk. apply Hkeep. rewrite senders_in_topic. unfold in_topic. case_decide as Hkt; [|exact Hk].
      unfold senders, find_sender in Hk. rewrite Hkt, Htm in Hk. by destruct Hk.
    + intros t' id Hk [->|Hin]%elem_of_cons; [|by apply Hall]. apply Hkeep. rewrite senders_in_topic. unfold in_topic. cbn [fst snd].
      rewrite decide_True by done. apply Hall3; [exact Hk|]. apply Hds. by exists id.
Qed.

(** ** Loading the registry *)
Lemma load_ok reg logs rt :
  loading reg logs (λ _, None) rt → rg_topics reg = ∅ →
  ∃ tm rt', TopicRegistry_load (rg_base_dir reg) (rg_max_segment_bytes reg) (rg_default_partitions reg) (rg_sync_level reg)
      (rg_channel_capacity reg) rt = (Ok (set_topics tm reg), rt') ∧
    loading reg logs (senders tm) rt' ∧ ∀ key, is_Some (logs !! key) → is_Some (senders tm key).
Proof.
  intros Hlo Hreg. pose proof (lo_healthy _ _ _ _ Hlo) as Hw. pose proof (lo_tidy _ _ _ _ Hlo) as Htd.
  set (w1 := pop_sched (rt_world rt)). set (w2 := pop_sched w1).
  assert (Hlo2 : loading reg logs (senders ∅) (set_world w2 (set_world w1 rt))).
  { eapply loading_ext; [|apply loading_popped; [|apply loading_popped; [|exact Hlo]]]; unfold w1, w2; [|auto with world..].
    intros k. unfold senders, find_sender. by rewrite lookup_empty. }
  pose proof (lo_tidy _ _ _ _ Hlo2) as Htd2. cbn [set_world rt_world] in Htd2.
  set (entries := w_dir_order w2 (names (rg_base_dir reg) w2)).
  assert (Hent : ∀ t, t ∈ entries ↔ ∃ id, is_Some (logs !! (t, id))).
  { intros t. unfold entries. rewrite (td_order _ _ _ Htd2), elem_of_names, (td_topic_files _ _ _ Htd2).
    rewrite <- (td_topics _ _ _ Htd2). split; [by intros [[? ?]|?]|by right]. }
  assert (Hrd : read_dir (rg_base_dir reg) w1 = (Ok entries, w2)).
  { unfold read_dir. destruct (syscall_ok w1) as (ev & He & _); [by apply healthy_pop|]. mstep He. mret_step.
    rewrite bool_decide_eq_true_2; [reflexivity|apply (td_base _ _ _ Htd2)]. }
  destruct (load_topics_ok reg logs entries ∅ _ Hlo2) as (tm & rt' & Hrun & Hlo' & _ & Hall).
  - unfold entries. rewrite (td_order _ _ _ Htd2). apply names_nodup.
  - intros t Ht%Hent. split; [exact Ht|apply lookup_empty].
  - exists tm, rt'. split; [|split; [exact Hlo'|]].
    + unfold TopicRegistry_load, on_world. erewrite bind_Ok by (apply zoom_Ok, probe_ok, Hw).
      rewrite bool_decide_eq_true_2 by apply Htd. cbn [orb negb].
      erewrite bind_Ok by (apply zoom_Ok; cbn [set_world rt_world]; exact Hrd).
      assert (Hnew : TopicRegistry_new (rg_base_dir reg) (rg_max_segment_bytes reg) (rg_default_partitions reg) (rg_sync_level reg)
        (rg_channel_capacity reg) = reg) by (destruct reg; cbn in *; by subst).
      rewrite Hnew. by erewrite bind_Ok by exact Hrun.
    + intros [t id] Hk. apply Hall; [exact Hk|]. apply Hent. by exists id.
Qed.

(** An empty data directory gives an empty registry, whether it existed or not. *)
Lemma load_fresh base max parts level cap w :
  healthy w → fresh_base base w →
  ∃ w', TopicRegistry_load base max parts level cap (no_tasks w) =
      (Ok (TopicRegistry_new base max parts level cap), no_tasks w') ∧ healthy w' ∧ fresh_base base w' ∧ base ∈ w_dirs w'.
Proof.
  intros Hw Hfb. pose proof (healthy_pop w Hw) as Hw1. pose proof (fresh_base_pop base w Hfb) as Hfb1.
  unfold TopicRegistry_load, on_world.
  erewrite bind_Ok by (eapply zoom_Ok, probe_ok, Hw). cbn [rt_world no_tasks].
  destruct (bool_decide (base ∈ w_dirs w) || bool_decide (is_Some (w_files w !! base))) eqn:Hex; cbn [negb].
  - assert (Hin : base ∈ w_dirs w).
    { rewrite (fb_files _ _ Hfb base) in Hex by done. apply orb_true_iff in Hex as [Hex|Hex]; by apply bool_decide_eq_true in Hex. }
    exists (pop_sched (pop_sched w)).
    assert (Hrd : read_dir base (pop_sched w) = (Ok [], pop_sched (pop_sched w))).
    { unfold read_dir. destruct (syscall_ok _ Hw1) as (ev & He & _). mstep He. mret_step.
      rewrite bool_decide_eq_true_2 by exact Hin.
      pose proof (fresh_base_pop base _ Hfb1) as Hfb2. unfold gets.
      rewrite (fresh_names base _ base Hfb2) by done. f_equal. f_equal.
      apply Permutation_nil_r. apply (fb_order _ _ Hfb2). }
    erewrite bind_Ok by (eapply zoom_Ok, Hrd). split; [reflexivity|].
    split; [by apply healthy_pop|]. split; [by apply fresh_base_pop|exact Hin].
  - erewrite bind_Ok by (eapply zoom_Ok, create_dir_all_ok; [exact Hw1|apply Hfb1]).
    eexists. split; [reflexivity|]. split; [by apply healthy_dirs, healthy_pop|].
    split; [apply (fresh_base_made base (pop_sched (pop_sched w))); by apply fresh_base_pop|].
    apply elem_of_union_l, elem_of_list_to_set, prefixes_self.
Qed.

(** Everything is found: the registry stores the logs. *)
Lemma loading_store reg logs tm rt :
  loading reg logs (senders tm) rt → (∀ key, is_Some (logs !! key) → is_Some (senders tm key)) →
  store_inv (set_topics tm reg) rt logs ∧ ∀ a, mailbox rt a = [].
Proof.
  intros [Hw Hcfg Htd Hpl Husage Hdisk Htask Hactor Hempty Hnames] Hall. split.
  - split; try assumption.
    + by destruct Hcfg.
    + intros key rs Hk. destruct (Hall key) as [a Ha]; [by eexists|].
      destruct (Htask key a Ha) as (act & r & Hkr & Hact & Ho & _). rewrite Hk in Hkr. injection Hkr as <-.
      exists a, act. split; [exact Ha|]. split; [exact Hact|by apply owns_topics].
    + intros key a Ha. destruct (Htask key a Ha) as (act & r & Hkr & _). by exists r.
  - intros a. unfold mailbox. destruct (rt_actors rt !! a) as [act|] eqn:Hact; [|done].
    destruct (Htask _ _ (Hactor a act Hact)) as (act' & r & _ & Hact' & _ & Hb). rewrite Hact in Hact'. by injection Hact' as <-.
Qed.

(** The directory exists: what it holds is loaded. *)
Lemma load_stored reg logs w :
  healthy w → config_ok reg → rg_topics reg = ∅ → stored (rg_base_dir reg) (rg_max_segment_bytes reg) logs w →
  (∀ key rs, logs !! key = Some rs → usage key ≠ AnyUse) →
  ∃ tm rt, TopicRegistry_load (rg_base_dir reg) (rg_max_segment_bytes reg) (rg_default_partitions reg) (rg_sync_level reg)
      (rg_channel_capacity reg) (no_tasks w) = (Ok (set_topics tm reg), rt) ∧
    store_inv (set_topics tm reg) rt logs ∧ ∀ a, mailbox rt a = [].
Proof.
  intros Hw Hcfg Hreg [Htd Hpl Hlogs Hempty] Husage.
  destruct (load_ok reg logs (no_tasks w)) as (tm & rt & Hload & Hlo & Hall); [|exact Hreg|].
  { split; cbn [no_tasks rt_world rt_actors rt_next]; try assumption; try done.
    intros key rs Hk _. by apply Hlogs. }
  exists tm, rt. split; [exact Hload|by apply loading_store].
Qed.
(** The registry without partitions. *)
Lemma fresh_store base max parts level cap w :
  healthy w → fresh_base base w → base ∈ w_dirs w → 0 ≤ max ≤ 2 ^ 63 → 0 < cap ≤ MAX_PERMITS →
  store_inv (TopicRegistry_new base max parts level cap) (no_tasks w) ∅.
Proof.
  intros Hw Hfb Hin Hmax Hcap. split.
  - exact Hw.
  - by split.
  - intros key rs. by rewrite lookup_empty.
  - intros [t i] a. unfold registered, find_sender. cbn. by rewrite lookup_empty.
  - intros a act. cbn. by rewrite lookup_empty.
  - intros key rs. by rewrite lookup_empty.
  - intros key Hp _ _. by apply fresh_empty.
  - intros a act. cbn. by rewrite lookup_empty.
  - by apply fresh_tidy.
Qed.

(** `load` on a data directory that holds [logs], or is empty or missing. *)
Lemma load_data_dir base max parts level cap logs w :
  healthy w → 0 ≤ max ≤ 2 ^ 63 → 0 < cap ≤ MAX_PERMITS → data_dir base max logs w →
  (∀ key rs, logs !! key = Some rs → usage key ≠ AnyUse) →
  ∃ reg rt, TopicRegistry_load base max parts level cap (no_tasks w) = (Ok reg, rt) ∧
    settings reg = TopicRegistry_new base max parts level cap ∧ store_inv reg rt logs ∧ ∀ a, mailbox rt a = [].
Proof.
  intros Hw Hmax Hcap [Hst|[-> Hfb]] Husage.
  - destruct (load_stored (TopicRegistry_new base max parts level cap) logs w Hw) as (tm & rt & Hload & Hstore & Hmail);
      [by split|reflexivity|exact Hst|exact Husage|]. by exists (set_topics tm (TopicRegistry_new base max parts level cap)), rt.
  - destruct (load_fresh base max parts level cap w Hw Hfb) as (w' & Hload & Hw' & Hfb' & Hin).
    eexists _, _. split; [exact Hload|]. split; [reflexivity|]. split; [by apply fresh_store|].
    intros a. unfold mailbox. cbn. by rewrite lookup_empty.
Qed.

(** The files of a running broker hold its logs. *)
Lemma store_stored reg rt logs :
  store_inv reg rt logs → stored (rg_base_dir reg) (rg_max_segment_bytes reg) logs (rt_world rt).
Proof.
  intros [Hw Hcfg Hlog _ _ Hpl Hempty _ Htd]. split; [exact Htd|exact Hpl| |exact Hempty].
  intros key rs Hk. destruct (Hlog key rs Hk) as (a & act & _ & _ & [_ _ Hd Hm Hsv _ _]).
  pose proof (serving_dir_state _ _ _ _ _ Hsv) as Hdisk. by rewrite Hd, Hm in Hdisk.
Qed.
End load.
