(* ===== verification/BrokerTasks.v ===== *)
(** * Program points of a connection and turns of a partition task

    The three handlers have the same shape: look the partition up (creating it
    for a produce), make a reply channel, send the command, wait for the reply.
    The definitions here name what is left to run at each `.await`; the lemmas
    say what one poll does there, and what a partition task does with a command. *)
From S2P Require Import Prelude Errors BytesCrate StdText Types Frame Request Response Tokio FileSystem BinarySearch Index Record Segment SegmentInv SegmentRead SegmentWrite SegmentLoad Partition Listing PartitionInv Isolation PartitionWrite PartitionRead PartitionOpen PartitionSpec Registry Handler Connection BrokerSpec BrokerHistory Layout BrokerStore.
#[local] Open Scope Z_scope.

(** The command a request becomes, and the reply channel in a command. *)
Definition command (req : Request) (reply : nat) : BrokerCommand :=
  match req with
  | RProduce r => Produce None (Some (pr_payload r)) reply
  | RProduceBatch r => ProduceBatch (pb_payloads r) reply
  | RFetch r => Fetch (fr_offset r) (fr_max_bytes r) reply
  end.
Definition reply_slot (cmd : BrokerCommand) : nat :=
  match cmd with Produce _ _ s | ProduceBatch _ s | Fetch _ _ s => s end.

Lemma reply_slot_command req s : reply_slot (command req s) = s.
Proof. by destruct req. Qed.

(** A reply as the value of a `oneshot::Sender<Result<u64>>` or
    `oneshot::Sender<Result<Vec<Record>>>`. *)
Definition offset_value (rep : reply) : option (Z + RukaError) :=
  match rep with RepOffset o => Some (inl o) | RepError e => Some (inr e) | _ => None end.
Definition records_value (rep : reply) : option (list LogRecord + RukaError) :=
  match rep with RepRecords rs => Some (inl rs) | RepError e => Some (inr e) | _ => None end.

Section tasks.
Context `{BytesLaws, !MpscOps, !MpscLaws, !OneshotOps, !OneshotLaws, !ErrorTexts, !FramedOps}.
Implicit Types (req : Request) (rt : Runtime) (fr : framed) (s : Shared).

(** ** What is left to run *)
Definition wait_handler req (reply : nat) : Future Shared Response :=
  match req with
  | RProduce _ | RProduceBatch _ =>
      res ← await_reply rt_offsets reply;
      match res with
      | inl (inl o) => Ready (response_to req (RepOffset o))
      | inl (inr e) => Ready (error_response req e)
      | inr _ => Ready (from_error (req_cid req) ECServerError (str "Failed to receive reply: " ++ recv_error_text))
      end
  | RFetch r =>
      res ← await_reply rt_records reply;
      match res with
      | inl (inl rs) =>
          if bool_decide (rs = []) then Ready (error_response req (OffsetNotFound (fr_offset r)))
          else Ready (ResFetch {| fres_correlation_id := fr_correlation_id r; fres_topic := fr_topic r;
                                  fres_partition := fr_partition r; fres_payload := fetch_payload rs |})
      | inl (inr e) => Ready (error_response req e)
      | inr _ => Ready (from_error (req_cid req) ECServerError (str "Failed to receive reply: " ++ recv_error_text))
      end
  end.

Definition send_handler req (a : Sender) (reply : nat) : Future Shared Response :=
  sent ← send a (command req reply);
  match sent with
  | inr _ => Ready (from_error (req_cid req) ECServerError (str "Writer task died: " ++ send_error_text))
  | inl _ => wait_handler req reply
  end.

Definition slot_handler req (a : Sender) : Future Shared Response :=
  reply ← (match req with RFetch _ => oneshot_records | _ => oneshot_offset end);
  send_handler req a reply.

Definition create_handler req : Future Shared Response :=
  tx ← atomically (create_locked (fst (req_key req)) (snd (req_key req)));
  match tx with inr e => Ready (error_response req e) | inl a => slot_handler req a end.

(** The response is sent and the loop goes on, or the connection is given up. *)
Definition respond fr (response : Response) : Future Shared (framed * bool) :=
  match framed_send (Response_into_frame response) fr with
  | (Some e, fr) => Ready (fr, false)
  | (None, fr) => Ready (fr, true)
  end.

Lemma turn_request fr frame fr' req :
  framed_next fr = (Some (inl frame), fr') → Request_from_frame frame = Ok req →
  connection_turn fr = handle_request req ≫= respond fr'.
Proof. intros Hn Hr. unfold connection_turn. by rewrite Hn, Hr. Qed.

Lemma turn_stop fr r fr' :
  framed_next fr = (r, fr') → (∀ f, r = Some (inl f) → ∃ e, Request_from_frame f = Err e) →
  connection_turn fr = Ready (fr', false).
Proof.
  intros Hn Hr. unfold connection_turn. rewrite Hn. destruct r as [[f|e]|]; [|done|done].
  destruct (Hr f eq_refl) as [e ->]. done.
Qed.

(** ** The polls *)
Lemma poll_lookup req fr s :
  poll_connection (Running (handle_request req ≫= respond fr)) s =
  Some (Running (match registered (fst s) (req_key req) with
                 | Some a => slot_handler req a ≫= respond fr
                 | None =>
                     if creates req then create_handler req ≫= respond fr
                     else respond fr (error_response req (PartitionNotFound (fst (req_key req)) (snd (req_key req))))
                 end), s).
Proof. unfold registered. destruct req as [r|r|r]; cbn -[find_sender]; by destruct (find_sender _ _ _). Qed.

Lemma poll_create req fr s a s' :
  create_locked (fst (req_key req)) (snd (req_key req)) s = (Ok a, s') →
  poll_connection (Running (create_handler req ≫= respond fr)) s =
    Some (Running (slot_handler req a ≫= respond fr), s').
Proof. intros Hc. cbn -[create_locked slot_handler]. by rewrite Hc. Qed.

Definition add_slot req rt : Runtime :=
  set_next (S (rt_next rt))
    (match req with
     | RFetch _ => set_records (<[rt_next rt := oneshot_channel]> (rt_records rt)) rt
     | _ => set_offsets (<[rt_next rt := oneshot_channel]> (rt_offsets rt)) rt
     end).

Lemma poll_slot req a fr s :
  poll_connection (Running (slot_handler req a ≫= respond fr)) s =
    Some (Running (send_handler req a (rt_next (snd s)) ≫= respond fr), (fst s, add_slot req (snd s))).
Proof. by destruct req. Qed.

Definition push rt (a : Sender) (act : Actor) (rx : mpsc BrokerCommand) : Runtime :=
  set_actors (<[a := {| ac_rx := rx; ac_partition := ac_partition act |}]> (rt_actors rt)) rt.

Lemma poll_send req a reply fr s act :
  rt_actors (snd s) !! a = Some act →
  poll_connection (Running (send_handler req a reply ≫= respond fr)) s =
    match mpsc_send (command req reply) (ac_rx act) with
    | None => None
    | Some rx => Some (Running (wait_handler req reply ≫= respond fr), (fst s, push (snd s) a act rx))
    end.
Proof. intros Ha. cbn -[wait_handler]. rewrite Ha. by destruct (mpsc_send _ _). Qed.

(** The state of the reply channel of a request: empty, or with a reply in it. *)
Definition slot_holds rt req (n : nat) (rep : option reply) : Prop :=
  match rep with
  | None =>
      match req with
      | RFetch _ => rt_records rt !! n = Some oneshot_channel
      | _ => rt_offsets rt !! n = Some oneshot_channel
      end
  | Some rep =>
      match req with
      | RFetch _ => ∃ v, records_value rep = Some v ∧ rt_records rt !! n = Some (oneshot_send v oneshot_channel)
      | _ => ∃ v, offset_value rep = Some v ∧ rt_offsets rt !! n = Some (oneshot_send v oneshot_channel)
      end
  end.

Lemma poll_wait req n fr s rep :
  slot_holds (snd s) req n rep →
  poll_connection (Running (wait_handler req n ≫= respond fr)) s =
    match rep with
    | None => None
    | Some rep => Some (Running (respond fr (response_to req rep)), s)
    end.
Proof.
  destruct rep as [rep|]; destruct req as [r|r|r]; cbn.
  1-3: intros (v & Hv & ->); cbn; rewrite oneshot_sent; destruct rep; cbn in Hv; simplify_eq; cbn; try done.
  - by destruct rs.
  - intros ->. cbn. by rewrite oneshot_empty.
  - intros ->. cbn. by rewrite oneshot_empty.
  - intros ->. cbn. by rewrite oneshot_empty.
Qed.

(** ** A turn of a partition task *)
Lemma reply_of_inv {A} (f : A → reply) (m : PartIO A) st rep st' :
  reply_of f m st = (Ok rep, st') →
  (∃ a, m st = (Ok a, st') ∧ rep = f a) ∨ (∃ e, m st = (Err e, st') ∧ rep = RepError e).
Proof.
  unfold reply_of, attempt, mbind, M_bind. destruct (m st) as [[a|e| |] st1]; cbn; intros Heq; try discriminate Heq;
    injection Heq as <- <-; [left; by exists a|right; by exists e].
Qed.

(** The process after a task served a command. *)
Record command_done rt rt' (a : Sender) (rx : mpsc BrokerCommand) (p : Partition) (w : World) req n rep : Prop := {
  cd_actors : rt_actors rt' = <[a := {| ac_rx := rx; ac_partition := p |}]> (rt_actors rt);
  cd_world : rt_world rt' = w;
  cd_next : rt_next rt' = rt_next rt;
  cd_slot : slot_holds rt' req n (Some rep);
  cd_offsets : ∀ m, m ≠ n → rt_offsets rt' !! m = rt_offsets rt !! m;
  cd_records : ∀ m, m ≠ n → rt_records rt' !! m = rt_records rt !! m
}.

Lemma resolve_ne {A} (v : option A) n (slots : gmap nat (oneshot A)) m :
  m ≠ n → resolve v n slots !! m = slots !! m.
Proof. intros Hne. unfold resolve. destruct (slots !! n); [|done]. by rewrite lookup_insert_ne. Qed.

Lemma resolve_eq {A} (a : A) n (slots : gmap nat (oneshot A)) :
  slots !! n = Some oneshot_channel → resolve (Some a) n slots !! n = Some (oneshot_send a oneshot_channel).
Proof. intros Hn. unfold resolve. by rewrite Hn, lookup_insert_eq. Qed.

Lemma actor_turn_ok rt a act req n l rep p w :
  rt_actors rt !! a = Some act → mpsc_buffer (ac_rx act) = command req n :: l →
  exec (req_op req) (ac_partition act, rt_world rt) = (Ok rep, (p, w)) → slot_holds rt req n None →
  ∃ rx rt', actor_turn a rt = Some rt' ∧ mpsc_buffer rx = l ∧ mpsc_capacity rx = mpsc_capacity (ac_rx act) ∧
    command_done rt rt' a rx p w req n rep.
Proof.
  intros Ha Hbuf Hex Hslot. destruct (mpsc_recv_law _ _ _ Hbuf) as (rx & Hrecv & Hl & Hcap).
  exists rx. unfold actor_turn. rewrite Ha. cbn [mbind option_bind]. rewrite Hrecv. cbn [mbind option_bind].
  destruct req as [r|r|r]; cbn [req_op exec command slot_holds] in *; reduce;
    apply reply_of_inv in Hex as [(v & -> & ->)|(e & -> & ->)];
    (eexists; split; [reflexivity|]; split; [exact Hl|]; split; [exact Hcap|]); split; try done; cbn;
    try (intros m Hm; by apply resolve_ne); eexists; (split; [reflexivity|]); by apply resolve_eq.
Qed.
End tasks.
