(* ===== verification/HandlerTheorems.v ===== *)
(** * What a handler does whatever the other tasks do

    A handler is polled on one shared state after another; between two polls the
    other tasks, the disk and the registry may do anything. Its response is
    determined by what it saw: [handled] has a rule for each way to end. *)
From S2P Require Import Prelude Errors BytesCrate StdText Types Frame Request Response Tokio FileSystem Record Segment Partition PartitionSpec Registry Handler Connection BrokerSpec BrokerTasks.
#[local] Open Scope Z_scope.

(** ** Futures that are polled *)

(** Polled on the states [ss], one after the other, the future ends with [a]. *)
Inductive ends {S A} : Future S A → list S → A → Prop :=
| ends_ready a : ends (Ready a) [] a
| ends_pending p s s' ss a : p s = (Pending, s') → ends (Await p) ss a → ends (Await p) (s :: ss) a
| ends_go p s f s' ss a : p s = (Go f, s') → ends f ss a → ends (Await p) (s :: ss) a.

(** Whenever it is polled, it panics only on a state in [crash]. *)
Inductive panics_only {S A} (crash : S → Prop) : Future S A → Prop :=
| panics_ready a : panics_only crash (Ready a)
| panics_await p :
    (∀ s f s', p s = (Go f, s') → panics_only crash f) → (∀ s s', p s = (Crash, s') → crash s) →
    panics_only crash (Await p).

Section futures.
Context {S : Type}.

Lemma ends_Ready {A} (a b : A) (ss : list S) : ends (Ready a) ss b → ss = [] ∧ a = b.
Proof. by inversion 1. Qed.

Lemma ends_bind {A B} (f : Future S A) (k : A → Future S B) ss b :
  ends (f ≫= k) ss b → ∃ ss1 ss2 a, ss = ss1 ++ ss2 ∧ ends f ss1 a ∧ ends (k a) ss2 b.
Proof.
  intros He. remember (f ≫= k) as g eqn:Hg. revert f Hg.
  induction He as [b|p s s' ss b Hp He IH|p s g s' ss b Hp He IH]; intros [a|q] Hg.
  1,3,5: exists []; eexists _, a; (split; [reflexivity|]; split; [constructor|]);
    change (Ready a ≫= k) with (k a) in Hg; rewrite <- Hg; by econstructor.
  1: done.
  all: injection Hg as ->; destruct (q s) as [[|f'|] s1] eqn:Hq; try discriminate Hp.
  - destruct (IH (Await q) eq_refl) as (ss1 & ss2 & a & -> & H1 & H2). exists (s :: ss1), ss2, a. split; [done|]. split; [by eapply ends_pending|done].
  - injection Hp as <- <-. destruct (IH f' eq_refl) as (ss1 & ss2 & a & -> & H1 & H2). exists (s :: ss1), ss2, a. split; [done|]. split; [by eapply ends_go|done].
Qed.

Lemma ends_poll {A} (f : S → Poll A * S) ss a :
  ends (poll_with f) ss a → ∃ ss1 s s', ss = ss1 ++ [s] ∧ f s = (Go a, s').
Proof.
  intros He. remember (poll_with f) as g eqn:Hg. revert Hg.
  induction He as [b|p s s' ss b Hp He IH|p s g s' ss b Hp He _]; intros Hg; [done|..].
  - destruct (IH Hg) as (ss1 & t & t' & -> & Ht). by exists (s :: ss1), t, t'.
  - injection Hg as ->. destruct (f s) as [[|a|] s1] eqn:Hf; try discriminate Hp. injection Hp as <- <-.
    apply ends_Ready in He as [-> ->]. by exists [], s, s1.
Qed.

Lemma panics_bind {A B} crash (f : Future S A) (k : A → Future S B) :
  panics_only crash f → (∀ a, panics_only crash (k a)) → panics_only crash (f ≫= k).
Proof.
  intros Hf Hk. induction Hf as [a|p Hgo IH Hcr]; [by apply Hk|]. apply panics_await.
  - intros s f s' Heq. destruct (p s) as [[|f0|] s0] eqn:Hp; try discriminate Heq. injection Heq as <- <-. by eapply IH.
  - intros s s' Heq. destruct (p s) as [[|f0|] s0] eqn:Hp; try discriminate Heq. by eapply Hcr.
Qed.

Lemma panics_poll {A} crash (f : S → Poll A * S) : (∀ s s', f s = (Crash, s') → crash s) → panics_only crash (poll_with f).
Proof.
  intros Hcr. apply panics_await.
  - intros s f0 s' Heq. destruct (f s) as [[|a|] s0] eqn:Hf; try discriminate Heq. injection Heq as <- _. constructor.
  - intros s s' Heq. destruct (f s) as [[|a|] s0] eqn:Hf; try discriminate Heq. by eapply Hcr.
Qed.
End futures.

Section handlers.
Context `{!BytesOps, !MpscOps, !OneshotOps, !ErrorTexts}.
Implicit Types (req : Request) (s : Shared).

(** ** What a handler sees *)
Definition looked_up req s : option Sender := find_sender (rg_topics (fst s)) (fst (req_key req)) (snd (req_key req)).
Definition created req s : outcome RukaError Sender := fst (create_locked (fst (req_key req)) (snd (req_key req)) s).

(** It has the task [tx] of the partition: it was registered, or created. *)
Inductive partition_at req : list Shared → Sender → Prop :=
| at_registered s tx : looked_up req s = Some tx → partition_at req [s] tx
| at_created s0 s tx : creates req = true → looked_up req s0 = None → created req s = Ok tx → partition_at req [s0; s] tx.

(** The mailbox of [tx] takes its command, with the reply channel [reply]. *)
Definition commanded req tx (reply : nat) s : Prop :=
  ∃ act rx, rt_actors (snd s) !! tx = Some act ∧ mpsc_send (command req reply) (ac_rx act) = Some rx.

(** What comes out of the reply channel: the task's reply, or nothing when the
    task dropped it. *)
Definition offset_reply (v : Z + RukaError + unit) : option reply :=
  match v with inl (inl o) => Some (RepOffset o) | inl (inr e) => Some (RepError e) | inr _ => None end.
Definition records_reply (v : list LogRecord + RukaError + unit) : option reply :=
  match v with inl (inl rs) => Some (RepRecords rs) | inl (inr e) => Some (RepError e) | inr _ => None end.
Definition received req (reply : nat) s (rep : option PartitionSpec.reply) : Prop :=
  match req with
  | RFetch _ => ∃ v, rt_records (snd s) !! reply ≫= oneshot_recv = Some v ∧ records_reply v = rep
  | _ => ∃ v, rt_offsets (snd s) !! reply ≫= oneshot_recv = Some v ∧ offset_reply v = rep
  end.

Definition lost_response req (why text : bytes) : Response := from_error (req_cid req) ECServerError (why ++ text).

(** The states that decide, and the response. *)
Inductive handled req : list Shared → Response → Prop :=
| handled_unopened s0 s e :
    creates req = true → looked_up req s0 = None → created req s = Err e → handled req [s0; s] (error_response req e)
| handled_missing s :
    creates req = false → looked_up req s = None →
    handled req [s] (error_response req (PartitionNotFound (fst (req_key req)) (snd (req_key req))))
| handled_dead opened tx sc sm :
    partition_at req opened tx → rt_actors (snd sm) !! tx = None →
    handled req (opened ++ [sc; sm]) (lost_response req (str "Writer task died: ") send_error_text)
| handled_dropped opened tx sc sm sr :
    partition_at req opened tx → commanded req tx (rt_next (snd sc)) sm → received req (rt_next (snd sc)) sr None →
    handled req (opened ++ [sc; sm; sr]) (lost_response req (str "Failed to receive reply: ") recv_error_text)
| handled_replied opened tx sc sm sr rep :
    partition_at req opened tx → commanded req tx (rt_next (snd sc)) sm → received req (rt_next (snd sc)) sr (Some rep) →
    handled req (opened ++ [sc; sm; sr]) (response_to req rep).

(** The response belongs to the request: an error with its correlation id, or
    a success that also repeats its topic and partition. *)
Definition response_for req (resp : Response) : Prop :=
  Response_correlation_id resp = req_cid req ∧
  match req, resp with
  | RProduce _, ResProduce r => (pres_topic r, pres_partition r) = req_key req
  | RProduceBatch _, ResProduceBatch r => (bres_topic r, bres_partition r) = req_key req
  | RFetch _, ResFetch r => (fres_topic r, fres_partition r) = req_key req
  | _, ResError _ => True
  | _, _ => False
  end.

(** Creating the partition panics; it does not happen for a fetch. *)
Definition creation_panics req s : Prop :=
  creates req = true ∧ (∀ tx, created req s ≠ Ok tx) ∧ ∀ e, created req s ≠ Err e.

(** ** The steps of a handler *)
Lemma ends_wait req reply ss resp :
  ends (wait_handler req reply) ss resp → ∃ ss1 s, ss = ss1 ++ [s] ∧
    ((received req reply s None ∧ resp = lost_response req (str "Failed to receive reply: ") recv_error_text) ∨
     ∃ rep, received req reply s (Some rep) ∧ resp = response_to req rep).
Proof.
  assert (Hw : ∀ A (slots : Runtime → gmap nat (oneshot A)) k, ends (await_reply slots reply ≫= k) ss resp →
    ∃ ss1 s ss2 v, ss = ss1 ++ s :: ss2 ∧ slots (snd s) !! reply ≫= oneshot_recv = Some v ∧ ends (k v) ss2 resp).
  { intros A slots k (ss1 & ss2 & v & -> & He & Hk)%ends_bind. apply ends_poll in He as (ss3 & s & s' & -> & Hs).
    exists ss3, s, ss2, v. split; [by rewrite <- (assoc_L (++))|]. destruct (slots (snd s) !! reply ≫= oneshot_recv); [|done].
    by injection Hs as ->. }
  destruct req as [r|r|r]; cbn [wait_handler]; intros (ss1 & s & ss2 & v & -> & Hv & Hk)%Hw;
    destruct v as [[o|e]|[]]; try case_bool_decide; apply ends_Ready in Hk as [-> <-]; exists ss1, s; (split; [done|]);
    try (right; eexists; split; [by eexists|]; reflexivity); try (left; split; [by eexists|reflexivity]).
  - right. exists (RepRecords []). split; [by eexists; split; [|subst]|done].
  - right. exists (RepRecords o). split; [by eexists|]. by destruct o.
Qed.

Lemma ends_send req tx reply ss resp :
  ends (send_handler req tx reply) ss resp → ∃ ss1 s ss2, ss = ss1 ++ s :: ss2 ∧
    ((rt_actors (snd s) !! tx = None ∧ resp = lost_response req (str "Writer task died: ") send_error_text) ∨
     (commanded req tx reply s ∧ ends (wait_handler req reply) ss2 resp)).
Proof.
  intros (ss1 & ss2 & v & -> & He & Hk)%ends_bind. apply ends_poll in He as (ss3 & s & s' & -> & Hs).
  exists ss3, s, ss2. split; [by rewrite <- (assoc_L (++))|]. destruct (rt_actors (snd s) !! tx) as [act|] eqn:Ha.
  - right. destruct (mpsc_send _ _) as [rx|] eqn:Hm; [|done]. injection Hs as <- _. split; [by exists act, rx|exact Hk].
  - left. injection Hs as <- _. by apply ends_Ready in Hk as [_ <-].
Qed.

Lemma ends_slot req tx ss resp opened :
  partition_at req opened tx → ends (slot_handler req tx) ss resp →
  ∃ ss', ss' `sublist_of` ss ∧ handled req (opened ++ ss') resp.
Proof.
  intros Hop (ss1 & ss2 & reply & -> & He & Hk)%ends_bind.
  assert (∃ ss3 sc, ss1 = ss3 ++ [sc] ∧ reply = rt_next (snd sc)) as (ss3 & sc & -> & ->).
  { destruct req; apply ends_poll in He as (ss3 & sc & s' & -> & Hs); injection Hs as <- _; by exists ss3, sc. }
  apply ends_send in Hk as (ss4 & sm & ss5 & -> & [[Ha ->]|[Hm (ss6 & sr & -> & [[Hr ->]|(rep & Hr & ->)])%ends_wait]]).
  - exists [sc; sm]. split; [|by eapply handled_dead]. rewrite <- (assoc_L (++)). apply sublist_inserts_l, sublist_skip.
    apply sublist_inserts_l, sublist_skip, sublist_nil_l.
  - exists [sc; sm; sr]. split; [|by eapply handled_dropped]. rewrite <- (assoc_L (++)).
    apply sublist_inserts_l, sublist_skip. apply sublist_inserts_l, sublist_skip. by apply sublist_inserts_l.
  - exists [sc; sm; sr]. split; [|by eapply handled_replied]. rewrite <- (assoc_L (++)).
    apply sublist_inserts_l, sublist_skip. apply sublist_inserts_l, sublist_skip. by apply sublist_inserts_l.
Qed.

(** The handlers have one shape. *)
Lemma handler_shape req :
  handle_request req =
    (if creates req then TopicRegistry_get_or_create_partition (fst (req_key req)) (snd (req_key req))
     else TopicRegistry_get_partition (fst (req_key req)) (snd (req_key req))) ≫=
    λ tx, match tx with inr e => Ready (error_response req e) | inl tx => slot_handler req tx end.
Proof. by destruct req. Qed.

Lemma ends_request req ss resp :
  ends (handle_request req) ss resp → ∃ ss', ss' `sublist_of` ss ∧ handled req ss' resp.
Proof.
  rewrite handler_shape. intros (ss1 & ss2 & v & -> & He & Hk)%ends_bind.
  assert (Hfin : ∀ opened tx, opened `sublist_of` ss1 → partition_at req opened tx → ends (slot_handler req tx) ss2 resp →
    ∃ ss', ss' `sublist_of` ss1 ++ ss2 ∧ handled req ss' resp).
  { intros opened tx Hsub Hop Hs. destruct (ends_slot _ _ _ _ _ Hop Hs) as (ss' & Hsub' & Hh).
    exists (opened ++ ss'). split; [by apply sublist_app|exact Hh]. }
  destruct (creates req) eqn:Hcr.
  - apply ends_bind in He as (ss3 & ss4 & found & -> & Hl & He). apply ends_poll in Hl as (ss5 & s0 & s' & -> & Hl).
    injection Hl as Hl _. fold (looked_up req s0) in Hl. destruct found as [tx|].
    + apply ends_Ready in He as [-> <-]. eapply (Hfin [s0]); [|by constructor|exact Hk].
      rewrite app_nil_r. by apply sublist_inserts_l.
    + apply ends_poll in He as (ss6 & s & s2 & -> & Hc). pose proof (eq_refl (created req s)) as Hcs. unfold created at 2 in Hcs.
      assert (Hsub : [s0; s] `sublist_of` (ss5 ++ [s0]) ++ ss6 ++ [s]).
      { rewrite <- (assoc_L (++)). apply sublist_inserts_l, sublist_skip. by apply sublist_inserts_l. }
      destruct (create_locked _ _ s) as [[tx|e| |] s3]; try discriminate Hc; injection Hc as <- _; cbn [fst] in Hcs.
      * eapply (Hfin [s0; s]); [exact Hsub|by constructor|exact Hk].
      * apply ends_Ready in Hk as [-> <-]. exists [s0; s]. split; [by rewrite app_nil_r|by apply handled_unopened].
  - apply ends_bind in He as (ss3 & ss4 & found & -> & Hl & He). apply ends_poll in Hl as (ss5 & s0 & s' & -> & Hl).
    injection Hl as Hl _. fold (looked_up req s0) in Hl. destruct found as [tx|]; apply ends_Ready in He as [-> <-].
    + eapply (Hfin [s0]); [|by constructor|exact Hk]. rewrite app_nil_r. by apply sublist_inserts_l.
    + apply ends_Ready in Hk as [-> <-]. exists [s0]. rewrite !app_nil_r. split; [by apply sublist_inserts_l|by apply handled_missing].
Qed.

Lemma handled_for req ss resp : handled req ss resp → response_for req resp.
Proof.
  intros [s0 s e _ _ _|s Hcr _|opened tx sc sm _ _|opened tx sc sm sr _ _ _|opened tx sc sm sr rep _ _ Hr].
  1-4: by destruct req.
  destruct req as [r|r|r]; destruct Hr as (v & _ & Hv).
  1,2: destruct v as [[o|e]|[]]; cbn in Hv; simplify_eq; by split.
  destruct v as [[[|x rs]|e]|[]]; cbn in Hv; simplify_eq; by split.
Qed.

Lemma panics_request req : panics_only (creation_panics req) (handle_request req).
Proof.
  rewrite handler_shape. apply panics_bind.
  - destruct (creates req) eqn:Hcr; (apply panics_bind; [by apply panics_poll|]; intros [tx|]; [constructor|]); [|constructor].
    apply panics_poll. intros s s' Heq. split; [exact Hcr|]. unfold created.
    destruct (create_locked _ _ s) as [[v|e| |] s0]; try discriminate Heq; by split.
  - intros [tx|e]; [|constructor]. apply panics_bind; [by destruct req; apply panics_poll|]. intros reply.
    apply panics_bind; [|intros [[]|[]]; [|constructor]].
    + apply panics_poll. intros s s'. destruct (rt_actors (snd s) !! tx) as [act|]; [|done]. by destruct (mpsc_send _ _).
    + assert (Hw : ∀ A (slots : Runtime → gmap nat (oneshot A)), panics_only (creation_panics req) (await_reply slots reply)).
      { intros A slots. apply panics_poll. intros s s'. by destruct (slots (snd s) !! reply ≫= oneshot_recv). }
      destruct req; cbn [wait_handler]; (apply panics_bind; [apply Hw|]); intros [[o|e]|[]]; try case_bool_decide; constructor.
Qed.

(** C17: a handler answers its own request and says what happened, whatever the
    registry, the partition tasks and the disk do between its polls. The response
    has the correlation id of the request and, on success, its topic and
    partition. It is a success only when the partition was registered or could
    be created, its task took the command with this handler's own reply channel,
    and what came out of that channel is a success: the response carries exactly
    that offset or those records. On every failure it is an error: that of the
    registry when the partition cannot be opened, PartitionNotFound when a fetch
    finds none, a server error when the task is gone or drops the reply channel,
    the task's own error when it replies one, OffsetNotFound when a fetch is
    replied no records. A handler panics only when creating the partition does,
    so never for a fetch. *)
Theorem handle_request_answers req ss resp :
  ends (handle_request req) ss resp →
  response_for req resp ∧ (∃ ss', ss' `sublist_of` ss ∧ handled req ss' resp) ∧
  panics_only (creation_panics req) (handle_request req).
Proof.
  intros He. destruct (ends_request req ss resp He) as (ss' & Hsub & Hh).
  split; [by eapply handled_for|]. split; [by exists ss'|apply panics_request].
Qed.
End handlers.
