(* ===== verification/BrokerSim.v ===== *)
(** * The simulation relation

    [sim] relates a state of the running broker to a state of the atomic broker:
    the registry stores the logs, every connection is at one of its program
    points with its requests before it and its responses behind it, and every
    command in a mailbox belongs to exactly one waiting connection. The position
    of each connection ([stage]) and its requests and responses are ghost state. *)
From S2P Require Import Prelude Errors BytesCrate StdText Types Frame Request Response Tokio FileSystem BinarySearch Index Record Segment SegmentInv SegmentRead SegmentWrite SegmentLoad Partition Listing PartitionInv Isolation PartitionWrite PartitionRead PartitionOpen PartitionSpec Registry Handler Connection BrokerSpec BrokerHistory Layout BrokerStore BrokerTasks.
#[local] Open Scope Z_scope.

Lemma omap_length {A B} (f : A → option B) l : (length (omap f l) ≤ length l)%nat.
Proof. induction l as [|x l IH]; [done|]. cbn. destruct (f x); cbn; lia. Qed.

Section sim.
Context `{BytesLaws, !MpscOps, !MpscLaws, !OneshotOps, !OneshotLaws, !ErrorTexts, !FramedOps, !FramedLaws, !Usage}.
Implicit Types (req : Request) (rt : Runtime) (fr : framed) (s : Shared) (logs : gmap Key (list LogRecord)).

(** The connections the accept loop will get, without the failed accepts. *)
Definition accepted (backlog : list AcceptResult) : list framed :=
  omap (λ r, match r with inl fr => Some fr | inr _ => None end) backlog.
Definition refused (backlog : list AcceptResult) : nat := length backlog - length (accepted backlog).

Lemma accepted_inl fr backlog : accepted (inl fr :: backlog) = fr :: accepted backlog.
Proof. reflexivity. Qed.
Lemma accepted_inr e backlog : accepted (inr e :: backlog) = accepted backlog.
Proof. reflexivity. Qed.
Lemma accepted_length backlog : (length (accepted backlog) ≤ length backlog)%nat.
Proof. apply omap_length. Qed.

(** Where a connection is. *)
Inductive stage : Type :=
| SQueued                                    (** not accepted yet *)
| SLoop (fr : framed)                        (** a turn is over *)
| STurn (fr : framed)                        (** a turn begins: the next poll looks the partition up *)
| SCreate (fr : framed)                      (** waits for the registry's write lock *)
| SSlot (fr : framed) (a : Sender)           (** has the partition's sender *)
| SSend (fr : framed) (a : Sender) (n : nat) (** has a reply channel *)
| SWait (fr : framed) (a : Sender) (n : nat) (rep : option reply) (** waits for the reply *)
| SClosed (fr : framed).

Definition stage_slot (st : stage) : option nat :=
  match st with SSend _ _ n | SWait _ _ n _ => Some n | _ => None end.

Record ghost : Type := {
  g_stage : stage;
  g_todo : list Request;
  g_done : list Response
}.
Definition client (g : ghost) : list Request * list Response := (g_todo g, g_done g).

(** The connection still has to serve [todo] and has sent [done]. *)
Record talking fr (todo : list Request) (done : list Response) : Prop := {
  tk_in : parsed (framed_in fr) todo;
  tk_out : framed_out fr = wires (Response_into_frame <$> done);
  tk_open : framed_open fr
}.

(** [c] is the task at stage [st]. *)
Definition conn_ok s (st : stage) (c : Conn) (todo : list Request) (done : list Response) : Prop :=
  match st with
  | SQueued => False
  | SLoop fr => c = Running (Ready (fr, true)) ∧ talking fr todo done
  | STurn fr => c = Running (connection_turn fr) ∧ talking fr todo done
  | SCreate fr => ∃ req rest, todo = req :: rest ∧ talking fr rest done ∧ creates req = true ∧
      c = Running (create_handler req ≫= respond fr)
  | SSlot fr a => ∃ req rest, todo = req :: rest ∧ talking fr rest done ∧ registered (fst s) (req_key req) = Some a ∧
      c = Running (slot_handler req a ≫= respond fr)
  | SSend fr a n => ∃ req rest, todo = req :: rest ∧ talking fr rest done ∧
      registered (fst s) (req_key req) = Some a ∧
      c = Running (send_handler req a n ≫= respond fr) ∧ slot_holds (snd s) req n None
  | SWait fr a n None => ∃ req rest, todo = req :: rest ∧ talking fr rest done ∧
      registered (fst s) (req_key req) = Some a ∧
      c = Running (wait_handler req n ≫= respond fr) ∧ slot_holds (snd s) req n None ∧
      command req n ∈ mailbox (snd s) a
  | SWait fr a n (Some rep) => ∃ req sent, done = sent ++ [response_to req rep] ∧ talking fr todo sent ∧
      c = Running (wait_handler req n ≫= respond fr) ∧ slot_holds (snd s) req n (Some rep)
  | SClosed fr => c = Closed fr ∧ todo = [] ∧ framed_out fr = wires (Response_into_frame <$> done)
  end.

(** A command in the mailbox of [a] is that of a connection that waits for it. *)
Definition points (gs : list ghost) (a : Sender) (cmd : BrokerCommand) : Prop :=
  ∃ t g req rest fr, gs !! t = Some g ∧ g_stage g = SWait fr a (reply_slot cmd) None ∧
    g_todo g = req :: rest ∧ cmd = command req (reply_slot cmd).

Definition reqs_weight (reqs : list Request) : Z := foldr (λ r m, req_weight r + m) 0 reqs.
Definition ghosts_weight (gs : list ghost) : Z := foldr (λ g n, reqs_weight (g_todo g) + n) 0 gs.

Record sim (backlog : list framed) (conns : list Conn) s logs (gs : list ghost) : Prop := {
  sm_store : store_inv (fst s) (snd s) logs;
  sm_length : length gs = (length conns + length backlog)%nat;
  sm_conns : ∀ t c, conns !! t = Some c → ∃ g, gs !! t = Some g ∧ conn_ok s (g_stage g) c (g_todo g) (g_done g);
  sm_queue : ∀ i fr, backlog !! i = Some fr → ∃ g, gs !! (length conns + i)%nat = Some g ∧
    g_stage g = SQueued ∧ g_done g = [] ∧ talking fr (g_todo g) [];
  sm_slots : ∀ t1 t2 g1 g2 n, gs !! t1 = Some g1 → gs !! t2 = Some g2 →
    stage_slot (g_stage g1) = Some n → stage_slot (g_stage g2) = Some n → t1 = t2;
  sm_names : ∀ t g n, gs !! t = Some g → stage_slot (g_stage g) = Some n → (n < rt_next (snd s))%nat;
  sm_mail : ∀ a cmd, cmd ∈ mailbox (snd s) a → points gs a cmd;
  sm_nodup : ∀ a, NoDup (reply_slot <$> mailbox (snd s) a);
  sm_typed : Forall (λ g, Forall request_ok (g_todo g)) gs;
  sm_weight : ghosts_weight gs < 2 ^ 64;
  sm_room : ∀ key rs, logs !! key = Some rs → blen rs + ghosts_weight gs < 2 ^ 64
}.

(** ** Weights *)
Lemma req_weight_nonneg req : 0 ≤ req_weight req.
Proof. destruct req; unfold req_weight; cbn; len. Qed.
Lemma reqs_weight_cons req reqs : reqs_weight (req :: reqs) = req_weight req + reqs_weight reqs.
Proof. reflexivity. Qed.
Lemma ghosts_weight_cons g gs : ghosts_weight (g :: gs) = reqs_weight (g_todo g) + ghosts_weight gs.
Proof. reflexivity. Qed.
Lemma reqs_weight_nonneg reqs : 0 ≤ reqs_weight reqs.
Proof.
  induction reqs as [|r reqs IH]; [done|]. rewrite reqs_weight_cons. pose proof (req_weight_nonneg r). lia.
Qed.
Lemma ghosts_weight_nonneg gs : 0 ≤ ghosts_weight gs.
Proof.
  induction gs as [|g gs IH]; [done|]. rewrite ghosts_weight_cons. pose proof (reqs_weight_nonneg (g_todo g)). lia.
Qed.
Lemma ghosts_weight_insert gs t g g' :
  gs !! t = Some g → ghosts_weight (<[t := g']> gs) = ghosts_weight gs - reqs_weight (g_todo g) + reqs_weight (g_todo g').
Proof.
  revert t. induction gs as [|h gs IH]; intros [|t] Hg; try done.
  - injection Hg as <-. cbn [insert list_insert]. rewrite !ghosts_weight_cons. lia.
  - change (<[S t := g']> (h :: gs)) with (h :: <[t := g']> gs). rewrite !ghosts_weight_cons, (IH t Hg). lia.
Qed.

(** ** Stability of a connection under the steps of others *)
Record stable s s' (st : stage) : Prop := {
  sb_registered : ∀ key a, registered (fst s) key = Some a → registered (fst s') key = Some a;
  sb_offsets : ∀ n, stage_slot st = Some n → rt_offsets (snd s') !! n = rt_offsets (snd s) !! n;
  sb_records : ∀ n, stage_slot st = Some n → rt_records (snd s') !! n = rt_records (snd s) !! n;
  sb_mail : ∀ fr a n cmd, st = SWait fr a n None → cmd ∈ mailbox (snd s) a → reply_slot cmd = n →
    cmd ∈ mailbox (snd s') a
}.

Lemma slot_holds_stable s s' st req n rep :
  stable s s' st → stage_slot st = Some n → slot_holds (snd s) req n rep → slot_holds (snd s') req n rep.
Proof.
  intros [_ Ho Hr _] Hn. unfold slot_holds. destruct rep; destruct req; rewrite ?Ho, ?Hr by exact Hn; done.
Qed.

Lemma conn_ok_stable s s' st c todo done :
  stable s s' st → conn_ok s st c todo done → conn_ok s' st c todo done.
Proof.
  intros Hs. destruct st as [|fr|fr|fr|fr a|fr a n|fr a n [rep|]|fr]; cbn [conn_ok]; try done.
  - intros (req & rest & Ht & Htk & Hr & Hc). exists req, rest. pose proof (sb_registered _ _ _ Hs _ _ Hr). done.
  - intros (req & rest & Ht & Htk & Hr & Hc & Hsl). exists req, rest.
    pose proof (sb_registered _ _ _ Hs _ _ Hr). do 4 (split; [done|]). by eapply slot_holds_stable.
  - intros (req & sent & Hd & Htk & Hc & Hsl). exists req, sent. do 3 (split; [done|]). by eapply slot_holds_stable.
  - intros (req & rest & Ht & Htk & Hr & Hc & Hsl & Hm). exists req, rest.
    pose proof (sb_registered _ _ _ Hs _ _ Hr). do 4 (split; [done|]). split; [by eapply slot_holds_stable|].
    eapply (sb_mail _ _ _ Hs); [reflexivity|exact Hm|apply reply_slot_command].
Qed.

(** ** Updating one connection *)
Lemma sim_update backlog conns s logs gs t c g c' g' s' logs' :
  sim backlog conns s logs gs → conns !! t = Some c → gs !! t = Some g →
  conn_ok s' (g_stage g') c' (g_todo g') (g_done g') →
  (∀ t2 g2, t2 ≠ t → gs !! t2 = Some g2 → stable s s' (g_stage g2)) →
  store_inv (fst s') (snd s') logs' →
  (∀ n, stage_slot (g_stage g') = Some n → (n < rt_next (snd s'))%nat ∧
     ∀ t2 g2, t2 ≠ t → gs !! t2 = Some g2 → stage_slot (g_stage g2) ≠ Some n) →
  (rt_next (snd s) ≤ rt_next (snd s'))%nat →
  (∀ a cmd, cmd ∈ mailbox (snd s') a → points (<[t := g']> gs) a cmd) →
  (∀ a, NoDup (reply_slot <$> mailbox (snd s') a)) →
  g_todo g' = g_todo g ∨ (∃ req, g_todo g = req :: g_todo g') →
  (∀ key rs, logs' !! key = Some rs → ∃ rs0, blen rs ≤ blen rs0 + (reqs_weight (g_todo g) - reqs_weight (g_todo g')) ∧
     (logs !! key = Some rs0 ∨ rs0 = [])) →
  sim backlog (<[t := c']> conns) s' logs' (<[t := g']> gs).
Proof.
  intros [Hst Hlen Hconns Hqueue Hslots Hnames Hmail Hnd Hty Hwt Hroom] Hc Hg Hok Hstable Hst' Hslot Hnext Hmail' Hnd' Htodo Hlogs.
  assert (Hlt : (t < length gs)%nat) by (by eapply lookup_lt_Some).
  assert (Htw : 0 ≤ reqs_weight (g_todo g) - reqs_weight (g_todo g')).
  { destruct Htodo as [->|[req ->]]; [lia|]. rewrite reqs_weight_cons. pose proof (req_weight_nonneg req). lia. }
  pose proof (ghosts_weight_insert gs t g g' Hg) as Hgw. split.
  - exact Hst'.
  - by rewrite !length_insert.
  - intros t2 c2. rewrite list_lookup_insert_Some. intros [(<- & <- & _)|[Hne Hc2]].
    + exists g'. by rewrite list_lookup_insert_eq.
    + destruct (Hconns t2 c2 Hc2) as (g2 & Hg2 & Hok2). exists g2. rewrite list_lookup_insert_ne by exact Hne.
      split; [exact Hg2|]. eapply conn_ok_stable; [|exact Hok2]. by apply (Hstable t2).
  - intros i fr Hi. rewrite length_insert. destruct (Hqueue i fr Hi) as (g2 & Hg2 & Hq). exists g2.
    rewrite list_lookup_insert_ne; [done|]. apply lookup_lt_Some in Hc. lia.
  - intros t1 t2 g1 g2 n. rewrite !list_lookup_insert_Some.
    intros [(<- & <- & _)|[Hne1 H1']] [(<- & <- & _)|[Hne2 H2']] Hn1 Hn2; [done|..|by eapply Hslots].
    + destruct (Hslot n Hn1) as [_ Hfree]. by destruct (Hfree t2 g2 (not_eq_sym Hne2) H2').
    + destruct (Hslot n Hn2) as [_ Hfree]. by destruct (Hfree t1 g1 (not_eq_sym Hne1) H1').
  - intros t2 g2 n. rewrite list_lookup_insert_Some. intros [(<- & <- & _)|[Hne H2']] Hn; [by apply Hslot|].
    eapply Nat.lt_le_trans; [by eapply Hnames|exact Hnext].
  - exact Hmail'.
  - exact Hnd'.
  - apply Forall_insert; [exact Hty|]. rewrite Forall_lookup in Hty. pose proof (Hty t g Hg) as Hreq.
    destruct Htodo as [->|[req Heq]]; [exact Hreq|]. rewrite Heq in Hreq. by apply Forall_cons in Hreq as [_ ?].
  - lia.
  - intros key rs Hk. destruct (Hlogs key rs Hk) as (rs0 & Hle & [Hk0| ->]).
    + specialize (Hroom key rs0 Hk0). lia.
    + rewrite blen_nil in Hle. lia.
Qed.
End sim.
