(* ===== verification/BrokerSteps.v ===== *)
(** * Every move of the broker is simulated

    One move of a connection, of a partition task or of the accept loop keeps
    the simulation, takes at most one step of the atomic broker, and decreases
    the measure: how many polls are left. *)
From S2P Require Import Prelude Errors BytesCrate StdText Types Frame Request Response Tokio FileSystem BinarySearch Index Record Segment SegmentInv SegmentRead SegmentWrite SegmentLoad Partition Listing PartitionInv Isolation PartitionWrite PartitionRead PartitionOpen PartitionSpec Registry Handler Connection BrokerSpec BrokerHistory Layout BrokerStore BrokerTasks BrokerSim.
#[local] Open Scope Z_scope.

Section steps.
Context `{BytesLaws, !MpscOps, !MpscLaws, !OneshotOps, !OneshotLaws, !ErrorTexts, !FramedOps, !FramedLaws, !Usage}.
Implicit Types (req : Request) (rt : Runtime) (fr : framed) (s : Shared) (logs : gmap Key (list LogRecord)).

(** ** The measure *)
Definition stage_rank (st : stage) : nat :=
  match st with
  | SQueued => 6 | SLoop _ => 6 | STurn _ => 5 | SCreate _ => 4 | SSlot _ _ => 3 | SSend _ _ _ => 2
  | SWait _ _ _ None => 1 | SWait _ _ _ (Some _) => 7 | SClosed _ => 0
  end.
Definition ghost_measure (g : ghost) : nat := 10 * length (g_todo g) + stage_rank (g_stage g).
Definition measure (gs : list ghost) : nat := sum_list_with ghost_measure gs.

Lemma measure_insert (gs : list ghost) t g g' :
  gs !! t = Some g → (ghost_measure g' < ghost_measure g)%nat → (measure (<[t := g']> gs) < measure gs)%nat.
Proof.
  unfold measure. revert t. induction gs as [|h gs IH]; intros [|t] Hg Hlt; try done.
  - injection Hg as ->. cbn [insert list_insert sum_list_with]. lia.
  - change (<[S t := g']> (h :: gs)) with (h :: <[t := g']> gs). cbn [sum_list_with]. specialize (IH t Hg Hlt). lia.
Qed.

(** ** What a move achieves *)
Record simulated s logs (gs : list ghost) (sys' : System) : Prop := {
  sd_sim : ∃ logs' gs', sim (accepted (sy_backlog sys')) (sy_conns sys') (sy_shared sys') logs' gs' ∧
    rtc (atomic_step (rg_max_segment_bytes (fst s))) {| at_logs := logs; at_clients := client <$> gs |}
        {| at_logs := logs'; at_clients := client <$> gs' |} ∧
    (measure gs' < measure gs)%nat;
  sd_settings : settings (fst (sy_shared sys')) = settings (fst s)
}.

Lemma clients_insert (gs : list ghost) t g : client <$> <[t := g]> gs = <[t := client g]> (client <$> gs).
Proof. apply list_fmap_insert. Qed.
Lemma clients_same (gs : list ghost) t g g' :
  gs !! t = Some g → client g' = client g → client <$> <[t := g']> gs = client <$> gs.
Proof.
  intros Hg Hc. rewrite clients_insert, Hc. apply list_insert_id. by rewrite list_lookup_fmap, Hg.
Qed.

(** ** Steps that leave mailboxes and reply channels of others alone *)
Record grown s s' : Prop := {
  gr_settings : settings (fst s') = settings (fst s);
  gr_registered : ∀ key a, registered (fst s) key = Some a → registered (fst s') key = Some a;
  gr_next : (rt_next (snd s) ≤ rt_next (snd s'))%nat;
  gr_offsets : ∀ n, (n < rt_next (snd s))%nat → rt_offsets (snd s') !! n = rt_offsets (snd s) !! n;
  gr_records : ∀ n, (n < rt_next (snd s))%nat → rt_records (snd s') !! n = rt_records (snd s) !! n;
  gr_mailbox : ∀ a, mailbox (snd s') a = mailbox (snd s) a
}.

Lemma grown_refl s : grown s s.
Proof. by split. Qed.

Lemma grown_stable backlog conns s s' logs gs t g :
  sim backlog conns s logs gs → grown s s' → gs !! t = Some g → stable s s' (g_stage g).
Proof.
  intros Hsim [_ Hr _ Ho Hrec Hm] Hg. split.
  - exact Hr.
  - intros n Hn. apply Ho. by eapply (sm_names _ _ _ _ _ Hsim).
  - intros n Hn. apply Hrec. by eapply (sm_names _ _ _ _ _ Hsim).
  - intros fr a n cmd _. by rewrite Hm.
Qed.

(** A waiting connection is not polled, so the others' commands still point. *)
Lemma points_insert gs t g g' a cmd :
  gs !! t = Some g → (∀ fr a n, g_stage g ≠ SWait fr a n None) → points gs a cmd → points (<[t := g']> gs) a cmd.
Proof.
  intros Hg Hnot (t2 & g2 & req & rest & fr & Hg2 & Hst & Hrest). exists t2, g2, req, rest, fr.
  rewrite list_lookup_insert_ne; [done|]. intros <-. rewrite Hg in Hg2. injection Hg2 as <-. by eapply Hnot.
Qed.

Lemma sim_quiet backlog conns s logs gs t c g c' g' s' logs' :
  sim (accepted backlog) conns s logs gs → conns !! t = Some c → gs !! t = Some g → grown s s' →
  (∀ fr a n, g_stage g ≠ SWait fr a n None) →
  conn_ok s' (g_stage g') c' (g_todo g') (g_done g') → store_inv (fst s') (snd s') logs' →
  stage_slot (g_stage g') = None ∨
    (stage_slot (g_stage g') = Some (rt_next (snd s)) ∧ (rt_next (snd s) < rt_next (snd s'))%nat) →
  g_todo g' = g_todo g ∨ (∃ req, g_todo g = req :: g_todo g') →
  (∀ key rs, logs' !! key = Some rs → logs !! key = Some rs ∨ rs = []) →
  (ghost_measure g' < ghost_measure g)%nat →
  rtc (atomic_step (rg_max_segment_bytes (fst s))) {| at_logs := logs; at_clients := client <$> gs |}
      {| at_logs := logs'; at_clients := client <$> <[t := g']> gs |} →
  simulated s logs gs {| sy_backlog := backlog; sy_conns := <[t := c']> conns; sy_shared := s' |}.
Proof.
  intros Hsim Hc Hg Hgr Hnot Hok Hst Hslot Htodo Hlogs Hm Hat. split; [|apply Hgr].
  exists logs', (<[t := g']> gs). split; [|split; [exact Hat|by eapply measure_insert]].
  eapply (sim_update _ _ _ _ _ _ _ g); [exact Hsim|exact Hc|exact Hg|exact Hok| |exact Hst| |apply Hgr| | |exact Htodo|].
  - intros t2 g2 _ Hg2. by eapply grown_stable.
  - intros n Hn. destruct Hslot as [Hs|[Hs Hlt]]; [congruence|]. rewrite Hs in Hn. injection Hn as <-.
    split; [exact Hlt|]. intros t2 g2 _ Hg2 Hn2. pose proof (sm_names _ _ _ _ _ Hsim t2 g2 _ Hg2 Hn2). lia.
  - intros a cmd. rewrite (gr_mailbox _ _ Hgr). intros Hin. eapply points_insert; [exact Hg|exact Hnot|].
    by apply (sm_mail _ _ _ _ _ Hsim).
  - intros a. rewrite (gr_mailbox _ _ Hgr). apply Hsim.
  - intros key rs Hk. exists rs. split; [|by apply Hlogs].
    destruct Htodo as [->|[req ->]]; [lia|]. rewrite reqs_weight_cons. pose proof (req_weight_nonneg req). lia.
Qed.

(** ** Sending the response *)
Lemma respond_ok fr todo done resp :
  talking fr todo done → ∃ fr', respond fr resp = Ready (fr', true) ∧ talking fr' todo (done ++ [resp]).
Proof.
  intros [Hin Hout Hopen].
  destruct (framed_send_law fr (Response_into_frame resp) (wire (Response_into_frame resp)) Hopen)
    as (fr' & Hs & Hin' & Hout' & Hopen'); [apply Frame_encode_eq|].
  exists fr'. unfold respond. rewrite Hs. split; [done|]. split; [by rewrite Hin'| |exact Hopen'].
  rewrite Hout', Hout. unfold wires. rewrite fmap_app, fmap_app, concat_app. cbn. by rewrite app_nil_r.
Qed.

(** ** The first poll of a turn *)
Lemma turn_cases fr todo done :
  talking fr todo done →
  (todo = [] ∧ ∃ fr', connection_turn fr = Ready (fr', false) ∧ framed_out fr' = framed_out fr) ∨
  (∃ req rest fr', todo = req :: rest ∧ talking fr' rest done ∧
     connection_turn fr = handle_request req ≫= respond fr').
Proof.
  intros [Hin Hout Hopen]. inversion Hin as [b Hend|b f b' e Hd Hr|b f b' req reqs Hd Hr Hp]; subst.
  - left. split; [done|]. destruct (Frame_decode_cases (framed_in fr)) as [He|[(e & b' & He & _)|(f & pad & b' & He & _)]].
    + destruct (framed_next_end fr) as (r & fr' & Hn & Ho & Hnf); [unfold Codec_decode; by rewrite He|].
      exists fr'. split; [|exact Ho]. eapply turn_stop; [exact Hn|]. intros f ->. by destruct (Hnf f).
    + destruct (framed_next_error fr e b' He) as (fr' & Hn & Ho). exists fr'. split; [|exact Ho].
      eapply turn_stop; [exact Hn|]. done.
    + by destruct (Hend f b').
  - left. split; [done|]. destruct (framed_next_frame fr f b' Hd) as (fr' & Hn & _ & Ho & _). exists fr'.
    split; [|exact Ho]. eapply turn_stop; [exact Hn|]. intros f' [= <-]. by exists e.
  - right. destruct (framed_next_frame fr f b' Hd) as (fr' & Hn & Hi & Ho & Hop). exists req, reqs, fr'.
    split; [done|]. split; [|by eapply turn_request]. split; [by rewrite Hi|by rewrite Ho|by apply Hop].
Qed.

(** ** Moves of a connection, by program point *)
Section connection_moves.
Context (backlog : list AcceptResult) (conns : list Conn) (s : Shared) (logs : gmap Key (list LogRecord)) (gs : list ghost).
Context (t : nat) (c : Conn) (g : ghost).
Context (Hsim : sim (accepted backlog) conns s logs gs) (Hc : conns !! t = Some c) (Hg : gs !! t = Some g).
Context (Hok : conn_ok s (g_stage g) c (g_todo g) (g_done g)).
Context (c' : Conn) (s' : Shared) (Hpoll : poll_connection c s = Some (c', s')).
Local Abbreviation sys' := {| sy_backlog := backlog; sy_conns := <[t := c']> conns; sy_shared := s' |}.

Local Abbreviation move_to st := {| g_stage := st; g_todo := g_todo g; g_done := g_done g |}.

(** The client's requests and responses stay the same. *)
Lemma same_client st :
  rtc (atomic_step (rg_max_segment_bytes (fst s))) {| at_logs := logs; at_clients := client <$> gs |}
      {| at_logs := logs; at_clients := client <$> <[t := move_to st]> gs |}.
Proof using Hg. rewrite (clients_same gs t g) by done. reflexivity. Qed.

Lemma step_loop fr : g_stage g = SLoop fr → simulated s logs gs sys'.
Proof using All.
  intros Hs. rewrite Hs in Hok. destruct Hok as [-> Htk]. cbn in Hpoll. injection Hpoll as <- <-.
  eapply (sim_quiet _ _ _ _ _ _ _ g _ (move_to (STurn fr))); [exact Hsim|exact Hc|exact Hg|apply grown_refl| | |
    apply Hsim|by left|by left|by left| |apply same_client].
  - by rewrite Hs.
  - done.
  - unfold ghost_measure. rewrite Hs. cbn. lia.
Qed.

Lemma step_turn fr : g_stage g = STurn fr → simulated s logs gs sys'.
Proof using All.
  intros Hs. rewrite Hs in Hok. destruct Hok as [-> Htk].
  destruct (turn_cases fr _ _ Htk) as [(Htodo & fr' & Heq & Hout)|(req & rest & fr' & Htodo & Htk' & Heq)];
    rewrite Heq in Hpoll.
  { cbn in Hpoll. injection Hpoll as <- <-.
    eapply (sim_quiet _ _ _ _ _ _ _ g _ (move_to (SClosed fr'))); [exact Hsim|exact Hc|exact Hg|apply grown_refl| | |
      apply Hsim|by left|by left|by left| |apply same_client].
    - by rewrite Hs.
    - split; [done|]. split; [exact Htodo|]. cbn. rewrite Hout. apply Htk.
    - unfold ghost_measure. rewrite Hs. cbn. lia. }
  rewrite poll_lookup in Hpoll. injection Hpoll as <- <-.
  destruct (registered (fst s) (req_key req)) as [a|] eqn:Hreg; [|destruct (creates req) eqn:Hcr].
  - eapply (sim_quiet _ _ _ _ _ _ _ g _ (move_to (SSlot fr' a))); [exact Hsim|exact Hc|exact Hg|apply grown_refl| | |
      apply Hsim|by left|by left|by left| |apply same_client].
    + by rewrite Hs.
    + exists req, rest. done.
    + unfold ghost_measure. rewrite Hs. cbn. lia.
  - eapply (sim_quiet _ _ _ _ _ _ _ g _ (move_to (SCreate fr'))); [exact Hsim|exact Hc|exact Hg|apply grown_refl| | |
      apply Hsim|by left|by left|by left| |apply same_client].
    + by rewrite Hs.
    + exists req, rest. done.
    + unfold ghost_measure. rewrite Hs. cbn. lia.
  - set (resp := error_response req (PartitionNotFound (fst (req_key req)) (snd (req_key req)))). destruct (respond_ok fr' rest (g_done g) resp Htk') as (fr'' & -> & Htk'').
    eapply (sim_quiet _ _ _ _ _ _ _ g _ {| g_stage := SLoop fr''; g_todo := rest; g_done := g_done g ++ [resp] |});
      [exact Hsim|exact Hc|exact Hg|apply grown_refl| | |apply Hsim|by left|right; by exists req|by left| |].
    + by rewrite Hs.
    + done.
    + unfold ghost_measure. rewrite Hs, Htodo. cbn. lia.
    + rewrite clients_insert. apply rtc_once. eapply (AtServe _ {| at_logs := logs |} t req rest (g_done g)).
      * cbn. rewrite list_lookup_fmap, Hg. unfold client. cbn. by rewrite Htodo.
      * cbn. apply ServeMissing; [exact Hcr|]. destruct (logs !! req_key req) as [rs|] eqn:Hk; [|done].
        destruct (st_log _ _ _ (sm_store _ _ _ _ _ Hsim) _ _ Hk) as (a & _ & Ha & _). congruence.
Qed.

Lemma step_create fr : g_stage g = SCreate fr → simulated s logs gs sys'.
Proof using All.
  intros Hs. rewrite Hs in Hok. destruct Hok as (req & rest & Htodo & Htk & Hcr & ->).
  pose proof (sm_typed _ _ _ _ _ Hsim) as Hty. rewrite Forall_lookup in Hty. specialize (Hty t g Hg).
  rewrite Htodo in Hty. apply Forall_cons in Hty as [[Hpl Hid _ Hutf _] _].
  destruct s as [reg rt]. cbn [fst snd] in *.
  destruct (create_locked_ok reg rt logs (req_key req) (sm_store _ _ _ _ _ Hsim) Hpl Hid Hutf)
    as (a & reg' & rt' & Hcl & Hcreated & Hst').
  rewrite (poll_create req fr (reg, rt) a (reg', rt') Hcl) in Hpoll. injection Hpoll as <- <-.
  destruct Hcreated as [Hfound Hset Hkept Hoff Hrec Hnext Hmail].
  eapply (sim_quiet _ _ _ _ _ _ _ g _ (move_to (SSlot fr a)) _ _); [exact Hsim|exact Hc|exact Hg| | | |exact Hst'|by left|by left| | |].
  - split; cbn [fst snd]; [exact Hset|exact Hkept|exact Hnext|by intros n _; rewrite Hoff|by intros n _; rewrite Hrec|exact Hmail].
  - by rewrite Hs.
  - exists req, rest. done.
  - intros key rs. destruct (logs !! req_key req) as [rs0|]; [by left|].
    rewrite lookup_insert_Some. intros [[_ <-]|[_ Hk]]; [by right|by left].
  - unfold ghost_measure. rewrite Hs. cbn. lia.
  - rewrite (clients_same gs t g) by done. destruct (logs !! req_key req) as [rs0|] eqn:Hk; [reflexivity|].
    apply rtc_once. eapply (AtCreate _ {| at_logs := logs |} t req rest (g_done g)); cbn; [|exact Hcr|exact Hk].
    rewrite list_lookup_fmap, Hg. unfold client. cbn. by rewrite Htodo.
Qed.

Lemma step_slot fr a : g_stage g = SSlot fr a → simulated s logs gs sys'.
Proof using All.
  intros Hs. rewrite Hs in Hok. destruct Hok as (req & rest & Htodo & Htk & Hreg & ->).
  rewrite poll_slot in Hpoll. injection Hpoll as <- <-. set (n := rt_next (snd s)).
  assert (Hnext : rt_next (add_slot req (snd s)) = S n) by (by destruct req).
  assert (Hact : rt_actors (add_slot req (snd s)) = rt_actors (snd s)) by (by destruct req).
  eapply (sim_quiet _ _ _ _ _ _ _ g _ (move_to (SSend fr a n)) _ logs); [exact Hsim|exact Hc|exact Hg| | | | |right|by left|by left| |apply same_client].
  - split; cbn [fst snd]; [done|done|rewrite Hnext; unfold n; lia|..].
    + intros m Hm. destruct req; cbn; try done; rewrite lookup_insert_ne by (unfold n in *; lia); done.
    + intros m Hm. destruct req; cbn; try done; rewrite lookup_insert_ne by (unfold n in *; lia); done.
    + intros b. unfold mailbox. by rewrite Hact.
  - by rewrite Hs.
  - exists req, rest. do 4 (split; [done|]). destruct req; cbn; apply lookup_insert_eq.
  - eapply store_slots; [apply Hsim|exact Hact|by destruct req|cbn [snd]; rewrite Hnext; unfold n; lia].
  - cbn [g_stage stage_slot snd]. split; [done|]. rewrite Hnext. unfold n. lia.
  - unfold ghost_measure. rewrite Hs. cbn. lia.
Qed.

Lemma step_served fr a n rep : g_stage g = SWait fr a n (Some rep) → simulated s logs gs sys'.
Proof using All.
  intros Hs. rewrite Hs in Hok. destruct Hok as (req & sent & Hdone & Htk & -> & Hslot).
  rewrite (poll_wait req n fr s (Some rep) Hslot) in Hpoll. injection Hpoll as <- <-.
  destruct (respond_ok fr _ _ (response_to req rep) Htk) as (fr' & -> & Htk'). rewrite <- Hdone in Htk'.
  eapply (sim_quiet _ _ _ _ _ _ _ g _ (move_to (SLoop fr'))); [exact Hsim|exact Hc|exact Hg|apply grown_refl| | |
    apply Hsim|by left|by left|by left| |apply same_client].
  - by rewrite Hs.
  - done.
  - unfold ghost_measure. rewrite Hs. cbn. lia.
Qed.

(** Sending the command: it goes to the end of the mailbox. *)
Lemma step_send fr a n : g_stage g = SSend fr a n → simulated s logs gs sys'.
Proof using All.
  intros Hs. rewrite Hs in Hok. destruct Hok as (req & rest & Htodo & Htk & Hreg & -> & Hslot).
  destruct (store_lookup _ _ _ _ _ (sm_store _ _ _ _ _ Hsim) Hreg) as (rs & act & Hrs & Hact & Hown).
  rewrite (poll_send req a n fr s act Hact) in Hpoll.
  destruct (mpsc_send (command req n) (ac_rx act)) as [rx|] eqn:Hsend; [|done]. injection Hpoll as <- <-.
  assert (Hroom : blen (mpsc_buffer (ac_rx act)) < mpsc_capacity (ac_rx act)).
  { destruct (Z.lt_ge_cases (blen (mpsc_buffer (ac_rx act))) (mpsc_capacity (ac_rx act))) as [|Hge]; [done|].
    rewrite mpsc_send_full in Hsend by exact Hge. done. }
  destruct (mpsc_send_law (command req n) (ac_rx act) Hroom) as (rx' & Hs' & Hbuf & Hcap).
  rewrite Hsend in Hs'. injection Hs' as <-.
  assert (Hbox : ∀ b, mailbox (push (snd s) a act rx) b = mailbox (snd s) b ++ (if decide (b = a) then [command req n] else [])).
  { intros b. unfold mailbox, push. cbn [set_actors rt_actors]. destruct (decide (b = a)) as [->|Hne].
    - rewrite lookup_insert_eq, Hact. exact Hbuf.
    - rewrite lookup_insert_ne by congruence. by rewrite app_nil_r. }
  set (g' := move_to (SWait fr a n None)).
  assert (Hnot : ∀ fr a n, g_stage g ≠ SWait fr a n None) by (by rewrite Hs).
  split; [|done]. exists logs, (<[t := g']> gs). split; [|split; [apply same_client|]].
  2: { eapply measure_insert; [exact Hg|]. unfold ghost_measure. rewrite Hs. cbn. lia. }
  eapply (sim_update _ _ _ _ _ _ _ g); [exact Hsim|exact Hc|exact Hg| | | | |done| | |by left|].
  - exists req, rest. do 4 (split; [done|]). split; [destruct req; exact Hslot|]. cbn [snd]. rewrite Hbox, decide_True by done.
    apply elem_of_app. right. left.
  - intros t2 g2 Hne Hg2. split; [done|done|done|]. intros fr2 b m cmd _ Hin _. cbn [snd]. rewrite Hbox.
    apply elem_of_app. by left.
  - eapply store_mailbox; [apply Hsim|exact Hact|reflexivity|exact Hcap| |done|done].
    rewrite Hcap, Hbuf. len.
  - cbn [g' g_stage stage_slot snd]. intros m [= <-]. split.
    + eapply (sm_names _ _ _ _ _ Hsim t g); [exact Hg|]. by rewrite Hs.
    + intros t2 g2 Hne Hg2 Hn2. apply Hne. eapply (sm_slots _ _ _ _ _ Hsim t2 t g2 g n Hg2 Hg Hn2). by rewrite Hs.
  - intros b cmd. cbn [snd]. rewrite Hbox, elem_of_app. intros [Hin|Hin].
    { eapply points_insert; [exact Hg|exact Hnot|]. by apply (sm_mail _ _ _ _ _ Hsim). }
    case_decide as Hb; [|by apply elem_of_nil in Hin]. apply list_elem_of_singleton in Hin as ->. subst b.
    exists t, g', req, rest, fr. rewrite reply_slot_command, list_lookup_insert_eq by (by eapply lookup_lt_Some). done.
  - intros b. cbn [snd]. rewrite Hbox. case_decide as Hb; [|rewrite app_nil_r; apply Hsim]. subst b.
    rewrite fmap_app. apply NoDup_app. split; [apply Hsim|]. split; [|apply NoDup_singleton].
    intros m Hm. cbn. rewrite reply_slot_command. intros ->%list_elem_of_singleton.
    apply list_elem_of_fmap in Hm as (cmd & Hcmd & Hin).
    destruct (sm_mail _ _ _ _ _ Hsim a cmd Hin) as (t2 & g2 & req2 & rest2 & fr2 & Hg2 & Hst2 & _).
    assert (t2 = t) as ->.
    { eapply (sm_slots _ _ _ _ _ Hsim t2 t g2 g n Hg2 Hg); [by rewrite Hst2, Hcmd|by rewrite Hs]. }
    rewrite Hg in Hg2. injection Hg2 as <-. by eapply Hnot.
  - intros key r Hk. exists r. split; [cbn [g' g_todo]; lia|by left].
Qed.

Lemma connection_step : simulated s logs gs sys'.
Proof using All.
  assert (∃ st, g_stage g = st) as [st Hs] by eauto. pose proof Hok as Hok'. rewrite Hs in Hok'.
  destruct st as [|fr|fr|fr|fr a|fr a n|fr a n [rep|]|fr].
  - done.
  - by eapply step_loop.
  - by eapply step_turn.
  - by eapply step_create.
  - by eapply step_slot.
  - by eapply step_send.
  - by eapply step_served.
  - destruct Hok' as (req & rest & _ & _ & _ & Heq & Hslot & _).
    by rewrite Heq, (poll_wait req n fr s None Hslot) in Hpoll.
  - destruct Hok' as [Heq _]. by rewrite Heq in Hpoll.
Qed.
End connection_moves.

(** ** Accepting a connection *)
Lemma accept_step backlog conns s logs gs fr :
  sim (accepted (inl fr :: backlog)) conns s logs gs →
  simulated s logs gs {| sy_backlog := backlog; sy_conns := conns ++ [Running (connection_turn fr)]; sy_shared := s |}.
Proof.
  rewrite accepted_inl. intros Hsim. destruct (sm_queue _ _ _ _ _ Hsim 0%nat fr eq_refl) as (g & Hg & Hst & Hd & Htk).
  rewrite Nat.add_0_r in Hg. set (t := length conns) in *.
  set (g' := {| g_stage := STurn fr; g_todo := g_todo g; g_done := g_done g |}).
  assert (Hlt : (t < length gs)%nat) by (by eapply lookup_lt_Some).
  pose proof Hsim as [Hstore Hlen Hconns Hqueue Hslots Hnames Hmail Hnd Hty Hwt Hroom].
  assert (Hgw : ghosts_weight (<[t := g']> gs) = ghosts_weight gs)
    by (rewrite (ghosts_weight_insert gs t g g' Hg); cbn [g' g_todo]; lia).
  split; [|done]. exists logs, (<[t := g']> gs). split; [|split].
  - split; cbn [sy_backlog sy_conns sy_shared].
    + exact Hstore.
    + rewrite length_insert, length_app. cbn [length] in *. lia.
    + intros t2 c2. rewrite lookup_app_Some. intros [Hc2|[Hge Hc2]].
      * destruct (Hconns t2 c2 Hc2) as (g2 & Hg2 & Hok). exists g2. apply lookup_lt_Some in Hc2.
        rewrite list_lookup_insert_ne by lia. done.
      * apply list_lookup_singleton_Some in Hc2 as [Ht2 <-]. assert (t2 = t) as -> by (unfold t; lia).
        exists g'. rewrite list_lookup_insert_eq by done. split; [done|]. cbn. rewrite Hd. done.
    + intros i fr2 Hi. destruct (Hqueue (S i) fr2 Hi) as (g2 & Hg2 & Hq). exists g2. rewrite length_app. cbn [length].
      rewrite list_lookup_insert_ne by (unfold t; lia). split; [|exact Hq]. rewrite <- Hg2. f_equal. lia.
    + intros t1 t2 g1 g2 n. rewrite !list_lookup_insert_Some.
      intros [(<- & <- & _)|[_ H1']] [(<- & <- & _)|[_ H2']] Hn1 Hn2; [done|done|done|by eapply Hslots].
    + intros t2 g2 n. rewrite list_lookup_insert_Some. intros [(<- & <- & _)|[_ H2']] Hn; [done|by eapply Hnames].
    + intros a cmd Hin. eapply points_insert; [exact Hg|by rewrite Hst|by apply Hmail].
    + exact Hnd.
    + apply Forall_insert; [exact Hty|]. rewrite Forall_lookup in Hty. by apply (Hty t g).
    + by rewrite Hgw.
    + rewrite Hgw. exact Hroom.
  - rewrite (clients_same gs t g) by done. reflexivity.
  - eapply measure_insert; [exact Hg|]. unfold ghost_measure. rewrite Hst. cbn. lia.
Qed.

(** ** A partition task serves a command *)
Lemma ghosts_weight_ge (gs : list ghost) t g : gs !! t = Some g → reqs_weight (g_todo g) ≤ ghosts_weight gs.
Proof.
  revert t. induction gs as [|h gs IH]; intros [|t] Hg; try done; rewrite ghosts_weight_cons.
  - injection Hg as ->. pose proof (ghosts_weight_nonneg gs). lia.
  - specialize (IH t Hg). pose proof (reqs_weight_nonneg (g_todo h)). lia.
Qed.

(** The connection a command belongs to has been accepted. *)
Lemma sim_conn backlog conns s logs gs t g :
  sim backlog conns s logs gs → gs !! t = Some g → g_stage g ≠ SQueued →
  ∃ c, conns !! t = Some c ∧ conn_ok s (g_stage g) c (g_todo g) (g_done g).
Proof.
  intros Hsim Hg Hq. destruct (conns !! t) as [c|] eqn:Hc.
  { exists c. split; [done|]. destruct (sm_conns _ _ _ _ _ Hsim t c Hc) as (g2 & Hg2 & Hok). congruence. }
  apply lookup_ge_None in Hc. pose proof (lookup_lt_Some _ _ _ Hg) as Hlt. rewrite (sm_length _ _ _ _ _ Hsim) in Hlt.
  destruct (lookup_lt_is_Some_2 backlog (t - length conns)) as [fr Hfr]; [lia|].
  destruct (sm_queue _ _ _ _ _ Hsim _ fr Hfr) as (g2 & Hg2 & Hst & _).
  replace (length conns + (t - length conns))%nat with t in Hg2 by lia. congruence.
Qed.

(** The connection [t] waits for the command at the head of the mailbox of [a]. *)
Record waiting (conns : list Conn) s logs (gs : list ghost) (a : Sender) (act : Actor) (l : list BrokerCommand)
    (t : nat) (g : ghost) req (rest : list Request) fr (n : nat) (c : Conn) (rs : list LogRecord) : Prop := {
  wt_ghost : gs !! t = Some g;
  wt_stage : g_stage g = SWait fr a n None;
  wt_todo : g_todo g = req :: rest;
  wt_conn : conns !! t = Some c;
  wt_code : c = Running (wait_handler req n ≫= respond fr);
  wt_talking : talking fr rest (g_done g);
  wt_slot : slot_holds (snd s) req n None;
  wt_actor : rt_actors (snd s) !! a = Some act;
  wt_buffer : mpsc_buffer (ac_rx act) = command req n :: l;
  wt_registered : registered (fst s) (req_key req) = Some a;
  wt_log : logs !! req_key req = Some rs;
  wt_owns : owns (fst s) (req_key req) act (rt_world (snd s)) rs
}.

Lemma waiting_head backlog conns s logs gs a act cmd l :
  sim backlog conns s logs gs → rt_actors (snd s) !! a = Some act → mpsc_buffer (ac_rx act) = cmd :: l →
  ∃ t g req rest fr n c rs, waiting conns s logs gs a act l t g req rest fr n c rs.
Proof.
  intros Hsim Hact Hbuf.
  destruct (sm_mail _ _ _ _ _ Hsim a cmd) as (t & g & req & rest & fr & Hg & Hst & Htodo & Hcmd).
  { unfold mailbox. rewrite Hact, Hbuf. left. }
  destruct (sim_conn _ _ _ _ _ t g Hsim Hg) as (c & Hc & Hok); [by rewrite Hst|]. rewrite Hst in Hok.
  destruct Hok as (req' & rest' & Htodo' & Htk & Hreg & Hceq & Hslot & _).
  rewrite Htodo in Htodo'. injection Htodo' as <- <-.
  destruct (store_lookup _ _ _ _ _ (sm_store _ _ _ _ _ Hsim) Hreg) as (rs & act' & Hrs & Hact' & Hown).
  rewrite Hact in Hact'. injection Hact' as <-.
  exists t, g, req, rest, fr, (reply_slot cmd), c, rs. split; try done. by rewrite Hbuf, <- Hcmd.
Qed.

(** The task serves it: one step of the log, the reply is in the channel. *)
Lemma waiting_served backlog conns s logs gs a act l t g req rest fr n c rs :
  sim backlog conns s logs gs → waiting conns s logs gs a act l t g req rest fr n c rs →
  ∃ rep rs' rx p w rt', actor_turn a (snd s) = Some rt' ∧ mpsc_buffer rx = l ∧
    command_done (snd s) rt' a rx p w req n rep ∧
    spec_step (rg_max_segment_bytes (fst s)) 0 rs (req_op req) rep rs' ∧ blen rs' ≤ blen rs + req_weight req ∧
    owns (fst s) (req_key req) {| ac_rx := rx; ac_partition := p |} (rt_world rt') rs' ∧
    within (key_dir (fst s) (req_key req)) (rt_world rt') (rt_world (snd s)).
Proof.
  intros Hsim [Hg Hst Htodo Hc _ Htk Hslot Hact Hbuf Hreg Hrs Hown].
  pose proof (sm_typed _ _ _ _ _ Hsim) as Hty. rewrite Forall_lookup in Hty. specialize (Hty t g Hg).
  rewrite Htodo in Hty. apply Forall_cons in Hty as [[_ _ Hty _ Hper] _].
  pose proof (ghosts_weight_ge gs t g Hg) as Hge. rewrite Htodo, reqs_weight_cons in Hge.
  pose proof (reqs_weight_nonneg rest) as Hrest. pose proof (sm_room _ _ _ _ _ Hsim _ _ Hrs) as Hroom.
  destruct (exec_ok _ (ac_partition act) (rt_world (snd s)) 0 rs (req_op req) (ow_serving _ _ _ _ _ Hown) Hper Hty)
    as (rep & p & w & rs' & Hex & Hspec & Hsv' & Hsame & Hlen & Hwi).
  { unfold req_weight in Hge. lia. }
  destruct (actor_turn_ok (snd s) a act req n l rep p w Hact Hbuf Hex Hslot) as (rx & rt' & Ht & Hl & Hcap & Hdone).
  destruct Hown as [Hot Hoi Hod Hom _ Hoc Hob]. pose proof Hsame as (Hst1 & Hid1 & Hd1 & Hm1 & _).
  exists rep, rs', rx, p, w, rt'. split; [exact Ht|]. split; [exact Hl|]. split; [exact Hdone|].
  split; [rewrite <- Hom; exact Hspec|]. split; [exact Hlen|]. rewrite (cd_world _ _ _ _ _ _ _ _ _ Hdone).
  split; [|rewrite Hod in Hwi; exact Hwi].
  split; cbn; [congruence|congruence|congruence|congruence|exact Hsv'|congruence|].
  rewrite Hl. rewrite Hbuf in Hob. len.
Qed.

(** The mailboxes after the turn hold commands of other connections. *)
Lemma waiting_mail backlog conns s logs gs a act l t g req rest fr n c rs rt' rx p w rep :
  sim backlog conns s logs gs → waiting conns s logs gs a act l t g req rest fr n c rs →
  mpsc_buffer rx = l → command_done (snd s) rt' a rx p w req n rep →
  (∀ b, mailbox rt' b = if decide (b = a) then l else mailbox (snd s) b) ∧
  (∀ b cmd, cmd ∈ mailbox rt' b → cmd ∈ mailbox (snd s) b ∧ reply_slot cmd ≠ n).
Proof.
  intros Hsim [Hg Hst _ _ _ _ _ Hact Hbuf _ _ _] Hl [Hacts _ _ _ _ _].
  assert (Hbox : mailbox (snd s) a = command req n :: l) by (unfold mailbox; by rewrite Hact).
  assert (Hbox' : ∀ b, mailbox rt' b = if decide (b = a) then l else mailbox (snd s) b).
  { intros b. unfold mailbox. rewrite Hacts. case_decide as Hb; [subst b; by rewrite lookup_insert_eq|].
    by rewrite lookup_insert_ne. }
  split; [exact Hbox'|]. intros b cmd2. rewrite Hbox'. case_decide as Hb.
  - subst b. intros Hin. rewrite Hbox. split; [by right|]. intros Heq.
    pose proof (sm_nodup _ _ _ _ _ Hsim a) as Hnd. rewrite Hbox in Hnd. cbn in Hnd. rewrite reply_slot_command in Hnd.
    apply NoDup_cons in Hnd as [Hnot _]. apply Hnot. apply list_elem_of_fmap. by exists cmd2.
  - intros Hin. split; [exact Hin|]. intros Heq.
    destruct (sm_mail _ _ _ _ _ Hsim b cmd2 Hin) as (t2 & g2 & ? & ? & ? & Hg2 & Hst2 & _). rewrite Heq in Hst2.
    assert (t2 = t) as -> by (eapply (sm_slots _ _ _ _ _ Hsim t2 t g2 g n Hg2 Hg); [by rewrite Hst2|by rewrite Hst]).
    rewrite Hg in Hg2. injection Hg2 as <-. rewrite Hst in Hst2. by injection Hst2 as ? ?.
Qed.

(** The other connections do not notice. *)
Lemma waiting_stable backlog conns s logs gs a act l t g req rest fr n c rs rt' rx p w rep t2 g2 :
  sim backlog conns s logs gs → waiting conns s logs gs a act l t g req rest fr n c rs →
  mpsc_buffer rx = l → command_done (snd s) rt' a rx p w req n rep →
  t2 ≠ t → gs !! t2 = Some g2 → stable s (fst s, rt') (g_stage g2).
Proof.
  intros Hsim Hwt Hl Hcd Hne Hg2. destruct (waiting_mail _ _ _ _ _ _ _ _ _ _ _ _ _ _ _ _ _ _ _ _ _ Hsim Hwt Hl Hcd) as [Hbox' _].
  destruct Hwt as [Hg Hst _ _ _ _ _ Hact Hbuf _ _ _].
  assert (Hother : stage_slot (g_stage g2) ≠ Some n).
  { intros Hm. apply Hne. eapply (sm_slots _ _ _ _ _ Hsim t2 t g2 g n Hg2 Hg Hm). by rewrite Hst. }
  destruct Hcd as [_ _ _ _ Hoff Hrec]. split; cbn [fst snd].
  - done.
  - intros m Hm. apply Hoff. congruence.
  - intros m Hm. apply Hrec. congruence.
  - intros fr2 b m cmd Hst2 Hin Hm. rewrite Hbox'. case_decide as Hb; [|exact Hin]. subst b.
    unfold mailbox in Hin. rewrite Hact, Hbuf in Hin. apply elem_of_cons in Hin as [->|Hin]; [|exact Hin].
    rewrite reply_slot_command in Hm. subst m. by rewrite Hst2 in Hother.
Qed.

Lemma partition_step backlog conns s logs gs a rt' :
  sim (accepted backlog) conns s logs gs → actor_turn a (snd s) = Some rt' →
  simulated s logs gs {| sy_backlog := backlog; sy_conns := conns; sy_shared := (fst s, rt') |}.
Proof.
  intros Hsim Hturn.
  destruct (rt_actors (snd s) !! a) as [act|] eqn:Hact; [|unfold actor_turn in Hturn; by rewrite Hact in Hturn].
  destruct (mpsc_buffer (ac_rx act)) as [|cmd l] eqn:Hbuf.
  { unfold actor_turn in Hturn. rewrite Hact in Hturn. cbn in Hturn. by rewrite mpsc_recv_empty in Hturn. }
  destruct (waiting_head _ _ _ _ _ _ _ _ _ Hsim Hact Hbuf) as (t & g & req & rest & fr & n & c & rs & Hwt).
  destruct (waiting_served _ _ _ _ _ _ _ _ _ _ _ _ _ _ _ _ Hsim Hwt)
    as (rep & rs' & rx & p & w & rt2 & Ht2 & Hl & Hcd & Hspec & Hlen & Hown' & Hwi).
  rewrite Hturn in Ht2. injection Ht2 as <-.
  destruct (waiting_mail _ _ _ _ _ _ _ _ _ _ _ _ _ _ _ _ _ _ _ _ _ Hsim Hwt Hl Hcd) as [Hbox' Hfresh].
  pose proof Hwt as [Hg Hst Htodo Hc Hceq Htk Hslot _ _ Hreg Hrs _].
  set (g' := {| g_stage := SWait fr a n (Some rep); g_todo := rest; g_done := g_done g ++ [response_to req rep] |}).
  split; [|done]. exists (<[req_key req := rs']> logs), (<[t := g']> gs). split; [|split].
  - cbn [sy_backlog sy_conns sy_shared]. rewrite <- (list_insert_id conns t c Hc).
    eapply (sim_update _ _ s logs _ _ _ g); [exact Hsim|exact Hc|exact Hg| | | | | | | | |].
    + exists req, (g_done g). split; [done|]. split; [exact Htk|]. split; [exact Hceq|apply Hcd].
    + intros t2 g2 Hne Hg2. by eapply waiting_stable.
    + cbn [fst snd]. eapply store_serve; [apply Hsim|exact Hrs|exact Hreg|apply Hcd| |exact Hwi|exact Hown'].
      by rewrite (cd_next _ _ _ _ _ _ _ _ _ Hcd).
    + cbn [g' g_stage stage_slot fst snd]. intros m [= <-]. rewrite (cd_next _ _ _ _ _ _ _ _ _ Hcd). split.
      * eapply (sm_names _ _ _ _ _ Hsim t g); [exact Hg|by rewrite Hst].
      * intros t2 g2 Hne Hg2 Hn2. apply Hne. eapply (sm_slots _ _ _ _ _ Hsim t2 t g2 g n Hg2 Hg Hn2). by rewrite Hst.
    + cbn [snd]. by rewrite (cd_next _ _ _ _ _ _ _ _ _ Hcd).
    + cbn [snd]. intros b cmd2 [Hin Hne]%Hfresh.
      destruct (sm_mail _ _ _ _ _ Hsim b cmd2 Hin) as (t2 & g2 & req2 & rest2 & fr2 & Hg2 & Hst2 & Hrest2).
      exists t2, g2, req2, rest2, fr2. rewrite list_lookup_insert_ne; [done|]. intros <-.
      rewrite Hg in Hg2. injection Hg2 as <-. rewrite Hst in Hst2. injection Hst2 as _ _ Hn2. by apply Hne.
    + cbn [snd]. intros b. rewrite Hbox'. case_decide as Hb; [|apply Hsim]. subst b.
      pose proof (sm_nodup _ _ _ _ _ Hsim a) as Hnd. unfold mailbox in Hnd.
      rewrite (wt_actor _ _ _ _ _ _ _ _ _ _ _ _ _ _ _ Hwt), (wt_buffer _ _ _ _ _ _ _ _ _ _ _ _ _ _ _ Hwt) in Hnd.
      by apply NoDup_cons in Hnd as [_ ?].
    + right. by exists req.
    + cbn [g' g_todo]. rewrite Htodo, reqs_weight_cons. intros key r. rewrite lookup_insert_Some. intros [[<- <-]|[_ Hk]].
      * exists rs. split; [lia|by left].
      * exists r. split; [pose proof (req_weight_nonneg req); lia|by left].
  - rewrite clients_insert. apply rtc_once.
    eapply (AtServe _ {| at_logs := logs |} t req rest (g_done g)).
    + cbn. rewrite list_lookup_fmap, Hg. unfold client. cbn. by rewrite Htodo.
    + cbn. by eapply ServeLog.
  - eapply measure_insert; [exact Hg|]. unfold ghost_measure. rewrite Hst, Htodo. cbn. lia.
Qed.

(** ** Every move *)

(** A move is simulated, or it is a failed accept. *)
Lemma sim_step m sys sys' logs gs :
  sim (accepted (sy_backlog sys)) (sy_conns sys) (sy_shared sys) logs gs → do_move m sys = Some sys' →
  simulated (sy_shared sys) logs gs sys' ∨
  ∃ e rest, sy_backlog sys = inr e :: rest ∧
    sys' = {| sy_backlog := rest; sy_conns := sy_conns sys; sy_shared := sy_shared sys |}.
Proof.
  destruct sys as [backlog conns s]. cbn [sy_backlog sy_conns sy_shared]. intros Hsim. destruct m as [|t|a]; cbn.
  - destruct backlog as [|[fr|e] rest]; [done| |]; intros [= <-]; [left; by apply accept_step|right; by exists e, rest].
  - destruct (conns !! t) as [c|] eqn:Hc; [|done]. cbn.
    destruct (poll_connection c s) as [[c' s']|] eqn:Hp; [|done]. cbn. intros [= <-]. left.
    destruct (sm_conns _ _ _ _ _ Hsim t c Hc) as (g & Hg & Hok).
    exact (connection_step _ _ _ _ _ _ _ _ Hsim Hc Hg Hok _ _ Hp).
  - destruct (actor_turn a (snd s)) as [rt'|] eqn:Ht; [|done]. cbn. intros [= <-]. left. by apply (partition_step _ _ _ _ _ a).
Qed.

(** Only the accept loop changes the backlog. *)
Lemma refused_move m sys sys' : do_move m sys = Some sys' → (refused (sy_backlog sys') ≤ refused (sy_backlog sys))%nat.
Proof.
  destruct sys as [backlog conns s]. destruct m as [|t|a]; cbn [do_move sy_backlog sy_conns sy_shared].
  - destruct backlog as [|[fr|e] rest]; [done| |]; intros [= <-]; cbn [sy_backlog]; unfold refused; rewrite ?accepted_inl, ?accepted_inr; cbn [length]; lia.
  - destruct (conns !! t) as [c|]; [|done]. cbn. destruct (poll_connection c s) as [[? ?]|]; [|done]. by intros [= <-].
  - destruct (actor_turn a (snd s)); [|done]. by intros [= <-].
Qed.
End steps.
