(* ===== verification/BrokerStart.v ===== *)
(** * Starting the broker, and what clients' bytes ask for

    [launch]: what a broker is started with, a data directory that holds some
    logs and clients whose bytes ask for requests; the simulation holds when it
    has loaded its registry ([start_sim]). Whatever bytes a client sends ask for one sequence of requests, and each of
    them has the types and sizes the storage layer relies on. *)
From S2P Require Import Prelude Errors BytesCrate StdText Types Frame Request Response Tokio FileSystem BinarySearch Index Record Segment SegmentInv SegmentRead SegmentWrite SegmentLoad Partition Listing PartitionInv Isolation PartitionWrite PartitionRead PartitionOpen PartitionSpec Registry Handler Connection BrokerSpec BrokerHistory Layout BrokerStore DataDir BrokerTasks BrokerSim BrokerSteps.
#[local] Open Scope Z_scope.

(** ** Requests read from bytes *)
Section requests.
Context `{BytesLaws}.

(** Every stream of bytes asks for some sequence of requests. *)
Lemma parsed_total b : ∃ reqs, parsed b reqs.
Proof.
  remember (length b) as k eqn:Hk. revert b Hk. induction (lt_wf k) as [k _ IH]. intros b ->.
  destruct (Frame_decode_cases b) as [He|[(e & b' & He & _)|(f & pad & b' & He & _ & Hb)]].
  - exists []. apply ParsedEnd. intros f b'. unfold Codec_decode. by rewrite He.
  - exists []. apply ParsedEnd. intros f b2. unfold Codec_decode. by rewrite He.
  - destruct (Request_from_frame f) as [req|e| |] eqn:Hr.
    + destruct (IH (length b')) with b' as [reqs Hp]; [|done|].
      { rewrite Hb, !length_app, length_be_bytes. lia. }
      exists (req :: reqs). by eapply ParsedRequest.
    + exists []. by eapply ParsedBad.
    + exfalso. set (g := {| f_magic := MAGIC_BYTE; f_api_key := f_api_key f; f_correlation_id := f_correlation_id f;
        f_topic := f_topic f; f_partition := f_partition f; f_payload := f_payload f |}).
      change (Request_from_frame f) with (Request_from_frame g) in Hr.
      destruct (Request_from_frame_cases g eq_refl) as [[e ?]|(r & ? & _)]; congruence.
    + exfalso. set (g := {| f_magic := MAGIC_BYTE; f_api_key := f_api_key f; f_correlation_id := f_correlation_id f;
        f_topic := f_topic f; f_partition := f_partition f; f_payload := f_payload f |}).
      change (Request_from_frame f) with (Request_from_frame g) in Hr.
      destruct (Request_from_frame_cases g eq_refl) as [[e ?]|(r & ? & _)]; congruence.
Qed.

Lemma parsed_unique b r1 r2 : parsed b r1 → parsed b r2 → r1 = r2.
Proof.
  intros H1'. revert r2. induction H1' as [b Hend|b f b' e Hd Hr|b f b' req reqs Hd Hr Hp IH]; intros r2 H2';
    inversion H2' as [? Hend2|? f2 b2 e2 Hd2 Hr2|? f2 b2 req2 reqs2 Hd2 Hr2 Hp2]; subst; try done;
    try (by destruct (Hend f2 b2)); try (by destruct (Hend2 f b')); rewrite Hd in Hd2; injection Hd2 as <- <-; try congruence.
  rewrite Hr in Hr2. injection Hr2 as <-. f_equal. by apply IH.
Qed.

(** A request on the wire, and a list of them. *)
Lemma parsed_wire_cons req b reqs :
  sendable (Request_into_frame req) → Request_typed req → parsed (wire (Request_into_frame req) ++ b) reqs →
  ∃ reqs', reqs = req :: reqs' ∧ parsed b reqs'.
Proof.
  intros Hs Hty Hp. pose proof (Frame_decode_wire _ b Hs : Codec_decode _ = _) as Hd. pose proof (Request_from_into_frame req Hty) as Hr.
  inversion Hp as [? Hend|? f2 b2 e2 Hd2 Hr2|? f2 b2 req2 reqs2 Hd2 Hr2 Hp2]; subst.
  - by destruct (Hend _ _ Hd).
  - rewrite Hd in Hd2. injection Hd2 as <- <-. congruence.
  - rewrite Hd in Hd2. injection Hd2 as <- <-. rewrite Hr in Hr2. injection Hr2 as <-. by exists reqs2.
Qed.

Lemma parsed_wires r :
  Forall (λ req, sendable (Request_into_frame req) ∧ Request_typed req) r → parsed (wires (Request_into_frame <$> r)) r.
Proof.
  induction 1 as [|req r [Hs Hty] _ IH]; [by apply ParsedEnd|].
  eapply ParsedRequest; [|by apply Request_from_into_frame|exact IH].
  cbn [fmap list_fmap]. change (wires (Request_into_frame req :: ?fs)) with (wire (Request_into_frame req) ++ wires fs).
  by apply Frame_decode_wire.
Qed.

Lemma batch_item_small ps p : p ∈ ps → blen p ≤ blen (batch_items ps).
Proof.
  induction ps as [|q ps IH]; [by intros ?%elem_of_nil|]. rewrite batch_items_cons.
  intros [->|Hin]%elem_of_cons; [len|]. specialize (IH Hin). len.
Qed.

(** A request from the wire has its Rust types, and its payloads fit the record
    format. *)
Lemma frame_request_typed f req :
  sendable f → Request_from_frame f = Ok req →
  is_u32 (req_cid req) ∧ is_u32 (snd (req_key req)) ∧ utf8_valid (fst (req_key req)) = true ∧
  fst (req_key req) ≠ [] ∧ blen (fst (req_key req)) ≤ 255 ∧ Request_typed req ∧ op_typed (req_op req).
Proof.
  intros ((Hmg & Hcid & Hpart & Hutf) & Hm & Htopic & Htl & Hbl) Hr.
  destruct (Request_from_frame_cases f Hm) as [[e He]|(r & Hr' & Ht & Hf)]; [congruence|].
  rewrite Hr in Hr'. injection Hr' as <-.
  assert (Hpl : blen (f_payload f) ≤ MAX_FRAME_SIZE) by (unfold body_len in Hbl; len). unfold MAX_FRAME_SIZE in Hpl.
  assert (Hne : f_topic f ≠ []).
  { intros He. specialize (Htopic He). unfold Request_from_frame in Hr. by rewrite Htopic in Hr. }
  destruct req as [r|r|r]; subst f; cbn in *; do 6 (split; [done|]).
  - unfold storable, record_len. cbn. lia.
  - destruct Ht as [Hn Hps]. apply Forall_forall. intros p Hp. apply batch_item_small in Hp.
    assert (Hpay := ProduceBatchRequest_payload r (conj Hn Hps)). unfold ProduceBatchRequest_into_frame in Hpay.
    cbn [f_payload] in Hpay. rewrite Hpay in Hpl. unfold small_payload, psize, record_len. cbn. len.
  - by destruct Ht.
Qed.

Lemma parsed_typed `{!Usage} b reqs :
  parsed b reqs → Forall (λ req, plain_topic (fst (req_key req))) reqs →
  Forall (λ req, permits (usage (req_key req)) (req_op req) = true) reqs → Forall request_ok reqs.
Proof.
  induction 1 as [|? f|b f b' req reqs Hd Hr Hp IH]; intros Hpl Hper; [constructor..|].
  apply Forall_cons in Hpl as [Hreq Hpl], Hper as [Hreqp Hper]. constructor; [|by apply IH].
  destruct (Frame_decode_cases b) as [He|[(e & b2 & He & _)|(f2 & pad & b2 & He & Hs & _)]];
    unfold Codec_decode in Hd; rewrite He in Hd; [done|done|]. injection Hd as -> ->.
  destruct (frame_request_typed f req Hs Hr) as (_ & Hid & Hu & _ & _ & _ & Hop). by split.
Qed.
End requests.

(** ** Start-up *)
Section startup.
Context `{BytesLaws, !MpscOps, !MpscLaws, !OneshotOps, !OneshotLaws, !ErrorTexts, !FramedOps, !FramedLaws}.

Definition queued (reqs : list Request) : ghost := {| g_stage := SQueued; g_todo := reqs; g_done := [] |}.

Lemma queued_weight logs reqs :
  ghosts_weight (queued <$> reqs) = clients_weight (at_clients (atomic_init logs reqs)).
Proof. cbn [atomic_init at_clients]. induction reqs as [|r reqs IH]; [reflexivity|]. rewrite !fmap_cons, ghosts_weight_cons, IH. reflexivity. Qed.

Lemma queued_lookup (reqs : list (list Request)) t g :
  (queued <$> reqs) !! t = Some g → ∃ r, reqs !! t = Some r ∧ g = queued r.
Proof. rewrite list_lookup_fmap. destruct (reqs !! t) as [r|]; [|done]. intros [= <-]. by exists r. Qed.

(** No connection is accepted yet. *)
Lemma queued_sim `{!Usage} reg rt logs backlog reqs :
  store_inv reg rt logs → (∀ a, mailbox rt a = []) →
  Forall2 (λ fr r, talking fr r []) backlog reqs → Forall (Forall request_ok) reqs →
  clients_weight (at_clients (atomic_init logs reqs)) < 2 ^ 64 →
  (∀ key rs, logs !! key = Some rs → blen rs + clients_weight (at_clients (atomic_init logs reqs)) < 2 ^ 64) →
  sim backlog [] (reg, rt) logs (queued <$> reqs).
Proof.
  intros Hst Hmail Htk Hok Hwt Hroom. split.
  - exact Hst.
  - rewrite length_fmap. cbn. symmetry. by eapply Forall2_length.
  - intros t c. by rewrite lookup_nil.
  - intros i fr Hi. destruct (Forall2_lookup_l _ _ _ _ _ Htk Hi) as (r & Hr & Ht). exists (queued r).
    rewrite list_lookup_fmap. cbn [length Nat.add]. rewrite Hr. by split.
  - intros t1 t2 g1 g2 n (r & _ & ->)%queued_lookup _ Hn. done.
  - intros t g n (r & _ & ->)%queued_lookup Hn. done.
  - intros a cmd. cbn [snd]. rewrite Hmail. by intros ?%elem_of_nil.
  - intros a. cbn [snd]. rewrite Hmail. constructor.
  - apply Forall_fmap. exact Hok.
  - rewrite (queued_weight logs). exact Hwt.
  - intros key rs Hk. rewrite (queued_weight logs). by apply (Hroom key).
Qed.

(** ** What a broker is started with *)

(** All requests to the partition produce, or all fetch. *)
Definition one_way (reqs : list (list Request)) (key : Key) : Prop :=
  ∃ b : bool, Forall (Forall (λ req, req_key req = key → creates req = b)) reqs.

(** The clients' bytes ask for [reqs]; the offsets do not run out; and a
    partition that the broker finds on the disk is either produced to or fetched
    from (a partition it creates may be used in any way). *)
Record clients_ok (logs : gmap Key (list LogRecord)) (backlog : list AcceptResult) (reqs : list (list Request)) : Prop := {
  cl_talking : Forall2 (λ fr r, talking fr r []) (accepted backlog) reqs;
  cl_plain : Forall (Forall (λ req, plain_topic (fst (req_key req)))) reqs;
  cl_weight : clients_weight (at_clients (atomic_init logs reqs)) < 2 ^ 64;
  cl_room : ∀ key rs, logs !! key = Some rs → blen rs + clients_weight (at_clients (atomic_init logs reqs)) < 2 ^ 64;
  cl_one_way : ∀ key rs, logs !! key = Some rs → one_way reqs key
}.

(** A data directory with the logs [logs], a usable configuration, and clients. *)
Record launch (config : Config.BrokerConfig) (w : World) (logs : gmap Key (list LogRecord))
    (backlog : list AcceptResult) (reqs : list (list Request)) : Prop := {
  la_healthy : healthy w;
  la_base : data_dir (join [] (Config.data_dir config)) (Config.segment_max_bytes config) logs w;
  la_max : 0 ≤ Config.segment_max_bytes config ≤ 2 ^ 63;
  la_capacity : 0 < Config.channel_capacity config ≤ MAX_PERMITS;
  la_clients : clients_ok logs backlog reqs
}.

(** How these clients use the partitions. *)
Definition usage_of (logs : gmap Key (list LogRecord)) (reqs : list (list Request)) : Usage := λ key,
  match logs !! key with
  | None => AnyUse
  | Some _ => if existsb (existsb (λ req, bool_decide (req_key req = key) && creates req)) reqs then AppendOnly else ReadOnly
  end.

Lemma usage_permits logs reqs :
  (∀ key rs, logs !! key = Some rs → one_way reqs key) →
  Forall (Forall (λ req, permits (usage_of logs reqs (req_key req)) (req_op req) = true)) reqs.
Proof.
  intros Hway. apply Forall_lookup. intros t r Hr. apply Forall_lookup. intros i req Hi. unfold usage_of.
  destruct (logs !! req_key req) as [rs|] eqn:Hk; [|done]. destruct (Hway _ rs Hk) as [b Hb].
  assert (Hall : ∀ t r i req', reqs !! t = Some r → r !! i = Some req' → req_key req' = req_key req → creates req' = b).
  { intros t' r' i' req' Hr' Hi'. rewrite Forall_lookup in Hb. specialize (Hb t' r' Hr'). rewrite Forall_lookup in Hb. by apply (Hb i'). }
  pose proof (Hall t r i req Hr Hi eq_refl) as Hreq. destruct (existsb _ reqs) eqn:He.
  - apply existsb_exists in He as (r' & Hr'%list_elem_of_In & He). apply existsb_exists in He as (req' & Hi'%list_elem_of_In & He).
    apply andb_true_iff in He as [Hkey%bool_decide_eq_true Hcr].
    apply list_elem_of_lookup in Hr' as [t' Hr'], Hi' as [i' Hi']. rewrite (Hall t' r' i' req' Hr' Hi' Hkey) in Hcr.
    subst b. by destruct req.
  - destruct (creates req) eqn:Hcr; [|by destruct req]. exfalso. apply not_true_iff_false in He. apply He.
    apply existsb_exists. exists r. split; [by eapply list_elem_of_In, list_elem_of_lookup_2|].
    apply existsb_exists. exists req. split; [by eapply list_elem_of_In, list_elem_of_lookup_2|].
    by rewrite bool_decide_eq_true_2, Hcr.
Qed.

Lemma usage_found logs reqs key rs : logs !! key = Some rs → usage_of logs reqs key ≠ AnyUse.
Proof. intros Hk. unfold usage_of. rewrite Hk. by destruct (existsb _ reqs). Qed.

Lemma clients_requests logs backlog reqs :
  clients_ok logs backlog reqs → Forall (Forall (@request_ok (usage_of logs reqs))) reqs.
Proof.
  intros [Hcl Hp _ _ Hway]. apply Forall_lookup. intros t r Hr. rewrite Forall_lookup in Hp.
  pose proof (usage_permits logs reqs Hway) as Hper. rewrite Forall_lookup in Hper.
  destruct (Forall2_lookup_r _ _ _ _ _ Hcl Hr) as (fr & _ & [Hin _ _]). eapply parsed_typed; [exact Hin|by eapply Hp|by eapply Hper].
Qed.

Lemma start_sim config w logs backlog reqs :
  launch config w logs backlog reqs →
  ∃ (U : Usage) reg rt, start config (inl backlog) w = Ok {| sy_backlog := backlog; sy_conns := []; sy_shared := (reg, rt) |} ∧
    settings reg = TopicRegistry_new (join [] (Config.data_dir config)) (Config.segment_max_bytes config)
      (Config.default_partitions config) (Config.sync_level config) (Config.channel_capacity config) ∧
    sim (accepted backlog) [] (reg, rt) logs (queued <$> reqs).
Proof.
  intros [Hw Hbase Hmax Hcap Hcl]. exists (usage_of logs reqs).
  destruct (load_data_dir _ _ (Config.default_partitions config) (Config.sync_level config)
    (Config.channel_capacity config) logs w Hw Hmax Hcap Hbase (usage_found logs reqs)) as (reg & rt & Hload & Hset & Hst & Hmail).
  exists reg, rt. unfold start. rewrite Hload. split; [reflexivity|]. split; [exact Hset|].
  apply queued_sim; [exact Hst|exact Hmail|apply Hcl|by eapply clients_requests|apply Hcl|apply Hcl].
Qed.
End startup.
