(* ===== verification/BrokerRun.v ===== *)
(** * Whole runs of the broker

    A run from start-up is simulated move by move and has at most as many moves
    as the initial measure. Unless every client has been answered some task can
    move: nothing waits for ever. *)
From S2P Require Import Prelude Errors BytesCrate StdText Types Frame Request Response Tokio FileSystem BinarySearch Index Record Segment SegmentInv SegmentRead SegmentWrite SegmentLoad Partition Listing PartitionInv Isolation PartitionWrite PartitionRead PartitionOpen PartitionSpec Registry Handler Connection BrokerSpec BrokerHistory Layout BrokerStore DataDir BrokerTasks BrokerSim BrokerSteps BrokerStart.
#[local] Open Scope Z_scope.

Section run.
Context `{BytesLaws, !MpscOps, !MpscLaws, !OneshotOps, !OneshotLaws, !ErrorTexts, !FramedOps, !FramedLaws, !Usage}.
Implicit Types (req : Request) (rt : Runtime) (fr : framed) (s : Shared) (logs : gmap Key (list LogRecord)) (sys : System).

(** ** The state between moves *)

(** [sys], a broker with the settings [cfg], is simulated by [st]; [left] moves
    can follow at most. *)
Definition simulates (cfg : TopicRegistry) (left : nat) sys (st : Atomic) : Prop :=
  ∃ gs, sim (accepted (sy_backlog sys)) (sy_conns sys) (sy_shared sys) (at_logs st) gs ∧ at_clients st = client <$> gs ∧
    settings (fst (sy_shared sys)) = cfg ∧ (measure gs + refused (sy_backlog sys) ≤ left)%nat.

Lemma simulates_move cfg left sys st m sys' :
  simulates cfg left sys st → do_move m sys = Some sys' →
  ∃ left' st', (left' < left)%nat ∧ simulates cfg left' sys' st' ∧ rtc (atomic_step (rg_max_segment_bytes cfg)) st st'.
Proof.
  intros (gs & Hsim & Hcl & Hset & Hm) Hmv.
  destruct (sim_step _ _ _ _ _ Hsim Hmv) as [[(logs' & gs' & Hsim' & Hat & Hlt) Hset']|(e & rest & Hb & ->)].
  - pose proof (refused_move _ _ _ Hmv) as Href.
    exists (measure gs' + refused (sy_backlog sys'))%nat, {| at_logs := logs'; at_clients := client <$> gs' |}.
    split; [lia|]. split.
    + exists gs'. split; [exact Hsim'|]. split; [done|]. split; [congruence|done].
    + apply (f_equal rg_max_segment_bytes) in Hset. cbn in Hset. rewrite Hset, <- Hcl in Hat. by destruct st.
  - exists (measure gs + refused rest)%nat, st. rewrite Hb in Hsim, Hm. unfold refused in Hm |- *. rewrite accepted_inr in Hm. cbn [length] in Hm. pose proof (accepted_length rest). split; [lia|].
    split; [|reflexivity]. exists gs. split; [exact Hsim|]. split; [exact Hcl|]. split; [exact Hset|done].
Qed.

Lemma simulates_run cfg ms left sys st sys' :
  simulates cfg left sys st → run ms sys = Some sys' →
  ∃ left' st', (left' + length ms ≤ left)%nat ∧ simulates cfg left' sys' st' ∧
    rtc (atomic_step (rg_max_segment_bytes cfg)) st st'.
Proof.
  revert left sys st. induction ms as [|m ms IH]; intros left sys st Hs; cbn [run].
  - intros [= <-]. exists left, st. split; [cbn; lia|]. split; [exact Hs|reflexivity].
  - destruct (do_move m sys) as [sys1|] eqn:Hm; [|done]. cbn. intros Hr.
    destruct (simulates_move _ _ _ _ _ _ Hs Hm) as (left1 & st1 & Hlt1 & Hs1 & Hat1).
    destruct (IH _ _ _ Hs1 Hr) as (left2 & st2 & Hlt2 & Hs2 & Hat2). exists left2, st2.
    split; [cbn; lia|]. split; [exact Hs2|by etrans].
Qed.

(** ** Progress *)

(** A partition task with a command in its mailbox can run. *)
Lemma actor_progress backlog conns s logs gs a act cmd l :
  sim backlog conns s logs gs → rt_actors (snd s) !! a = Some act → mpsc_buffer (ac_rx act) = cmd :: l →
  is_Some (actor_turn a (snd s)).
Proof.
  intros Hsim Hact Hbuf.
  destruct (waiting_head _ _ _ _ _ _ _ _ _ Hsim Hact Hbuf) as (t & g & req & rest & fr & n & c & rs & Hwt).
  destruct (waiting_served _ _ _ _ _ _ _ _ _ _ _ _ _ _ _ _ Hsim Hwt) as (? & ? & ? & ? & ? & rt' & Ht & _). by exists rt'.
Qed.

(** A connection that is not closed can run, or a partition task can. *)
Lemma connection_progress backlog conns s logs gs t c g :
  sim backlog conns s logs gs → conns !! t = Some c → gs !! t = Some g →
  (∃ fr, g_stage g = SClosed fr) ∨ is_Some (poll_connection c s) ∨ ∃ a, is_Some (actor_turn a (snd s)).
Proof.
  intros Hsim Hc Hg. destruct (sm_conns _ _ _ _ _ Hsim t c Hc) as (g2 & Hg2 & Hok).
  rewrite Hg in Hg2. injection Hg2 as <-.
  destruct (g_stage g) as [|fr|fr|fr|fr a|fr a n|fr a n [rep|]|fr]; cbn [conn_ok] in Hok.
  - done.
  - destruct Hok as [-> _]. right. left. by eexists.
  - destruct Hok as [-> Htk]. right. left.
    destruct (turn_cases fr _ _ Htk) as [(_ & fr' & -> & _)|(req & rest & fr' & _ & _ & ->)]; [by eexists|].
    rewrite poll_lookup. by eexists.
  - destruct Hok as (req & rest & Htodo & _ & _ & ->). right. left.
    pose proof (sm_typed _ _ _ _ _ Hsim) as Hty. rewrite Forall_lookup in Hty. specialize (Hty t g Hg).
    rewrite Htodo in Hty. apply Forall_cons in Hty as [[Hpl Hid _ Hutf _] _]. destruct s as [reg rt].
    destruct (create_locked_ok reg rt logs (req_key req) (sm_store _ _ _ _ _ Hsim) Hpl Hid Hutf) as (a & reg' & rt' & Hcl & _).
    rewrite (poll_create req fr _ a _ Hcl). by eexists.
  - destruct Hok as (req & rest & _ & _ & _ & ->). right. left. rewrite poll_slot. by eexists.
  - destruct Hok as (req & rest & _ & _ & Hreg & -> & _). right.
    destruct (store_lookup _ _ _ _ _ (sm_store _ _ _ _ _ Hsim) Hreg) as (rs & act & _ & Hact & Hown).
    destruct (mpsc_buffer (ac_rx act)) as [|cmd l] eqn:Hb; [left|right; exists a; by eapply actor_progress].
    rewrite (poll_send req a n fr s act Hact). pose proof (st_config _ _ _ (sm_store _ _ _ _ _ Hsim)) as [_ Hcap].
    destruct (mpsc_send_law (command req n) (ac_rx act)) as (rx & -> & _); [|by eexists].
    rewrite (ow_capacity _ _ _ _ _ Hown), Hb, blen_nil. lia.
  - destruct Hok as (req & sent & _ & _ & -> & Hslot). right. left. rewrite (poll_wait req n fr s _ Hslot). by eexists.
  - destruct Hok as (req & rest & _ & _ & _ & _ & _ & Hin). right. right. exists a. unfold mailbox in Hin.
    destruct (rt_actors (snd s) !! a) as [act|] eqn:Hact; [|by apply elem_of_nil in Hin].
    destruct (mpsc_buffer (ac_rx act)) as [|cmd l] eqn:Hb; [by apply elem_of_nil in Hin|by eapply actor_progress].
  - left. by exists fr.
Qed.

(** Every client has its responses and its connection is closed. *)
Definition answered sys (st : Atomic) : Prop :=
  ∀ t todo done, at_clients st !! t = Some (todo, done) → todo = [] ∧
    ∃ fr, sy_conns sys !! t = Some (Closed fr) ∧ framed_out fr = wires (Response_into_frame <$> done).

Definition is_closed (g : ghost) : bool := match g_stage g with SClosed _ => true | _ => false end.

Lemma all_closed conns s logs gs :
  sim [] conns s logs gs → forallb is_closed gs = true →
  answered {| sy_backlog := []; sy_conns := conns; sy_shared := s |} {| at_logs := logs; at_clients := client <$> gs |}.
Proof.
  intros Hsim Hcl t todo sent Ht. cbn [at_clients sy_conns] in *. rewrite list_lookup_fmap in Ht.
  destruct (gs !! t) as [g|] eqn:Hg; [|by inversion Ht]. injection Ht as <- <-.
  rewrite forallb_forall in Hcl. specialize (Hcl g). rewrite <- list_elem_of_In in Hcl.
  specialize (Hcl (list_elem_of_lookup_2 _ _ _ Hg)). unfold is_closed in Hcl.
  destruct (sim_conn _ _ _ _ _ t g Hsim Hg) as (c & Hc & Hok); [by intros Hq; rewrite Hq in Hcl|].
  destruct (g_stage g) as [| | | | | | |fr]; try done. destruct Hok as (-> & Htodo & Hout). split; [exact Htodo|]. by exists fr.
Qed.

Lemma open_ghost gs : forallb is_closed gs = false → ∃ t g, gs !! t = Some g ∧ is_closed g = false.
Proof.
  induction gs as [|g gs IH]; [done|]. cbn. destruct (is_closed g) eqn:Hc; cbn.
  - intros (t & g' & Hg & Hc')%IH. by exists (S t), g'.
  - intros _. by exists 0%nat, g.
Qed.

(** Unless all clients are answered, some task can move. *)
Lemma progress cfg left sys st :
  simulates cfg left sys st → answered sys st ∨ ∃ m sys', do_move m sys = Some sys'.
Proof.
  intros (gs & Hsim & Hcl & _ & _). destruct sys as [backlog conns s], st as [logs cs].
  cbn [sy_backlog sy_conns sy_shared at_logs at_clients] in *. subst cs.
  destruct backlog as [|[fr|e] backlog]; [|right; exists MAccept; by eexists..].
  destruct (forallb is_closed gs) eqn:Hall; [left; by apply all_closed|right].
  destruct (open_ghost gs Hall) as (t & g & Hg & Hopen).
  pose proof (sm_length _ _ _ _ _ Hsim) as Hlen. cbn in Hlen. rewrite Nat.add_0_r in Hlen.
  destruct (lookup_lt_is_Some_2 conns t) as [c Hc]; [rewrite <- Hlen; by eapply lookup_lt_Some|].
  destruct (connection_progress _ _ _ _ _ t c g Hsim Hc Hg) as [[fr Hst]|[[[c' s'] Hp]|[a [rt' Ha]]]].
  - unfold is_closed in Hopen. by rewrite Hst in Hopen.
  - exists (MConnection t). cbn. rewrite Hc. cbn. rewrite Hp. by eexists.
  - exists (MPartition a). cbn. rewrite Ha. by eexists.
Qed.

(** ** Mailboxes *)
(** A connection waits for one command at a time. *)
Lemma mailbox_length backlog conns s logs gs a :
  sim backlog conns s logs gs → (length (mailbox (snd s) a) ≤ length gs)%nat.
Proof.
  intros Hsim. etrans; [|apply (omap_length (λ g, stage_slot (g_stage g)) gs)].
  rewrite <- (length_fmap reply_slot). apply submseteq_length, NoDup_submseteq; [apply Hsim|].
  intros n (cmd & -> & Hin)%list_elem_of_fmap.
  destruct (sm_mail _ _ _ _ _ Hsim a cmd Hin) as (t & g & req & rest & fr & Hg & Hst & _).
  apply list_elem_of_omap. exists g. split; [by eapply list_elem_of_lookup_2|]. by rewrite Hst.
Qed.

(** ** Closed connections, and that no task panics *)
Lemma conn_closed s st fr todo done :
  conn_ok s st (Closed fr) todo done → todo = [] ∧ framed_out fr = wires (Response_into_frame <$> done).
Proof.
  destruct st as [|fr0|fr0|fr0|fr0 a|fr0 a n|fr0 a n [rep|]|fr0]; cbn [conn_ok].
  - done.
  - by intros [? _].
  - by intros [? _].
  - by intros (? & ? & _ & _ & _ & ?).
  - by intros (? & ? & _ & _ & _ & ?).
  - by intros (? & ? & _ & _ & _ & ? & _).
  - by intros (? & ? & _ & _ & ? & _).
  - by intros (? & ? & _ & _ & _ & ? & _).
  - by intros ([= <-] & ? & ?).
Qed.

Lemma conn_not_panicked backlog conns s logs gs t : sim backlog conns s logs gs → conns !! t ≠ Some Panicked.
Proof.
  intros Hsim Hc. destruct (sm_conns _ _ _ _ _ Hsim t _ Hc) as (g & _ & Hok).
  destruct (g_stage g) as [|fr|fr|fr|fr a|fr a n|fr a n [rep|]|fr]; cbn [conn_ok] in Hok; [|naive_solver..]. done.
Qed.

(** ** Correlation ids *)
Lemma response_to_cid req rep : Response_correlation_id (response_to req rep) = req_cid req.
Proof. destruct req, rep as [| | |[|]|]; reflexivity. Qed.

Lemma serve_cid max logs req resp logs' : serve max logs req resp logs' → Response_correlation_id resp = req_cid req.
Proof. intros [? rep ? _ _|_ _]; [apply response_to_cid|done]. Qed.

(** The ids of a client's responses and of its remaining requests. *)
Definition client_cids (c : list Request * list Response) : list Z := (Response_correlation_id <$> snd c) ++ (req_cid <$> fst c).

Lemma atomic_step_cids max st st' :
  atomic_step max st st' → client_cids <$> at_clients st' = client_cids <$> at_clients st.
Proof.
  intros [t req todo sent Ht Hcr Hk|t req todo sent resp logs' Ht Hs]; cbn [at_clients]; [done|].
  rewrite list_fmap_insert. apply list_insert_id. rewrite list_lookup_fmap, Ht. cbn. unfold client_cids. cbn [fst snd].
  rewrite fmap_app, fmap_cons, <- (assoc_L (++)). cbn. by rewrite (serve_cid _ _ _ _ _ Hs).
Qed.

Lemma atomic_run_cids max st st' :
  rtc (atomic_step max) st st' → client_cids <$> at_clients st' = client_cids <$> at_clients st.
Proof. induction 1 as [|? ? ? Hst _ IH]; [done|]. by rewrite IH, (atomic_step_cids _ _ _ Hst). Qed.

Lemma init_cids logs reqs : client_cids <$> at_clients (atomic_init logs reqs) = (λ r, req_cid <$> r) <$> reqs.
Proof. cbn. by rewrite <- list_fmap_compose. Qed.
End run.

(** ** From start-up *)
Section from_start.
Context `{BytesLaws, !MpscOps, !MpscLaws, !OneshotOps, !OneshotLaws, !ErrorTexts, !FramedOps, !FramedLaws}.

(** What `main` passes to the registry. *)
Definition registry_settings (config : Config.BrokerConfig) : TopicRegistry :=
  TopicRegistry_new (join [] (Config.data_dir config)) (Config.segment_max_bytes config)
    (Config.default_partitions config) (Config.sync_level config) (Config.channel_capacity config).

(** How many moves a broker with these clients makes at most. *)
Definition moves_bound (backlog : list AcceptResult) (reqs : list (list Request)) : nat :=
  sum_list_with (λ r, 10 * length r + 6)%nat reqs + refused backlog.

Lemma start_simulates config w logs backlog reqs :
  launch config w logs backlog reqs →
  ∃ (U : Usage) sys, start config (inl backlog) w = Ok sys ∧ sy_conns sys = [] ∧
    simulates (registry_settings config) (moves_bound backlog reqs) sys (atomic_init logs reqs).
Proof.
  intros Hl. destruct (start_sim config w logs backlog reqs Hl) as (U & reg & rt & Hs & Hset & Hsim). exists U.
  eexists. split; [exact Hs|]. split; [done|]. exists (queued <$> reqs). split; [exact Hsim|]. split; [|split; [exact Hset|]].
  - unfold atomic_init. cbn. by rewrite <- list_fmap_compose.
  - cbn [sy_backlog]. unfold moves_bound. apply Nat.add_le_mono_r. unfold measure. clear. induction reqs as [|r reqs IH]; [done|].
    rewrite fmap_cons. cbn [sum_list_with]. change (ghost_measure (queued r)) with (10 * length r + 6)%nat. lia.
Qed.
End from_start.
