(* ===== verification/BrokerDelivery.v ===== *)
(** * The responses fit their frames

    A broker whose clients produce payloads of at most [P] bytes and fetch at
    most [M] bytes, both some hundred bytes below the largest frame, sends only
    responses that a client's decoder accepts. *)
From S2P Require Import Prelude Errors BytesCrate StdText Types Frame Request Response Tokio FileSystem BinarySearch Index Record Segment SegmentInv SegmentRead SegmentWrite SegmentLoad Partition Listing PartitionInv Isolation PartitionWrite PartitionRead PartitionOpen PartitionSpec Registry Handler Connection BrokerSpec BrokerHistory Layout BrokerStore BrokerTasks BrokerSim BrokerSteps BrokerStart BrokerRun.
#[local] Open Scope Z_scope.

(** Room for the headers of a frame, of a fetch response and of a record. *)
Definition frame_room (P M : Z) : Prop := 276 + Z.max M (28 + P) ≤ MAX_FRAME_SIZE.

Definition modest_request (P M : Z) (req : Request) : Prop :=
  match req with
  | RProduce r => blen (pr_payload r) ≤ P
  | RProduceBatch r => Forall (λ p, blen p ≤ P) (pb_payloads r)
  | RFetch r => fr_max_bytes r ≤ M
  end.

(** A record that holds a payload of at most [P] bytes. *)
Definition modest_record (P : Z) (r : LogRecord) : Prop :=
  r_key r = None ∧ ∃ p, r_value r = Some p ∧ blen p ≤ P.

Definition req_addressed (req : Request) : Prop := addressed (req_cid req) (fst (req_key req)) (snd (req_key req)).

(** What a read returns comes from the log. *)
Lemma read_Forall (Q : LogRecord → Prop) base rs o out :
  out `sublist_of` records_from base rs o → Forall Q rs → Forall Q out.
Proof.
  intros Hsub Hrs. apply Forall_forall. intros y Hy. rewrite Forall_forall in Hrs. apply Hrs.
  eapply elem_of_submseteq; [exact Hy|]. etrans; [by apply sublist_submseteq|].
  apply sublist_submseteq. unfold records_from. case_decide; [apply sublist_drop|apply sublist_nil_l].
Qed.

(** ** Weights of the clients *)
Lemma clients_weight_cons c cs : clients_weight (c :: cs) = reqs_weight (fst c) + clients_weight cs.
Proof. reflexivity. Qed.

Lemma clients_weight_nonneg cs : 0 ≤ clients_weight cs.
Proof.
  induction cs as [|c cs IH]; [done|]. rewrite clients_weight_cons. pose proof (reqs_weight_nonneg (fst c)). lia.
Qed.

Lemma clients_weight_ge (cs : list (list Request * list Response)) t c : cs !! t = Some c → reqs_weight (fst c) ≤ clients_weight cs.
Proof.
  revert t. induction cs as [|h cs IH]; intros [|t] Hg; try done; rewrite clients_weight_cons.
  - injection Hg as ->. pose proof (clients_weight_nonneg cs). lia.
  - specialize (IH t Hg). pose proof (reqs_weight_nonneg (fst h)). lia.
Qed.

Lemma clients_weight_insert (cs : list (list Request * list Response)) t c c' :
  cs !! t = Some c → clients_weight (<[t := c']> cs) = clients_weight cs - reqs_weight (fst c) + reqs_weight (fst c').
Proof.
  revert t. induction cs as [|h cs IH]; intros [|t] Hg; try done.
  - injection Hg as <-. cbn [insert list_insert]. rewrite !clients_weight_cons. lia.
  - change (<[S t := c']> (h :: cs)) with (h :: <[t := c']> cs). rewrite !clients_weight_cons, (IH t Hg). lia.
Qed.

(** ** The bytes of a fetch response *)
Section payload.
Context `{BytesLaws}.

Lemma encode_records_eq rs b :
  Forall (λ r, storable (r_key r) (r_value r)) rs → encode_records rs b = (Ok tt, b ++ log_bytes rs).
Proof.
  intros Hrs. revert b. induction Hrs as [|r rs Hr _ IH]; intros b; cbn [encode_records].
  { by rewrite app_nil_r. }
  mstep Record_encode_eq; [|exact Hr]. rewrite IH, <- (assoc_L (++)). done.
Qed.

Lemma fetch_payload_eq rs :
  Forall (λ r, storable (r_key r) (r_value r)) rs →
  fetch_payload rs = be_bytes 4 (as_u32 (blen rs)) ++ log_bytes rs.
Proof.
  intros Hrs. unfold fetch_payload, built. mstep put_u32_eq. by rewrite encode_records_eq.
Qed.
End payload.

Section delivery.
Context `{BytesLaws, !ErrorTexts}.
Context (P M : Z) (Hroom : frame_room P M) (Htexts : ∀ e, 19 + blen (to_string e) ≤ MAX_FRAME_SIZE).
Implicit Types (req : Request) (logs : gmap Key (list LogRecord)).

Lemma modest_size r : modest_record P r → rsize r ≤ 28 + P.
Proof using All. intros (Hk & p & Hv & Hp). unfold rsize, record_len. rewrite Hk, Hv. cbn. lia. Qed.

Lemma modest_storable r : modest_record P r → storable (r_key r) (r_value r).
Proof using All.
  intros Hr%modest_size. unfold storable. change (record_len (r_key r) (r_value r)) with (rsize r).
  unfold frame_room, MAX_FRAME_SIZE in Hroom. lia.
Qed.

(** ** The log keeps modest records *)
Lemma carries_modest new ps : carries new ps → Forall (λ p, blen p ≤ P) ps → Forall (modest_record P) new.
Proof using All.
  intros [Hv Hk] Hps. apply Forall_lookup. intros i r Hr. rewrite Forall_lookup in Hk. split; [by eapply Hk|].
  apply (f_equal (λ l, l !! i)) in Hv. rewrite !list_lookup_fmap, Hr in Hv. cbn in Hv.
  destruct (ps !! i) as [p|] eqn:Hp; [|done]. injection Hv as Hv. exists p. split; [exact Hv|].
  rewrite Forall_lookup in Hps. by eapply Hps.
Qed.

Lemma step_modest max rs req rep rs' :
  spec_step max 0 rs (req_op req) rep rs' → modest_request P M req → Forall (modest_record P) rs →
  Forall (modest_record P) rs' ∧ blen rs' ≤ blen rs + req_weight req.
Proof using All.
  intros Hs Hm Hrs. unfold req_weight. destruct req as [r|r|r]; cbn [req_op modest_request op_weight] in *;
    inversion Hs as [? ? rec Hlen Hst| |? new Hacc Hcar Hcons|? new taken Hacc Hcar Hpre Hcons| |? ? out| |]; subst.
  - split; [|len]. apply Forall_app. split; [exact Hrs|]. apply Forall_singleton. destruct Hst as (_ & Hk & Hv).
    split; [exact Hk|]. by eexists.
  - split; [exact Hrs|lia].
  - pose proof (f_equal length (proj1 Hcar)) as Hl. rewrite !length_fmap in Hl. split; [|unfold blen; rewrite length_app; lia].
    apply Forall_app. split; [exact Hrs|by eapply carries_modest].
  - pose proof (f_equal length (proj1 Hcar)) as Hl. rewrite !length_fmap in Hl.
    destruct Hpre as [k Hk]. rewrite Hk in *. apply Forall_app in Hm as [Hm _]. split; [|unfold blen; rewrite !length_app; lia].
    apply Forall_app. split; [exact Hrs|by eapply carries_modest].
  - split; [exact Hrs|lia].
Qed.

(** ** Every response fits *)
Lemma error_fits req e : req_addressed req → Response_fits (error_response req e).
Proof using All. intros (Hc & _). split; [exact Hc|]. cbn. apply Htexts. Qed.

Lemma served_fits max rs req rep rs' :
  spec_step max 0 rs (req_op req) rep rs' → modest_request P M req → req_addressed req →
  Forall (modest_record P) rs → blen rs < 2 ^ 64 → Response_fits (response_to req rep).
Proof using All.
  intros Hs Hm Ha Hrs Hlen.
  assert (Hoff : is_u64 (0 + blen rs)) by (unfold is_uint; pose proof (blen_nonneg rs); lia).
  destruct req as [r|r|r]; cbn [req_op] in Hs; inversion Hs as [| | | | |? ? out Hout| |]; subst;
    try (by apply error_fits); try (by split).
  destruct out as [|x out]; [by apply error_fits|]. cbn [response_to]. set (rs1 := x :: out) in *.
  destruct Hout as [Hsub Hbud _]. cbn [modest_request] in Hm.
  assert (Hall : Forall (modest_record P) rs1) by (by eapply read_Forall).
  assert (Hst : Forall (λ r, storable (r_key r) (r_value r)) rs1) by (eapply Forall_impl; [exact Hall|apply modest_storable]).
  assert (Hpl : blen (log_bytes rs1) ≤ Z.max M (28 + P)).
  { destruct Hbud as [Hb|[_ [y Hy]]]; [lia|]. rewrite Hy in Hall |- *. apply Forall_singleton, modest_size in Hall.
    rewrite log_bytes_singleton. len. }
  destruct Ha as (? & ? & ? & ? & Htl). split; [done|]. cbn [fres_topic fres_payload fst req_key] in *.
  rewrite fetch_payload_eq by exact Hst. unfold frame_room in Hroom. len.
Qed.

(** ** The atomic broker *)
Record modest (st : Atomic) : Prop := {
  md_logs : ∀ key rs, at_logs st !! key = Some rs →
    Forall (modest_record P) rs ∧ blen rs + clients_weight (at_clients st) < 2 ^ 64;
  md_weight : clients_weight (at_clients st) < 2 ^ 64;
  md_todo : Forall (λ c, Forall (λ req, modest_request P M req ∧ req_addressed req) (fst c)) (at_clients st);
  md_done : Forall (λ c, Forall Response_fits (snd c)) (at_clients st)
}.

Lemma modest_init logs reqs :
  Forall (Forall (λ req, modest_request P M req ∧ req_addressed req)) reqs →
  (∀ key rs, logs !! key = Some rs → Forall (modest_record P) rs ∧ blen rs + clients_weight (at_clients (atomic_init logs reqs)) < 2 ^ 64) →
  clients_weight (at_clients (atomic_init logs reqs)) < 2 ^ 64 → modest (atomic_init logs reqs).
Proof using All.
  intros Hreqs Hlogs Hwt. split; [exact Hlogs|exact Hwt| |]; cbn; apply Forall_fmap.
  - exact Hreqs.
  - apply Forall_forall. intros r _. constructor.
Qed.

Lemma modest_step max st st' : modest st → atomic_step max st st' → modest st'.
Proof using All.
  intros [Hlogs Hwt Htodo Hdone] [t req todo sent Ht Hcr Hk|t req todo sent resp logs' Ht Hs].
  - split; cbn [at_logs at_clients]; [|exact Hwt|exact Htodo|exact Hdone].
    intros key rs. rewrite lookup_insert_Some. intros [[_ <-]|[_ Hkey]]; [|by eapply Hlogs].
    split; [constructor|]. rewrite blen_nil. exact Hwt.
  - pose proof Htodo as Htd. rewrite Forall_lookup in Htd. specialize (Htd t _ Ht). cbn [fst] in Htd.
    apply Forall_cons in Htd as [[Hm Ha] Htd].
    pose proof (clients_weight_insert (at_clients st) t _ (todo, sent ++ [resp]) Ht) as Hw. cbn [fst] in Hw.
    rewrite reqs_weight_cons in Hw. pose proof (req_weight_nonneg req) as Hn. pose proof (clients_weight_ge _ t _ Ht) as Hge.
    cbn [fst] in Hge. rewrite reqs_weight_cons in Hge. pose proof (reqs_weight_nonneg todo) as Hrest.
    assert (Hres : Response_fits resp ∧ ∀ key rs, logs' !! key = Some rs →
      Forall (modest_record P) rs ∧ blen rs + clients_weight (<[t := (todo, sent ++ [resp])]> (at_clients st)) < 2 ^ 64).
    { destruct Hs as [rs rep rs' Hrs Hst|_ _].
      - destruct (Hlogs _ _ Hrs) as [Hmr Hl]. destruct (step_modest _ _ _ _ _ Hst Hm Hmr) as [Hmr' Hlen].
        split; [eapply served_fits; [exact Hst|exact Hm|exact Ha|exact Hmr|lia]|].
        intros key rs2. rewrite lookup_insert_Some. intros [[_ <-]|[_ Hkey]]; [split; [exact Hmr'|lia]|].
        destruct (Hlogs _ _ Hkey) as [Hmr2 Hl2]. split; [exact Hmr2|lia].
      - split; [by apply error_fits|]. intros key rs2 Hkey. destruct (Hlogs _ _ Hkey) as [Hmr2 Hl2]. split; [exact Hmr2|lia]. }
    destruct Hres as [Hfit Hlogs']. split; cbn [at_logs at_clients].
    + exact Hlogs'.
    + lia.
    + by apply Forall_insert.
    + apply Forall_insert; [exact Hdone|]. rewrite Forall_lookup in Hdone. specialize (Hdone t _ Ht). cbn [snd] in *.
      apply Forall_app. split; [exact Hdone|]. by apply Forall_singleton.
Qed.

Lemma modest_run max st st' : rtc (atomic_step max) st st' → modest st → modest st'.
Proof using All. induction 1 as [|? ? ? Hs _ IH]; [done|]. intros Hm. apply IH. by eapply modest_step. Qed.

(** The client reads every response. *)
Lemma delivered resps :
  Forall Response_fits resps →
  ∃ fs, drain (wires (Response_into_frame <$> resps)) fs [] ∧ Forall2 answers resps fs.
Proof using All.
  intros Hf. exists (Response_into_frame <$> resps). split.
  - rewrite <- (app_nil_r (wires _)). apply drain_wires; [|reflexivity]. apply Forall_fmap.
    eapply Forall_impl; [exact Hf|]. intros r. apply Response_sendable.
  - apply Forall2_fmap_r, Forall_Forall2_diag. eapply Forall_impl; [exact Hf|]. intros r. apply Response_answers.
Qed.
End delivery.
