(* ===== verification/BrokerTheorems.v ===== *)
(** * The broker serves its clients

    The properties of the whole broker, under every interleaving of its tasks:
    it refines the atomic broker, keeps one task per partition, bounds its
    mailboxes, answers every request, and the clients can read the answers. *)
From S2P Require Import Prelude Errors BytesCrate StdText Types Frame Request Response Tokio FileSystem BinarySearch Index Record Segment SegmentInv SegmentRead SegmentWrite SegmentLoad Partition Listing PartitionInv Isolation PartitionWrite PartitionRead PartitionOpen PartitionSpec Registry Handler Connection BrokerSpec BrokerHistory Layout BrokerStore DataDir BrokerTasks BrokerSim BrokerSteps BrokerStart BrokerRun BrokerDelivery.
#[local] Open Scope Z_scope.

(** ** Requests have their types *)
Section typing.
Context `{BytesLaws}.

(** What the handlers may assume of a request. *)
Record wire_request (req : Request) : Prop := {
  wq_addressed : req_addressed req;
  wq_typed : Request_typed req;
  wq_op : op_typed (req_op req)
}.

Lemma parsed_wire b reqs : parsed b reqs → Forall wire_request reqs.
Proof.
  induction 1 as [|? f|b f b' req reqs Hd Hr Hp IH]; [constructor..|]. constructor; [|exact IH].
  destruct (Frame_decode_cases b) as [He|[(e & b2 & He & _)|(f2 & pad & b2 & He & Hs & _)]];
    unfold Codec_decode in Hd; rewrite He in Hd; [done|done|]. injection Hd as -> ->.
  destruct (frame_request_typed f req Hs Hr) as (Hc & Hid & Hu & Hne & Hl & Hty & Hop). by split.
Qed.

(** C33: whatever bytes a client sends, they ask for exactly one sequence of
    requests, and each of these has its Rust types: a correlation id and a
    partition number of 32 bits, a non-empty UTF-8 topic of at most 255 bytes,
    a batch count and lengths of 32 bits, and payloads small enough for the
    length field of a record. *)
Theorem client_requests_typed b :
  ∃ reqs, parsed b reqs ∧ (∀ reqs', parsed b reqs' → reqs' = reqs) ∧ Forall wire_request reqs.
Proof.
  destruct (parsed_total b) as [reqs Hp]. exists reqs. split; [exact Hp|]. split; [|by eapply parsed_wire].
  intros reqs' Hp'. by eapply parsed_unique.
Qed.
End typing.

(** ** The whole broker *)
Section broker.
Context `{BytesLaws, !MpscOps, !MpscLaws, !OneshotOps, !OneshotLaws, !ErrorTexts, !FramedOps, !FramedLaws}.
Implicit Types (sys : System) (config : Config.BrokerConfig).

(** What can be seen of the broker: the bytes of the connections it closed, and
    the logs its partition tasks serve. *)
Record observed sys (st : Atomic) : Prop := {
  ob_closed : ∀ t fr, sy_conns sys !! t = Some (Closed fr) → ∃ resps, at_clients st !! t = Some ([], resps) ∧
    framed_out fr = wires (Response_into_frame <$> resps);
  ob_running : ∀ t, sy_conns sys !! t ≠ Some Panicked;
  ob_logs : ∀ topic id rs, at_logs st !! (topic, id) = Some rs → ∃ a act,
    find_sender (rg_topics (fst (sy_shared sys))) topic id = Some a ∧
    rt_actors (snd (sy_shared sys)) !! a = Some act ∧
    serving ReadOnly (ac_partition act) (rt_world (snd (sy_shared sys))) 0 rs
}.

Lemma simulates_observed `{!Usage} cfg left sys st : simulates cfg left sys st → observed sys st.
Proof.
  intros (gs & Hsim & Hcl & _ & _). split.
  - intros t fr Hc. destruct (sm_conns _ _ _ _ _ Hsim t _ Hc) as (g & Hg & Hok). exists (g_done g).
    destruct (conn_closed _ _ _ _ _ Hok) as [Htodo Hout]. split; [|exact Hout].
    rewrite Hcl, list_lookup_fmap, Hg. unfold client. cbn. by rewrite Htodo.
  - intros t. by eapply conn_not_panicked.
  - intros topic id rs Hk. destruct (st_log _ _ _ (sm_store _ _ _ _ _ Hsim) _ _ Hk) as (a & act & Ha & Hact & Hown).
    exists a, act. split; [exact Ha|]. split; [exact Hact|]. eapply serving_reads, Hown.
Qed.


(** One live task per registered partition, which alone owns its directory. *)
Record single_writer sys : Prop := {
  sw_alive : ∀ topic id a, find_sender (rg_topics (fst (sy_shared sys))) topic id = Some a → ∃ act,
    rt_actors (snd (sy_shared sys)) !! a = Some act ∧ pt_topic (ac_partition act) = topic ∧
    pt_id (ac_partition act) = id ∧
    pt_base_dir (ac_partition act) = partition_dir (rg_base_dir (fst (sy_shared sys))) topic id;
  sw_registered : ∀ a act, rt_actors (snd (sy_shared sys)) !! a = Some act →
    find_sender (rg_topics (fst (sy_shared sys))) (pt_topic (ac_partition act)) (pt_id (ac_partition act)) = Some a;
  sw_log : ∀ a act, rt_actors (snd (sy_shared sys)) !! a = Some act →
    ∃ rs, part_inv (ac_partition act) (rt_world (snd (sy_shared sys))) 0 rs;
  sw_apart : ∀ a b act act', a ≠ b → rt_actors (snd (sy_shared sys)) !! a = Some act →
    rt_actors (snd (sy_shared sys)) !! b = Some act' →
    apart (pt_base_dir (ac_partition act)) (pt_base_dir (ac_partition act'))
}.

Lemma simulates_single `{!Usage} cfg left sys st : simulates cfg left sys st → single_writer sys.
Proof.
  intros (gs & Hsim & _ & _ & _). pose proof (sm_store _ _ _ _ _ Hsim) as Hst.
  assert (Hown : ∀ a act, rt_actors (snd (sy_shared sys)) !! a = Some act → ∃ rs,
    at_logs st !! (pt_topic (ac_partition act), pt_id (ac_partition act)) = Some rs ∧
    owns (fst (sy_shared sys)) (pt_topic (ac_partition act), pt_id (ac_partition act)) act (rt_world (snd (sy_shared sys))) rs).
  { intros a act Ha. pose proof (st_actor _ _ _ Hst a act Ha) as Hreg.
    destruct (store_lookup _ _ _ _ _ Hst Hreg) as (rs & act' & Hrs & Ha' & Ho). exists rs. split; [exact Hrs|]. congruence. }
  split.
  - intros topic id a Ha. destruct (store_lookup _ _ _ (topic, id) a Hst Ha) as (rs & act & _ & Hact & Ho). exists act.
    split; [exact Hact|]. destruct Ho as [Ht Hi Hd _ _ _ _]. done.
  - apply Hst.
  - intros a act Ha. destruct (Hown a act Ha) as (rs & _ & Ho). exists rs. apply (ow_serving _ _ _ _ _ Ho).
  - intros a b act act' Hne Ha Hb. destruct (Hown a act Ha) as (rs & Hk & Ho), (Hown b act' Hb) as (rs' & Hk' & Ho').
    rewrite (ow_dir _ _ _ _ _ Ho), (ow_dir _ _ _ _ _ Ho'). destruct (st_plain _ _ _ Hst _ _ Hk), (st_plain _ _ _ Hst _ _ Hk').
    apply keys_apart; try done. intros Heq. pose proof (st_actor _ _ _ Hst a act Ha) as H1'.
    pose proof (st_actor _ _ _ Hst b act' Hb) as H2'. rewrite Heq in H1'. congruence.
Qed.


(** C18: no mailbox ever holds more commands than the configured capacity, nor
    more than there are clients: a connection waits for the answer to a command
    before it sends the next. The setting is [launch]: the disk reports no
    errors (reads may be short), the data directory is empty or holds logs as a
    broker or a crash leaves them, the channel capacity is positive and the
    segment size at most 2^63, topics are plain names ([plain_topic]), each
    partition found on the disk is only produced to or only fetched from by the
    clients ([one_way]), and offsets do not run out. *)
Theorem Broker_mailbox_bounds config w logs backlog reqs :
  launch config w logs backlog reqs →
  ∃ sys, start config (inl backlog) w = Ok sys ∧ ∀ ms sys' a act, run ms sys = Some sys' →
    rt_actors (snd (sy_shared sys')) !! a = Some act →
    blen (mpsc_buffer (ac_rx act)) ≤ Config.channel_capacity config ∧ blen (mpsc_buffer (ac_rx act)) ≤ blen reqs.
Proof.
  intros Hl. destruct (start_simulates config w logs backlog reqs Hl) as (U & sys & Hs & _ & Hsim). exists sys. split; [exact Hs|].
  intros ms sys' a act Hr Ha. destruct (simulates_run _ _ _ _ _ _ Hsim Hr) as (left' & st' & _ & (gs & Hsim' & Hcl & Hset & _) & Hat).
  pose proof (sm_store _ _ _ _ _ Hsim') as Hst. destruct (store_lookup _ _ _ _ _ Hst (st_actor _ _ _ Hst a act Ha))
    as (rs & act' & _ & Ha' & Ho). rewrite Ha in Ha'. injection Ha' as <-. split.
  - apply (f_equal rg_channel_capacity) in Hset. cbn in Hset. rewrite <- Hset. apply Ho.
  - pose proof (mailbox_length _ _ _ _ _ a Hsim') as Hlen. unfold mailbox in Hlen. rewrite Ha in Hlen.
    apply atomic_run_cids, (f_equal length) in Hat. rewrite !length_fmap, Hcl in Hat. cbn [atomic_init at_clients] in Hat.
    rewrite !length_fmap in Hat. unfold blen. lia.
Qed.

(** C4: the broker answers every request and stops. The setting is [launch]: the
    disk reports no errors (reads may be short), the data directory is empty or
    holds logs as a broker or a crash leaves them, the channel capacity is
    positive and the segment size at most 2^63, topics are plain names
    ([plain_topic]), each partition found on the disk is only produced to or
    only fetched from by the clients ([one_way]), and offsets do not run out.
    Then, under any schedule, it makes at most [moves_bound backlog reqs] moves,
    at most ten per request, six per connection and one per failed accept; and
    as long as some client has not got all its answers some task can move. When
    none can, every connection is closed and has sent one response per request,
    in order, with the request's correlation id. (With a capacity of 0, or a
    damaged log, the broker panics instead.) *)
Theorem Broker_answers_all config w logs backlog reqs :
  launch config w logs backlog reqs →
  ∃ sys, start config (inl backlog) w = Ok sys ∧ ∀ ms sys', run ms sys = Some sys' →
    (length ms ≤ moves_bound backlog reqs)%nat ∧
    ((∃ m sys'', do_move m sys' = Some sys'') ∨
     ∀ t rs, reqs !! t = Some rs → ∃ fr resps, sy_conns sys' !! t = Some (Closed fr) ∧
       framed_out fr = wires (Response_into_frame <$> resps) ∧
       Response_correlation_id <$> resps = req_cid <$> rs).
Proof.
  intros Hl. destruct (start_simulates config w logs backlog reqs Hl) as (U & sys & Hs & _ & Hsim). exists sys. split; [exact Hs|].
  intros ms sys' Hr. destruct (simulates_run _ _ _ _ _ _ Hsim Hr) as (left' & st' & Hlen & Hs' & Hat). split; [lia|].
  destruct (progress _ _ _ _ Hs') as [Hans|Hmove]; [right|by left]. intros t rs Ht.
  apply atomic_run_cids in Hat. rewrite init_cids in Hat. apply (f_equal (λ l, l !! t)) in Hat.
  rewrite !list_lookup_fmap, Ht in Hat. destruct (at_clients st' !! t) as [[todo resps]|] eqn:Hc; [|done].
  destruct (Hans t todo resps Hc) as (-> & fr & Hconn & Hout). exists fr, resps. split; [exact Hconn|]. split; [exact Hout|].
  injection Hat as Hat. cbn in Hat. by rewrite app_nil_r in Hat.
Qed.

(** So some schedule serves every client to the end. *)
Lemma complete_run config w logs backlog reqs :
  launch config w logs backlog reqs →
  ∃ sys ms sys', start config (inl backlog) w = Ok sys ∧ run ms sys = Some sys' ∧
    ∀ t rs, reqs !! t = Some rs → ∃ fr, sy_conns sys' !! t = Some (Closed fr).
Proof.
  intros Hl. destruct (start_simulates config w logs backlog reqs Hl) as (U & sys & Hs & _ & Hsim). exists sys.
  assert (Hgo : ∀ left sys st, simulates (registry_settings config) left sys st → length (at_clients st) = length reqs →
    ∃ ms sys', run ms sys = Some sys' ∧ ∀ t rs, reqs !! t = Some rs → ∃ fr, sy_conns sys' !! t = Some (Closed fr)).
  { clear sys Hs Hsim. induction left as [left IH] using lt_wf_ind. intros sys st Hsim Hlen.
    destruct (progress _ _ _ _ Hsim) as [Hans|(m & sys1 & Hm)].
    - exists [], sys. split; [reflexivity|]. intros t rs Ht. apply lookup_lt_Some in Ht. rewrite <- Hlen in Ht.
      apply lookup_lt_is_Some in Ht as [[todo resps] Hc]. destruct (Hans t todo resps Hc) as (_ & fr & Hfr & _). by exists fr.
    - destruct (simulates_move _ _ _ _ _ _ Hsim Hm) as (left1 & st1 & Hlt & Hsim1 & Hat).
      destruct (IH left1 Hlt sys1 st1 Hsim1) as (ms & sys' & Hr & Hall).
      { apply atomic_run_cids, (f_equal length) in Hat. rewrite !length_fmap in Hat. lia. }
      exists (m :: ms), sys'. split; [cbn [run]; by rewrite Hm|exact Hall]. }
  destruct (Hgo _ _ _ Hsim) as (ms & sys' & Hr & Hall); [apply length_fmap|]. by exists ms, sys'.
Qed.

(** Every record on the disk has no key and at most [P] bytes. *)
Definition modest_logs (P : Z) (logs : gmap Key (list LogRecord)) : Prop :=
  ∀ key rs, logs !! key = Some rs → Forall (modest_record P) rs.

Lemma launch_modest config w logs backlog reqs P M :
  launch config w logs backlog reqs → frame_room P M → (∀ e, 19 + blen (to_string e) ≤ MAX_FRAME_SIZE) →
  modest_logs P logs → Forall (Forall (modest_request P M)) reqs → modest P M (atomic_init logs reqs).
Proof.
  intros Hl Hroom Htexts Hlogs Hmod. pose proof (la_clients _ _ _ _ _ Hl) as Hcl.
  apply modest_init; [exact Hroom|exact Htexts| |intros key rs Hk; split; [by eapply Hlogs|by eapply (cl_room _ _ _ Hcl)]|apply Hcl].
  apply Forall_lookup. intros i r Hi. rewrite Forall_lookup in Hmod.
  destruct (Forall2_lookup_r _ _ _ _ _ (cl_talking _ _ _ Hcl) Hi) as (fr0 & _ & [Hin _ _]). apply parsed_wire in Hin.
  apply Forall_and. split; [by eapply Hmod|]. eapply Forall_impl; [exact Hin|]. intros req. apply wq_addressed.
Qed.


(** The responses of a closed connection. *)
Lemma closed_history `{!Usage} cfg left sys st max logs reqs t fr rs :
  simulates cfg left sys st → rtc (atomic_step max) (atomic_init logs reqs) st →
  sy_conns sys !! t = Some (Closed fr) → reqs !! t = Some rs →
  ∃ resps, framed_out fr = wires (Response_into_frame <$> resps) ∧ at_clients st !! t = Some ([], resps) ∧
    grows_to logs (at_logs st) ∧ served_so_far max logs (at_logs st) rs resps.
Proof.
  intros Hs Hat Hc Ht. destruct (ob_closed _ _ (simulates_observed _ _ _ _ Hs) t fr Hc) as (resps & Hcl & Hout).
  destruct (history_run _ _ _ _ Hat) as [Hgr Hh]. destruct (Hh t [] resps Hcl) as (served & Hr & Hss).
  rewrite Ht, app_nil_r in Hr. injection Hr as ->. by exists resps.
Qed.

End broker.
