(* ===== verification/BrokerRestart.v ===== *)
(** * The broker starts again

    Whenever a broker stops, between any two moves, its files hold the logs of
    the atomic broker it simulates ([simulates_stored]), so a broker can be
    launched on them again: all theorems about a broker hold for the next one,
    with these logs. What was acknowledged by the first is delivered by the second. *)
From S2P Require Import Prelude Errors BytesCrate StdText Types Frame Request Response Tokio FileSystem BinarySearch Index Record Segment SegmentInv SegmentRead SegmentWrite SegmentLoad Partition Listing PartitionInv Isolation PartitionWrite PartitionRead PartitionOpen PartitionSpec Registry Handler Connection BrokerSpec BrokerHistory Layout BrokerStore DataDir BrokerTasks BrokerSim BrokerSteps BrokerStart BrokerRun BrokerDelivery BrokerTheorems.
#[local] Open Scope Z_scope.

Section broker.
Context `{BytesLaws, !MpscOps, !MpscLaws, !OneshotOps, !OneshotLaws, !ErrorTexts, !FramedOps, !FramedLaws}.

(** ** What a broker leaves *)
Lemma simulates_stored `{!Usage} config left sys st :
  simulates (registry_settings config) left sys st →
  healthy (shutdown sys) ∧ stored (join [] (Config.data_dir config)) (Config.segment_max_bytes config) (at_logs st) (shutdown sys).
Proof.
  intros (gs & Hsim & _ & Hset & _). pose proof (sm_store _ _ _ _ _ Hsim) as Hst. split; [apply Hst|].
  pose proof (store_stored _ _ _ Hst) as Hd.
  pose proof (f_equal rg_base_dir Hset) as Hb. pose proof (f_equal rg_max_segment_bytes Hset) as Hm. cbn in Hb, Hm.
  rewrite Hb, Hm in Hd. exact Hd.
Qed.

Lemma simulates_launch `{!Usage} config w logs backlog reqs left sys st backlog2 reqs2 :
  launch config w logs backlog reqs → simulates (registry_settings config) left sys st →
  clients_ok (at_logs st) backlog2 reqs2 → launch config (shutdown sys) (at_logs st) backlog2 reqs2.
Proof.
  intros [_ _ Hmax Hcap _] Hs Hcl. destruct (simulates_stored _ _ _ _ Hs) as [Hh Hst].
  split; [exact Hh|by left|exact Hmax|exact Hcap|exact Hcl].
Qed.

(** The registry of [sys] has exactly the partitions of [logs], and the task of
    each reads every offset as the log has it and goes on after its end. *)
Record restored (sys : System) (logs : gmap Key (list LogRecord)) : Prop := {
  re_found : ∀ topic id,
    is_Some (find_sender (rg_topics (fst (sy_shared sys))) topic id) ↔ is_Some (logs !! (topic, id));
  re_reads : ∀ topic id a rs, find_sender (rg_topics (fst (sy_shared sys))) topic id = Some a →
    logs !! (topic, id) = Some rs → ∃ act, rt_actors (snd (sy_shared sys)) !! a = Some act ∧
      (∀ o, fst (Partition_read o (ac_partition act, rt_world (snd (sy_shared sys)))) = Ok (record_at 0 rs o)) ∧
      Partition_next_offset (ac_partition act) = blen rs ∧ blen rs < 2 ^ 64
}.

Lemma store_restored `{!Usage} reg rt logs backlog :
  store_inv reg rt logs → restored {| sy_backlog := backlog; sy_conns := []; sy_shared := (reg, rt) |} logs.
Proof.
  intros Hst. split; cbn [sy_shared fst snd].
  - intros topic id. split; [intros [a Ha]; by apply (st_found _ _ _ Hst (topic, id) a)|]. intros [rs Hk].
    destruct (st_log _ _ _ Hst _ _ Hk) as (a & act & Ha & _). by exists a.
  - intros topic id a rs Ha Hk. destruct (store_lookup _ _ _ (topic, id) a Hst Ha) as (rs' & act & Hk' & Hact & Ho).
    rewrite Hk in Hk'. injection Hk' as <-. exists act. split; [exact Hact|]. destruct (ow_serving _ _ _ _ _ Ho) as [Hinv _ _ Hh _]. split.
    + intros o. by destruct (Partition_read_ok _ _ 0 rs o Hh Hinv) as (? & ? & -> & _).
    + destruct (part_active _ _ _ _ Hinv) as (? & ? & ? & ? & Hav). destruct (av_next _ _ _ _ _ _ _ _ Hav) as (Hnext & _ & Hlt & _).
      split; [exact Hnext|exact Hlt].
Qed.

(** Whoever the clients are, the next broker has the logs. *)
Lemma start_restored config w logs backlog :
  healthy w → 0 ≤ Config.segment_max_bytes config ≤ 2 ^ 63 → 0 < Config.channel_capacity config ≤ MAX_PERMITS →
  stored (join [] (Config.data_dir config)) (Config.segment_max_bytes config) logs w →
  ∃ sys, start config (inl backlog) w = Ok sys ∧ sy_backlog sys = backlog ∧ sy_conns sys = [] ∧ restored sys logs.
Proof.
  intros Hw Hmax Hcap Hst. set (U := (λ _, ReadOnly) : Usage).
  destruct (load_data_dir (join [] (Config.data_dir config)) (Config.segment_max_bytes config) (Config.default_partitions config)
    (Config.sync_level config) (Config.channel_capacity config) logs w Hw Hmax Hcap) as (reg & rt & Hload & _ & Hstore & _);
    [by left|done|].
  eexists. unfold start. rewrite Hload. split; [reflexivity|]. split; [reflexivity|]. split; [reflexivity|]. by apply store_restored.
Qed.

Lemma simulates_restored `{!Usage} cfg left sys st : simulates cfg left sys st → restored sys (at_logs st).
Proof.
  intros (gs & Hsim & _ & _ & _). destruct sys as [backlog conns [reg rt]].
  destruct (store_restored reg rt (at_logs st) backlog (sm_store _ _ _ _ _ Hsim)) as [Hf Hr]. by split.
Qed.

(** C6: the broker survives restarts. The setting is [launch]: the disk reports
    no errors (reads may be short), the data directory is empty or holds logs as
    a broker or a crash leaves them, the channel capacity is positive and the
    segment size at most 2^63, topics are plain names ([plain_topic]), each
    partition found on the disk is only produced to or only fetched from by the
    clients ([one_way]), and offsets do not run out. Stopped after any move,
    with commands unanswered and partitions half used, and started again on the
    same files with the same configuration, it finds exactly the partitions of
    the atomic broker that the run simulates (all of them with plain topics);
    each of them reads every offset as the atomic broker's log has it, and the
    next offset is the one after the last record; the logs found at the start
    are a part of these. And for all next clients that satisfy [clients_ok], in
    particular ask for plain topics and only produce to or only fetch from each
    of the partitions found, the broker is again launched: the refinement, the
    answers and this theorem itself hold for the second broker with such
    clients, the third and so on. *)
Theorem Broker_restart config w logs backlog reqs :
  launch config w logs backlog reqs →
  ∃ sys, start config (inl backlog) w = Ok sys ∧ ∀ ms sys', run ms sys = Some sys' →
    ∃ st, rtc (atomic_step (Config.segment_max_bytes config)) (atomic_init logs reqs) st ∧ observed sys' st ∧
      grows_to logs (at_logs st) ∧
      (∀ backlog2, ∃ sys2, start config (inl backlog2) (shutdown sys') = Ok sys2 ∧
         sy_backlog sys2 = backlog2 ∧ sy_conns sys2 = [] ∧ restored sys2 (at_logs st)) ∧
      (∀ backlog2 reqs2, clients_ok (at_logs st) backlog2 reqs2 → launch config (shutdown sys') (at_logs st) backlog2 reqs2).
Proof.
  intros Hl. destruct (start_simulates config w logs backlog reqs Hl) as (U & sys & Hs & _ & Hsim). exists sys. split; [exact Hs|].
  intros ms sys' Hr. destruct (simulates_run _ _ _ _ _ _ Hsim Hr) as (left' & st & _ & Hs' & Hat). exists st.
  split; [exact Hat|]. split; [by eapply simulates_observed|]. split; [apply (history_run _ _ _ _ Hat)|].
  split; intros backlog2; [|intros reqs2; by eapply simulates_launch].
  destruct (simulates_stored _ _ _ _ Hs') as [Hh Hst]. apply start_restored; [exact Hh|apply Hl|apply Hl|exact Hst].
Qed.

(** The task of the partition reads the payload under the offset. *)
Definition readable (sys : System) (key : Key) (offset : Z) (payload : bytes) : Prop :=
  ∃ a act rec, find_sender (rg_topics (fst (sy_shared sys))) (fst key) (snd key) = Some a ∧
    rt_actors (snd (sy_shared sys)) !! a = Some act ∧
    fst (Partition_read offset (ac_partition act, rt_world (snd (sy_shared sys)))) = Ok (Some rec) ∧
    stores rec offset None (Some payload).

Lemma restored_readable sys logs key rs rec offset payload :
  restored sys logs → logs !! key = Some rs → record_at 0 rs offset = Some rec → stores rec offset None (Some payload) →
  readable sys key offset payload.
Proof.
  intros [Hf Hr] Hk Hat Hst. destruct key as [topic id]. destruct (proj2 (Hf topic id)) as [a Ha]; [by eexists|].
  destruct (Hr topic id a rs Ha Hk) as (act & Hact & Hread & _). exists a, act, rec. rewrite Hread, Hat. done.
Qed.



(** Clients that only fetch can use any broker's logs. *)
Lemma readers_ok logs backlog reqs :
  Forall2 (λ fr r, talking fr r []) (accepted backlog) reqs → Forall (Forall (λ req, plain_topic (fst (req_key req)))) reqs →
  Forall (Forall (λ req, creates req = false)) reqs → (∀ key rs, logs !! key = Some rs → blen rs < 2 ^ 64) →
  clients_ok logs backlog reqs.
Proof.
  intros Htk Hpl Hcr Hroom.
  assert (Hw : clients_weight (at_clients (atomic_init logs reqs)) = 0).
  { rewrite <- queued_weight. clear -Hcr. induction Hcr as [|r reqs Hr _ IH]; [done|]. rewrite fmap_cons, ghosts_weight_cons, IH.
    cbn [queued g_todo]. rewrite Z.add_0_r. clear -Hr. induction Hr as [|req r Hreq _ IH]; [done|].
    rewrite reqs_weight_cons, IH. by destruct req. }
  split; [exact Htk|exact Hpl|rewrite Hw; lia| |].
  - intros key rs Hk. rewrite Hw, Z.add_0_r. by eapply Hroom.
  - intros key rs _. exists false. eapply Forall_impl; [exact Hcr|]. intros r Hr. eapply Forall_impl; [exact Hr|]. done.
Qed.
End broker.
