(* ===== verification/ClientRules.v ===== *)
(** * Reasoning about client sessions

    [runs s c Q]: the session [s] on the connection [c] ends, and its events,
    its result and the connection satisfy [Q]; a rule per operation. [connected]
    ties a client to a connection of the broker: each reads what the other
    wrote. [conversation] says what the broker then wrote. *)
From S2P Require Import Prelude Errors BytesCrate StdText Types Frame Request Response Tokio FileSystem BinarySearch Index Record Segment SegmentInv SegmentRead SegmentWrite SegmentLoad Partition Listing PartitionInv Isolation PartitionWrite PartitionRead PartitionOpen PartitionSpec Registry Handler Connection Clients BrokerSpec BrokerHistory Layout BrokerStore DataDir BrokerTasks BrokerSim BrokerSteps BrokerStart BrokerRun BrokerDelivery BrokerTheorems.
#[local] Open Scope Z_scope.

(** Reduces a session to its next operation. *)
Ltac session := cbn [mbind Session_bind mret Session_ret].

(** ** The events of a session *)
Definition printed : list Event → list Line := omap (λ e, match e with Printed l => Some l | _ => None end).
Definition sent : list Event → list Frame := omap (λ e, match e with Sent f => Some f | _ => None end).
Definition received : list Event → list Frame :=
  omap (λ e, match e with Received (Some (inl f)) => Some f | _ => None end).

Section runs.
Context `{BytesLaws, !FramedOps, !FramedLaws}.

Definition runs {A} (s : Session A) (c : framed) (Q : list Event → outcome RukaError A → framed → Prop) : Prop :=
  let '(ev, o, c') := drive s c in Q ev o c'.

Lemma runs_mono {A} (s : Session A) c (Q Q' : list Event → outcome RukaError A → framed → Prop) :
  runs s c Q → (∀ ev o c', Q ev o c' → Q' ev o c') → runs s c Q'.
Proof. unfold runs. destruct (drive s c) as [[ev o] c']. intros HQ Hi. by apply Hi. Qed.

Lemma runs_finish {A} (o : outcome RukaError A) c Q : Q [] o c → runs (Finish o) c Q.
Proof. done. Qed.

Lemma runs_print {A} l (k : Session A) c Q :
  runs k c (λ ev, Q (Printed l :: ev)) → runs (PrintLine l k) c Q.
Proof. unfold runs. cbn [drive]. by destruct (drive k c) as [[ev o] c']. Qed.

Lemma runs_send {A} f (k : option RukaError → Session A) c Q :
  framed_open c →
  (∀ c', framed_in c' = framed_in c → framed_out c' = framed_out c ++ wire f → framed_open c' →
     runs (k None) c' (λ ev, Q (Sent f :: ev))) →
  runs (SendFrame f k) c Q.
Proof.
  intros Hop Hk. unfold runs in *. cbn [drive].
  destruct (framed_send_law c f (wire f) Hop (Frame_encode_eq f [])) as (c' & -> & Hin & Hout & Hop').
  specialize (Hk c' Hin Hout Hop'). by destruct (drive (k None) c') as [[ev o] c2].
Qed.

Lemma runs_next {A} f rest (k : option (Frame + RukaError) → Session A) c Q :
  framed_in c = wire f ++ rest → sendable f → framed_open c →
  (∀ c', framed_in c' = rest → framed_out c' = framed_out c → framed_open c' →
     runs (k (Some (inl f))) c' (λ ev, Q (Received (Some (inl f)) :: ev))) →
  runs (NextFrame k) c Q.
Proof.
  intros Hin Hs Hop Hk. unfold runs in *. cbn [drive].
  destruct (framed_next_frame c f rest) as (c' & -> & Hin' & Hout & Hop').
  { rewrite Hin. by apply Frame_decode_wire. }
  specialize (Hk c' Hin' Hout (Hop' Hop)). by destruct (drive (k (Some (inl f))) c') as [[ev o] c2].
Qed.

(** The broker has closed the connection. *)
Lemma runs_end {A} (k : option (Frame + RukaError) → Session A) c Q :
  framed_in c = [] →
  (∀ r c', (∀ f, r ≠ Some (inl f)) → framed_out c' = framed_out c → runs (k r) c' (λ ev, Q (Received r :: ev))) →
  runs (NextFrame k) c Q.
Proof.
  intros Hin Hk. unfold runs in *. cbn [drive].
  destruct (framed_next_end c) as (r & c' & -> & Hout & Hr); [by rewrite Hin|].
  specialize (Hk r c' Hr Hout). by destruct (drive (k r) c') as [[ev o] c2].
Qed.

(** A result that ends the session for its continuation too. *)
Definition ends {A B} (o : outcome RukaError A) : outcome RukaError B :=
  match o with Ok _ => OutOfFuel | Err e => Err e | Panic => Panic | OutOfFuel => OutOfFuel end.

Lemma runs_bind {A B} (s : Session A) (k : A → Session B) c Q :
  runs s c (λ ev o c', match o with
    | Ok a => runs (k a) c' (λ ev2, Q (ev ++ ev2))
    | _ => Q ev (ends o) c'
    end) → runs (s ≫= k) c Q.
Proof.
  revert c Q. induction s as [[a|e| |]|f h IH|h IH|l h IH]; intros c Q Hs; try exact Hs; unfold runs in *; cbn [mbind Session_bind drive] in *.
  - destruct (framed_send f c) as [r c1]. destruct (drive (h r) c1) as [[ev o] c2] eqn:Hd.
    specialize (IH r c1 (λ ev2, Q ((match r with None => Sent f | Some e => NotSent f e end) :: ev2))).
    destruct (drive (h r ≫= k) c1) as [[ev3 o3] c3]. apply IH. by rewrite Hd.
  - destruct (framed_next c) as [r c1]. destruct (drive (h r) c1) as [[ev o] c2] eqn:Hd.
    specialize (IH r c1 (λ ev2, Q (Received r :: ev2))).
    destruct (drive (h r ≫= k) c1) as [[ev3 o3] c3]. apply IH. by rewrite Hd.
  - destruct (drive h c) as [[ev o] c2] eqn:Hd.
    specialize (IH c (λ ev2, Q (Printed l :: ev2))).
    destruct (drive (h ≫= k) c) as [[ev3 o3] c3]. apply IH. by rewrite Hd.
Qed.

(** Whatever happens, what the session wrote so far stays written. *)
Lemma drive_written {A} (s : Session A) c : framed_out c `prefix_of` framed_out (snd (drive s c)).
Proof.
  revert c. induction s as [o|f k IH|k IH|l k IH]; intros c; cbn [drive].
  - done.
  - pose proof (framed_send_written c f) as Hw. destruct (framed_send f c) as [r c1]. specialize (IH r c1).
    destruct (drive (k r) c1) as [[ev o] c2]. cbn [fst snd] in *. by etrans.
  - pose proof (framed_next_written c) as Hw. destruct (framed_next c) as [r c1]. specialize (IH r c1).
    destruct (drive (k r) c1) as [[ev o] c2]. cbn [fst snd] in *. by rewrite <- Hw.
  - specialize (IH c). by destruct (drive k c) as [[ev o] c2].
Qed.
End runs.

(** ** A client and its connection *)
Section conversation.
Context `{BytesLaws, !MpscOps, !MpscLaws, !OneshotOps, !OneshotLaws, !ErrorTexts, !FramedOps, !FramedLaws}.

(** The client has an open connection; the broker accepted it as [accepted]
    and left it as [closed]; each side reads what the other wrote. *)
Record connected {A} (s : Session A) (client accepted closed : framed) : Prop := {
  cn_open : framed_open client;
  cn_fresh : framed_out client = [];
  cn_reads : framed_in client = framed_out closed;
  cn_writes : framed_in accepted = framed_out (snd (drive s client))
}.

(** What the broker wrote on a closed connection, given what it read. *)
Record served (config : Config.BrokerConfig) (P : Z) (fr0 fr : framed) (rs : list Request) (resps : list Response)
    (logs : gmap Key (list LogRecord)) : Prop := {
  sv_read : parsed (framed_in fr0) rs;
  sv_wrote : framed_out fr = wires (Response_into_frame <$> resps);
  sv_explained : Forall2 (explained (Config.segment_max_bytes config) logs) rs resps;
  sv_own : reads_own rs resps;
  sv_cids : Response_correlation_id <$> resps = req_cid <$> rs;
  sv_fits : Forall Response_fits resps;
  sv_logs : ∀ key l, logs !! key = Some l → Forall (modest_record P) l
}.

(** The setting of the theorems about clients: a broker whose responses fit. *)
Record hosts (config : Config.BrokerConfig) (w : World) (logs : gmap Key (list LogRecord)) (backlog : list AcceptResult) (reqs : list (list Request)) (P M : Z) : Prop := {
  ho_launch : launch config w logs backlog reqs;
  ho_logs : modest_logs P logs;
  ho_room : frame_room P M;
  ho_texts : ∀ e, 19 + blen (to_string e) ≤ MAX_FRAME_SIZE;
  ho_modest : Forall (Forall (modest_request P M)) reqs
}.

Lemma conversation config w logs backlog reqs P M :
  hosts config w logs backlog reqs P M →
  ∃ sys, start config (inl backlog) w = Ok sys ∧ ∀ ms sys' t fr0 fr, run ms sys = Some sys' →
    accepted backlog !! t = Some fr0 → sy_conns sys' !! t = Some (Closed fr) →
    ∃ rs resps logs', served config P fr0 fr rs resps logs'.
Proof.
  intros [Hl Hml Hroom Htexts Hmod]. destruct (start_simulates config w logs backlog reqs Hl) as (U & sys & Hs & _ & Hsim).
  exists sys. split; [exact Hs|]. intros ms sys' t fr0 fr Hr Hacc Hc.
  destruct (simulates_run _ _ _ _ _ _ Hsim Hr) as (left' & st & _ & Hs' & Hat).
  destruct (Forall2_lookup_l _ _ _ _ _ (cl_talking _ _ _ (la_clients _ _ _ _ _ Hl)) Hacc) as (rs & Ht & [Hin _ _]).
  destruct (closed_history _ _ _ _ _ _ _ _ _ _ Hs' Hat Hc Ht) as (resps & Hout & Hcl & _ & [Hex Hro _]).
  pose proof (modest_run P M Hroom Htexts _ _ _ Hat (launch_modest _ _ _ _ _ P M Hl Hroom Htexts Hml Hmod)) as [Hlogs _ _ Hdone].
  rewrite Forall_lookup in Hdone. specialize (Hdone t _ Hcl). exists rs, resps, (at_logs st). split; try done.
  - apply atomic_run_cids in Hat. rewrite init_cids in Hat. apply (f_equal (λ l, l !! t)) in Hat.
    rewrite !list_lookup_fmap, Ht, Hcl in Hat. injection Hat as Hat. cbn in Hat. by rewrite app_nil_r in Hat.
  - intros key l Hk. by eapply Hlogs.
Qed.

(** The client wrote a request, so the broker read it first and answered it. *)
Lemma served_cons config P fr0 fr rs resps logs req :
  served config P fr0 fr rs resps logs → sendable (Request_into_frame req) → Request_typed req →
  wire (Request_into_frame req) `prefix_of` framed_in fr0 →
  ∃ rs' resp resps', rs = req :: rs' ∧ resps = resp :: resps' ∧
    explained (Config.segment_max_bytes config) logs req resp ∧ Response_fits resp ∧
    framed_out fr = wire (Response_into_frame resp) ++ wires (Response_into_frame <$> resps').
Proof.
  intros [Hp Hw Hex _ _ Hf _] Hs Hty [rest Hrest]. rewrite Hrest in Hp.
  destruct (parsed_wire_cons _ _ _ Hs Hty Hp) as (rs' & -> & _). inversion Hex as [|? resp ? resps' He Hex']; subst.
  apply Forall_cons in Hf as [Hf _]. by exists rs', resp, resps'.
Qed.
End conversation.
