(* ===== verification/ClientTheorems.v ===== *)
(** * The example clients against the broker

    `client.rs` reads back what it wrote; the benchmarks keep their window,
    never wait for a reply that cannot come, and get every message
    acknowledged. The broker may run under any interleaving with any other
    clients. *)
From S2P Require Import Prelude Errors BytesCrate StdText Types Frame Request Response Tokio FileSystem BinarySearch Index Record Segment SegmentInv SegmentRead SegmentWrite SegmentLoad Partition Listing PartitionInv Isolation PartitionWrite PartitionRead PartitionOpen PartitionSpec Registry Handler Connection Clients BrokerSpec BrokerHistory Layout BrokerStore DataDir BrokerTasks BrokerSim BrokerSteps BrokerStart BrokerRun BrokerDelivery BrokerTheorems ClientRules.
#[local] Open Scope Z_scope.

(** The frames of `client.rs`. *)
Abbreviation produce_frame := (Request_into_frame (RProduce client_produce)).
Abbreviation fetch_frame o := (Request_into_frame (RFetch (client_fetch o))).

(** ** A record whatever its offset and time *)
Lemma be_bytes_wrap n v : be_bytes n (v mod 256 ^ Z.of_nat n) = be_bytes n v.
Proof.
  rewrite (Z.div_mod v (256 ^ Z.of_nat n)) at 2 by (apply Z.pow_nonzero; lia).
  rewrite (Z.mul_comm (256 ^ _)). by rewrite be_bytes_high.
Qed.

Definition wrapped (r : LogRecord) : LogRecord :=
  {| r_offset := as_u64 (r_offset r); r_timestamp_ms := as_u64 (r_timestamp_ms r); r_key := r_key r; r_value := r_value r |}.

Lemma record_bytes_wrapped r : record_bytes (wrapped r) = record_bytes r.
Proof.
  unfold record_bytes, wrapped, wrap. cbn [r_offset r_timestamp_ms r_key r_value].
  change (2 ^ 64) with (256 ^ Z.of_nat 8). by rewrite !be_bytes_wrap.
Qed.

Section client.
Context `{BytesLaws, !FramedOps, !FramedLaws}.

Lemma stored_record_decodes r t :
  storable (r_key r) (r_value r) → Record_decode (record_bytes r ++ t) = (Ok (Some (wrapped r)), t).
Proof.
  intros Hs. rewrite <- record_bytes_wrapped. apply Record_decode_app.
  split; [by apply wrap_uint|]. split; [by apply wrap_uint|exact Hs].
Qed.

(** ** `client.rs` *)
Lemma fetch_frame_sendable o : sendable (fetch_frame o).
Proof.
  assert (Hb : blen (f_payload (fetch_frame o)) = 12).
  { cbn. unfold built. mstep put_u64_eq. rewrite put_u32_eq. cbn [snd]. len. }
  unfold sendable, Frame_typed, body_len. rewrite Hb. by vm_compute.
Qed.

Lemma produce_frame_sendable : sendable produce_frame.
Proof. by vm_compute. Qed.

(** After the broker's acknowledgement the client fetches at its offset. *)
Lemma client_acknowledged p rest c Q :
  framed_open c → framed_in c = wire (ProduceResponse_into_frame p) ++ rest → Response_fits (ResProduce p) →
  (∀ c' k, framed_in c' = rest → framed_out c' = framed_out c ++ wire produce_frame ++ wire (fetch_frame (pres_offset p)) →
     framed_open c' →
     (∀ f, f_api_key f = AFetch → k (Some (inl f)) = client_show_fetch (f_payload f)) →
     runs (NextFrame k) c' (λ ev, Q
       (Printed (SendingProduce client_topic message_str) :: Sent produce_frame ::
        Received (Some (inl (ProduceResponse_into_frame p))) :: Printed (ProduceSuccessful (pres_offset p)) ::
        Printed (SendingFetch (pres_offset p)) :: Sent (fetch_frame (pres_offset p)) :: ev))) →
  runs client_main c Q.
Proof.
  intros Hop Hin Hfit Hk. unfold client_main. apply runs_print. apply runs_send; [exact Hop|]. intros c1 Hin1 Hout1 Hop1.
  eapply (runs_next (ProduceResponse_into_frame p)); [by rewrite Hin1|by apply (Response_sendable (ResProduce p))|exact Hop1|].
  intros c2 Hin2 Hout2 Hop2. session. rewrite bool_decide_eq_true_2 by done.
  assert (Hoff : read_offset (f_payload (ProduceResponse_into_frame p)) = Ok (pres_offset p)).
  { destruct (Response_answers _ Hfit) as (_ & _ & _ & _ & Hfo). unfold read_offset, frame_offset in *.
    cbn [Response_into_frame] in Hfo. rewrite Hfo. case_Zbool; [|done]. exfalso.
    cbn [ProduceResponse_into_frame f_payload] in *. rewrite built_put_u64 in *. len. }
  rewrite Hoff. session. apply runs_print. session. apply runs_print. apply runs_send; [exact Hop2|]. intros c3 Hin3 Hout3 Hop3.
  apply Hk; [congruence| |exact Hop3|].
  - rewrite Hout3, Hout2, Hout1. by rewrite <- (assoc_L (++)).
  - intros f Hf. session. by rewrite bool_decide_eq_true_2.
Qed.

(** The record is shown, and it is the message. *)
Lemma client_shows rs rec c Q :
  Forall (λ r, storable (r_key r) (r_value r)) (rec :: rs) → blen (rec :: rs) < 2 ^ 32 → r_value rec = Some message_str →
  Q [Printed (FetchSuccessful message_str); Printed RoundTripped] (Ok tt) c →
  runs (client_show_fetch (be_bytes 4 (as_u32 (blen (rec :: rs))) ++ log_bytes (rec :: rs))) c Q.
Proof.
  intros Hst Hlen Hv HQ. unfold client_show_fetch, on_buffer. pose proof (blen_nonneg rs) as Hn. rewrite blen_cons in *.
  rewrite wrap_id by (unfold is_uint; lia). rewrite get_u32_app by (unfold is_uint; lia). session.
  case_Zbool; [|lia]. rewrite log_bytes_cons, stored_record_decodes by (by inversion Hst).
  cbn [mbind Session_bind mret Session_ret wrapped r_value]. rewrite Hv. cbn [default].
  assert (Hl : to_string_lossy message_str = message_str) by (vm_compute; reflexivity). unfold id. rewrite Hl.
  apply runs_print. rewrite bool_decide_eq_true_2 by done. by apply runs_print, runs_finish.
Qed.
End client.

(** ** The clients and the broker *)
Section broker.
Context `{BytesLaws, !MpscOps, !MpscLaws, !OneshotOps, !OneshotLaws, !ErrorTexts, !FramedOps, !FramedLaws}.

Lemma log_bytes_long rs : blen rs ≤ blen (log_bytes rs).
Proof.
  induction rs as [|r rs IH]; [done|]. rewrite log_bytes_cons, blen_cons, blen_app, blen_record_bytes.
  pose proof (rsize_min r). lia.
Qed.

(** A fetch response carries few enough records for its count. *)
Lemma fetch_response_shape q rs :
  Response_fits (ResFetch q) → fres_payload q = fetch_payload rs → Forall (λ r, storable (r_key r) (r_value r)) rs →
  fres_payload q = be_bytes 4 (as_u32 (blen rs)) ++ log_bytes rs ∧ blen rs < 2 ^ 32.
Proof.
  intros [_ Hsz] Hp Hst. rewrite fetch_payload_eq in Hp by exact Hst. split; [exact Hp|]. rewrite Hp in Hsz.
  pose proof (log_bytes_long rs). pose proof (blen_nonneg (fres_topic q)). unfold MAX_FRAME_SIZE in Hsz.
  rewrite blen_app, blen_be_bytes in Hsz. lia.
Qed.

(** The first answer the client gets: its message is stored. *)
Lemma client_produced config P client fr0 fr rs resps logs :
  served config P fr0 fr rs resps logs → connected client_main client fr0 fr →
  psize message_str ≤ Config.segment_max_bytes config →
  ∃ rs' p resps', rs = RProduce client_produce :: rs' ∧ resps = ResProduce p :: resps' ∧ Response_fits (ResProduce p) ∧
    framed_in client = wire (ProduceResponse_into_frame p) ++ wires (Response_into_frame <$> resps').
Proof.
  intros Hsv [Hop Hfr Hin Hwr] Hsz.
  destruct (served_cons _ _ _ _ _ _ _ (RProduce client_produce) Hsv produce_frame_sendable I)
    as (rs' & resp & resps' & -> & -> & He & Hf & Hout).
  - rewrite Hwr. assert (Hpre : runs client_main client (λ _ _ c', wire produce_frame `prefix_of` framed_out c')).
    { unfold client_main. apply runs_print. apply runs_send; [exact Hop|]. intros c1 _ Hout1 _. rewrite Hfr in Hout1.
      unfold runs. match goal with |- context [drive ?s c1] => pose proof (drive_written s c1) as Hw; destruct (drive s c1) as [[ev o] c2] end.
      by rewrite Hout1 in Hw. }
    unfold runs in Hpre. by destruct (drive client_main client) as [[ev o] c'].
  - destruct resp as [p|p|p|p]; cbn [explained] in He; try done.
    + exists rs', p, resps'. by rewrite Hin.
    + cbn in He. unfold psize in *. cbn in *. lia.
Qed.

(** The second: the fetch finds it. *)
Lemma client_fetched config P client fr0 fr rs resps logs p resps' :
  served config P fr0 fr rs resps logs → connected client_main client fr0 fr →
  resps = ResProduce p :: resps' → Response_fits (ResProduce p) →
  framed_in client = wire (ProduceResponse_into_frame p) ++ wires (Response_into_frame <$> resps') →
  ∃ q resps2, resps' = ResFetch q :: resps2 ∧ Response_fits (ResFetch q) ∧
    explained (Config.segment_max_bytes config) logs (RProduce client_produce) (ResProduce p) ∧
    explained (Config.segment_max_bytes config) logs (RFetch (client_fetch (pres_offset p))) (ResFetch q).
Proof.
  intros Hsv [Hop Hfr _ Hwr] -> Hfit Hin. pose proof Hsv as [Hp _ Hex Hro _ Hfs _].
  assert (Hpre : wire produce_frame ++ wire (fetch_frame (pres_offset p)) `prefix_of` framed_in fr0).
  { rewrite Hwr. assert (Hpre : runs client_main client (λ _ _ c', wire produce_frame ++ wire (fetch_frame (pres_offset p)) `prefix_of` framed_out c')).
    { eapply client_acknowledged; [exact Hop|exact Hin|exact Hfit|]. intros c' k _ Hout _ _. rewrite Hfr in Hout. unfold runs.
      match goal with |- context [drive ?s c'] => pose proof (drive_written s c') as Hw; destruct (drive s c') as [[ev o] c2] end.
      by rewrite Hout in Hw. }
    unfold runs in Hpre. by destruct (drive client_main client) as [[ev o] c']. }
  destruct Hpre as [rest Hrest]. rewrite Hrest, <- !(assoc_L (++)) in Hp.
  destruct (parsed_wire_cons _ _ _ produce_frame_sendable I Hp) as (rs1 & -> & Hp1).
  apply Forall2_cons_1 in Hex as [Hex1 Hex]. destruct Hfit as [Ha Hoff].
  destruct (parsed_wire_cons (RFetch (client_fetch (pres_offset p))) rest rs1) as (rs2 & -> & _);
    [apply fetch_frame_sendable|by split|exact Hp1|].
  inversion Hex as [|? resp ? resps2 Hex2 _]; subst. apply Forall_cons in Hfs as [_ Hfs]. apply Forall_cons in Hfs as [Hf2 _].
  destruct (Hro 0%nat 1%nat (RProduce client_produce) (ResProduce p) (pres_offset p) (pr_payload client_produce) (client_fetch (pres_offset p)))
    as (q & rec & out & Hq & _); try done; [lia|by left|cbn; lia|].
  injection Hq as ->. by exists q, resps2.
Qed.

(** C12: the example client works. The setting is [hosts]: a launched broker
    ([launch]; since this client produces and fetches, one that did not find its
    partition demo-topic/0 on the disk) whose clients' payloads, records and
    fetch sizes let every response fit a frame; and a segment has room for the
    message. Then, under every interleaving with the other clients, once its
    connection is closed, `client.rs` has printed that its message was stored,
    at the offset the broker gave it, that the fetch at this offset returned
    that very message, and that the data made the round trip; it returned
    without error or panic. *)
Theorem client_example_succeeds config w logs backlog reqs P M :
  hosts config w logs backlog reqs P M → psize message_str ≤ Config.segment_max_bytes config →
  ∃ sys, start config (inl backlog) w = Ok sys ∧ ∀ ms sys' t client fr0 fr, run ms sys = Some sys' →
    accepted backlog !! t = Some fr0 → sy_conns sys' !! t = Some (Closed fr) → connected client_main client fr0 fr →
    ∃ offset ev client', drive client_main client = (ev, Ok tt, client') ∧
      printed ev = [SendingProduce client_topic message_str; ProduceSuccessful offset; SendingFetch offset;
                    FetchSuccessful message_str; RoundTripped].
Proof.
  intros Hh Hsz. destruct (conversation _ _ _ _ _ _ _ Hh) as (sys & Hs & Hconv). exists sys. split; [exact Hs|].
  intros ms sys' t client fr0 fr Hr Hacc Hc Hcn. destruct (Hconv _ _ _ _ _ Hr Hacc Hc) as (rs & resps & logs' & Hsv).
  destruct (client_produced _ _ _ _ _ _ _ _ Hsv Hcn Hsz) as (rs' & p & resps' & _ & Hresps & Hfit & Hin).
  destruct (client_fetched _ _ _ _ _ _ _ _ _ _ Hsv Hcn Hresps Hfit Hin) as (q & resps2 & -> & Hfq & Hex1 & Hex2).
  destruct Hex1 as (log & rec & Hk & Hat & _ & _ & Hv). destruct Hex2 as (log' & out & Hk' & Hpl & Hsub & Hhd).
  change (req_key (RFetch _)) with (req_key (RProduce client_produce)) in Hk'. rewrite Hk in Hk'. injection Hk' as <-.
  destruct Hhd as (rec' & Ho & Hat'); [done|]. change (fr_offset _) with (pres_offset p) in Hat'. rewrite Hat in Hat'. injection Hat' as <-.
  destruct out as [|x out]; [done|]. injection Ho as ->.
  assert (Hst : Forall (λ r, storable (r_key r) (r_value r)) (rec :: out)).
  { eapply Forall_impl; [|by apply (modest_storable P M); apply Hh]. eapply read_Forall; [exact Hsub|by eapply sv_logs]. }
  destruct (fetch_response_shape q _ Hfq Hpl Hst) as [Hshape Hlen].
  assert (Hrun : runs client_main client (λ ev o _, o = Ok tt ∧ printed ev =
    [SendingProduce client_topic message_str; ProduceSuccessful (pres_offset p); SendingFetch (pres_offset p);
     FetchSuccessful message_str; RoundTripped])).
  { eapply client_acknowledged; [apply Hcn|exact Hin|exact Hfit|]. intros c' k Hin' _ Hop' Hk0.
    eapply runs_next; [exact Hin'|by apply (Response_sendable (ResFetch q))|exact Hop'|]. intros c2 _ _ _.
    rewrite Hk0 by done. cbn [Response_into_frame FetchResponse_into_frame f_payload]. rewrite Hshape. by apply client_shows. }
  unfold runs in Hrun. destruct (drive client_main client) as [[ev o] client']. destruct Hrun as [-> Hpr]. by exists (pres_offset p), ev, client'.
Qed.
End broker.
