(* ===== verification/BenchTheorems.v ===== *)
(** * The benchmark clients against the broker

    The pipelined loop keeps its window, waits only for replies that are under
    way, sends every batch once and gets every batch answered; the sequential
    loop is the same with a window of one. *)
From S2P Require Import Prelude Errors BytesCrate StdText Types Frame Request Response Tokio FileSystem BinarySearch Index Record Segment SegmentInv SegmentRead SegmentWrite SegmentLoad Partition Listing PartitionInv Isolation PartitionWrite PartitionRead PartitionOpen PartitionSpec Registry Handler Connection Clients BrokerSpec BrokerHistory Layout BrokerStore DataDir BrokerTasks BrokerSim BrokerSteps BrokerStart BrokerRun BrokerDelivery BrokerTheorems ClientRules.
#[local] Open Scope Z_scope.

(** With [n] requests under way: a request is sent only when fewer than [max]
    are, and a reply is waited for only when some is. *)
Fixpoint windowed (max n : Z) (ev : list Event) : Prop :=
  match ev with
  | [] => True
  | Sent _ :: ev => n < max ∧ windowed max (n + 1) ev
  | Received _ :: ev => 0 < n ∧ windowed max (n - 1) ev
  | _ :: ev => windowed max n ev
  end.

Lemma wires_cons f fs : wires (f :: fs) = wire f ++ wires fs.
Proof. reflexivity. Qed.
Lemma wires_app fs1 fs2 : wires (fs1 ++ fs2) = wires fs1 ++ wires fs2.
Proof. unfold wires. by rewrite fmap_app, concat_app. Qed.

(** ** The pipelined loop *)
Section pipelined.
Context `{BytesLaws, !FramedOps, !FramedLaws}.
Context (args : Args) (failed : RukaError → outcome RukaError Pipeline) (total : Z).
Context (Htotal : 0 ≤ total < 2 ^ 64) (Hwindow : 0 < max_in_flight args).

(** The [i]th batch, and [n] of them after the first [s]. *)
Definition batch_frame (i : Z) : Frame := Request_into_frame (RProduceBatch (batch_request args (as_u32 i))).
Definition batch_frames (s n : Z) : list Frame := batch_frame <$> seqZ (s + 1) n.

(** The counters after [s] batches were sent and [r] replies received. *)
Definition counters (s r : Z) : Pipeline :=
  {| correlation_id := as_u32 s; in_flight := s - r; replies_received := r; batches_sent := s |}.

Lemma batch_frames_cons s n : 0 < n → batch_frames s n = batch_frame (s + 1) :: batch_frames (s + 1) (n - 1).
Proof using Type. intros Hn. unfold batch_frames. rewrite seqZ_cons by lia. cbn [fmap list_fmap]. by rewrite <- Z.sub_1_r, <- Z.add_1_r. Qed.

Lemma batch_frames_app s n m : 0 ≤ n → 0 ≤ m → batch_frames s (n + m) = batch_frames s n ++ batch_frames (s + n) m.
Proof using Type.
  intros Hn Hm. unfold batch_frames. rewrite seqZ_app by lia. rewrite fmap_app. do 3 f_equal. lia.
Qed.

Lemma next_cid s : add_u32 (as_u32 s) 1 = as_u32 (s + 1).
Proof using Type. unfold add_u32, wrap. by rewrite Zplus_mod_idemp_l. Qed.

(** The inner loop fills the window. *)
Lemma fill_window_runs fuel s r c :
  0 ≤ r ≤ s → s ≤ total → s - r ≤ max_in_flight args → framed_open c → total - s ≤ Z.of_nat fuel →
  runs (fill_window args failed fuel total (counters s r)) c (λ ev o c',
    let s' := Z.min total (r + max_in_flight args) in
    o = Ok (counters s' r) ∧ sent ev = batch_frames s (s' - s) ∧ received ev = [] ∧
    framed_in c' = framed_in c ∧ framed_out c' = framed_out c ++ wires (sent ev) ∧ framed_open c' ∧
    ∀ ev2, windowed (max_in_flight args) (s' - r) ev2 → windowed (max_in_flight args) (s - r) (ev ++ ev2)).
Proof using All.
  revert s c. induction fuel as [|fuel IH]; intros s c Hr Hs Hw Hop Hf; cbn [fill_window counters in_flight batches_sent].
  all: case_Zbool; [case_Zbool|].
  all: cbn [andb]; try (apply runs_finish; replace (Z.min total (r + max_in_flight args)) with s by lia;
    rewrite Z.sub_diag; unfold wires; cbn [sent received omap list_omap fmap list_fmap concat]; rewrite app_nil_r; by split_and!).
  1: lia.
  change (correlation_id (counters s r)) with (as_u32 s). change (replies_received (counters s r)) with r. rewrite next_cid, !add_u64_id by lia. unfold send_frame. session.
  apply runs_send; [exact Hop|]. intros c1 Hin1 Hout1 Hop1. session.
  replace (s - r + 1) with (s + 1 - r) by lia. change {| correlation_id := as_u32 (s + 1); in_flight := s + 1 - r;
    replies_received := r; batches_sent := s + 1 |} with (counters (s + 1) r).
  eapply runs_mono; [apply (IH (s + 1) c1); [lia..|exact Hop1|lia]|].
  cbn beta zeta. set (s' := Z.min total _). intros ev o c' (-> & Hsent & Hrec & Hin & Hout & Hop' & Hwin).
  split; [done|]. cbn [sent received omap list_omap]. split; [rewrite (batch_frames_cons s) by lia; f_equal; rewrite Hsent; f_equal; lia|].
  split; [exact Hrec|]. split; [congruence|]. split; [|split; [exact Hop'|]].
  - rewrite Hout, Hout1, wires_cons. by rewrite <- (assoc_L (++)).
  - intros ev2 Hw2. cbn [windowed app]. split; [lia|]. replace (s - r + 1) with (s + 1 - r) by lia. by apply Hwin.
Qed.

(** The outer loop: it ends with every batch answered, or it has run out of
    replies although more batches are under way. *)
Lemma pipeline_loop_runs fuel s r c fs :
  0 ≤ r ≤ s → s ≤ total → s - r ≤ max_in_flight args → framed_open c → framed_in c = wires fs → Forall sendable fs →
  total - r ≤ Z.of_nat fuel →
  runs (pipeline_loop args failed fuel total (counters s r)) c (λ ev o c',
    framed_out c' = framed_out c ++ wires (sent ev) ∧ windowed (max_in_flight args) (s - r) ev ∧
    ∃ n, 0 ≤ n ∧ sent ev = batch_frames s n ∧
      (o = Ok (counters total total) ∧ n = total - s ∧ received ev `prefix_of` fs ∧ blen (received ev) = total - r ∨
       blen fs < s - r + n)).
Proof using All.
  revert s r c fs. induction fuel as [|fuel IH]; intros s r c fs Hr Hs Hw Hop Hin Hfs Hf; cbn [pipeline_loop counters replies_received].
  all: case_Zbool; [|apply runs_finish; assert (r = total ∧ s = total) as [-> ->] by lia;
    cbn [sent received omap list_omap windowed]; rewrite app_nil_r; split; [done|]; split; [done|]; exists 0;
    split; [lia|]; split; [done|]; left; split; [done|]; split; [lia|]; split; [apply prefix_nil|change (blen _) with 0; lia]].
  1: lia.
  change {| correlation_id := as_u32 s; in_flight := s - r; replies_received := r; batches_sent := s |} with (counters s r).
  apply runs_bind. eapply runs_mono; [apply fill_window_runs; done || lia|].
  cbn beta zeta. set (s' := Z.min total _). intros ev o c1 (-> & Hsent & Hrec & Hin1 & Hout1 & Hop1 & Hwin). cbn beta iota.
  assert (Hs' : r < s' ≤ total ∧ s ≤ s' ∧ s' - r ≤ max_in_flight args) by lia. unfold next_frame. session.
  destruct Hfs as [|f fs Hsf Hfs].
  - apply runs_end; [by rewrite Hin1, Hin|]. intros x c2 Hx Hout2.
    destruct x as [[f|e]|]; [by destruct (Hx f)| |]; session; apply runs_finish; unfold sent;
      rewrite omap_app; cbn [omap list_omap]; rewrite app_nil_r; fold (sent ev); (split; [congruence|]; split;
      [apply Hwin; cbn [windowed]; split; [lia|done]|]; exists (s' - s); split; [lia|]; split; [exact Hsent|]; right; rewrite blen_nil; lia).
  - eapply (runs_next f (wires fs)); [by rewrite Hin1, Hin|exact Hsf|exact Hop1|]. intros c2 Hin2 Hout2 Hop2. session.
    cbn [counters correlation_id in_flight replies_received batches_sent]. rewrite (wrap_id 64) by (unfold is_uint; lia).
    rewrite add_u64_id by lia. replace (s' - r - 1) with (s' - (r + 1)) by lia.
    change {| correlation_id := as_u32 s'; in_flight := s' - (r + 1); replies_received := r + 1; batches_sent := s' |}
      with (counters s' (r + 1)).
    eapply runs_mono; [apply (IH s' (r + 1) c2 fs); done || lia|]. cbn beta.
    intros ev2 o c3 (Hout3 & Hwin3 & n & Hn & Hsent3 & Hcase). unfold sent, received. rewrite !omap_app. cbn [omap list_omap].
    fold (sent ev) (sent ev2) (received ev) (received ev2). rewrite Hrec. cbn [app]. split; [|split].
    + rewrite Hout3, Hout2, Hout1, wires_app. by rewrite <- (assoc_L (++)).
    + apply Hwin. cbn [windowed]. split; [lia|]. by replace (s' - r - 1) with (s' - (r + 1)) by lia.
    + exists (s' - s + n). split; [lia|]. split.
      * rewrite Hsent, Hsent3, batch_frames_app by lia. do 2 f_equal. lia.
      * destruct Hcase as [(-> & -> & Hpre & Hlen)|Hlt]; [left|right; rewrite blen_cons; lia].
        split; [done|]. split; [lia|]. split; [by apply prefix_cons|rewrite blen_cons; lia].
Qed.
End pipelined.

(** ** The sequential loops *)

Definition requests (request : Z → Request) (i : Z) (n : nat) : list Request := request <$> seqZ i (Z.of_nat n).
Abbreviation frames request i n := (Request_into_frame <$> requests request i n).

(** [loop n i] sends the requests [i], ..., [i + n - 1], each after the reply to
    the one before. What it does without a reply is left open. *)
Record sequential (request : Z → Request) (loop : nat → Z → Session unit) `{!BytesOps} : Prop := {
  sq_done : ∀ i, loop 0%nat i = mret tt;
  sq_more : ∀ n i, ∃ k h, loop (S n) i = SendFrame (Request_into_frame (request i)) k ∧ k None = NextFrame h ∧
    ∀ f, h (Some (inl f)) = loop n (i + 1)
}.

Section sequential.
Context `{BytesLaws, !FramedOps, !FramedLaws}.

Lemma benchmark_sequential : sequential (λ i, RProduce (benchmark_request i)) benchmark_loop.
Proof. split; [done|]. intros n i. eexists _, _. split; [reflexivity|]. by split. Qed.

Lemma latency_sequential size : sequential (λ i, RProduce (latency_request size i)) (latency_loop size).
Proof. split; [done|]. intros n i. eexists _, _. split; [reflexivity|]. by split. Qed.

Lemma requests_S request i n : requests request i (S n) = request i :: requests request (i + 1) n.
Proof. unfold requests. rewrite seqZ_cons by lia. cbn [fmap list_fmap]. do 3 f_equal; lia. Qed.

Lemma requests_app request i n m : requests request i (n + m) = requests request i n ++ requests request (i + Z.of_nat n) m.
Proof. unfold requests. rewrite Nat2Z.inj_add, seqZ_app by lia. by rewrite fmap_app. Qed.

(** Either every request got its reply, or one more was sent than there are
    replies. *)
Definition exchanged (request : Z → Request) (i : Z) (n : nat) (fs : list Frame) (c : framed) (ev : list Event)
    (o : outcome RukaError unit) (c' : framed) : Prop :=
  (o = Ok tt ∧ sent ev = frames request i n ∧ received ev = take n fs ∧ (n ≤ length fs)%nat ∧
   framed_out c' = framed_out c ++ wires (sent ev) ∧ framed_in c' = wires (drop n fs) ∧ framed_open c' ∧
   ∀ ev2, windowed 1 0 ev2 → windowed 1 0 (ev ++ ev2)) ∨
  ((length fs < n)%nat ∧ framed_out c ++ wires (frames request i (S (length fs))) `prefix_of` framed_out c').

Lemma sequential_runs request loop n i c fs :
  sequential request loop → framed_open c → framed_in c = wires fs → Forall sendable fs →
  runs (loop n i) c (exchanged request i n fs c).
Proof.
  intros Hsq. revert i c fs. induction n as [|n IH]; intros i c fs Hop Hin Hfs.
  { rewrite (sq_done _ _ Hsq). apply runs_finish. left. cbn [sent received omap list_omap take drop app]. unfold wires at 1.
    cbn [fmap list_fmap concat]. rewrite app_nil_r. split_and!; done || lia. }
  destruct (sq_more _ _ Hsq n i) as (k & h & -> & Hk & Hh). apply runs_send; [exact Hop|]. intros c1 Hin1 Hout1 Hop1. rewrite Hk.
  destruct Hfs as [|f fs Hf Hfs].
  - unfold runs. pose proof (drive_written (NextFrame h) c1) as Hw. destruct (drive (NextFrame h) c1) as [[ev o] c2]. right.
    split; [cbn; lia|]. cbn [length snd] in *. rewrite Hout1 in Hw. rewrite requests_S. cbn [fmap list_fmap]. rewrite wires_cons.
    change (wires (frames request (i + 1) 0)) with (@nil byte). by rewrite app_nil_r.
  - eapply (runs_next f (wires fs)); [by rewrite Hin1, Hin|exact Hf|exact Hop1|]. intros c2 Hin2 Hout2 Hop2. rewrite Hh.
    eapply runs_mono; [by apply (IH (i + 1) c2 fs)|]. intros ev o c3 Hcase. unfold exchanged in *. rewrite Hout2, Hout1 in Hcase.
    rewrite !(requests_S request i). cbn [fmap list_fmap length sent received omap list_omap take drop]. rewrite !wires_cons.
    destruct Hcase as [(-> & Hs & Hrec & Hle & Hout & Hin3 & Hop3 & Hwin)|(Hlt & Hpre)]; [left|right].
    + fold (sent ev) (received ev). rewrite Hout, Hrec, Hs, <- !(assoc_L (++)). split_and!; try done; [lia|].
      intros ev2 Hw2. cbn [app windowed]. split; [lia|]. split; [lia|]. by apply Hwin.
    + split; [lia|]. by rewrite <- !(assoc_L (++)) in Hpre.
Qed.

(** Two such loops in a row, as in the latency test. *)
Lemma exchanged_app request loop n m i c fs :
  sequential request loop → framed_open c → framed_in c = wires fs → Forall sendable fs →
  runs (loop n i ≫= λ _, loop m (i + Z.of_nat n)) c (exchanged request i (n + m) fs c).
Proof.
  intros Hsq Hop Hin Hfs. apply runs_bind. eapply runs_mono; [by apply (sequential_runs request loop n i c fs)|].
  intros ev o c1 [(-> & Hs & Hrec & Hle & Hout & Hin1 & Hop1 & Hwin)|(Hlt & Hpre)].
  - eapply runs_mono; [apply (sequential_runs request loop m (i + Z.of_nat n) c1 (drop n fs)); try done; by apply Forall_drop|].
    intros ev2 o2 c2 Hcase. unfold exchanged in *. rewrite Hout, Hs in Hcase. rewrite length_drop in Hcase. unfold sent, received.
    rewrite !omap_app. fold (sent ev) (sent ev2) (received ev) (received ev2). rewrite Hs, Hrec, (requests_app request i n m), fmap_app.
    destruct Hcase as [(-> & Hs2 & Hrec2 & Hle2 & Hout2 & Hin2 & Hop2 & Hwin2)|(Hlt2 & Hpre2)]; [left|right].
    + rewrite Hout2, Hin2, Hs2, Hrec2, wires_app, take_take_drop, drop_drop, <- !(assoc_L (++)).
      split_and!; try done; [lia|]. intros ev3 Hw3. rewrite <- (assoc_L (++)). by apply Hwin, Hwin2.
    + split; [lia|]. replace (S (length fs)) with (n + S (length fs - n))%nat by lia.
      by rewrite requests_app, fmap_app, wires_app, (assoc_L (++)).
  - assert (Hout : exchanged request i (n + m) fs c ev (ends o : outcome RukaError unit) c1) by (right; split; [lia|exact Hpre]).
    destruct o as [[]|e| |]; try exact Hout. eapply runs_mono; [|intros ev2 o2 c2 Hp; right; split; [lia|exact Hp]].
    unfold runs. pose proof (drive_written (loop m (i + Z.of_nat n)) c1) as Hw. destruct (drive _ c1) as [[ev2 o2] c2].
    cbn [snd] in Hw. by etrans.
Qed.
End sequential.

(** ** Against the broker *)
Section broker.
Context `{BytesLaws, !MpscOps, !MpscLaws, !OneshotOps, !OneshotLaws, !ErrorTexts, !FramedOps, !FramedLaws}.

(** Arguments with which the benchmark can work: a topic the protocol takes, a
    batch that fits in a frame, and a window. *)
Record bench_ok (args : Args) : Prop := {
  bo_topic : utf8_valid (topic args) = true ∧ topic args ≠ [] ∧ blen (topic args) ≤ 255;
  bo_partition : is_u32 (partition args);
  bo_messages : 0 ≤ messages args < 2 ^ 64;
  bo_batch : 0 < batch_size args;
  bo_payload : 0 ≤ payload_size args;
  bo_frame : 21 + blen (topic args) + batch_size args * (4 + payload_size args) ≤ MAX_FRAME_SIZE;
  bo_window : 0 < max_in_flight args
}.

Definition total_batches (args : Args) : Z := messages args / batch_size args.
Definition batch_requests (args : Args) (n : Z) : list Request :=
  (λ i, RProduceBatch (batch_request args (as_u32 i))) <$> seqZ 1 n.

Lemma blen_batch_items n p : blen (batch_items (replicate n p)) = Z.of_nat n * (4 + blen p).
Proof.
  induction n as [|n IH]; [done|]. cbn [replicate]. rewrite batch_items_cons, !blen_app, blen_be_bytes, IH. lia.
Qed.

Lemma blen_replicate {A} n (x : A) : 0 ≤ n → blen (replicate (Z.to_nat n) x) = n.
Proof. intros Hn. unfold blen. rewrite length_replicate. lia. Qed.

Lemma batch_request_sendable args cid :
  bench_ok args → is_u32 cid →
  sendable (Request_into_frame (RProduceBatch (batch_request args cid))) ∧ Request_typed (RProduceBatch (batch_request args cid)).
Proof.
  intros [(Hu & Hne & Hl) Hp _ Hb Hpl Hf _] Hc. pose proof (blen_nonneg (topic args)) as Hn. unfold MAX_FRAME_SIZE in Hf.
  assert (Hty : Request_typed (RProduceBatch (batch_request args cid))).
  { cbn [Request_typed batch_request pb_payloads]. rewrite blen_replicate by lia. split; [unfold is_uint; nia|].
    apply Forall_replicate. rewrite blen_replicate by lia. unfold is_uint. nia. }
  split; [|exact Hty]. pose proof (ProduceBatchRequest_payload _ Hty) as Hpay.
  assert (Hlen : blen (f_payload (Request_into_frame (RProduceBatch (batch_request args cid)))) = 4 + batch_size args * (4 + payload_size args)).
  { cbn [Request_into_frame]. rewrite Hpay. cbn [batch_request pb_payloads].
    rewrite blen_app, blen_be_bytes, blen_batch_items, blen_replicate by lia. lia. }
  unfold sendable, Frame_typed, body_len. rewrite Hlen.
  cbn [Request_into_frame ProduceBatchRequest_into_frame batch_request f_magic f_correlation_id f_topic f_partition
    pb_correlation_id pb_topic pb_partition]. unfold MAX_FRAME_SIZE. split_and!; done || lia.
Qed.

(** The arguments the benchmarks have by default, and those of the interview
    benchmark, are such. *)
Lemma default_args_ok : bench_ok Args_default.
Proof. split; vm_compute; try split; try split; done. Qed.

Lemma interview_args_ok : Forall (λ size, bench_ok (throughput_args 1000000 size 1000 10)) interview_sizes.
Proof. repeat constructor; vm_compute; try split; try split; done. Qed.

Lemma batch_requests_sendable args n :
  bench_ok args → Forall (λ req, sendable (Request_into_frame req) ∧ Request_typed req) (batch_requests args n).
Proof.
  intros Hok. apply Forall_fmap, Forall_forall. intros i _. cbn. apply batch_request_sendable; [exact Hok|by apply wrap_uint].
Qed.

Lemma batch_frames_requests args n : batch_frames args 0 n = Request_into_frame <$> batch_requests args n.
Proof. unfold batch_frames, batch_requests. by rewrite <- list_fmap_compose. Qed.

Lemma parsed_prefix r b rs :
  Forall (λ req, sendable (Request_into_frame req) ∧ Request_typed req) r →
  parsed (wires (Request_into_frame <$> r) ++ b) rs → ∃ rs', rs = r ++ rs' ∧ parsed b rs'.
Proof.
  intros Hr. revert rs. induction Hr as [|req r [Hs Hty] _ IH]; intros rs; [by exists rs|].
  cbn [fmap list_fmap]. rewrite wires_cons, <- (assoc_L (++)). intros Hp.
  destruct (parsed_wire_cons _ _ _ Hs Hty Hp) as (rs1 & -> & Hp1). destruct (IH rs1 Hp1) as (rs2 & -> & Hp2). by exists rs2.
Qed.

(** A sequential session gets a reply to each of its requests. *)
Lemma sequential_served config P (s : Session unit) request n client fr0 fr rs resps logs :
  served config P fr0 fr rs resps logs → connected s client fr0 fr →
  (∀ i, sendable (Request_into_frame (request i)) ∧ Request_typed (request i)) →
  (∀ fs, framed_in client = wires fs → Forall sendable fs → runs s client (exchanged request 0 n fs client)) →
  ∃ ev client', drive s client = (ev, Ok tt, client') ∧ windowed 1 0 ev ∧ sent ev = frames request 0 n ∧
    received ev = Response_into_frame <$> resps ∧ rs = requests request 0 n.
Proof.
  intros Hsv [Hop Hfresh Hin Hwr] Hreq Hrun. specialize (Hrun (Response_into_frame <$> resps)).
  assert (Hok : ∀ k, Forall (λ req, sendable (Request_into_frame req) ∧ Request_typed req) (requests request 0 k)).
  { intros k. apply Forall_fmap, Forall_forall. intros i _. apply Hreq. }
  pose proof (Forall2_length _ _ _ (sv_explained _ _ _ _ _ _ _ Hsv)) as Hlen. pose proof (sv_read _ _ _ _ _ _ _ Hsv) as Hp.
  unfold runs in Hrun. destruct (drive s client) as [[ev o] client']. cbn [snd] in Hwr. unfold exchanged in Hrun.
  rewrite Hfresh, length_fmap in Hrun. destruct Hrun as [(-> & Hs & Hrec & Hle & Hout & _ & _ & Hwin)|(Hlt & rest & Hrest)].
  - rewrite Hin. apply Hsv.
  - apply Forall_fmap. eapply Forall_impl; [apply (sv_fits _ _ _ _ _ _ _ Hsv)|]. intros x. apply Response_sendable.
  - cbn [app] in Hout. rewrite Hs in Hout. rewrite Hout in Hwr. pose proof (parsed_wires _ (Hok n)) as Hpw. rewrite <- Hwr in Hpw.
    pose proof (parsed_unique _ _ _ Hp Hpw) as Hrs. rewrite Hrs in Hlen. unfold requests in Hlen. rewrite length_fmap, length_seqZ in Hlen.
    exists ev, client'. split; [done|]. split; [by rewrite <- (app_nil_r ev); apply Hwin|]. split; [exact Hs|].
    split; [|exact Hrs]. rewrite Hrec. apply take_ge. rewrite length_fmap. lia.
  - cbn [app] in Hrest. rewrite Hwr, Hrest in Hp. apply parsed_prefix in Hp as (rs' & Hrs & _); [|apply Hok].
    apply (f_equal length) in Hrs. rewrite length_app in Hrs. unfold requests in Hrs. rewrite length_fmap, length_seqZ in Hrs. lia.
Qed.

(** What the session did, whatever it was told: the broker then got those
    batches and no more, so it cannot have run out of replies. *)
Lemma pipelined_served config P args failed client fr0 fr rs resps logs :
  served config P fr0 fr rs resps logs → connected (pipelined args failed) client fr0 fr → bench_ok args →
  ∃ ev client', drive (pipelined args failed) client = (ev, Ok (counters (total_batches args) (total_batches args)), client') ∧
    windowed (max_in_flight args) 0 ev ∧ sent ev = batch_frames args 0 (total_batches args) ∧
    received ev = Response_into_frame <$> resps ∧ rs = batch_requests args (total_batches args).
Proof.
  intros Hsv [Hop Hfresh Hin Hwr] Hok. pose proof Hok as [_ _ Hm Hb _ _ Hw].
  assert (Ht : 0 ≤ total_batches args < 2 ^ 64).
  { unfold total_batches. split; [apply Z.div_pos; lia|]. pose proof (Z.div_le_upper_bound (messages args) (batch_size args) (messages args)). nia. }
  assert (Hrun : pipelined args failed = pipeline_loop args failed (Z.to_nat (total_batches args)) (total_batches args) (counters 0 0)).
  { unfold pipelined. case_Zbool; [lia|done]. }
  assert (Hfs : Forall sendable (Response_into_frame <$> resps)).
  { apply Forall_fmap. eapply Forall_impl; [apply (sv_fits _ _ _ _ _ _ _ Hsv)|]. intros x. apply Response_sendable. }
  pose proof (pipeline_loop_runs args failed (total_batches args) Ht Hw (Z.to_nat (total_batches args)) 0 0 client (Response_into_frame <$> resps)) as Hr.
  rewrite <- Hrun in Hr. unfold runs in Hr. destruct (drive (pipelined args failed) client) as [[ev o] client'] eqn:Hd.
  destruct Hr as (Hout & Hwin & n & Hn & Hsent & Hcase); [lia..|exact Hop|rewrite Hin; apply Hsv|exact Hfs|lia|].
  rewrite Hfresh, Hsent, batch_frames_requests in Hout. cbn [app snd] in Hout, Hwr. rewrite Hout in Hwr.
  pose proof (batch_requests_sendable args n Hok) as Hbs. apply parsed_wires in Hbs. rewrite <- Hwr in Hbs.
  pose proof (parsed_unique _ _ _ (sv_read _ _ _ _ _ _ _ Hsv) Hbs) as Hrs.
  pose proof (Forall2_length _ _ _ (sv_explained _ _ _ _ _ _ _ Hsv)) as Hlen. rewrite Hrs in Hlen. unfold batch_requests in Hlen.
  rewrite length_fmap, length_seqZ in Hlen.
  assert (Hl : blen (Response_into_frame <$> resps) = n) by (unfold blen; rewrite length_fmap; lia).
  destruct Hcase as [(-> & -> & Hpre & Hrl)|Hlt]; [|lia]. rewrite Z.sub_0_r in *.
  exists ev, client'. split; [done|]. split; [exact Hwin|]. split; [exact Hsent|]. split; [|exact Hrs].
  destruct Hpre as [k Hk]. assert (k = []) as -> by (apply blen_0; apply (f_equal blen) in Hk; rewrite blen_app in Hk; lia).
  by rewrite app_nil_r in Hk.
Qed.

Lemma answered_cids config P fr0 fr rs resps logs :
  served config P fr0 fr rs resps logs →
  f_correlation_id <$> (Response_into_frame <$> resps) = f_correlation_id <$> (Request_into_frame <$> rs).
Proof.
  intros Hsv. rewrite <- !list_fmap_compose. etrans; [|etrans; [exact (sv_cids _ _ _ _ _ _ _ Hsv)|]];
    apply list_fmap_ext; intros i x _; by destruct x.
Qed.

(** C13: the pipelined benchmarks (`throughput_bench.rs` and the throughput test
    of `interview_bench.rs`, which differ in what an error does) complete
    against a launched broker whose responses fit their frames ([hosts]), under
    every interleaving, when their arguments are usable ([bench_ok]: a valid
    topic, a window and a batch size of at least 1, a batch that fits a frame;
    the defaults and the sizes of `interview_bench.rs` are). They never have
    more than the allowed number of batches under way, never wait for a reply
    when none is, send each of the batches exactly once, in order, and get one
    answer per batch with its correlation id; when a message fits in a segment
    every answer is an acknowledgement. They end without error or panic, with
    all counters at the number of batches. (With a window of 0 they do wait for
    ever, [zero_window_waits].) *)
Theorem pipelined_bench_completes config w logs backlog reqs P M args failed :
  hosts config w logs backlog reqs P M → bench_ok args →
  ∃ sys, start config (inl backlog) w = Ok sys ∧ ∀ ms sys' t client fr0 fr, run ms sys = Some sys' →
    accepted backlog !! t = Some fr0 → sy_conns sys' !! t = Some (Closed fr) → connected (pipelined args failed) client fr0 fr →
    ∃ ev client', drive (pipelined args failed) client = (ev, Ok (counters (total_batches args) (total_batches args)), client') ∧
      windowed (max_in_flight args) 0 ev ∧ sent ev = batch_frames args 0 (total_batches args) ∧
      f_correlation_id <$> received ev = f_correlation_id <$> sent ev ∧
      (record_len None (Some (replicate (Z.to_nat (payload_size args)) xaa)) ≤ Config.segment_max_bytes config →
       Forall (λ f, f_api_key f = AProduceBatch) (received ev)).
Proof.
  intros Hh Hok. destruct (conversation _ _ _ _ _ _ _ Hh) as (sys & Hs & Hconv). exists sys. split; [exact Hs|].
  intros ms sys' t client fr0 fr Hr Hacc Hc Hcn. destruct (Hconv _ _ _ _ _ Hr Hacc Hc) as (rs & resps & logs' & Hsv).
  destruct (pipelined_served _ _ _ _ _ _ _ _ _ _ Hsv Hcn Hok) as (ev & client' & Hd & Hwin & Hsent & Hrec & Hrs).
  exists ev, client'. split; [exact Hd|]. split; [exact Hwin|]. split; [exact Hsent|]. rewrite Hsent, Hrec. split.
  - rewrite batch_frames_requests, <- Hrs. by eapply answered_cids.
  - intros Hsz. apply Forall_fmap. apply Forall_lookup. intros i resp Hi.
    destruct (Forall2_lookup_r _ _ _ _ _ (sv_explained _ _ _ _ _ _ _ Hsv) Hi) as (req & Hreq & Hex).
    rewrite Hrs in Hreq. unfold batch_requests in Hreq. rewrite list_lookup_fmap in Hreq.
    destruct (seqZ 1 _ !! i) as [j|]; [|done]. injection Hreq as <-. destruct resp as [p|p|p|p]; try done. exfalso.
    cbn [explained batch_request pb_payloads] in Hex. destruct Hex as [Hex _]. unfold accepts in Hex. apply not_true_iff_false in Hex. apply Hex.
    apply forallb_forall. intros x Hx%list_elem_of_In. apply elem_of_replicate in Hx as [-> _].
    apply Z.leb_le. exact Hsz.
Qed.

Lemma benchmark_request_sendable i :
  sendable (Request_into_frame (RProduce (benchmark_request i))) ∧ Request_typed (RProduce (benchmark_request i)).
Proof.
  split; [|done]. apply addressed_sendable; [|by vm_compute]. split; [by apply wrap_uint|]. by vm_compute.
Qed.

Lemma latency_request_sendable size i :
  0 ≤ size ≤ MAX_FRAME_SIZE - 30 →
  sendable (Request_into_frame (RProduce (latency_request size i))) ∧ Request_typed (RProduce (latency_request size i)).
Proof.
  intros Hsz. split; [|done]. apply addressed_sendable; [split; [by apply wrap_uint|by vm_compute]|].
  cbn [latency_request pr_payload pr_topic]. rewrite blen_replicate by lia. change (blen (str "bench_latency")) with 13. lia.
Qed.

(** C23: the sequential benchmarks (the loop of `benchmark.rs` with any number
    [k] of messages, in particular [NUM_MESSAGES], and the latency test of
    `interview_bench.rs` with a payload that fits a frame) complete against a
    launched broker whose responses fit their frames ([hosts]), under every
    interleaving: they send each request after the reply to the one before, all
    of them, with their correlation ids counting up, get one reply per request
    with its correlation id, and end without error or panic. *)
Theorem sequential_bench_completes config w logs backlog reqs P M k count size :
  hosts config w logs backlog reqs P M → 0 ≤ size ≤ MAX_FRAME_SIZE - 30 →
  ∃ sys, start config (inl backlog) w = Ok sys ∧ ∀ ms sys' t client fr0 fr, run ms sys = Some sys' →
    accepted backlog !! t = Some fr0 → sy_conns sys' !! t = Some (Closed fr) →
    ∀ s request n, (s, request, n) ∈ [
      (benchmark_loop k 0, (λ i, RProduce (benchmark_request i)), k);
      (run_latency_bench count size, (λ i, RProduce (latency_request size i)), (1000 + Z.to_nat count)%nat)] →
    connected s client fr0 fr →
    ∃ ev client', drive s client = (ev, Ok tt, client') ∧ windowed 1 0 ev ∧ sent ev = frames request 0 n ∧
      f_correlation_id <$> received ev = f_correlation_id <$> sent ev.
Proof.
  intros Hh Hsz. destruct (conversation _ _ _ _ _ _ _ Hh) as (sys & Hs & Hconv). exists sys. split; [exact Hs|].
  intros ms sys' t client fr0 fr Hr Hacc Hc s request n Hin Hcn.
  destruct (Hconv _ _ _ _ _ Hr Hacc Hc) as (rs & resps & logs' & Hsv).
  destruct (sequential_served _ _ s request n _ _ _ _ _ _ Hsv Hcn) as (ev & client' & Hd & Hwin & Hsent & Hrec & Hrs).
  - intros i. rewrite !elem_of_cons, elem_of_nil in Hin.
    destruct Hin as [[= -> -> ->]|[[= -> -> ->]|[]]]; [apply benchmark_request_sendable|by apply latency_request_sendable].
  - intros fs Hfs Hall. rewrite !elem_of_cons, elem_of_nil in Hin. pose proof (cn_open _ _ _ _ Hcn) as Hop.
    destruct Hin as [[= -> -> ->]|[[= -> -> ->]|[]]].
    + by apply (sequential_runs _ _ _ _ _ _ benchmark_sequential).
    + by apply (exchanged_app _ _ 1000 _ 0 _ _ (latency_sequential size)).
  - exists ev, client'. split; [exact Hd|]. split; [exact Hwin|]. split; [exact Hsent|].
    rewrite Hrec, Hsent, <- Hrs. by eapply answered_cids.
Qed.
End broker.
