(* ===== verification/ReportTheorems.v ===== *)
(** * The benchmarks' reports are right

    The latency test of `interview_bench.rs` never indexes out of range, and the
    percentiles it reports are those of the measured times; `start_broker`
    empties the data directory, so the broker it starts is launched in the sense
    of the theorems about brokers; `main` writes what it measured. *)
From Stdlib Require Import SpecFloat Sorted.
From stdpp Require Import sorting.
From S2P Require Import Prelude Errors BytesCrate StdText F64 Types Frame Request Response Tokio FileSystem BinarySearch Index Record Segment SegmentInv SegmentRead SegmentWrite SegmentLoad Partition Listing PartitionInv Isolation PartitionWrite PartitionRead PartitionOpen PartitionSpec Registry Handler Connection Clients BenchReport BrokerSpec BrokerHistory Layout BrokerStore DataDir BrokerTasks BrokerSim BrokerSteps BrokerStart BrokerRun BrokerDelivery BrokerTheorems ClientRules BenchTheorems.
#[local] Open Scope Z_scope.

(** ** Percentiles *)
Definition percentiles : list f64 := [lit 1 2; lit 95 100; lit 99 100].

Lemma percentile_in_range count p :
  0 < count < 2 ^ 53 → p ∈ percentiles → 0 ≤ percentile_index count p < count.
Proof.
  intros Hc Hp. unfold percentile_index.
  assert (∃ mp, p = S754_finite false mp (-53) ∧ 2 ^ 52 ≤ Zpos mp ≤ 2 ^ 53 - 2 ^ 46) as (mp & -> & Hmp).
  { revert p Hp. apply Forall_forall.
    assert (percentiles = (λ mp, S754_finite false mp (-53)) <$> [4503599627370496; 8556839292003942; 8917127262193582]%positive)
      as -> by (vm_compute; reflexivity).
    apply Forall_fmap. repeat constructor; eexists; (split; [reflexivity|]); lia. }
  apply fraction_lt; [exact Hc|exact Hmp].
Qed.

(** The ranks the program uses. *)
Lemma interview_ranks : percentile_index 100000 <$> percentiles = [50000; 95000; 99000].
Proof. vm_compute. reflexivity. Qed.

(** What the result says: each percentile is the measured time of its rank. *)
Definition reports (count : Z) (micros sorted : list Z) (r : LatencyResult) : Prop :=
  sorted ≡ₚ micros ∧ Sorted Z.le sorted ∧ lr_requests r = count ∧
  ∀ p q, (p, q) ∈ zip percentiles [lr_p50_us r; lr_p95_us r; lr_p99_us r] →
    0 ≤ percentile_index count p < count ∧ of_int <$> sorted !! Z.to_nat (percentile_index count p) = Some q.

Lemma latency_result_ok count size micros :
  blen micros = count → 0 < count < 2 ^ 53 → Forall exact micros →
  ∃ sorted r, latency_result count size micros = Ok r ∧ reports count micros sorted r.
Proof.
  intros Hlen Hc Hex. destruct (sort_of_int micros Hex) as (sorted & Hsort & Hp & Hs).
  assert (Hat : ∀ p, p ∈ percentiles → ∃ x, (of_int <$> sorted) !! Z.to_nat (percentile_index count p) = Some x).
  { intros p Hin. apply lookup_lt_is_Some. rewrite length_fmap, Hp. pose proof (percentile_in_range count p Hc Hin).
    unfold blen in Hlen. lia. }
  destruct (Hat (lit 1 2)) as [x50 H50]; [left|]. destruct (Hat (lit 95 100)) as [x95 H95]; [right; left|].
  destruct (Hat (lit 99 100)) as [x99 H99]; [right; right; left|].
  exists sorted. unfold latency_result. rewrite Hsort, H50, H95, H99. eexists. split; [reflexivity|].
  split; [exact Hp|]. split; [exact Hs|]. split; [reflexivity|]. cbn [lr_p50_us lr_p95_us lr_p99_us]. intros p q Hpq.
  split.
  - apply percentile_in_range; [exact Hc|]. by apply elem_of_zip_l in Hpq.
  - rewrite <- list_lookup_fmap. unfold percentiles in Hpq. cbn [zip zip_with] in Hpq. rewrite !elem_of_cons, elem_of_nil in Hpq.
    destruct Hpq as [Heq|[Heq|[Heq|[]]]]; apply pair_equal_spec in Heq as [-> ->]; [exact H50|exact H95|exact H99].
Qed.

(** With no request measured the index panics. *)
Lemma latency_result_empty size : latency_result 0 size [] = Panic.
Proof. reflexivity. Qed.

(** ** The latency test against a broker *)
Section broker.
Context `{BytesLaws, !MpscOps, !MpscLaws, !OneshotOps, !OneshotLaws, !ErrorTexts, !FramedOps, !FramedLaws}.

(** A session that computes something at its end. *)
Lemma drive_finish {A B} (s : Session A) (f : A → outcome RukaError B) c :
  drive (s ≫= λ a, Finish (f a)) c =
    (let '(ev, o, c') := drive s c in
     (ev, match o with Ok a => f a | Err e => Err e | Panic => Panic | OutOfFuel => OutOfFuel end, c')).
Proof.
  revert c. induction s as [o|fr k IH|k IH|l k IH]; intros c.
  - destruct o; reflexivity.
  - cbn. destruct (framed_send fr c) as [r c']. rewrite IH. by destruct (drive (k r) c') as [[ev o] c2].
  - cbn. destruct (framed_next c) as [r c']. rewrite IH. by destruct (drive (k r) c') as [[ev o] c2].
  - cbn. rewrite IH. by destruct (drive k c) as [[ev o] c2].
Qed.

Lemma connected_finish {A B} (s : Session A) (f : A → outcome RukaError B) client fr0 fr :
  connected (s ≫= λ a, Finish (f a)) client fr0 fr → connected s client fr0 fr.
Proof.
  intros [Hop Hfresh Hin Hwr]. split; try assumption. rewrite drive_finish in Hwr.
  by destruct (drive s client) as [[ev o] c'].
Qed.

(** C24: the latency test of `interview_bench.rs` reports what it measured. Against
    any broker whose responses fit their frames, under every interleaving, with
    any positive number of requests below 2^53 and any measured times below 2^53
    microseconds, it ends without error or panic: no percentile indexes out of
    range, although its rank is computed in floating point, and the p50, p95 and
    p99 it reports are exactly the measured times of these ranks in ascending
    order (so sorting them as floats sorts them as numbers). *)
Theorem latency_test_reports config w logs backlog reqs P M micros count size :
  hosts config w logs backlog reqs P M → 0 ≤ size ≤ MAX_FRAME_SIZE - 30 → 0 < count < 2 ^ 53 → (∀ i, exact (micros i)) →
  ∃ sys, start config (inl backlog) w = Ok sys ∧ ∀ ms sys' t client fr0 fr, run ms sys = Some sys' →
    accepted backlog !! t = Some fr0 → sy_conns sys' !! t = Some (Closed fr) →
    connected (latency_test micros count size) client fr0 fr →
    ∃ ev r client' sorted, drive (latency_test micros count size) client = (ev, Ok r, client') ∧
      sent ev = frames (λ i, RProduce (latency_request size i)) 0 (1000 + Z.to_nat count) ∧
      reports count (micros <$> seq 0 (Z.to_nat count)) sorted r.
Proof.
  intros Hh Hsz Hc Hmi. destruct (conversation _ _ _ _ _ _ _ Hh) as (sys & Hs & Hconv). exists sys. split; [exact Hs|].
  intros ms sys' t client fr0 fr Hr Hacc Hcl Hcn. destruct (Hconv _ _ _ _ _ Hr Hacc Hcl) as (rs & resps & logs' & Hsv).
  unfold latency_test in *. pose proof (connected_finish _ _ _ _ _ Hcn) as Hcn'. pose proof (cn_open _ _ _ _ Hcn) as Hop.
  destruct (sequential_served _ _ _ (λ i, RProduce (latency_request size i)) (1000 + Z.to_nat count) _ _ _ _ _ _ Hsv Hcn')
    as (ev & client' & Hd & _ & Hsent & _); [intros i; by apply latency_request_sendable| |].
  { intros fs Hfs Hall. by apply (exchanged_app _ _ 1000 _ 0 _ _ (latency_sequential size)). }
  destruct (latency_result_ok count size (micros <$> seq 0 (Z.to_nat count))) as (sorted & r & Hres & Hrep); [|exact Hc| |].
  - unfold blen. rewrite length_fmap, length_seq. lia.
  - apply Forall_fmap, Forall_forall. intros i _. apply Hmi.
  - exists ev, r, client', sorted. rewrite drive_finish, Hd, Hres. done.
Qed.
End broker.

(** ** The broker that `interview_bench.rs` starts *)
Lemma remove_paths_ok qs w :
  healthy w → ∃ w', remove_paths qs w = (Ok tt, w') ∧ healthy w' ∧ w_dir_order w' = w_dir_order w ∧
    (∀ q, w_files w' !! q = if decide (q ∈ qs) then None else w_files w !! q) ∧
    (∀ q, q ∈ w_dirs w' ↔ q ∈ w_dirs w ∧ q ∉ qs).
Proof.
  revert w. induction qs as [|q qs IH]; intros w Hw; cbn [remove_paths].
  { exists w. split; [reflexivity|]. split; [exact Hw|]. split; [reflexivity|]. split; [done|].
    intros r. split; [|by intros [? _]]. intros Hr. split; [exact Hr|apply not_elem_of_nil]. }
  set (w1 := set_dirs (w_dirs (pop_sched w) ∖ {[q]}) (set_files (delete q (w_files (pop_sched w))) (pop_sched w))).
  assert (Hrm : remove_path q w = (Ok tt, w1)).
  { unfold remove_path. destruct (syscall_ok w Hw) as (ev & He & _). by mstep He. }
  destruct (IH w1) as (w' & Hr & Hh & Ho & Hf & Hd); [by apply healthy_dirs, healthy_files, healthy_pop|].
  exists w'. mstep Hrm. split; [exact Hr|]. split; [exact Hh|]. split; [exact Ho|]. split.
  - intros r. rewrite Hf. cbn [w1 set_dirs set_files w_files]. destruct (decide (r = q)) as [->|Hne].
    + rewrite lookup_delete_eq. rewrite (decide_True (P := q ∈ q :: qs)) by left. by case_decide.
    + rewrite lookup_delete_ne by congruence. destruct (decide (r ∈ qs)) as [Hin|Hin].
      * by rewrite decide_True by (by right).
      * rewrite decide_False; [done|]. rewrite elem_of_cons. tauto.
  - intros r. rewrite Hd, elem_of_cons. cbn [w1 set_dirs w_dirs]. rewrite elem_of_difference, elem_of_singleton.
    change (w_dirs (pop_sched w)) with (w_dirs w). tauto.
Qed.

(** What lies below [p] lies in a directory [p]. *)
Definition rooted (p : path) (w : World) : Prop :=
  ∀ q, p `prefix_of` q → q ∈ dom (w_files w) ∪ w_dirs w → p ∈ w_dirs w.

Lemma remove_dir_all_ok p w :
  healthy w → usable_dir p w → p ∈ w_dirs w → (∀ l, w_dir_order w l ≡ₚ l) →
  ∃ w', remove_dir_all p w = (Ok tt, w') ∧ healthy w' ∧ fresh_base p w'.
Proof.
  intros Hw Hu Hp Hord. unfold remove_dir_all. destruct (syscall_ok w Hw) as (ev & He & _). mstep He. mret_step.
  change (w_dirs (pop_sched w)) with (w_dirs w). rewrite bool_decide_eq_true_2 by exact Hp. mret_step.
  set (qs := paths_below p (pop_sched w)).
  assert (Hqs : ∀ q, q ∈ qs ↔ p `prefix_of` q ∧ q ∈ dom (w_files w) ∪ w_dirs w).
  { intros q. unfold qs, paths_below. rewrite merge_sort_Permutation, list_elem_of_filter. by rewrite elem_of_elements. }
  destruct (remove_paths_ok qs (pop_sched w) (healthy_pop w Hw)) as (w' & Hr & Hh & Ho & Hf & Hd). exists w'.
  split; [exact Hr|]. split; [exact Hh|].
  assert (Hnone : ∀ q, p `prefix_of` q → w_files w' !! q = None).
  { intros q Hq. rewrite Hf. case_decide as Hin; [done|]. cbn [pop_sched w_files].
    destruct (w_files w !! q) as [d|] eqn:Hfq; [|done]. destruct Hin. apply Hqs. split; [exact Hq|].
    apply elem_of_union_l, elem_of_dom. by eexists. }
  split.
  - apply Forall_forall. intros q Hq. rewrite Hf. case_decide; [done|]. unfold usable_dir in Hu. rewrite Forall_forall in Hu. by apply Hu.
  - exact Hnone.
  - intros q Hq [Hin Hnot]%Hd. destruct Hnot. apply Hqs. split; [exact Hq|]. by apply elem_of_union_r.
  - rewrite Ho. exact Hord.
Qed.

Section interview.
Context `{BytesLaws, !MpscOps, !MpscLaws, !OneshotOps, !OneshotLaws, !ErrorTexts, !FramedOps, !FramedLaws}.
Context {Child : Type} (build : Res World bool) (spawn : list bytes → Res World Child).

(** C25: the benchmark starts its broker on an empty data directory. Whatever the
    directory held before, `start_broker` removes it, creates the directory, and
    runs the broker with this directory and the given sync level as arguments;
    so for all clients the broker is launched, with no logs, in the sense of the
    theorems about brokers. (`cargo build` succeeds and leaves the data
    directory alone.) *)
Theorem interview_broker_launched data_dir sync_mode w :
  (∀ w1, healthy w1 → fresh_base (join [] data_dir) w1 →
     ∃ w2, build w1 = (Ok true, w2) ∧ healthy w2 ∧ fresh_base (join [] data_dir) w2) →
  healthy w → usable_dir (join [] data_dir) w → rooted (join [] data_dir) w → (∀ l, w_dir_order w l ≡ₚ l) →
  utf8_valid data_dir = true →
  ∃ w', start_broker build spawn data_dir sync_mode w = spawn (broker_args data_dir sync_mode) w' ∧
    ∀ level backlog reqs, clients_ok ∅ backlog reqs → launch (bench_config data_dir level) w' ∅ backlog reqs.
Proof.
  intros Hbuild Hw Hu Hroot Hord Hutf. set (p := join [] data_dir) in *. pose proof (healthy_pop w Hw) as Hw1.
  assert (Hclean : ∃ w2, (_ ← (if bool_decide (p ∈ w_dirs w) then _ ← attempt (remove_dir_all p); mret tt else mret tt);
      create_dir_all p) (pop_sched w) = (Ok tt, w2) ∧ healthy w2 ∧ fresh_base p w2).
  { assert (Hfb : ∃ w1, (if bool_decide (p ∈ w_dirs w) then _ ← attempt (remove_dir_all p); mret tt else mret tt)
        (pop_sched w) = (Ok tt, w1) ∧ healthy w1 ∧ fresh_base p w1).
    { case_bool_decide as Hp.
      - destruct (remove_dir_all_ok p (pop_sched w) Hw1 Hu Hp Hord) as (w1 & Hr & Hh & Hfb). exists w1.
        erewrite bind_Ok by (apply attempt_Ok, Hr). done.
      - exists (pop_sched w). split; [reflexivity|]. split; [exact Hw1|].
        assert (Hno : ∀ q, p `prefix_of` q → q ∉ dom (w_files w) ∪ w_dirs w) by (intros q Hq Hin; apply Hp; by eapply Hroot).
        split; [exact Hu| | |exact Hord].
        + intros q Hq. apply not_elem_of_dom. intros Hin. apply (Hno q Hq). by apply elem_of_union_l.
        + intros q Hq Hin. destruct (Hno q Hq). by apply elem_of_union_r. }
    destruct Hfb as (w1 & Hr & Hh & Hfb). erewrite bind_Ok by exact Hr.
    rewrite create_dir_all_ok by (try exact Hh; apply Hfb). eexists. split; [reflexivity|].
    split; [by apply healthy_dirs, healthy_pop|]. by apply (fresh_base_made p (pop_sched w1)), fresh_base_pop. }
  destruct Hclean as (w2 & Hc & Hh2 & Hfb2). destruct (Hbuild w2 Hh2 Hfb2) as (w3 & Hb & Hh3 & Hfb3). exists w3. split.
  - unfold start_broker. fold p. erewrite bind_Ok by (apply probe_ok, Hw).
    assert (Hnf : w_files w !! p = None) by (unfold usable_dir in Hu; rewrite Forall_forall in Hu; apply Hu, prefixes_self).
    rewrite Hnf, (bool_decide_eq_false_2 (is_Some None)), orb_false_r by (by intros [? ?]).
    rewrite bind_assoc. erewrite bind_Ok by exact Hc. erewrite bind_Ok by exact Hb. unfold from_utf8. by rewrite Hutf.
  - intros level backlog reqs Hcl. split; [exact Hh3|right; split; [reflexivity|exact Hfb3]|cbn; lia|cbn; unfold MAX_PERMITS; lia|exact Hcl].
Qed.
End interview.

(** ** The result files *)
Section files.
Context `{BytesLaws, !FramedOps}.

Lemma write_lines_ok ls f w c :
  healthy w → w_files w !! fl_path f = Some c → fl_pos f = blen c → fl_append f = false →
  ∃ f' w', write_lines ls (f, w) = (Ok tt, (f', w')) ∧ healthy w' ∧ w_dirs w' = w_dirs w ∧
    w_files w' = <[fl_path f := c ++ concat ls]> (w_files w).
Proof.
  revert f w c. induction ls as [|l ls IH]; intros f w c Hw Hf Hpos Happ; cbn [write_lines concat].
  { exists f, w. rewrite app_nil_r, insert_id by exact Hf. done. }
  assert (Hat : at_end f w) by (eapply at_end_intro; [exact Hf|by right]).
  pose proof (file_contents_lookup f w c Hf) as Hc. pose proof (write_all_ok f w Hw l Hat) as Hwr. rewrite Hc in Hwr. mstep Hwr.
  edestruct (IH (set_pos (blen c + blen l) f)) as (f' & w' & Hr & Hh & Hd & Hfs);
    [by apply healthy_files, healthy_pop|apply lookup_insert_eq|by rewrite blen_app|exact Happ|].
  exists f', w'. split; [exact Hr|]. split; [exact Hh|]. split; [exact Hd|]. rewrite Hfs. cbn [set_files w_files set_pos fl_path].
  by rewrite insert_insert_eq, (assoc_L (++)).
Qed.

(** `File::create` and the writes leave exactly the lines, whatever the file held. *)
Lemma write_file_ok name ls w :
  healthy w → join [] name ∉ w_dirs w → parent (join [] name) ∈ w_dirs w →
  ∃ w', write_file name ls w = (Ok tt, w') ∧ healthy w' ∧ w_dirs w' = w_dirs w ∧
    w_files w' = <[join [] name := concat ls]> (w_files w).
Proof.
  intros Hw Hnd Hpar. set (p := join [] name) in *. unfold write_file. fold p.
  set (w1 := set_files (<[p := []]> (w_files w)) (pop_sched w)).
  assert (Ho : open {| oo_create := true; oo_truncate := true; oo_append := false |} p w =
    (Ok {| fl_path := p; fl_pos := 0; fl_append := false |}, w1)).
  { destruct (w_files w !! p) as [d|] eqn:Hp; [by eapply open_truncate|by apply open_create]. }
  mstep Ho. destruct (write_lines_ok ls {| fl_path := p; fl_pos := 0; fl_append := false |} w1 [])
    as (f' & w' & Hr & Hh & Hd & Hf); [by apply healthy_files, healthy_pop|apply lookup_insert_eq|done|done|].
  exists w'. erewrite bind_Ok by (apply with_local_ok, Hr). split; [reflexivity|]. split; [exact Hh|]. split; [exact Hd|].
  rewrite Hf. cbn [w1 set_files w_files fl_path app]. by rewrite insert_insert_eq.
Qed.

(** Whatever the tests measured, `main` leaves it in the two files: the JSON of
    the report, and the header with one line per test in the order of the tests. *)
Lemma interview_saves {Child} (build : Res World bool) (spawn : list bytes → Res World Child) to_json
    data_dir sync_mode me w w1 child latency throughput json :
  start_broker build spawn data_dir sync_mode w = (Ok child, w1) →
  run_tests (interview_latency me) w1 = (Ok latency, w1) → run_tests (interview_throughput me) w1 = (Ok throughput, w1) →
  let report := {| br_sync_mode := sync_mode; br_latency := latency; br_throughput := throughput |} in
  to_json report = Ok json →
  healthy w1 → [] ∈ w_dirs w1 → [str "ruka_bench_results.json"] ∉ w_dirs w1 → [str "ruka_bench_results.csv"] ∉ w_dirs w1 →
  ∃ w', interview_main build spawn to_json data_dir sync_mode me w = (Ok tt, w') ∧
    w_files w' !! [str "ruka_bench_results.json"] = Some json ∧
    w_files w' !! [str "ruka_bench_results.csv"] = Some (concat (csv_lines report)).
Proof.
  intros Hstart Hlat Hthr report Hjson Hw Hroot Hnj Hnc.
  destruct (write_file_ok (str "ruka_bench_results.json") [json] w1 Hw Hnj Hroot) as (w2 & Hj & Hw2 & Hd2 & Hf2).
  destruct (write_file_ok (str "ruka_bench_results.csv") (csv_lines report) w2 Hw2) as (w3 & Hc & _ & _ & Hf3); [rewrite Hd2; exact Hnc|rewrite Hd2; exact Hroot|].
  exists w3. split.
  - unfold interview_main. erewrite bind_Ok by (apply attempt_Ok, Hstart). reduce. mstep Hlat. mstep Hthr. fold report.
    rewrite Hjson. mret_step. mstep Hj. exact Hc.
  - rewrite Hf3. split; [|apply lookup_insert_eq]. rewrite lookup_insert_ne by (vm_compute; discriminate). rewrite Hf2.
    cbn [concat]. rewrite app_nil_r. apply lookup_insert_eq.
Qed.
End files.
