(* ===== verification/BrokerExamples.v ===== *)
(** * A concrete broker

    Two clients that both produce to a partition that does not exist yet and
    then fetch from it, on an empty disk: the state at which the theorems about
    the whole broker are applied, and a schedule that serves both. *)
From S2P Require Import Prelude Errors BytesCrate StdText Types Frame Request Response Tokio FileSystem BinarySearch Index Record Segment SegmentInv SegmentRead SegmentWrite SegmentLoad Partition Listing PartitionInv Isolation PartitionWrite PartitionRead PartitionOpen PartitionSpec Registry Handler Connection BrokerSpec BrokerHistory Layout BrokerStore DataDir BrokerTasks HandlerTheorems BrokerSim BrokerSteps BrokerStart BrokerRun BrokerDelivery BrokerTheorems BrokerRestart.
Import ListBytes ListTokio.
#[local] Open Scope Z_scope.

Module BrokerExamples.
#[export] Instance texts : ErrorTexts :=
  {| to_string _ := str "error"; send_error_text := str "channel closed"; recv_error_text := str "channel closed" |}.

Definition disk : World :=
  {| w_files := ∅; w_dirs := ∅; w_sched := [IoOk; IoOk; IoShort 3]; w_clock := [1700000000000];
     w_dir_order := reverse |}.
Definition config : Config.BrokerConfig :=
  {| Config.port := 9092; Config.host := str "127.0.0.1"; Config.data_dir := str "./data";
     Config.segment_max_bytes := 64; Config.default_partitions := 1;
     Config.sync_level := Config.LogAndIndex; Config.channel_capacity := 1 |}.

Definition produce (cid : Z) (value : bytes) : Request :=
  RProduce {| pr_correlation_id := cid; pr_topic := str "orders"; pr_partition := 0; pr_payload := value |}.
Definition batch (cid : Z) (values : list bytes) : Request :=
  RProduceBatch {| pb_correlation_id := cid; pb_topic := str "orders"; pb_partition := 0; pb_payloads := values |}.
Definition fetch (cid : Z) : Request :=
  RFetch {| fr_correlation_id := cid; fr_topic := str "orders"; fr_partition := 0; fr_offset := 0; fr_max_bytes := 100 |}.

Definition reqs : list (list Request) :=
  [[produce 1 (str "hello"); fetch 2]; [batch 3 [str "wor"; str "ld"]; fetch 4]].
Definition input (r : list Request) : bytes := wires (Request_into_frame <$> r).
(** The second accept fails. *)
Definition backlog : list AcceptResult :=
  match (λ r, inl (input r, [])) <$> reqs with c :: cs => c :: inr (OsError 24) :: cs | [] => [] end.

(** Both connections look the partition up before either creates it, both go
    for the write lock, and the mailbox has room for one command. *)
Definition schedule : list move :=
  [MAccept; MAccept; MAccept; MConnection 0; MConnection 1; MConnection 0; MConnection 1; MConnection 0; MConnection 1;
   MConnection 1; MPartition 0; MConnection 0; MPartition 0; MConnection 0; MConnection 1;
   MConnection 0; MConnection 1; MConnection 0; MConnection 1; MConnection 0; MConnection 1;
   MConnection 0; MPartition 0; MConnection 1; MPartition 0; MConnection 0; MConnection 1;
   MConnection 0; MConnection 1; MConnection 0; MConnection 1].

Definition all_closed_after (ms : list move) : bool :=
  match start config (inl backlog) disk with
  | Ok sys => match run ms sys with
              | Some sys' => forallb (λ c, match c with Closed _ => true | _ => false end) (sy_conns sys')
              | None => false
              end
  | _ => false
  end.

Lemma schedule_serves : all_closed_after schedule = true.
Proof. vm_compute. reflexivity. Qed.

Lemma schedule_runs sys :
  start config (inl backlog) disk = Ok sys → ∃ sys', run schedule sys = Some sys'.
Proof.
  intros Hs. pose proof schedule_serves as Hr. unfold all_closed_after in Hr. rewrite Hs in Hr.
  destruct (run schedule sys) as [sys'|]; [by exists sys'|done].
Qed.

(** The schedule closes both connections. *)
Lemma schedule_closes sys sys' :
  start config (inl backlog) disk = Ok sys → run schedule sys = Some sys' →
  ∀ t, (t < 2)%nat → ∃ fr, sy_conns sys' !! t = Some (Closed fr).
Proof.
  intros Hs Hr t Ht.
  assert (Hlen : match start config (inl backlog) disk with
    | Ok s => option_map (λ s', length (sy_conns s')) (run schedule s) | _ => None end = Some 2%nat) by (vm_compute; reflexivity).
  rewrite Hs, Hr in Hlen. injection Hlen as Hlen.
  pose proof schedule_serves as Hall. unfold all_closed_after in Hall. rewrite Hs, Hr in Hall.
  destruct (lookup_lt_is_Some_2 (sy_conns sys') t) as [c Hc]; [lia|].
  rewrite forallb_forall in Hall. specialize (Hall c (proj1 (list_elem_of_In _ _) (list_elem_of_lookup_2 _ _ _ Hc))).
  destruct c as [|fr|]; try discriminate Hall. by exists fr.
Qed.

Lemma run_take n ms sys sys' : run ms sys = Some sys' → ∃ sys1, run (take n ms) sys = Some sys1.
Proof.
  revert n sys. induction ms as [|m ms IH]; intros [|n] sys; cbn [take run]; try by eexists.
  destruct (do_move m sys) as [sys1|]; [|done]. cbn. apply IH.
Qed.

(** ** The broker can be launched *)
Lemma fresh_disk : fresh_base (join [] (Config.data_dir config)) disk.
Proof.
  split.
  - apply Forall_forall. intros q _. apply lookup_empty.
  - intros p _. apply lookup_empty.
  - intros p _. cbn. by intros ?%not_elem_of_empty.
  - intros l. apply reverse_Permutation.
Qed.

#[local] Instance Request_typed_dec req : Decision (Request_typed req).
Proof. destruct req; cbn; apply _. Defined.

Lemma reqs_sendable : Forall (Forall (λ req, sendable (Request_into_frame req) ∧ Request_typed req)) reqs.
Proof. apply (bool_decide_unpack _). vm_compute. exact I. Qed.

(** The clients' bytes. *)
Lemma sent_talking b rqs :
  accepted b = (λ r, (input r, [])) <$> rqs →
  Forall (Forall (λ req, sendable (Request_into_frame req) ∧ Request_typed req)) rqs →
  Forall2 (λ fr r, talking fr r []) (accepted b) rqs.
Proof.
  intros Hb Hs. rewrite Hb. apply Forall2_fmap_l, Forall_Forall2_diag. apply (Forall_impl _ _ _ Hs).
  intros r Hr. split; [by apply parsed_wires|reflexivity|exact I].
Qed.

(** A broker on this disk and clients that send well-formed requests. *)
Lemma launch_clients cfg b rqs :
  Config.data_dir cfg = Config.data_dir config → 0 ≤ Config.segment_max_bytes cfg ≤ 2 ^ 63 →
  0 < Config.channel_capacity cfg ≤ MAX_PERMITS → accepted b = (λ r, (input r, [])) <$> rqs →
  Forall (Forall (λ req, sendable (Request_into_frame req) ∧ Request_typed req)) rqs →
  Forall (Forall (λ req, plain_topic (fst (req_key req)))) rqs → clients_weight (at_clients (atomic_init ∅ rqs)) < 2 ^ 64 →
  launch cfg disk ∅ b rqs.
Proof.
  intros Hd Hmax Hcap Hb Hs Hp Hw. split; [by repeat constructor|right; rewrite Hd; split; [done|apply fresh_disk]|exact Hmax|exact Hcap|].
  split; [|exact Hp|exact Hw|intros key rs Hk; by rewrite lookup_empty in Hk..]. by apply sent_talking.
Qed.

Lemma launched : launch config disk ∅ backlog reqs.
Proof.
  apply launch_clients; [done|cbn; lia|cbn; unfold MAX_PERMITS; lia|reflexivity|apply reqs_sendable|..].
  all: apply (bool_decide_unpack _); vm_compute; exact I.
Qed.

(** So can a broker with the default configuration. *)
Lemma default_launched : launch Config.BrokerConfig_default disk ∅ backlog reqs.
Proof.
  apply launch_clients; [done|cbn; lia|cbn; unfold MAX_PERMITS; lia|reflexivity|apply reqs_sendable|..].
  all: apply (bool_decide_unpack _); vm_compute; exact I.
Qed.

(** ** The theorems at this broker *)
Lemma client_requests_typed_witness :
  ∃ rs, parsed (input [produce 1 (str "hello"); fetch 2]) rs ∧
    (∀ rs', parsed (input [produce 1 (str "hello"); fetch 2]) rs' → rs' = rs) ∧ Forall wire_request rs.
Proof. apply (client_requests_typed (input [produce 1 (str "hello"); fetch 2])). Defined.

(** A handler is polled; while it waits, a partition task that can runs. *)
Definition other_task (s : Shared) : Shared :=
  default s (head (omap (λ a, pair (fst s) <$> actor_turn a (snd s)) (seq 0 (rt_next (snd s))))).
Fixpoint polls (fuel : nat) (f : Future Shared Response) (s : Shared) : list Shared * option Response :=
  match f, fuel with
  | Ready r, _ => ([], Some r)
  | Await p, O => ([], None)
  | Await p, S fuel' =>
      match p s with
      | (Go f', s') => let '(ss, r) := polls fuel' f' s' in (s :: ss, r)
      | (Pending, _) => let '(ss, r) := polls fuel' f (other_task s) in (s :: ss, r)
      | (Crash, _) => ([], None)
      end
  end.

Lemma polls_ends fuel f s r : snd (polls fuel f s) = Some r → ends f (fst (polls fuel f s)) r.
Proof.
  revert f s. induction fuel as [|fuel IH]; intros [r'|p] s; cbn [polls fst snd]; try done.
  1,2: intros [= ->]; constructor.
  destruct (p s) as [[|f'|] s'] eqn:Hp; try done.
  - specialize (IH (Await p) (other_task s)). destruct (polls fuel (Await p) (other_task s)) as [ss o].
    intros Ho. by eapply ends_pending, IH.
  - specialize (IH f' s'). destruct (polls fuel f' s') as [ss o]. intros Ho. by eapply ends_go, IH.
Qed.

(** A produce to a partition that does not exist yet. *)
Abbreviation first_polls :=
  (polls 20 (handle_request (produce 1 (str "hello"))) (TopicRegistry_new [str "data"] 64 1 Config.LogAndIndex 1, no_tasks disk)).

Definition first_response : Response :=
  ResProduce {| pres_correlation_id := 1; pres_topic := str "orders"; pres_partition := 0; pres_offset := 0 |}.
Lemma first_answer : snd first_polls = Some first_response.
Proof. vm_compute. reflexivity. Qed.

Lemma handle_request_answers_witness :
  snd first_polls = Some first_response ∧ response_for (produce 1 (str "hello")) first_response ∧
  ∃ ss', ss' `sublist_of` fst first_polls ∧ handled (produce 1 (str "hello")) ss' first_response.
Proof.
  destruct (handle_request_answers (produce 1 (str "hello")) (fst first_polls) first_response) as (Hf & Hh & _);
    [exact (polls_ends _ _ _ _ first_answer)|].
  exact (conj first_answer (conj Hf Hh)).
Defined.



Lemma Broker_mailbox_bounds_witness :
  ∃ sys sys', start config (inl backlog) disk = Ok sys ∧ run schedule sys = Some sys' ∧
    ∀ a act, rt_actors (snd (sy_shared sys')) !! a = Some act →
      blen (mpsc_buffer (ac_rx act)) ≤ 1 ∧ blen (mpsc_buffer (ac_rx act)) ≤ 2.
Proof.
  destruct (Broker_mailbox_bounds config disk ∅ backlog reqs launched) as (sys & Hs & Hb).
  destruct (schedule_runs sys Hs) as [sys' Hr]. exists sys, sys'. split; [exact Hs|]. split; [exact Hr|].
  intros a act Ha. exact (Hb schedule sys' a act Hr Ha).
Defined.

Lemma Broker_answers_all_witness :
  ∃ sys sys', start config (inl backlog) disk = Ok sys ∧ run schedule sys = Some sys' ∧
    (length schedule ≤ moves_bound backlog reqs)%nat ∧
    ((∃ m sys'', do_move m sys' = Some sys'') ∨
     ∀ t rs, reqs !! t = Some rs → ∃ fr resps, sy_conns sys' !! t = Some (Closed fr) ∧
       framed_out fr = wires (Response_into_frame <$> resps) ∧
       Response_correlation_id <$> resps = req_cid <$> rs).
Proof.
  destruct (Broker_answers_all config disk ∅ backlog reqs launched) as (sys & Hs & Ha).
  destruct (schedule_runs sys Hs) as [sys' Hr]. exists sys, sys'. split; [exact Hs|]. split; [exact Hr|]. exact (Ha _ _ Hr).
Defined.

(** Two clients of the second broker, and a schedule for them. *)
Definition fetch_at (cid offset : Z) : Request :=
  RFetch {| fr_correlation_id := cid; fr_topic := str "orders"; fr_partition := 0; fr_offset := offset; fr_max_bytes := 100 |}.
Definition readers : list (list Request) := [[fetch_at 7 0; fetch_at 8 2]; [fetch_at 9 1]].
Definition reader_backlog : list AcceptResult := (λ r, inl (input r, [])) <$> readers.

Lemma readers_talk : Forall2 (λ fr r, talking fr r []) (accepted reader_backlog) readers.
Proof. apply sent_talking; [reflexivity|]. apply (bool_decide_unpack _). vm_compute. exact I. Qed.

Lemma restored_readers sys logs : restored sys logs → clients_ok logs reader_backlog readers.
Proof.
  intros [Hf Hr]. apply readers_ok; [apply readers_talk|..].
  1,2: apply (bool_decide_unpack _); vm_compute; exact I.
  intros [topic id] rs Hk. destruct (proj2 (Hf topic id)) as [a Ha]; [by eexists|]. by destruct (Hr topic id a rs Ha Hk) as (act & _ & _ & _ & ?).
Qed.

(** The restart happens right after both produce requests were served. *)
Lemma Broker_restart_witness :
  ∃ sys sys' st sys2, start config (inl backlog) disk = Ok sys ∧ run (take 13 schedule) sys = Some sys' ∧
    rtc (atomic_step 64) (atomic_init ∅ reqs) st ∧
    start config (inl []) (shutdown sys') = Ok sys2 ∧ restored sys2 (at_logs st) ∧
    launch config (shutdown sys') (at_logs st) reader_backlog readers.
Proof.
  destruct (Broker_restart config disk ∅ backlog reqs launched) as (sys & Hs & Hre).
  destruct (schedule_runs sys Hs) as [sys1 Hr1].
  destruct (run_take 13 schedule sys sys1 Hr1) as [sys' Hr].
  destruct (Hre _ _ Hr) as (st & Hat & _ & _ & Hst & Hl). destruct (Hst []) as (sys2 & Hs2 & _ & _ & Hres).
  exists sys, sys', st, sys2. do 5 (split; [done|]). eapply Hl, restored_readers, Hres.
Defined.



(** The second broker serves the readers after the first served its clients. *)
Definition reader_schedule : list move :=
  [MAccept; MAccept; MConnection 0; MConnection 1; MConnection 0; MConnection 1; MConnection 0; MPartition 0; MConnection 1; MPartition 0;
   MConnection 0; MConnection 1; MConnection 0; MConnection 1; MConnection 0; MConnection 1; MConnection 0; MConnection 0; MPartition 0;
   MConnection 0; MConnection 0; MConnection 0].

Definition second_broker : option System :=
  match start config (inl backlog) disk with
  | Ok sys => sys' ← run schedule sys;
              match start config (inl reader_backlog) (shutdown sys') with Ok sys2 => run reader_schedule sys2 | _ => None end
  | _ => None
  end.

Lemma second_closes : (λ s, (λ c, match c with Closed _ => true | _ => false end) <$> sy_conns s) <$> second_broker = Some [true; true].
Proof. vm_compute. reflexivity. Qed.

Lemma second_runs sys sys' sys2 :
  start config (inl backlog) disk = Ok sys → run schedule sys = Some sys' →
  start config (inl reader_backlog) (shutdown sys') = Ok sys2 →
  ∃ sys2' fr2, run reader_schedule sys2 = Some sys2' ∧ sy_conns sys2' !! 0%nat = Some (Closed fr2).
Proof.
  intros Hs Hr Hs2. pose proof second_closes as Hc. unfold second_broker in Hc. rewrite Hs, Hr in Hc. cbn [mbind option_bind] in Hc.
  rewrite Hs2 in Hc. destruct (run reader_schedule sys2) as [sys2'|]; [|done]. exists sys2'. cbn in Hc.
  destruct (sy_conns sys2') as [|[|fr2|] l]; try done. by exists fr2.
Qed.

End BrokerExamples.
