(* ===== verification/ClientExamples.v ===== *)
(** * The example clients at work

    `client.rs`, a small pipelined benchmark and a short sequential one talk to
    one broker at the same time: the runs at which the theorems about clients are applied. *)
From S2P Require Import Prelude Errors BytesCrate StdText Types Frame Request Response Tokio FileSystem BinarySearch Index Record Segment SegmentInv SegmentRead SegmentWrite SegmentLoad Partition Listing PartitionInv Isolation PartitionWrite PartitionRead PartitionOpen PartitionSpec Registry Handler Connection Clients BrokerSpec BrokerHistory Layout BrokerStore DataDir BrokerTasks BrokerSim BrokerSteps BrokerStart BrokerRun BrokerDelivery BrokerTheorems ClientRules ClientTheorems BenchTheorems BrokerExamples.
Import ListBytes ListTokio.
#[local] Open Scope Z_scope.

Module ClientExamples.
Import BrokerExamples.
#[local] Existing Instance texts.
#[local] Existing Instance Request_typed_dec.

(** Five messages in batches of two, one batch under way at a time. *)
Definition args : Args :=
  {| topic := str "bench"; partition := 3; messages := 5; batch_size := 2; max_in_flight := 1; payload_size := 4 |}.
Definition cfg : Config.BrokerConfig := Config.BrokerConfig_default.

(** What the clients end up sending. *)
Definition rqs : list (list Request) :=
  [[RProduce client_produce; RFetch (client_fetch 0)]; batch_requests args 2;
   requests (λ i, RProduce (benchmark_request i)) 0 2].
Definition conns : list AcceptResult := (λ r, inl (input r, [])) <$> rqs.

(** Each task gets its turn until none can move. *)
Fixpoint round_robin (fuel : nat) (ms : list move) (sys : System) : list move :=
  match fuel with
  | O => []
  | S fuel' =>
      match list_find (λ m, is_Some (do_move m sys)) ms with
      | Some (i, m) =>
          match do_move m sys with
          | Some sys' => m :: round_robin fuel' (drop (S i) ms ++ take (S i) ms) sys'
          | None => []
          end
      | None => []
      end
  end.
Definition turns : list move := [MAccept; MConnection 0; MConnection 1; MConnection 2] ++ (MPartition <$> seq 0 10).
Definition plan : list move :=
  match start cfg (inl conns) disk with Ok sys => round_robin 200 turns sys | _ => [] end.

(** What the broker wrote to client [t]. *)
Definition transcript (t : nat) : option bytes :=
  match start cfg (inl conns) disk with
  | Ok sys => sys' ← run plan sys; c ← sy_conns sys' !! t; match c with Closed fr => Some (framed_out fr) | _ => None end
  | _ => None
  end.

Lemma transcript_closed t b sys :
  transcript t = Some b → start cfg (inl conns) disk = Ok sys →
  ∃ sys' fr, run plan sys = Some sys' ∧ sy_conns sys' !! t = Some (Closed fr) ∧ framed_out fr = b.
Proof.
  unfold transcript. intros Ht Hs. rewrite Hs in Ht. destruct (run plan sys) as [sys'|]; [|done]. exists sys'. cbn in Ht.
  destruct (sy_conns sys' !! t) as [[|fr|]|]; try discriminate Ht. injection Ht as Ht. by exists fr.
Qed.

Lemma hosted : hosts cfg disk ∅ conns rqs 256 4096.
Proof.
  split.
  - apply launch_clients; [done|cbn; lia|cbn; unfold MAX_PERMITS; lia|reflexivity|..].
    all: apply (bool_decide_unpack _); vm_compute; exact I.
  - intros key rs Hk. by rewrite lookup_empty in Hk.
  - unfold frame_room, MAX_FRAME_SIZE. lia.
  - intros e. vm_compute. discriminate.
  - repeat constructor; vm_compute; discriminate.
Qed.

(** The session, fed what the broker wrote to client [t], writes [r]. *)
Definition talks {A} (s : Session A) (t : nat) (r : list Request) : bool :=
  match transcript t with Some b => bool_decide (snd (snd (drive s (b, []))) = input r) | None => false end.

Lemma talks_connected {A} (s : Session A) t r :
  talks s t r = true → ∃ b, transcript t = Some b ∧ ∀ fr, framed_out fr = b → connected s (b, []) (input r, []) fr.
Proof.
  unfold talks. destruct (transcript t) as [b|]; [|done]. intros Hw. apply bool_decide_eq_true in Hw.
  exists b. split; [done|]. intros fr Hfr. split; [exact I|reflexivity|by rewrite Hfr|exact (eq_sym Hw)].
Qed.

Lemma client_talks : talks client_main 0 [RProduce client_produce; RFetch (client_fetch 0)] = true.
Proof. vm_compute. reflexivity. Qed.
Lemma throughput_talks : talks (throughput_main args) 1 (batch_requests args 2) = true.
Proof. vm_compute. reflexivity. Qed.
Lemma benchmark_talks : talks (benchmark_loop 2 0) 2 (requests (λ i, RProduce (benchmark_request i)) 0 2) = true.
Proof. vm_compute. reflexivity. Qed.

Lemma client_example_succeeds_witness :
  ∃ b offset ev client', transcript 0 = Some b ∧ drive client_main (b, []) = (ev, Ok tt, client') ∧
    printed ev = [SendingProduce client_topic message_str; ProduceSuccessful offset; SendingFetch offset;
                  FetchSuccessful message_str; RoundTripped].
Proof.
  destruct (client_example_succeeds cfg disk ∅ conns rqs 256 4096 hosted) as (sys & Hs & Hall); [vm_compute; discriminate|].
  destruct (talks_connected _ _ _ client_talks) as (b & Hb & Hcn). destruct (transcript_closed 0 b sys Hb Hs) as (sys' & fr & Hr & Hc & Hfr).
  destruct (Hall plan sys' 0%nat (b, []) _ fr Hr eq_refl Hc (Hcn fr Hfr)) as (offset & ev & client' & Hd & Hp).
  exists b, offset, ev, client'. split; [exact Hb|]. split; [exact Hd|exact Hp].
Defined.

Lemma bench_args : bench_ok args.
Proof. split; vm_compute; try split; try split; done. Qed.

Lemma pipelined_bench_completes_witness :
  ∃ b ev client', transcript 1 = Some b ∧ drive (throughput_main args) (b, []) = (ev, Ok (counters 2 2), client') ∧
    windowed 1 0 ev ∧ sent ev = batch_frames args 0 2 ∧ Forall (λ f, f_api_key f = AProduceBatch) (received ev).
Proof.
  destruct (pipelined_bench_completes cfg disk ∅ conns rqs 256 4096 args Err hosted bench_args) as (sys & Hs & Hall).
  destruct (talks_connected _ _ _ throughput_talks) as (b & Hb & Hcn). destruct (transcript_closed 1 b sys Hb Hs) as (sys' & fr & Hr & Hc & Hfr).
  destruct (Hall plan sys' 1%nat (b, []) _ fr Hr eq_refl Hc (Hcn fr Hfr)) as (ev & client' & Hd & Hw & Hsent & _ & Hack).
  exists b, ev, client'. split; [exact Hb|]. split; [exact Hd|]. split; [exact Hw|]. split; [exact Hsent|].
  apply Hack. vm_compute. discriminate.
Defined.

(** Of the five messages only four are sent: what is left over by the batch size
    is dropped, although the reported rate counts all of them. *)
Lemma throughput_drops_remainder :
  messages args = 5 ∧ sum_list (length ∘ pb_payloads ∘ batch_request args <$> seqZ 1 (total_batches args)) = 4%nat.
Proof. by vm_compute. Qed.

(** With `--max-in-flight 0` the client sends nothing and waits for a reply. *)
Lemma zero_window_waits :
  ∃ k, throughput_main {| topic := str "bench"; partition := 3; messages := 5; batch_size := 2; max_in_flight := 0;
                          payload_size := 4 |} = NextFrame k.
Proof. eexists. reflexivity. Qed.

Lemma sequential_bench_completes_witness :
  ∃ b ev client', transcript 2 = Some b ∧ drive (benchmark_loop 2 0) (b, []) = (ev, Ok tt, client') ∧
    windowed 1 0 ev ∧ f_correlation_id <$> sent ev = [0; 1] ∧ f_correlation_id <$> received ev = [0; 1].
Proof.
  destruct (sequential_bench_completes cfg disk ∅ conns rqs 256 4096 2 0 16 hosted) as (sys & Hs & Hall); [vm_compute; split; discriminate|].
  destruct (talks_connected _ _ _ benchmark_talks) as (b & Hb & Hcn). destruct (transcript_closed 2 b sys Hb Hs) as (sys' & fr & Hr & Hc & Hfr).
  destruct (Hall plan sys' 2%nat (b, []) _ fr Hr eq_refl Hc _ _ _ ltac:(left) (Hcn fr Hfr)) as (ev & client' & Hd & Hw & Hsent & Hcid).
  exists b, ev, client'. split; [exact Hb|]. split; [exact Hd|]. split; [exact Hw|]. rewrite Hcid, Hsent. split; reflexivity.
Defined.
End ClientExamples.
