(* ===== verification/ReportExamples.v ===== *)
(** * The reports at work

    A latency test against a broker, from its first request to its report, and
    the broker that `interview_bench.rs` starts on a data directory that an
    earlier run left behind. *)
From S2P Require Import Prelude Errors BytesCrate StdText F64 Types Frame Request Response Tokio FileSystem BinarySearch Index Record Segment SegmentInv SegmentRead SegmentWrite SegmentLoad Partition Listing PartitionInv Isolation PartitionWrite PartitionRead PartitionOpen PartitionSpec Registry Handler Connection Clients BenchReport BrokerSpec BrokerHistory Layout BrokerStore DataDir BrokerTasks BrokerSim BrokerSteps BrokerStart BrokerRun BrokerDelivery BrokerTheorems ClientRules BenchTheorems ReportTheorems BrokerExamples.
Import ListBytes ListTokio.
#[local] Open Scope Z_scope.

Module ReportExamples.
Import BrokerExamples.
#[local] Existing Instance texts.

(** ** A latency test *)

(** The clock's readings, in microseconds. *)
Definition micros (i : nat) : Z := (70 - 7 * Z.of_nat i) mod 100.
Definition sent_requests : list Request := requests (λ i, RProduce (latency_request 16 i)) 0 (1000 + 20).
Definition conns : list AcceptResult := [inl (input sent_requests, [])].
Definition cfg : Config.BrokerConfig := Config.BrokerConfig_default.

Lemma sent_requests_all (P : Request → Prop) : (∀ i, P (RProduce (latency_request 16 i))) → Forall P sent_requests.
Proof. intros HP. apply Forall_fmap, Forall_forall. intros i _. apply HP. Qed.

Lemma test_hosted : hosts cfg disk ∅ conns [sent_requests] 16 4096.
Proof.
  split.
  - apply launch_clients; [done|cbn; lia|cbn; unfold MAX_PERMITS; lia|reflexivity|..].
    + apply Forall_singleton, sent_requests_all. intros i. apply latency_request_sendable. unfold MAX_FRAME_SIZE. lia.
    + apply Forall_singleton, sent_requests_all. intros i. apply (bool_decide_unpack _). vm_compute. exact I.
    + vm_compute. reflexivity.
  - intros key rs Hk. by rewrite lookup_empty in Hk.
  - unfold frame_room, MAX_FRAME_SIZE. lia.
  - intros e. vm_compute. discriminate.
  - apply Forall_singleton, sent_requests_all. intros i. vm_compute. discriminate.
Qed.

(** A client that is fed what the broker wrote for these requests sends them. *)
Lemma test_connected fr rs resps logs :
  served cfg 16 (input sent_requests, []) fr rs resps logs →
  connected (latency_test micros 20 16) (framed_out fr, []) (input sent_requests, []) fr.
Proof.
  intros Hsv. split; [exact I|reflexivity|reflexivity|]. unfold latency_test. rewrite drive_finish.
  assert (Hfs : Forall sendable (Response_into_frame <$> resps)).
  { apply Forall_fmap. eapply Forall_impl; [apply (sv_fits _ _ _ _ _ _ _ Hsv)|]. intros x. apply Response_sendable. }
  pose proof (exchanged_app _ _ 1000 20 0 (framed_out fr, []) (Response_into_frame <$> resps) (latency_sequential 16) I
    (sv_wrote _ _ _ _ _ _ _ Hsv) Hfs) as Hrun.
  assert (Hrs : rs = sent_requests).
  { apply (parsed_unique _ _ _ (sv_read _ _ _ _ _ _ _ Hsv)), parsed_wires, sent_requests_all. intros i.
    apply latency_request_sendable. unfold MAX_FRAME_SIZE. lia. }
  pose proof (Forall2_length _ _ _ (sv_explained _ _ _ _ _ _ _ Hsv)) as Hlen. rewrite Hrs in Hlen.
  unfold sent_requests, requests in Hlen. rewrite length_fmap, length_seqZ, Nat2Z.id in Hlen.
  change (run_latency_bench 20 16) with (latency_loop 16 1000 0 ≫= λ _, latency_loop 16 20 (0 + Z.of_nat 1000)).
  unfold runs in Hrun. destruct (drive _ _) as [[ev o] client']. unfold exchanged in Hrun. rewrite length_fmap in Hrun.
  destruct Hrun as [(_ & Hs & _ & _ & Hout & _)|[Hlt _]]; [|lia]. cbn [snd framed_ops framed_in framed_out fst] in *.
  rewrite Hout, Hs. unfold input, sent_requests. exact eq_refl.
Qed.

(** Some schedule serves the test to its end. *)
Lemma latency_test_reports_witness :
  ∃ sys ms sys' fr ev r client' sorted, start cfg (inl conns) disk = Ok sys ∧ run ms sys = Some sys' ∧
    sy_conns sys' !! 0%nat = Some (Closed fr) ∧
    drive (latency_test micros 20 16) (framed_out fr, []) = (ev, Ok r, client') ∧
    reports 20 (micros <$> seq 0 20) sorted r.
Proof.
  destruct (latency_test_reports cfg disk ∅ conns [sent_requests] 16 4096 micros 20 16 test_hosted) as (sys & Hs & Hall).
  { unfold MAX_FRAME_SIZE. lia. }
  { lia. }
  { intros i. unfold exact, micros. pose proof (Z.mod_pos_bound (70 - 7 * Z.of_nat i) 100). lia. }
  destruct (complete_run _ _ _ _ _ (ho_launch _ _ _ _ _ _ _ test_hosted)) as (sys1 & ms & sys' & Hs1 & Hr & Hcl).
  destruct (conversation _ _ _ _ _ _ _ test_hosted) as (sys2 & Hs2 & Hconv).
  rewrite Hs in Hs1, Hs2. injection Hs1 as <-. injection Hs2 as <-.
  destruct (Hcl 0%nat sent_requests eq_refl) as [fr Hfr].
  destruct (Hconv ms sys' 0%nat (input sent_requests, []) fr Hr eq_refl Hfr) as (rs & resps & logs & Hsv).
  destruct (Hall ms sys' 0%nat (framed_out fr, []) (input sent_requests, []) fr Hr eq_refl Hfr (test_connected fr rs resps logs Hsv))
    as (ev & r & client' & sorted & Hd & _ & Hrep).
  by exists sys, ms, sys', fr, ev, r, client', sorted.
Defined.
(** The line of this test in the CSV file: the p99 of 20 readings is the last. *)
Lemma test_line :
  latency_line <$> match latency_result 20 16 (micros <$> seq 0 20) with Ok r => Some r | _ => None end =
    Some (str "Sequential Latency,16,20,Avg: 48.50us | p99: 93.00us" ++ [x0a]).
Proof. vm_compute. reflexivity. Qed.

(** The tables for 2.5 seconds: the pipelined benchmark's million messages, and
    100,000 sequential ones. Ties in the last digit go to the even one. *)
Definition elapsed : Duration := {| d_secs := 2; d_nanos := 500000000 |}.
Lemma tables :
  throughput_bench_table Args_default elapsed =
    x0a :: str "--- Pipelined Batch Benchmark Results ---" ++ x0a :: str "Total Messages : 1000000" ++
    x0a :: str "Batch Size     : 1000" ++ x0a :: str "Payload Size   : 256 bytes" ++ x0a :: str "Total Time     : 2.50s" ++
    x0a :: str "Throughput     : 400000 msgs/sec" ++ x0a :: str "Bandwidth      : 97.66 MB/s" ++ [x0a] ∧
  benchmark_table elapsed =
    x0a :: str "📊 Benchmark Results (Sequential Round-Trip)" ++ x0a :: str "----------------------------------------------" ++
    x0a :: str "Total Messages : 100000" ++ x0a :: str "Payload Size   : 256 bytes" ++ x0a :: str "Total Time     : 2.500 seconds" ++
    x0a :: str "Throughput     : 40000 msgs/sec" ++ x0a :: str "Data Rate      : 9.77 MB/sec" ++
    x0a :: str "Avg Latency    : 0.025 ms/msg" ++ [x0a] ∧
  format_fixed 0 (lit 5 2) = str "2" ∧ format_fixed 2 (lit 1 8) = str "0.12".
Proof. vm_compute. split_and!; reflexivity. Qed.

(** ** Starting a broker *)

(** What an earlier run left in the data directory. *)
Definition bench_dir : bytes := str "./data-bench".
Definition used_disk : World :=
  {| w_files := {[ [str "data-bench"; str "orders"; str "0"; str "00000000000000000000.log"] := [x01; x02] ]};
     w_dirs := {[ []; [str "data-bench"]; [str "data-bench"; str "orders"]; [str "data-bench"; str "orders"; str "0"] ]};
     w_sched := [IoOk; IoShort 3]; w_clock := []; w_dir_order := reverse |}.

(** The build only takes its time, and the child is known by its arguments. *)
Definition build : Res World bool := λ w, (Ok true, pop_sched w).
Definition spawn (args : list bytes) : Res World (list bytes) := mret args.

Lemma interview_broker_launched_witness :
  ∃ w', start_broker build spawn bench_dir (str "log-and-index") used_disk =
      (Ok (broker_args bench_dir (str "log-and-index")), w') ∧
    launch (bench_config bench_dir Config.LogAndIndex) w' ∅ backlog reqs.
Proof.
  destruct (interview_broker_launched build spawn bench_dir (str "log-and-index") used_disk) as (w' & Hs & Hl).
  - intros w1 Hw1 Hf1. exists (pop_sched w1). split; [reflexivity|]. split; [by apply healthy_pop|by apply fresh_base_pop].
  - by repeat constructor.
  - apply (bool_decide_unpack _). vm_compute. exact I.
  - intros q _ _. apply (bool_decide_unpack _). vm_compute. exact I.
  - intros l. apply reverse_Permutation.
  - vm_compute. reflexivity.
  - exists w'. split; [exact Hs|]. apply Hl. apply (la_clients _ _ _ _ _ launched).
Defined.
End ReportExamples.
