(* ===== verification/Termination.v ===== *)
(** * Every storage operation ends

    The loops of the model are bounded; here the bounds are shown to be enough
    on every file content and every sequence of answers of the operating system,
    errors included. [terminates] is compositional, so straight-line code is
    discharged by the hint database [term]; only the four loops need an
    argument. *)
From S2P Require Import Prelude Errors BytesCrate StdText FileSystem BinarySearch Index Record Segment Partition.
#[local] Open Scope Z_scope.

Definition terminates {E S A} (m : M E S A) : Prop := ∀ s, fst (m s) ≠ OutOfFuel.

Create HintDb term.

Section combinators.
Context {E S : Type}.

Lemma term_ret {A} (a : A) : terminates (mret a : M E S A).
Proof. done. Qed.
Lemma term_throw {A} (e : E) : terminates (throw e : M E S A).
Proof. done. Qed.
Lemma term_panic {A} : terminates (panic : M E S A).
Proof. done. Qed.
Lemma term_gets {A} (f : S → A) : terminates (gets f : M E S A).
Proof. done. Qed.
Lemma term_modify (f : S → S) : terminates (modify f : M E S unit).
Proof. done. Qed.
Lemma term_bind {A B} (m : M E S A) (f : A → M E S B) :
  terminates m → (∀ a, terminates (f a)) → terminates (m ≫= f).
Proof.
  intros Hm Hf s. unfold mbind, M_bind. specialize (Hm s). destruct (m s) as [[] s']; try done. apply Hf.
Qed.
Lemma term_fmap {A B} (f : A → B) (m : M E S A) : terminates m → terminates (f <$> m).
Proof. intros Hm s. unfold fmap, M_fmap. specialize (Hm s). by destruct (m s) as [[] s']. Qed.
Lemma term_attempt {A} (m : M E S A) : terminates m → terminates (attempt m).
Proof. intros Hm s. unfold attempt. specialize (Hm s). by destruct (m s) as [[] s']. Qed.
Lemma term_zoom {T A} (get : S → T) (put : T → S → S) (m : M E T A) :
  terminates m → terminates (zoom get put m).
Proof. intros Hm s. unfold zoom. specialize (Hm (get s)). by destruct (m (get s)). Qed.
Lemma term_scoped {T A} (t : T) (m : M E T A) : fst (m t) ≠ OutOfFuel → terminates (scoped t m : M E S A).
Proof. intros Hm s. done. Qed.
End combinators.

#[export] Hint Resolve term_ret term_throw term_panic term_gets term_modify term_bind term_fmap
  term_attempt term_zoom : term.
(** Case analyses of the code. *)
#[export] Hint Extern 4 (terminates (if ?b then _ else _)) => destruct b : term.
#[export] Hint Extern 4 (terminates (match ?x with _ => _ end)) => destruct x : term.
#[export] Hint Extern 5 (terminates (let '(_, _) := ?x in _)) => destruct x : term.
Ltac term := intros; eauto 40 with term.

(** ** The file interface and the index *)
Lemma term_syscall : terminates syscall.
Proof. intros w. unfold syscall. by destruct (next_event w). Qed.
#[export] Hint Resolve term_syscall : term.
Lemma term_in_world {S A} (m : Res World A) : terminates m → terminates (in_world m : Res (S * World) A).
Proof. unfold in_world. term. Qed.
#[export] Hint Resolve term_in_world : term.
Lemma term_with_local {S A} (x : S) (m : Res (S * World) A) : terminates m → terminates (with_local x m).
Proof. intros Hm w. unfold with_local. specialize (Hm (x, w)). by destruct (m (x, w)) as [[] [? ?]]. Qed.
#[export] Hint Resolve term_with_local : term.
Lemma term_when {S} b (m : Res S unit) : terminates m → terminates (when b m).
Proof. by destruct b. Qed.
#[export] Hint Resolve term_when : term.

Lemma term_now_ms : terminates now_ms.
Proof. done. Qed.
Lemma term_write_all d : terminates (write_all d).
Proof. intros [f w]. unfold write_all. by destruct (next_event w). Qed.
#[export] Hint Resolve term_now_ms term_write_all : term.
Lemma term_create_dir_all p : terminates (create_dir_all p).
Proof. unfold create_dir_all. term. Qed.
Lemma term_read_dir p : terminates (read_dir p).
Proof. unfold read_dir. term. Qed.
Lemma term_open o p : terminates (open o p).
Proof. unfold open. term. Qed.
Lemma term_file :
  terminates metadata_len ∧ (∀ n, terminates (seek_start n)) ∧ terminates seek_end ∧ terminates flush ∧
  terminates sync_data ∧ (∀ n, terminates (read n)) ∧ (∀ n, terminates (read_exact n)) ∧
  terminates read_to_end ∧ (∀ n, terminates (set_len n)).
Proof.
  unfold metadata_len, seek_start, seek_end, flush, sync_data, read, read_exact, read_to_end, set_len.
  split_and!; term.
Qed.
Lemma term_metadata_len : terminates metadata_len.
Proof. apply term_file. Qed.
Lemma term_seek_start n : terminates (seek_start n).
Proof. apply term_file. Qed.
Lemma term_seek_end : terminates seek_end.
Proof. apply term_file. Qed.
Lemma term_sync_data : terminates sync_data.
Proof. apply term_file. Qed.
Lemma term_flush : terminates flush.
Proof. apply term_file. Qed.
Lemma term_read n : terminates (read n).
Proof. apply term_file. Qed.
Lemma term_read_exact n : terminates (read_exact n).
Proof. apply term_file. Qed.
Lemma term_read_to_end : terminates read_to_end.
Proof. apply term_file. Qed.
Lemma term_set_len n : terminates (set_len n).
Proof. apply term_file. Qed.
#[export] Hint Resolve term_create_dir_all term_read_dir term_open term_metadata_len term_seek_start
  term_seek_end term_sync_data term_flush term_read term_read_exact term_read_to_end term_set_len : term.

Lemma term_load_entries n acc : terminates (load_entries n acc).
Proof. revert acc. induction n; cbn [load_entries]; term. Qed.
#[export] Hint Resolve term_load_entries : term.
Lemma term_Index_create p : terminates (Index_create p).
Proof. unfold Index_create. term. Qed.
Lemma term_Index_load p : terminates (Index_load p).
Proof. unfold Index_load, load_file. term. Qed.
Lemma term_Index_append o p : terminates (Index_append o p).
Proof. unfold Index_append, on_ix_file. term. Qed.
Lemma term_Index_flush : terminates Index_flush.
Proof. unfold Index_flush, on_ix_file. term. Qed.
Lemma term_Index_sync : terminates Index_sync.
Proof. unfold Index_sync, on_ix_file. term. Qed.
#[export] Hint Resolve term_Index_create term_Index_load term_Index_append term_Index_flush
  term_Index_sync : term.
Lemma term_lookup {S} ix t : terminates (lift (Index_lookup ix t) : Res S (option Z)).
Proof.
  intros s. unfold lift, Index_lookup. cbn. destruct (binary_search_by_key _ _ _) as [i|]; [|done].
  by destruct (_ !! i).
Qed.
#[export] Hint Resolve term_lookup : term.
Lemma term_on_log {A} (m : FileIO A) : terminates m → terminates (on_log m).
Proof. unfold on_log. term. Qed.
Lemma term_on_index {A} (m : Res (Index * World) A) : terminates m → terminates (on_index m).
Proof. unfold on_index. term. Qed.
#[export] Hint Resolve term_on_log term_on_index : term.
Lemma term_on_segment {A} i (m : SegIO A) : terminates m → terminates (on_segment i m).
Proof.
  intros Hm [p w]. unfold on_segment. cbn [fst snd]. destruct (pt_segments p !! i) as [s|]; [|done].
  specialize (Hm (s, w)). by destruct (m (s, w)) as [? [? ?]].
Qed.
#[export] Hint Resolve term_on_segment : term.

(** ** Decoding takes bytes off the buffer *)
Definition consumes {A} (n : Z) (m : Res bytes A) : Prop := ∀ b,
  match m b with
  | (Ok _, t) => ∃ x, b = x ++ t ∧ n ≤ blen x
  | (OutOfFuel, _) => False
  | _ => True
  end.

Lemma consumes_ret {A} (a : A) : consumes 0 (mret a).
Proof. intros b. by exists []. Qed.
Lemma consumes_bind {A B} n k (m : Res bytes A) (f : A → Res bytes B) :
  consumes n m → (∀ a, consumes k (f a)) → consumes (n + k) (m ≫= f).
Proof.
  intros Hm Hf b. unfold mbind, M_bind. specialize (Hm b). destruct (m b) as [[a| | |] t]; try done.
  destruct Hm as (x & -> & Hx). specialize (Hf a t). destruct (f a t) as [[b'| | |] t']; try done.
  destruct Hf as (y & -> & Hy). exists (x ++ y). rewrite (assoc_L (++)). split; [done|len].
Qed.
Lemma consumes_le {A} n k (m : Res bytes A) : k ≤ n → consumes n m → consumes k m.
Proof.
  intros Hle Hm b. specialize (Hm b). destruct (m b) as [[a| | |] t]; try done.
  destruct Hm as (x & ? & ?). exists x. split; [done|lia].
Qed.

Section term_storage.
Context `{BytesLaws}.

Lemma consumes_get n get : get_law n get → consumes (Z.of_nat n) get.
Proof.
  intros Hg b. destruct (Z.lt_ge_cases (blen b) (Z.of_nat n)) as [Hlt|Hge].
  - apply (proj2 Hg) in Hlt. destruct (get b) as [[] ?]; naive_solver.
  - destruct (get_split n get b Hg Hge) as (v & t & -> & -> & _). exists (be_bytes n v). split; [done|len].
Qed.
Lemma consumes_cut cut n : cut_law cut → 0 ≤ n → consumes 0 (cut n).
Proof.
  intros Hc Hn b. destruct (Z.lt_ge_cases (blen b) n) as [Hlt|Hge].
  - apply (proj2 Hc) in Hlt. destruct (cut n b) as [[] ?]; naive_solver.
  - destruct (cut_split cut b n Hc ltac:(lia)) as (d & t & -> & -> & _). exists d. split; [done|len].
Qed.

(** The field that follows a length read from the buffer. *)
Lemma consumes_get_opt : consumes 4 get_opt.
Proof.
  intros b. unfold get_opt, mbind, M_bind. destruct (Z.lt_ge_cases (blen b) 4) as [Hlt|Hge].
  - apply (proj2 get_u32_law) in Hlt. destruct (get_u32 b) as [[] ?]; naive_solver.
  - destruct (get_split 4 get_u32 b get_u32_law Hge) as (v & t & -> & -> & Hv). case_Zbool.
    + exists (be_bytes 4 v). split; [done|len].
    + pose proof (consumes_cut split_to v split_to_law ltac:(lia) t) as Hc.
      unfold fmap, M_fmap. destruct (split_to v t) as [[d| | |] t']; try done.
      destruct Hc as (x & -> & _). exists (be_bytes 4 v ++ x). rewrite (assoc_L (++)). split; [done|len].
Qed.

Lemma Record_decode_consumes b :
  match Record_decode b with
  | (Ok (Some _), t) => ∃ x, b = x ++ t ∧ 28 ≤ blen x
  | (OutOfFuel, _) => False
  | _ => True
  end.
Proof.
  unfold Record_decode. mret_step. case_Zbool; [done|]. mret_step. unfold id.
  destruct (get_split 4 get_u32 b get_u32_law) as (v & t & Hg & -> & Hv); [lia|].
  erewrite bind_Ok by (eapply scoped_eq, Hg). case_Zbool; [done|]. case_Zbool; [done|].
  mstep advance_app; [|len].
  assert (consumes 24 (offset ← get_u64; timestamp_ms ← get_u64; key ← get_opt; value ← get_opt;
    mret (Some {| r_offset := offset; r_timestamp_ms := timestamp_ms; r_key := key; r_value := value |})))
    as Hc.
  { apply (consumes_bind 8 16); [apply (consumes_get 8 _ get_u64_law)|intros o].
    apply (consumes_bind 8 8); [apply (consumes_get 8 _ get_u64_law)|intros ts].
    apply (consumes_bind 4 4); [apply consumes_get_opt|intros k].
    apply (consumes_bind 4 0); [apply consumes_get_opt|intros v']. apply consumes_ret. }
  specialize (Hc t). destruct ((get_u64 ≫= _) t) as [[[r|]| | |] t']; try done.
  destruct Hc as (x & -> & Hx). exists (be_bytes 4 v ++ x). rewrite (assoc_L (++)). split; [done|len].
Qed.

Lemma term_decode b : fst (Record_decode b) ≠ OutOfFuel.
Proof. pose proof (Record_decode_consumes b). destruct (Record_decode b) as [[[]| | |] ?]; done. Qed.
Lemma term_decode_scoped {S} b : terminates (scoped b Record_decode : Res S (option LogRecord)).
Proof. apply term_scoped, term_decode. Qed.

(** ** The loops *)
Lemma term_load_loop fuel b src off valid :
  (length src ≤ fuel)%nat → terminates (load_loop fuel b src off valid).
Proof.
  revert src off valid. induction fuel as [|fuel IH]; intros src off valid Hf; cbn [load_loop];
    pose proof (Record_decode_consumes src) as Hc; destruct (Record_decode src) as [[[r|]| | |] t]; try done.
  - destruct Hc as (x & -> & Hx). rewrite length_app in Hf. unfold blen in Hx. lia.
  - destruct Hc as (x & -> & Hx). rewrite length_app in Hf. unfold blen in Hx.
    apply term_bind; [term|intros _]. apply IH. lia.
Qed.

Lemma term_scan fuel offset max acc total b :
  (length b ≤ fuel)%nat → fst (scan_records fuel offset max acc total b) ≠ OutOfFuel.
Proof.
  revert acc total b. induction fuel as [|fuel IH]; intros acc total b Hf; cbn [scan_records]; mret_step.
  { destruct b; [done|cbn in Hf; lia]. }
  case_Zbool; [done|]. mret_step. unfold id.
  destruct (get_split 4 get_u32 b get_u32_law) as (v & t & Hg & Hb & _); [lia|].
  erewrite bind_Ok by (eapply scoped_eq, Hg). case_Zbool; [done|]. destruct (_ && _); [done|].
  pose proof (Record_decode_consumes b) as Hc. unfold mbind, M_bind, attempt.
  destruct (Record_decode b) as [[[r|]| | |] t']; try done.
  destruct Hc as (x & -> & Hx). rewrite length_app in Hf. unfold blen in Hx.
  case_Zbool; apply IH; lia.
Qed.

Lemma batch_build_terminates s ts ps buf es pos off count :
  batch_build s ts ps buf es pos off count ≠ OutOfFuel.
Proof.
  revert buf es pos off count. induction ps as [|p ps IH]; intros buf es pos off count; cbn [batch_build]; [done|].
  destruct (_ <? _); [done|]. destruct (_ <? _); [by destruct (_ <? _)|]. apply IH.
Qed.
#[local] Hint Resolve term_decode_scoped : term.

Lemma term_append_entries es : terminates (append_entries es).
Proof. induction es as [|[o p] es IH]; cbn [append_entries]; term. Qed.
#[local] Hint Resolve term_append_entries : term.

(** ** Segment operations *)
Lemma term_Segment_create dir base max lvl : terminates (Segment_create dir base max lvl).
Proof. unfold Segment_create. term. Qed.

Lemma term_load_body base : terminates (load_body base).
Proof.
  unfold load_body. do 2 (apply term_bind; [term|intros ?]). apply term_bind; [term|intros buf].
  apply term_bind; [term|intros b]. apply term_bind; [apply term_zoom, term_load_loop; done|]. term.
Qed.
#[local] Hint Resolve term_load_body : term.
Lemma term_Segment_load dir base max lvl : terminates (Segment_load dir base max lvl).
Proof. unfold Segment_load. term. Qed.
Lemma term_Segment_append key value : terminates (Segment_append key value).
Proof. unfold Segment_append. term. Qed.
Lemma term_Segment_append_batch ps : terminates (Segment_append_batch ps).
Proof.
  unfold Segment_append_batch. apply term_bind; [term|intros s]. destruct (bool_decide _); [term|].
  apply term_bind; [term|intros ts]. apply term_bind; [intros st; apply batch_build_terminates|]. term.
Qed.
Lemma term_Segment_read_at o : terminates (Segment_read_at o).
Proof. unfold Segment_read_at, read_full. term. Qed.
Lemma term_Segment_read_batch o m : terminates (Segment_read_batch o m).
Proof.
  unfold Segment_read_batch, read_first. apply term_bind; [term|intros s]. destruct (_ || _); [term|].
  apply term_bind; [term|intros [position|]]; [|term]. apply term_bind; [term|intros _].
  apply term_bind; [term|intros buf]. apply term_bind; [by apply term_scoped, term_scan|]. term.
Qed.
Lemma term_Segment_flush : terminates Segment_flush.
Proof. unfold Segment_flush. term. Qed.
Lemma term_Segment_sync : terminates Segment_sync.
Proof. unfold Segment_sync. term. Qed.
#[local] Hint Resolve term_Segment_create term_Segment_load term_Segment_append
  term_Segment_append_batch term_Segment_read_at term_Segment_read_batch term_Segment_flush
  term_Segment_sync : term.

(** ** The batch loop of a partition

    A batch that is refused because the segment is full leaves the segment that
    refused it non-empty, so the fresh segment after it takes a payload. *)
Definition not_full {S A} (m : Res S A) : Prop :=
  ∀ s size max s', m s ≠ (Err (SegmentFull size max), s').

Lemma not_full_bind {S A B} (m : Res S A) (f : A → Res S B) :
  not_full m → (∀ a, not_full (f a)) → not_full (m ≫= f).
Proof.
  intros Hm Hf s x y s'. unfold mbind, M_bind. specialize (Hm s). destruct (m s) as [[] t]; naive_solver.
Qed.
Lemma not_full_zoom {S T A} (get : S → T) (put : T → S → S) (m : Res T A) :
  not_full m → not_full (zoom get put m).
Proof. intros Hm s x y s'. unfold zoom. specialize (Hm (get s)). destruct (m (get s)) as [[] t]; naive_solver. Qed.
Lemma not_full_when {S} b (m : Res S unit) : not_full m → not_full (when b m).
Proof. by destruct b. Qed.
Lemma not_full_write d : not_full (write_all d).
Proof. intros [f w] x y s'. unfold write_all. by destruct (next_event w). Qed.
Lemma not_full_sync : not_full sync_data.
Proof.
  unfold sync_data, in_world. apply not_full_bind; [apply not_full_zoom|done].
  intros w x y s'. unfold syscall. by destruct (next_event w).
Qed.
Lemma not_full_entries es : not_full (append_entries es).
Proof.
  induction es as [|[o p] es IH]; cbn [append_entries]; [done|]. apply not_full_bind; [|done].
  unfold Index_append, on_ix_file. apply not_full_bind; [apply not_full_zoom, not_full_write|done].
Qed.

Lemma batch_build_started s ts ps buf es pos off count size max :
  0 < count → batch_build s ts ps buf es pos off count ≠ Err (SegmentFull size max).
Proof.
  revert buf es pos off count. induction ps as [|p ps IH]; intros buf es pos off count Hc;
    cbn [batch_build]; [done|].
  destruct (_ <? _); [done|]. destruct (_ <? _); [by apply Z.ltb_lt in Hc as ->|]. apply IH. lia.
Qed.

Lemma batch_build_empty s ts ps off size max :
  batch_build s ts ps [] [] 0 off 0 ≠ Err (SegmentFull size max).
Proof.
  destruct ps as [|p ps]; cbn [batch_build]; [done|]. set (n := add_u64 28 (blen p)).
  assert (add_u64 0 n = n) as ->.
  { unfold add_u64. rewrite Z.add_0_l. apply wrap_id. by apply wrap_uint. }
  destruct (sg_max_bytes s <? n); [done|]. apply batch_build_started. lia.
Qed.

Lemma batch_build_count s ts ps buf es pos off count d ie co c :
  0 ≤ count → batch_build s ts ps buf es pos off count = Ok (d, ie, co, c) →
  count ≤ c ∧ (ps ≠ [] → 1 ≤ c).
Proof.
  revert buf es pos off count. induction ps as [|p ps IH]; intros buf es pos off count Hc;
    cbn [batch_build].
  { intros [= <- <- <- <-]. split; [lia|done]. }
  destruct (_ <? _); [done|]. destruct (_ <? _).
  { destruct (Z.ltb_spec 0 count); [|done]. intros [= <- <- <- <-]. split; [lia|intros _; lia]. }
  intros Hb. apply IH in Hb as [Hle _]; [|lia]. split; [lia|intros _; lia].
Qed.

Lemma append_batch_empty ps s w size max st' :
  sg_current_size s = 0 → Segment_append_batch ps (s, w) ≠ (Err (SegmentFull size max), st').
Proof.
  intros Hs. unfold Segment_append_batch. mret_step. cbn [fst]. destruct (bool_decide _); [done|].
  unfold in_world. mret_step. rewrite Hs. unfold lift, mbind at 1, M_bind at 1.
  destruct (batch_build _ _ _ _ _ _ _ _) as [[[[d ie] co] c]|e| |] eqn:Hb; [|intros [= ->]; by eapply batch_build_empty|done|done].
  reduce.
  apply not_full_bind; [|intros _; done]. apply not_full_when.
  apply not_full_bind; [apply not_full_zoom, not_full_write|intros _].
  apply not_full_bind; [apply not_full_when, not_full_zoom, not_full_sync|intros _].
  apply not_full_bind; [apply not_full_zoom, not_full_entries|intros _].
  apply not_full_bind; [apply not_full_when, not_full_zoom|done].
  unfold Index_sync, on_ix_file. apply not_full_zoom, not_full_sync.
Qed.

Lemma append_batch_takes ps s w o c st' :
  ps ≠ [] → Segment_append_batch ps (s, w) = (Ok (o, c), st') → 1 ≤ c.
Proof.
  intros Hne. unfold Segment_append_batch. mret_step. cbn [fst]. rewrite bool_decide_eq_false_2 by done.
  unfold in_world. mret_step. intros (r & s1 & Hl & Hk)%bind_Ok_inv.
  destruct r as [[[d ie] co] c']. unfold lift in Hl. injection Hl as Hb <-.
  apply batch_build_count in Hb as [_ Hc]; [|done]. apply bind_Ok_inv in Hk as (? & ? & _ & [= <- <- _]).
  auto.
Qed.

(** The size of the active segment is zero after a rotation. *)
Lemma rotate_size i p w p' w' :
  rotate i (p, w) = (Ok tt, (p', w')) →
  ∃ l s, pt_segments p' = l ++ [s] ∧ sg_current_size s = 0.
Proof.
  unfold rotate. intros (n & [p1 w1] & _ & (? & [p2 w2] & _ & (? & ? & _ & Hk)%bind_Ok_inv)%bind_Ok_inv)%bind_Ok_inv.
  apply bind_Ok_inv in Hk as (s & [p3 w3] & Hc & [= <- <-]). cbn [fst snd set_segments pt_segments].
  exists (pt_segments p3), s. split; [done|]. unfold in_world, zoom in Hc. cbn [fst snd] in Hc.
  destruct (Segment_create _ _ _ _ _) as [[t| | |] w4] eqn:Hs; try done. injection Hc as -> _ _.
  unfold Segment_create in Hs. apply bind_Ok_inv in Hs as (? & ? & _ & Hs).
  apply bind_Ok_inv in Hs as (? & ? & _ & Hs). apply bind_Ok_inv in Hs as (? & ? & _ & Hs).
  by injection Hs as <- _.
Qed.

Lemma term_rotate i : terminates (rotate i).
Proof. unfold rotate. term. Qed.
#[local] Hint Resolve term_rotate : term.

(** Turns the active segment may still answer that it is full. *)
Definition pending (p : Partition) : nat :=
  match last (pt_segments p) with
  | Some s => if sg_current_size s =? 0 then 0 else 1
  | None => 0
  end.

Lemma rotate_pending i p w p' w' : rotate i (p, w) = (Ok tt, (p', w')) → pending p' = 0%nat.
Proof. intros (l & s & Hp & Hs)%rotate_size. unfold pending. by rewrite Hp, last_snoc, Hs. Qed.

(** A turn that starts a fresh segment and goes on. *)
Lemma rotate_then {A} i (k : PartIO A) p w :
  (∀ p' w', pending p' = 0%nat → fst (k (p', w')) ≠ OutOfFuel) →
  fst ((rotate i ≫= λ _, k) (p, w)) ≠ OutOfFuel.
Proof.
  intros Hk. unfold mbind, M_bind. pose proof (term_rotate i (p, w)) as Ht.
  destruct (rotate i (p, w)) as [[[]| | |] [p' w']] eqn:Hr; try done. apply Hk. by eapply rotate_pending.
Qed.

Lemma term_append_batch_loop fuel ps b p w :
  ps = [] ∨ (length ps + pending p ≤ fuel)%nat → fst (append_batch_loop fuel ps b (p, w)) ≠ OutOfFuel.
Proof.
  revert ps b p w. induction fuel as [|fuel IH]; intros ps b p w Hf; cbn [append_batch_loop];
    destruct (decide (ps = [])) as [->|Hne]; try done; rewrite bool_decide_eq_false_2 by done;
    (destruct Hf as [?|Hf]; [done|]).
  { destruct ps; [done|cbn in Hf; lia]. }
  mret_step. cbn [fst]. unfold mbind at 1, M_bind at 1, attempt, on_segment. cbn [fst snd].
  destruct (pt_segments p !! active_idx p) as [s|] eqn:Hs; [|done].
  pose proof (term_Segment_append_batch ps (s, w)) as Ht.
  destruct (Segment_append_batch ps (s, w)) as [[[o c]|e| |] [s' w']] eqn:Hb; try done.
  - apply append_batch_takes in Hb; [|done]. case_Zbool; [done|].
    assert (length (drop (Z.to_nat c) ps) < length ps)%nat as Hlt.
    { rewrite length_drop. destruct ps; [done|cbn [length]; lia]. }
    destruct (decide (drop (Z.to_nat c) ps = [])) as [Hd|Hd].
    + rewrite Hd, bool_decide_eq_true_2 by done. cbn [negb when]. mret_step. apply IH. by left.
    + rewrite bool_decide_eq_false_2 by done. cbn [negb when]. apply rotate_then. intros p' w'' Hp.
      apply IH. right. lia.
  - destruct e; try done. apply rotate_then. intros p' w'' Hp. apply IH. right.
    assert (pending p = 1%nat); [|lia]. unfold pending, active_idx in *.
    rewrite last_lookup, Nat.sub_1_r in *. rewrite Hs.
    destruct (Z.eqb_spec (sg_current_size s) 0) as [Hz|]; [|done]. by eapply append_batch_empty in Hz.
Qed.

Lemma on_segment_length {A} i (m : SegIO A) p w a p' w' :
  on_segment i m (p, w) = (Ok a, (p', w')) → length (pt_segments p') = length (pt_segments p).
Proof.
  unfold on_segment. cbn [fst snd]. destruct (pt_segments p !! i) as [s|]; [|done].
  destruct (m (s, w)) as [o [s' w1]]. intros [= -> <- <-]. cbn. apply length_insert.
Qed.

Lemma term_read_batch_loop fuel i o budget results p w :
  (length (pt_segments p) ≤ fuel + i)%nat →
  fst (read_batch_loop fuel i o budget results (p, w)) ≠ OutOfFuel.
Proof.
  revert i o budget results p w. induction fuel as [|fuel IH]; intros i o budget results p w Hf;
    cbn [read_batch_loop]; mret_step; cbn [fst].
  { destruct (Nat.ltb_spec i (length (pt_segments p))); [lia|done]. }
  destruct (negb _); [done|]. unfold mbind at 1, M_bind at 1.
  pose proof (term_on_segment i _ (term_Segment_read_batch o budget) (p, w)) as Ht.
  destruct (on_segment i (Segment_read_batch o budget) (p, w)) as [[recs| | |] [p' w']] eqn:Hs; try done.
  apply on_segment_length in Hs. mret_step. destruct (bool_decide _); [apply IH; lia|].
  destruct (take_records _ _ _ _) as [|[[? ?] ?]]; [done|apply IH; lia].
Qed.

Lemma term_load_segments dir max lvl entries acc : terminates (load_segments dir max lvl entries acc).
Proof. revert acc. induction entries as [|name entries IH]; intros acc; cbn [load_segments]; term. Qed.
#[local] Hint Resolve term_load_segments : term.

(** C19: every operation of a partition ends on every state of the file system
    and for every sequence of answers of the operating system, errors and torn
    files included: no loop runs out of its bound. *)
Theorem storage_terminates topic id base_dir max lvl key value ps o m st w :
  fst (Partition_open_or_create topic id base_dir max lvl w) ≠ OutOfFuel ∧
  fst (Partition_append key value st) ≠ OutOfFuel ∧
  fst (Partition_append_batch ps st) ≠ OutOfFuel ∧
  fst (Partition_read o st) ≠ OutOfFuel ∧
  fst (Partition_read_batch o m st) ≠ OutOfFuel ∧
  fst (Partition_flush st) ≠ OutOfFuel ∧ fst (Partition_sync st) ≠ OutOfFuel.
Proof.
  split_and!.
  - assert (terminates (Partition_open_or_create topic id base_dir max lvl)) as Ht
      by (unfold Partition_open_or_create; term). apply Ht.
  - assert (terminates (Partition_append key value)) as Ht by (unfold Partition_append; term). apply Ht.
  - destruct st as [p w1]. apply term_append_batch_loop. destruct ps as [|x ps]; [by left|right].
    unfold pending. cbn [length]. destruct (last _) as [s|]; [destruct (_ =? _)|]; lia.
  - assert (terminates (Partition_read o)) as Ht by (unfold Partition_read; term). apply Ht.
  - destruct st as [p w1]. unfold Partition_read_batch. mret_step. cbn [fst].
    destruct (find_segment p o); [apply term_read_batch_loop; lia|done].
  - assert (terminates Partition_flush) as Ht by (unfold Partition_flush; term). apply Ht.
  - assert (terminates Partition_sync) as Ht by (unfold Partition_sync; term). apply Ht.
Qed.
End term_storage.
