(* ===== verification/Examples.v ===== *)
(** * Concrete states

    A broker with an empty data directory, a partition of two records in it and
    a crashed segment: the states at which the storage theorems are applied. *)
From S2P Require Import Prelude Errors BytesCrate StdText FileSystem BinarySearch Index Record Segment SegmentInv SegmentRead SegmentWrite SegmentLoad SegmentTheorems SegmentFaults Partition Listing PartitionInv PartitionWrite PartitionRead PartitionBatch PartitionOpen PartitionSpec Termination.
Import ListBytes.
#[local] Open Scope Z_scope.

Module Examples.
(** An empty disk; the fourth answer of the system is a short read. *)
Definition w0 : World :=
  {| w_files := ∅; w_dirs := ∅; w_sched := [IoOk; IoOk; IoOk; IoShort 3]; w_clock := [1700000000000];
     w_dir_order := reverse |}.
Definition data : path := [str "data"].
Definition topic : bytes := str "orders".
Definition hello : option bytes := Some (str "hello").
Definition world : option bytes := Some (str "world!").

Lemma w0_healthy : healthy w0.
Proof. by repeat constructor. Qed.

Lemma w0_empty dir : empty_dir dir w0.
Proof.
  split.
  - apply Forall_forall. intros q _. apply lookup_empty.
  - intros l. apply reverse_Permutation.
  - rewrite log_bases_eq. cbn [w0 w_files w_dirs]. rewrite dom_empty_L, (left_id_L ∅ (∪)), elements_empty. done.
  - intros n _. split; [apply not_elem_of_empty|]. split; [apply not_elem_of_empty|apply lookup_empty].
Qed.

(** A partition with 64-byte segments: two records do not fit in one. *)
Lemma two_records :
  ∃ p w r0 r1, serving AnyUse p w 0 [r0; r1] ∧ stores r0 0 None hello ∧ stores r1 1 None world ∧
    pt_max_segment_bytes p = 64.
Proof.
  destruct (open_serving topic 0 data 64 Config.LogAndIndex w0) as (p & w & _ & Hsv & _ & Hm & _);
    [apply w0_healthy|apply w0_empty|lia|].
  assert (∀ p w rs v, serving AnyUse p w 0 rs → pt_max_segment_bytes p = 64 → blen rs < 2 → record_len None v ≤ 64 →
    ∃ p' w' r, serving AnyUse p' w' 0 (rs ++ [r]) ∧ stores r (blen rs) None v ∧ pt_max_segment_bytes p' = 64) as Hstep.
  { clear. intros p w rs v Hsv Hm Hlen Hv. pose proof Hsv as [Hinv _ Hfr Hh _].
    pose proof (Partition_append_ok p w 0 rs None v Hh Hinv (fresh_writable p w Hfr)) as Happ.
    rewrite Hm in Happ. destruct (Z.ltb_spec 64 (record_len None v)); [lia|].
    destruct Happ as (p' & w' & r & _ & Hr & Hap); [unfold storable; lia|lia|].
    exists p', w', r. split; [by eapply appended_serving|]. split; [done|].
    by destruct (ap_same _ _ _ _ _ _ Hap) as (_ & _ & _ & -> & _). }
  destruct (Hstep p w [] hello) as (p1 & w1 & r0 & Hsv1 & Hr0 & Hm1); [done|done|done|done|].
  destruct (Hstep p1 w1 [r0] world) as (p2 & w2 & r1 & Hsv2 & Hr1 & Hm2); [done|done|done|done|].
  exists p2, w2, r0, r1. done.
Qed.

(** ** The partition theorems *)
Definition ops : list op :=
  [OpAppend None hello; OpBatch [str "a"; str "b"; str "c"]; OpRead 0; OpReadBatch 1 100; OpSync].

Lemma Partition_refines_log_witness :
  ∃ p w0' reps p1 w1 rs,
    Partition_open_or_create topic 0 data 64 Config.LogAndIndex w0 = (Ok p, w0') ∧
    exec_all ops (p, w0') = (Ok reps, (p1, w1)) ∧ spec_run 64 0 [] ops reps rs.
Proof.
  apply (Partition_refines_log topic 0 data 64 Config.LogAndIndex w0 ops).
  - apply w0_healthy.
  - apply w0_empty.
  - lia.
  - repeat constructor; vm_compute; congruence.
  - vm_compute. reflexivity.
Defined.

Lemma Partition_durability_witness :
  ∃ p w0' reps p1 w1 p2 w2,
    Partition_open_or_create topic 0 data 64 Config.LogAndIndex w0 = (Ok p, w0') ∧
    exec_all ops (p, w0') = (Ok reps, (p1, w1)) ∧
    Partition_open_or_create topic 0 data 64 Config.LogAndIndex w1 = (Ok p2, w2) ∧
    (∀ o, fst (Partition_read o (p2, w2)) = fst (Partition_read o (p1, w1))) ∧
    Partition_next_offset p2 = Partition_next_offset p1.
Proof.
  apply (Partition_durability topic 0 data 64 Config.LogAndIndex w0 0 [] ops).
  - apply w0_healthy.
  - apply sound_new; [apply w0_empty|reflexivity].
  - lia.
  - repeat constructor; vm_compute; congruence.
  - vm_compute. reflexivity.
Defined.

Lemma Partition_append_read_witness :
  ∃ p w, if pt_max_segment_bytes p <? record_len None hello
    then Partition_append None hello (p, w) = (Err MessageTooLarge, (p, w))
    else ∃ p' w' r,
      Partition_append None hello (p, w) = (Ok (Partition_next_offset p), (p', w')) ∧
      fst (Partition_read (Partition_next_offset p) (p', w')) = Ok (Some r) ∧
      stores r (Partition_next_offset p) None hello ∧
      (∀ o, o ≠ Partition_next_offset p →
         fst (Partition_read o (p', w')) = fst (Partition_read o (p, w))) ∧
      Partition_next_offset p' = Partition_next_offset p + 1.
Proof.
  destruct two_records as (p & w & r0 & r1 & [Hinv _ Hfr Hh _] & _). exists p, w.
  apply (Partition_append_read p w 0 [r0; r1] None hello); [done|done|by apply fresh_writable|done|done].
Defined.

Lemma Partition_read_batch_correct_witness :
  ∃ p w r0 r1 out st', Partition_read_batch 1 100 (p, w) = (Ok out, st') ∧
    out `sublist_of` records_from 0 [r0; r1] 1 ∧
    head out = record_at 0 [r0; r1] 1 ∧
    (blen (log_bytes out) ≤ 100 ∨ length out = 1%nat) ∧
    (prompt w → blen (log_bytes (records_from 0 [r0; r1] 1)) ≤ 100 → out = records_from 0 [r0; r1] 1).
Proof.
  destruct two_records as (p & w & r0 & r1 & [Hinv _ Hfr Hh _] & _). exists p, w, r0, r1.
  apply (Partition_read_batch_correct p w 0 [r0; r1] 1 100); [done|done|lia].
Defined.

Lemma Partition_append_batch_correct_witness :
  ∃ p w r0 r1 res p' w' new taken,
    Partition_append_batch [str "a"; str "b"] (p, w) = (res, (p', w')) ∧
    part_inv p' w' 0 ([r0; r1] ++ new) ∧ carries new taken ∧ taken `prefix_of` [str "a"; str "b"] ∧
    (if accepts (pt_max_segment_bytes p) [str "a"; str "b"] then res = Ok (0 + blen [r0; r1]) ∧ taken = [str "a"; str "b"]
     else res = Err MessageTooLarge).
Proof.
  destruct two_records as (p & w & r0 & r1 & [Hinv _ Hfr Hh Hmax] & _). exists p, w, r0, r1.
  apply (Partition_append_batch_correct p w 0 [r0; r1] [str "a"; str "b"]);
    [done|done|by apply fresh_writable|repeat constructor; vm_compute; congruence|done|done].
Defined.

Lemma storage_terminates_witness :
  fst (Partition_open_or_create topic 0 data 64 Config.LogAndIndex w0) ≠ OutOfFuel ∧
  ∀ p : Partition, fst (Partition_append None hello (p, w0)) ≠ OutOfFuel.
Proof.
  assert (∀ p : Partition, _) as Ht
    by exact (λ p, storage_terminates topic 0 data 64 Config.LogAndIndex None hello [] 0 0 (p, w0) w0).
  split; [apply (Ht {| pt_topic := topic; pt_id := 0; pt_base_dir := data; pt_segments := [];
    pt_max_segment_bytes := 64; pt_sync_level := Config.LogAndIndex |})|]. intros p. apply (Ht p).
Defined.

(** ** A crashed segment: the second record is cut after 20 bytes, the index is
    cut inside its first entry *)
Definition rec0 : LogRecord :=
  {| r_offset := 7; r_timestamp_ms := 10; r_key := None; r_value := hello |}.
Definition rec1 : LogRecord :=
  {| r_offset := 8; r_timestamp_ms := 11; r_key := Some (str "k"); r_value := world |}.
Definition crashed : World :=
  {| w_files := <[log_path data 7 := take 53 (log_bytes [rec0; rec1])]>
                  (<[index_path data 7 := [x00; x00; x00]]> ∅);
     w_dirs := {[data]}; w_sched := []; w_clock := []; w_dir_order := id |}.

Lemma recs_consecutive : consecutive 7 [rec0; rec1].
Proof. intros [|[|i]] r Hr; [injection Hr as <-; done|injection Hr as <-; done|done]. Qed.
Lemma recs_typed : Forall record_typed [rec0; rec1].
Proof. repeat constructor; vm_compute; congruence. Qed.

Lemma Segment_crash_recovery_witness :
  ∃ s w' rs1 rs2,
    Segment_load data 7 64 Config.Log crashed = (Ok s, w') ∧ [rec0; rec1] = rs1 ++ rs2 ∧
    (length (log_bytes rs1) ≤ 53 ∨ rs2 = [])%nat ∧
    (∀ r k, rs2 = r :: k → (53 < length (log_bytes (rs1 ++ [r])))%nat) ∧
    w_files w' !! log_path data 7 = Some (log_bytes rs1) ∧
    sg_next_offset s = 7 + blen rs1 ∧
    ∀ o, fst (Segment_read_at o (s, w')) = Ok (record_at 7 rs1 o).
Proof.
  apply (Segment_crash_recovery data 7 64 Config.Log [rec0; rec1] 53 crashed).
  - constructor.
  - apply recs_consecutive.
  - apply recs_typed.
  - lia.
  - vm_compute. reflexivity.
  - vm_compute. congruence.
  - vm_compute. congruence.
  - vm_compute. reflexivity.
  - vm_compute. right. congruence.
  - cbn [crashed w_dirs]. rewrite elem_of_singleton. vm_compute. congruence.
  - cbn [crashed w_dirs]. by apply elem_of_singleton.
Defined.

(** The same segment after a clean shutdown. *)
Definition clean : World :=
  {| w_files := <[log_path data 7 := log_bytes [rec0; rec1]]>
                  (<[index_path data 7 := index_bytes (entries_from 0 [rec0; rec1])]> ∅);
     w_dirs := {[data]}; w_sched := []; w_clock := [12]; w_dir_order := id |}.

Lemma clean_on_disk : on_disk data 7 [rec0; rec1] [] clean.
Proof.
  split.
  - vm_compute. reflexivity.
  - vm_compute. left. reflexivity.
  - cbn [clean w_dirs]. rewrite elem_of_singleton. vm_compute. congruence.
  - cbn [clean w_dirs]. by apply elem_of_singleton.
  - apply recs_consecutive.
  - apply recs_typed.
  - apply stops_nil.
  - lia.
  - vm_compute. reflexivity.
  - vm_compute. congruence.
Qed.

Lemma clean_segment :
  ∃ s w, open_seg data s w [rec0; rec1] ∧ healthy w ∧ sg_base_offset s = 7 ∧ sg_max_bytes s = 128.
Proof.
  destruct (Segment_load_ok data 7 128 Config.Log [rec0; rec1] [] clean) as (s & w & _ & Hs & Hh & Hb & Hm & _);
    [constructor|apply clean_on_disk|lia|]. by exists s, w.
Qed.

Lemma Segment_append_correct_witness :
  ∃ s w, let len := record_len None hello in
  if sg_max_bytes s <? len then Segment_append None hello (s, w) = (Err MessageTooLarge, (s, w)) else
  if sg_max_bytes s <? sg_current_size s + len then
    Segment_append None hello (s, w) = (Err (SegmentFull (sg_current_size s) (sg_max_bytes s)), (s, w))
  else ∃ s' w' r,
    Segment_append None hello (s, w) = (Ok (sg_next_offset s), (s', w')) ∧
    r_key r = None ∧ r_value r = hello ∧
    contents w' (log_path data (sg_base_offset s)) =
      contents w (log_path data (sg_base_offset s)) ++ record_bytes r ∧
    fst (Segment_read_at (sg_next_offset s) (s', w')) = Ok (Some r) ∧
    sg_next_offset s' = sg_next_offset s + 1 ∧
    sg_current_size s' = blen (contents w' (log_path data (sg_base_offset s))) ∧
    sg_current_size s' ≤ sg_max_bytes s'.
Proof.
  destruct clean_segment as (s & w & [Hs Hw] & Hh & Hb & Hm). exists s, w.
  pose proof Hs as [? ? ? ? ? ? ? Hsz Hn ? ? ? ?].
  apply (Segment_append_correct data s w [rec0; rec1] None hello); [done|done|done|done|..].
  - rewrite Hn, Hb. vm_compute. reflexivity.
  - rewrite Hsz, Hm. vm_compute. congruence.
Defined.

Lemma Segment_read_batch_correct_witness :
  ∃ s w out st', Segment_read_batch 7 40 (s, w) = (Ok out, st') ∧
    out `prefix_of` records_from (sg_base_offset s) [rec0; rec1] 7 ∧
    (out = [] ↔ ¬ (sg_base_offset s ≤ 7 < sg_next_offset s)) ∧
    (blen (log_bytes out) ≤ 40 ∨ length out = 1%nat) ∧
    (prompt w → ∀ r k, records_from (sg_base_offset s) [rec0; rec1] 7 = out ++ r :: k →
                       40 < blen (log_bytes (out ++ [r]))).
Proof.
  destruct clean_segment as (s & w & [Hs Hw] & Hh & Hb & Hm). exists s, w.
  apply (Segment_read_batch_correct data s w [rec0; rec1] 7 40); [done|done|lia].
Defined.

(** The same segment loaded while every read stops after 34 bytes: reading the
    first record leaves the position of the log at 34, inside the second one. *)
Definition slow : World :=
  {| w_files := w_files clean; w_dirs := w_dirs clean; w_sched := replicate 50 (IoShort 34);
     w_clock := [12]; w_dir_order := id |}.
Definition load_and_read : Res World Segment :=
  s ← Segment_load data 7 128 Config.Log; r ← with_local s (Segment_read_at 7); mret (snd r).

Lemma slow_on_disk : on_disk data 7 [rec0; rec1] [] slow.
Proof. destruct clean_on_disk. split; assumption. Qed.

Lemma read_segment :
  ∃ s w, load_and_read slow = (Ok s, w) ∧ seg_inv data s w [rec0; rec1] ∧ healthy w ∧
    sg_base_offset s = 7 ∧ sg_max_bytes s = 128 ∧
    fl_append (sg_log_file s) = false ∧ fl_pos (sg_log_file s) = 34.
Proof.
  destruct (Segment_load_ok data 7 128 Config.Log [rec0; rec1] [] slow)
    as (s & w & Hl & [Hs _] & Hh & Hb & Hm & _); [by repeat constructor|apply slow_on_disk|lia|].
  destruct (Segment_read_at_ok data s w [rec0; rec1] 7 Hh Hs) as (s' & w' & Hr & [[n Hn] Hw]).
  assert (Hrun : load_and_read slow = (Ok s', w')).
  { unfold load_and_read. rewrite (bind_Ok _ _ _ _ _ Hl). by erewrite bind_Ok by (apply with_local_ok, Hr). }
  exists s', w'. split; [exact Hrun|]. subst s'. split.
  { apply seg_inv_moved. eapply seg_inv_same; [by apply popped_same|exact Hs]. }
  split; [by eapply popped_healthy|]. split; [exact Hb|]. split; [exact Hm|].
  assert (Hpos : match fst (load_and_read slow) with Ok s => (fl_append (sg_log_file s), fl_pos (sg_log_file s)) | _ => (true, 0) end
    = (false, 34)) by (vm_compute; reflexivity).
  rewrite Hrun in Hpos. split; [exact (f_equal fst Hpos)|exact (f_equal snd Hpos)].
Qed.

Lemma misplaced_append_overwrites_witness :
  ∃ s w, load_and_read slow = (Ok s, w) ∧
  let pos := fl_pos (sg_log_file s) in
  let len := record_len None (Some []) in
  let log := log_path data (sg_base_offset s) in
  ∃ s' w' r,
    Segment_append None (Some []) (s, w) = (Ok (sg_next_offset s), (s', w')) ∧
    r_key r = None ∧ r_value r = Some [] ∧
    contents w' log = take (Z.to_nat pos) (contents w log) ++ record_bytes r ++
                      drop (Z.to_nat (pos + len)) (contents w log) ∧
    sg_next_offset s' = sg_next_offset s + 1 ∧ sg_current_size s' = sg_current_size s + len ∧
    blen (contents w' log) < sg_current_size s' ∧
    (pos + len ≤ sg_current_size s →
     fst (Segment_read_at (sg_next_offset s) (s', w')) = Err (Io UnexpectedEof)).
Proof.
  destruct read_segment as (s & w & Hrun & Hs & Hh & Hb & Hm & Ha & Hp). exists s, w. split; [exact Hrun|].
  pose proof Hs as [? ? ? ? ? ? ? Hsz Hn ? ? ? ?].
  apply (misplaced_append_overwrites data s w [rec0; rec1] None (Some [])).
  - exact Hh.
  - exact Hs.
  - vm_compute. reflexivity.
  - rewrite Hn, Hb. vm_compute. reflexivity.
  - rewrite Hsz, Hm. vm_compute. congruence.
  - exact Ha.
  - rewrite Hp, Hsz. vm_compute. split; congruence.
Defined.

(** The log reached the disk, the second index entry did not. *)
Definition stale : World :=
  {| w_files := <[log_path data 7 := log_bytes [rec0; rec1]]>
                  (<[index_path data 7 := index_bytes (entries_from 0 [rec0])]> ∅);
     w_dirs := {[data]}; w_sched := []; w_clock := []; w_dir_order := id |}.

Lemma stale_index_hides_witness :
  ∃ s w', Segment_load data 7 128 Config.Log stale = (Ok s, w') ∧
    w_files w' !! log_path data 7 = Some (log_bytes ([rec0] ++ [rec1])) ∧
    sg_next_offset s = 7 + blen ([rec0] ++ [rec1]) ∧
    ∀ o m, 7 + blen [rec0] ≤ o →
      Segment_read_at o (s, w') = (Ok None, (s, w')) ∧
      Segment_read_batch o m (s, w') = (Ok [], (s, w')).
Proof.
  apply (stale_index_hides data 7 128 Config.Log [rec0] [rec1] [] stale).
  - constructor.
  - split; [vm_compute; reflexivity|apply recs_consecutive|apply recs_typed|apply stops_nil|lia
      |vm_compute; reflexivity|vm_compute; congruence].
  - discriminate.
  - vm_compute. reflexivity.
Defined.

(** ** A partition of two segments, of three records of 33, 48 and 33 bytes *)
Definition first_recs : list LogRecord :=
  [{| r_offset := 0; r_timestamp_ms := 10; r_key := None; r_value := hello |};
   {| r_offset := 1; r_timestamp_ms := 10; r_key := None; r_value := Some (replicate 20 x00) |}].
Definition second_recs : list LogRecord :=
  [{| r_offset := 2; r_timestamp_ms := 10; r_key := None; r_value := hello |}].
Definition two_logs : World :=
  {| w_files := <[log_path data 0 := log_bytes first_recs]>
                  (<[index_path data 0 := index_bytes (entries_from 0 first_recs)]>
                    (<[log_path data 2 := log_bytes second_recs]>
                      (<[index_path data 2 := index_bytes (entries_from 0 second_recs)]> ∅)));
     w_dirs := {[data]}; w_sched := []; w_clock := []; w_dir_order := id |}.
Definition seg_at (base : Z) (rs : list LogRecord) : Segment :=
  {| sg_base_offset := base;
     sg_log_file := {| fl_path := log_path data base; fl_pos := 0; fl_append := true |};
     sg_index := {| ix_path := index_path data base;
                    ix_file := {| fl_path := index_path data base; fl_pos := 16 * blen rs; fl_append := false |};
                    ix_entries := entries_from 0 rs |};
     sg_current_size := blen (log_bytes rs); sg_next_offset := base + blen rs;
     sg_max_bytes := 90; sg_sync_level := Config.Log |}.
Definition two_segments : Partition :=
  {| pt_topic := topic; pt_id := 0; pt_base_dir := data; pt_segments := [seg_at 0 first_recs; seg_at 2 second_recs];
     pt_max_segment_bytes := 90; pt_sync_level := Config.Log |}.

Lemma seg_at_inv base rs :
  0 ≤ base → base + blen rs < 2 ^ 64 → blen (log_bytes rs) ≤ 2 ^ 63 → consecutive base rs → Forall record_typed rs →
  w_files two_logs !! log_path data base = Some (log_bytes rs) →
  w_files two_logs !! index_path data base = Some (index_bytes (entries_from 0 rs)) →
  seg_inv data (seg_at base rs) two_logs rs.
Proof.
  intros Hb Hn Hsz Hc Ht Hlog Hix.
  split; [reflexivity|reflexivity|exact Hlog| |reflexivity|exact Hc|exact Ht|reflexivity|reflexivity
    |exact Hb|exact Hn|exact Hsz|cbn [seg_at sg_max_bytes]; lia].
  split; [reflexivity|]. split; [exact Hix|]. split; [|apply (entries_typed base); [exact Hc|len..]].
  eapply at_end_intro; [exact Hix|]. right. cbn [seg_at sg_index ix_file fl_pos].
  rewrite blen_index_bytes. unfold blen. by rewrite length_entries_from.
Qed.

Lemma two_segments_chain :
  chain (pt_base_dir two_segments) two_logs 0 (pt_segments two_segments) [first_recs; second_recs].
Proof.
  assert (Hc1 : consecutive 0 first_recs) by (intros [|[|i]] r Hr; by inversion Hr).
  assert (Hc2 : consecutive 2 second_recs) by (intros [|i] r Hr; by inversion Hr).
  split; [|split; [reflexivity|]; split; [by right|]; split; [|split; [reflexivity|]; split; [by left|exact I]]].
  - apply seg_at_inv; [lia|vm_compute; reflexivity|vm_compute; congruence|exact Hc1| |vm_compute; reflexivity..].
    repeat constructor; vm_compute; congruence.
  - apply seg_at_inv; [lia|vm_compute; reflexivity|vm_compute; congruence|exact Hc2| |vm_compute; reflexivity..].
    repeat constructor; vm_compute; congruence.
Qed.

Lemma Partition_read_batch_exact_witness :
  fst (Partition_read_batch 0 70 (two_segments, two_logs)) =
  Ok (batches 70 false (segs_from 0 [first_recs; second_recs])).
Proof.
  apply (Partition_read_batch_exact two_segments two_logs 0 [first_recs; second_recs] 0 70).
  - constructor.
  - apply two_segments_chain.
  - discriminate.
  - lia.
  - lia.
Defined.

Lemma Partition_read_batch_skips_witness :
  ∃ r0 r1 r2, first_recs = [r0; r1] ∧ second_recs = [r2] ∧
  ∃ later, fst (Partition_read_batch 0 70 (two_segments, two_logs)) = Ok ([r0] ++ r2 :: later) ∧
    (∀ x, x ∈ [r0] → r_offset x < r_offset r1) ∧ (∀ x, x ∈ r2 :: later → r_offset r1 < r_offset x).
Proof.
  eexists _, _, _. split; [reflexivity|]. split; [reflexivity|].
  apply (Partition_read_batch_skips two_segments two_logs 0 [] [] [_] _ [] _ [] [] 70).
  - constructor.
  - discriminate.
  - apply two_segments_chain.
  - vm_compute. split; congruence.
Defined.

(** ** A crashed partition: two segments, listed in reverse; the second log ends
    in a torn record and its index is missing *)
Definition part_dir : path := partition_dir data topic 0.
Definition rec_at (o : Z) : LogRecord :=
  {| r_offset := o; r_timestamp_ms := 10; r_key := None; r_value := hello |}.
Definition disk_recs (n : Z) : list LogRecord := if n =? 0 then [rec_at 0; rec_at 1] else [rec_at 2].
Definition disk_junk (n : Z) : bytes := if n =? 0 then [] else [x00; x00].
Definition crashed_part : World :=
  {| w_files := <[log_path part_dir 0 := log_bytes (disk_recs 0)]>
                  (<[index_path part_dir 0 := index_bytes (entries_from 0 (disk_recs 0))]>
                    (<[log_path part_dir 2 := log_bytes (disk_recs 2) ++ disk_junk 2]> ∅));
     w_dirs := {[part_dir]}; w_sched := []; w_clock := []; w_dir_order := reverse |}.

Lemma rec_at_typed o : is_u64 o → record_typed (rec_at o).
Proof. intros Ho. split_and!; [done|vm_compute; split; congruence|vm_compute; congruence]. Qed.

Lemma crashed_seg n : n = 0 ∨ n = 2 → on_disk part_dir n (disk_recs n) (disk_junk n) crashed_part.
Proof.
  intros [->| ->]; split; cbn [disk_recs disk_junk Z.eqb].
  1,11: vm_compute; reflexivity.
  1,10: vm_compute; tauto.
  1,9: cbn [crashed_part w_dirs]; rewrite elem_of_singleton; vm_compute; congruence.
  1,8: cbn [crashed_part w_dirs]; by apply elem_of_singleton.
  1,7: intros [|[|i]] r Hr; by inversion Hr.
  1,6: repeat constructor; vm_compute; try split; congruence.
  1,5: vm_compute; tauto.
  1,4: lia.
  1,3: vm_compute; reflexivity.
  all: vm_compute; congruence.
Qed.

Lemma crashed_dir : dir_state part_dir 128 disk_recs disk_junk crashed_part 0 [0; 2].
Proof.
  split.
  - apply Forall_forall. intros q Hq. cbn [crashed_part w_files]. rewrite !lookup_insert_ne; [apply lookup_empty|..].
    + intros <-. rewrite log_path_eq in Hq. exact (path_not_prefix _ _ Hq).
    + intros <-. rewrite index_path_eq in Hq. exact (path_not_prefix _ _ Hq).
    + intros <-. rewrite log_path_eq in Hq. exact (path_not_prefix _ _ Hq).
  - intros l. apply reverse_Permutation.
  - assert (log_bases part_dir crashed_part = [0; 2] ∨ log_bases part_dir crashed_part = [2; 0]) as [->| ->]
      by (vm_compute; tauto); [done|apply Permutation_swap].
  - apply (bool_decide_unpack _). vm_compute. exact I.
  - split; [done|]. split; [by right|]. split; [done|]. split; [by left|done].
  - apply Forall_cons. split; [apply crashed_seg; by left|]. apply Forall_cons.
    split; [apply crashed_seg; by right|constructor].
  - intros n Hn Hnin. rewrite !not_elem_of_cons in Hnin. destruct Hnin as (H0 & H2 & _). split; [|split].
    + cbn [crashed_part w_dirs]. rewrite elem_of_singleton, log_path_eq. intros Heq%(f_equal length).
      rewrite length_app in Heq. cbn in Heq. lia.
    + cbn [crashed_part w_dirs]. rewrite elem_of_singleton, index_path_eq. intros Heq%(f_equal length).
      rewrite length_app in Heq. cbn in Heq. lia.
    + cbn [crashed_part w_files]. rewrite !lookup_insert_ne; [apply lookup_empty|..].
      * intros Heq%log_path_inj; [congruence|split; [lia|reflexivity]|exact Hn].
      * intros Heq%eq_sym%log_index_ne. exact Heq.
      * intros Heq%log_path_inj; [congruence|split; [lia|reflexivity]|exact Hn].
  - intros b [= <-]. vm_compute. congruence.
  - intros n _. cbn [crashed_part w_dirs]. rewrite elem_of_singleton, log_path_eq. intros Heq%(f_equal length).
    rewrite length_app in Heq. cbn in Heq. lia.
Qed.

Lemma Partition_recovery_witness :
  ∃ p w', Partition_open_or_create topic 0 data 128 Config.Log crashed_part = (Ok p, w') ∧
    (∀ o, fst (Partition_read o (p, w')) = Ok (record_at 0 (concat (disk_recs <$> [0; 2])) o)) ∧
    Partition_next_offset p = 0 + blen (concat (disk_recs <$> [0; 2])) ∧
    part_inv p w' 0 (concat (disk_recs <$> [0; 2])) ∧ part_writable p w'.
Proof.
  apply (Partition_recovery topic 0 data 128 Config.Log disk_recs disk_junk crashed_part 0 [0; 2]).
  - constructor.
  - apply crashed_dir.
  - lia.
  - discriminate.
Defined.

(** ** The index theorems *)
Definition ix_file0 : path := [str "data"; str "0.index"].
Definition entry0 : IndexEntry := {| ie_offset := 7; ie_position := 0 |}.
Definition entry1 : IndexEntry := {| ie_offset := 9; ie_position := 33 |}.
Definition ex_index : Index :=
  {| ix_path := ix_file0; ix_file := {| fl_path := ix_file0; fl_pos := 32; fl_append := false |};
     ix_entries := [entry0; entry1] |}.
Definition index_world (d : bytes) : World :=
  {| w_files := <[ix_file0 := d]> ∅; w_dirs := {[data]}; w_sched := [IoShort 1]; w_clock := [];
     w_dir_order := id |}.

Lemma ex_index_sorted : index_sorted ex_index.
Proof. intros [|[|i]] [|[|j]] x y Hij Hx Hy; try lia; try done. injection Hx as <-. injection Hy as <-. done. Qed.

Lemma Index_lookup_scan_witness : Index_lookup ex_index 9 = Ok (scan (ix_entries ex_index) 9).
Proof. apply (Index_lookup_scan ex_index 9). apply ex_index_sorted. Defined.

Lemma Index_lookup_floor_scan_witness :
  Index_lookup_floor ex_index 8 = Ok (scan_floor (ix_entries ex_index) 8).
Proof. apply (Index_lookup_floor_scan ex_index 8). apply ex_index_sorted. Defined.

Lemma Index_persistence_witness :
  ∃ ix1 w1 ix2 w2,
    Index_append 10 66 (ex_index, index_world (index_bytes [entry0; entry1])) = (Ok tt, (ix1, w1)) ∧
    ix_entries ix1 = ix_entries ex_index ++ [{| ie_offset := 10; ie_position := 66 |}] ∧
    blen (contents w1 (ix_path ex_index)) = INDEX_ENTRY_SIZE * entry_count ix1 ∧
    Index_load (ix_path ex_index) w1 = (Ok ix2, w2) ∧ ix_entries ix2 = ix_entries ix1 ∧
    index_inv ix2 w2.
Proof.
  apply (Index_persistence ex_index (index_world (index_bytes [entry0; entry1])) 10 66).
  - by repeat constructor.
  - split; [done|]. split; [vm_compute; reflexivity|]. split; [right; vm_compute; reflexivity|].
    repeat constructor; vm_compute; congruence.
  - vm_compute. split; congruence.
  - vm_compute. split; congruence.
Defined.

Lemma Index_load_corrupted_witness :
  ∃ w', Index_load ix_file0 (index_world [x00; x01; x02]) = (Err (CorruptedIndex (blen [x00; x01; x02])), w') ∧
        same_fs w' (index_world [x00; x01; x02]).
Proof.
  apply (Index_load_corrupted ix_file0 (index_world [x00; x01; x02]) [x00; x01; x02]).
  - by repeat constructor.
  - vm_compute. reflexivity.
  - vm_compute. congruence.
Defined.
End Examples.
