(* ===== verification/Findings.v ===== *)
(** * Runs in which the storage layer misbehaves

    Each scenario is a short program over the model, run on a concrete disk (and
    in one case with a concrete disk error). The lemmas state what the code
    answers in them; [PartitionBatch] and [SegmentFaults] have the general
    statements. *)
From S2P Require Import Prelude Errors BytesCrate StdText FileSystem Index Record Segment SegmentInv Partition.
Import ListBytes.
#[local] Open Scope Z_scope.

Definition disk (sched : list io_event) : World :=
  {| w_files := ∅; w_dirs := ∅; w_sched := sched; w_clock := []; w_dir_order := id |}.
Definition zeros (n : nat) : option bytes := Some (replicate n x00).
Definition open_p (max : Z) (lvl : Config.SyncLevel) : Res World Partition :=
  Partition_open_or_create (str "t") 0 [str "data"] max lvl.

(** Two segments, three records of 40 bytes and one of 28; a fetch from offset 0
    with a budget of 110 bytes. *)
Definition gap_scenario : Res World (list Z * list Z) :=
  p ← open_p 120 Config.LogAndIndex;
  r ← with_local p
    (a ← Partition_append None (zeros 12); b ← Partition_append None (zeros 12);
     c ← Partition_append None (zeros 12); d ← Partition_append None (zeros 0);
     out ← Partition_read_batch 0 110;
     mret ([a; b; c; d], r_offset <$> out));
  mret (fst r).

(** A batch read can skip records: when the budget ends inside a segment it
    goes on with the next segment, so the records with offsets 0, 1 and 3 are
    returned and 2 is left out, although it was acknowledged before them. A
    consumer that continues after the last offset it got never sees it. *)
Lemma Partition_read_batch_gap : fst (gap_scenario (disk [])) = Ok ([0; 1; 2; 3], [0; 1; 3]).
Proof. vm_compute. reflexivity. Qed.

(** Two records of 3000 bytes, a restart, a read of the first, an append. *)
Definition reopen_scenario : Res World (Z * bool * (option LogRecord + RukaError)) :=
  p ← open_p 1000000 Config.LogAndIndex;
  _ ← with_local p (_ ← Partition_append None (zeros 3000); Partition_append None (zeros 3000));
  p ← open_p 1000000 Config.LogAndIndex;
  r ← with_local p
    (_ ← Partition_read 0;
     a ← Partition_append None (Some (str "x"));
     second ← Partition_read 1;
     last ← attempt (Partition_read a);
     mret (a, bool_decide (r_value <$> second = Some (zeros 3000)), last));
  mret (fst r).

(** After a restart the log is opened without append mode, so a read moves
    the place of the next write: reading offset 0 and then appending (which is
    acknowledged with offset 2) overwrites the middle of the log. The record
    with offset 1 no longer has the value that was stored, and the acknowledged
    offset 2 cannot be read at all. *)
Lemma reopened_append_overwrites :
  fst (reopen_scenario (disk [])) = Ok (2, false, inr (Io UnexpectedEof)).
Proof. vm_compute. reflexivity. Qed.

(** The disk is full when the first append writes its index entry; a second
    append succeeds. *)
Definition orphan_scenario : Res World ((Z + RukaError) * Z * option (option bytes)) :=
  p ← open_p 1000 Config.None_;
  r ← with_local p
    (a ← attempt (Partition_append None (Some (str "first")));
     b ← Partition_append None (Some (str "second"));
     rec ← Partition_read b;
     mret (a, b, r_value <$> rec));
  mret (fst r).
Definition disk_full : list io_event := replicate 6 IoOk ++ [IoErr (OsError 28) 0].

(** When the index write of an append fails after the log write, the log
    keeps an orphan record the segment's counters do not know of: the next
    append is acknowledged with offset 0, but reading offset 0 returns the value
    of the append that was reported as failed. *)
Lemma failed_append_shadows_next :
  fst (orphan_scenario (disk disk_full)) =
  Ok (inr (Io (OsError 28)), 0, Some (Some (str "first"))).
Proof. vm_compute. reflexivity. Qed.

(** A log of two records whose index holds only the first entry, as a crash
    leaves it when only the log is synced. *)
Definition rec_n (o : Z) : LogRecord :=
  {| r_offset := o; r_timestamp_ms := 0; r_key := None; r_value := Some (str "v") |}.
Definition stale_disk : World :=
  {| w_files := <[log_path [str "d"] 0 := log_bytes [rec_n 0; rec_n 1]]>
                  (<[index_path [str "d"] 0 := index_bytes [{| ie_offset := 0; ie_position := 0 |}]]> ∅);
     w_dirs := {[ [str "d"] ]}; w_sched := []; w_clock := []; w_dir_order := id |}.
Definition stale_scenario : Res World (Z * option LogRecord) :=
  s ← Segment_load [str "d"] 0 1000 Config.Log;
  r ← with_local s (Segment_read_at 1);
  mret (sg_next_offset s, fst r).

(** An index that is shorter than the log but not empty is not rebuilt on
    load: the segment counts two records (the next offset is 2), but the second
    one cannot be read although it is complete in the log. *)
Lemma stale_index_hides_records : fst (stale_scenario stale_disk) = Ok (2, None).
Proof. vm_compute. reflexivity. Qed.

(** Payloads of 60, 20 and 200 bytes with segments of 100 bytes. *)
Definition partial_batch_scenario : Res World ((Z + RukaError) * option Z) :=
  p ← open_p 100 Config.LogAndIndex;
  r ← with_local p
    (a ← attempt (Partition_append_batch
           [replicate 60 x00; replicate 20 x00; replicate 200 x00]);
     rec ← Partition_read 0;
     mret (a, r_offset <$> rec));
  mret (fst r).

(** A batch is not atomic: it is answered with MessageTooLarge because of
    its third payload, but the first one is stored and readable at offset 0. *)
Lemma rejected_batch_stores_prefix :
  fst (partial_batch_scenario (disk [])) = Ok (inr MessageTooLarge, Some 0).
Proof. vm_compute. reflexivity. Qed.

(** A log that holds one damaged record: its key length runs past the file. *)
Definition damaged_disk : World :=
  {| w_files := <[log_path [str "d"] 0 :=
       be_bytes 4 28 ++ be_bytes 8 0 ++ be_bytes 8 0 ++ be_bytes 4 5 ++ be_bytes 4 0]> ∅;
     w_dirs := {[ [str "d"] ]}; w_sched := []; w_clock := []; w_dir_order := id |}.

(** Loading a segment with a damaged record panics instead of truncating the
    log there, so the broker does not start. *)
Lemma damaged_log_panics : fst (Segment_load [str "d"] 0 1000 Config.Log damaged_disk) = Panic.
Proof. vm_compute. reflexivity. Qed.
