(* ===== verification/BrokerFindings.v ===== *)
(** * Runs in which the broker misbehaves

    Each scenario starts a broker, lets one client make its requests and lets
    the tasks run in turn until nothing moves. The theorems state what the
    client gets. *)
From S2P Require Import Prelude Errors BytesCrate StdText Types Frame Request Response Tokio FileSystem Record Segment Partition Registry Handler Connection.
Import ListBytes ListTokio.
#[local] Open Scope Z_scope.

Module BrokerFindings.
#[local] Instance texts : ErrorTexts :=
  {| to_string _ := str "error"; send_error_text := str "channel closed"; recv_error_text := str "channel closed" |}.

Definition blank : World :=
  {| w_files := ∅; w_dirs := ∅; w_sched := []; w_clock := []; w_dir_order := id |}.
Definition config (capacity : Z) : Config.BrokerConfig :=
  {| Config.port := 9092; Config.host := str "127.0.0.1"; Config.data_dir := str "./data";
     Config.segment_max_bytes := 1000; Config.default_partitions := 1;
     Config.sync_level := Config.LogAndIndex; Config.channel_capacity := capacity |}.

Definition produce (cid : Z) (topic value : bytes) : Request :=
  RProduce {| pr_correlation_id := cid; pr_topic := topic; pr_partition := 0; pr_payload := value |}.
Definition fetch (cid : Z) (topic : bytes) (offset : Z) : Request :=
  RFetch {| fr_correlation_id := cid; fr_topic := topic; fr_partition := 0; fr_offset := offset; fr_max_bytes := 1000 |}.
Definition client (reqs : list Request) : framed := (wires (Request_into_frame <$> reqs), []).

(** The accept loop, the connection and the tasks with the first names in turn;
    who cannot move is skipped. *)
Definition turns : list move := MAccept :: MConnection 0 :: (MPartition <$> seq 0 20).
Fixpoint rounds (n : nat) (sys : System) : System :=
  match n with
  | O => sys
  | S n' => rounds n' (foldl (λ s m, default s (do_move m s)) sys turns)
  end.

Fixpoint frames (n : nat) (b : bytes) : list Frame :=
  match n with
  | O => []
  | S n' => match Codec_decode b with (Ok (Some f), rest) => f :: frames n' rest | _ => [] end
  end.

(** The frames the client gets, whether its connection's task panicked, and the
    files afterwards. *)
Record result : Type := { rs_frames : list Frame; rs_panicked : bool; rs_disk : World }.
Definition serve_client (capacity : Z) (reqs : list Request) (w : World) : option result :=
  match start (config capacity) (inl [inl (client reqs)]) w with
  | Ok sys =>
      let sys := rounds (10 * length reqs + 10) sys in
      Some {| rs_frames := match sy_conns sys with [Closed fr] => frames (length reqs) (framed_out fr) | _ => [] end;
              rs_panicked := match sy_conns sys with [Panicked] => true | _ => false end;
              rs_disk := rt_world (snd (sy_shared sys)) |}
  | _ => None
  end.

(** Records as a client sees them. *)
Definition rec (offset : Z) (value : bytes) : LogRecord :=
  {| r_offset := offset; r_timestamp_ms := 0; r_key := None; r_value := Some value |}.

Definition alias_scenario : option result :=
  serve_client 4 [produce 1 (str "a") (str "x"); produce 2 (str "a/") (str "y"); produce 3 (str "a") (str "z");
                  fetch 4 (str "a/") 1] blank.

(** Topic names are not normalised, so two topics can share a directory:
    "a" and "a/" get a task each that both own data/a/0. The second record
    produced to each of them is acknowledged with the same offset 1, and a fetch
    from topic "a/" returns the record that was produced to "a", two records
    with offset 1. *)
Lemma topic_aliases_share_log :
  (λ r, (frame_offset <$> take 3 (rs_frames r), f_payload <$> drop 3 (rs_frames r))) <$> alias_scenario =
  Some ([0; 1; 1], [fetch_payload [rec 1 (str "y"); rec 1 (str "z")]]).
Proof. vm_compute. reflexivity. Qed.

Definition restart_scenario : option (result * result) :=
  before ← serve_client 4 [produce 1 (str "a/b") (str "x"); fetch 2 (str "a/b") 0] blank;
  after ← serve_client 4 [fetch 3 (str "a/b") 0; produce 4 (str "a/b") (str "y"); fetch 5 (str "a/b") 0] (rs_disk before);
  Some (before, after).

(** A topic whose name contains a slash is served, but it is not found when
    the broker starts again, because the registry looks for partitions exactly
    two levels below the data directory: the fetch that returned the record
    before the restart is answered with an error after it, although the record
    is still on the disk and comes back when something is produced to the topic. *)
Lemma slash_topic_lost_after_restart :
  (λ r, (f_payload <$> drop 1 (rs_frames (fst r)), frame_error <$> take 1 (rs_frames (snd r)),
         f_payload <$> drop 2 (rs_frames (snd r)))) <$> restart_scenario =
  Some ([fetch_payload [rec 0 (str "x")]], [ErrorCode_from_error (PartitionNotFound (str "a/b") 0)],
        [fetch_payload [rec 0 (str "x"); rec 1 (str "y")]]).
Proof. vm_compute. reflexivity. Qed.

(** A broker with channel capacity 0: the first produce panics. *)
Lemma capacity_zero_panics :
  rs_panicked <$> serve_client 0 [produce 1 (str "a") (str "x")] blank = Some true.
Proof. vm_compute. reflexivity. Qed.
End BrokerFindings.
