(* ===== verification/UnitTests.v ===== *)
(** * The unit tests of the sources

    Every `#[test]` of src/src, translated statement by statement and run in the
    model: a failed assertion and an `unwrap` of an error panic. They run on the
    executable instances of the third-party interfaces, in a fresh temporary
    directory, under several behaviours of the operating system. That they pass
    checks the model against the behaviour the authors wrote down. *)
From S2P Require Import Prelude Errors BytesCrate StdText Types Frame Request Response Tokio FileSystem Index Record Segment Partition Registry Handler Connection Clients.
Import ListBytes ListTokio.
#[local] Open Scope Z_scope.

#[export] Instance ProduceRequest_eq_dec : EqDecision ProduceRequest.
Proof. solve_decision. Defined.
#[export] Instance ProduceBatchRequest_eq_dec : EqDecision ProduceBatchRequest.
Proof. solve_decision. Defined.
#[export] Instance FetchRequest_eq_dec : EqDecision FetchRequest.
Proof. solve_decision. Defined.
#[export] Instance Request_eq_dec : EqDecision Request.
Proof. solve_decision. Defined.

(** ** Assertions *)
Section assertions.
Context {S : Type}.

(** `assert!`, `assert_eq!`, and `unwrap` of a `Result` and of an `Option`. *)
Definition assert (b : bool) : Res S unit := if b then mret tt else panic.
Definition assert_eq {A} `{EqDecision A} (x y : A) : Res S unit := assert (bool_decide (x = y)).
Definition must {A} (m : Res S A) : Res S A := λ s,
  match m s with (Err _, s') => (Panic, s') | r => r end.
Definition must_some {A} (m : Res S (option A)) : Res S A := o ← must m; unwrap o.
End assertions.

(** A test that owns a value: the rest of the test runs on it. *)
Definition owning {S A} (m : Res World S) (body : Res (S * World) A) : Res World A :=
  x ← must m; fst <$> with_local x body.
Fixpoint for_range {S} (n : nat) (i : Z) (body : Z → Res S unit) : Res S unit :=
  match n with O => mret tt | Datatypes.S n' => _ ← body i; for_range n' (i + 1) body end.

(** `TempDir::new().unwrap()`, with what the operating system does. *)
Definition tmp : path := [str "tmp"].
Definition fresh (sched : list io_event) : World :=
  {| w_files := ∅; w_dirs := {[ []; tmp ]}; w_sched := sched; w_clock := [1700000000000; 1700000000001];
     w_dir_order := reverse |}.
Definition schedules : list (list io_event) :=
  [[]; repeat (IoShort 1) 40; [IoOk; IoShort 3; IoOk; IoShort 2]].
Definition passes (test : Res World unit) : bool :=
  forallb (λ sched, match fst (test (fresh sched)) with Ok tt => true | _ => false end) schedules.

Module FrameTests.
Definition make_produce_frame : Frame :=
  {| f_magic := MAGIC_BYTE; f_api_key := AProduce; f_correlation_id := 42; f_topic := str "test-topic";
     f_partition := 0; f_payload := str "hello world" |}.

(** The tests work on a local buffer. *)
Definition on_buf {A} (m : Res bytes A) : Res World A := scoped [] m.

Definition round_trip_encode_decode : Res World unit := on_buf (
  _ ← Frame_encode make_produce_frame;
  decoded ← must_some Frame_decode;
  _ ← assert_eq make_produce_frame decoded;
  buf ← gets id;
  assert (blen buf =? 0)).

Definition decode_partial_returns_none : Res World unit := on_buf (
  _ ← Frame_encode make_produce_frame;
  len ← gets blen;
  partial ← split_to (len / 2);
  result ← scoped partial (must Frame_decode);
  assert_eq result None).

Definition decode_bad_magic_byte : Res World unit := on_buf (
  _ ← Frame_encode make_produce_frame;
  _ ← modify (λ buf, <[4%nat := xff]> buf);
  result ← attempt Frame_decode;
  match result with inr (InvalidMagicByte 255) => mret tt | _ => panic end).

Definition decode_unknown_api_key : Res World unit := on_buf (
  _ ← Frame_encode make_produce_frame;
  _ ← modify (λ buf, <[6%nat := xff]> (<[5%nat := x00]> buf));
  result ← attempt Frame_decode;
  match result with inr (UnknownApiKey 255) => mret tt | _ => panic end).

Definition empty_payload : Res World unit := on_buf (
  let frame := {| f_magic := MAGIC_BYTE; f_api_key := AFetch; f_correlation_id := 0; f_topic := str "t";
                  f_partition := 0; f_payload := [] |} in
  _ ← Frame_encode frame;
  decoded ← must_some Frame_decode;
  assert_eq frame decoded).

Definition multiple_frames_in_buffer : Res World unit := on_buf (
  let f1 := make_produce_frame in
  let f2 := {| f_magic := MAGIC_BYTE; f_api_key := AFetch; f_correlation_id := 99; f_topic := str "other";
               f_partition := 5; f_payload := str "fetch me" |} in
  _ ← Frame_encode f1;
  _ ← Frame_encode f2;
  d1 ← must_some Frame_decode;
  d2 ← must_some Frame_decode;
  _ ← assert_eq f1 d1;
  _ ← assert_eq f2 d2;
  buf ← gets id;
  assert (blen buf =? 0)).

(** codec.rs *)
Definition codec_encode_then_decode : Res World unit := on_buf (
  let frame := {| f_magic := MAGIC_BYTE; f_api_key := AProduce; f_correlation_id := 100; f_topic := str "codec-test";
                  f_partition := 7; f_payload := str "codec payload" |} in
  _ ← must (Codec_encode frame);
  decoded ← must_some Codec_decode;
  assert_eq frame decoded).

(** The loop over the bytes [full]; [n] of them are still to be fed. *)
Fixpoint feed_loop (frame : Frame) (full : bytes) : Res bytes unit :=
  match full with
  | [] => mret tt
  | b :: rest =>
      _ ← modify (λ partial, partial ++ [b]);
      result ← must Codec_decode;
      _ ← match rest with
          | _ :: _ => assert_eq result None
          | [] => decoded ← unwrap result; assert_eq decoded frame
          end;
      feed_loop frame rest
  end.

Definition codec_decode_incremental : Res World unit :=
  let frame := {| f_magic := MAGIC_BYTE; f_api_key := AFetch; f_correlation_id := 200; f_topic := str "incremental";
                  f_partition := 0; f_payload := str "data" |} in
  full_buf ← on_buf (_ ← must (Codec_encode frame); gets id);
  on_buf (feed_loop frame full_buf).

Definition all : list (Res World unit) :=
  [round_trip_encode_decode; decode_partial_returns_none; decode_bad_magic_byte; decode_unknown_api_key;
   empty_payload; multiple_frames_in_buffer; codec_encode_then_decode; codec_decode_incremental].
End FrameTests.

Module RequestTests.
Definition frame (k : ApiKey) (cid : Z) (topic : bytes) (partition : Z) (payload : bytes) : Frame :=
  {| f_magic := MAGIC_BYTE; f_api_key := k; f_correlation_id := cid; f_topic := topic; f_partition := partition;
     f_payload := payload |}.

Definition produce_from_frame : Res World unit :=
  req ← must (lift (Request_from_frame (frame AProduce 1 (str "logs") 0 (str "event data"))));
  match req with
  | RProduce p => _ ← assert_eq (pr_topic p) (str "logs"); assert_eq (pr_payload p) (str "event data")
  | _ => panic
  end.

Definition fetch_from_frame : Res World unit :=
  let offset_bytes := built (_ ← put_u64 12345; put_u32 1024) in
  req ← must (lift (Request_from_frame (frame AFetch 2 (str "events") 3 offset_bytes)));
  match req with
  | RFetch f =>
      _ ← assert_eq (fr_offset f) 12345;
      _ ← assert_eq (fr_max_bytes f) 1024;
      _ ← assert_eq (fr_topic f) (str "events");
      assert_eq (fr_partition f) 3
  | _ => panic
  end.

Definition fetch_too_short_payload : Res World unit :=
  result ← attempt (lift (Request_from_frame (frame AFetch 3 (str "t") 0 (str "shortness"))));
  assert (match result with inr _ => true | inl _ => false end).

Definition produce_round_trip_through_frame : Res World unit :=
  let req := {| pr_correlation_id := 10; pr_topic := str "my-topic"; pr_partition := 2; pr_payload := str "hello" |} in
  req2 ← must (lift (Request_from_frame (ProduceRequest_into_frame req)));
  assert_eq (RProduce req) req2.

Definition fetch_round_trip_through_frame : Res World unit :=
  let req := {| fr_correlation_id := 20; fr_topic := str "my-topic"; fr_partition := 1; fr_offset := 99999;
                fr_max_bytes := 4096 |} in
  req2 ← must (lift (Request_from_frame (FetchRequest_into_frame req)));
  assert_eq (RFetch req) req2.

(** response.rs *)
Definition produce_response_round_trip : Res World unit :=
  let frame := ProduceResponse_into_frame
    {| pres_correlation_id := 42; pres_topic := str "test"; pres_partition := 0; pres_offset := 1000 |} in
  _ ← assert_eq (f_correlation_id frame) 42;
  _ ← assert_eq (f_api_key frame) AProduce;
  _ ← assert_eq (blen (f_payload frame)) 8;
  offset ← lift (read_offset (f_payload frame));
  assert_eq offset 1000.

Definition fetch_response_preserves_payload : Res World unit :=
  let data := str "some fetched data" in
  let frame := FetchResponse_into_frame
    {| fres_correlation_id := 7; fres_topic := str "logs"; fres_partition := 1; fres_payload := data |} in
  _ ← assert_eq (f_payload frame) data;
  assert_eq (f_api_key frame) AFetch.

Definition all : list (Res World unit) :=
  [produce_from_frame; fetch_from_frame; fetch_too_short_payload; produce_round_trip_through_frame;
   fetch_round_trip_through_frame; produce_response_round_trip; fetch_response_preserves_payload].
End RequestTests.

Module IndexTests.
Definition lookup (o : Z) : Res (Index * World) (option Z) := s ← gets id; lift (Index_lookup (fst s) o).
Definition lookup_floor_at (o : Z) : Res (Index * World) (option IndexEntry) := s ← gets id; lift (Index_lookup_floor (fst s) o).

Definition entry_round_trip : Res World unit :=
  let entry := {| ie_offset := 42; ie_position := 1024 |} in
  let encoded := IndexEntry_encode entry in
  _ ← assert_eq (blen encoded) INDEX_ENTRY_SIZE;
  assert_eq entry (IndexEntry_decode encoded).

Definition entry_byte_layout_is_16_bytes_big_endian : Res World unit :=
  let entry := {| ie_offset := 72623859790382856 (* 0x0102030405060708 *);
                  ie_position := 651345242494996240 (* 0x090A0B0C0D0E0F10 *) |} in
  assert_eq (IndexEntry_encode entry)
    [x01; x02; x03; x04; x05; x06; x07; x08; x09; x0a; x0b; x0c; x0d; x0e; x0f; x10].

Definition create_append_lookup : Res World unit :=
  owning (Index_create (join tmp (str "test.index"))) (
    _ ← must (Index_append 0 0);
    _ ← must (Index_append 1 100);
    _ ← must (Index_append 2 250);
    r ← lookup 0; _ ← assert_eq r (Some 0);
    r ← lookup 1; _ ← assert_eq r (Some 100);
    r ← lookup 2; _ ← assert_eq r (Some 250);
    r ← lookup 3; _ ← assert_eq r None;
    s ← gets id; assert_eq (entry_count (fst s)) 3).

Definition lookup_nonexistent_returns_none : Res World unit :=
  owning (Index_create (join tmp (str "empty.index"))) (
    r ← lookup 0; _ ← assert_eq r None;
    r ← lookup 999; assert_eq r None).

Definition lookup_floor : Res World unit :=
  owning (Index_create (join tmp (str "floor.index"))) (
    _ ← must (Index_append 0 0);
    _ ← must (Index_append 10 500);
    _ ← must (Index_append 20 1200);
    e ← must_some (lookup_floor_at 10); _ ← assert_eq (ie_offset e) 10; _ ← assert_eq (ie_position e) 500;
    e ← must_some (lookup_floor_at 7); _ ← assert_eq (ie_offset e) 0;
    e ← must_some (lookup_floor_at 15); _ ← assert_eq (ie_offset e) 10;
    e ← lookup_floor_at 0; assert (bool_decide (is_Some e))).

Definition save_and_reload : Res World unit :=
  let path := join tmp (str "persist.index") in
  _ ← owning (Index_create path) (
        _ ← for_range 100 0 (λ i, must (Index_append i (i * 64)));
        must Index_flush);
  owning (Index_load path) (
    s ← gets id; _ ← assert_eq (entry_count (fst s)) 100;
    for_range 100 0 (λ i, r ← lookup i; assert_eq r (Some (i * 64)))).

Definition file_size_is_exact : Res World unit :=
  let path := join tmp (str "size.index") in
  owning (Index_create path) (
    _ ← for_range 50 0 (λ i, must (Index_append i (i * 100)));
    _ ← must Index_flush;
    s ← gets id; assert_eq (blen (contents (snd s) path)) (50 * INDEX_ENTRY_SIZE)).

Definition all : list (Res World unit) :=
  [entry_round_trip; entry_byte_layout_is_16_bytes_big_endian; create_append_lookup; lookup_nonexistent_returns_none;
   lookup_floor; save_and_reload; file_size_is_exact].
End IndexTests.

Module SegmentTests.
Definition segment_create_append_read : Res World unit :=
  let val1 := str "value1" in
  let val2 := str "value2" in
  owning (Segment_create tmp 100 (1024 * 1024) Config.LogAndIndex) (
    offset1 ← must (Segment_append None (Some val1)); _ ← assert_eq offset1 100;
    offset2 ← must (Segment_append (Some (str "key2")) (Some val2)); _ ← assert_eq offset2 101;
    _ ← must Segment_flush;
    rec1 ← must_some (Segment_read_at 100);
    _ ← assert_eq (r_offset rec1) 100;
    _ ← assert_eq (r_value rec1) (Some val1);
    rec2 ← must_some (Segment_read_at 101);
    _ ← assert_eq (r_offset rec2) 101;
    _ ← assert_eq (r_key rec2) (Some (str "key2"));
    _ ← assert_eq (r_value rec2) (Some val2);
    r ← must (Segment_read_at 102); assert_eq r None).

Definition segment_reload : Res World unit :=
  _ ← owning (Segment_create tmp 0 1024 Config.LogAndIndex) (
        _ ← must (Segment_append None (Some (str "hello")));
        _ ← must (Segment_append None (Some (str "world")));
        must Segment_flush);
  owning (Segment_load tmp 0 1024 Config.LogAndIndex) (
    s ← gets id; _ ← assert_eq (sg_next_offset (fst s)) 2;
    rec ← must_some (Segment_read_at 1);
    assert_eq (r_value rec) (Some (str "world"))).

(** partition.rs *)
Definition partition_append_and_read : Res World unit :=
  let val1 := str "data1" in
  owning (Partition_open_or_create (str "topicA") 0 tmp (1024 * 1024) Config.LogAndIndex) (
    offset ← must (Partition_append None (Some val1)); _ ← assert_eq offset 0;
    rec ← must_some (Partition_read 0);
    assert_eq (r_value rec) (Some val1)).

Definition partition_segment_rotation : Res World unit :=
  owning (Partition_open_or_create (str "topicB") 0 tmp 100 Config.LogAndIndex) (
    let val := replicate 40 x00 in
    _ ← for_range 10 0 (λ _, _ ← must (Partition_append None (Some val)); mret tt);
    s ← gets id; _ ← assert (1 <? blen (pt_segments (fst s)));
    for_range 10 0 (λ i, rec ← must_some (Partition_read i); assert_eq (r_offset rec) i)).

Definition partition_reload : Res World unit :=
  _ ← owning (Partition_open_or_create (str "topicC") 0 tmp 1024 Config.LogAndIndex) (
        _ ← must (Partition_append None (Some (str "test")));
        must Partition_flush);
  owning (Partition_open_or_create (str "topicC") 0 tmp 1024 Config.LogAndIndex) (
    rec ← must_some (Partition_read 0);
    assert_eq (r_value rec) (Some (str "test"))).

Definition all : list (Res World unit) :=
  [segment_create_append_read; segment_reload; partition_append_and_read; partition_segment_rotation; partition_reload].
End SegmentTests.

Module RegistryTests.
Abbreviation Test := (Future Shared).

(** `unwrap` and `assert_eq!` in an async test. *)
Definition crash {A} : Test A := Await (λ s, (Crash, s)).
Definition must_await {A B} (f : Test (A + B)) : Test A := r ← f; match r with inl a => Ready a | inr _ => crash end.
Definition check (b : bool) : Test unit := if b then Ready tt else crash.

(** The test's task is polled; while it waits, a partition task that can runs. *)
Definition other_turn (s : Shared) : option Shared :=
  let rt := snd s in
  '(_, rt') ← head (omap (λ a, pair a <$> actor_turn a rt) (fst <$> map_to_list (rt_actors rt)));
  Some (fst s, rt').
Fixpoint block_on {A} (fuel : nat) (f : Test A) (s : Shared) : option (A * Shared) :=
  match f, fuel with
  | Ready a, _ => Some (a, s)
  | Await p, O => None
  | Await p, S fuel' =>
      match p s with
      | (Go f', s') => block_on fuel' f' s'
      | (Pending, _) => s' ← other_turn s; block_on fuel' f s'
      | (Crash, _) => None
      end
  end.

(** `tokio::spawn` of two tasks and `try_join!`: they are polled in turn. *)
Fixpoint try_join (fuel : nat) (f g : Test unit) (s : Shared) : option Shared :=
  match f, g, fuel with
  | Ready _, Ready _, _ => Some s
  | _, _, O => None
  | Ready _, _, S fuel' => snd <$> block_on fuel' g s
  | Await p, _, S fuel' =>
      match p s with
      | (Go f', s') => try_join fuel' g f' s'
      | (Pending, _) => try_join fuel' g f (default s (other_turn s))
      | (Crash, _) => None
      end
  end.

Definition async_test (body : Shared → option Shared) : Res World unit := λ w,
  match body (TopicRegistry_new tmp 1024 1 Config.LogAndIndex 1024, no_tasks w) with
  | Some s => (Ok tt, rt_world (snd s))
  | None => (Panic, w)
  end.

(** Sending a command and waiting for its reply. *)
Definition produce (tx : Sender) (value : bytes) : Test Z :=
  reply ← oneshot_offset;
  _ ← must_await (send tx (Produce None (Some value) reply));
  r ← must_await (await_reply rt_offsets reply);
  must_await (Ready r).
Definition fetch_first (tx : Sender) : Test LogRecord :=
  reply ← oneshot_records;
  _ ← must_await (send tx (Fetch 0 4096 reply));
  r ← must_await (await_reply rt_records reply);
  records ← must_await (Ready r);
  match records with rec :: _ => Ready rec | [] => crash end.

Definition get_or_create (topic : bytes) (id : Z) : Test Sender :=
  must_await (TopicRegistry_get_or_create_partition topic id).
Definition get (topic : bytes) (id : Z) : Test Sender := must_await (TopicRegistry_get_partition topic id).

Definition registry_get_or_create : Res World unit := async_test (λ s,
  snd <$> block_on 100 (
    tx ← get_or_create (str "topic1") 0;
    offset ← produce tx (str "hello");
    _ ← check (bool_decide (offset = 0));
    tx2 ← get (str "topic1") 0;
    rec ← fetch_first tx2;
    check (bool_decide (r_value rec = Some (str "hello")))) s).

Definition registry_concurrent_access : Res World unit := async_test (λ s,
  '(_, s) ← block_on 100 (
    _ ← get_or_create (str "t1") 0;
    get_or_create (str "t1") 1) s;
  s ← try_join 100
    (tx0 ← get (str "t1") 0; _ ← produce tx0 (str "p0_data"); Ready tt)
    (tx1 ← get (str "t1") 1; _ ← produce tx1 (str "p1_data"); Ready tt) s;
  snd <$> block_on 100 (
    tx0 ← get (str "t1") 0;
    rec ← fetch_first tx0;
    _ ← check (bool_decide (r_value rec = Some (str "p0_data")));
    tx1 ← get (str "t1") 1;
    rec ← fetch_first tx1;
    check (bool_decide (r_value rec = Some (str "p1_data")))) s).

Definition all : list (Res World unit) := [registry_get_or_create; registry_concurrent_access].
End RegistryTests.

(** ** The tests pass *)
Definition unit_tests : list (Res World unit) :=
  FrameTests.all ++ RequestTests.all ++ IndexTests.all ++ SegmentTests.all ++ RegistryTests.all.

(** Every unit test of the sources passes in the model, whether reads return
    everything at once, a byte at a time, or in between. *)
Lemma unit_tests_pass : forallb passes unit_tests = true.
Proof. vm_compute. reflexivity. Qed.
