(* ===== verification/IntegrationTests.v ===== *)
(** * The integration tests of the repository

    The tests under src/tests, translated and run like the unit tests of
    [UnitTests]: the wire protocol (`protocol_tests.rs`), recovery of segments and
    partitions (`recovery_tests.rs`), the registry across a restart
    (`storage_tests.rs`) and a client of the whole broker across a restart
    (`tcp_integration_tests.rs`). Where a test looks for words in the text of an
    error, the translation looks for the errors with that text. *)
From S2P Require Import Prelude Errors BytesCrate StdText Types Frame Request Response Tokio FileSystem Index Record Segment Partition Registry Handler Connection Clients BenchReport UnitTests.
Import ListBytes ListTokio.
#[local] Open Scope Z_scope.

Module ProtocolTests.
Import FrameTests RequestTests.

(** Encoding, decoding and comparing; nothing is left in the buffer. *)
Definition round_trip (f : Frame) (check : Frame → Res bytes unit) : Res World unit := on_buf (
  _ ← Frame_encode f;
  decoded ← must_some Frame_decode;
  check decoded).
Definition is_err {S A} (r : A + RukaError) : Res S unit := assert (match r with inr _ => true | inl _ => false end).

Definition frame_produce_round_trip : Res World unit :=
  let f := frame AProduce 1 (str "orders") 0 (str "order-123-created") in
  round_trip f (λ decoded, _ ← assert_eq f decoded; buf ← gets id; assert (blen buf =? 0)).
Definition frame_fetch_round_trip : Res World unit :=
  let f := frame AFetch 2 (str "events") 3 (built (put_u64 42)) in
  round_trip f (λ decoded, assert_eq f decoded).
Definition frame_empty_payload : Res World unit :=
  let f := frame AProduce 0 (str "t") 0 [] in
  round_trip f (λ decoded, _ ← assert_eq f decoded; assert (blen (f_payload decoded) =? 0)).
Definition frame_single_char_topic : Res World unit :=
  let f := frame AProduce 7 (str "x") 0 (str "y") in
  round_trip f (λ decoded, assert_eq f decoded).
Definition frame_long_topic_name : Res World unit := on_buf (
  let long_topic := replicate 1000 x61 in
  _ ← Frame_encode (frame AProduce 8 long_topic 99 (str "data"));
  decoded ← attempt Frame_decode;
  is_err decoded).
Definition frame_large_payload : Res World unit :=
  let large_payload := replicate (Z.to_nat 65536) xab in
  round_trip (frame AProduce 10 (str "big-data") 0 large_payload) (λ decoded, assert_eq (f_payload decoded) large_payload).
Definition frame_max_partition_id : Res World unit :=
  round_trip (frame AProduce 11 (str "test") (2 ^ 32 - 1) (str "data")) (λ decoded, assert_eq (f_partition decoded) (2 ^ 32 - 1)).
Definition frame_max_correlation_id : Res World unit :=
  round_trip (frame AFetch (2 ^ 32 - 1) (str "test") 0 (replicate 8 x00)) (λ decoded, assert_eq (f_correlation_id decoded) (2 ^ 32 - 1)).

(** Errors *)
Definition decode_empty_buffer_returns_none : Res World unit := on_buf (
  result ← must Frame_decode; assert_eq result None).
Definition decode_partial_length_returns_none : Res World unit := scoped [x00; x00] (
  result ← must Frame_decode; assert_eq result None).
Definition decode_bad_magic_byte_errors : Res World unit := on_buf (
  _ ← Frame_encode (frame AProduce 1 (str "t") 0 (str "x"));
  _ ← modify (λ buf, <[4%nat := xff]> buf);
  result ← attempt Frame_decode;
  match result with inr (InvalidMagicByte _) => mret tt | _ => panic end).
Definition decode_unknown_api_key_errors : Res World unit := on_buf (
  _ ← Frame_encode (frame AProduce 1 (str "t") 0 (str "x"));
  _ ← modify (λ buf, <[6%nat := xff]> (<[5%nat := x00]> buf));
  result ← attempt Frame_decode;
  match result with inr (UnknownApiKey _) => mret tt | _ => panic end).
Definition decode_truncated_frame_returns_none : Res World unit := on_buf (
  _ ← Frame_encode (frame AProduce 1 (str "test-topic") 0 (str "hello world"));
  _ ← modify (λ buf, take (length buf / 2) buf);
  result ← must Frame_decode;
  assert_eq result None).
Definition decode_random_bytes_no_panic : Res World unit := on_buf (
  let random_data := (λ i, byte_of_Z (i * 37 + 13)) <$> seqZ 0 200 in
  _ ← put_u32 (blen random_data);
  _ ← modify (λ buf, buf ++ random_data);
  result ← attempt Frame_decode;
  is_err result).
Definition frame_size_too_large : Res World unit := on_buf (
  _ ← put_u32 (MAX_FRAME_SIZE + 1);
  _ ← modify (λ buf, buf ++ replicate 32 x00);
  result ← attempt Frame_decode;
  match result with inr (FrameTooLarge _ _) => mret tt | _ => panic end).

(** Several frames in one buffer, through [encode] and [decode]. *)
Fixpoint decode_all (decode : Res bytes (option Frame)) (frames : list Frame) : Res bytes unit :=
  match frames with
  | [] => buf ← gets id; assert (blen buf =? 0)
  | expected :: rest => decoded ← must_some decode; _ ← assert_eq decoded expected; decode_all decode rest
  end.
Fixpoint encode_all (encode : Frame → Res bytes unit) (frames : list Frame) : Res bytes unit :=
  match frames with [] => mret tt | f :: rest => _ ← must (encode f); encode_all encode rest end.

Definition multiple_frames_sequential_decode : Res World unit := on_buf (
  let frames := (λ i, frame (if i mod 2 =? 0 then AProduce else AFetch) i (str "topic-" ++ to_dec i) i (str "payload-" ++ to_dec i))
                <$> seqZ 0 5 in
  _ ← encode_all Frame_encode frames;
  decode_all Frame_decode frames).
Definition codec_multiple_frames : Res World unit := on_buf (
  let frames := (λ i, frame AProduce (i * 100) (str "t" ++ to_dec i) i (replicate (Z.to_nat ((i + 1) * 10)) (byte_of_Z i)))
                <$> seqZ 0 10 in
  _ ← encode_all Codec_encode frames;
  decode_all Codec_decode frames).
Definition codec_round_trip : Res World unit := on_buf (
  let f := frame AProduce 500 (str "codec-integration") 4 (str "codec test data") in
  _ ← must (Codec_encode f);
  decoded ← must_some Codec_decode;
  assert_eq f decoded).
Definition codec_incremental_feed : Res World unit :=
  let f := frame AFetch 999 (str "incremental-test") 0 (str "gradual") in
  full ← on_buf (_ ← must (Codec_encode f); gets id);
  on_buf (feed_loop f full).

(** Requests and responses *)
Definition produce_request_full_round_trip : Res World unit :=
  let req := {| pr_correlation_id := 100; pr_topic := str "user-events"; pr_partition := 2; pr_payload := str "user signed up" |} in
  round_trip (ProduceRequest_into_frame req) (λ decoded,
    decoded_req ← must (lift (Request_from_frame decoded)); assert_eq (RProduce req) decoded_req).
Definition fetch_request_full_round_trip : Res World unit :=
  let req := {| fr_correlation_id := 200; fr_topic := str "page-views"; fr_partition := 0; fr_offset := 999999; fr_max_bytes := 4096 |} in
  round_trip (FetchRequest_into_frame req) (λ decoded,
    decoded_req ← must (lift (Request_from_frame decoded)); assert_eq (RFetch req) decoded_req).
Definition produce_response_round_trip_through_wire : Res World unit :=
  round_trip (ProduceResponse_into_frame
      {| pres_correlation_id := 42; pres_topic := str "orders"; pres_partition := 0; pres_offset := 12345 |}) (λ decoded,
    _ ← assert_eq (f_correlation_id decoded) 42;
    _ ← assert_eq (f_topic decoded) (str "orders");
    assert_eq (be_val (take 8 (f_payload decoded))) 12345).
Definition fetch_response_round_trip_through_wire : Res World unit :=
  round_trip (FetchResponse_into_frame
      {| fres_correlation_id := 77; fres_topic := str "logs"; fres_partition := 1; fres_payload := str "fetched log entry data" |}) (λ decoded,
    _ ← assert_eq (f_correlation_id decoded) 77;
    assert_eq (f_payload decoded) (str "fetched log entry data")).
Definition error_response_round_trip : Res World unit :=
  round_trip (Response_into_frame (ResError {| eres_correlation_id := 42; eres_error_code := ECOffsetNotFound;
      eres_error_message := str "offset 99 not found" |})) (λ decoded,
    _ ← assert_eq (f_api_key decoded) AError;
    _ ← assert_eq (f_correlation_id decoded) 42;
    _ ← assert_eq (f_topic decoded) [];
    assert_eq (be_val (take 2 (f_payload decoded))) (ErrorCode_as_u16 ECOffsetNotFound)).

Definition fetch_response_multi_record_decode : Res World unit :=
  let record i ts := {| r_offset := i; r_timestamp_ms := ts; r_key := None; r_value := Some (str "msg-" ++ to_dec i) |} in
  let payload := built (_ ← put_u32 2; _ ← Record_encode (record 0 1000); Record_encode (record 1 2000)) in
  decoded ← on_buf (_ ← Frame_encode (frame AFetch 55 (str "t") 0 payload); must_some Frame_decode);
  _ ← assert_eq (f_api_key decoded) AFetch;
  scoped (f_payload decoded) (
    num_records ← get_u32; _ ← assert_eq num_records 2;
    dec0 ← must_some Record_decode; _ ← assert_eq dec0 (record 0 1000);
    dec1 ← must_some Record_decode; assert_eq dec1 (record 1 2000)).

Definition fetch_rejects_error_request_frame : Res World unit :=
  result ← attempt (lift (Request_from_frame (frame AError 1 [] 0 [])));
  is_err result.
Definition frame_allows_empty_topic_for_error_only : Res World unit :=
  _ ← round_trip (frame AError 10 [] 0 (str "err")) (λ decoded, assert_eq (f_topic decoded) []);
  on_buf (_ ← Frame_encode (frame AProduce 11 [] 0 (str "data")); result ← attempt Frame_decode; is_err result).

(** The bytes of a frame. *)
Definition wire_format_byte_layout : Res World unit := on_buf (
  _ ← Frame_encode (frame AProduce 16909060 (* 0x01020304 *) (str "AB") 84281096 (* 0x05060708 *) [x09; x0a]);
  buf ← gets id;
  let part a b := take (b - a) (drop a buf) in
  _ ← assert_eq (part 0 4)%nat (be_bytes 4 21);
  _ ← assert_eq (part 4 5)%nat [xca];
  _ ← assert_eq (part 5 7)%nat [x00; x01];
  _ ← assert_eq (part 7 11)%nat [x01; x02; x03; x04];
  _ ← assert_eq (part 11 13)%nat [x00; x02];
  _ ← assert_eq (part 13 15)%nat (str "AB");
  _ ← assert_eq (part 15 19)%nat [x05; x06; x07; x08];
  _ ← assert_eq (part 19 23)%nat [x00; x00; x00; x02];
  _ ← assert_eq (part 23 25)%nat [x09; x0a];
  assert (blen buf =? 25)).

Definition all : list (Res World unit) :=
  [frame_produce_round_trip; frame_fetch_round_trip; frame_empty_payload; frame_single_char_topic; frame_long_topic_name;
   frame_large_payload; frame_max_partition_id; frame_max_correlation_id; decode_empty_buffer_returns_none;
   decode_partial_length_returns_none; decode_bad_magic_byte_errors; decode_unknown_api_key_errors;
   decode_truncated_frame_returns_none; decode_random_bytes_no_panic; multiple_frames_sequential_decode;
   produce_request_full_round_trip; fetch_request_full_round_trip; produce_response_round_trip_through_wire;
   fetch_response_round_trip_through_wire; codec_round_trip; codec_multiple_frames; codec_incremental_feed;
   wire_format_byte_layout; frame_size_too_large; error_response_round_trip; fetch_response_multi_record_decode;
   fetch_rejects_error_request_frame; frame_allows_empty_topic_for_error_only].
End ProtocolTests.

Module RecoveryTests.
Import IndexTests.

Definition empty_payload_is_not_none : Res World unit :=
  owning (Segment_create tmp 0 1024 Config.None_) (
    offset ← must (Segment_append None (Some [])); _ ← assert_eq offset 0;
    _ ← must Segment_flush;
    rec ← must_some (Segment_read_at 0);
    _ ← assert_eq (r_offset rec) 0;
    _ ← assert_eq (r_value rec) (Some []);
    assert_eq (r_key rec) None).

Definition none_payload_round_trips : Res World unit :=
  owning (Segment_create tmp 0 1024 Config.None_) (
    offset ← must (Segment_append None None); _ ← assert_eq offset 0;
    _ ← must Segment_flush;
    rec ← must_some (Segment_read_at 0);
    _ ← assert_eq (r_offset rec) 0;
    _ ← assert_eq (r_value rec) None;
    assert_eq (r_key rec) None).

(** `path().extension() == "log"` *)
Definition has_log_extension (name : bytes) : bool :=
  bool_decide (str ".log" = drop (length name - 4) name ∧ (4 < length name)%nat).

Definition batch_splits_across_segments : Res World unit :=
  let payloads := (λ i, str "payload-" ++ format_020 i) <$> seqZ 0 10 in
  _ ← owning (Partition_open_or_create (str "test_topic") 0 tmp 200 Config.None_) (
        base_offset ← must (Partition_append_batch payloads); _ ← assert_eq base_offset 0;
        _ ← must Partition_flush;
        entries ← in_world (must (read_dir (join (join tmp (str "test_topic")) (str "0"))));
        _ ← assert (1 <? blen (List.filter has_log_extension entries));
        for_range 10 0 (λ i,
          rec ← must_some (Partition_read i);
          _ ← assert_eq (r_offset rec) i;
          assert_eq (r_value rec) (payloads !! Z.to_nat i)));
  mret tt.

(** A segment with [n] values `<prefix>-0`, `<prefix>-1`, ... *)
Definition value (prefix : bytes) (i : Z) : bytes := prefix ++ str "-" ++ to_dec i.
Definition populate (prefix : bytes) (n : nat) : Res World unit :=
  owning (Segment_create tmp 0 (1024 * 1024) Config.None_) (
    _ ← for_range n 0 (λ i, _ ← must (Segment_append None (Some (value prefix i))); mret tt);
    must Segment_flush).
(** All of them are read after a reload, and [more] is checked. *)
Definition reload (prefix : bytes) (n : nat) (more : Res (Segment * World) unit) : Res World unit :=
  owning (Segment_load tmp 0 (1024 * 1024) Config.None_) (
    s ← gets id; _ ← assert_eq (sg_next_offset (fst s)) (Z.of_nat n);
    _ ← for_range n 0 (λ i,
      rec ← must_some (Segment_read_at i);
      _ ← assert_eq (r_offset rec) i;
      assert_eq (r_value rec) (Some (value prefix i)));
    more).

Definition remove_file (p : path) : Res World unit :=
  _ ← syscall;
  file ← gets (λ w, bool_decide (is_Some (w_files w !! p)));
  if file : bool then modify (λ w, set_files (delete p (w_files w)) w) else throw (Io NotFound).
(** Opening a file and writing [d] to it. *)
Definition write_to (o : OpenOptions) (p : path) (d : bytes) : Res World unit :=
  f ← must (open o p); _ ← with_local f (must (write_all d)); mret tt.

Definition missing_index_rebuilds_from_log : Res World unit :=
  _ ← populate (str "val") 5;
  let index_path := join tmp (str "00000000000000000000.index") in
  exists_ ← path_exists index_path; _ ← assert exists_;
  _ ← must (remove_file index_path);
  exists_ ← path_exists index_path; _ ← assert (negb exists_);
  reload (str "val") 5 (mret tt).

Definition corrupt_index_rebuilds_or_recovers : Res World unit :=
  _ ← populate (str "val") 5;
  _ ← write_to {| oo_create := true; oo_truncate := true; oo_append := false |}
        (join tmp (str "00000000000000000000.index")) (replicate 7 xff);
  reload (str "val") 5 (mret tt).

Definition partial_trailing_record_is_truncated : Res World unit :=
  _ ← populate (str "rec") 3;
  _ ← write_to {| oo_create := false; oo_truncate := false; oo_append := true |}
        (join tmp (str "00000000000000000000.log")) [x00; x00; x00; x50];
  reload (str "rec") 3 (r ← must (Segment_read_at 3); assert_eq r None).

Definition single_message_larger_than_segment_is_rejected : Res World unit :=
  owning (Segment_create tmp 0 100 Config.None_) (
    result ← attempt (Segment_append None (Some (replicate 200 xab)));
    match result with inr MessageTooLarge | inr (SegmentFull _ _) => mret tt | _ => panic end).

Definition all : list (Res World unit) :=
  [empty_payload_is_not_none; none_payload_round_trips; batch_splits_across_segments; missing_index_rebuilds_from_log;
   corrupt_index_rebuilds_or_recovers; partial_trailing_record_is_truncated; single_message_larger_than_segment_is_rejected].
End RecoveryTests.

Module StorageTests.
Import RegistryTests.

Definition fetch_at (tx : Sender) (offset : Z) : Test LogRecord :=
  reply ← oneshot_records;
  _ ← must_await (send tx (Fetch offset 4096 reply));
  r ← must_await (await_reply rt_records reply);
  records ← must_await (Ready r);
  match records with rec :: _ => Ready rec | [] => crash end.
Definition payload (i : Z) : bytes := str "Payload " ++ to_dec i.

Fixpoint for_each (n : nat) (i : Z) (body : Z → Test unit) : Test unit :=
  match n with O => Ready tt | S n' => _ ← body i; for_each n' (i + 1) body end.
Definition append_all (tx : Sender) : Test unit :=
  for_each 10 0 (λ i, offset ← produce tx (payload i); check (bool_decide (offset = i))).
Definition read_all (tx : Sender) : Test unit :=
  for_each 10 0 (λ i, rec ← fetch_at tx i;
    check (bool_decide (r_offset rec = i ∧ r_value rec = Some (payload i)))).

(** The second registry runs beside the tasks of the first, which are idle: it
    gets the files the first one left. *)
Definition integration_storage_end_to_end : Res World unit := λ w,
  let topic := str "integration_topic" in
  match block_on 1000 (tx ← get_or_create topic 0; _ ← append_all tx; read_all tx)
          (TopicRegistry_new tmp 200 1 Config.LogAndIndex 1024, no_tasks w) with
  | None => (Panic, w)
  | Some (_, s) =>
      match TopicRegistry_load tmp 200 1 Config.LogAndIndex 1024 (no_tasks (rt_world (snd s))) with
      | (Ok reloaded, rt) =>
          match block_on 1000 (tx ← get topic 0; read_all tx) (reloaded, rt) with
          | Some (_, s') => (Ok tt, rt_world (snd s'))
          | None => (Panic, w)
          end
      | _ => (Panic, w)
      end
  end.
End StorageTests.

Module TcpTests.
#[local] Instance texts : ErrorTexts :=
  {| to_string _ := str "error"; send_error_text := str "channel closed"; recv_error_text := str "channel closed" |}.

(** The broker's tasks run in turn until none can. *)
Definition first_move (sys : System) : option System :=
  head (omap (λ m, do_move m sys)
    ([MAccept] ++ (MConnection <$> seq 0 (length (sy_conns sys))) ++ (MPartition <$> seq 0 (rt_next (snd (sy_shared sys)))))).
Fixpoint settle (fuel : nat) (sys : System) : System :=
  match fuel with
  | O => sys
  | S fuel' => match first_move sys with Some sys' => settle fuel' sys' | None => sys end
  end.

(** A new connection sends one request, reads the reply and is closed. *)
Definition call (req : Request) (sys : System) : option (Frame * System) :=
  let input := snd (Frame_encode (Request_into_frame req) []) in
  let sys' := settle 100 {| sy_backlog := [inl (input, [])]; sy_conns := sy_conns sys; sy_shared := sy_shared sys |} in
  match last (sy_conns sys') with
  | Some (Closed fr) => match framed_next (framed_out fr, []) with (Some (inl f), _) => Some (f, sys') | _ => None end
  | _ => None
  end.
Definition require (b : bool) : option unit := if b then Some tt else None.

Definition fetch_one_record (correlation_id : Z) (topic : bytes) (offset : Z) (sys : System) : option (LogRecord * System) :=
  '(fetch_frame, sys) ← call (RFetch {| fr_correlation_id := correlation_id; fr_topic := topic; fr_partition := 0;
                                        fr_offset := offset; fr_max_bytes := 4096 |}) sys;
  _ ← require (bool_decide (f_api_key fetch_frame = AFetch ∧ f_correlation_id fetch_frame = correlation_id));
  match (num_records ← get_u32; _ ← assert (1 <=? num_records); must_some Record_decode) (f_payload fetch_frame) with
  | (Ok rec, _) => Some (rec, sys)
  | _ => None
  end.

Definition hello : bytes := str "Hello, TCP!".
Definition tcp_produce_fetch_and_restart : Res World unit := λ w,
  let max := 10 * 1024 * 1024 in
  let body : option unit :=
    '(response_frame, sys) ← call (RProduce {| pr_correlation_id := 1; pr_topic := str "test-topic"; pr_partition := 0; pr_payload := hello |})
      {| sy_backlog := []; sy_conns := []; sy_shared := (TopicRegistry_new tmp max 1 Config.LogAndIndex 1024, no_tasks w) |};
    _ ← require (bool_decide (f_api_key response_frame = AProduce ∧ f_correlation_id response_frame = 1));
    _ ← require (match read_offset (f_payload response_frame) with Ok offset => offset =? 0 | _ => false end);
    '(record, sys) ← fetch_one_record 2 (str "test-topic") 0 sys;
    _ ← require (bool_decide (r_value record = Some hello ∧ r_offset record = 0));
    match TopicRegistry_load tmp max 1 Config.LogAndIndex 1024 (no_tasks (shutdown sys)) with
    | (Ok reloaded, rt) =>
        '(restarted, _) ← fetch_one_record 3 (str "test-topic") 0 {| sy_backlog := []; sy_conns := []; sy_shared := (reloaded, rt) |};
        require (bool_decide (r_value restarted = Some hello ∧ r_offset restarted = 0))
    | _ => None
    end in
  match body with Some _ => (Ok tt, w) | None => (Panic, w) end.
End TcpTests.

(** ** The tests pass *)
Definition integration_tests : list (Res World unit) :=
  ProtocolTests.all ++ RecoveryTests.all ++ [StorageTests.integration_storage_end_to_end; TcpTests.tcp_produce_fetch_and_restart].

(** Every unit test of the sources and every integration test of the
    repository passes in the model, whether reads return everything at once, a
    byte at a time, or in between. *)
Lemma source_tests_pass : forallb passes (unit_tests ++ integration_tests) = true.
Proof.
  rewrite forallb_app, unit_tests_pass. vm_compute. reflexivity.
Qed.
